(* ===== verification/_CoqProject ===== *)
-Q . S2P
Prelude.v
Strings.v
Fs.v
MemFs.v
MemFsInv.v
MemFsSafe.v
MemFsSpec.v
MemFsDir.v
MemFsWitness.v
IndexMap.v
State.v
StateProps.v
StateSpec.v
StateWitness.v
Pipe.v
Ast.v
Hir.v
Ir.v
Vm.v
VmProps.v
Glob.v
GlobProps.v
ExtGlob.v
ExtGlobProps.v
Regex.v
RegexProps.v
FdTable.v
Router.v
RouterProps.v
Signals.v
DblBracket.v
DblBracketProps.v
Lexer.v
LexerProps.v
LexerSpec.v
WordParser.v
WordParserProps.v
WordRoundTrip.v
Parser.v
ParserProps.v
ParserStream.v
ParserRoundTrip.v
Arith.v
ArithProps.v
ArithSpec.v
ArithRun.v
ArithText.v
ExpandGlob.v
ExpandGlobProps.v
Braces.v
BracesSpec.v
Utf8.v
Stream.v
StreamProps.v
StreamLines.v
StreamLinesProps.v
StreamBytes.v
StreamBytesProps.v
StreamGrep.v
StreamGrepProps.v
StreamSed.v
StreamSedProps.v
StreamArgs.v
StreamArgsProps.v
StreamStage.v
StreamStageProps.v
StreamProcess.v
StreamProcessProps.v
StreamDrive.v
StreamDriveProps.v
StreamPipeline.v
StreamRuntime.v
StreamRun.v
StreamSpec.v
StreamWitness.v
