(* ===== verification/Prelude.v ===== *)
(** * A verification of the wasmsh shell

    wasmsh is a POSIX-style shell in Rust that runs inside a host process or a
    WebAssembly sandbox.  A command line is parsed to an AST (wasmsh-ast),
    lowered to HIR (wasmsh-hir) and executed by the runtime (wasmsh-runtime); a
    subset of and/or lists is compiled to a small instruction set (wasmsh-ir)
    and run by a budgeted interpreter (wasmsh-vm).  All of them work on one
    shell state (wasmsh-state) and one virtual filesystem (wasmsh-fs), and the
    runtime adds patterns, conditional expressions, descriptors and output
    routing.  This library models these parts as executable Rocq functions and
    proves what makes each of them correct.

    ** Files, and the code they model (paths under src/crates)

    - [Prelude], [Strings]: this file has the byte strings, machine integers,
      compilation targets, the result and state monads with their Hoare rules,
      and the tactics; [Strings] has the [str] methods the code calls.
    - [Fs], [MemFs], [MemFsInv], [MemFsInv], [MemFsSafe], [MemFsSafe],
      [MemFsSpec], [MemFsDir], [MemFsWitness]: wasmsh-fs/src/lib.rs and
      memfs.rs.  [MemoryFsInner] is the store behind the [RefCell]; each [Vfs]
      method is a computation on it.  Virtual readers are cells of an abstract
      reader type with the [Read] class.  [MemFsSafe] has the call language
      [fs_op] and the reachable stores.
    - [IndexMap], [State], [StateProps], [StateSpec], [StateSpec],
      [StateWitness]: wasmsh-state/src/lib.rs.  Scopes are insertion-ordered
      maps; [ShellState] has the fields of the struct.  The clock is an argument
      of [get_var].
    - [Pipe]: wasmsh-vm/src/pipe.rs.
    - [Ast], [Hir], [Ir]: wasmsh-ast/src/lib.rs, wasmsh-hir/src/lib.rs and
      lower.rs, wasmsh-ir/src/lib.rs; the syntax trees, the lowering of programs
      to HIR and of and/or lists to instructions.
    - [Vm], [VmProps]: wasmsh-vm/src/lib.rs; budgets, limits, cancellation and
      the interpreter, which is proved against the class [VmExecutor] with the
      laws [LawfulExecutor]; [BuiltinVmExecutor] is an instance of it.
    - [Glob], [GlobProps], [ExtGlob], [ExtGlobProps], [Regex], [RegexProps]:
      wasmsh-runtime/src/pattern.rs; globs, extended globs and the regular
      expressions of [=~].
    - [FdTable]: wasmsh-runtime/src/fd_table.rs; [Router], [RouterProps]: the
      two output routers of wasmsh-runtime/src/lib.rs with captures, redirection
      scopes and the output limit, over [MemFs] sinks, [Pipe] buffers and the
      accounting of [Vm].
    - [Signals]: wasmsh-runtime/src/signals.rs.
    - [DblBracket], [DblBracketProps]: wasmsh-runtime/src/dbl_bracket.rs; the
      evaluator of conditional expressions over [State], [MemFs], [Glob] and
      [Regex].

    ** What the theorems show

    - Filesystem: quotas, tree shape and handle invariants hold after any
      sequence of calls; the byte total is exact; writing and reading back, the
      effect of sinks, permissions and symbolic links are specified on success
      and on error; listings are exact, sorted and independent of the iteration
      order of the hash map; paths have canonical forms.
    - Shell state: readonly variables are immutable under any sequence of calls,
      a popped scope leaves no trace of scalar changes, assignments are read
      back, the nameref recursion either ends within a bound or never, and the
      error channels are faithful.
    - Syntax and interpreter: lowering to HIR is a bijection onto normal forms;
      a compiled and/or list has the short-circuit behaviour of the list; step
      and output limits and cancellation are exact.
    - Patterns: the glob matcher decides the declarative glob relation; extended
      globs mean their expansions; the regular-expression search is leftmost and
      exact on group-free patterns, transactional on captures and safe on ASCII.
    - Descriptors and output: redirections follow the POSIX order; a capture
      scope returns exactly its bytes; redirected writes reach the file in
      order; the output flag is exact for one router and not for a mixture.
    - Conditional expressions: evaluation always returns, agrees with the
      meaning of every printed expression, and fills [BASH_REMATCH] exactly.

    Several theorems record where the code departs from its documentation; they
    state the behaviour of the code on a concrete trace.

    ** Conventions

    Strings are byte lists ([str]); a [str] slice that is not at a character
    boundary is a [Panic].  Integers are [Z] with the wrapping, saturating or
    checked operation of the source written out, and [usize] has the width of the
    [Target].  An operation that fails after changing the store returns the
    changed store.  An [Rc<RefCell<..>>] is an address in a store.

    Loops that are not structural take fuel, and each has a theorem that its
    fuel is enough: the glob loop needs one pass over the name per backtracking
    point ([glob_fuel]), extended globs a bound on the operators still to expand, symbolic links
    the bound of the source, the interpreter the length of the program or the
    step limit, a conditional expression five calls per token
    ([dbl_bracket_fuel]), [set_var] one call per variable.

    ** What is not modelled

    The lexer, the parser, word and arithmetic expansion, the builtins and the
    streaming filters are planned next; where modelled code calls them
    ([expand_word], the builtin functions, the pipeline behind a live process
    substitution) they are arguments.  The rest of the HIR executor (jobs,
    traps, functions), the utilities, the host protocol, the browser, Pyodide
    and dispatcher crates and the other filesystem backends are left out: they
    are glue to the host or self-contained commands.  Unicode lower-casing is an
    argument.  Dead code of pattern.rs is left out. *)

From stdpp Require Export prelude gmap list strings sorting.
From Stdlib Require Export ZArith Lia.
From Stdlib Require Strings.Ascii.
Export (notations) Stdlib.Strings.Ascii.

#[export] Set Default Goal Selector "!".
Open Scope Z_scope.

(** ** Byte strings *)

(** A Rust [str], [String], [SmolStr] or [[u8]] is its sequence of bytes. *)
Abbreviation byte := Ascii.ascii (only parsing).
Abbreviation str := (list Ascii.ascii) (only parsing).

Declare Scope wasmsh_scope.
Delimit Scope wasmsh_scope with W.

(** String literals of the source, as bytes. *)
Definition lit (s : string) : str := String.list_ascii_of_string s.

Notation "# s" := (lit s%string) (at level 9, s at level 0, format "# s") : wasmsh_scope.
Open Scope wasmsh_scope.

Definition byte_val (c : byte) : Z := Z.of_N (Ascii.N_of_ascii c).

Lemma byte_val_range c : 0 <= byte_val c < 256.
Proof.
  unfold byte_val. pose proof (Ascii.N_ascii_bounded c). lia.
Qed.

Lemma byte_val_inj a b : byte_val a = byte_val b -> a = b.
Proof.
  unfold byte_val. intros H%N2Z.inj.
  rewrite <- (Ascii.ascii_N_embedding a), <- (Ascii.ascii_N_embedding b). by f_equal.
Qed.

(** ** Compilation targets

    The width of [usize] and the [cfg(target_arch = "wasm32")] branches of the
    source depend on the target; definitions that use them take it as a class
    argument. *)
Class Target := {
  usize_bits : Z;
  is_wasm32 : bool;
  usize_bits_ok : usize_bits = 32 \/ usize_bits = 64;
}.

Definition wasm32 : Target :=
  {| usize_bits := 32; is_wasm32 := true; usize_bits_ok := or_introl eq_refl |}.
Definition native64 : Target :=
  {| usize_bits := 64; is_wasm32 := false; usize_bits_ok := or_intror eq_refl |}.

Definition usize_max `{Target} : Z := 2 ^ usize_bits - 1.

Definition U32_MAX : Z := 2 ^ 32 - 1.
Definition U64_MAX : Z := 2 ^ 64 - 1.
Definition I32_MIN : Z := - 2 ^ 31.
Definition I32_MAX : Z := 2 ^ 31 - 1.
Definition I64_MIN : Z := - 2 ^ 63.
Definition I64_MAX : Z := 2 ^ 63 - 1.

(** Rust's [saturating_add], [saturating_sub] on an unsigned type with the
    given maximum, and the wrapping [+] of a release build. *)
Definition sat_add (max a b : Z) : Z := Z.min max (a + b).
Definition sat_sub (a b : Z) : Z := Z.max 0 (a - b).
Definition wrap_add (max a b : Z) : Z := (a + b) mod (max + 1).

Lemma usize_max_ge `{Target} : 2 ^ 32 - 1 <= usize_max.
Proof. unfold usize_max. destruct usize_bits_ok as [-> | ->]; lia. Qed.

(** A three-digit octal literal [0oabc] of the source. *)
Definition octal (a b c : Z) : Z := (a * 8 + b) * 8 + c.

(** ** Fallible and stateful computations

    [res E A] is a Rust [Result<A, E>] extended with a panic; [comp S E A] is a
    computation over a mutable store [S].  The store is returned on every
    outcome: what a failing operation already wrote stays written. *)
Inductive res (E A : Type) : Type :=
  | Ok (a : A)
  | Err (e : E)
  | Panic (why : string).
Arguments Ok {E A} a.
Arguments Err {E A} e.
Arguments Panic {E A} why.

#[export] Instance res_ret {E} : MRet (res E) := fun A a => Ok a.
#[export] Instance res_bind {E} : MBind (res E) := fun A B f m =>
  match m with
  | Ok a => f a
  | Err e => Err e
  | Panic w => Panic w
  end.

Definition comp (S E A : Type) : Type := S -> S * res E A.

#[export] Instance comp_ret {S E} : MRet (comp S E) := fun A a s => (s, Ok a).
#[export] Instance comp_bind {S E} : MBind (comp S E) := fun A B f m s =>
  match m s with
  | (s', Ok a) => f a s'
  | (s', Err e) => (s', Err e)
  | (s', Panic w) => (s', Panic w)
  end.

Definition throw {S E A} (e : E) : comp S E A := fun s => (s, Err e).
Definition panic {S E A} (w : string) : comp S E A := fun s => (s, Panic w).
Definition get {S E} : comp S E S := fun s => (s, Ok s).
Definition put {S E} (s : S) : comp S E unit := fun _ => (s, Ok tt).
Definition modify {S E} (f : S -> S) : comp S E unit := fun s => (f s, Ok tt).
Definition lift_res {S E A} (r : res E A) : comp S E A := fun s => (s, r).

Definition res_is_ok {E A} (r : res E A) : bool :=
  match r with Ok _ => true | _ => false end.

(** ** Hoare-style reasoning about computations *)

(** [hoare P m Q]: from a store satisfying [P], [m] ends in a store and an
    outcome satisfying [Q], whatever the outcome is. *)
Definition hoare {S E A} (P : S -> Prop) (m : comp S E A)
    (Q : S -> res E A -> Prop) : Prop :=
  forall s, P s -> Q (fst (m s)) (snd (m s)).

(** [preserves I m]: [I] is an invariant of [m] on every path, including the
    error and panic paths. *)
Definition preserves {S E A} (I : S -> Prop) (m : comp S E A) : Prop :=
  hoare I m (fun s _ => I s).

Section preserves.
Context {S E : Type} (I : S -> Prop).

Lemma preserves_ret {A} (a : A) : preserves I (mret a : comp S E A).
Proof. by intros s. Qed.

Lemma preserves_throw {A} (e : E) : preserves I (throw e : comp S E A).
Proof. by intros s. Qed.

Lemma preserves_panic {A} w : preserves I (panic w : comp S E A).
Proof. by intros s. Qed.

Lemma preserves_lift {A} (r : res E A) : preserves I (lift_res r : comp S E A).
Proof. by intros s. Qed.

Lemma preserves_modify (f : S -> S) :
  (forall s, I s -> I (f s)) -> preserves I (modify f : comp S E unit).
Proof. intros H s Hs. by apply H. Qed.

Lemma preserves_bind {A B} (m : comp S E A) (k : A -> comp S E B) :
  preserves I m -> (forall a, preserves I (k a)) -> preserves I (m ≫= k).
Proof.
  intros Hm Hk s Hs. unfold mbind, comp_bind.
  specialize (Hm s Hs). destruct (m s) as [s' [a|e|w]]; simpl in *; [|done..].
  by apply Hk.
Qed.

(** After [get], the continuation may use that the value read is the store. *)
Lemma preserves_get_bind {B} (k : S -> comp S E B) :
  (forall s0, hoare (fun s => I s /\ s = s0) (k s0) (fun s _ => I s)) ->
  preserves I (get ≫= k).
Proof. intros Hk s Hs. unfold mbind, comp_bind, get. by apply Hk. Qed.

Lemma hoare_weaken {A} (P P' : S -> Prop) (m : comp S E A) Q :
  (forall s, P' s -> P s) -> hoare P m Q -> hoare P' m Q.
Proof. intros HP H s Hs. by apply H, HP. Qed.
End preserves.

(** Extract the [preserves] fact for one run. *)
Lemma preserves_run {S E A} (I : S -> Prop) (m : comp S E A) s s' r :
  preserves I m -> I s -> m s = (s', r) -> I s'.
Proof. intros H Hs Hr. specialize (H s Hs). by rewrite Hr in H. Qed.

(** ** Automation *)

Create HintDb wasmsh.
Create Rewrite HintDb wasmsh.
#[export] Hint Resolve preserves_ret preserves_throw preserves_panic
  preserves_lift : wasmsh.

(** Case split on the outermost discriminee of a [match] or [if] in the goal
    or, failing that, in a hypothesis. *)
Ltac case_split :=
  match goal with
  | |- context [if ?b then _ else _] => destruct b eqn:?
  | |- context [match ?x with _ => _ end] => destruct x eqn:?
  end.

Ltac case_split_in H :=
  match type of H with
  | context [if ?b then _ else _] => destruct b eqn:?
  | context [match ?x with _ => _ end] => destruct x eqn:?
  end.

(** Discharge the booleans that guard the source's branches. *)
Ltac bool_to_prop :=
  repeat match goal with
  | H : (_ && _)%bool = true |- _ => apply andb_true_iff in H as [? ?]
  | H : (_ || _)%bool = false |- _ => apply orb_false_iff in H as [? ?]
  | H : negb _ = true |- _ => apply negb_true_iff in H
  | H : negb _ = false |- _ => apply negb_false_iff in H
  | H : bool_decide _ = true |- _ => apply bool_decide_eq_true in H
  | H : bool_decide _ = false |- _ => apply bool_decide_eq_false in H
  | H : (_ <=? _) = true |- _ => apply Z.leb_le in H
  | H : (_ <=? _) = false |- _ => apply Z.leb_gt in H
  | H : (_ <? _) = true |- _ => apply Z.ltb_lt in H
  | H : (_ <? _) = false |- _ => apply Z.ltb_ge in H
  | H : (_ =? _) = true |- _ => apply Z.eqb_eq in H
  | H : (_ =? _) = false |- _ => apply Z.eqb_neq in H
  end.

(** ** Lists and lengths *)

(** Rust's [len()] as an unbounded integer. *)
Definition len {A} (l : list A) : Z := Z.of_nat (length l).

Lemma len_nonneg {A} (l : list A) : 0 <= len l.
Proof. unfold len. lia. Qed.

Lemma len_nil {A} : len (@nil A) = 0.
Proof. done. Qed.

Lemma len_app {A} (l k : list A) : len (l ++ k) = len l + len k.
Proof. unfold len. rewrite length_app. lia. Qed.

Lemma len_cons {A} (x : A) l : len (x :: l) = 1 + len l.
Proof. unfold len. simpl. lia. Qed.

#[export] Hint Rewrite @len_nil @len_app @len_cons : wasmsh.

(** Rust's [&v[a..b]] on a slice whose bounds are in range. *)
Definition slice {A} (l : list A) (a b : nat) : list A := take (b - a) (drop a l).

Lemma slice_length {A} (l : list A) a b :
  (a <= b)%nat -> (b <= length l)%nat -> length (slice l a b) = (b - a)%nat.
Proof. intros. unfold slice. rewrite length_take, length_drop. lia. Qed.

Lemma slice_all {A} (l : list A) : slice l 0 (length l) = l.
Proof. unfold slice. rewrite drop_0, Nat.sub_0_r. apply firstn_all. Qed.

(** [find_map f l]: the first [Some] among the images, as an [iter().find_map]
    or a loop that returns at the first hit. *)
Fixpoint find_map {A B} (f : A -> option B) (l : list A) : option B :=
  match l with
  | [] => None
  | x :: l' => match f x with Some y => Some y | None => find_map f l' end
  end.

Lemma find_map_Some {A B} (f : A -> option B) l y :
  find_map f l = Some y -> exists x, x ∈ l /\ f x = Some y.
Proof.
  induction l as [|x l IH]; simpl; [done|].
  destruct (f x) eqn:E; intros; simplify_eq; [clear IH; set_solver|].
  destruct IH as (z & ? & ?); [done|]. exists z. set_solver.
Qed.

Lemma find_map_None {A B} (f : A -> option B) l :
  find_map f l = None <-> forall x, x ∈ l -> f x = None.
Proof.
  induction l as [|x l IH]; simpl; [set_solver|].
  destruct (f x) eqn:E; split.
  - done.
  - intros H. specialize (H x). rewrite E in H. set_solver.
  - intros H y [->|Hy]%elem_of_cons; [done|]. by apply IH.
  - intros H. apply IH. set_solver.
Qed.
