(* ===== verification/Strings.v ===== *)
(** * Byte-string operations of the Rust standard library

    The [str] methods the modelled crates call: [split], [join],
    [starts_with]/[ends_with], [strip_prefix], [find], [rsplit_once], [trim],
    slicing at character boundaries, lexical comparison, [to_ascii_uppercase],
    [to_string] of integers and [parse::<int>()].  The lemmas are the round
    trips the components rely on. *)

From S2P Require Import Prelude.

Definition slash : byte := "/"%char.

(** ** [str::split(char)] and [[&str]::join] *)

Fixpoint split_on (c : byte) (s : str) : list str :=
  match s with
  | [] => [[]]
  | x :: s' =>
      if decide (x = c) then [] :: split_on c s'
      else match split_on c s' with
           | h :: t => (x :: h) :: t
           | [] => [[x]]
           end
  end.

Fixpoint join (sep : str) (parts : list str) : str :=
  match parts with
  | [] => []
  | [p] => p
  | p :: ps => p ++ sep ++ join sep ps
  end.

Lemma split_on_nonempty c s : split_on c s <> [].
Proof. induction s as [|x s IH]; simpl; [done|]. case_decide; [done|]. by destruct (split_on c s). Qed.

Lemma split_on_no_sep c s : Forall (fun p => c ∉ p) (split_on c s).
Proof.
  induction s as [|x s IH]; simpl; [repeat constructor; set_solver|].
  case_decide as Hx; [constructor; [set_solver|done]|].
  destruct (split_on c s) as [|h t]; [repeat constructor; set_solver|].
  inversion IH; subst. constructor; [set_solver|done].
Qed.

Lemma split_on_app_sep c p s :
  c ∉ p -> split_on c (p ++ c :: s) = p :: split_on c s.
Proof.
  induction p as [|x p IH]; simpl; intros Hp.
  - by rewrite decide_True by done.
  - rewrite decide_False by set_solver. rewrite IH by set_solver. done.
Qed.

Lemma split_on_single c p : c ∉ p -> split_on c p = [p].
Proof.
  induction p as [|x p IH]; simpl; intros Hp; [done|].
  rewrite decide_False by set_solver. rewrite IH by set_solver. done.
Qed.

(** Splitting what was joined gives the parts back. *)
Lemma split_on_join c parts :
  parts <> [] -> Forall (fun p => c ∉ p) parts ->
  split_on c (join [c] parts) = parts.
Proof.
  induction parts as [|p ps IH]; [done|]. intros _ Hf.
  inversion Hf as [|?? Hp Hps]; subst.
  destruct ps as [|q ps]; [by apply split_on_single|].
  change (split_on c (p ++ c :: join [c] (q :: ps)) = p :: q :: ps).
  rewrite split_on_app_sep by done. f_equal. by apply IH.
Qed.

Lemma join_split_on c s : join [c] (split_on c s) = s.
Proof.
  induction s as [|x s IH]; simpl; [done|].
  pose proof (split_on_nonempty c s) as Hne.
  case_decide as Hx; subst.
  - destruct (split_on c s) eqn:E; [done|]. simpl in *. by rewrite IH.
  - destruct (split_on c s) as [|h t]; [done|]. destruct t; simpl in *; by rewrite <- IH.
Qed.

Lemma join_nil_iff sep parts :
  Forall (fun p => p <> []) parts -> join sep parts = [] <-> parts = [].
Proof.
  intros Hf. split; [|by intros ->].
  destruct parts as [|p ps]; [done|]. inversion Hf; subst.
  destruct ps; simpl; [done|]. intros [? _]%app_eq_nil. done.
Qed.

Lemma join_cons sep p q ps : join sep (p :: q :: ps) = p ++ sep ++ join sep (q :: ps).
Proof. done. Qed.

(** ** Prefixes, suffixes, substrings *)

Fixpoint strip_prefix (p s : str) : option str :=
  match p, s with
  | [], _ => Some s
  | x :: p', y :: s' => if decide (x = y) then strip_prefix p' s' else None
  | _ :: _, [] => None
  end.

Definition starts_with (p s : str) : bool := bool_decide (is_Some (strip_prefix p s)).
Definition ends_with (p s : str) : bool := starts_with (reverse p) (reverse s).

Lemma strip_prefix_Some p s r : strip_prefix p s = Some r <-> s = p ++ r.
Proof.
  revert s. induction p as [|x p IH]; intros [|y s]; simpl.
  - naive_solver.
  - naive_solver.
  - naive_solver.
  - case_decide as Hx; subst; rewrite ?IH; naive_solver.
Qed.

Lemma starts_with_true p s : starts_with p s = true <-> exists r, s = p ++ r.
Proof.
  unfold starts_with. rewrite bool_decide_eq_true. unfold is_Some.
  by setoid_rewrite strip_prefix_Some.
Qed.

Lemma starts_with_app p r : starts_with p (p ++ r) = true.
Proof. apply starts_with_true. eauto. Qed.

Lemma ends_with_true p s : ends_with p s = true <-> exists r, s = r ++ p.
Proof.
  unfold ends_with. rewrite starts_with_true. split; intros [r Hr].
  - exists (reverse r). apply (f_equal reverse) in Hr.
    by rewrite reverse_involutive, reverse_app, reverse_involutive in Hr.
  - exists (reverse r). by rewrite Hr, reverse_app.
Qed.

(** [str::find(&str)]: the byte offset of the first occurrence. *)
Fixpoint find_sub (needle s : str) : option nat :=
  if starts_with needle s then Some 0%nat
  else match s with
       | [] => None
       | _ :: s' => S <$> find_sub needle s'
       end.

Lemma find_sub_Some needle s i :
  find_sub needle s = Some i ->
  (i + length needle <= length s)%nat /\ slice s i (i + length needle) = needle.
Proof.
  revert i. induction s as [|x s IH]; intros i; cbn [find_sub].
  - case_split; [|done]. intros [= <-]. apply starts_with_true in Heqb as [r Hr].
    symmetry in Hr. apply app_eq_nil in Hr as [-> ->]. done.
  - case_split.
    + intros [= <-]. apply starts_with_true in Heqb as [r Hr]. rewrite Hr.
      rewrite length_app. split; [lia|]. unfold slice.
      rewrite drop_0. replace (0 + length needle - 0)%nat with (length needle) by lia.
      by rewrite take_app_length.
    + intros (j & Hj & ->)%fmap_Some_1. destruct (IH j Hj) as [Hl Hs].
      split; [simpl; lia|]. unfold slice in *. simpl. done.
Qed.

(** [str::rsplit_once(char)]: split at the last occurrence. *)
Fixpoint rsplit_once (c : byte) (s : str) : option (str * str) :=
  match s with
  | [] => None
  | x :: s' =>
      match rsplit_once c s' with
      | Some (a, b) => Some (x :: a, b)
      | None => if decide (x = c) then Some ([], s') else None
      end
  end.

Lemma rsplit_once_Some c s a b :
  rsplit_once c s = Some (a, b) -> s = a ++ c :: b /\ c ∉ b.
Proof.
  assert (Hnone : forall s, rsplit_once c s = None -> c ∉ s).
  { clear. induction s as [|x s IH]; simpl; [set_solver|].
    destruct (rsplit_once c s) as [[??]|]; [done|]. case_decide; [done|]. set_solver. }
  revert a b. induction s as [|x s IH]; intros a b; simpl; [done|].
  destruct (rsplit_once c s) as [[a' b']|] eqn:E.
  - intros [= <- <-]. destruct (IH a' b') as [-> ?]; done.
  - case_decide; [|done]. intros [= <- <-]. subst. eauto.
Qed.

(** ** UTF-8 boundaries

    Slicing a [str] panics unless both ends are character boundaries: the ends
    of the string and the positions of bytes that are not UTF-8 continuation
    bytes ([0x80..=0xBF]). *)
Definition is_continuation (c : byte) : bool :=
  (128 <=? byte_val c) && (byte_val c <? 192).

Definition is_char_boundary (s : str) (i : nat) : bool :=
  if (i =? 0)%nat then true
  else if (i =? length s)%nat then true
  else match s !! i with
       | Some c => negb (is_continuation c)
       | None => false
       end.

(** [&text[a..b]]. *)
Definition str_slice {E} (s : str) (a b : nat) : res E str :=
  if (a <=? b)%nat && is_char_boundary s a && is_char_boundary s b
  then Ok (slice s a b)
  else Panic "byte index is not a char boundary".

(** A string without bytes above [0x7F]; every index up to its length is a
    character boundary. *)
Definition is_ascii (s : str) : bool := forallb (fun c => byte_val c <? 128) s.

Lemma is_ascii_boundary s i :
  is_ascii s = true -> (i <= length s)%nat -> is_char_boundary s i = true.
Proof.
  intros Ha Hi. unfold is_char_boundary. case_split; [done|]. case_split; [done|].
  apply Nat.eqb_neq in Heqb0.
  destruct (lookup_lt_is_Some_2 s i) as [c Hc]; [lia|]. rewrite Hc.
  unfold is_ascii in Ha. rewrite forallb_forall in Ha.
  assert ((byte_val c <? 128) = true) as Hb.
  { apply Ha, list_elem_of_In, list_elem_of_lookup. eauto. }
  apply negb_true_iff. unfold is_continuation.
  apply Z.ltb_lt in Hb. by rewrite (proj2 (Z.leb_gt 128 _)) by lia.
Qed.

(** ** Lexical order

    [Ord for str] is the lexicographic order on bytes. *)
Fixpoint str_leb (a b : str) : bool :=
  match a, b with
  | [], _ => true
  | _ :: _, [] => false
  | x :: a', y :: b' =>
      if byte_val x <? byte_val y then true
      else if byte_val x =? byte_val y then str_leb a' b' else false
  end.

Definition str_ltb (a b : str) : bool := negb (str_leb b a).
Definition str_le (a b : str) : Prop := str_leb a b = true.

#[export] Instance str_le_dec a b : Decision (str_le a b).
Proof. unfold str_le. apply _. Defined.

#[export] Instance str_le_total : Total str_le.
Proof.
  unfold str_le. intros a. induction a as [|x a IH]; intros [|y b]; simpl; eauto.
  destruct (Z.ltb_spec (byte_val x) (byte_val y)), (Z.ltb_spec (byte_val y) (byte_val x));
    eauto; try lia.
  rewrite !(proj2 (Z.eqb_eq _ _)) by lia. apply IH.
Qed.

#[export] Instance str_le_trans : Transitive str_le.
Proof.
  unfold str_le. intros a. induction a as [|x a IH]; intros [|y b] [|z c]; simpl; try done.
  destruct (Z.ltb_spec (byte_val x) (byte_val y)), (Z.ltb_spec (byte_val y) (byte_val z)),
    (Z.ltb_spec (byte_val x) (byte_val z)); try done; try lia;
  destruct (Z.eqb_spec (byte_val x) (byte_val y)), (Z.eqb_spec (byte_val y) (byte_val z)),
    (Z.eqb_spec (byte_val x) (byte_val z)); try done; try lia.
  apply IH.
Qed.

#[export] Instance str_le_antisymm : AntiSymm (=) str_le.
Proof.
  unfold str_le. intros a. induction a as [|x a IH]; intros [|y b]; simpl; try done.
  destruct (Z.ltb_spec (byte_val x) (byte_val y)), (Z.ltb_spec (byte_val y) (byte_val x));
    try lia; destruct (Z.eqb_spec (byte_val x) (byte_val y)) as [E|],
    (Z.eqb_spec (byte_val y) (byte_val x)); try done; try lia.
  intros. f_equal; [by apply byte_val_inj|by apply IH].
Qed.

(** ** ASCII case and whitespace *)

Definition to_ascii_upper_byte (c : byte) : byte :=
  let v := byte_val c in
  if (97 <=? v) && (v <=? 122) then Ascii.ascii_of_N (Z.to_N (v - 32)) else c.

Definition to_ascii_uppercase (s : str) : str := map to_ascii_upper_byte s.

Definition to_ascii_lower_byte (c : byte) : byte :=
  let v := byte_val c in
  if (65 <=? v) && (v <=? 90) then Ascii.ascii_of_N (Z.to_N (v + 32)) else c.

Definition to_ascii_lowercase (s : str) : str := map to_ascii_lower_byte s.

Definition of_codes (l : list N) : str := map Ascii.ascii_of_N l.

(** UTF-8 encodings of the characters with the [White_Space] property, which
    are the ones [str::trim] removes. *)
Definition white_space : list str :=
  map of_codes
    ([[9]; [10]; [11]; [12]; [13]; [32]; [194; 133]; [194; 160]; [225; 154; 128];
      [226; 128; 128]; [226; 128; 129]; [226; 128; 130]; [226; 128; 131];
      [226; 128; 132]; [226; 128; 133]; [226; 128; 134]; [226; 128; 135];
      [226; 128; 136]; [226; 128; 137]; [226; 128; 138]; [226; 128; 168];
      [226; 128; 169]; [226; 128; 175]; [226; 129; 159]; [227; 128; 128]]%N).

Fixpoint strip_ws (fuel : nat) (ws : list str) (s : str) : str :=
  match fuel with
  | O => s
  | S f => match find_map (fun w => strip_prefix w s) ws with
           | Some r => strip_ws f ws r
           | None => s
           end
  end.

Definition trim_start (s : str) : str := strip_ws (length s) white_space s.
Definition trim_end (s : str) : str :=
  reverse (strip_ws (length s) (map reverse white_space) (reverse s)).
Definition trim (s : str) : str := trim_end (trim_start s).

(** ** Integers in decimal *)

Definition digit_val (c : byte) : option Z :=
  let v := byte_val c - 48 in if (0 <=? v) && (v <=? 9) then Some v else None.

Definition digit_char (d : Z) : byte := Ascii.ascii_of_N (Z.to_N (48 + d)).

Fixpoint parse_digits_from (acc : Z) (s : str) : option Z :=
  match s with
  | [] => Some acc
  | c :: s' => d ← digit_val c; parse_digits_from (acc * 10 + d) s'
  end.

Definition parse_digits (s : str) : option Z :=
  match s with [] => None | _ :: _ => parse_digits_from 0 s end.

Definition in_range (lo hi n : Z) : option Z :=
  if (lo <=? n) && (n <=? hi) then Some n else None.

(** [parse::<uN>()]: an optional [+], then digits; out of range is an error. *)
Definition parse_unsigned (max : Z) (s : str) : option Z :=
  let ds := match s with
            | c :: s' => if decide (c = "+"%char) then s' else s
            | [] => s
            end in
  n ← parse_digits ds; in_range 0 max n.

(** [parse::<iN>()]: an optional [+] or [-], then digits. *)
Definition parse_signed (lo hi : Z) (s : str) : option Z :=
  match s with
  | c :: s' =>
      if decide (c = "+"%char) then n ← parse_digits s'; in_range lo hi n
      else if decide (c = "-"%char) then n ← parse_digits s'; in_range lo hi (- n)
      else n ← parse_digits s; in_range lo hi n
  | [] => None
  end.

Definition parse_usize `{Target} (s : str) : option Z := parse_unsigned usize_max s.
Definition parse_i32 (s : str) : option Z := parse_signed I32_MIN I32_MAX s.
Definition parse_i64 (s : str) : option Z := parse_signed I64_MIN I64_MAX s.

Fixpoint print_digits (fuel : nat) (n : Z) (acc : str) : str :=
  match fuel with
  | O => acc
  | S f => if n <? 10 then digit_char n :: acc
           else print_digits f (n / 10) (digit_char (n mod 10) :: acc)
  end.

(** [to_string] of an integer. *)
Definition Z_to_string (n : Z) : str :=
  if n <? 0 then "-"%char :: print_digits (S (Z.to_nat (Z.log2 (- n)))) (- n) []
  else print_digits (S (Z.to_nat (Z.log2 n))) n [].

Lemma digit_val_char d : 0 <= d <= 9 -> digit_val (digit_char d) = Some d.
Proof.
  intros Hd. unfold digit_val, digit_char, byte_val.
  rewrite Ascii.N_ascii_embedding by lia.
  replace (Z.of_N (Z.to_N (48 + d)) - 48) with d by lia.
  by rewrite !(proj2 (Z.leb_le _ _)) by lia.
Qed.

Lemma print_digits_parse fuel n tl :
  0 <= n < 2 ^ Z.of_nat fuel ->
  parse_digits_from 0 (print_digits fuel n tl) = parse_digits_from n tl.
Proof.
  revert n tl. induction fuel as [|f IH]; intros n tl Hn.
  - assert (n = 0) as -> by (simpl in Hn; lia). done.
  - simpl. destruct (Z.ltb_spec n 10).
    + cbn [parse_digits_from]. rewrite digit_val_char by lia. done.
    + rewrite IH.
      * cbn [parse_digits_from]. rewrite digit_val_char.
        -- cbn. f_equal. pose proof (Z.div_mod n 10). lia.
        -- pose proof (Z.mod_pos_bound n 10). lia.
      * split; [apply Z.div_pos; lia|].
        apply Z.div_lt_upper_bound; [lia|].
        rewrite Nat2Z.inj_succ, Z.pow_succ_r in Hn by lia. lia.
Qed.

(** The first byte of a printed number is a digit, so it is no sign. *)
Lemma print_digits_head fuel n tl :
  0 <= n < 2 ^ Z.of_nat (S fuel) ->
  exists c s, print_digits (S fuel) n tl = c :: s /\ is_Some (digit_val c).
Proof.
  revert n tl. induction fuel as [|f IH]; intros n tl Hn.
  - exists (digit_char n), tl. rewrite digit_val_char by lia.
    split; [|eauto]. simpl. by rewrite (proj2 (Z.ltb_lt _ _)) by lia.
  - change (print_digits (S (S f)) n tl) with
      (if n <? 10 then digit_char n :: tl
       else print_digits (S f) (n / 10) (digit_char (n mod 10) :: tl)).
    destruct (Z.ltb_spec n 10).
    + exists (digit_char n), tl. rewrite digit_val_char by lia. eauto.
    + apply IH. split; [apply Z.div_pos; lia|]. apply Z.div_lt_upper_bound; [lia|].
      rewrite Nat2Z.inj_succ, Z.pow_succ_r in Hn by lia. lia.
Qed.

Lemma log2_fuel n : 0 <= n -> 0 <= n < 2 ^ Z.of_nat (S (Z.to_nat (Z.log2 n))).
Proof.
  intros Hn. split; [done|]. pose proof (Z.log2_nonneg n).
  rewrite Nat2Z.inj_succ, Z2Nat.id by lia.
  destruct (decide (n = 0)) as [->|]; [simpl; lia|].
  apply Z.log2_spec. lia.
Qed.

Lemma print_digits_log2 n :
  0 <= n ->
  parse_digits (print_digits (S (Z.to_nat (Z.log2 n))) n []) = Some n.
Proof.
  intros Hn. pose proof (log2_fuel n Hn) as Hf.
  destruct (print_digits_head (Z.to_nat (Z.log2 n)) n [] Hf) as (c & s & E & _).
  unfold parse_digits. rewrite E at 1. by rewrite print_digits_parse.
Qed.

Lemma in_range_Some lo hi n : lo <= n <= hi -> in_range lo hi n = Some n.
Proof. intros. unfold in_range. by rewrite !(proj2 (Z.leb_le _ _)) by lia. Qed.

Lemma digit_not_sign c : is_Some (digit_val c) -> c <> "+"%char /\ c <> "-"%char.
Proof. intros [d Hd]. split; intros ->; vm_compute in Hd; done. Qed.

(** Printing an integer and parsing it back, unsigned and signed. *)
Lemma parse_unsigned_to_string max n :
  0 <= n <= max -> parse_unsigned max (Z_to_string n) = Some n.
Proof.
  intros Hn. unfold Z_to_string, parse_unsigned.
  rewrite (proj2 (Z.ltb_ge _ _)) by lia.
  destruct (print_digits_head (Z.to_nat (Z.log2 n)) n []) as (c & s & E & Hc);
    [apply log2_fuel; lia|].
  pose proof (print_digits_log2 n) as Hp. rewrite E in Hp |- *.
  apply digit_not_sign in Hc as [Hplus _].
  rewrite decide_False by done. rewrite Hp by lia. by apply in_range_Some.
Qed.

Lemma parse_signed_to_string lo hi n :
  lo <= n <= hi -> parse_signed lo hi (Z_to_string n) = Some n.
Proof.
  intros Hn. unfold Z_to_string, parse_signed. destruct (Z.ltb_spec n 0) as [Hneg|Hpos].
  - rewrite decide_False by done. rewrite decide_True by done.
    rewrite print_digits_log2 by lia. cbn.
    rewrite Z.opp_involutive. by apply in_range_Some.
  - destruct (print_digits_head (Z.to_nat (Z.log2 n)) n []) as (c & s & E & Hc);
      [apply log2_fuel; lia|].
    pose proof (print_digits_log2 n) as Hp. rewrite E in Hp |- *.
    apply digit_not_sign in Hc as [Hplus Hminus].
    rewrite !decide_False by done. rewrite Hp by lia. by apply in_range_Some.
Qed.

Lemma parse_usize_to_string `{Target} n :
  0 <= n <= usize_max -> parse_usize (Z_to_string n) = Some n.
Proof. apply parse_unsigned_to_string. Qed.

Lemma Z_to_string_inj n m : Z_to_string n = Z_to_string m -> n = m.
Proof.
  intros E. pose (b := Z.max (Z.abs n) (Z.abs m)).
  pose proof (parse_signed_to_string (- b) b n) as Hn.
  pose proof (parse_signed_to_string (- b) b m) as Hm.
  rewrite E in Hn. rewrite Hm in Hn by lia. specialize (Hn ltac:(lia)). congruence.
Qed.
