(* ===== verification/Fs.v ===== *)
(** * Virtual filesystem vocabulary (crates/wasmsh-fs/src/lib.rs)

    The error, metadata, directory-entry, handle and open-option types of the
    [Vfs] trait, the permission bits, and [normalize_path] with its theory:
    every path the backends store or look up is a normal form. *)

From S2P Require Import Prelude Strings.

Inductive FsError :=
  | NotFound (p : str)
  | AlreadyExists (p : str)
  | NotADirectory (p : str)
  | IsADirectory (p : str)
  | PermissionDenied (p : str)
  | NotSupported (p : str)
  | Io (msg : str).

#[export] Instance FsError_eq_dec : EqDecision FsError.
Proof. solve_decision. Defined.

(** The [Display] messages. *)
Definition fs_error_display (e : FsError) : str :=
  match e with
  | NotFound p => #"not found: " ++ p
  | AlreadyExists p => #"already exists: " ++ p
  | NotADirectory p => #"not a directory: " ++ p
  | IsADirectory p => #"is a directory: " ++ p
  | PermissionDenied p => #"permission denied: " ++ p
  | NotSupported p => #"not supported: " ++ p
  | Io m => #"io error: " ++ m
  end.

Record Metadata := {
  is_dir : bool;
  is_symlink : bool;
  size : Z;
  mode : Z;
}.

Definition DEFAULT_FILE_MODE : Z := octal 6 4 4.
Definition DEFAULT_DIR_MODE : Z := octal 7 5 5.
Definition MODE_PERM_MASK : Z := octal 7 7 7.

Definition is_readable (m : Metadata) : bool := negb (Z.land (mode m) (octal 4 0 0) =? 0).
Definition is_writable (m : Metadata) : bool := negb (Z.land (mode m) (octal 2 0 0) =? 0).
Definition is_executable (m : Metadata) : bool := negb (Z.land (mode m) (octal 1 0 0) =? 0).

Record DirEntry := {
  name : str;
  entry_is_dir : bool;
  entry_is_symlink : bool;
}.

Record OpenOptions := {
  o_read : bool;
  o_write : bool;
  o_append : bool;
  o_create : bool;
  o_truncate : bool;
}.

Definition OpenOptions_read : OpenOptions :=
  {| o_read := true; o_write := false; o_append := false; o_create := false; o_truncate := false |}.
Definition OpenOptions_write : OpenOptions :=
  {| o_read := false; o_write := true; o_append := false; o_create := true; o_truncate := true |}.
Definition OpenOptions_append : OpenOptions :=
  {| o_read := false; o_write := true; o_append := true; o_create := true; o_truncate := false |}.

(** [FileHandle(pub u64)] *)
Record FileHandle := { handle_id : Z }.

(** ** Path normalisation *)

(** One iteration of the loop over the parts of the path: [components] is the
    vector, its last element the top of the stack. *)
Definition norm_step (components : list str) (part : str) : list str :=
  if decide (part = [] \/ part = #".") then components
  else if decide (part = #"..") then
    if decide (components = []) then components else removelast components
  else components ++ [part].

Definition norm_components (path : str) : list str :=
  foldl norm_step [] (split_on slash path).

Definition normalize_path (path : str) : str :=
  let is_absolute := starts_with [slash] path in
  let joined := join [slash] (norm_components path) in
  if is_absolute then slash :: joined
  else if decide (joined = []) then #"." else joined.

(** A component that survives normalisation. *)
Definition clean (p : str) : Prop :=
  p <> [] /\ p <> #"." /\ p <> #".." /\ slash ∉ p.

Lemma removelast_Forall {A} (P : A -> Prop) l : Forall P l -> Forall P (removelast l).
Proof.
  induction 1 as [|x l Hx Hl IH]; simpl; [done|]. destruct l; [done|]. by constructor.
Qed.

Lemma norm_step_clean comps part :
  Forall clean comps -> slash ∉ part -> Forall clean (norm_step comps part).
Proof.
  intros Hc Hp. unfold norm_step. repeat case_decide; try done.
  - by apply removelast_Forall.
  - apply Forall_app. split; [done|]. repeat constructor; naive_solver.
Qed.

Lemma foldl_norm_clean parts comps :
  Forall clean comps -> Forall (fun p => slash ∉ p) parts ->
  Forall clean (foldl norm_step comps parts).
Proof.
  revert comps. induction parts as [|p ps IH]; intros comps Hc Hp; simpl; [done|].
  inversion Hp; subst. apply IH; [by apply norm_step_clean|done].
Qed.

Lemma norm_components_clean path : Forall clean (norm_components path).
Proof. apply foldl_norm_clean; [constructor|apply split_on_no_sep]. Qed.

(** Clean parts are simply pushed. *)
Lemma foldl_norm_id parts comps :
  Forall clean parts -> foldl norm_step comps parts = comps ++ parts.
Proof.
  revert comps. induction parts as [|p ps IH]; intros comps Hp; simpl.
  - by rewrite app_nil_r.
  - inversion Hp as [|?? (H1 & H2 & H3 & H4)]; subst.
    assert (norm_step comps p = comps ++ [p]) as ->.
    { unfold norm_step. rewrite !decide_False by naive_solver. done. }
    rewrite IH by done. by rewrite <- app_assoc.
Qed.

Lemma clean_no_sep parts : Forall clean parts -> Forall (fun p => slash ∉ p) parts.
Proof. intros H. eapply Forall_impl; [exact H|]. by intros p (_ & _ & _ & ?). Qed.

Lemma clean_nonempty parts : Forall clean parts -> Forall (fun p => p <> []) parts.
Proof. intros H. eapply Forall_impl; [exact H|]. by intros p (? & _). Qed.

(** The components of a path assembled from clean parts are those parts. *)
Lemma norm_components_join parts :
  Forall clean parts -> norm_components (join [slash] parts) = parts.
Proof.
  intros Hp. unfold norm_components. destruct (decide (parts = [])) as [->|Hne]; [done|].
  rewrite split_on_join by (done || by apply clean_no_sep).
  by rewrite foldl_norm_id.
Qed.

Lemma norm_components_slash path :
  norm_components (slash :: path) = norm_components path.
Proof. done. Qed.

Lemma starts_with_slash_cons r : starts_with [slash] (slash :: r) = true.
Proof. apply (starts_with_app [slash]). Qed.

Lemma starts_with_slash s : starts_with [slash] s = true <-> exists r, s = slash :: r.
Proof. apply (starts_with_true [slash]). Qed.

(** What [normalize_path] returns, by the shape of its argument. *)
Lemma normalize_path_abs r : normalize_path (slash :: r) = slash :: join [slash] (norm_components r).
Proof.
  unfold normalize_path. rewrite starts_with_slash_cons, norm_components_slash. done.
Qed.

Lemma join_clean_not_abs parts :
  Forall clean parts -> starts_with [slash] (join [slash] parts) = false.
Proof.
  intros Hp. apply not_true_iff_false. rewrite starts_with_slash. intros [r Hr].
  destruct parts as [|p ps]; [done|].
  inversion Hp as [|?? (Hne & _ & _ & Hs)]; subst.
  destruct p as [|c p]; [done|]. assert (c = slash); [|set_solver].
  destruct ps; simpl in Hr; congruence.
Qed.

Lemma normalize_path_components path :
  norm_components (normalize_path path) = norm_components path.
Proof.
  unfold normalize_path. pose proof (norm_components_clean path) as Hc. case_split.
  - by rewrite norm_components_slash, norm_components_join.
  - case_decide as Hj; [|by apply norm_components_join].
    rewrite join_nil_iff in Hj by by apply clean_nonempty. by rewrite Hj.
Qed.

(** Normal forms: the paths [normalize_path] can produce. *)
Definition normal (p : str) : Prop := exists q, p = normalize_path q.

Lemma normalize_path_idem_lemma p : normalize_path (normalize_path p) = normalize_path p.
Proof.
  unfold normalize_path at 1. rewrite normalize_path_components.
  pose proof (norm_components_clean p) as Hc.
  unfold normalize_path. destruct (starts_with [slash] p) eqn:Hp; [by rewrite starts_with_slash_cons|].
  case_decide as Hj; [done|]. by rewrite join_clean_not_abs.
Qed.

Lemma normal_fix p : normal p -> normalize_path p = p.
Proof. intros [q ->]. apply normalize_path_idem_lemma. Qed.

Lemma normal_normalize q : normal (normalize_path q).
Proof. by exists q. Qed.

Lemma split_on_app c a b :
  split_on c (a ++ c :: b) = split_on c a ++ split_on c b.
Proof.
  induction a as [|x a IH]; simpl.
  - by rewrite decide_True by done.
  - case_decide; rewrite IH; [done|].
    destruct (split_on c a) eqn:E; [by apply split_on_nonempty in E|done].
Qed.

Lemma norm_components_app a b :
  norm_components (a ++ slash :: b) = foldl norm_step (norm_components a) (split_on slash b).
Proof. unfold norm_components. by rewrite split_on_app, foldl_app. Qed.

#[export] Hint Resolve normal_normalize norm_components_clean clean_no_sep clean_nonempty : wasmsh.

(** ** Claims *)

(** The parts of a path that is an absolute normal form. *)
Definition path_of (parts : list str) : str := slash :: join [slash] parts.

Lemma normal_root : normal [slash].
Proof. by exists [slash]. Qed.
