(* ===== verification/MemFs.v ===== *)
(** * The in-memory filesystem (crates/wasmsh-fs/src/memfs.rs)

    [MemoryFs] is an [Rc<RefCell<MemoryFsInner>>]: every clone of it and every
    write sink shares one store.  The model therefore threads one
    [MemoryFsInner] through every operation.  The [Box<dyn Read>] trait objects
    installed as virtual readers live in shared cells ([Rc<RefCell<..>>]); the
    store has a heap of them, [cells], and a handle or a stream that shares a
    reader holds its cell number. *)

From S2P Require Import Prelude Strings Fs.

(** What the filesystem needs of a [dyn Read]: [read_to_end], and [read] into a
    buffer of the given length.  Both may fail with an I/O error message. *)
Class Read (R : Type) := {
  read_to_end : R -> R * (str + str);
  read_buf : R -> nat -> R * (str + str);
}.

Definition MAX_FILE_SIZE : Z := 64 * 1024 * 1024.
Definition MAX_TOTAL_BYTES : Z := 256 * 1024 * 1024.
Definition MAX_INODES : Z := 100000.
Definition MAX_SYMLINK_DEPTH : nat := 40.

Inductive FsNode :=
  | File (data : str)
  | Dir
  | Symlink (target : str).

#[export] Instance FsNode_eq_dec : EqDecision FsNode.
Proof. solve_decision. Defined.

(** [OpenFileSource] and [EitherReadSource] *)
Inductive OpenFileSource :=
  | PathSource (path : str)
  | VirtualSource (cell : nat).

Record OpenFile := {
  source : OpenFileSource;
  opts : OpenOptions;
}.

Record MemoryFsInner (R : Type) := {
  nodes : gmap str FsNode;
  modes : gmap str Z;
  virtual_readers : gmap str nat;
  handles : gmap Z OpenFile;
  next_handle : Z;
  total_bytes : Z;
  cells : gmap nat R;
  next_cell : nat;
}.
Arguments nodes {R} _.
Arguments modes {R} _.
Arguments virtual_readers {R} _.
Arguments handles {R} _.
Arguments next_handle {R} _.
Arguments total_bytes {R} _.
Arguments cells {R} _.
Arguments next_cell {R} _.

(** A write sink and a stream reader, the two objects the filesystem hands
    out; the sink remembers whether its next chunk appends. *)
Record MemoryWriteSink := {
  sink_path : str;
  sink_append : bool;
}.

Inductive StreamReader :=
  | CursorReader (data : str) (pos : nat)
  | SharedReadHandle (cell : nat).

Section memfs.
Context `{Target} {R : Type} `{Read R}.

Abbreviation Inner := (MemoryFsInner R).
Abbreviation io := (comp (MemoryFsInner R) FsError).

Definition set_nodes (n : gmap str FsNode) (s : Inner) : Inner :=
  {| nodes := n; modes := modes s; virtual_readers := virtual_readers s;
     handles := handles s; next_handle := next_handle s;
     total_bytes := total_bytes s; cells := cells s; next_cell := next_cell s |}.
Definition set_modes (m : gmap str Z) (s : Inner) : Inner :=
  {| nodes := nodes s; modes := m; virtual_readers := virtual_readers s;
     handles := handles s; next_handle := next_handle s;
     total_bytes := total_bytes s; cells := cells s; next_cell := next_cell s |}.
Definition set_virtual_readers (v : gmap str nat) (s : Inner) : Inner :=
  {| nodes := nodes s; modes := modes s; virtual_readers := v;
     handles := handles s; next_handle := next_handle s;
     total_bytes := total_bytes s; cells := cells s; next_cell := next_cell s |}.
Definition set_handles (h : gmap Z OpenFile) (s : Inner) : Inner :=
  {| nodes := nodes s; modes := modes s; virtual_readers := virtual_readers s;
     handles := h; next_handle := next_handle s;
     total_bytes := total_bytes s; cells := cells s; next_cell := next_cell s |}.
Definition set_next_handle (n : Z) (s : Inner) : Inner :=
  {| nodes := nodes s; modes := modes s; virtual_readers := virtual_readers s;
     handles := handles s; next_handle := n;
     total_bytes := total_bytes s; cells := cells s; next_cell := next_cell s |}.
Definition set_total_bytes (t : Z) (s : Inner) : Inner :=
  {| nodes := nodes s; modes := modes s; virtual_readers := virtual_readers s;
     handles := handles s; next_handle := next_handle s;
     total_bytes := t; cells := cells s; next_cell := next_cell s |}.
Definition set_cells (c : gmap nat R) (n : nat) (s : Inner) : Inner :=
  {| nodes := nodes s; modes := modes s; virtual_readers := virtual_readers s;
     handles := handles s; next_handle := next_handle s;
     total_bytes := total_bytes s; cells := c; next_cell := n |}.

(** [MemoryFs::new] *)
Definition new : Inner :=
  {| nodes := {[ [slash] := Dir ]}; modes := ∅; virtual_readers := ∅;
     handles := ∅; next_handle := 1; total_bytes := 0;
     cells := ∅; next_cell := 0 |}.

Definition alloc_handle : io Z :=
  s ← get;
  if next_handle s + 1 <=? U64_MAX
  then _ ← modify (set_next_handle (next_handle s + 1)); mret (next_handle s)
  else panic "file handle counter overflow".

Definition inode_error : FsError := Io #"filesystem inode limit exceeded".

(** [inner.nodes.len() >= MAX_INODES] *)
Definition inodes_full (s : Inner) : bool := MAX_INODES <=? Z.of_nat (base.size (nodes s)).

Definition check_inode_room : io unit :=
  s ← get; if inodes_full s then throw inode_error else mret tt.

(** [path.split('/').filter(|s| !s.is_empty())] without its last element. *)
Definition parent_parts (path : str) : list str :=
  let parts := filter (fun p => p <> []) (split_on slash path) in
  take (length parts - 1) parts.

Fixpoint ensure_parents_loop (current : str) (parts : list str) : io unit :=
  match parts with
  | [] => mret tt
  | part :: rest =>
      let current := current ++ slash :: part in
      s ← get;
      if decide (is_Some (nodes s !! current)) then ensure_parents_loop current rest
      else if inodes_full s then throw inode_error
      else _ ← modify (set_nodes (<[current := Dir]> (nodes s)));
           ensure_parents_loop current rest
  end.

Definition ensure_parents (path : str) : io unit :=
  ensure_parents_loop [] (parent_parts path).

(** Permission bits for a path, falling back to the type default. *)
Definition mode_of (s : Inner) (path : str) (is_dir : bool) : Z :=
  default (if is_dir then DEFAULT_DIR_MODE else DEFAULT_FILE_MODE) (modes s !! path).

Definition link_error : FsError := Io #"too many levels of symbolic links".

(** One symlink hop: the normalised target of a link stored at [current]. *)
Definition link_target (current target : str) : str :=
  if starts_with [slash] target then normalize_path target
  else
    let base := match rsplit_once slash current with Some (b, _) => b | None => [] end in
    let joined := if decide (base = []) then slash :: target
                  else base ++ slash :: target in
    normalize_path joined.

Fixpoint resolve_loop (n : nat) (s : Inner) (current : str) : res FsError str :=
  match n with
  | O => Err link_error
  | S n' => match nodes s !! current with
            | Some (Symlink target) => resolve_loop n' s (link_target current target)
            | _ => Ok current
            end
  end.

Definition resolve_normalized (s : Inner) (norm : str) : res FsError str :=
  resolve_loop MAX_SYMLINK_DEPTH s norm.

Definition write_chunk (sink : MemoryWriteSink) (data : str) : io MemoryWriteSink :=
  s ← get;
  match nodes s !! sink_path sink with
  | Some (File contents) =>
      let old_size := len contents in
      let new_size := if sink_append sink then old_size + len data else len data in
      if MAX_FILE_SIZE <? new_size then throw (Io #"file size limit exceeded")
      else
        let projected_total :=
          sat_add usize_max (sat_sub (total_bytes s) old_size) new_size in
        if MAX_TOTAL_BYTES <? projected_total
        then throw (Io #"filesystem quota exceeded")
        else
          let contents' := if sink_append sink then contents ++ data else data in
          _ ← modify (fun s => set_total_bytes projected_total
                 (set_nodes (<[sink_path sink := File contents']> (nodes s)) s));
          mret {| sink_path := sink_path sink; sink_append := true |}
  | _ => throw (NotFound (sink_path sink))
  end.

Definition read_only (o : OpenOptions) : bool :=
  o_read o && negb (o_write o) && negb (o_append o) && negb (o_create o)
    && negb (o_truncate o).

Definition insert_handle (src : OpenFileSource) (o : OpenOptions) : io FileHandle :=
  h ← alloc_handle;
  _ ← modify (fun s => set_handles (<[h := {| source := src; opts := o |}]> (handles s)) s);
  mret {| handle_id := h |}.

(** The node checks of [open]: what happens before the handle is allocated
    when no virtual reader is consumed. *)
Definition open_node (norm : str) (o : OpenOptions) : io unit :=
  s ← get;
  match nodes s !! norm with
  | Some Dir => throw (IsADirectory norm)
  | Some (Symlink _) => throw link_error
  | Some (File contents) =>
      let mode := mode_of s norm false in
      if o_read o && (Z.land mode (octal 4 0 0) =? 0) then throw (PermissionDenied norm)
      else if (o_write o || o_append o || o_truncate o) && (Z.land mode (octal 2 0 0) =? 0)
      then throw (PermissionDenied norm)
      else if o_write o && o_truncate o && negb (o_append o)
      then modify (fun s => set_total_bytes (sat_sub (total_bytes s) (len contents))
                     (set_nodes (<[norm := File []]> (nodes s)) s))
      else mret tt
  | None =>
      if o_create o then
        _ ← ensure_parents norm;
        _ ← check_inode_room;
        modify (fun s => set_nodes (<[norm := File []]> (nodes s)) s)
      else throw (NotFound norm)
  end.

Definition open (path : str) (o : OpenOptions) : io FileHandle :=
  s ← get;
  norm ← lift_res (resolve_normalized s (normalize_path path));
  match (if read_only o then virtual_readers s !! norm else None) with
  | Some cell =>
      _ ← modify (fun s => set_nodes (delete norm (nodes s))
                     (set_virtual_readers (delete norm (virtual_readers s)) s));
      insert_handle (VirtualSource cell) o
  | None =>
      _ ← open_node norm o;
      insert_handle (PathSource norm) o
  end.

(** The common guard of [read_file] and [stream_file]: the source of a handle
    that is open for reading. *)
Definition read_source (h : FileHandle) : io OpenFileSource :=
  s ← get;
  match handles s !! handle_id h with
  | None => throw (Io #"invalid handle")
  | Some f =>
      if o_read (opts f) then mret (source f)
      else throw (PermissionDenied #"not opened for reading")
  end.

Definition read_file (h : FileHandle) : io str :=
  src ← read_source h;
  s ← get;
  match src with
  | PathSource path =>
      match nodes s !! path with
      | Some (File data) => mret data
      | _ => throw (NotFound path)
      end
  | VirtualSource cell =>
      match cells s !! cell with
      | None => panic "dangling reader"
      | Some r =>
          let '(r', out) := read_to_end r in
          _ ← modify (fun s => set_cells (<[cell := r']> (cells s)) (next_cell s) s);
          match out with
          | inl bytes => mret bytes
          | inr msg => throw (Io msg)
          end
      end
  end.

Definition stream_file (h : FileHandle) : io StreamReader :=
  src ← read_source h;
  s ← get;
  match src with
  | PathSource path =>
      match nodes s !! path with
      | Some (File data) => mret (CursorReader data 0)
      | _ => throw (NotFound path)
      end
  | VirtualSource cell => mret (SharedReadHandle cell)
  end.

(** [Read for SharedReadHandle], and the [Cursor] over the file's bytes at
    the time [stream_file] ran. *)
Definition stream_read (r : StreamReader) (n : nat) : io (StreamReader * str) :=
  match r with
  | CursorReader data pos =>
      let chunk := take n (drop pos data) in
      mret (CursorReader data (pos + length chunk), chunk)
  | SharedReadHandle cell =>
      s ← get;
      match cells s !! cell with
      | None => panic "dangling reader"
      | Some rd =>
          let '(rd', out) := read_buf rd n in
          _ ← modify (fun s => set_cells (<[cell := rd']> (cells s)) (next_cell s) s);
          match out with
          | inl bytes => mret (r, bytes)
          | inr msg => throw (Io msg)
          end
      end
  end.

Definition write_file (h : FileHandle) (data : str) : io unit :=
  s ← get;
  match handles s !! handle_id h with
  | None => throw (Io #"invalid handle")
  | Some f =>
      if negb (o_write (opts f)) then throw (PermissionDenied #"not opened for writing")
      else match source f with
           | VirtualSource _ => throw (PermissionDenied #"virtual reader is read-only")
           | PathSource path =>
               _ ← write_chunk {| sink_path := path; sink_append := o_append (opts f) |} data;
               mret tt
           end
  end.

(** The node part of [open_write_sink]: create the file when it is absent. *)
Definition sink_node (norm : str) : io unit :=
  s ← get;
  match nodes s !! norm with
  | Some Dir => throw (IsADirectory norm)
  | Some (Symlink _) => throw link_error
  | Some (File _) => mret tt
  | None =>
      _ ← ensure_parents norm;
      _ ← check_inode_room;
      modify (fun s => set_nodes (<[norm := File []]> (nodes s)) s)
  end.

(** Empty the file at [norm] and give its bytes back to the quota. *)
Definition reset_file (norm : str) (s : Inner) : Inner :=
  let s' := match nodes s !! norm with
            | Some (File old) => set_total_bytes (sat_sub (total_bytes s) (len old)) s
            | _ => s
            end in
  set_nodes (<[norm := File []]> (nodes s')) s'.

Definition open_write_sink (path : str) (append : bool) : io MemoryWriteSink :=
  s ← get;
  norm ← lift_res (resolve_normalized s (normalize_path path));
  _ ← modify (fun s => set_virtual_readers (delete norm (virtual_readers s)) s);
  _ ← sink_node norm;
  _ ← (if append then mret tt else modify (reset_file norm));
  mret {| sink_path := norm; sink_append := append |}.

Definition install_stream_reader (path : str) (reader : R) : io unit :=
  let norm := normalize_path path in
  s ← get;
  match nodes s !! norm with
  | Some Dir => throw (IsADirectory norm)
  | pre =>
      _ ← ensure_parents norm;
      _ ← (if decide (pre = None) then check_inode_room else mret tt);
      _ ← modify (reset_file norm);
      modify (fun s =>
        set_virtual_readers (<[norm := next_cell s]> (virtual_readers s))
          (set_cells (<[next_cell s := reader]> (cells s)) (S (next_cell s)) s))
  end.

Definition close (h : FileHandle) : io unit :=
  modify (fun s => set_handles (delete (handle_id h) (handles s)) s).

Definition file_metadata (s : Inner) (path data : str) : Metadata :=
  {| is_dir := false; is_symlink := false; size := len data;
     mode := mode_of s path false |}.
Definition dir_metadata (s : Inner) (path : str) : Metadata :=
  {| is_dir := true; is_symlink := false; size := 0; mode := mode_of s path true |}.

Definition stat (s : Inner) (path : str) : res FsError Metadata :=
  resolved ← resolve_normalized s (normalize_path path);
  match nodes s !! resolved with
  | Some (File data) => Ok (file_metadata s resolved data)
  | Some Dir => Ok (dir_metadata s resolved)
  | Some (Symlink _) | None => Err (NotFound resolved)
  end.

Definition lstat (s : Inner) (path : str) : res FsError Metadata :=
  let norm := normalize_path path in
  match nodes s !! norm with
  | Some (File data) => Ok (file_metadata s norm data)
  | Some Dir => Ok (dir_metadata s norm)
  | Some (Symlink target) =>
      Ok {| is_dir := false; is_symlink := true; size := len target;
            mode := octal 7 7 7 |}
  | None => Err (NotFound norm)
  end.

Definition read_link (s : Inner) (path : str) : res FsError str :=
  let norm := normalize_path path in
  match nodes s !! norm with
  | Some (Symlink target) => Ok target
  | _ => Err (NotFound norm)
  end.

Fixpoint symlink_parents (parent : str) (parts : list str) : io unit :=
  match parts with
  | [] => mret tt
  | part :: rest =>
      let parent := parent ++ slash :: part in
      s ← get;
      match nodes s !! parent with
      | Some Dir => symlink_parents parent rest
      | Some _ => throw (NotADirectory parent)
      | None =>
          _ ← check_inode_room;
          _ ← modify (set_nodes (<[parent := Dir]> (nodes s)));
          symlink_parents parent rest
      end
  end.

Definition symlink (target link_path : str) : io unit :=
  let norm := normalize_path link_path in
  s ← get;
  if decide (is_Some (nodes s !! norm)) then throw (AlreadyExists norm)
  else
    _ ← symlink_parents [] (parent_parts norm);
    _ ← check_inode_room;
    modify (fun s => set_nodes (<[norm := Symlink target]> (nodes s)) s).

Definition dir_prefix (norm : str) : str :=
  if decide (norm = [slash]) then [slash] else norm ++ [slash].

(** One iteration of the scan of [read_dir]. *)
Definition dir_entry (s : Inner) (prefix : str) (kv : str * FsNode) : option DirEntry :=
  rest ← strip_prefix prefix kv.1;
  if decide (slash ∈ rest \/ rest = []) then None
  else Some match kv.2 with
            | Dir => {| name := rest; entry_is_dir := true; entry_is_symlink := false |}
            | File _ => {| name := rest; entry_is_dir := false; entry_is_symlink := false |}
            | Symlink _ =>
                let target_is_dir :=
                  match resolve_normalized s kv.1 with
                  | Ok t => bool_decide (nodes s !! t = Some Dir)
                  | _ => false
                  end in
                {| name := rest; entry_is_dir := target_is_dir; entry_is_symlink := true |}
            end.

Definition name_le (a b : DirEntry) : Prop := str_le (name a) (name b).
#[global] Instance name_le_dec a b : Decision (name_le a b).
Proof. unfold name_le. apply _. Defined.

(** The scan visits the map in an unspecified order: [items] lists the
    entries in the order of one iteration. *)
Definition scan_dir (s : Inner) (prefix : str) (items : list (str * FsNode)) : list DirEntry :=
  merge_sort name_le (omap (dir_entry s prefix) items).

Definition read_dir (s : Inner) (path : str) : res FsError (list DirEntry) :=
  norm ← resolve_normalized s (normalize_path path);
  match nodes s !! norm with
  | Some Dir => Ok (scan_dir s (dir_prefix norm) (map_to_list (nodes s)))
  | Some (File _) => Err (NotADirectory norm)
  | Some (Symlink _) | None => Err (NotFound norm)
  end.

Definition create_dir (path : str) : io unit :=
  let norm := normalize_path path in
  s ← get;
  if decide (is_Some (nodes s !! norm)) then throw (AlreadyExists norm)
  else
    _ ← ensure_parents norm;
    _ ← check_inode_room;
    modify (fun s => set_nodes (<[norm := Dir]> (nodes s)) s).

Definition remove_file (path : str) : io unit :=
  let norm := normalize_path path in
  s ← get;
  match nodes s !! norm with
  | Some (Symlink _) =>
      modify (fun s => set_modes (delete norm (modes s))
                (set_nodes (delete norm (nodes s)) s))
  | _ =>
      resolved ← lift_res (resolve_normalized s norm);
      match nodes s !! resolved with
      | Some Dir => throw (IsADirectory resolved)
      | Some (File contents) =>
          modify (fun s =>
            set_total_bytes (sat_sub (total_bytes s) (len contents))
              (set_virtual_readers (delete resolved (virtual_readers s))
                (set_modes (delete resolved (modes s))
                  (set_nodes (delete resolved (nodes s)) s))))
      | _ => throw (NotFound norm)
      end
  end.

Definition has_children (s : Inner) (prefix : str) : bool :=
  existsb (fun kv => starts_with prefix kv.1) (map_to_list (nodes s)).

Definition remove_dir (path : str) : io unit :=
  let norm := normalize_path path in
  s ← get;
  match nodes s !! norm with
  | Some (File _) | Some (Symlink _) => throw (NotADirectory norm)
  | None => throw (NotFound norm)
  | Some Dir =>
      if has_children s (dir_prefix norm)
      then throw (Io (#"directory not empty: " ++ norm))
      else modify (fun s => set_modes (delete norm (modes s))
                     (set_nodes (delete norm (nodes s)) s))
  end.

Definition set_mode (path : str) (m : Z) : io unit :=
  let norm := normalize_path path in
  s ← get;
  if decide (is_Some (nodes s !! norm))
  then modify (set_modes (<[norm := Z.land m MODE_PERM_MASK]> (modes s)))
  else throw (NotFound norm).
End memfs.
