(* ===== verification/MemFsInv.v ===== *)
(** * Invariants of the in-memory filesystem

    The store invariant [fs_inv]: the root is a directory nobody can remove,
    the inode and byte quotas hold, every file respects the per-file cap, open
    handles are older than the handle counter, and no reader cell dangles.
    Every operation of [MemFs] preserves it on every path. *)

From S2P Require Import Prelude Strings Fs MemFs.

(** ** Bytes held by the files of a node map *)

Definition node_bytes (n : FsNode) : Z :=
  match n with File data => len data | _ => 0 end.

Definition file_bytes (m : gmap str FsNode) : Z :=
  map_fold (fun _ n acc => node_bytes n + acc) 0 m.

Lemma node_bytes_nonneg n : 0 <= node_bytes n.
Proof. destruct n; simpl; [apply len_nonneg|lia..]. Qed.

Lemma file_bytes_insert_new m k v :
  m !! k = None -> file_bytes (<[k := v]> m) = node_bytes v + file_bytes m.
Proof. intros. unfold file_bytes. rewrite map_fold_insert_L; [done|intros; lia|done]. Qed.

Lemma file_bytes_delete m k v :
  m !! k = Some v -> file_bytes (delete k m) = file_bytes m - node_bytes v.
Proof.
  intros Hk. rewrite <- (insert_delete_id m k v Hk) at 2.
  rewrite file_bytes_insert_new by apply lookup_delete_eq. lia.
Qed.

Lemma file_bytes_insert_old m k v w :
  m !! k = Some w -> file_bytes (<[k := v]> m) = file_bytes m - node_bytes w + node_bytes v.
Proof.
  intros Hk. rewrite <- insert_delete_eq.
  rewrite file_bytes_insert_new by apply lookup_delete_eq.
  rewrite (file_bytes_delete m k w) by done. lia.
Qed.

Lemma file_bytes_nonneg m : 0 <= file_bytes m.
Proof.
  induction m as [|k v m Hk IH] using map_ind; [done|].
  rewrite file_bytes_insert_new by done. pose proof (node_bytes_nonneg v). lia.
Qed.

Lemma file_bytes_lookup m k v : m !! k = Some v -> node_bytes v <= file_bytes m.
Proof.
  intros Hk. pose proof (file_bytes_delete m k v Hk).
  pose proof (file_bytes_nonneg (delete k m)). lia.
Qed.

(** ** The invariant *)

Section inv.
Context `{Target} {R : Type} `{Read R}.
Abbreviation Inner := (MemoryFsInner R).

Record fs_inv (s : Inner) : Prop := {
  inv_root : nodes s !! [slash] = Some Dir;
  inv_inodes : Z.of_nat (base.size (nodes s)) <= MAX_INODES;
  inv_bytes : file_bytes (nodes s) <= total_bytes s <= MAX_TOTAL_BYTES;
  inv_files : forall p d, nodes s !! p = Some (File d) -> len d <= MAX_FILE_SIZE;
  inv_handles : forall h f, handles s !! h = Some f -> 1 <= h < next_handle s;
  inv_next : 1 <= next_handle s <= U64_MAX;
  inv_modes : forall p m, modes s !! p = Some m -> 0 <= m <= MODE_PERM_MASK;
  inv_cells : forall c, (c < next_cell s)%nat <-> is_Some (cells s !! c);
  inv_vhandles : forall h f c,
    handles s !! h = Some f -> source f = VirtualSource c -> (c < next_cell s)%nat;
  inv_vr : forall p c, virtual_readers s !! p = Some c ->
    (c < next_cell s)%nat /\ exists d, nodes s !! p = Some (File d);
}.

Lemma new_inv : fs_inv (new : Inner).
Proof.
  split; cbn -[MAX_INODES MAX_TOTAL_BYTES]; try (intros; simplify_map_eq; done).
  intros c. rewrite lookup_empty. split; [lia|]. by intros [? ?].
Qed.

(** *** Preservation by the elementary updates *)

(** Adding or overwriting an entry with a node that holds no bytes. *)
Lemma inv_put_node s p v :
  fs_inv s -> p <> [slash] -> node_bytes v = 0 ->
  (is_Some (nodes s !! p) \/ inodes_full s = false) ->
  (virtual_readers s !! p = None \/ v = File []) ->
  fs_inv (set_nodes (<[p := v]> (nodes s)) s).
Proof.
  intros [] Hp Hv Hroom Hvr. split; cbn; try done.
  - by rewrite lookup_insert_ne.
  - destruct (nodes s !! p) as [w|] eqn:E.
    + rewrite map_size_insert_Some by eauto. done.
    + destruct Hroom as [[? ?]|Hf]; [done|]. unfold inodes_full in Hf. bool_to_prop.
      rewrite map_size_insert_None by done. lia.
  - destruct (nodes s !! p) as [w|] eqn:E.
    + rewrite (file_bytes_insert_old _ _ _ w) by done.
      pose proof (node_bytes_nonneg w). lia.
    + rewrite file_bytes_insert_new by done. lia.
  - intros q d. rewrite lookup_insert. case_decide; [|by apply inv_files0].
    intros [= ->]. simpl in Hv. unfold MAX_FILE_SIZE. lia.
  - intros q c Hq. destruct (inv_vr0 q c Hq) as [? [d Hd]]. split; [done|].
    rewrite lookup_insert. case_decide; [|by eauto]. subst.
    destruct Hvr as [?| ->]; [congruence|eauto].
Qed.

Lemma inv_delete_node s p :
  fs_inv s -> p <> [slash] -> virtual_readers s !! p = None ->
  fs_inv (set_nodes (delete p (nodes s)) s).
Proof.
  intros [] Hp Hvr. split; cbn; try done.
  - by rewrite lookup_delete_ne.
  - pose proof (map_size_delete p (nodes s)) as E.
    destruct (nodes s !! p); rewrite E; simpl; lia.
  - destruct (nodes s !! p) as [w|] eqn:E; [|by rewrite delete_id].
    rewrite (file_bytes_delete _ _ w) by done. pose proof (node_bytes_nonneg w). lia.
  - intros q d. rewrite lookup_delete_Some. intros []. eauto.
  - intros q c Hq. destruct (inv_vr0 q c Hq) as [? [d Hd]]. split; [done|].
    exists d. rewrite lookup_delete_ne; [done|]. congruence.
Qed.

Lemma inv_delete_vr s p :
  fs_inv s -> fs_inv (set_virtual_readers (delete p (virtual_readers s)) s).
Proof.
  intros []. split; cbn; try done.
  intros q c. rewrite lookup_delete_Some. intros []. eauto.
Qed.

Lemma inv_delete_modes s p :
  fs_inv s -> fs_inv (set_modes (delete p (modes s)) s).
Proof.
  intros []. split; cbn; try done.
  intros q m. rewrite lookup_delete_Some. intros []. eauto.
Qed.

(** Lowering the cached total to what the files hold, or anywhere between. *)
Lemma inv_set_total s t :
  fs_inv s -> file_bytes (nodes s) <= t <= MAX_TOTAL_BYTES -> fs_inv (set_total_bytes t s).
Proof. intros [] ?. by split. Qed.

(** The state after the file at [p] was replaced by [d]; the total follows. *)
Lemma inv_write s p c d t :
  fs_inv s -> nodes s !! p = Some (File c) -> len d <= MAX_FILE_SIZE ->
  total_bytes s - len c + len d <= t <= MAX_TOTAL_BYTES ->
  fs_inv (set_total_bytes t (set_nodes (<[p := File d]> (nodes s)) s)).
Proof.
  intros [] Hp Hd Ht. split; cbn; try done.
  - rewrite lookup_insert_ne; [done|]. intros ->. congruence.
  - rewrite map_size_insert_Some by eauto. done.
  - rewrite (file_bytes_insert_old _ _ _ (File c)) by done. simpl. lia.
  - intros q e. rewrite lookup_insert. case_decide; [|by eauto]. by intros [= <-].
  - intros q n Hq. destruct (inv_vr0 q n Hq) as [? [e He]]. split; [done|].
    rewrite lookup_insert. case_decide; eauto.
Qed.

Lemma inv_put_handle s o :
  fs_inv s -> next_handle s + 1 <= U64_MAX ->
  (forall c, source o = VirtualSource c -> (c < next_cell s)%nat) ->
  fs_inv (set_handles (<[next_handle s := o]> (handles s))
            (set_next_handle (next_handle s + 1) s)).
Proof.
  intros [] Hn Hc. split; cbn; try done; try lia.
  - intros h f. rewrite lookup_insert. case_decide; [intros [= <-]; lia|].
    intros Hh. apply inv_handles0 in Hh. lia.
  - intros h f c. rewrite lookup_insert. case_decide; [intros [= <-]; eauto|]. eauto.
Qed.

Lemma inv_put_cell s c r :
  fs_inv s -> (c < next_cell s)%nat ->
  fs_inv (set_cells (<[c := r]> (cells s)) (next_cell s) s).
Proof.
  intros [] Hc. split; cbn; try done.
  intros c'. rewrite lookup_insert. case_decide; [subst; naive_solver|done].
Qed.

Lemma vr_absent s p : fs_inv s -> nodes s !! p = None -> virtual_readers s !! p = None.
Proof.
  intros [] Hp. destruct (virtual_readers s !! p) as [c|] eqn:E; [|done].
  apply inv_vr0 in E as [_ [d ?]]. congruence.
Qed.

Lemma vr_not_file s p :
  fs_inv s -> (forall d, nodes s !! p <> Some (File d)) -> virtual_readers s !! p = None.
Proof.
  intros [] Hp. destruct (virtual_readers s !! p) as [c|] eqn:E; [|done].
  apply inv_vr0 in E as [_ [d ?]]. naive_solver.
Qed.

Lemma absent_not_root s p : fs_inv s -> nodes s !! p = None -> p <> [slash].
Proof. intros [] Hp ->. congruence. Qed.
End inv.

(** * Correctness of the in-memory filesystem

    Preservation of [fs_inv] by every operation, reachability, and the
    functional behaviour of the operations: symlink resolution, reads and
    writes, permissions, directory listings, quota accounting. *)

(** Unfold the monad of one operation down to its state transitions. *)
Ltac run_io :=
  unfold mbind, comp_bind, res_bind, get, modify, throw, panic, mret, comp_ret, res_ret,
    lift_res in *; cbn [fst snd] in *.

Section props.
Context `{Target} {R : Type} `{Read R}.
Abbreviation Inner := (MemoryFsInner R).
Abbreviation io := (comp (MemoryFsInner R) FsError).

(** ** Parent creation *)

(** The directory named by the first parts below [current]. *)
Definition below (current : str) (parts : list str) : str :=
  current ++ concat (map (cons slash) parts).

(** What [ensure_parents_loop] and [symlink_parents] may do to a store: add
    directories at proper ancestors, nothing else. *)
Record grown (current : str) (parts : list str) (s s' : Inner) : Prop := {
  grown_frame : s' = set_nodes (nodes s') s;
  grown_keeps : forall k v, nodes s !! k = Some v -> nodes s' !! k = Some v;
  grown_new : forall k v, nodes s' !! k = Some v -> nodes s !! k = None ->
    v = Dir /\ exists j, (1 <= j <= length parts)%nat /\ k = below current (take j parts);
}.

Lemma set_nodes_id (s : Inner) : s = set_nodes (nodes s) s.
Proof. by destruct s. Qed.

Lemma grown_refl current parts s : grown current parts s s.
Proof. split; [apply set_nodes_id|done|congruence]. Qed.

Lemma below_cons current p ps : below current (p :: ps) = below (current ++ slash :: p) ps.
Proof. unfold below. cbn. by rewrite <- app_assoc. Qed.

Lemma below_nil current : below current [] = current.
Proof. unfold below. cbn. by rewrite app_nil_r. Qed.

Lemma grown_cons current p ps s s' :
  grown (current ++ slash :: p) ps s s' -> grown current (p :: ps) s s'.
Proof.
  intros [Hf Hk Hn]. split; [done|done|].
  intros k v H1 H2. destruct (Hn k v H1 H2) as (-> & j & Hj & ->). split; [done|].
  exists (S j). cbn. rewrite below_cons. split; [lia|done].
Qed.

(** One new directory, then more below it. *)
Lemma grown_step current p ps s s' :
  nodes s !! (current ++ slash :: p) = None ->
  grown (current ++ slash :: p) ps
    (set_nodes (<[current ++ slash :: p := Dir]> (nodes s)) s) s' ->
  grown current (p :: ps) s s'.
Proof.
  intros Hnone [Hf Hk Hn]. split.
  - rewrite Hf. done.
  - intros k v Hv. apply Hk. cbn. rewrite lookup_insert_ne; [done|]. congruence.
  - intros k v H1 H2. destruct (decide (k = current ++ slash :: p)) as [->|Hne].
    + specialize (Hk (current ++ slash :: p) Dir). cbn in Hk.
      rewrite lookup_insert_eq in Hk. specialize (Hk eq_refl).
      split; [congruence|]. exists 1%nat. cbn. rewrite below_cons, take_0, below_nil.
      split; [lia|done].
    + destruct (Hn k v H1) as (-> & j & Hj & ->); [cbn; by rewrite lookup_insert_ne|].
      split; [done|]. exists (S j). cbn. rewrite below_cons. split; [lia|done].
Qed.

Lemma inv_mkdir (s : Inner) p :
  fs_inv s -> nodes s !! p = None -> inodes_full s = false ->
  fs_inv (set_nodes (<[p := Dir]> (nodes s)) s).
Proof.
  intros Hs Hp Hf. apply inv_put_node; [done|by eapply absent_not_root|done|by right|].
  left. by apply vr_absent.
Qed.

Lemma ensure_parents_loop_spec parts current (s : Inner) :
  fs_inv s ->
  fs_inv (fst (ensure_parents_loop current parts s)) /\
  grown current parts s (fst (ensure_parents_loop current parts s)).
Proof.
  revert current s. induction parts as [|p ps IH]; intros current s Hs; cbn -[inodes_full].
  - run_io. split; [done|apply grown_refl].
  - run_io. case_decide as Hk.
    + destruct (IH (current ++ slash :: p) s Hs). split; [done|by apply grown_cons].
    + apply eq_None_not_Some in Hk.
      destruct (inodes_full s) eqn:Hf; cbn; [split; [done|apply grown_refl]|].
      destruct (IH (current ++ slash :: p) (set_nodes (<[current ++ slash :: p := Dir]> (nodes s)) s))
        as [? Hg]; [by apply inv_mkdir|].
      split; [done|]. by apply grown_step.
Qed.

Lemma symlink_parents_spec parts current (s : Inner) :
  fs_inv s ->
  fs_inv (fst (symlink_parents current parts s)) /\
  grown current parts s (fst (symlink_parents current parts s)).
Proof.
  revert current s. induction parts as [|p ps IH]; intros current s Hs.
  - cbn. run_io. split; [done|apply grown_refl].
  - cbn [symlink_parents]. run_io.
    destruct (nodes s !! (current ++ slash :: p)) as [[d| |t]|] eqn:Hk; cbn.
    1, 3: split; [done|apply grown_refl].
    + destruct (IH (current ++ slash :: p) s Hs). split; [done|by apply grown_cons].
    + unfold check_inode_room. run_io.
      destruct (inodes_full s) eqn:Hf; cbn; [split; [done|apply grown_refl]|].
      destruct (IH (current ++ slash :: p) (set_nodes (<[current ++ slash :: p := Dir]> (nodes s)) s))
        as [? Hg]; [by apply inv_mkdir|].
      split; [done|]. by apply grown_step.
Qed.

(** *** The created parents are never the path itself *)

Lemma join_below parts : parts <> [] -> slash :: join [slash] parts = below [] parts.
Proof.
  induction parts as [|p ps IH]; [done|]. intros _.
  destruct ps as [|q ps]; [unfold below; cbn; by rewrite app_nil_r|].
  rewrite join_cons. unfold below in *. cbn in IH |- *. rewrite <- IH by done. done.
Qed.

Lemma below_length current parts :
  length (below current parts) = (length current + length parts + length (concat parts))%nat.
Proof.
  revert current. induction parts as [|p ps IH]; intros current.
  - rewrite below_nil. cbn. lia.
  - rewrite below_cons, IH, length_app. cbn. rewrite length_app. lia.
Qed.

Lemma length_concat_take n (parts : list str) :
  (length (concat (take n parts)) <= length (concat parts))%nat.
Proof.
  revert n. induction parts as [|p ps IH]; intros [|n]; cbn; [lia..|].
  rewrite !length_app. specialize (IH n). lia.
Qed.

Lemma clean_filter parts : Forall clean parts -> filter (fun p => p <> []) parts = parts.
Proof.
  induction 1 as [|p ps (Hne & _) Hps IH]; [done|].
  rewrite filter_cons_True by done. by rewrite IH.
Qed.

Lemma parent_parts_abs parts :
  Forall clean parts ->
  parent_parts (slash :: join [slash] parts) = take (length parts - 1) parts.
Proof.
  intros Hc. unfold parent_parts.
  change (split_on slash (slash :: join [slash] parts)) with ([] :: split_on slash (join [slash] parts)).
  rewrite filter_cons_False by naive_solver.
  destruct (decide (parts = [])) as [->|Hne]; [done|].
  rewrite split_on_join by (done || by apply clean_no_sep).
  by rewrite clean_filter.
Qed.

Lemma parent_not_self norm j :
  normal norm -> (1 <= j <= length (parent_parts norm))%nat ->
  below [] (take j (parent_parts norm)) <> norm.
Proof.
  intros [q ->] Hj Heq. pose proof (norm_components_clean q) as Hc.
  unfold normalize_path in *. destruct (starts_with [slash] q) eqn:Hq.
  - rewrite parent_parts_abs in * by done.
    set (parts := norm_components q) in *.
    rewrite length_take in Hj. rewrite take_take in Heq.
    destruct (decide (parts = [])) as [E|Hne]; [rewrite E in Hj; cbn in Hj; lia|].
    rewrite join_below in Heq by done.
    apply (f_equal length) in Heq. rewrite !below_length in Heq.
    rewrite length_take in Heq.
    assert (length (concat (take (j `min` (length parts - 1)) parts)) <= length (concat parts))%nat.
    { apply length_concat_take. }
    lia.
  - assert (Hs : starts_with [slash] (below [] (take j (parent_parts
      (if decide (join [slash] (norm_components q) = []) then # "."
       else join [slash] (norm_components q))))) = true).
    { destruct (parent_parts _) as [|p ps]; [cbn in Hj; lia|]. destruct j; [lia|].
      apply starts_with_slash_cons. }
    rewrite Heq in Hs. case_decide; [done|]. by rewrite join_clean_not_abs in Hs.
Qed.

Lemma grown_keeps_none norm (s s' : Inner) :
  normal norm -> grown [] (parent_parts norm) s s' ->
  nodes s !! norm = None -> nodes s' !! norm = None.
Proof.
  intros Hn [_ _ Hnew] Hnone. destruct (nodes s' !! norm) as [v|] eqn:E; [|done].
  destruct (Hnew norm v E Hnone) as (_ & j & Hj & Heq).
  by destruct (parent_not_self norm j Hn Hj).
Qed.
End props.
