(* ===== verification/MemFsSafe.v ===== *)
(** * Safety of the in-memory filesystem

    Every operation preserves [fs_inv], on success and on every error path;
    reachable stores therefore satisfy the quotas.  The operations are the
    labels of a step relation, so that the result covers every interleaving of
    calls through any number of clones, handles and sinks. *)

From S2P Require Import Prelude Strings Fs MemFs MemFsInv.

Section safe.
Context `{Target} {R : Type} `{Read R}.
Abbreviation Inner := (MemoryFsInner R).
Abbreviation io := (comp (MemoryFsInner R) FsError).

Lemma ensure_parents_inv norm : preserves fs_inv (ensure_parents norm : io unit).
Proof. intros s Hs. by apply ensure_parents_loop_spec. Qed.

Lemma check_inode_room_inv : preserves fs_inv (check_inode_room : io unit).
Proof. intros s Hs. unfold check_inode_room. run_io. by case_split. Qed.

(** Create a node that holds no bytes at a path that is absent: parents
    first, then the inode check, then the entry. *)
Lemma create_node_inv norm v (s : Inner) :
  fs_inv s -> normal norm -> nodes s !! norm = None -> node_bytes v = 0 ->
  fs_inv (fst ((_ ← ensure_parents norm; _ ← check_inode_room;
    modify (fun s => set_nodes (<[norm := v]> (nodes s)) s) : io unit) s)).
Proof.
  intros Hs Hn Hnone Hv. unfold ensure_parents.
  destruct (ensure_parents_loop_spec (parent_parts norm) [] s Hs) as [Hs' Hg].
  run_io. destruct (ensure_parents_loop [] (parent_parts norm) s) as [s' [a|e|w]]; cbn in *; [|done..].
  unfold check_inode_room. run_io. destruct (inodes_full s') eqn:Hf; [done|]. cbn.
  pose proof (grown_keeps_none norm s s' Hn Hg Hnone) as Hnone'.
  apply inv_put_node; [done|by eapply absent_not_root|done|by right|].
  left. by apply vr_absent.
Qed.

Lemma insert_handle_inv src o (s : Inner) :
  fs_inv s -> (forall c, src = VirtualSource c -> (c < next_cell s)%nat) ->
  fs_inv (fst (insert_handle src o s)).
Proof.
  intros Hs Hc. unfold insert_handle, alloc_handle. run_io.
  case_split; cbn; [|done]. bool_to_prop.
  apply (inv_put_handle s {| source := src; opts := o |}); done.
Qed.

Lemma resolve_loop_normal n (s : Inner) cur p :
  normal cur -> resolve_loop n s cur = Ok p -> normal p.
Proof.
  revert cur. induction n as [|n IH]; intros cur Hn; [done|]. cbn [resolve_loop].
  repeat case_split; try congruence.
  intros Hr. eapply IH; [|done]. unfold link_target. case_split; apply normal_normalize.
Qed.

Lemma resolve_normal (s : Inner) path p :
  resolve_normalized s (normalize_path path) = Ok p -> normal p.
Proof. apply resolve_loop_normal, normal_normalize. Qed.

Lemma resolve_loop_not_link n (s : Inner) cur p t :
  resolve_loop n s cur = Ok p -> nodes s !! p <> Some (Symlink t).
Proof.
  revert cur. induction n as [|n IH]; intros cur; [done|]. cbn [resolve_loop].
  destruct (nodes s !! cur) as [[d| |t']|] eqn:E; try (intros [= <-]; congruence).
  apply IH.
Qed.

(** The two [Symlink] branches after a resolution cannot be taken. *)
Lemma resolve_not_link (s : Inner) norm p t :
  resolve_normalized s norm = Ok p -> nodes s !! p <> Some (Symlink t).
Proof. apply resolve_loop_not_link. Qed.

Lemma sat_sub_bounds a b : 0 <= b -> 0 <= a -> a - b <= sat_sub a b <= a.
Proof. unfold sat_sub. lia. Qed.

(** Emptying a file and crediting its bytes. *)
Lemma inv_truncate (s : Inner) p d :
  fs_inv s -> nodes s !! p = Some (File d) ->
  fs_inv (set_total_bytes (sat_sub (total_bytes s) (len d))
           (set_nodes (<[p := File []]> (nodes s)) s)).
Proof.
  intros Hs Hp. pose proof (inv_bytes s Hs). pose proof (file_bytes_lookup _ _ _ Hp) as Hb.
  pose proof (file_bytes_nonneg (nodes s)). pose proof (len_nonneg d). cbn in Hb.
  pose proof (sat_sub_bounds (total_bytes s) (len d)).
  apply (inv_write s p d); [done|done|rewrite len_nil; unfold MAX_FILE_SIZE; lia|].
  rewrite len_nil. lia.
Qed.

Lemma open_node_spec norm o (s : Inner) :
  fs_inv s -> normal norm -> fs_inv (fst (open_node norm o s)).
Proof.
  intros Hs Hn. unfold open_node.
  change ((get ≫= ?k) s) with (k s s). cbn beta.
  destruct (nodes s !! norm) as [[d| |t]|] eqn:Hnode; cbn -[ensure_parents check_inode_room].
  - repeat case_split; try done. by apply inv_truncate.
  - done.
  - done.
  - destruct (o_create o); [|done]. by apply create_node_inv.
Qed.

Lemma open_node_cells norm o (s : Inner) :
  next_cell (fst (open_node norm o s)) = next_cell s.
Proof.
  unfold open_node. change ((get ≫= ?k) s) with (k s s). cbn beta.
  destruct (nodes s !! norm) as [[d| |t]|]; [repeat case_split; done|done|done|].
  destruct (o_create o); [|done]. unfold ensure_parents.
  assert (Hl : forall parts cur (s : Inner),
    next_cell (fst (ensure_parents_loop cur parts s)) = next_cell s).
  { clear. induction parts as [|p ps IH]; intros cur s; [done|].
    cbn [ensure_parents_loop]. run_io. repeat case_split; cbn; rewrite ?IH; done. }
  specialize (Hl (parent_parts norm) [] s). run_io.
  destruct (ensure_parents_loop [] (parent_parts norm) s) as [s' [a|e|w]]; cbn in *; [|done..].
  unfold check_inode_room. run_io. by case_split.
Qed.

Lemma open_inv path o : preserves fs_inv (open path o : io FileHandle).
Proof.
  intros s Hs. unfold open. change ((get ≫= ?k) s) with (k s s). cbn beta.
  unfold lift_res. run_io.
  destruct (resolve_normalized s (normalize_path path)) as [norm|e|w] eqn:Hr; [|done..].
  apply resolve_normal in Hr.
  destruct (if read_only o then _ else None) as [cell|] eqn:Hv.
  - destruct (read_only o); [|done].
    destruct (inv_vr s Hs norm cell Hv) as [Hcell [d Hd]].
    apply insert_handle_inv; [|intros c [= <-]; done].
    apply (inv_delete_node (set_virtual_readers _ s)).
    + by apply inv_delete_vr.
    + intros ->. rewrite (inv_root s Hs) in Hd. done.
    + cbn. apply lookup_delete_eq.
  - pose proof (open_node_spec norm o s Hs Hr).
    pose proof (open_node_cells norm o s).
    destruct (open_node norm o s) as [s' [a|e|w]]; cbn in *; [|done..].
    by apply insert_handle_inv.
Qed.

Lemma read_source_inv h : preserves fs_inv (read_source h : io OpenFileSource).
Proof. intros s Hs. unfold read_source. run_io. repeat case_split; done. Qed.

Lemma read_source_state h (s s' : Inner) src :
  read_source h s = (s', Ok src) ->
  s' = s /\ exists f, handles s !! handle_id h = Some f /\ source f = src /\ o_read (opts f) = true.
Proof. unfold read_source. run_io. repeat case_split; intros; simplify_eq. eauto. Qed.

Lemma read_file_inv h : preserves fs_inv (read_file h : io str).
Proof.
  intros s Hs. unfold read_file. run_io.
  destruct (read_source h s) as [s' [src|e|w]] eqn:E.
  2,3: by eapply preserves_run in E; [|apply read_source_inv|].
  apply read_source_state in E as (-> & f & Hf & Hsrc & _). destruct src as [p|c].
  - repeat case_split; done.
  - destruct (cells s !! c) as [r|]; [|done].
    destruct (read_to_end r) as [r' [bytes|msg]]; cbn;
      (apply inv_put_cell; [done|by eapply inv_vhandles]).
Qed.

Lemma stream_file_inv h : preserves fs_inv (stream_file h : io StreamReader).
Proof.
  intros s Hs. unfold stream_file. run_io.
  destruct (read_source h s) as [s' [src|e|w]] eqn:E.
  2,3: by eapply preserves_run in E; [|apply read_source_inv|].
  apply read_source_state in E as (-> & _). repeat case_split; done.
Qed.

Lemma stream_read_inv r n : preserves fs_inv (stream_read r n : io (StreamReader * str)).
Proof.
  intros s Hs. unfold stream_read. destruct r as [d pos|c]; [done|]. run_io.
  destruct (cells s !! c) as [rd|] eqn:Hc; [|done].
  destruct (read_buf rd n) as [rd' [bytes|msg]]; cbn;
    (apply inv_put_cell; [done|apply inv_cells; eauto]).
Qed.

Lemma projected_total_eq (s : Inner) (d : str) n :
  fs_inv s -> 0 <= n <= MAX_FILE_SIZE -> len d <= file_bytes (nodes s) ->
  sat_add usize_max (sat_sub (total_bytes s) (len d)) n = total_bytes s - len d + n.
Proof.
  intros Hs Hn Hd. pose proof (inv_bytes s Hs). pose proof usize_max_ge. pose proof (len_nonneg d).
  unfold sat_add, sat_sub. unfold MAX_TOTAL_BYTES, MAX_FILE_SIZE in *. lia.
Qed.

Lemma write_chunk_inv sink data : preserves fs_inv (write_chunk sink data : io MemoryWriteSink).
Proof.
  intros s Hs. unfold write_chunk. run_io.
  destruct (nodes s !! sink_path sink) as [[c| |t]|] eqn:Hp; try done.
  case_split; [done|]. case_split; [done|]. cbn. bool_to_prop.
  pose proof (file_bytes_lookup _ _ _ Hp) as Hc. cbn in Hc.
  pose proof (len_nonneg c). pose proof (len_nonneg data).
  assert (0 <= (if sink_append sink then len c + len data else len data) <= MAX_FILE_SIZE)
    by (destruct (sink_append sink); lia).
  rewrite projected_total_eq in * by done.
  apply (inv_write s _ c); [done|done|..].
  - destruct (sink_append sink); rewrite ?len_app; lia.
  - destruct (sink_append sink); rewrite ?len_app; lia.
Qed.

Lemma write_file_inv h data : preserves fs_inv (write_file h data : io unit).
Proof.
  intros s Hs. unfold write_file. run_io. repeat case_split; try done.
  all: eapply preserves_run; [apply write_chunk_inv|exact Hs|eassumption].
Qed.

Lemma reset_file_inv norm (s : Inner) :
  fs_inv s -> norm <> [slash] -> is_Some (nodes s !! norm) \/ inodes_full s = false ->
  fs_inv (reset_file norm s).
Proof.
  intros Hs Hne Hroom. unfold reset_file.
  destruct (nodes s !! norm) as [[d| |t]|] eqn:Hn.
  - change (fs_inv (set_total_bytes (sat_sub (total_bytes s) (len d))
             (set_nodes (<[norm := File []]> (nodes s)) s))). by apply inv_truncate.
  - apply inv_put_node; eauto.
  - apply inv_put_node; eauto.
  - apply inv_put_node; [done|done|done| |by right]. rewrite Hn. naive_solver.
Qed.

Lemma sink_node_spec norm (s s' : Inner) r :
  fs_inv s -> normal norm -> sink_node norm s = (s', r) ->
  fs_inv s' /\ (r = Ok tt -> exists d, nodes s' !! norm = Some (File d)).
Proof.
  intros Hs Hn. unfold sink_node. change ((get ≫= ?k) s) with (k s s). cbn beta.
  destruct (nodes s !! norm) as [[d| |t]|] eqn:Hnode.
  - intros [= <- <-]. eauto.
  - intros [= <- <-]. done.
  - intros [= <- <-]. done.
  - intros Hr. split.
    + pose proof (create_node_inv norm (File []) s Hs Hn Hnode eq_refl) as Hc. by rewrite Hr in Hc.
    + intros ->. revert Hr. run_io. destruct (ensure_parents norm s) as [s1 [?|?|?]]; [|done..].
      unfold check_inode_room. run_io. case_split; [done|]. intros [= <-].
      exists []. apply lookup_insert_eq.
Qed.

Lemma open_write_sink_inv path append : preserves fs_inv (open_write_sink path append : io MemoryWriteSink).
Proof.
  intros s Hs. unfold open_write_sink. run_io.
  destruct (resolve_normalized s (normalize_path path)) as [norm|e|w] eqn:Hr; [|done..].
  apply resolve_normal in Hr.
  destruct (sink_node norm _) as [s' r] eqn:E.
  apply sink_node_spec in E as [Hs' Hf]; [|by apply inv_delete_vr|done].
  destruct r as [[]|e|w]; [|done..]. destruct append; [done|]. cbn.
  destruct (Hf eq_refl) as [d Hd]. apply reset_file_inv; [done| |eauto].
  intros ->. rewrite (inv_root s' Hs') in Hd. done.
Qed.
End safe.

Section safe_ops.
Context `{Target} {R : Type} `{Read R}.
Abbreviation Inner := (MemoryFsInner R).
Abbreviation io := (comp (MemoryFsInner R) FsError).

Lemma inv_install (s : Inner) p r d :
  fs_inv s -> nodes s !! p = Some (File d) ->
  fs_inv (set_virtual_readers (<[p := next_cell s]> (virtual_readers s))
           (set_cells (<[next_cell s := r]> (cells s)) (S (next_cell s)) s)).
Proof.
  intros [] Hp. split; cbn; try done.
  - intros c. rewrite lookup_insert. case_decide; subst; [split; [eauto|lia]|].
    rewrite <- inv_cells. lia.
  - intros h f c Hh Hc. specialize (inv_vhandles h f c Hh Hc). lia.
  - intros q c. rewrite lookup_insert. case_decide; subst; [intros [= <-]; split; [lia|eauto]|].
    intros Hq. destruct (inv_vr q c Hq). split; [lia|done].
Qed.

Lemma install_stream_reader_inv path r : preserves fs_inv (install_stream_reader path r : io unit).
Proof.
  intros s Hs. unfold install_stream_reader.
  change ((get ≫= ?k) s) with (k s s). cbn beta.
  set (norm := normalize_path path). pose proof (normal_normalize path) as Hn. fold norm in Hn.
  assert (Hfin : forall s' : Inner, fs_inv s' -> norm <> [slash] ->
    is_Some (nodes s' !! norm) \/ inodes_full s' = false ->
    fs_inv (fst ((_ ← modify (reset_file norm);
      modify (fun s =>
        set_virtual_readers (<[norm := next_cell s]> (virtual_readers s))
          (set_cells (<[next_cell s := r]> (cells s)) (S (next_cell s)) s)) : io unit) s'))).
  { intros s' Hs' Hne Hroom. run_io. eapply inv_install; [by apply reset_file_inv|].
    unfold reset_file. cbn. apply lookup_insert_eq. }
  destruct (ensure_parents_loop_spec (parent_parts norm) [] s Hs) as [Hs' Hg].
  destruct (decide (nodes s !! norm = None)) as [E|Hsome].
  - rewrite E. run_io. unfold ensure_parents.
    destruct (ensure_parents_loop [] (parent_parts norm) s) as [s' [a|e|w]]; cbn in *; [|done..].
    rewrite decide_True by done. unfold check_inode_room. run_io.
    destruct (inodes_full s') eqn:Hf; [done|]. apply Hfin; [done| |by right].
    exact (absent_not_root s norm Hs E).
  - destruct (nodes s !! norm) as [v|] eqn:E; [|done].
    destruct (decide (v = Dir)) as [->|Hv]; [done|].
    assert (Hne : norm <> [slash]) by (intros Heq; rewrite Heq, (inv_root s Hs) in E; congruence).
    assert (Hold : forall s' : Inner, grown [] (parent_parts norm) s s' -> is_Some (nodes s' !! norm))
      by (intros s' [_ Hk _]; eauto).
    destruct v as [d| |t]; [|done|]; run_io; unfold ensure_parents;
      (destruct (ensure_parents_loop [] (parent_parts norm) s) as [s' [a|e|w]]; cbn in *; [|done..]);
      (apply Hfin; [done|done|left; by apply Hold]).
Qed.

Lemma close_inv h : preserves fs_inv (close h : io unit).
Proof.
  intros s []. split; cbn; try done.
  - intros h' f. rewrite lookup_delete_Some. intros []. eauto.
  - intros h' f c. rewrite lookup_delete_Some. intros []. eauto.
Qed.

Lemma symlink_inv target path : preserves fs_inv (symlink target path : io unit).
Proof.
  intros s Hs. unfold symlink. run_io. set (norm := normalize_path path).
  case_decide as Hd; [done|]. apply eq_None_not_Some in Hd.
  destruct (symlink_parents_spec (parent_parts norm) [] s Hs) as [Hs' Hg].
  destruct (symlink_parents [] (parent_parts norm) s) as [s' [a|e|w]]; cbn in *; [|done..].
  unfold check_inode_room. run_io. destruct (inodes_full s') eqn:Hf; [done|]. cbn.
  pose proof (grown_keeps_none norm s s' (normal_normalize path) Hg Hd) as Hnone.
  apply inv_put_node; [done|by eapply absent_not_root|done|by right|].
  left. by apply vr_absent.
Qed.

Lemma create_dir_inv path : preserves fs_inv (create_dir path : io unit).
Proof.
  intros s Hs. unfold create_dir. change ((get ≫= ?k) s) with (k s s). cbn beta.
  case_decide as Hd; [done|]. apply eq_None_not_Some in Hd.
  apply create_node_inv; [done|apply normal_normalize|done|done].
Qed.

Lemma inv_drop_entry (s : Inner) p :
  fs_inv s -> p <> [slash] -> virtual_readers s !! p = None ->
  fs_inv (set_modes (delete p (modes s)) (set_nodes (delete p (nodes s)) s)).
Proof. intros. apply (inv_delete_modes (set_nodes _ s)). by apply inv_delete_node. Qed.

Lemma inv_unlink (s : Inner) p d :
  fs_inv s -> nodes s !! p = Some (File d) ->
  fs_inv (set_total_bytes (sat_sub (total_bytes s) (len d))
    (set_virtual_readers (delete p (virtual_readers s))
      (set_modes (delete p (modes s)) (set_nodes (delete p (nodes s)) s)))).
Proof.
  intros Hs Hp. assert (Hne : p <> [slash]).
  { intros ->. rewrite (inv_root s Hs) in Hp. done. }
  apply inv_set_total.
  - set (s1 := set_virtual_readers (delete p (virtual_readers s)) s).
    change (fs_inv (set_modes (delete p (modes (set_nodes (delete p (nodes s1)) s1)))
      (set_nodes (delete p (nodes s1)) s1))).
    apply inv_delete_modes, inv_delete_node; [by apply inv_delete_vr|done|].
    apply lookup_delete_eq.
  - cbn. rewrite (file_bytes_delete _ _ _ Hp). cbn. pose proof (inv_bytes s Hs).
    pose proof (file_bytes_lookup _ _ _ Hp) as Hb. cbn in Hb. unfold sat_sub.
    pose proof (len_nonneg d). lia.
Qed.

Lemma remove_file_inv path : preserves fs_inv (remove_file path : io unit).
Proof.
  intros s Hs. unfold remove_file. run_io. set (norm := normalize_path path).
  assert (Hrest : fs_inv (fst (match (resolve_normalized s norm : res FsError str) with
      | Ok resolved =>
        match nodes s !! resolved with
        | Some Dir => fun s0 : Inner => (s0, Err (IsADirectory resolved))
        | Some (File contents) => fun s0 =>
            (set_total_bytes (sat_sub (total_bytes s0) (len contents))
              (set_virtual_readers (delete resolved (virtual_readers s0))
                (set_modes (delete resolved (modes s0))
                  (set_nodes (delete resolved (nodes s0)) s0))), Ok tt)
        | _ => fun s0 => (s0, Err (NotFound norm))
        end s
      | Err e => (s, Err e) | Panic w => (s, Panic w) end))).
  { destruct (resolve_normalized s norm) as [p|e|w]; [|done..].
    destruct (nodes s !! p) as [[d| |t]|] eqn:Hp; try done. by apply inv_unlink. }
  destruct (nodes s !! norm) as [[d| |t]|] eqn:E; try exact Hrest.
  apply inv_drop_entry; [done| |].
  - intros Heq. rewrite Heq, (inv_root s Hs) in E. done.
  - apply vr_not_file; [done|]. congruence.
Qed.

(** [starts_with "/"] holds of the root entry itself. *)
Lemma root_has_children (s : Inner) : fs_inv s -> has_children s (dir_prefix [slash]) = true.
Proof.
  intros Hs. unfold has_children. apply existsb_exists. exists ([slash], Dir). split; [|done].
  apply list_elem_of_In, elem_of_map_to_list, inv_root, Hs.
Qed.

Lemma remove_dir_inv path : preserves fs_inv (remove_dir path : io unit).
Proof.
  intros s Hs. unfold remove_dir. run_io. set (norm := normalize_path path).
  destruct (nodes s !! norm) as [[d| |t]|] eqn:E; try done.
  destruct (has_children s (dir_prefix norm)) eqn:Hc; [done|].
  apply inv_drop_entry; [done| |].
  - intros Heq. rewrite Heq, root_has_children in Hc; done.
  - apply vr_not_file; [done|]. congruence.
Qed.

Lemma land_mask m : 0 <= Z.land m MODE_PERM_MASK <= MODE_PERM_MASK.
Proof.
  assert (0 <= Z.land m MODE_PERM_MASK) by (apply Z.land_nonneg; right; done).
  split; [done|]. change MODE_PERM_MASK with (Z.ones 9) in *. rewrite Z.land_ones by lia.
  change (Z.ones 9) with (2 ^ 9 - 1). pose proof (Z.mod_pos_bound m (2 ^ 9)). lia.
Qed.

Lemma set_mode_inv path m : preserves fs_inv (set_mode path m : io unit).
Proof.
  intros s Hs. unfold set_mode. run_io. case_decide; [|done]. cbn.
  destruct Hs. split; cbn; try done.
  intros q m'. rewrite lookup_insert. case_decide; [intros [= <-]; apply land_mask|eauto].
Qed.
End safe_ops.

#[export] Hint Resolve open_inv read_file_inv stream_file_inv stream_read_inv
  write_file_inv write_chunk_inv open_write_sink_inv install_stream_reader_inv close_inv
  symlink_inv create_dir_inv remove_file_inv remove_dir_inv set_mode_inv : wasmsh.

(** ** Reachable stores *)

Section reach.
Context `{Target} {R : Type} `{Read R}.
Abbreviation Inner := (MemoryFsInner R).

(** The calls that may change the store. *)
Inductive fs_op :=
  | OpOpen (path : str) (o : OpenOptions)
  | OpReadFile (h : FileHandle)
  | OpStreamFile (h : FileHandle)
  | OpStreamRead (r : StreamReader) (n : nat)
  | OpWriteFile (h : FileHandle) (data : str)
  | OpOpenSink (path : str) (append : bool)
  | OpSinkWrite (sink : MemoryWriteSink) (data : str)
  | OpInstall (path : str) (r : R)
  | OpClose (h : FileHandle)
  | OpSymlink (target path : str)
  | OpCreateDir (path : str)
  | OpRemoveFile (path : str)
  | OpRemoveDir (path : str)
  | OpSetMode (path : str) (m : Z).

Definition fs_exec (op : fs_op) (s : Inner) : Inner :=
  match op with
  | OpOpen p o => fst (open p o s)
  | OpReadFile h => fst (read_file h s)
  | OpStreamFile h => fst (stream_file h s)
  | OpStreamRead r n => fst (stream_read r n s)
  | OpWriteFile h d => fst (write_file h d s)
  | OpOpenSink p a => fst (open_write_sink p a s)
  | OpSinkWrite k d => fst (write_chunk k d s)
  | OpInstall p r => fst (install_stream_reader p r s)
  | OpClose h => fst (close h s)
  | OpSymlink t p => fst (symlink t p s)
  | OpCreateDir p => fst (create_dir p s)
  | OpRemoveFile p => fst (remove_file p s)
  | OpRemoveDir p => fst (remove_dir p s)
  | OpSetMode p m => fst (set_mode p m s)
  end.

Inductive fs_reachable : Inner -> Prop :=
  | reach_new : fs_reachable new
  | reach_step s op : fs_reachable s -> fs_reachable (fs_exec op s).

Lemma fs_exec_inv op s : fs_inv s -> fs_inv (fs_exec op s).
Proof.
  intros Hs. destruct op; cbn [fs_exec];
    match goal with |- fs_inv (fst (?m s)) =>
      let P := fresh in
      assert (P : preserves fs_inv m) by auto with wasmsh; exact (P s Hs)
    end.
Qed.

Lemma reachable_inv s : fs_reachable s -> fs_inv s.
Proof. induction 1; [apply new_inv|by apply fs_exec_inv]. Qed.
End reach.

(** * Exactness of the cached byte total

    [total_bytes] caches the sum of all file sizes.  On stores that never had a
    virtual reader the cache is exact; with a virtual reader over a file that
    is written before the reader is consumed, the consuming [open] drops the
    file without crediting its bytes, and the cache stays too high for good. *)

Section exact.
Context `{Target} {R : Type} `{Read R}.
Abbreviation Inner := (MemoryFsInner R).
Abbreviation io := (comp (MemoryFsInner R) FsError).

Implicit Types s : Inner.

(** The cache equals what the files hold, and no virtual reader is pending. *)
Definition exact (s : Inner) : Prop :=
  fs_inv s /\ total_bytes s = file_bytes (nodes s) /\ virtual_readers s = ∅.

Lemma exact_new : exact new.
Proof. split; [apply new_inv|done]. Qed.

Lemma ensure_loop_exact parts cur s s' r :
  exact s -> ensure_parents_loop cur parts s = (s', r) -> exact s'.
Proof.
  intros (Hs & Ht & Hv) E. split.
  { pose proof (ensure_parents_loop_spec parts cur s Hs) as [? _]. by rewrite E in *. }
  clear Hs. revert cur s Ht Hv E. induction parts as [|p ps IH]; intros cur s Ht Hv; cbn.
  - run_io. by intros [= <- <-].
  - run_io. case_decide as Hk; [by apply IH|]. apply eq_None_not_Some in Hk.
    case_split; [by intros [= <- <-]|]. apply IH; cbn; [|done].
    rewrite file_bytes_insert_new by done. cbn. lia.
Qed.

Lemma symlink_loop_exact parts cur s s' r :
  exact s -> symlink_parents cur parts s = (s', r) -> exact s'.
Proof.
  intros (Hs & Ht & Hv) E. split.
  { pose proof (symlink_parents_spec parts cur s Hs) as [? _]. by rewrite E in *. }
  clear Hs. revert cur s Ht Hv E. induction parts as [|p ps IH]; intros cur s Ht Hv; cbn [symlink_parents].
  - run_io. by intros [= <- <-].
  - run_io. destruct (nodes s !! (cur ++ slash :: p)) as [[d| |t]|] eqn:Hk.
    + by intros [= <- <-].
    + by apply IH.
    + by intros [= <- <-].
    + unfold check_inode_room. run_io. case_split; [by intros [= <- <-]|].
      apply IH; cbn; [|done]. rewrite file_bytes_insert_new by done. cbn. lia.
Qed.

(** Creation of an entry without bytes at an absent path. *)
Lemma create_node_exact norm v s s' r :
  exact s -> normal norm -> nodes s !! norm = None -> node_bytes v = 0 ->
  (_ ← ensure_parents norm; _ ← check_inode_room;
    modify (fun s => set_nodes (<[norm := v]> (nodes s)) s) : io unit) s = (s', r) -> exact s'.
Proof.
  intros Hs Hn Hnone Hv E. split.
  { pose proof (create_node_inv norm v s (proj1 Hs) Hn Hnone Hv). by rewrite E in *. }
  revert E. run_io. unfold ensure_parents.
  destruct (ensure_parents_loop_spec (parent_parts norm) [] s (proj1 Hs)) as [_ Hg].
  destruct (ensure_parents_loop [] (parent_parts norm) s) as [s1 r1] eqn:E1.
  pose proof (ensure_loop_exact _ _ _ _ _ Hs E1) as (_ & Ht & Hvr).
  destruct r1; [|by intros [= <- <-]..].
  unfold check_inode_room. run_io. case_split; [by intros [= <- <-]|].
  intros [= <- <-]. cbn. split; [|done].
  rewrite file_bytes_insert_new; [lia|]. exact (grown_keeps_none norm s s1 Hn Hg Hnone).
Qed.

Lemma insert_handle_nodes src o s s' (r : res FsError FileHandle) :
  insert_handle src o s = (s', r) ->
  nodes s' = nodes s /\ total_bytes s' = total_bytes s /\ virtual_readers s' = virtual_readers s.
Proof. unfold insert_handle, alloc_handle. run_io. by case_split; intros [= <- <-]. Qed.

(** Crediting a file's bytes is exact: the total covers it. *)
Lemma sat_sub_file s p d :
  exact s -> nodes s !! p = Some (File d) ->
  sat_sub (total_bytes s) (len d) = total_bytes s - len d.
Proof.
  intros (_ & Ht & _) Hp. pose proof (file_bytes_lookup _ _ _ Hp) as Hb. cbn in Hb.
  unfold sat_sub. lia.
Qed.

Lemma open_exact path o s : exact s -> exact (fst (open path o s)).
Proof.
  intros Hs. split; [by apply open_inv, Hs|]. unfold open. run_io.
  destruct (resolve_normalized s (normalize_path path)) as [norm|e|w] eqn:Hr; [|by apply Hs..].
  apply resolve_normal in Hr.
  assert ((if read_only o then virtual_readers s !! norm else None) = None) as ->.
  { destruct Hs as (_ & _ & ->). by case_split. }
  destruct (open_node norm o s) as [s1 r1] eqn:E1.
  assert (Hs1 : total_bytes s1 = file_bytes (nodes s1) /\ virtual_readers s1 = ∅).
  { revert E1. unfold open_node. change ((get ≫= ?k) s) with (k s s). cbn beta.
    destruct (nodes s !! norm) as [[d| |t]|] eqn:Hn; [|by intros [= <- <-]; apply Hs..|].
    - repeat (case_split; [by intros [= <- <-]; apply Hs|]).
      case_split; intros [= <- <-]; [|by apply Hs]. cbn.
      rewrite (sat_sub_file s norm d Hs Hn), (file_bytes_insert_old _ _ _ _ Hn).
      destruct Hs as (_ & Ht & Hv). cbn. rewrite len_nil. split; [lia|done].
    - destruct (o_create o); [|by intros [= <- <-]; apply Hs].
      intros E1. by apply (create_node_exact norm (File []) s s1 r1 Hs Hr Hn eq_refl E1). }
  destruct r1; [|done..].
  destruct (insert_handle (PathSource norm) o s1) as [s2 r2] eqn:E2.
  apply insert_handle_nodes in E2 as (Hn2 & Ht2 & Hv2). cbn [fst]. by rewrite Hn2, Ht2, Hv2.
Qed.

Lemma read_source_same h s s1 r1 : read_source h s = (s1, r1) -> s1 = s.
Proof. unfold read_source. run_io. repeat case_split; congruence. Qed.

Lemma read_file_exact h s : exact s -> exact (fst (read_file h s)).
Proof.
  intros Hs. split; [by apply read_file_inv, Hs|]. unfold read_file. run_io.
  destruct (read_source h s) as [s1 r1] eqn:E.
  apply read_source_same in E as ->.
  destruct r1 as [[p|c]|e|w]; repeat case_split; by apply Hs.
Qed.

Lemma stream_file_exact h s : exact s -> exact (fst (stream_file h s)).
Proof.
  intros Hs. unfold stream_file. run_io. destruct (read_source h s) as [s1 r1] eqn:E.
  apply read_source_same in E as ->. destruct r1 as [[p|c]|e|w]; repeat case_split; done.
Qed.

Lemma stream_read_exact r n s : exact s -> exact (fst (stream_read r n s)).
Proof.
  intros Hs. split; [by apply stream_read_inv, Hs|].
  unfold stream_read. run_io. repeat case_split; by apply Hs.
Qed.

Lemma write_chunk_exact k d s : exact s -> exact (fst (write_chunk k d s)).
Proof.
  intros Hs. split; [by apply write_chunk_inv, Hs|]. unfold write_chunk. run_io.
  destruct (nodes s !! sink_path k) as [[c| |t]|] eqn:Hp; [|by apply Hs..].
  case_split; [by apply Hs|]. case_split; [by apply Hs|]. cbn. bool_to_prop.
  pose proof (file_bytes_lookup _ _ _ Hp) as Hc. cbn in Hc.
  pose proof (len_nonneg c). pose proof (len_nonneg d).
  assert (0 <= (if sink_append k then len c + len d else len d) <= MAX_FILE_SIZE)
    by (destruct (sink_append k); lia).
  destruct Hs as (Hs & Ht & Hv). rewrite projected_total_eq by done.
  rewrite (file_bytes_insert_old _ _ _ _ Hp). split; [|done]. cbn.
  destruct (sink_append k); rewrite ?len_app; lia.
Qed.

Lemma write_file_exact h d s : exact s -> exact (fst (write_file h d s)).
Proof.
  intros Hs. unfold write_file. run_io.
  destruct (handles s !! handle_id h) as [f|]; [|done]. case_split; [done|].
  destruct (source f) as [p|]; [|done].
  pose proof (write_chunk_exact {| sink_path := p; sink_append := o_append (opts f) |} d s Hs) as Hw.
  destruct (write_chunk _ d s) as [s1 [?|?|?]]; exact Hw.
Qed.

Lemma reset_file_exact norm s :
  total_bytes s = file_bytes (nodes s) -> total_bytes (reset_file norm s) = file_bytes (nodes (reset_file norm s)).
Proof.
  intros Ht. unfold reset_file. destruct (nodes s !! norm) as [[d| |t]|] eqn:Hn; cbn.
  4: by rewrite file_bytes_insert_new.
  all: rewrite (file_bytes_insert_old _ _ _ _ Hn); cbn; rewrite ?len_nil;
    pose proof (file_bytes_lookup _ _ _ Hn) as Hb; cbn in Hb; unfold sat_sub, len in *; cbn [length] in *; lia.
Qed.

Lemma open_write_sink_exact p a s : exact s -> exact (fst (open_write_sink p a s)).
Proof.
  intros Hs. split; [by apply open_write_sink_inv, Hs|]. unfold open_write_sink. run_io.
  destruct (resolve_normalized s (normalize_path p)) as [norm|e|w] eqn:Hr; [|by apply Hs..].
  apply resolve_normal in Hr.
  assert (Hvr : set_virtual_readers (delete norm (virtual_readers s)) s = s).
  { destruct Hs as (_ & _ & Hv). rewrite Hv, delete_empty, <- Hv. by destruct s. }
  rewrite Hvr. destruct (sink_node norm s) as [s1 r1] eqn:E1.
  assert (Hs1 : total_bytes s1 = file_bytes (nodes s1) /\ virtual_readers s1 = ∅).
  { revert E1. unfold sink_node. change ((get ≫= ?k) s) with (k s s). cbn beta.
    destruct (nodes s !! norm) as [[d| |t]|] eqn:Hn; [by intros [= <- <-]; apply Hs..|].
    intros E1. by apply (create_node_exact norm (File []) s s1 r1 Hs Hr Hn eq_refl E1). }
  destruct r1; [|done..]. destruct a; cbn [fst]; [done|]. destruct Hs1 as [Ht Hv].
  split; [by apply reset_file_exact|]. unfold reset_file. by repeat case_split.
Qed.

Lemma close_exact h s : exact s -> exact (fst (close h s)).
Proof. intros Hs. split; [by apply close_inv, Hs|apply Hs]. Qed.

Lemma symlink_exact t p s : exact s -> exact (fst (symlink t p s)).
Proof.
  intros Hs. split; [by apply symlink_inv, Hs|]. unfold symlink. run_io.
  case_decide as Hd; [by apply Hs|]. apply eq_None_not_Some in Hd.
  destruct (symlink_parents_spec (parent_parts (normalize_path p)) [] s (proj1 Hs)) as [_ Hg].
  destruct (symlink_parents [] (parent_parts (normalize_path p)) s) as [s1 r1] eqn:E1.
  pose proof (symlink_loop_exact _ _ _ _ _ Hs E1) as (_ & Ht & Hv).
  destruct r1; [|done..]. unfold check_inode_room. run_io. case_split; [done|]. cbn.
  rewrite file_bytes_insert_new; [done|].
  exact (grown_keeps_none _ s s1 (normal_normalize p) Hg Hd).
Qed.

Lemma create_dir_exact p s : exact s -> exact (fst (create_dir p s)).
Proof.
  intros Hs. unfold create_dir. change ((get ≫= ?k) s) with (k s s). cbn beta.
  case_decide as Hd; [done|]. apply eq_None_not_Some in Hd.
  destruct ((_ ← ensure_parents _; _) s) as [s' r] eqn:E.
  by apply (create_node_exact _ Dir _ _ _ Hs (normal_normalize p) Hd eq_refl E).
Qed.

Lemma remove_file_exact p s : exact s -> exact (fst (remove_file p s)).
Proof.
  intros Hs. split; [by apply remove_file_inv, Hs|]. unfold remove_file. run_io.
  assert (Hlink : forall q t, nodes s !! q = Some (Symlink t) ->
    total_bytes s = file_bytes (delete q (nodes s))).
  { intros q t Hq. rewrite (file_bytes_delete _ _ _ Hq). cbn. destruct Hs as (_ & ? & _). lia. }
  destruct (nodes s !! normalize_path p) as [[d| |t]|] eqn:Hn.
  3: { cbn. split; [by eapply Hlink|apply Hs]. }
  all: destruct (resolve_normalized s (normalize_path p)) as [q|e|w]; try apply Hs.
  all: destruct (nodes s !! q) as [[d'| |t']|] eqn:Hq; try apply Hs; cbn.
  all: rewrite (sat_sub_file s q d' Hs Hq), (file_bytes_delete _ _ _ Hq).
  all: destruct Hs as (_ & Ht & Hv); rewrite Hv, delete_empty; cbn; split; [lia|done].
Qed.

Lemma remove_dir_exact p s : exact s -> exact (fst (remove_dir p s)).
Proof.
  intros Hs. split; [by apply remove_dir_inv, Hs|]. unfold remove_dir. run_io.
  destruct (nodes s !! normalize_path p) as [[d| |t]|] eqn:Hn; try apply Hs.
  case_split; [apply Hs|]. cbn. rewrite (file_bytes_delete _ _ _ Hn). cbn.
  destruct Hs as (_ & ? & ?). split; [lia|done].
Qed.

Lemma set_mode_exact p m s : exact s -> exact (fst (set_mode p m s)).
Proof.
  intros Hs. split; [by apply set_mode_inv, Hs|]. unfold set_mode. run_io.
  case_decide; apply Hs.
Qed.

(** A trace of calls, and the calls that install no virtual reader. *)
Definition fs_run (ops : list fs_op) (s : Inner) : Inner := foldl (fun s op => fs_exec op s) s ops.

Definition no_install (op : fs_op (R := R)) : bool :=
  match op with OpInstall _ _ => false | _ => true end.

Lemma fs_exec_exact op s : no_install op = true -> exact s -> exact (fs_exec op s).
Proof.
  destruct op; cbn [no_install fs_exec]; intros Hi Hs; try done;
    eauto using open_exact, read_file_exact, stream_file_exact, stream_read_exact,
      write_file_exact, open_write_sink_exact, write_chunk_exact, close_exact,
      symlink_exact, create_dir_exact, remove_file_exact, remove_dir_exact, set_mode_exact.
Qed.

Lemma fs_run_exact ops s :
  Forall (fun op => no_install op = true) ops -> exact s -> exact (fs_run ops s).
Proof.
  unfold fs_run. intros Hf. revert s. induction Hf; intros s Hs; cbn; [done|].
  apply IHHf. by apply fs_exec_exact.
Qed.
End exact.
