(* ===== verification/MemFsSpec.v ===== *)
(** * What the in-memory filesystem promises

    The claims about crates/wasmsh-fs: path normal forms, quotas over every
    reachable store, exactness of the byte cache, symlink resolution against a
    relational specification, write/read round trips, streaming sinks,
    permission checks and directory listings. *)

From S2P Require Import Prelude Strings Fs MemFs MemFsInv MemFsSafe.

(** ** A concrete reader: the bytes still to be read. *)
#[export] Instance byte_reader : Read str := {
  read_to_end := fun r => ([], inl r);
  read_buf := fun r n => (drop n r, inl (take n r));
}.

(** ** Paths *)

(** [normalize_path] returns a canonical form: it is idempotent, and an
    absolute path becomes [/] followed by components none of which is empty,
    [.], [..] or contains a slash, so no [..] can climb above the root. *)
Theorem normalize_path_canonical p :
  normalize_path (normalize_path p) = normalize_path p /\
  (starts_with [slash] p = true ->
   exists parts, Forall clean parts /\ normalize_path p = path_of parts).
Proof.
  split; [apply normalize_path_idem_lemma|]. intros Hp.
  exists (norm_components p). split; [apply norm_components_clean|].
  unfold normalize_path. by rewrite Hp.
Qed.

(** Normalising is compositional: resolving a relative path against an
    absolute directory gives the same result whether or not the directory was
    normalised first. *)
Theorem normalize_path_compose dir p :
  normalize_path (normalize_path (slash :: dir) ++ slash :: p)
  = normalize_path ((slash :: dir) ++ slash :: p).
Proof.
  rewrite (normalize_path_abs dir). cbn [app]. rewrite !normalize_path_abs.
  rewrite !norm_components_app. do 3 f_equal.
  apply norm_components_join, norm_components_clean.
Qed.

Section spec.
Context `{Target} {R : Type} `{Read R}.
Abbreviation Inner := (MemoryFsInner R).
Abbreviation io := (comp (MemoryFsInner R) FsError).
Implicit Types s : Inner.

(** ** Quotas *)

(** C14: Sandbox quotas hold in every store any sequence of filesystem calls
    can reach: the bytes of all files stay within 256 MiB, a file within 64
    MiB, the entries within 100000, and the root stays a directory. *)
Theorem reachable_quota s :
  fs_reachable s ->
  file_bytes (nodes s) <= MAX_TOTAL_BYTES /\
  Z.of_nat (base.size (nodes s)) <= MAX_INODES /\
  (forall p d, nodes s !! p = Some (File d) -> len d <= MAX_FILE_SIZE) /\
  nodes s !! [slash] = Some Dir.
Proof.
  intros Hs%reachable_inv. pose proof (inv_bytes s Hs).
  split; [lia|]. split; [apply Hs|]. split; apply Hs.
Qed.

(** C15: Without virtual readers the cached byte total is exact after any
    sequence of calls, so quota checks never refuse a write that fits. *)
Theorem total_bytes_exact (ops : list (fs_op (R := R))) :
  Forall (fun op => no_install op = true) ops ->
  total_bytes (fs_run ops new) = file_bytes (nodes (fs_run ops new)).
Proof. intros Hops. by apply (fs_run_exact ops new Hops exact_new). Qed.

(** ** Symlinks *)

(** [link_path s cur n p]: from [cur], [n] symlink hops lead to [p], which is
    not a symlink. *)
Inductive link_path s : str -> nat -> str -> Prop :=
  | lp_end p : (forall t, nodes s !! p <> Some (Symlink t)) -> link_path s p 0 p
  | lp_hop cur t n p :
      nodes s !! cur = Some (Symlink t) -> link_path s (link_target cur t) n p ->
      link_path s cur (S n) p.

Lemma resolve_loop_spec k s cur p :
  resolve_loop k s cur = Ok p <-> exists n, (n < k)%nat /\ link_path s cur n p.
Proof.
  revert cur. induction k as [|k IH]; intros cur; cbn [resolve_loop].
  - split; [done|]. intros (n & ? & _). lia.
  - destruct (nodes s !! cur) as [[d| |t]|] eqn:E.
    3: { rewrite IH. split; intros (n & Hn & Hp).
         - exists (S n). split; [lia|]. by eapply lp_hop.
         - inversion Hp as [p' Hno|cur' t' n' p' Ht Hp']; subst; [by destruct (Hno t)|].
           rewrite E in Ht. injection Ht as <-. eexists; split; [|done]. lia. }
    all: split; [intros [= <-]; exists 0%nat; split; [lia|constructor; congruence]|].
    all: intros (n & Hn & Hp); inversion Hp; subst; [done|congruence].
Qed.

Lemma resolve_loop_total k s cur :
  (exists p, resolve_loop k s cur = Ok p) \/ resolve_loop k s cur = Err link_error.
Proof.
  revert cur. induction k as [|k IH]; intros cur; cbn [resolve_loop]; [by right|].
  destruct (nodes s !! cur) as [[d| |t]|]; eauto.
Qed.

(** Symlink resolution terminates on every store, cyclic links included:
    it answers with the end of the link chain exactly when fewer than 40
    hops lead there, and with the too-many-levels error otherwise. *)
Theorem resolve_normalized_spec s norm :
  (forall p, resolve_normalized s norm = Ok p <->
     exists n, (n < MAX_SYMLINK_DEPTH)%nat /\ link_path s norm n p) /\
  ((forall n p, (n < MAX_SYMLINK_DEPTH)%nat -> ~ link_path s norm n p) ->
   resolve_normalized s norm = Err link_error).
Proof.
  split; [intros p; apply resolve_loop_spec|]. intros Hno.
  destruct (resolve_loop_total MAX_SYMLINK_DEPTH s norm) as [[p Hp]|?]; [|done].
  apply resolve_loop_spec in Hp as (n & Hn & Hp). by destruct (Hno n p Hn).
Qed.

(** Resolution looks only at the symlinks of the store. *)
Lemma resolve_loop_ext k s s' cur :
  (forall q t, nodes s !! q = Some (Symlink t) <-> nodes s' !! q = Some (Symlink t)) ->
  resolve_loop k s cur = resolve_loop k s' cur.
Proof.
  intros Heq. revert cur. induction k as [|k IH]; intros cur; cbn [resolve_loop]; [done|].
  destruct (nodes s !! cur) as [[d| |t]|] eqn:E, (nodes s' !! cur) as [[d'| |t']|] eqn:E'; try done.
  all: try (apply Heq in E; congruence). all: try (apply Heq in E'; congruence).
Qed.

(** ** Writing *)

(** The store after an accepted chunk. *)
Lemma write_chunk_fits s k d old :
  fs_inv s -> nodes s !! sink_path k = Some (File old) ->
  let new : str := if sink_append k then old ++ d else d in
  len new <= MAX_FILE_SIZE -> total_bytes s - len old + len new <= MAX_TOTAL_BYTES ->
  write_chunk k d s =
    (set_total_bytes (total_bytes s - len old + len new)
       (set_nodes (<[sink_path k := File new]> (nodes s)) s),
     Ok {| sink_path := sink_path k; sink_append := true |}).
Proof.
  intros Hs Hp new Hf Ht. unfold write_chunk. run_io. cbn. rewrite Hp.
  pose proof (file_bytes_lookup _ _ _ Hp) as Hc. cbn in Hc. pose proof (len_nonneg new).
  assert ((if sink_append k then len old + len d else len d) = len new) as ->
    by (subst new; destruct (sink_append k); rewrite ?len_app; lia).
  rewrite (proj2 (Z.ltb_ge _ _)) by lia. rewrite projected_total_eq by (done || lia).
  rewrite (proj2 (Z.ltb_ge _ _)) by lia. done.
Qed.

(** A chunk is accepted exactly when the resulting file fits the per-file
    cap and the resulting store fits the total quota; then the file holds the
    old bytes (when appending) and the chunk, and every other entry is
    unchanged.  A refused chunk leaves the store untouched. *)
Theorem write_chunk_spec s p (app : bool) d old :
  fs_inv s -> nodes s !! p = Some (File old) ->
  let new : str := if app then old ++ d else d in
  let fits := len new <= MAX_FILE_SIZE /\ total_bytes s - len old + len new <= MAX_TOTAL_BYTES in
  (fits -> exists s', write_chunk {| sink_path := p; sink_append := app |} d s
              = (s', Ok {| sink_path := p; sink_append := true |}) /\
            nodes s' = <[p := File new]> (nodes s)) /\
  (~ fits -> exists e, write_chunk {| sink_path := p; sink_append := app |} d s = (s, Err e)).
Proof.
  intros Hs Hp new fits. unfold write_chunk. run_io. cbn. rewrite Hp.
  pose proof (file_bytes_lookup _ _ _ Hp) as Hc. cbn in Hc.
  pose proof (len_nonneg old). pose proof (len_nonneg d).
  assert (Hnew : len new = if app then len old + len d else len d)
    by (subst new; destruct app; rewrite ?len_app; lia).
  rewrite <- Hnew. destruct (Z.ltb_spec MAX_FILE_SIZE (len new)) as [Hbig|Hok].
  - split; [unfold fits; lia|]. eauto.
  - pose proof (len_nonneg new). rewrite projected_total_eq by (done || lia).
    destruct (Z.ltb_spec MAX_TOTAL_BYTES (total_bytes s - len old + len new)).
    + split; [unfold fits; lia|]. eauto.
    + split; [|unfold fits; tauto]. intros _. eexists. split; [done|]. done.
Qed.

(** The chunks a redirection writes through one sink. *)
Fixpoint sink_write_all (sink : MemoryWriteSink) (chunks : list str) : io MemoryWriteSink :=
  match chunks with
  | [] => mret sink
  | c :: cs => sink' ← write_chunk sink c; sink_write_all sink' cs
  end.

Lemma write_chunk_ok sink d s s' sink' :
  write_chunk sink d s = (s', Ok sink') ->
  exists old, nodes s !! sink_path sink = Some (File old) /\
    nodes s' = <[sink_path sink := File (if sink_append sink then old ++ d else d)]> (nodes s) /\
    sink' = {| sink_path := sink_path sink; sink_append := true |} /\
    handles s' = handles s /\ virtual_readers s' = virtual_readers s /\ modes s' = modes s.
Proof.
  unfold write_chunk. run_io. destruct (nodes s !! sink_path sink) as [[c| |t]|]; try done.
  case_split; [done|]. case_split; [done|]. intros [= <- <-]. eauto 10.
Qed.

Lemma sink_write_all_append p chunks s s' sink' old :
  sink_write_all {| sink_path := p; sink_append := true |} chunks s = (s', Ok sink') ->
  nodes s !! p = Some (File old) ->
  nodes s' !! p = Some (File (old ++ concat chunks)).
Proof.
  revert s old. induction chunks as [|c cs IH]; intros s old; cbn [sink_write_all].
  - run_io. intros [= <- <-] Hp. cbn. by rewrite app_nil_r.
  - run_io. destruct (write_chunk _ c s) as [s1 [k|e|w]] eqn:E; [|done..].
    apply write_chunk_ok in E as (old' & Hold & Hn & -> & _). intros Hall Hp.
    cbn in *. rewrite Hp in Hold. injection Hold as <-.
    rewrite (IH s1 (old ++ c) Hall); [by rewrite <- app_assoc|]. rewrite Hn. apply lookup_insert_eq.
Qed.

Lemma open_write_sink_ok path app s s1 sink :
  open_write_sink path app s = (s1, Ok sink) ->
  sink_append sink = app /\ resolve_normalized s (normalize_path path) = Ok (sink_path sink) /\
  exists base, nodes s1 !! sink_path sink = Some (File base) /\
    (app = false -> base = []) /\
    (forall old, app = true -> nodes s !! sink_path sink = Some (File old) -> base = old).
Proof.
  unfold open_write_sink. run_io.
  destruct (resolve_normalized s (normalize_path path)) as [norm|e|w] eqn:Hr; [|done..].
  destruct (sink_node norm _) as [s2 [[]|e|w]] eqn:E; [|done..].
  assert (Hn : exists base, nodes s2 !! norm = Some (File base) /\
    (forall old, nodes s !! norm = Some (File old) -> base = old)).
  { revert E. unfold sink_node. change ((get ≫= ?k) ?x) with (k x x). cbn beta. cbn [nodes set_virtual_readers].
    destruct (nodes s !! norm) as [[d| |t]|] eqn:Hn; [intros [= <-]; cbn; eauto|done..|].
    - exists d. split; [done|]. congruence.
    - run_io. destruct (ensure_parents norm _) as [s3 [?|?|?]]; [|done..].
      unfold check_inode_room. run_io. case_split; [done|]. intros [= <-].
      exists []. cbn. rewrite lookup_insert_eq. split; [done|congruence]. }
  destruct Hn as (base & Hb & Hold). destruct app; intros [= <- <-]; cbn.
  - split; [done|]. split; [done|]. exists base. naive_solver.
  - split; [done|]. split; [done|]. exists []. rewrite lookup_insert_eq. naive_solver.
Qed.

(** C29: A redirection that opens a sink and writes chunks leaves in the file
    the concatenation of the chunks, after the previous contents when the
    sink appends: the streaming writer refines one whole-file write. *)
Theorem sink_stream_contents path app chunks s s1 s2 sink sink' :
  open_write_sink path app s = (s1, Ok sink) ->
  sink_write_all sink chunks s1 = (s2, Ok sink') ->
  exists base, nodes s2 !! sink_path sink = Some (File (base ++ concat chunks)) /\
    (app = false -> base = []) /\
    (forall old, app = true -> nodes s !! sink_path sink = Some (File old) -> base = old).
Proof.
  intros (Happ & _ & base & Hb & Hf & Ht)%open_write_sink_ok Hw.
  destruct chunks as [|c cs]; [|revert Hw; cbn [sink_write_all]; run_io].
  - cbn in Hw. injection Hw as <- <-. exists base. cbn. by rewrite app_nil_r.
  - destruct (write_chunk sink c s1) as [s3 [k|e|w]] eqn:E; [|done..]. intros Hw.
    apply write_chunk_ok in E as (old & Hold & Hn & -> & _).
    rewrite Hb in Hold. injection Hold as <-.
    exists base. split; [|done]. erewrite sink_write_all_append; [|exact Hw|rewrite Hn; apply lookup_insert_eq].
    rewrite Happ. destruct app; cbn; [by rewrite <- app_assoc|]. by rewrite Hf.
Qed.
(** ** Opening, reading back *)

Definition same_links s s' : Prop :=
  forall q t, nodes s !! q = Some (Symlink t) <-> nodes s' !! q = Some (Symlink t).

Lemma same_links_refl s : same_links s s.
Proof. done. Qed.

(** What a successful node check of [open] leaves behind. *)
Lemma open_node_ok norm o s s' u :
  fs_inv s -> normal norm -> open_node norm o s = (s', Ok u) ->
  (exists c, nodes s' !! norm = Some (File c)) /\ same_links s s' /\
  modes s' = modes s /\ virtual_readers s' = virtual_readers s /\ handles s' = handles s.
Proof.
  intros Hs Hn. unfold open_node. change ((get ≫= ?k) s) with (k s s). cbn beta.
  destruct (nodes s !! norm) as [[d| |t]|] eqn:Hnode; [|done..|].
  - do 2 (case_split; [done|]). case_split; intros [= <- <-]; [|eauto 10 using same_links_refl].
    split; [exists []; apply lookup_insert_eq|]. split; [|done].
    intros q t. cbn. rewrite lookup_insert. case_decide; [subst; split; congruence|done].
  - destruct (o_create o); [|done]. unfold ensure_parents.
    destruct (ensure_parents_loop_spec (parent_parts norm) [] s Hs) as [_ Hg]. run_io.
    destruct (ensure_parents_loop [] (parent_parts norm) s) as [s1 [a|e|w]]; [|done..].
    unfold check_inode_room. run_io. case_split; [done|]. intros [= <- <-]. cbn in *.
    pose proof (grown_keeps_none norm s s1 Hn Hg Hnode) as Hnone.
    destruct Hg as [Hf Hk Hnew]. split; [exists []; apply lookup_insert_eq|].
    split; [|rewrite Hf; done]. intros q t. cbn. rewrite lookup_insert. case_decide as Hq.
    + subst. split; congruence.
    + split; [apply Hk|]. intros Hq'. destruct (nodes s !! q) as [v|] eqn:E.
      * apply Hk in E. congruence.
      * by destruct (Hnew q _ Hq' E).
Qed.

Lemma insert_handle_ok src o s s' h :
  insert_handle src o s = (s', Ok h) ->
  s' = set_handles (<[next_handle s := {| source := src; opts := o |}]> (handles s))
         (set_next_handle (next_handle s + 1) s) /\ handle_id h = next_handle s.
Proof.
  unfold insert_handle, alloc_handle. run_io. case_split; [|done]. by intros [= <- <-].
Qed.

Lemma open_ok_path path o s s1 h :
  fs_inv s -> read_only o = false -> open path o s = (s1, Ok h) ->
  exists norm c, resolve_normalized s (normalize_path path) = Ok norm /\
    nodes s1 !! norm = Some (File c) /\
    handles s1 !! handle_id h = Some {| source := PathSource norm; opts := o |} /\
    same_links s s1 /\ modes s1 = modes s /\ virtual_readers s1 = virtual_readers s.
Proof.
  intros Hs Hro. unfold open. rewrite Hro. run_io.
  destruct (resolve_normalized s (normalize_path path)) as [norm|e|w] eqn:Hr; [|done..].
  destruct (open_node norm o s) as [s2 [u|e|w]] eqn:E; [|done..].
  apply open_node_ok in E as ([c Hc] & Hl & Hm & Hv & Hh); [|done|by eapply resolve_normal].
  intros (-> & Hid)%insert_handle_ok. exists norm, c.
  split; [done|]. split; [done|]. split; [cbn; rewrite Hid; apply lookup_insert_eq|]. done.
Qed.

Lemma resolve_same_links s s' norm :
  same_links s s' -> resolve_normalized s norm = resolve_normalized s' norm.
Proof. apply resolve_loop_ext. Qed.

(** A handle returned by [open] is fresh: no live handle is reused, and
    the new one is registered with the requested options. *)
Theorem open_fresh_handle path o s s1 h :
  fs_inv s -> open path o s = (s1, Ok h) ->
  handles s !! handle_id h = None /\
  exists src, handles s1 = <[handle_id h := {| source := src; opts := o |}]> (handles s).
Proof.
  intros Hs. unfold open. run_io.
  destruct (resolve_normalized s (normalize_path path)) as [norm|e|w] eqn:Hr; [|done..].
  assert (Hfresh : handles s !! next_handle s = None).
  { destruct (handles s !! next_handle s) as [f|] eqn:E; [|done].
    apply (inv_handles s Hs) in E. lia. }
  destruct (if read_only o then _ else None) as [c|].
  - intros (-> & ->)%insert_handle_ok. cbn. eauto.
  - destruct (open_node norm o s) as [s2 [u|e|w]] eqn:E; [|done..].
    assert (Hnext : next_handle s2 = next_handle s).
    { revert E. unfold open_node. change ((get ≫= ?k) s) with (k s s). cbn beta.
      destruct (nodes s !! norm) as [[d| |t]|]; [|done..|].
      - repeat case_split; by intros [= <- <-].
      - destruct (o_create o); [|done]. unfold ensure_parents.
        destruct (ensure_parents_loop_spec (parent_parts norm) [] s Hs) as [_ [Hf _ _]]. run_io.
        destruct (ensure_parents_loop [] (parent_parts norm) s) as [s3 [a|e|w]]; [|done..].
        unfold check_inode_room. run_io. case_split; [done|]. intros [= <- <-]. cbn in *.
        by rewrite Hf. }
    apply open_node_ok in E as (_ & _ & _ & _ & Hh); [|done|by eapply resolve_normal].
    intros (-> & ->)%insert_handle_ok. cbn. rewrite Hnext, Hh. eauto.
Qed.

(** C28: Write/read round trip: bytes written through a truncating handle are
    the bytes a later read-only open of the same path reads, symlinks on the
    path included, when the file's owner-read bit is set and no virtual
    reader is pending. *)
Theorem write_read_roundtrip path data s s1 s2 h :
  fs_inv s -> virtual_readers s = ∅ ->
  open path OpenOptions_write s = (s1, Ok h) ->
  write_file h data s1 = (s2, Ok tt) ->
  (forall norm, resolve_normalized s (normalize_path path) = Ok norm ->
     Z.land (mode_of s norm false) (octal 4 0 0) <> 0) ->
  next_handle s2 + 1 <= U64_MAX ->
  exists s3 h', open path OpenOptions_read s2 = (s3, Ok h') /\ read_file h' s3 = (s3, Ok data).
Proof.
  intros Hs Hv (norm & c & Hr & Hc & Hh & Hl & Hm & Hv1)%open_ok_path Hw Hmode Hnext; [|done|done].
  revert Hw. unfold write_file. run_io. rewrite Hh. cbn.
  destruct (write_chunk _ data s1) as [s2' [k|e|w]] eqn:E; [|done..]. intros [= <-].
  apply write_chunk_ok in E as (old & Hold & Hn & _ & Hh2 & Hv2 & Hm2). cbn in Hn, Hold.
  assert (Hl2 : same_links s s2').
  { intros q t. rewrite (Hl q t), Hn, lookup_insert. case_decide; [|done].
    subst. split; congruence. }
  unfold open. run_io. rewrite <- (resolve_same_links s s2') by done. rewrite Hr.
  cbn [read_only OpenOptions_read o_read o_write o_append o_create o_truncate negb andb].
  rewrite Hv2, Hv1, Hv, lookup_empty. unfold open_node. run_io.
  rewrite Hn, lookup_insert_eq. cbn [o_read o_write o_append o_truncate OpenOptions_read orb andb].
  assert (Hmo : mode_of s2' norm false = mode_of s norm false) by (unfold mode_of; by rewrite Hm2, Hm).
  rewrite Hmo. specialize (Hmode norm Hr). apply Z.eqb_neq in Hmode. rewrite Hmode.
  unfold insert_handle, alloc_handle. run_io. apply Z.leb_le in Hnext. rewrite Hnext. cbn.
  eexists _, _. split; [done|]. unfold read_file, read_source. run_io. cbn.
  rewrite lookup_insert_eq. cbn. by rewrite Hn, lookup_insert_eq.
Qed.

(** Permission checks of [open] on an existing regular file: it is denied
    exactly when a requested access lacks its owner bit, and a denied open
    changes nothing. *)
Theorem open_permission path o s norm d :
  resolve_normalized s (normalize_path path) = Ok norm ->
  nodes s !! norm = Some (File d) ->
  (read_only o = true -> virtual_readers s !! norm = None) ->
  let denied :=
    (o_read o = true /\ Z.land (mode_of s norm false) (octal 4 0 0) = 0) \/
    ((o_write o || o_append o || o_truncate o) = true /\
     Z.land (mode_of s norm false) (octal 2 0 0) = 0) in
  (denied -> open path o s = (s, Err (PermissionDenied norm))) /\
  (~ denied -> forall p, snd (open path o s) <> Err (PermissionDenied p)).
Proof.
  intros Hr Hd Hv denied. unfold open. run_io. rewrite Hr.
  assert ((if read_only o then virtual_readers s !! norm else None) = None) as ->
    by (destruct (read_only o); auto).
  unfold open_node. run_io. rewrite Hd.
  destruct (o_read o && _) eqn:E1; [|destruct ((o_write o || _ || _) && _) eqn:E2].
  - bool_to_prop. split; [done|]. intros Hnd. destruct Hnd. by left.
  - apply andb_true_iff in E2 as [? E2]. bool_to_prop. split; [done|]. intros Hnd. destruct Hnd. by right.
  - split; [|intros _ p; unfold insert_handle, alloc_handle; run_io; repeat case_split; done].
    intros [[Ho Hz]|[Ho Hz]]; rewrite Ho, Hz in *; done.
Qed.
End spec.
