(* ===== verification/MemFsDir.v ===== *)
(** * Directory listings of the in-memory filesystem

    [read_dir] scans a hash map, whose iteration order is unspecified, and
    sorts.  The listing is a function of the store alone: exactly the direct
    children, each once, in byte order. *)

From S2P Require Import Prelude Strings Fs MemFs MemFsInv MemFsSafe MemFsSpec.

#[export] Instance name_le_total : Total name_le.
Proof. intros a b. apply str_le_total. Qed.
#[export] Instance name_le_trans : Transitive name_le.
Proof. intros a b c. apply str_le_trans. Qed.

(** Sorting by name is deterministic when names are distinct. *)
Lemma sorted_by_name_unique (l k : list DirEntry) :
  StronglySorted name_le l -> StronglySorted name_le k -> l ≡ₚ k ->
  NoDup (map name l) -> l = k.
Proof.
  intros Hl. revert k. induction Hl as [|x l Hl IH Hx]; intros k Hk Hp Hnd.
  { by apply Permutation_nil_l in Hp as ->. }
  destruct Hk as [|y k Hk Hy]; [by apply Permutation_nil_r in Hp|].
  assert (x = y) as <-.
  { assert (Hyl : y ∈ x :: l) by (rewrite Hp; set_solver).
    assert (Hxk : x ∈ y :: k) by (rewrite <- Hp; set_solver).
    apply elem_of_cons in Hyl as [->|Hyl]; [done|]. apply elem_of_cons in Hxk as [->|Hxk]; [done|].
    rewrite Forall_forall in Hx, Hy.
    assert (Hn : name x = name y) by (apply (anti_symm str_le); [by apply Hx|by apply Hy]).
    cbn in Hnd. apply NoDup_cons in Hnd as [Hnd _]. destruct Hnd. rewrite Hn.
    apply list_elem_of_fmap. eauto. }
  f_equal. cbn in Hnd. apply NoDup_cons in Hnd as [_ Hnd]. apply IH; [done| |done].
  by apply Permutation_cons_inv in Hp.
Qed.

Section dir.
Context `{Target} {R : Type} `{Read R}.
Abbreviation Inner := (MemoryFsInner R).
Implicit Types s : Inner.

Lemma dir_entry_key s prefix k v e :
  dir_entry s prefix (k, v) = Some e ->
  k = prefix ++ name e /\ name e <> [] /\ slash ∉ name e.
Proof.
  unfold dir_entry. cbn [fst snd]. destruct (strip_prefix prefix k) as [rest|] eqn:E; cbn; [|done].
  case_decide as Hr; [done|]. apply strip_prefix_Some in E.
  destruct v; intros [= <-]; cbn; naive_solver.
Qed.

Lemma dir_entry_some s prefix n v :
  n <> [] -> slash ∉ n -> exists e, dir_entry s prefix (prefix ++ n, v) = Some e /\ name e = n.
Proof.
  intros H1 H2. unfold dir_entry. cbn [fst snd].
  rewrite (proj2 (strip_prefix_Some prefix (prefix ++ n) n)) by done. cbn.
  rewrite decide_False by tauto. destruct v; eauto.
Qed.

Lemma omap_entries_nodup s prefix (items : list (str * FsNode)) :
  NoDup items.*1 -> NoDup (map name (omap (dir_entry s prefix) items)).
Proof.
  induction items as [|[k v] items IH]; cbn; [constructor|]. intros [Hk Hnd]%NoDup_cons.
  destruct (dir_entry s prefix (k, v)) as [e|] eqn:E; [|by apply IH]. cbn.
  apply NoDup_cons. split; [|by apply IH].
  intros (e' & Hn & (kv & Hkv & He')%list_elem_of_omap)%list_elem_of_fmap. destruct kv as [k' v'].
  apply dir_entry_key in E as (-> & _). apply dir_entry_key in He' as (-> & _).
  destruct Hk. rewrite Hn. apply list_elem_of_fmap. by exists (prefix ++ name e', v').
Qed.

Lemma scan_dir_perm s prefix items : scan_dir s prefix items ≡ₚ omap (dir_entry s prefix) items.
Proof. apply merge_sort_Permutation. Qed.

Lemma scan_dir_sorted s prefix items : StronglySorted name_le (scan_dir s prefix items).
Proof. apply (StronglySorted_merge_sort name_le). Qed.

Lemma scan_dir_nodup s prefix items :
  NoDup items.*1 -> NoDup (map name (scan_dir s prefix items)).
Proof.
  intros Hnd. rewrite (Permutation_map name (scan_dir_perm s prefix items)).
  by apply omap_entries_nodup.
Qed.

(** The listing does not depend on the order in which the hash map of
    nodes is iterated: any two enumerations of the same entries give the
    same vector. *)
Theorem read_dir_order_independent s prefix items items' :
  NoDup items.*1 -> items ≡ₚ items' ->
  scan_dir s prefix items = scan_dir s prefix items'.
Proof.
  intros Hnd Hp. apply sorted_by_name_unique; [apply scan_dir_sorted..| |by apply scan_dir_nodup].
  rewrite !scan_dir_perm. by rewrite Hp.
Qed.

Lemma elem_of_scan_dir s prefix n :
  n ∈ map name (scan_dir s prefix (map_to_list (nodes s))) <->
  n <> [] /\ slash ∉ n /\ is_Some (nodes s !! (prefix ++ n)).
Proof.
  rewrite list_elem_of_fmap. setoid_rewrite scan_dir_perm. setoid_rewrite list_elem_of_omap.
  split.
  - intros (e & -> & [k v] & Hkv & He). apply dir_entry_key in He as (-> & ? & ?).
    apply elem_of_map_to_list in Hkv. eauto.
  - intros (H1 & H2 & v & Hv). destruct (dir_entry_some s prefix n v H1 H2) as (e & He & <-).
    exists e. split; [done|]. exists (prefix ++ name e, v). split; [|done].
    by apply elem_of_map_to_list.
Qed.

Definition str_lt (a b : str) : Prop := str_le a b /\ a <> b.

Lemma sorted_names_strict (l : list DirEntry) :
  StronglySorted name_le l -> NoDup (map name l) -> StronglySorted str_lt (map name l).
Proof.
  induction 1 as [|x l Hl IH Hx]; cbn; [constructor|]. intros [Hn Hnd]%NoDup_cons.
  constructor; [by apply IH|]. apply Forall_forall. intros n (y & -> & Hy)%list_elem_of_fmap.
  rewrite Forall_forall in Hx. split; [by apply Hx|]. intros E. destruct Hn.
  rewrite E. apply list_elem_of_fmap. eauto.
Qed.

(** C40: [read_dir] on a directory lists exactly its direct children, strictly
    sorted by byte order and therefore without duplicates. *)
Theorem read_dir_children s path es :
  read_dir s path = Ok es ->
  exists norm, resolve_normalized s (normalize_path path) = Ok norm /\
    nodes s !! norm = Some Dir /\
    (forall n, n ∈ map name es <->
       n <> [] /\ slash ∉ n /\ is_Some (nodes s !! (dir_prefix norm ++ n))) /\
    StronglySorted str_lt (map name es).
Proof.
  unfold read_dir. run_io.
  destruct (resolve_normalized s (normalize_path path)) as [norm|e|w]; [|done..].
  destruct (nodes s !! norm) as [[d| |t]|] eqn:Hn; [done| |done|done]. intros [= <-].
  exists norm. split; [done|]. split; [done|]. split; [intros n; apply elem_of_scan_dir|].
  apply sorted_names_strict; [apply scan_dir_sorted|]. apply scan_dir_nodup.
  apply NoDup_fst_map_to_list.
Qed.
End dir.
