(* ===== verification/MemFsWitness.v ===== *)
(** * Concrete stores of the in-memory filesystem

    Instances of the claims of [MemFsSpec] and [MemFsDir] on small stores, and
    the traces behind three observations on the code: the byte cache leaks when
    a written virtual reader is consumed, write sinks skip the permission
    check, and a regular file may become a parent. *)

From S2P Require Import Prelude Strings Fs MemFs MemFsInv MemFsSafe MemFsSpec MemFsDir.

#[local] Existing Instance wasm32.

Abbreviation op := (fs_op (R := list Ascii.ascii)).
Abbreviation store := (MemoryFsInner (list Ascii.ascii)).

Definition handle (n : Z) : FileHandle := {| handle_id := n |}.

(** A store with a directory, a file in it, and a symlink to the directory's
    file. *)
Definition demo_ops : list op :=
  [ OpCreateDir #"/d"; OpOpen #"/d/f" OpenOptions_write; OpWriteFile (handle 1) #"abc";
    OpSymlink #"d/f" #"/l" ].

Definition demo : store := fs_run demo_ops new.

Lemma fs_run_reachable (ops : list op) (s : store) :
  fs_reachable s -> fs_reachable (fs_run ops s).
Proof.
  unfold fs_run. revert s. induction ops as [|o ops IH]; intros s Hs; cbn; [done|].
  apply IH. by constructor.
Qed.

Lemma demo_reachable : fs_reachable demo.
Proof. apply fs_run_reachable. constructor. Qed.

Lemma demo_inv : fs_inv demo.
Proof. apply reachable_inv, demo_reachable. Qed.

Lemma reachable_quota_witness :
  fs_reachable demo /\ file_bytes (nodes demo) <= MAX_TOTAL_BYTES /\
  nodes demo !! [slash] = Some Dir.
Proof.
  split; [exact demo_reachable|].
  destruct (reachable_quota demo demo_reachable) as (Hb & _ & _ & Hr). exact (conj Hb Hr).
Defined.

Lemma total_bytes_exact_witness :
  total_bytes (fs_run demo_ops new : store) = file_bytes (nodes (fs_run demo_ops new : store)).
Proof.
  apply (total_bytes_exact demo_ops). repeat constructor.
Defined.

Lemma write_chunk_spec_witness :
  exists s', write_chunk {| sink_path := #"/d/f"; sink_append := true |} #"de" demo
    = (s', Ok {| sink_path := #"/d/f"; sink_append := true |}) /\
    nodes s' = <[ #"/d/f" := File #"abcde" ]> (nodes demo).
Proof.
  apply (write_chunk_spec demo #"/d/f" true #"de" #"abc" demo_inv).
  - vm_compute. reflexivity.
  - split; vm_compute; discriminate.
Defined.

Lemma sink_stream_contents_witness :
  exists base, nodes (fst (sink_write_all {| sink_path := #"/d/f"; sink_append := true |}
        [ #"de"; #"f" ] (fst (open_write_sink #"/l" true demo)))) !! #"/d/f"
      = Some (File (base ++ concat [ #"de"; #"f" ])) /\ base = #"abc".
Proof.
  destruct (sink_stream_contents #"/l" true [ #"de"; #"f" ] demo
    (fst (open_write_sink #"/l" true demo))
    (fst (sink_write_all {| sink_path := #"/d/f"; sink_append := true |}
        [ #"de"; #"f" ] (fst (open_write_sink #"/l" true demo))))
    {| sink_path := #"/d/f"; sink_append := true |}
    {| sink_path := #"/d/f"; sink_append := true |}) as (base & Hb & _ & Hold).
  - vm_compute. reflexivity.
  - vm_compute. reflexivity.
  - exists base. split; [exact Hb|]. apply Hold; [reflexivity|]. vm_compute. reflexivity.
Defined.

Lemma open_fresh_handle_witness :
  handles demo !! 2 = None /\
  exists src, handles (fst (open #"/l" OpenOptions_read demo))
    = <[ 2 := {| source := src; opts := OpenOptions_read |} ]> (handles demo).
Proof.
  apply (open_fresh_handle #"/l" OpenOptions_read demo
    (fst (open #"/l" OpenOptions_read demo)) (handle 2) demo_inv).
  vm_compute. reflexivity.
Defined.

Lemma write_read_roundtrip_witness :
  exists s3 h', open #"/l" OpenOptions_read
      (fst (write_file (handle 2) #"xyz" (fst (open #"/l" OpenOptions_write demo)))) = (s3, Ok h') /\
    read_file h' s3 = (s3, Ok #"xyz").
Proof.
  apply (write_read_roundtrip #"/l" #"xyz" demo (fst (open #"/l" OpenOptions_write demo))
    (fst (write_file (handle 2) #"xyz" (fst (open #"/l" OpenOptions_write demo)))) (handle 2) demo_inv).
  - vm_compute. reflexivity.
  - vm_compute. reflexivity.
  - vm_compute. reflexivity.
  - intros norm Hr. vm_compute in Hr. injection Hr as <-. vm_compute. discriminate.
  - vm_compute. discriminate.
Defined.

(** [chmod 444 /d/f] *)
Definition demo_readonly : store := fs_exec (OpSetMode #"/d/f" (octal 4 4 4)) demo.

Lemma open_permission_witness :
  open #"/l" OpenOptions_write demo_readonly = (demo_readonly, Err (PermissionDenied #"/d/f")).
Proof.
  apply (open_permission #"/l" OpenOptions_write demo_readonly #"/d/f" #"abc").
  - vm_compute. reflexivity.
  - vm_compute. reflexivity.
  - vm_compute. discriminate.
  - right. split; vm_compute; reflexivity.
Defined.

Lemma read_dir_children_witness :
  read_dir demo #"/" = Ok
    [ {| name := #"d"; entry_is_dir := true; entry_is_symlink := false |};
      {| name := #"l"; entry_is_dir := false; entry_is_symlink := true |} ] /\
  exists norm, resolve_normalized demo (normalize_path #"/") = Ok norm /\ nodes demo !! norm = Some Dir.
Proof.
  split; [vm_compute; reflexivity|].
  destruct (read_dir_children demo #"/"
    [ {| name := #"d"; entry_is_dir := true; entry_is_symlink := false |};
      {| name := #"l"; entry_is_dir := false; entry_is_symlink := true |} ]) as (norm & H1 & H2 & _).
  - vm_compute. reflexivity.
  - exists norm. exact (conj H1 H2).
Defined.

Lemma read_dir_order_witness :
  scan_dir demo [slash] (map_to_list (nodes demo))
  = scan_dir demo [slash] (reverse (map_to_list (nodes demo))).
Proof.
  apply read_dir_order_independent.
  - apply NoDup_fst_map_to_list.
  - symmetry. apply reverse_Permutation.
Defined.

(** ** Observations *)

(** A virtual reader over [/p], a write to [/p], then the read that consumes
    the reader. *)
Definition leak_ops : list op :=
  [ OpInstall #"/p" #"stream"; OpOpen #"/p" OpenOptions_write;
    OpWriteFile (handle 1) #"abc"; OpOpen #"/p" OpenOptions_read ].

(** Consuming a virtual reader drops its file node without crediting the
    bytes written to it: after this trace the store holds no file at all and
    still charges three bytes against the quota. *)
Theorem total_bytes_leak :
  let s : store := fs_run leak_ops new in
  file_bytes (nodes s) = 0 /\ total_bytes s = 3 /\ nodes s = {[ [slash] := Dir ]}.
Proof. vm_compute. repeat split. Qed.

(** The permission bits [open] enforces are not enforced by
    [open_write_sink]: on a file with mode 444 a truncating [open] is denied,
    while opening a sink succeeds and empties the file. *)
Theorem sink_ignores_mode :
  snd (open #"/d/f" OpenOptions_write demo_readonly) = Err (PermissionDenied #"/d/f") /\
  res_is_ok (snd (open_write_sink #"/d/f" false demo_readonly)) = true /\
  nodes demo_readonly !! #"/d/f" = Some (File #"abc") /\
  nodes (fst (open_write_sink #"/d/f" false demo_readonly)) !! #"/d/f" = Some (File []).
Proof. vm_compute. repeat split. Qed.

(** [ensure_parents] accepts an existing regular file as a parent: a file
    can be created below another file. *)
Theorem file_below_file :
  let s := fst (open #"/d/f/g" OpenOptions_write demo) in
  nodes s !! #"/d/f" = Some (File #"abc") /\ nodes s !! #"/d/f/g" = Some (File []).
Proof. vm_compute. repeat split. Qed.
