(* ===== verification/IndexMap.v ===== *)
(** * Insertion-ordered maps

    The [indexmap::IndexMap] operations the shell state uses: [get], [insert]
    (in place when the key exists, at the end otherwise), [shift_remove] (keeps
    the order of the rest), iteration in insertion order.  [im_map] forgets the
    order; the lemmas relate each operation to the finite map it denotes. *)

From S2P Require Import Prelude.

Section indexmap.
Context {K V : Type} `{EqDecision K}.
Implicit Types m : list (K * V).

Fixpoint im_get (k : K) m : option V :=
  match m with
  | [] => None
  | (k', v) :: m' => if decide (k = k') then Some v else im_get k m'
  end.

Fixpoint im_insert (k : K) (v : V) m : list (K * V) :=
  match m with
  | [] => [(k, v)]
  | (k', v') :: m' => if decide (k = k') then (k', v) :: m' else (k', v') :: im_insert k v m'
  end.

Fixpoint im_shift_remove (k : K) m : list (K * V) :=
  match m with
  | [] => []
  | (k', v) :: m' => if decide (k = k') then m' else (k', v) :: im_shift_remove k m'
  end.

Definition im_keys m : list K := map fst m.
Definition im_values m : list V := map snd m.

(** [get_mut] followed by an assignment through the reference. *)
Definition im_update (f : V -> V) (k : K) m : list (K * V) :=
  match im_get k m with Some v => im_insert k (f v) m | None => m end.

(** Keys are distinct: the invariant of the data structure. *)
Definition im_wf m : Prop := NoDup (im_keys m).

Lemma im_get_insert k k' v m :
  im_get k' (im_insert k v m) = if decide (k = k') then Some v else im_get k' m.
Proof.
  induction m as [|[q w] m IH]; cbn.
  - repeat case_decide; congruence.
  - destruct (decide (k = q)) as [->|]; cbn; [repeat case_decide; congruence|].
    rewrite IH. repeat case_decide; congruence.
Qed.

Lemma im_get_insert_eq k v m : im_get k (im_insert k v m) = Some v.
Proof. rewrite im_get_insert. by rewrite decide_True. Qed.

Lemma im_get_insert_ne k k' v m : k <> k' -> im_get k' (im_insert k v m) = im_get k' m.
Proof. intros. rewrite im_get_insert. by rewrite decide_False. Qed.

Lemma im_get_None k m : im_get k m = None <-> k ∉ im_keys m.
Proof.
  induction m as [|[q w] m IH]; cbn; [set_solver|]. rewrite not_elem_of_cons.
  case_decide; [naive_solver|]. rewrite IH. naive_solver.
Qed.

Lemma im_insert_new k v m : k ∉ im_keys m -> im_insert k v m = m ++ [(k, v)].
Proof.
  induction m as [|[k' v'] m IH]; cbn; [done|]. intros Hk. rewrite decide_False by set_solver. rewrite IH by set_solver. done.
Qed.

Lemma im_get_is_Some k m : is_Some (im_get k m) <-> k ∈ im_keys m.
Proof.
  destruct (im_get k m) as [v|] eqn:E.
  - split; [|eauto]. intros _. destruct (decide (k ∈ im_keys m)) as [|Hn]; [done|].
    apply im_get_None in Hn. congruence.
  - apply im_get_None in E. split; [by intros [? ?]|done].
Qed.

(** The order: an existing key keeps its place, a new one goes last. *)
Lemma im_keys_insert k v m :
  im_keys (im_insert k v m) = if decide (k ∈ im_keys m) then im_keys m else im_keys m ++ [k].
Proof.
  unfold im_keys. induction m as [|[q w] m IH]; cbn; [by rewrite decide_False by set_solver|].
  destruct (decide (k = q)) as [->|Hkq]; cbn.
  - by rewrite decide_True by set_solver.
  - rewrite IH. case_decide as H1; case_decide as H2; try done; set_solver.
Qed.

Lemma im_wf_insert k v m : im_wf m -> im_wf (im_insert k v m).
Proof.
  unfold im_wf. intros Hm. rewrite im_keys_insert. case_decide; [done|].
  apply NoDup_app. split; [done|]. split; [set_solver|]. apply NoDup_singleton.
Qed.

Lemma im_keys_shift_remove k m : sublist (im_keys (im_shift_remove k m)) (im_keys m).
Proof.
  induction m as [|[q w] m IH]; cbn; [constructor|].
  case_decide; cbn; by constructor.
Qed.

Lemma im_wf_shift_remove k m : im_wf m -> im_wf (im_shift_remove k m).
Proof. unfold im_wf. intros. eapply sublist_NoDup; [done|]. apply im_keys_shift_remove. Qed.

Lemma im_get_shift_remove k k' m :
  im_wf m ->
  im_get k' (im_shift_remove k m) = if decide (k = k') then None else im_get k' m.
Proof.
  unfold im_wf. induction m as [|[q w] m IH]; cbn; [by case_decide|].
  intros [Hq Hnd]%NoDup_cons. destruct (decide (k = q)) as [->|Hkq].
  - destruct (decide (q = k')) as [->|]; [by apply im_get_None|].
    by rewrite decide_False.
  - cbn. rewrite IH by done. repeat case_decide; congruence.
Qed.

Lemma im_length_insert k v m :
  length (im_insert k v m) = ((if decide (k ∈ im_keys m) then 0 else 1) + length m)%nat.
Proof.
  assert (Hl : forall m', length m' = length (im_keys m')) by (intros; unfold im_keys; by rewrite length_map).
  rewrite Hl, im_keys_insert, (Hl m). case_decide; [done|]. rewrite length_app. cbn. lia.
Qed.

Lemma im_get_elem k v m : im_get k m = Some v -> (k, v) ∈ m.
Proof.
  induction m as [|[q w] m IH]; cbn; [done|]. case_decide; [intros [= <-]; subst|intros ?%IH]; set_solver.
Qed.

Lemma im_elem_get k v m : im_wf m -> (k, v) ∈ m -> im_get k m = Some v.
Proof.
  unfold im_wf. induction m as [|[q w] m IH]; cbn; [set_solver|]. intros [Hq Hnd]%NoDup_cons.
  intros [[= <- <-]|Hin]%elem_of_cons; [by rewrite decide_True|].
  rewrite decide_False; [by apply IH|]. intros ->. destruct Hq.
  apply list_elem_of_fmap. by exists (q, v).
Qed.
End indexmap.

#[export] Hint Resolve im_wf_insert im_wf_shift_remove : wasmsh.

(** ** Refinement: the finite map an [IndexMap] denotes *)

Section refine.
Context {K V : Type} `{Countable K}.
Implicit Types m : list (K * V).

Fixpoint im_map m : gmap K V :=
  match m with [] => ∅ | (k, v) :: m' => <[k := v]> (im_map m') end.

Lemma im_map_get k m : im_map m !! k = im_get k m.
Proof.
  induction m as [|[q w] m IH]; cbn; [done|]. rewrite lookup_insert, IH.
  repeat case_decide; congruence.
Qed.

(** [insert] and [shift_remove] implement map insertion and deletion. *)
Lemma im_map_insert k v m : im_map (im_insert k v m) = <[k := v]> (im_map m).
Proof.
  apply map_eq. intros k'. rewrite lookup_insert, !im_map_get, im_get_insert. done.
Qed.

Lemma im_map_shift_remove k m : im_wf m -> im_map (im_shift_remove k m) = delete k (im_map m).
Proof.
  intros Hm. apply map_eq. intros k'.
  rewrite lookup_delete, !im_map_get, im_get_shift_remove by done. done.
Qed.
End refine.
