(* ===== verification/State.v ===== *)
(** * Shell state (crates/wasmsh-state/src/lib.rs)

    Variables with attributes in a stack of insertion-ordered scopes, special
    and positional parameters, the [$RANDOM] generator, the error side channels
    and the array operations.  [scopes] is the Rust vector: its last element is
    the innermost scope.  [set_var] follows namerefs recursively without a
    bound, so the model carries fuel and [None] stands for a recursion that
    does not return; usize arithmetic on array indices wraps as in a release
    build. *)

From S2P Require Import Prelude Strings IndexMap.

Definition NOUNSET_ERROR_VAR : str := #"_NOUNSET_ERROR".
Definition ARITH_ERROR_VAR : str := #"_ARITH_ERROR".
Definition SHELL_ERROR_VAR : str := #"_SHELL_ERROR".
Definition SHELL_ERROR_FATAL_PREFIX : byte := Ascii.ascii_of_N 1.

Inductive VarValue :=
  | Scalar (s : str)
  | IndexedArray (m : list (Z * str))
  | AssocArray (m : list (str * str)).

Definition as_scalar (v : VarValue) : str :=
  match v with
  | Scalar s => s
  | IndexedArray m => join #" " (im_values m)
  | AssocArray m => join #" " (im_values m)
  end.

Record ShellVar := {
  value : VarValue;
  exported : bool;
  readonly : bool;
  integer : bool;
  nameref : bool;
}.

Definition scalar (v : str) : ShellVar :=
  {| value := Scalar v; exported := false; readonly := false; integer := false; nameref := false |}.

Definition set_value (v : VarValue) (x : ShellVar) : ShellVar :=
  {| value := v; exported := exported x; readonly := readonly x;
     integer := integer x; nameref := nameref x |}.

Abbreviation scope := (list (list Ascii.ascii * ShellVar)) (only parsing).

Record ShellEnv := { scopes : list (list (list Ascii.ascii * ShellVar)) }.

Module Env.

Definition new : ShellEnv := {| scopes := [[]] |}.

(** Innermost scope outward. *)
Definition get (name : str) (e : ShellEnv) : option ShellVar :=
  find_map (im_get name) (reverse (scopes e)).

(** [get_mut] and an assignment through the reference: the innermost scope that
    has the name is changed, in place. *)
Fixpoint update_rev (f : ShellVar -> ShellVar) (name : str) (rs : list scope) : list scope :=
  match rs with
  | [] => []
  | s :: rs' => match im_get name s with
                | Some _ => im_update f name s :: rs'
                | None => s :: update_rev f name rs'
                end
  end.

Definition get_mut (name : str) (f : ShellVar -> ShellVar) (e : ShellEnv) : ShellEnv :=
  {| scopes := reverse (update_rev f name (reverse (scopes e))) |}.

(** Apply to the innermost scope; nothing on an empty stack. *)
Definition on_last (f : scope -> scope) (ss : list scope) : list scope :=
  match last ss with
  | Some s => removelast ss ++ [f s]
  | None => ss
  end.

Definition set (name : str) (var : ShellVar) (e : ShellEnv) : ShellEnv :=
  {| scopes := on_last (im_insert name var) (scopes e) |}.

Definition push_scope (e : ShellEnv) : ShellEnv := {| scopes := scopes e ++ [[]] |}.

Definition pop_scope (e : ShellEnv) : ShellEnv * option scope :=
  if (1 <? length (scopes e))%nat
  then ({| scopes := removelast (scopes e) |}, last (scopes e))
  else (e, None).

Definition remove (name : str) (e : ShellEnv) : ShellEnv * option ShellVar :=
  match last (scopes e) with
  | Some s => ({| scopes := on_last (im_shift_remove name) (scopes e) |}, im_get name s)
  | None => (e, None)
  end.

(** One scope of [exported_vars], outermost first. *)
Definition export_scope (acc : list (str * str)) (s : scope) : list (str * str) :=
  foldl (fun acc nv => if exported nv.2 then im_insert nv.1 (as_scalar (value nv.2)) acc else acc) acc s.

Definition exported_vars (e : ShellEnv) : list (str * str) := foldl export_scope [] (scopes e).

End Env.

Record ShellState := {
  env : ShellEnv;
  positional : list str;
  last_status : Z;
  cwd : str;
  lineno : Z;
  random_seed : Z;
  seconds_elapsed_ms : option Z;
  func_stack : list str;
  source_stack : list str;
  script_name : option str;
  shell_pid : Z;
  last_background_pid : option Z;
  last_argument : str;
  dir_stack : list str;
  umask : Z;
}.

Definition set_env (e : ShellEnv) (st : ShellState) : ShellState :=
  {| env := e; positional := positional st; last_status := last_status st; cwd := cwd st;
     lineno := lineno st; random_seed := random_seed st;
     seconds_elapsed_ms := seconds_elapsed_ms st; func_stack := func_stack st;
     source_stack := source_stack st; script_name := script_name st; shell_pid := shell_pid st;
     last_background_pid := last_background_pid st; last_argument := last_argument st;
     dir_stack := dir_stack st; umask := umask st |}.

Definition set_random_seed (x : Z) (st : ShellState) : ShellState :=
  {| env := env st; positional := positional st; last_status := last_status st; cwd := cwd st;
     lineno := lineno st; random_seed := x;
     seconds_elapsed_ms := seconds_elapsed_ms st; func_stack := func_stack st;
     source_stack := source_stack st; script_name := script_name st; shell_pid := shell_pid st;
     last_background_pid := last_background_pid st; last_argument := last_argument st;
     dir_stack := dir_stack st; umask := umask st |}.

Definition set_last_status (x : Z) (st : ShellState) : ShellState :=
  {| env := env st; positional := positional st; last_status := x; cwd := cwd st;
     lineno := lineno st; random_seed := random_seed st;
     seconds_elapsed_ms := seconds_elapsed_ms st; func_stack := func_stack st;
     source_stack := source_stack st; script_name := script_name st; shell_pid := shell_pid st;
     last_background_pid := last_background_pid st; last_argument := last_argument st;
     dir_stack := dir_stack st; umask := umask st |}.

Definition set_monotonic_elapsed_ms (x : Z) (st : ShellState) : ShellState :=
  {| env := env st; positional := positional st; last_status := last_status st; cwd := cwd st;
     lineno := lineno st; random_seed := random_seed st;
     seconds_elapsed_ms := Some x; func_stack := func_stack st;
     source_stack := source_stack st; script_name := script_name st; shell_pid := shell_pid st;
     last_background_pid := last_background_pid st; last_argument := last_argument st;
     dir_stack := dir_stack st; umask := umask st |}.

Definition set_last_argument (x : str) (st : ShellState) : ShellState :=
  {| env := env st; positional := positional st; last_status := last_status st; cwd := cwd st;
     lineno := lineno st; random_seed := random_seed st;
     seconds_elapsed_ms := seconds_elapsed_ms st; func_stack := func_stack st;
     source_stack := source_stack st; script_name := script_name st; shell_pid := shell_pid st;
     last_background_pid := last_background_pid st; last_argument := x;
     dir_stack := dir_stack st; umask := umask st |}.

Definition set_last_background_pid (x : option Z) (st : ShellState) : ShellState :=
  {| env := env st; positional := positional st; last_status := last_status st; cwd := cwd st;
     lineno := lineno st; random_seed := random_seed st;
     seconds_elapsed_ms := seconds_elapsed_ms st; func_stack := func_stack st;
     source_stack := source_stack st; script_name := script_name st; shell_pid := shell_pid st;
     last_background_pid := x; last_argument := last_argument st;
     dir_stack := dir_stack st; umask := umask st |}.

(** [ShellState::new]; the process id of a native build is an argument, on
    wasm32 it is 1. *)
Definition new_state `{Target} (pid : Z) : ShellState :=
  {| env := Env.new; positional := []; last_status := 0; cwd := #"/"; lineno := 0;
     random_seed := 12345; seconds_elapsed_ms := None; func_stack := []; source_stack := [];
     script_name := None; shell_pid := if is_wasm32 then 1 else pid;
     last_background_pid := None; last_argument := []; dir_stack := []; umask := octal 0 2 2 |}.

(** ** Reading *)

(** Shifts of a [u32] drop the bits shifted out. *)
Definition u32_shl (x k : Z) : Z := Z.land (Z.shiftl x k) U32_MAX.

Definition xorshift32 (x : Z) : Z :=
  let x := Z.lxor x (u32_shl x 13) in
  let x := Z.lxor x (Z.shiftr x 17) in
  Z.lxor x (u32_shl x 5).

Definition next_random (st : ShellState) : ShellState * Z :=
  let x := xorshift32 (random_seed st) in
  (set_random_seed x st, x mod 32768).

Definition stack_last_or_default (stack : list str) : str := default [] (last stack).

Definition positional_param_index `{Target} (name : str) : option nat :=
  n ← parse_usize name;
  if 1 <=? n then Some (Z.to_nat (n - 1)) else None.

Definition nameref_target (var : ShellVar) (name : str) : option str :=
  if negb (nameref var) then None
  else let target := as_scalar (value var) in
       if decide (target <> [] /\ target <> name) then Some target else None.

Definition get_env_var (st : ShellState) (name : str) : option str :=
  var ← Env.get name (env st);
  match nameref_target var name with
  | Some target => (fun v => as_scalar (value v)) <$> Env.get target (env st)
  | None => Some (as_scalar (value var))
  end.

Definition get_named_or_positional_var `{Target} (st : ShellState) (name : str) : option str :=
  match positional_param_index name with
  | Some index => positional st !! index
  | None => get_env_var st name
  end.

Definition option_flag_table : list (str * byte) :=
  [ (#"SHOPT_a", "a"%char); (#"SHOPT_C", "C"%char); (#"SHOPT_E", "E"%char);
    (#"SHOPT_e", "e"%char); (#"SHOPT_f", "f"%char); (#"SHOPT_n", "n"%char);
    (#"SHOPT_p", "p"%char); (#"SHOPT_T", "T"%char); (#"SHOPT_u", "u"%char);
    (#"SHOPT_v", "v"%char); (#"SHOPT_x", "x"%char) ].

Definition option_flags (st : ShellState) : str :=
  omap (fun nf => if decide (get_env_var st nf.1 = Some #"1") then Some nf.2 else None)
    option_flag_table.

(** [clock] is the whole seconds of [start_time.elapsed()] on a native build. *)
Definition seconds_value `{Target} (clock : Z) (st : ShellState) : str :=
  match seconds_elapsed_ms st with
  | Some ms => Z_to_string (ms / 1000)
  | None => if is_wasm32 then #"0" else Z_to_string clock
  end.

(** [get_var]; reading [RANDOM] advances the generator through its [Cell]. *)
Definition get_var `{Target} (clock : Z) (st : ShellState) (name : str) : ShellState * option str :=
  if decide (name = #"?") then (st, Some (Z_to_string (last_status st)))
  else if decide (name = #"$$") then (st, Some (Z_to_string (shell_pid st)))
  else if decide (name = #"!") then
    (st, Some (match last_background_pid st with Some pid => Z_to_string pid | None => [] end))
  else if decide (name = #"#") then (st, Some (Z_to_string (len (positional st))))
  else if decide (name = #"-") then (st, Some (option_flags st))
  else if decide (name = #"0") then (st, Some (default #"wasmsh" (script_name st)))
  else if decide (name = #"_") then (st, Some (last_argument st))
  else if decide (name = #"@" \/ name = #"*") then (st, Some (join #" " (positional st)))
  else if decide (name = #"RANDOM") then
    let '(st', r) := next_random st in (st', Some (Z_to_string r))
  else if decide (name = #"LINENO") then (st, Some (Z_to_string (lineno st)))
  else if decide (name = #"SECONDS") then (st, Some (seconds_value clock st))
  else if decide (name = #"FUNCNAME") then (st, Some (stack_last_or_default (func_stack st)))
  else if decide (name = #"BASH_SOURCE") then (st, Some (stack_last_or_default (source_stack st)))
  else (st, get_named_or_positional_var st name).

(** ** Writing *)

(** [SHOPT_a] is the scalar ["1"]. *)
Definition allexport (st : ShellState) : bool :=
  match Env.get #"SHOPT_a" (env st) with
  | Some v => match value v with
              | Scalar s => bool_decide (s = #"1")
              | _ => false
              end
  | None => false
  end.

(** The attributes [set_var] reads from the visible variable. *)
Definition attrs (st : ShellState) (name : str) : bool * bool * bool * bool :=
  match Env.get name (env st) with
  | Some v => (exported v, readonly v, integer v, nameref v)
  | None => (false, false, false, false)
  end.

(** [set_var] after the nameref was followed: the write itself. *)
Definition assign_scalar (st : ShellState) (name v : str) : ShellState :=
  let '(exp, ro, int, nref) := attrs st name in
  if ro then st
  else
    let exp' := if negb exp && negb (starts_with #"SHOPT_" name)
                   && negb (starts_with #"_" name) && allexport st
                then true else exp in
    set_env (Env.set name {| value := Scalar v; exported := exp'; readonly := ro;
                             integer := int; nameref := nref |} (env st)) st.

(** The variable a nameref redirects a write to, if it does. *)
Definition nameref_hop (st : ShellState) (name : str) : option str :=
  var ← Env.get name (env st); nameref_target var name.

Fixpoint set_var_fuel (fuel : nat) (st : ShellState) (name v : str) : option ShellState :=
  match fuel with
  | O => None
  | S f => match nameref_hop st name with
           | Some target => set_var_fuel f st target v
           | None => Some (assign_scalar st name v)
           end
  end.

(** One more call than there are variables; [StateProps] shows that this
    suffices whenever the recursion returns at all. *)
Definition set_var (st : ShellState) (name v : str) : option ShellState :=
  set_var_fuel (S (length (concat (scopes (env st))))) st name v.

Definition set_var_checked (st : ShellState) (name v : str) : option (ShellState * (unit + str)) :=
  match Env.get name (env st) with
  | Some var => if readonly var then Some (st, inr (name ++ #": readonly variable"))
                else (fun st' => (st', inl tt)) <$> set_var st name v
  | None => (fun st' => (st', inl tt)) <$> set_var st name v
  end.

Definition set_readonly (st : ShellState) (name v : str) : ShellState :=
  let '(exp, _, int, nref) := attrs st name in
  set_env (Env.set name {| value := Scalar v; exported := exp; readonly := true;
                           integer := int; nameref := nref |} (env st)) st.

Definition is_var_readonly (st : ShellState) (name : str) : bool :=
  match Env.get name (env st) with Some v => readonly v | None => false end.

Definition unset_var (st : ShellState) (name : str) : ShellState * (unit + str) :=
  if is_var_readonly st name then (st, inr (name ++ #": readonly variable"))
  else (set_env (fst (Env.remove name (env st))) st, inl tt).

(** ** Error side channels *)

Definition set_nounset_error (st : ShellState) (name : str) : ShellState :=
  set_env (Env.set NOUNSET_ERROR_VAR (scalar name) (env st)) st.

(** The common body of the three [take_*] functions: the pending message, when
    there is a non-empty one, and the state without the innermost sentinel. *)
Definition take_sentinel (var : str) (st : ShellState) : ShellState * option str :=
  match Env.get var (env st) with
  | None => (st, None)
  | Some v =>
      let message := as_scalar (value v) in
      if decide (message = []) then (st, None)
      else (set_env (fst (Env.remove var (env st))) st, Some message)
  end.

Definition take_nounset_error (st : ShellState) : ShellState * option str :=
  take_sentinel NOUNSET_ERROR_VAR st.

Definition set_arith_error (st : ShellState) (message : str) : ShellState :=
  set_env (Env.set ARITH_ERROR_VAR (scalar message) (env st)) st.

Definition take_arith_error (st : ShellState) : ShellState * option str :=
  take_sentinel ARITH_ERROR_VAR st.

Definition set_shell_error_inner (st : ShellState) (message : str) (fatal : bool) : ShellState :=
  let encoded := if fatal then SHELL_ERROR_FATAL_PREFIX :: message else message in
  set_env (Env.set SHELL_ERROR_VAR (scalar encoded) (env st)) st.

Definition set_shell_error (st : ShellState) (message : str) : ShellState :=
  set_shell_error_inner st message false.

Definition set_fatal_shell_error (st : ShellState) (message : str) : ShellState :=
  set_shell_error_inner st message true.

Definition take_shell_error (st : ShellState) : ShellState * option (bool * str) :=
  match take_sentinel SHELL_ERROR_VAR st with
  | (st', None) => (st', None)
  | (st', Some message) =>
      (st', Some (match strip_prefix [SHELL_ERROR_FATAL_PREFIX] message with
                  | Some rest => (true, rest)
                  | None => (false, message)
                  end))
  end.

(** ** Names by prefix *)

Definition var_names_with_prefix (st : ShellState) (prefix : str) : list str :=
  let seen := foldl (fun seen s =>
      foldl (fun seen name =>
        if starts_with prefix name && negb (bool_decide (name ∈ im_keys seen))
        then im_insert name tt seen else seen) seen (im_keys s))
    [] (reverse (scopes (env st))) in
  merge_sort str_le (im_keys seen).

(** ** Arrays *)

Section arrays.
Context `{Target}.

Definition get_array_element (st : ShellState) (name index : str) : option str :=
  var ← Env.get name (env st);
  match value var with
  | Scalar s => if decide (index = #"0") then Some s else None
  | IndexedArray m => idx ← parse_usize index; im_get idx m
  | AssocArray m => im_get index m
  end.

(** The map with one element set, when the index parses. *)
Definition insert_at (index v : str) (m : list (Z * str)) : list (Z * str) :=
  match parse_usize index with Some idx => im_insert idx v m | None => m end.

Definition set_array_element (st : ShellState) (name index v : str) : ShellState :=
  let '(exp, ro, _, _) := attrs st name in
  if ro then st
  else match Env.get name (env st) with
       | Some _ =>
           set_env (Env.get_mut name (fun var =>
             set_value (match value var with
                        | IndexedArray m => IndexedArray (insert_at index v m)
                        | AssocArray m => AssocArray (im_insert index v m)
                        | Scalar _ => IndexedArray (insert_at index v [])
                        end) var) (env st)) st
       | None =>
           set_env (Env.set name {| value := IndexedArray (insert_at index v []);
                                    exported := exp; readonly := ro;
                                    integer := false; nameref := false |} (env st)) st
       end.

Definition get_array_keys (st : ShellState) (name : str) : list str :=
  match Env.get name (env st) with
  | None => []
  | Some var => match value var with
                | Scalar s => if decide (s = []) then [] else [ #"0" ]
                | IndexedArray m => map Z_to_string (im_keys m)
                | AssocArray m => im_keys m
                end
  end.

Definition get_array_values (st : ShellState) (name : str) : list str :=
  match Env.get name (env st) with
  | None => []
  | Some var => match value var with
                | Scalar s => if decide (s = []) then [] else [s]
                | IndexedArray m => im_values m
                | AssocArray m => im_values m
                end
  end.

Definition get_array_length (st : ShellState) (name : str) : Z :=
  match Env.get name (env st) with
  | None => 0
  | Some var => match value var with
                | Scalar s => if decide (s = []) then 0 else 1
                | IndexedArray m => len m
                | AssocArray m => len m
                end
  end.

(** [map.keys().max().map_or(0, |k| k + 1)] with the wrapping [+] of a release
    build. *)
Definition next_array_index (m : list (Z * str)) : Z :=
  match im_keys m with
  | [] => 0
  | k :: ks => wrap_add usize_max (foldr Z.max k ks) 1
  end.

Fixpoint append_from (next : Z) (i : nat) (values : list str) (m : list (Z * str)) : list (Z * str) :=
  match values with
  | [] => m
  | v :: vs => append_from next (S i) vs (im_insert (wrap_add usize_max next (Z.of_nat i)) v m)
  end.

Definition append_to_indexed_array (m : list (Z * str)) (values : list str) : list (Z * str) :=
  append_from (next_array_index m) 0 values m.

Definition scalar_to_indexed_array (s : str) (values : list str) : list (Z * str) :=
  append_to_indexed_array (if decide (s = []) then [] else [(0, s)]) values.

Definition values_to_indexed_array (values : list str) : list (Z * str) :=
  append_to_indexed_array [] values.

Definition append_array (st : ShellState) (name : str) (values : list str) : ShellState :=
  if is_var_readonly st name then st
  else match Env.get name (env st) with
       | Some _ =>
           set_env (Env.get_mut name (fun var =>
             match value var with
             | IndexedArray m => set_value (IndexedArray (append_to_indexed_array m values)) var
             | AssocArray _ => var
             | Scalar s => set_value (IndexedArray (scalar_to_indexed_array s values)) var
             end) (env st)) st
       | None =>
           set_env (Env.set name {| value := IndexedArray (values_to_indexed_array values);
                                    exported := false; readonly := false;
                                    integer := false; nameref := false |} (env st)) st
       end.

Definition unset_array_element (st : ShellState) (name index : str) : ShellState :=
  if is_var_readonly st name then st
  else match Env.get name (env st) with
       | Some _ =>
           set_env (Env.get_mut name (fun var =>
             match value var with
             | IndexedArray m =>
                 match parse_usize index with
                 | Some idx => set_value (IndexedArray (im_shift_remove idx m)) var
                 | None => var
                 end
             | AssocArray m => set_value (AssocArray (im_shift_remove index m)) var
             | Scalar _ => if decide (index = #"0") then set_value (Scalar []) var else var
             end) (env st)) st
       | None => st
       end.
End arrays.

(** The common body of [init_indexed_array] and [init_assoc_array]. *)
Definition init_array (v : VarValue) (st : ShellState) (name : str) : ShellState :=
  let '(exp, ro, _, _) := attrs st name in
  if ro then st
  else set_env (Env.set name {| value := v; exported := exp; readonly := ro;
                                integer := false; nameref := false |} (env st)) st.

Definition init_indexed_array (st : ShellState) (name : str) : ShellState :=
  init_array (IndexedArray []) st name.
Definition init_assoc_array (st : ShellState) (name : str) : ShellState :=
  init_array (AssocArray []) st name.
