(* ===== verification/StateProps.v ===== *)
(** * Properties of the shell state

    Lookups after each primitive of the scope stack, the invariant of the
    environment, what [set_var] does along a chain of namerefs and when it
    returns, read-only protection over arbitrary call sequences, the error side
    channels and the array operations. *)

From S2P Require Import Prelude Strings IndexMap State.

#[local] Arguments reverse : simpl never.

(** ** The scope stack *)

Definition env_wf (e : ShellEnv) : Prop := scopes e <> [] /\ Forall im_wf (scopes e).

Lemma reverse_on_last f ss :
  reverse (Env.on_last f ss) = match reverse ss with [] => [] | s :: rs => f s :: rs end.
Proof.
  unfold Env.on_last. induction ss as [|s ss _] using rev_ind; [done|].
  by rewrite last_snoc, removelast_last, !reverse_snoc.
Qed.

Lemma on_last_app f ss s : Env.on_last f (ss ++ [s]) = ss ++ [f s].
Proof. unfold Env.on_last. by rewrite last_snoc, removelast_last. Qed.

(** A non-empty stack, split at its innermost scope. *)
Lemma scopes_snoc e : scopes e <> [] -> exists ss s, scopes e = ss ++ [s].
Proof. destruct (scopes e) as [|s ss _] using rev_ind; [done|eauto]. Qed.

Lemma get_set k n v e :
  scopes e <> [] ->
  Env.get k (Env.set n v e) = if decide (n = k) then Some v else Env.get k e.
Proof.
  intros (ss & s & Hs)%scopes_snoc. unfold Env.get, Env.set; cbn.
  rewrite reverse_on_last, Hs, reverse_snoc; cbn. rewrite im_get_insert. by case_decide.
Qed.

Lemma get_set_eq n v e : scopes e <> [] -> Env.get n (Env.set n v e) = Some v.
Proof. intros. rewrite get_set by done. by rewrite decide_True. Qed.

Lemma get_set_ne k n v e : scopes e <> [] -> n <> k -> Env.get k (Env.set n v e) = Env.get k e.
Proof. intros. rewrite get_set by done. by rewrite decide_False. Qed.

Lemma im_get_update {K V} `{EqDecision K} (f : V -> V) (k k' : K) m :
  im_get k' (im_update f k m) = if decide (k = k') then f <$> im_get k m else im_get k' m.
Proof.
  unfold im_update. destruct (im_get k m) eqn:E; cbn.
  - by rewrite im_get_insert.
  - case_decide; [by subst|done].
Qed.

Lemma find_update_rev f k n rs :
  find_map (im_get k) (Env.update_rev f n rs) =
    if decide (n = k) then f <$> find_map (im_get n) rs else find_map (im_get k) rs.
Proof.
  induction rs as [|s rs IH]; cbn; [by case_decide|].
  destruct (im_get n s) eqn:E; cbn.
  - rewrite im_get_update, E. by case_decide.
  - rewrite IH. case_decide; [subst; by rewrite E|done].
Qed.

Lemma get_get_mut k n f e :
  Env.get k (Env.get_mut n f e) = if decide (n = k) then f <$> Env.get n e else Env.get k e.
Proof. unfold Env.get, Env.get_mut; cbn. rewrite reverse_involutive. apply find_update_rev. Qed.

Lemma get_push k e : Env.get k (Env.push_scope e) = Env.get k e.
Proof. unfold Env.get, Env.push_scope; cbn. by rewrite reverse_snoc. Qed.

Lemma remove_snoc n e ss s :
  scopes e = ss ++ [s] ->
  Env.remove n e = ({| scopes := ss ++ [im_shift_remove n s] |}, im_get n s).
Proof. intros Hs. unfold Env.remove. by rewrite Hs, last_snoc, on_last_app. Qed.

Lemma get_remove_ne k n e :
  env_wf e -> n <> k -> Env.get k (fst (Env.remove n e)) = Env.get k e.
Proof.
  intros [(ss & s & Hs)%scopes_snoc Hwf] Hne. rewrite (remove_snoc n e ss s) by done.
  unfold Env.get; cbn. rewrite Hs, !reverse_snoc; cbn.
  rewrite Hs, Forall_app, Forall_singleton in Hwf.
  rewrite im_get_shift_remove by tauto. by rewrite decide_False.
Qed.

(** After a removal the name is looked up in the enclosing scopes. *)
Lemma get_remove_eq n e ss s :
  env_wf e -> scopes e = ss ++ [s] ->
  Env.get n (fst (Env.remove n e)) = Env.get n {| scopes := ss |}.
Proof.
  intros [_ Hwf] Hs. rewrite (remove_snoc n e ss s) by done.
  unfold Env.get; cbn. rewrite reverse_snoc; cbn.
  rewrite Hs, Forall_app, Forall_singleton in Hwf.
  rewrite im_get_shift_remove by tauto. by rewrite decide_True.
Qed.

(** Push, any change confined to the innermost scope, pop: the identity. *)
Lemma pop_push_snoc e s :
  scopes e <> [] -> Env.pop_scope {| scopes := scopes e ++ [s] |} = (e, Some s).
Proof.
  intros Hne. unfold Env.pop_scope; cbn [scopes].
  rewrite length_app, removelast_last, last_snoc.
  assert (length (scopes e) <> 0%nat) by (by rewrite length_zero_iff_nil).
  case_match eqn:Hl; [by destruct e|]. apply Nat.ltb_ge in Hl. cbn in Hl. lia.
Qed.

(** ** The environment invariant is preserved *)

Lemma on_last_wf (f : list (str * ShellVar) -> list (str * ShellVar)) ss :
  (forall s, im_wf s -> im_wf (f s)) -> ss <> [] -> Forall im_wf ss ->
  Env.on_last f ss <> [] /\ Forall im_wf (Env.on_last f ss).
Proof.
  intros Hf Hne. destruct ss as [|s ss _] using rev_ind; [done|].
  rewrite on_last_app, !Forall_app, !Forall_singleton. intros [? ?].
  split; [by destruct ss|auto].
Qed.

Lemma env_wf_set n v e : env_wf e -> env_wf (Env.set n v e).
Proof. intros []. apply on_last_wf; eauto with wasmsh. Qed.

Lemma env_wf_remove n e : env_wf e -> env_wf (fst (Env.remove n e)).
Proof.
  intros Hwf. pose proof Hwf as [(ss & s & Hs)%scopes_snoc _].
  rewrite (remove_snoc n e ss s) by done. destruct Hwf as [_ Hwf].
  rewrite Hs, Forall_app, Forall_singleton in Hwf. split; cbn; [by destruct ss|].
  rewrite Forall_app, Forall_singleton. destruct Hwf. eauto with wasmsh.
Qed.

Lemma im_wf_update {K V} `{EqDecision K} (f : V -> V) (k : K) m : im_wf m -> im_wf (im_update f k m).
Proof. unfold im_update. case_match; eauto with wasmsh. Qed.

Lemma update_rev_wf f n rs : Forall im_wf rs -> Forall im_wf (Env.update_rev f n rs).
Proof.
  induction 1 as [|s rs Hs Hrs IH]; cbn; [done|].
  case_match; constructor; eauto using im_wf_update.
Qed.

Lemma update_rev_length f n rs : length (Env.update_rev f n rs) = length rs.
Proof. induction rs as [|s rs IH]; cbn; [done|]. case_match; cbn; congruence. Qed.

Lemma env_wf_get_mut n f e : env_wf e -> env_wf (Env.get_mut n f e).
Proof.
  intros [Hne Hwf]. split; cbn.
  - rewrite <- length_zero_iff_nil, length_reverse, update_rev_length, length_reverse.
    by rewrite length_zero_iff_nil.
  - apply Forall_reverse, update_rev_wf, Forall_reverse, Hwf.
Qed.

Lemma env_wf_push e : env_wf e -> env_wf (Env.push_scope e).
Proof.
  intros [Hne Hwf]. split; cbn; [by destruct (scopes e)|].
  rewrite Forall_app, Forall_singleton. split; [done|]. apply NoDup_nil_2.
Qed.

Lemma env_wf_pop e : env_wf e -> env_wf (fst (Env.pop_scope e)).
Proof.
  intros [Hne Hwf]. unfold Env.pop_scope. case_match eqn:Hl; [|done].
  destruct (scopes_snoc e Hne) as (ss & s & Hs). unfold env_wf; cbn.
  rewrite Hs in Hl |- *. rewrite removelast_last.
  rewrite Hs, Forall_app in Hwf. split; [|tauto].
  intros ->. cbn in Hl. done.
Qed.

#[export] Hint Resolve env_wf_set env_wf_remove env_wf_get_mut env_wf_push env_wf_pop : wasmsh.

Lemma env_wf_new : env_wf Env.new.
Proof. split; [done|]. constructor; [apply NoDup_nil_2|constructor]. Qed.

(** ** Namerefs *)

(** The variable reached after [n] redirections, if there are that many. *)
Fixpoint hops (st : ShellState) (n : nat) (name : str) : option str :=
  match n with
  | O => Some name
  | S n' => next ← nameref_hop st name; hops st n' next
  end.

Lemma hops_add st n m x y : hops st n x = Some y -> hops st (n + m) x = hops st m y.
Proof.
  revert x. induction n as [|n IH]; cbn; intros x; [congruence|].
  destruct (nameref_hop st x) as [z|]; cbn; [apply IH|done].
Qed.

(** [set_var] returns exactly when the chain ends, and then writes to its end. *)
Lemma set_var_fuel_hops fuel st name v st' :
  set_var_fuel fuel st name v = Some st' <->
  exists n target, (n < fuel)%nat /\ hops st n name = Some target /\
    nameref_hop st target = None /\ st' = assign_scalar st target v.
Proof.
  revert name. induction fuel as [|fuel IH]; intros name; cbn.
  { split; [done|]. intros (? & ? & ? & _). lia. }
  destruct (nameref_hop st name) as [next|] eqn:Hh.
  - rewrite IH. split.
    + intros (n & t & ? & ? & ? & ?). exists (S n), t. cbn. rewrite Hh. cbn. repeat split; [lia|done..].
    + intros ([|n] & t & ? & Hn & ? & ?); cbn in Hn; [congruence|].
      rewrite Hh in Hn. exists n, t. repeat split; [lia|done..].
  - split.
    + intros [= <-]. exists 0%nat, name. repeat split; [lia|done].
    + intros ([|n] & t & ? & Hn & ? & ->); cbn in Hn; [congruence|]. by rewrite Hh in Hn.
Qed.

Lemma hop_in_keys st name next :
  nameref_hop st name = Some next -> name ∈ im_keys (concat (scopes (env st))).
Proof.
  unfold nameref_hop, Env.get. destruct (find_map _ _) as [w|] eqn:Hf; cbn; [|done]. intros _.
  apply find_map_Some in Hf as (s & Hs & Hg%im_get_elem).
  rewrite elem_of_reverse in Hs. apply list_elem_of_fmap. exists (name, w). split; [done|].
  rewrite list_elem_of_In, in_concat. exists s. by rewrite <- !list_elem_of_In.
Qed.

Lemma hops_stuck_unique st x n m t u :
  hops st n x = Some t -> nameref_hop st t = None ->
  hops st m x = Some u -> nameref_hop st u = None -> n = m.
Proof.
  revert x m. induction n as [|n IH]; intros x [|m]; cbn; intros Hn Ht Hm Hu; simplify_eq; try done.
  - by rewrite Ht in Hm.
  - by rewrite Hu in Hn.
  - destruct (nameref_hop st x); cbn in *; [|done]. f_equal. eauto.
Qed.

(** The names a chain of [n] redirections goes through. *)
Fixpoint visited (st : ShellState) (n : nat) (name : str) : list str :=
  match n with
  | O => []
  | S n' => name :: match nameref_hop st name with Some y => visited st n' y | None => [] end
  end.

Lemma visited_hops st n x y : y ∈ visited st n x -> exists i, (i < n)%nat /\ hops st i x = Some y.
Proof.
  revert x. induction n as [|n IH]; cbn; intros x; [set_solver|].
  intros [->|Hy]%elem_of_cons; [exists 0%nat; split; [lia|done]|].
  destruct (nameref_hop st x) as [z|] eqn:Hz; [|set_solver].
  apply IH in Hy as (i & ? & ?). exists (S i). cbn. rewrite Hz. split; [lia|done].
Qed.

(** A chain that ends visits no name twice, and only names of variables. *)
Lemma visited_distinct st n x t :
  hops st n x = Some t -> nameref_hop st t = None ->
  NoDup (visited st n x) /\ length (visited st n x) = n /\
  visited st n x ⊆ im_keys (concat (scopes (env st))).
Proof.
  revert x. induction n as [|n IH]; cbn; intros x Hn Ht.
  { split; [constructor|]. split; [done|]. set_solver. }
  destruct (nameref_hop st x) as [y|] eqn:Hy; cbn in *; [|done].
  destruct (IH y Hn Ht) as (Hnd & Hl & Hsub). split; [|split].
  - constructor; [|done]. intros (i & Hi & Hxi)%visited_hops.
    assert (Hc : hops st (S i) x = Some x) by (cbn; by rewrite Hy).
    assert (Hback : hops st (n - i) x = Some t).
    { rewrite <- (hops_add st (S i) (n - i) x x Hc). replace (S i + (n - i))%nat with (S n) by lia.
      cbn. by rewrite Hy. }
    assert (n - i = S n)%nat as ?; [|lia].
    eapply hops_stuck_unique; [done..| |done]. cbn. by rewrite Hy.
  - cbn. by rewrite Hl.
  - apply hop_in_keys in Hy. set_solver.
Qed.

Lemma chain_bound st n x t :
  hops st n x = Some t -> nameref_hop st t = None ->
  (n <= length (concat (scopes (env st))))%nat.
Proof.
  intros Hn Ht. destruct (visited_distinct st n x t Hn Ht) as (Hnd & Hl & Hsub).
  rewrite <- Hl. unfold im_keys in Hsub. rewrite <- (length_map fst (concat (scopes (env st)))).
  by apply submseteq_length, NoDup_submseteq.
Qed.

Lemma set_var_hops st name v st' :
  set_var st name v = Some st' <->
  exists n target, hops st n name = Some target /\ nameref_hop st target = None /\
    st' = assign_scalar st target v.
Proof.
  unfold set_var. rewrite set_var_fuel_hops. split.
  - intros (n & t & ? & ? & ? & ?). eauto.
  - intros (n & t & Hn & Ht & ->). exists n, t. repeat split; [|done..].
    pose proof (chain_bound st n name t Hn Ht). lia.
Qed.

(** ** The effect of one write *)

Lemma env_set_env e st : env (set_env e st) = e.
Proof. done. Qed.

Lemma set_env_id st : set_env (env st) st = st.
Proof. by destruct st. Qed.

Lemma attrs_readonly st name e r i n :
  attrs st name = (e, r, i, n) -> r = is_var_readonly st name.
Proof. unfold attrs, is_var_readonly. case_match; congruence. Qed.

Lemma assign_scalar_ro st name v : is_var_readonly st name = true -> assign_scalar st name v = st.
Proof.
  intros Hr. unfold assign_scalar. destruct (attrs st name) as [[[e r] i] n] eqn:Ha.
  apply attrs_readonly in Ha. by rewrite Ha, Hr.
Qed.

(** A write that is not refused replaces the whole value, keeps the
    attributes, and touches only the innermost scope. *)
Lemma assign_scalar_rw st name v :
  is_var_readonly st name = false ->
  exists var, assign_scalar st name v = set_env (Env.set name var (env st)) st /\
    value var = Scalar v /\ readonly var = false /\
    integer var = (attrs st name).1.2 /\ nameref var = (attrs st name).2.
Proof.
  intros Hr. unfold assign_scalar. destruct (attrs st name) as [[[e r] i] n] eqn:Ha.
  apply attrs_readonly in Ha. subst r. rewrite Hr. eexists. split; [reflexivity|]. done.
Qed.
