(* ===== verification/StateSpec.v ===== *)
(** * What the shell state promises

    Calls on the state as explicit sequences ([state_op], [state_exec]) and the
    theorems about them: the environment invariant, read-only variables,
    assignment and nameref chains, function scopes, the error side channels,
    arrays, [$RANDOM], name listings and exports. *)

From S2P Require Import Prelude Strings IndexMap State StateProps.

#[local] Arguments reverse : simpl never.

(** ** Sequences of state-changing calls *)

Inductive state_op :=
  | OSetVar (name v : str)
  | OSetVarChecked (name v : str)
  | OSetReadonly (name v : str)
  | OUnset (name : str)
  | ONounset (name : str)
  | OTakeNounset
  | OArith (msg : str)
  | OTakeArith
  | OShellError (msg : str) (fatal : bool)
  | OTakeShellError
  | OSetElem (name index v : str)
  | OAppend (name : str) (values : list str)
  | OUnsetElem (name index : str)
  | OInitIndexed (name : str)
  | OInitAssoc (name : str)
  | OGetVar (name : str)
  | OPush
  | OPop.

#[export] Instance state_op_eq_dec : EqDecision state_op.
Proof. solve_decision. Defined.

Section exec.
Context `{Target}.

(** [None]: the call does not return. *)
Definition state_step (op : state_op) (st : ShellState) : option ShellState :=
  match op with
  | OSetVar n v => set_var st n v
  | OSetVarChecked n v => fst <$> set_var_checked st n v
  | OSetReadonly n v => Some (set_readonly st n v)
  | OUnset n => Some (fst (unset_var st n))
  | ONounset n => Some (set_nounset_error st n)
  | OTakeNounset => Some (fst (take_nounset_error st))
  | OArith m => Some (set_arith_error st m)
  | OTakeArith => Some (fst (take_arith_error st))
  | OShellError m f => Some (set_shell_error_inner st m f)
  | OTakeShellError => Some (fst (take_shell_error st))
  | OSetElem n i v => Some (set_array_element st n i v)
  | OAppend n vs => Some (append_array st n vs)
  | OUnsetElem n i => Some (unset_array_element st n i)
  | OInitIndexed n => Some (init_indexed_array st n)
  | OInitAssoc n => Some (init_assoc_array st n)
  | OGetVar n => Some (fst (get_var 0 st n))
  | OPush => Some (set_env (Env.push_scope (env st)) st)
  | OPop => Some (set_env (fst (Env.pop_scope (env st))) st)
  end.

Fixpoint state_exec (ops : list state_op) (st : ShellState) : option ShellState :=
  match ops with
  | [] => Some st
  | op :: ops' => st' ← state_step op st; state_exec ops' st'
  end.

(** The reserved variables of the error side channels. *)
Definition sentinels : list str := [NOUNSET_ERROR_VAR; ARITH_ERROR_VAR; SHELL_ERROR_VAR].

(** The names a call is allowed to change. *)
Definition writable (st : ShellState) (op : state_op) (k : str) : Prop :=
  is_var_readonly st k = false \/ k ∈ sentinels \/ exists v, op = OSetReadonly k v.

(** The calls that only touch the innermost scope. *)
Definition local_op (op : state_op) : bool :=
  match op with
  | OSetElem _ _ _ | OAppend _ _ | OUnsetElem _ _ => false
  | _ => true
  end.

(** The primitive changes to the environment a call can make. *)
Inductive env_change (st : ShellState) (op : state_op) : ShellEnv -> Prop :=
  | ch_none : env_change st op (env st)
  | ch_set n v : writable st op n -> env_change st op (Env.set n v (env st))
  | ch_mut n f : writable st op n -> local_op op = false -> env_change st op (Env.get_mut n f (env st))
  | ch_remove n : writable st op n -> env_change st op (fst (Env.remove n (env st)))
  | ch_push : op = OPush -> env_change st op (Env.push_scope (env st))
  | ch_pop : op = OPop -> env_change st op (fst (Env.pop_scope (env st))).
#[local] Hint Constructors env_change : core.

Lemma assign_scalar_change st op name v : env_change st op (env (assign_scalar st name v)).
Proof.
  destruct (is_var_readonly st name) eqn:Hr.
  - rewrite assign_scalar_ro by done. constructor.
  - destruct (assign_scalar_rw st name v Hr) as (var & -> & _). constructor. by left.
Qed.

Lemma set_var_change st op name v st' : set_var st name v = Some st' -> env_change st op (env st').
Proof. intros (n & t & _ & _ & ->)%set_var_hops. apply assign_scalar_change. Qed.

Lemma take_sentinel_change st op var :
  var ∈ sentinels -> env_change st op (env (fst (take_sentinel var st))).
Proof.
  intros Hv. unfold take_sentinel. repeat case_split; cbn; try constructor. right; by left.
Qed.

Lemma init_array_change st op w name : env_change st op (env (init_array w st name)).
Proof.
  unfold init_array. destruct (attrs st name) as [[[e r] i] n] eqn:Ha.
  apply attrs_readonly in Ha. destruct r; [constructor|]. constructor. by left.
Qed.

Lemma get_var_env clock st name : env (fst (get_var clock st name)) = env st.
Proof. unfold get_var, next_random. repeat case_decide; done. Qed.

(** Every call makes at most one primitive change, to a name it may write. *)
Lemma state_step_change op st st' : state_step op st = Some st' -> env_change st op (env st').
Proof.
  assert (Hs : forall k, k ∈ sentinels -> writable st op k) by (by right; left).
  destruct op; cbn [state_step]; intros Hstep.
  - by eapply set_var_change.
  - apply fmap_Some in Hstep as ([st1 r] & Hstep & ->). unfold set_var_checked in Hstep.
    repeat case_split_in Hstep; simplify_eq/=; try constructor;
      apply fmap_Some in Hstep as (? & ? & [= -> ->]); by eapply set_var_change.
  - simplify_eq/=. unfold set_readonly. destruct (attrs _ _) as [[[? ?] ?] ?].
    constructor. right; right; eauto.
  - simplify_eq/=. unfold unset_var. destruct (is_var_readonly st name) eqn:Hr; [constructor|].
    cbn. constructor. by left.
  - simplify_eq/=. constructor. apply Hs. unfold sentinels. set_solver.
  - simplify_eq/=. apply take_sentinel_change. unfold sentinels. set_solver.
  - simplify_eq/=. constructor. apply Hs. unfold sentinels. set_solver.
  - simplify_eq/=. apply take_sentinel_change. unfold sentinels. set_solver.
  - simplify_eq/=. constructor. apply Hs. unfold sentinels. set_solver.
  - simplify_eq/=. pose proof (take_sentinel_change st OTakeShellError SHELL_ERROR_VAR) as Ht.
    unfold take_shell_error. destruct (take_sentinel _ st) as [st1 [m|]]; cbn in *;
      apply Ht; unfold sentinels; set_solver.
  - simplify_eq/=. unfold set_array_element. destruct (attrs st name) as [[[e r] i] n] eqn:Ha.
    apply attrs_readonly in Ha. destruct r; [constructor|].
    case_match; constructor; by (left || done).
  - simplify_eq/=. unfold append_array. destruct (is_var_readonly st name) eqn:Hr; [constructor|].
    case_match; constructor; by (left || done).
  - simplify_eq/=. unfold unset_array_element.
    destruct (is_var_readonly st name) eqn:Hr; [constructor|].
    case_match; constructor; by (left || done).
  - simplify_eq/=. apply init_array_change.
  - simplify_eq/=. apply init_array_change.
  - simplify_eq/=. rewrite get_var_env. constructor.
  - simplify_eq/=. by constructor.
  - simplify_eq/=. by constructor.
Qed.

Lemma env_change_wf st op e : env_change st op e -> env_wf (env st) -> env_wf e.
Proof. destruct 1; eauto with wasmsh. Qed.

(** Every call of the shell state, on every path, keeps the environment
    well formed: there is always a scope to write to and no scope holds two
    entries for one name; so this holds after any sequence of calls on a new
    state. *)
Theorem state_reachable_wf (pid : Z) (ops : list state_op) (st : ShellState) :
  state_exec ops (new_state pid) = Some st -> env_wf (env st).
Proof.
  assert (H0 : env_wf (env (new_state pid))) by apply env_wf_new.
  revert H0. generalize (new_state pid) as st0. induction ops as [|op ops IH]; cbn; intros st0 Hwf Hex.
  - by simplify_eq.
  - destruct (state_step op st0) as [st1|] eqn:Hst; [|done]. cbn in Hex.
    eapply IH, Hex. eapply env_change_wf; [by apply (state_step_change op)|done].
Qed.

(** ** What one scope-stack change does to one name *)

(** The variable of that name in each scope, outermost first. *)
Definition column (name : str) (e : ShellEnv) : list (option ShellVar) :=
  im_get name <$> scopes e.

Lemma get_column name e : Env.get name e = find_map id (reverse (column name e)).
Proof.
  unfold Env.get, column. rewrite <- fmap_reverse. generalize (reverse (scopes e)) as ss.
  induction ss as [|s ss IH]; cbn; [done|]. unfold id at 1. by destruct (im_get name s).
Qed.

Lemma column_on_last name f e :
  (forall s, s ∈ scopes e -> im_get name (f s) = im_get name s) ->
  column name {| scopes := Env.on_last f (scopes e) |} = column name e.
Proof.
  unfold column; cbn. destruct (scopes e) as [|s ss _] using rev_ind; intros Hf; [done|].
  rewrite on_last_app, !fmap_app; cbn. rewrite Hf; [done|]. set_solver.
Qed.

Lemma update_rev_column name f k rs :
  k <> name -> im_get name <$> Env.update_rev f k rs = im_get name <$> rs.
Proof.
  intros Hne. induction rs as [|s rs IH]; cbn; [done|]. case_match; cbn; [|by rewrite IH].
  rewrite im_get_update. by rewrite decide_False.
Qed.

(** A change under another name leaves a column as it is. *)
Lemma column_set_ne name k v e : k <> name -> column name (Env.set k v e) = column name e.
Proof. intros. apply column_on_last. intros. by apply im_get_insert_ne. Qed.

Lemma column_get_mut_ne name k f e : k <> name -> column name (Env.get_mut k f e) = column name e.
Proof.
  intros. unfold column, Env.get_mut; cbn.
  rewrite fmap_reverse, update_rev_column, <- fmap_reverse by done. by rewrite reverse_involutive.
Qed.

Lemma column_remove_ne name k e :
  env_wf e -> k <> name -> column name (fst (Env.remove k e)) = column name e.
Proof.
  intros [_ Hwf] Hne. unfold Env.remove. destruct (last (scopes e)); [|done].
  apply column_on_last. intros s' Hs. rewrite Forall_forall in Hwf.
  rewrite im_get_shift_remove by auto. by rewrite decide_False.
Qed.

(** ** Read-only variables *)

(** The number of open scopes after a call, from [d]; [None] when it would close
    one that was not opened. *)
Definition depth_after (d : nat) (op : state_op) : option nat :=
  match op, d with
  | OPush, _ => Some (S d)
  | OPop, O => None
  | OPop, S d' => Some d'
  | _, _ => Some d
  end.

Fixpoint depth (d : nat) (ops : list state_op) : option nat :=
  match ops with
  | [] => Some d
  | op :: ops' => d' ← depth_after d op; depth d' ops'
  end.

Lemma depth_after_other d op : op <> OPush -> op <> OPop -> depth_after d op = Some d.
Proof. by destruct op, d. Qed.

(** The scopes opened since do not have the name. *)
Definition extends (vs : list (option ShellVar)) (d : nat) (name : str) (e : ShellEnv) : Prop :=
  column name e = vs ++ replicate d None.

Lemma extends_get vs d name e :
  extends vs d name e -> Env.get name e = find_map id (reverse vs).
Proof.
  unfold extends. intros Hc. rewrite get_column, Hc, reverse_app. clear Hc.
  rewrite reverse_replicate. by induction d.
Qed.

Lemma extends_pop vs d name e :
  vs <> [] -> extends vs (S d) name e -> extends vs d name (fst (Env.pop_scope e)).
Proof.
  unfold extends, column, Env.pop_scope. intros Hvs Hc.
  assert (Hl : (1 < length (scopes e))%nat).
  { rewrite <- (length_fmap (im_get name)), Hc, length_app, length_replicate.
    destruct vs; [done|]. cbn. lia. }
  apply Nat.ltb_lt in Hl as ->. cbn [fst scopes].
  destruct (scopes e) as [|s ss _] using rev_ind; [by destruct vs|].
  rewrite removelast_last. rewrite fmap_app, replicate_S_end, app_assoc in Hc.
  by apply app_inj_tail in Hc as [-> _].
Qed.

Lemma extends_change vs d name st op e :
  env_wf (env st) -> env_change st op e -> (forall k, writable st op k -> k <> name) ->
  op <> OPush -> op <> OPop -> extends vs d name (env st) -> extends vs d name e.
Proof.
  unfold extends. intros Hwf Hch Hk Hpu Hpo <-.
  destruct Hch; try done;
    auto using column_set_ne, column_get_mut_ne, column_remove_ne.
Qed.

Lemma readonly_steps name vs ops d st st' :
  vs <> [] -> env_wf (env st) -> name ∉ sentinels -> (forall v, OSetReadonly name v ∉ ops) ->
  extends vs d name (env st) -> is_var_readonly st name = true ->
  is_Some (depth d ops) -> state_exec ops st = Some st' ->
  Env.get name (env st') = find_map id (reverse vs).
Proof.
  intros Hvs. revert d st. induction ops as [|op ops IH]; intros d st Hwf Hsen Hno Hex Hro Hbal; cbn.
  { intros [= <-]. by eapply extends_get. }
  destruct (state_step op st) as [st1|] eqn:Hst; [|done]. cbn.
  pose proof (state_step_change op st st1 Hst) as Hch.
  assert (Hwf1 : env_wf (env st1)) by (by eapply env_change_wf).
  assert (Hw : forall k, writable st op k -> k <> name).
  { intros k [?|[?|[v ->]]] ->; [congruence|done|]. eapply Hno. by apply list_elem_of_here. }
  assert (Hno' : forall v, OSetReadonly name v ∉ ops).
  { intros v Hin. by apply (Hno v), list_elem_of_further. }
  assert (Hd : exists d', is_Some (depth d' ops) /\ extends vs d' name (env st1)).
  { destruct (decide (op = OPush \/ op = OPop)) as [[-> | ->]|Hop].
    - exists (S d). split; [done|]. simplify_eq/=. unfold extends, column, Env.push_scope in *. cbn [scopes].
      rewrite fmap_app, Hex, replicate_S_end. by rewrite <- app_assoc.
    - cbn in Hbal. destruct d as [|d]; [by destruct Hbal|]. exists d. split; [done|]. simplify_eq/=.
      by apply extends_pop.
    - exists d. cbn in Hbal. rewrite depth_after_other in Hbal by tauto. split; [done|].
      apply (extends_change vs d name st op); [done..|tauto|tauto|done]. }
  destruct Hd as (d' & Hb' & Hex'). eapply IH; eauto.
  unfold is_var_readonly in *. rewrite (extends_get vs d' name) by done.
  by rewrite (extends_get vs d name) in Hro.
Qed.


(** ** Assignment *)

(** Names [get_var] answers from the environment. *)
Definition special_names : list str :=
  [ #"?"; #"$$"; #"!"; #"#"; #"-"; #"0"; #"_"; #"@"; #"*"; #"RANDOM"; #"LINENO";
    #"SECONDS"; #"FUNCNAME"; #"BASH_SOURCE" ].

Definition plain_name (name : str) : Prop :=
  name ∉ special_names /\ positional_param_index name = None.

#[export] Instance plain_name_dec name : Decision (plain_name name).
Proof. unfold plain_name. apply _. Defined.

Lemma get_var_plain clock st name :
  plain_name name -> get_var clock st name = (st, get_env_var st name).
Proof.
  intros [Hsp Hpos]. unfold special_names in Hsp. unfold get_var.
  repeat (rewrite decide_False by set_solver).
  unfold get_named_or_positional_var. by rewrite Hpos.
Qed.

Lemma attrs_nameref st name : (attrs st name).2 = true <-> exists v, Env.get name (env st) = Some v /\ nameref v = true.
Proof. unfold attrs. case_match; cbn; naive_solver. Qed.

Lemma nameref_off_hop st name : (attrs st name).2 = false -> nameref_hop st name = None.
Proof.
  unfold attrs, nameref_hop, nameref_target. case_match; cbn; [|done]. by intros ->.
Qed.

(** Assigning and reading back: when [name] is, or is a nameref for, a
    variable that is neither read-only nor a nameref, [set_var] returns, the
    value is read back under [name], it sits in the target with its integer
    attribute kept, and no other variable changes. *)
Theorem assign_read_back (clock : Z) (st : ShellState) (name target v : str) :
  env_wf (env st) -> plain_name name ->
  name = target \/ nameref_hop st name = Some target ->
  is_var_readonly st target = false -> (attrs st target).2 = false ->
  exists st', set_var st name v = Some st' /\
    get_var clock st' name = (st', Some v) /\
    (exists var, Env.get target (env st') = Some var /\ value var = Scalar v /\
       integer var = (attrs st target).1.2) /\
    (forall other, other <> target -> Env.get other (env st') = Env.get other (env st)).
Proof.
  intros Hwf Hpl Hnt Hro Hnr. pose proof (nameref_off_hop st target Hnr) as Hstuck.
  exists (assign_scalar st target v). split; [|split; [|split]].
  - apply set_var_hops. destruct Hnt as [->|Hh]; [by exists 0%nat, target|].
    exists 1%nat, target. cbn. rewrite Hh. done.
  - rewrite get_var_plain by done. f_equal.
    destruct (assign_scalar_rw st target v Hro) as (var & -> & Hv & _ & _ & Hn).
    unfold get_env_var. rewrite env_set_env. destruct Hwf as [Hne _].
    destruct Hnt as [->|Hh].
    + rewrite get_set_eq by done. cbn. unfold nameref_target. rewrite Hn, Hnr; cbn. by rewrite Hv.
    + assert (target <> name) as Htn.
      { unfold nameref_hop in Hh. destruct (Env.get name (env st)); [|done]. cbn in Hh.
        unfold nameref_target in Hh. repeat case_split_in Hh; naive_solver. }
      rewrite get_set_ne by done. unfold nameref_hop in Hh.
      destruct (Env.get name (env st)) as [w|]; [|done]. cbn in Hh |- *. rewrite Hh.
      rewrite get_set_eq by done. cbn. by rewrite Hv.
  - destruct (assign_scalar_rw st target v Hro) as (var & -> & Hv & _ & Hi & _).
    exists var. rewrite env_set_env, get_set_eq by apply Hwf. done.
  - intros other Ho. destruct (assign_scalar_rw st target v Hro) as (var & -> & _).
    rewrite env_set_env. by apply get_set_ne; [apply Hwf|].
Qed.

(** The recursion of [set_var] through namerefs: whether it returns is
    decided by as many calls as there are variables plus one; a call that has
    not returned by then never does, and one that returns has written to the
    end of the nameref chain. *)
Theorem set_var_decided (st : ShellState) (name v : str) :
  match set_var st name v with
  | Some st' => exists n target, (n <= length (concat (scopes (env st))))%nat /\
      hops st n name = Some target /\ nameref_hop st target = None /\
      st' = assign_scalar st target v
  | None => (forall fuel, set_var_fuel fuel st name v = None) /\
      (forall n, is_Some (hops st n name))
  end.
Proof.
  destruct (set_var st name v) as [st'|] eqn:Hs.
  - apply set_var_hops in Hs as (n & t & Hn & Ht & ->). exists n, t.
    repeat split; [by eapply chain_bound|done..].
  - assert (Hnone : forall fuel, set_var_fuel fuel st name v = None).
    { intros fuel. destruct (set_var_fuel fuel st name v) as [st'|] eqn:Hf; [|done].
      apply set_var_fuel_hops in Hf as (n & t & _ & Hn).
      rewrite (proj2 (set_var_hops st name v st')) in Hs; [done|eauto]. }
    split; [done|]. induction n as [|n [t Ht]]; [by eexists|].
    destruct (nameref_hop st t) as [u|] eqn:Hu.
    + exists u. rewrite <- Nat.add_1_r, (hops_add st n 1 name t Ht). cbn. by rewrite Hu.
    + specialize (Hnone (S n)). rewrite (proj2 (set_var_fuel_hops (S n) st name v (assign_scalar st t v))) in Hnone; [done|].
      exists n, t. repeat split; [lia|done..].
Qed.

(** Two namerefs that name each other make an assignment to either of them
    recurse for ever: no number of calls suffices. *)
Theorem nameref_cycle_diverges (st : ShellState) (a b v : str) (fuel : nat) :
  nameref_hop st a = Some b -> nameref_hop st b = Some a ->
  set_var_fuel fuel st a v = None.
Proof.
  intros Ha Hb. enough (set_var_fuel fuel st a v = None /\ set_var_fuel fuel st b v = None) by tauto.
  induction fuel as [|fuel [IHa IHb]]; cbn; [done|]. by rewrite Ha, Hb.
Qed.

(** Along a chain of two namerefs a write goes to the end of the chain and
    a read stops one hop early: after [set_var st a v] with [a] naming [b] and
    [b] naming [c], reading [a] yields the name [c], not the value [v]. *)
Theorem nameref_chain_read_differs (st : ShellState) (a b c v : str) :
  env_wf (env st) -> nameref_hop st a = Some b -> nameref_hop st b = Some c ->
  nameref_hop st c = None -> is_var_readonly st c = false -> c <> a ->
  exists st', set_var st a v = Some st' /\ get_env_var st' a = Some c.
Proof.
  intros [Hne _] Ha Hb Hc Hro Hca. exists (assign_scalar st c v). split.
  { apply set_var_hops. exists 2%nat, c. cbn. rewrite Ha. cbn. by rewrite Hb. }
  destruct (assign_scalar_rw st c v Hro) as (var & -> & _).
  unfold get_env_var. rewrite env_set_env, get_set_ne by done.
  unfold nameref_hop in Ha, Hb. destruct (Env.get a (env st)) as [va|]; [|done]. cbn in *. rewrite Ha.
  destruct (Env.get b (env st)) as [vb|] eqn:Eb; [|done]. cbn in Hb.
  unfold nameref_target in Hb. repeat case_split_in Hb; simplify_eq.
  rewrite get_set_ne by naive_solver. by rewrite Eb.
Qed.

(** Assigning a scalar to an existing indexed array discards the whole
    array: the variable is afterwards the one scalar, whatever its elements
    were. *)
Theorem scalar_assign_drops_array (st : ShellState) (name v : str) (var : ShellVar) (m : list (Z * str)) :
  env_wf (env st) -> Env.get name (env st) = Some var -> value var = IndexedArray m ->
  readonly var = false -> nameref var = false ->
  exists st', set_var st name v = Some st' /\
    get_array_values st' name = (if decide (v = []) then [] else [v]).
Proof.
  intros [Hne _] Hg Hm Hr Hn. exists (assign_scalar st name v). split.
  - apply set_var_hops. exists 0%nat, name. split; [done|]. split; [|done].
    apply nameref_off_hop. unfold attrs. by rewrite Hg.
  - destruct (assign_scalar_rw st name v) as (w & -> & Hv & _);
      [unfold is_var_readonly; by rewrite Hg|].
    unfold get_array_values. rewrite env_set_env, get_set_eq by done. by rewrite Hv.
Qed.

(** ** Scopes *)

Lemma on_last_id ss : Env.on_last id ss = ss.
Proof. destruct ss as [|x l _] using rev_ind; [done|]. by rewrite on_last_app. Qed.

Lemma local_on_last op st st' :
  local_op op = true -> op <> OPush -> op <> OPop -> state_step op st = Some st' ->
  exists f, scopes (env st') = Env.on_last f (scopes (env st)).
Proof.
  intros Hl Hpu Hpo Hst. destruct (state_step_change op st st' Hst) as [|n w|n f|n|?|?];
    [exists id; by rewrite on_last_id|by eexists|congruence| |done..].
  unfold Env.remove. case_match eqn:Hla; [by eexists|].
  exists id. by rewrite on_last_id.
Qed.

(** The scopes [base] are untouched below [S d] open ones. *)
Definition confined (base : list (list (list Ascii.ascii * ShellVar))) (d : nat) (e : ShellEnv) : Prop :=
  exists extra, length extra = S d /\ scopes e = base ++ extra.

Lemma confined_step base d d' op st st' :
  base <> [] -> local_op op = true -> state_step op st = Some st' ->
  confined base d (env st) -> depth_after d op = Some d' -> confined base d' (env st').
Proof.
  intros Hb Hl Hst (extra & Hlen & Hs) Hd.
  destruct (decide (op = OPush \/ op = OPop)) as [[-> | ->]|Hop].
  - simplify_eq/=. exists (extra ++ [[]]). unfold Env.push_scope; cbn [scopes].
    rewrite length_app, Hlen, Hs, app_assoc. split; [cbn; lia|done].
  - destruct d as [|d]; simplify_eq/=.
    destruct extra as [|s extra _] using rev_ind; [done|]. rewrite length_app in Hlen; cbn in Hlen.
    exists extra. split; [lia|]. unfold Env.pop_scope. rewrite Hs, app_assoc, removelast_last.
    destruct (Nat.ltb_spec 1 (length ((base ++ extra) ++ [s]))) as [?|Hle]; [done|].
    rewrite !length_app in Hle. cbn in Hle. lia.
  - rewrite depth_after_other in Hd by tauto. simplify_eq.
    destruct (local_on_last op st st') as [f Hf]; [done|tauto|tauto|done|].
    destruct extra as [|s extra _] using rev_ind; [done|].
    exists (extra ++ [f s]). rewrite Hf, Hs, app_assoc, on_last_app.
    rewrite length_app in *. split; [done|]. by rewrite app_assoc.
Qed.

Lemma confined_steps base ops d d' st st' :
  base <> [] -> Forall (fun op => local_op op = true) ops -> depth d ops = Some d' ->
  confined base d (env st) -> state_exec ops st = Some st' -> confined base d' (env st').
Proof.
  intros Hb. revert d st. induction ops as [|op ops IH]; intros d st Hl Hd Hc; cbn in *.
  { intros [= <-]. by simplify_eq. }
  inversion_clear Hl as [|?? Hl1 Hl2].
  destruct (state_step op st) as [st1|] eqn:Hst; [|done]. cbn.
  destruct (depth_after d op) as [d1|] eqn:Hd1; [|done]. cbn in Hd.
  apply (IH d1); [done..|]. by eapply confined_step.
Qed.

Lemma state_exec_app ops1 ops2 st :
  state_exec (ops1 ++ ops2) st = st' ← state_exec ops1 st; state_exec ops2 st'.
Proof.
  revert st. induction ops1 as [|op ops1 IH]; intros st; cbn; [done|].
  destruct (state_step op st); cbn; [apply IH|done].
Qed.

(** C38: Subshell isolation: whatever scalar assignments, [set_readonly]s,
    unsets, array initialisations and nested scopes happen between
    [push_scope] and its [pop_scope], the variables are afterwards exactly what
    they were. *)
Theorem subshell_isolated (ops : list state_op) (st st' : ShellState) :
  env_wf (env st) -> Forall (fun op => local_op op = true) ops -> depth 0 ops = Some 0%nat ->
  state_exec (OPush :: ops ++ [OPop]) st = Some st' -> env st' = env st.
Proof.
  intros [Hne _] Hl Hd. cbn. rewrite state_exec_app.
  destruct (state_exec ops _) as [st1|] eqn:Hex; [|done]. cbn. intros [= <-].
  eapply confined_steps in Hex as (extra & Hlen & Hs); [|exact Hne|done..|by exists [[]]].
  destruct extra as [|s [|]]; try done. rewrite env_set_env.
  destruct (env st1) as [ss]; cbn in Hs; subst ss. by rewrite pop_push_snoc.
Qed.

(** Array element writes are not isolated: in an inner scope, setting an
    element of an array the outer scope owns changes the outer array, and the
    change survives the [pop_scope]. *)
Theorem subshell_array_escapes (st : ShellState) (name index v : str) (idx : Z) (var : ShellVar) (m : list (Z * str)) :
  env_wf (env st) -> Env.get name (env st) = Some var -> value var = IndexedArray m ->
  readonly var = false -> parse_usize index = Some idx ->
  exists st', state_exec [OPush; OSetElem name index v; OPop] st = Some st' /\
    get_array_element st' name index = Some v.
Proof.
  intros [Hne Hwf] Hg Hm Hr Hi. eexists. split; [reflexivity|].
  unfold set_array_element, attrs. rewrite env_set_env, get_push, Hg, Hr.
  unfold get_array_element. rewrite !env_set_env.
  set (f := fun var => set_value _ var).
  assert (Hp : fst (Env.pop_scope (Env.get_mut name f (Env.push_scope (env st)))) = Env.get_mut name f (env st)).
  { unfold Env.get_mut, Env.push_scope; cbn [scopes]. rewrite reverse_snoc. cbn. rewrite reverse_cons.
    pose proof (pop_push_snoc (Env.get_mut name f (env st)) []) as Hpp.
    unfold Env.get_mut in Hpp; cbn [scopes] in Hpp. rewrite Hpp; [done|].
    change (scopes (Env.get_mut name f (env st)) <> []).
    by apply env_wf_get_mut. }
  rewrite Hp, get_get_mut, decide_True, Hg by done. cbn. rewrite Hm. cbn. rewrite Hi. cbn.
  unfold insert_at. rewrite Hi. apply im_get_insert_eq.
Qed.

(** [unset_var] in an inner scope reports success and leaves a variable of
    an outer scope in place, as visible as before. *)
Theorem inner_unset_ineffective (st : ShellState) (name : str) :
  env_wf (env st) -> is_var_readonly st name = false ->
  let st1 := set_env (Env.push_scope (env st)) st in
  exists st2, unset_var st1 name = (st2, inl tt) /\ Env.get name (env st2) = Env.get name (env st).
Proof.
  intros Hwf Hr st1. exists (set_env (fst (Env.remove name (env st1))) st1). split.
  - unfold unset_var. unfold is_var_readonly in *. subst st1. by rewrite env_set_env, get_push, Hr.
  - rewrite env_set_env, (get_remove_eq name (env st1) (scopes (env st)) []); [by destruct (env st)| |done].
    by apply env_wf_push.
Qed.

(** ** Error side channels *)

Lemma take_set_sentinel var st m :
  env_wf (env st) -> m <> [] ->
  let st1 := set_env (Env.set var (scalar m) (env st)) st in
  take_sentinel var st1 = (set_env (fst (Env.remove var (env st1))) st1, Some m).
Proof.
  intros [Hne _] Hm st1. unfold take_sentinel. subst st1. rewrite env_set_env, get_set_eq by done.
  cbn. by rewrite decide_False.
Qed.

(** The fatal flag and the message of a shell error survive the encoding in
    one reserved variable: what [set_shell_error]/[set_fatal_shell_error]
    recorded is what the next [take_shell_error] returns (a non-fatal message
    must be non-empty and not start with the fatal marker), and when no
    enclosing scope holds an older error the channel is then empty. *)
Theorem shell_error_channel (st : ShellState) (message : str) (fatal : bool) :
  env_wf (env st) ->
  fatal = true \/ (message <> [] /\ strip_prefix [SHELL_ERROR_FATAL_PREFIX] message = None) ->
  exists st', take_shell_error (set_shell_error_inner st message fatal) = (st', Some (fatal, message)) /\
    (Env.get SHELL_ERROR_VAR {| scopes := removelast (scopes (env st)) |} = None ->
     take_shell_error st' = (st', None)).
Proof.
  intros Hwf Hm. set (enc := if fatal then SHELL_ERROR_FATAL_PREFIX :: message else message).
  assert (Henc : enc <> []) by (destruct fatal; subst enc; naive_solver).
  set (st1 := set_shell_error_inner st message fatal).
  exists (set_env (fst (Env.remove SHELL_ERROR_VAR (env st1))) st1). split.
  - unfold take_shell_error. subst st1. unfold set_shell_error_inner. fold enc.
    rewrite take_set_sentinel by done. subst enc. destruct fatal; [done|].
    destruct Hm as [?|[_ ->]]; done.
  - intros Ho. pose proof Hwf as [(ss & s & Hs)%scopes_snoc _]. rewrite Hs, removelast_last in Ho.
    unfold take_shell_error, take_sentinel. rewrite env_set_env.
    rewrite (get_remove_eq _ (env st1) ss (im_insert SHELL_ERROR_VAR (scalar enc) s)); [by rewrite Ho| |].
    + by apply env_wf_set.
    + subst st1. unfold set_shell_error_inner, Env.set; cbn. by rewrite Hs, on_last_app.
Qed.

(** Taking an error that an outer scope recorded does not clear it: the
    same nounset error is reported again, however often it is taken. *)
Theorem outer_error_not_cleared (st : ShellState) (name : str) (n : nat) :
  env_wf (env st) -> name <> [] ->
  let st1 := set_env (Env.push_scope (env (set_nounset_error st name))) st in
  snd (take_nounset_error (Nat.iter n (fun s => fst (take_nounset_error s)) st1)) = Some name.
Proof.
  intros Hwf Hn st1.
  assert (Hg : Env.get NOUNSET_ERROR_VAR (env st1) = Some (scalar name)).
  { subst st1. rewrite env_set_env, get_push. apply get_set_eq, Hwf. }
  assert (Hfix : fst (take_nounset_error st1) = st1).
  { unfold take_nounset_error, take_sentinel. rewrite Hg. cbn. rewrite decide_False by done. cbn.
    unfold st1 at 2. rewrite (remove_snoc _ _ (scopes (env (set_nounset_error st name))) []) by done. done. }
  assert (Nat.iter n (fun s => fst (take_nounset_error s)) st1 = st1) as ->.
  { induction n as [|n IH]; [done|]. by rewrite Nat.iter_succ, IH. }
  unfold take_nounset_error, take_sentinel. rewrite Hg. cbn. by rewrite decide_False.
Qed.

(** ** Arrays *)

Lemma foldr_max_ge k ks x : x ∈ k :: ks -> x <= foldr Z.max k ks.
Proof.
  induction ks as [|y ks IH]; cbn; intros Hx.
  - apply list_elem_of_singleton in Hx. lia.
  - assert (x = y \/ x ∈ k :: ks) as [->|Hx'] by set_solver; [lia|]. specialize (IH Hx'). lia.
Qed.

(** Room for [n] more elements after the largest index. *)
Definition index_room (m : list (Z * str)) (n : Z) : Prop :=
  Forall (fun k => 0 <= k /\ k + n <= usize_max) (im_keys m) /\ n <= usize_max + 1.

Lemma foldr_max_in k ks : foldr Z.max k ks ∈ k :: ks.
Proof.
  induction ks as [|y ks IH]; cbn; [set_solver|].
  destruct (Z.max_spec y (foldr Z.max k ks)) as [[_ ->]|[_ ->]]; set_solver.
Qed.

Lemma next_array_index_fresh m n :
  index_room m n -> 0 < n ->
  0 <= next_array_index m /\ next_array_index m + n <= usize_max + 1 /\
  forall k, k ∈ im_keys m -> k < next_array_index m.
Proof.
  intros [Hk Hn] Hpos. unfold next_array_index. pose proof usize_max_ge.
  destruct (im_keys m) as [|k ks]; [split; [lia|split; [lia|set_solver]]|].
  pose proof (foldr_max_in k ks) as Hin. rewrite Forall_forall in Hk. destruct (Hk _ Hin).
  unfold wrap_add. rewrite Z.mod_small by lia. split; [lia|split; [lia|]].
  intros x Hx%foldr_max_ge. lia.
Qed.

Lemma im_insert_fresh k (v : str) (m : list (Z * str)) : k ∉ im_keys m -> im_insert k v m = m ++ [(k, v)].
Proof.
  induction m as [|[q w] m IH]; cbn; [done|]. rewrite not_elem_of_cons. intros [? ?].
  rewrite decide_False by done. by rewrite IH.
Qed.

Lemma append_from_spec next i values m :
  0 <= next -> next + Z.of_nat i + len values <= usize_max + 1 ->
  (forall k, k ∈ im_keys m -> k < next + Z.of_nat i) ->
  append_from next i values m =
    m ++ imap (fun j v => (next + Z.of_nat (i + j), v)) values.
Proof.
  revert i m. induction values as [|v vs IH]; intros i m Hnx Hmax Hk; cbn; [by rewrite app_nil_r|].
  rewrite len_cons in Hmax. pose proof (len_nonneg vs). unfold wrap_add. rewrite Z.mod_small by lia.
  rewrite im_insert_fresh; [|intros Hin; specialize (Hk _ Hin); lia].
  rewrite IH; [|lia|lia|].
  - rewrite <- app_assoc. cbn. rewrite Nat.add_0_r. f_equal. f_equal. apply imap_ext.
    intros j x Hj. cbn. f_equal. lia.
  - intros k. unfold im_keys. rewrite map_app, elem_of_app. intros [Hi|Hi].
    + specialize (Hk k Hi). lia.
    + cbn in Hi. apply list_elem_of_singleton in Hi. lia.
Qed.

(** [arr+=(values)] appends: when the indices have room, the old elements
    stay as they are and the new values follow in order at the indices after
    the largest one. *)
Theorem append_array_spec (m : list (Z * str)) (values : list str) :
  index_room m (len values) ->
  append_to_indexed_array m values =
    m ++ imap (fun j v => (next_array_index m + Z.of_nat j, v)) values /\
  (forall k, k ∈ im_keys m -> values <> [] -> k < next_array_index m) /\
  (im_wf m -> im_wf (append_to_indexed_array m values)).
Proof.
  intros Hroom. destruct values as [|v vs].
  { cbn. rewrite app_nil_r. split; [done|]. split; [done|]. auto. }
  pose proof (len_nonneg vs). pose proof (len_cons v vs).
  destruct (next_array_index_fresh m (len (v :: vs)) Hroom) as (Hlo & Hhi & Hfr); [lia|].
  split; [|split; [auto|]].
  - unfold append_to_indexed_array. rewrite append_from_spec; [done|lia|lia|].
    intros k Hk. specialize (Hfr k Hk). lia.
  - unfold append_to_indexed_array. clear. generalize (next_array_index m) as nx, (v :: vs) as vals, 0%nat as i.
    intros nx vals. revert m. induction vals as [|w ws IH]; cbn; intros m i Hm; [done|].
    apply IH. by apply im_wf_insert.
Qed.
End exec.

(** * Queries on the shell state

    [$RANDOM] (the generator never reaches its fixed point zero), the listing of
    names by prefix and the exported environment. *)

#[local] Arguments reverse : simpl never.

(** ** The xorshift generator *)

Definition is_u32 (x : Z) : Prop := 0 <= x <= U32_MAX.

Lemma is_u32_land x : is_u32 x <-> Z.land x U32_MAX = x.
Proof.
  unfold is_u32, U32_MAX. change (2 ^ 32 - 1) with (Z.ones 32).
  rewrite Z.land_ones by lia. split; [intros; apply Z.mod_small; change (Z.ones 32) with (2 ^ 32 - 1) in *; lia|].
  intros <-. change (Z.ones 32) with (2 ^ 32 - 1). pose proof (Z.mod_pos_bound x (2 ^ 32)). lia.
Qed.

Lemma is_u32_lxor x y : is_u32 x -> is_u32 y -> is_u32 (Z.lxor x y).
Proof.
  rewrite !is_u32_land. intros Hx Hy. apply Z.bits_inj'. intros n Hn.
  apply (f_equal (fun z => Z.testbit z n)) in Hx, Hy.
  rewrite !Z.land_spec, ?Z.lxor_spec in *. by destruct (Z.testbit x n), (Z.testbit y n), (Z.testbit U32_MAX n).
Qed.

Lemma is_u32_shl x k : is_u32 (u32_shl x k).
Proof.
  apply is_u32_land. unfold u32_shl. rewrite <- Z.land_assoc. by rewrite Z.land_diag.
Qed.

Lemma is_u32_shr x k : 0 <= k -> is_u32 x -> is_u32 (Z.shiftr x k).
Proof.
  unfold is_u32. intros Hk [Hx Hm]. rewrite Z.shiftr_div_pow2 by done.
  pose proof (Z.pow_pos_nonneg 2 k). pose proof (Z.div_pos x (2 ^ k)).
  pose proof (Z.div_le_upper_bound x (2 ^ k) x). nia.
Qed.

(** A left shift by a positive amount has no fixed point but zero. *)
Lemma shl_fixpoint x k : 0 < k -> 0 <= x -> x = u32_shl x k -> x = 0.
Proof.
  intros Hk Hx Hfix. apply Z.bits_inj'. intros n Hn. rewrite Z.bits_0. revert Hn.
  induction n as [n IH] using (well_founded_induction (Z.lt_wf 0)). intros Hn.
  rewrite Hfix. unfold u32_shl. rewrite Z.land_spec, Z.shiftl_spec by done.
  destruct (decide (n < k)); [rewrite Z.testbit_neg_r by lia; done|].
  rewrite IH by lia. done.
Qed.

Lemma xorshift_left x k : 0 < k -> is_u32 x -> x <> 0 ->
  is_u32 (Z.lxor x (u32_shl x k)) /\ Z.lxor x (u32_shl x k) <> 0.
Proof.
  intros Hk Hx Hnz. split; [by apply is_u32_lxor, is_u32_shl|].
  intros Heq%Z.lxor_eq. apply Hnz. apply (shl_fixpoint x k); [done|apply Hx|done].
Qed.

Lemma xorshift_right x k : 0 < k -> is_u32 x -> x <> 0 ->
  is_u32 (Z.lxor x (Z.shiftr x k)) /\ Z.lxor x (Z.shiftr x k) <> 0.
Proof.
  intros Hk Hx Hnz. split; [apply is_u32_lxor; [done|]; apply is_u32_shr; [lia|done]|].
  intros Heq%Z.lxor_eq. rewrite Z.shiftr_div_pow2 in Heq by lia.
  pose proof (Z.div_lt x (2 ^ k)). pose proof (Z.pow_gt_1 2 k). destruct Hx. lia.
Qed.

(** [$RANDOM]: from any non-zero 32-bit seed the generator keeps a non-zero
    32-bit seed, so it never gets stuck at zero, and every value it returns is
    below 32768; the variables are not touched. *)
Theorem next_random_sound (st : ShellState) :
  is_u32 (random_seed st) -> random_seed st <> 0 ->
  let '(st', r) := next_random st in
  is_u32 (random_seed st') /\ random_seed st' <> 0 /\ 0 <= r < 32768 /\ env st' = env st.
Proof.
  intros Hu Hnz. unfold next_random, xorshift32; cbn [random_seed set_random_seed env].
  destruct (xorshift_left (random_seed st) 13) as [H1 H2]; [lia|done..|].
  destruct (xorshift_right (Z.lxor (random_seed st) (u32_shl (random_seed st) 13)) 17) as [H3 H4]; [lia|done..|].
  match type of H4 with ?y <> 0 => destruct (xorshift_left y 5) as [H5 H6]; [lia|done..|] end.
  split; [done|]. split; [done|]. split; [|done]. apply Z.mod_pos_bound. lia.
Qed.

(** ** Names by prefix *)

Section names.
Context (prefix : str).

Definition see (seen : list (str * unit)) (name : str) : list (str * unit) :=
  if starts_with prefix name && negb (bool_decide (name ∈ im_keys seen))
  then im_insert name tt seen else seen.

Lemma see_keys seen name :
  im_keys (see seen name) =
    if starts_with prefix name && negb (bool_decide (name ∈ im_keys seen))
    then im_keys seen ++ [name] else im_keys seen.
Proof.
  unfold see. case_match eqn:E; [|done]. bool_to_prop. rewrite im_keys_insert.
  by rewrite decide_False.
Qed.

Lemma see_fold_elem names seen x :
  x ∈ im_keys (foldl see seen names) <->
  x ∈ im_keys seen \/ (x ∈ names /\ starts_with prefix x = true).
Proof.
  revert seen. induction names as [|y names IH]; intros seen; cbn [foldl]; [set_solver|].
  rewrite IH, see_keys, elem_of_cons. destruct (starts_with prefix y) eqn:Hy; cbn.
  - case_bool_decide; cbn; [|rewrite elem_of_app, list_elem_of_singleton]; naive_solver.
  - naive_solver congruence.
Qed.

Lemma see_fold_wf names seen : im_wf seen -> im_wf (foldl see seen names).
Proof.
  revert seen. induction names as [|y names IH]; intros seen Hs; cbn; [done|].
  apply IH. unfold see. case_match; [by apply im_wf_insert|done].
Qed.

Lemma see_scopes_elem ss seen x :
  x ∈ im_keys (foldl (fun seen (s : list (str * ShellVar)) => foldl see seen (im_keys s)) seen ss) <->
  x ∈ im_keys seen \/ (Exists (fun s => x ∈ im_keys s) ss /\ starts_with prefix x = true).
Proof.
  revert seen. induction ss as [|s ss IH]; intros seen; cbn [foldl]; [rewrite Exists_nil; naive_solver|].
  rewrite IH, see_fold_elem, Exists_cons. naive_solver.
Qed.

Lemma see_scopes_wf ss seen :
  im_wf seen ->
  im_wf (foldl (fun seen (s : list (str * ShellVar)) => foldl see seen (im_keys s)) seen ss).
Proof.
  revert seen. induction ss as [|s ss IH]; intros seen Hs; cbn; [done|]. by apply IH, see_fold_wf.
Qed.
End names.

(** [${!prefix*}]: the listing is strictly sorted (so without duplicates)
    and contains exactly the names with the prefix that some scope defines. *)
Theorem var_names_with_prefix_spec (st : ShellState) (prefix : str) :
  Sorted str_le (var_names_with_prefix st prefix) /\ NoDup (var_names_with_prefix st prefix) /\
  forall name, name ∈ var_names_with_prefix st prefix <->
    is_Some (Env.get name (env st)) /\ starts_with prefix name = true.
Proof.
  unfold var_names_with_prefix.
  change (foldl _ [] (reverse (scopes (env st)))) with
    (foldl (fun seen (s : list (str * ShellVar)) => foldl (see prefix) seen (im_keys s)) []
       (reverse (scopes (env st)))).
  set (seen := foldl _ _ _). split; [apply Sorted_merge_sort; apply _|].
  pose proof (merge_sort_Permutation str_le (im_keys seen)) as Hp. split.
  - rewrite Hp. apply see_scopes_wf. apply NoDup_nil_2.
  - intros name. rewrite Hp. unfold seen. rewrite see_scopes_elem. cbn.
    unfold Env.get. rewrite Exists_exists. split.
    + intros [?|[(s & Hs & Hin) ?]]; [set_solver|]. split; [|done].
      destruct (find_map _ _) eqn:Hf; [done|]. rewrite find_map_None in Hf.
      by apply Hf, im_get_None in Hs.
    + intros [[w (s & Hs & Hg)%find_map_Some] ?]. right. split; [|done]. exists s. split; [done|].
      apply im_get_is_Some. eauto.
Qed.

(** ** Exports *)

Lemma export_scope_get s acc k :
  im_wf s ->
  im_get k (Env.export_scope acc s) =
    match im_get k s with
    | Some v => if exported v then Some (as_scalar (value v)) else im_get k acc
    | None => im_get k acc
    end.
Proof.
  unfold Env.export_scope, im_wf. revert acc. induction s as [|[q w] s IH]; intros acc; cbn; [done|].
  intros [Hq Hnd]%NoDup_cons. rewrite IH by done. case_decide as Hk; cbn.
  - subst q. apply im_get_None in Hq. rewrite Hq. cbn.
    destruct (exported w); [apply im_get_insert_eq|done].
  - destruct (im_get k s) as [v|]; [destruct (exported v); [done|]|];
      (destruct (exported w); [by rewrite im_get_insert_ne|done]).
Qed.

(** An exported variable of that name, with the value a child would see. *)
Definition exported_in (k : str) (s : list (list Ascii.ascii * ShellVar)) : option str :=
  v ← im_get k s; if exported v then Some (as_scalar (value v)) else None.

(** The environment passed on holds each name once, with the value of the
    innermost scope that exports it, and no name that no scope exports. *)
Theorem exported_vars_spec (e : ShellEnv) (k : str) :
  env_wf e ->
  im_get k (Env.exported_vars e) = find_map (exported_in k) (reverse (scopes e)) /\
  im_wf (Env.exported_vars e).
Proof.
  intros [_ Hwf]. unfold Env.exported_vars. split.
  - induction (scopes e) as [|s ss IH] using rev_ind; [done|].
    rewrite Forall_app, Forall_singleton in Hwf. destruct Hwf as [Hss Hs].
    rewrite foldl_snoc, reverse_snoc, export_scope_get by done. cbn. rewrite IH by done.
    rewrite (eq_refl : exported_in k s = (v ← im_get k s; if exported v then Some (as_scalar (value v)) else None)).
    destruct (im_get k s) as [v|]; cbn; [|done]. by destruct (exported v).
  - enough (forall acc : list (str * str), im_wf acc -> im_wf (foldl Env.export_scope acc (scopes e))) as Hx
      by (apply Hx, NoDup_nil_2).
    clear. induction (scopes e) as [|s ss IH]; cbn; [done|]. intros acc Hacc. apply IH.
    unfold Env.export_scope. revert acc Hacc. induction s as [|[q w] s IHs]; cbn; [done|].
    intros acc Hacc. apply IHs. cbn. destruct (exported w); auto using im_wf_insert.
Qed.
