(* ===== verification/StateWitness.v ===== *)
(** * Concrete runs of the shell state

    Each theorem about the state at an input that satisfies its hypotheses, and
    the behaviours that show on concrete states. *)

From S2P Require Import Prelude Strings IndexMap State StateProps StateSpec.

#[local] Existing Instance native64.

Definition st0 : ShellState := new_state 7.

(** The state after a sequence of calls, for calls that return. *)
Definition after (ops : list state_op) : ShellState := default st0 (state_exec ops st0).

(** [declare -n name=target]. *)
Definition with_nameref (name target : str) (st : ShellState) : ShellState :=
  set_env (Env.set name {| value := Scalar target; exported := false; readonly := false;
                           integer := false; nameref := true |} (env st)) st.

Lemma im_wf_dec {K V} `{EqDecision K} (m : list (K * V)) : Decision (im_wf m).
Proof. unfold im_wf. apply _. Defined.
#[local] Existing Instance im_wf_dec.

Lemma env_wf_dec e : Decision (env_wf e).
Proof. unfold env_wf. apply _. Defined.
#[local] Existing Instance env_wf_dec.

(** Close a decidable side condition on concrete data. *)
Ltac by_decide := apply (bool_decide_unpack _); vm_compute; exact I.


Lemma assign_read_back_witness :
  exists st', set_var (with_nameref #"r" #"x" st0) #"r" #"hi" = Some st' /\
    get_var 0 st' #"r" = (st', Some #"hi").
Proof.
  destruct (assign_read_back 0 (with_nameref #"r" #"x" st0) #"r" #"x" #"hi") as (st' & H1 & H2 & _);
    [by_decide|by_decide|right; reflexivity|reflexivity|reflexivity|].
  exists st'. split; assumption.
Defined.

Lemma nameref_cycle_diverges_witness :
  set_var_fuel 1000 (with_nameref #"b" #"a" (with_nameref #"a" #"b" st0)) #"a" #"1" = None.
Proof. by apply (nameref_cycle_diverges _ #"a" #"b"). Defined.

Lemma nameref_chain_read_differs_witness :
  exists st', set_var (with_nameref #"b" #"c" (with_nameref #"a" #"b" st0)) #"a" #"1" = Some st' /\
    get_env_var st' #"a" = Some #"c".
Proof.
  apply (nameref_chain_read_differs _ #"a" #"b" #"c"); [by_decide|reflexivity..|by_decide].
Defined.

Lemma scalar_assign_drops_array_witness :
  exists st', set_var (after [OAppend #"a" [ #"x"; #"y"; #"z" ]]) #"a" #"w" = Some st' /\
    get_array_values st' #"a" = [ #"w" ].
Proof.
  eapply (scalar_assign_drops_array (after [OAppend #"a" [ #"x"; #"y"; #"z" ]]) #"a" #"w");
    [by_decide|reflexivity..].
Defined.

Lemma subshell_isolated_witness :
  env (after [OSetVar #"x" #"1"; OPush; OSetVar #"x" #"2"; OPush; OUnset #"x"; OPop; OPop]) =
  env (after [OSetVar #"x" #"1"]).
Proof.
  apply (subshell_isolated [OSetVar #"x" #"2"; OPush; OUnset #"x"; OPop] (after [OSetVar #"x" #"1"]));
    [by_decide|by_decide|reflexivity|reflexivity].
Defined.

Lemma subshell_array_escapes_witness :
  exists st', state_exec [OPush; OSetElem #"a" #"0" #"9"; OPop] (after [OAppend #"a" [ #"1" ]]) = Some st' /\
    get_array_element st' #"a" #"0" = Some #"9".
Proof.
  eapply (subshell_array_escapes (after [OAppend #"a" [ #"1" ]]) #"a" #"0" #"9");
    [by_decide|reflexivity..].
Defined.

Lemma inner_unset_ineffective_witness :
  let st1 := set_env (Env.push_scope (env (after [OSetVar #"x" #"1"]))) (after [OSetVar #"x" #"1"]) in
  exists st2, unset_var st1 #"x" = (st2, inl tt) /\
    Env.get #"x" (env st2) = Env.get #"x" (env (after [OSetVar #"x" #"1"])).
Proof. apply (inner_unset_ineffective (after [OSetVar #"x" #"1"])); [by_decide|reflexivity]. Defined.

Lemma shell_error_channel_witness :
  exists st', take_shell_error (set_shell_error_inner st0 #"x: unbound" true) =
      (st', Some (true, #"x: unbound")) /\ take_shell_error st' = (st', None).
Proof.
  destruct (shell_error_channel st0 #"x: unbound" true) as (st' & H1 & H2);
    [by_decide|left; reflexivity|].
  exists st'. split; [exact H1|]. apply H2. reflexivity.
Defined.

Lemma outer_error_not_cleared_witness :
  let st1 := set_env (Env.push_scope (env (set_nounset_error st0 #"X"))) st0 in
  snd (take_nounset_error (Nat.iter 3 (fun s => fst (take_nounset_error s)) st1)) = Some #"X".
Proof. apply (outer_error_not_cleared st0 #"X" 3); [by_decide|by_decide]. Defined.

Lemma append_array_spec_witness :
  append_to_indexed_array [(5, #"a"); (2, #"b")] [ #"c"; #"d" ] =
    [(5, #"a"); (2, #"b"); (6, #"c"); (7, #"d")].
Proof.
  destruct (append_array_spec [(5, #"a"); (2, #"b")] [ #"c"; #"d" ]) as [H _]; [|exact H].
  split; [|by_decide]. by_decide.
Defined.

(** [arr[18446744073709551615]=x; arr+=(y)]: in a release build the next index
    wraps to zero, and the appended value overwrites element 0. *)
Theorem append_index_wraps :
  let st := after [OSetElem #"a" #"0" #"first"; OSetElem #"a" #"18446744073709551615" #"x";
                   OAppend #"a" [ #"y" ]] in
  get_array_element st #"a" #"0" = Some #"y" /\ get_array_length st #"a" = 2.
Proof. vm_compute. auto. Qed.

Lemma state_reachable_wf_witness : env_wf (env (after [OSetVar #"x" #"1"; OPush; OPop; OPop])).
Proof. apply (state_reachable_wf 7 [OSetVar #"x" #"1"; OPush; OPop; OPop]). reflexivity. Defined.

Lemma next_random_sound_witness :
  let '(st', r) := next_random st0 in
  is_u32 (random_seed st') /\ random_seed st' <> 0 /\ 0 <= r < 32768 /\ env st' = env st0.
Proof. apply (next_random_sound st0); [by_decide|by_decide]. Defined.

Lemma exported_vars_spec_witness :
  im_get #"PATH" (Env.exported_vars (env (after [OSetVar #"SHOPT_a" #"1"; OSetVar #"PATH" #"/bin"]))) =
    Some #"/bin".
Proof.
  destruct (exported_vars_spec (env (after [OSetVar #"SHOPT_a" #"1"; OSetVar #"PATH" #"/bin"])) #"PATH") as [H _];
    [by_decide|]. rewrite H. reflexivity.
Defined.
