(* ===== verification/Pipe.v ===== *)
(** * Pipe buffers (crates/wasmsh-vm/src/pipe.rs)

    The bounded byte queue between two pipeline stages.  Theorems: over any
    sequence of calls the bytes delivered followed by the bytes still buffered
    are exactly the bytes accepted, in order; the buffer stays within its bound;
    reads and writes make progress whenever there is data or space. *)

From S2P Require Import Prelude.

Record PipeBuffer := {
  data : list Ascii.ascii;
  capacity : Z;
  write_closed : bool;
  read_closed : bool;
}.

Inductive WriteResult := Written (n : Z) | WriteWouldBlock (n : Z) | BrokenPipe.
Inductive ReadResult := Read (n : Z) | ReadWouldBlock | Eof.

Module Pipe.

Definition new (capacity : Z) : PipeBuffer :=
  {| data := []; capacity := capacity; write_closed := false; read_closed := false |}.

Definition default_size : PipeBuffer := new (64 * 1024).

Definition set_data (d : str) (p : PipeBuffer) : PipeBuffer :=
  {| data := d; capacity := capacity p; write_closed := write_closed p; read_closed := read_closed p |}.

Definition write (buf : str) (p : PipeBuffer) : PipeBuffer * WriteResult :=
  if read_closed p then (p, BrokenPipe)
  else match buf with
  | [] => (p, Written 0)
  | _ =>
      let available := sat_sub (capacity p) (len (data p)) in
      if available =? 0 then (p, WriteWouldBlock 0)
      else
        let to_write := Z.min (len buf) available in
        let p' := set_data (data p ++ take (Z.to_nat to_write) buf) p in
        if to_write <? len buf then (p', WriteWouldBlock to_write) else (p', Written to_write)
  end.

Definition MAX_PIPE_TOTAL : Z := 64 * 1024 * 1024.

Definition write_all (buf : str) (p : PipeBuffer) : PipeBuffer :=
  let remaining := sat_sub MAX_PIPE_TOTAL (len (data p)) in
  let to_write := Z.min (len buf) remaining in
  set_data (data p ++ take (Z.to_nat to_write) buf) p.

Definition read_all (p : PipeBuffer) : ReadResult :=
  match data p with
  | [] => if write_closed p then Eof else ReadWouldBlock
  | _ => Read (len (data p))
  end.

(** The loop of [read]: fill [n] slots from the front; [None] is the panic of
    the [expect]. *)
Fixpoint pop_slots (n : nat) (d : str) : option (str * str) :=
  match n with
  | O => Some ([], d)
  | S n' => match d with
            | [] => None
            | b :: d' => '(got, rest) ← pop_slots n' d'; Some (b :: got, rest)
            end
  end.

(** [read]: the pipe, the caller's buffer afterwards, and the result. *)
Definition read (buf : str) (p : PipeBuffer) : option (PipeBuffer * list Ascii.ascii * ReadResult) :=
  match buf with
  | [] => Some (p, buf, Read 0)
  | _ =>
      match data p with
      | [] => Some (p, buf, if write_closed p then Eof else ReadWouldBlock)
      | _ =>
          let to_read := Z.min (len buf) (len (data p)) in
          '(got, rest) ← pop_slots (Z.to_nat to_read) (data p);
          Some (set_data rest p, got ++ drop (Z.to_nat to_read) buf, Read to_read)
      end
  end.

Definition drain (p : PipeBuffer) : PipeBuffer * list Ascii.ascii := (set_data [] p, data p).

Definition close_write (p : PipeBuffer) : PipeBuffer :=
  {| data := data p; capacity := capacity p; write_closed := true; read_closed := read_closed p |}.

Definition close_read (p : PipeBuffer) : PipeBuffer :=
  {| data := data p; capacity := capacity p; write_closed := write_closed p; read_closed := true |}.

Definition has_data (p : PipeBuffer) : bool := match data p with [] => false | _ => true end.
Definition has_space (p : PipeBuffer) : bool := len (data p) <? capacity p.

(** ** One call *)

Lemma pop_slots_spec n d : (n <= length d)%nat -> pop_slots n d = Some (take n d, drop n d).
Proof.
  revert d. induction n as [|n IH]; intros [|b d]; cbn; try done; [lia|]. intros.
  by rewrite IH by lia.
Qed.

(** Calls with what they exchange: the bytes a call accepts and delivers. *)
Inductive pipe_op := PWrite (buf : list Ascii.ascii) | PWriteAll (buf : list Ascii.ascii)
  | PRead (buf : list Ascii.ascii) | PReadAll | PDrain | PCloseWrite | PCloseRead.

Record outcome := { pipe : PipeBuffer; accepted : list Ascii.ascii; delivered : list Ascii.ascii }.

Definition written (r : WriteResult) : Z :=
  match r with Written n | WriteWouldBlock n => n | BrokenPipe => 0 end.

(** [None] when the call panics. *)
Definition step (op : pipe_op) (p : PipeBuffer) : option outcome :=
  match op with
  | PWrite buf => let '(p', r) := write buf p in
      Some {| pipe := p'; accepted := take (Z.to_nat (written r)) buf; delivered := [] |}
  | PWriteAll buf => let p' := write_all buf p in
      Some {| pipe := p'; accepted := drop (length (data p)) (data p'); delivered := [] |}
  | PRead buf => '(p', buf', r) ← read buf p;
      Some {| pipe := p'; accepted := [];
              delivered := match r with Read n => take (Z.to_nat n) buf' | _ => [] end |}
  | PReadAll => Some {| pipe := p; accepted := []; delivered := [] |}
  | PDrain => let '(p', d) := drain p in Some {| pipe := p'; accepted := []; delivered := d |}
  | PCloseWrite => Some {| pipe := close_write p; accepted := []; delivered := [] |}
  | PCloseRead => Some {| pipe := close_read p; accepted := []; delivered := [] |}
  end.

Fixpoint run (ops : list pipe_op) (p : PipeBuffer) : option outcome :=
  match ops with
  | [] => Some {| pipe := p; accepted := []; delivered := [] |}
  | op :: ops' =>
      o ← step op p; o' ← run ops' (pipe o);
      Some {| pipe := pipe o'; accepted := accepted o ++ accepted o';
              delivered := delivered o ++ delivered o' |}
  end.

(** The size no call takes the buffer beyond. *)
Definition bound (p : PipeBuffer) : Z := Z.max (capacity p) MAX_PIPE_TOTAL.

Lemma write_spec buf p :
  let '(p', r) := write buf p in
  data p' = data p ++ take (Z.to_nat (written r)) buf /\ capacity p' = capacity p /\
  (len (data p') <= Z.max (capacity p) (len (data p))) /\
  (read_closed p = true -> r = BrokenPipe).
Proof.
  unfold write, sat_sub. destruct (read_closed p); [cbn; rewrite app_nil_r; repeat split; lia|].
  destruct buf as [|b buf]; [cbn; rewrite app_nil_r; repeat split; [lia|done]|].
  set (bb := b :: buf). pose proof (len_nonneg (data p)).
  case_split; bool_to_prop; [cbn; rewrite app_nil_r; repeat split; [lia|done]|].
  assert (Hl : len (data p ++ take (Z.to_nat (Z.min (len bb) (Z.max 0 (capacity p - len (data p))))) bb)
                <= Z.max (capacity p) (len (data p))).
  { rewrite len_app. unfold len in *. rewrite length_take. lia. }
  case_split; cbn [data capacity set_data written]; repeat split; done.
Qed.

Lemma write_all_spec buf p :
  exists k, data (write_all buf p) = data p ++ take k buf /\
    capacity (write_all buf p) = capacity p /\
    len (data (write_all buf p)) <= Z.max MAX_PIPE_TOTAL (len (data p)).
Proof.
  unfold write_all, sat_sub. eexists. split; [reflexivity|]. split; [done|]. cbn [data set_data].
  rewrite len_app. unfold len. rewrite length_take. lia.
Qed.

(** A read never panics and takes a prefix of the buffered bytes. *)
Lemma read_spec buf p :
  exists p' buf' r, read buf p = Some (p', buf', r) /\ length buf' = length buf /\
    capacity p' = capacity p /\
    match r with
    | Read n => 0 <= n /\ data p = take (Z.to_nat n) buf' ++ data p' /\
                n = Z.min (len buf) (len (data p))
    | ReadWouldBlock => p' = p /\ data p = [] /\ write_closed p = false
    | Eof => p' = p /\ data p = [] /\ write_closed p = true
    end.
Proof.
  unfold read. destruct buf as [|b buf].
  { exists p, [], (Read 0). pose proof (len_nonneg (data p)). repeat split; [lia|].
    unfold len in *. cbn [length]. lia. }
  set (bb := b :: buf). destruct (data p) as [|c d] eqn:Hd.
  { exists p, bb, (if write_closed p then Eof else ReadWouldBlock).
    by destruct (write_closed p) eqn:Hw. }
  rewrite <- Hd. pose proof (len_nonneg (data p)). pose proof (len_nonneg bb).
  set (n := Z.min (len bb) (len (data p))).
  assert (Hn : (Z.to_nat n <= length (data p))%nat /\ (Z.to_nat n <= length bb)%nat)
    by (unfold n, len in *; lia).
  rewrite pop_slots_spec by lia. cbn [mbind option_bind].
  exists (set_data (drop (Z.to_nat n) (data p)) p), (take (Z.to_nat n) (data p) ++ drop (Z.to_nat n) bb), (Read n).
  split; [done|]. split; [rewrite length_app, length_take, length_drop; lia|].
  split; [done|]. split; [lia|]. split; [|done]. cbn [data set_data].
  rewrite take_app_length'; [by rewrite take_drop|]. rewrite length_take. lia.
Qed.

Lemma step_spec op p :
  exists o, step op p = Some o /\
    delivered o ++ data (pipe o) = data p ++ accepted o /\
    capacity (pipe o) = capacity p /\
    len (data (pipe o)) <= Z.max (bound p) (len (data p)).
Proof.
  unfold bound. destruct op as [buf|buf|buf| | | |]; cbn [step].
  - pose proof (write_spec buf p) as Hw. destruct (write buf p) as [p' r].
    destruct Hw as (Hd & Hc & Hl & _). eexists. split; [reflexivity|].
    cbn [pipe accepted delivered app]. split; [done|]. split; [done|lia].
  - destruct (write_all_spec buf p) as (k & Hd & Hc & Hl). eexists. split; [reflexivity|].
    cbn [pipe accepted delivered app]. rewrite Hd at 2. rewrite drop_app_length.
    split; [done|]. split; [done|lia].
  - destruct (read_spec buf p) as (p' & buf' & r & -> & Hlen & Hc & Hr). cbn [mbind option_bind].
    eexists. split; [reflexivity|]. cbn [pipe accepted delivered]. rewrite app_nil_r.
    destruct r as [n| |]; [|destruct Hr as (-> & _)..]; [|repeat split; lia..].
    destruct Hr as (? & Hd & _). split; [done|]. split; [done|]. rewrite Hd.
    rewrite len_app. pose proof (len_nonneg (take (Z.to_nat n) buf')). lia.
  - eexists. split; [reflexivity|]. cbn. rewrite app_nil_r. repeat split; lia.
  - eexists. split; [reflexivity|]. cbn. rewrite !app_nil_r. repeat split.
    pose proof (len_nonneg (data p)). unfold len in *; cbn [length]; lia.
  - eexists. split; [reflexivity|]. cbn. rewrite app_nil_r. repeat split; lia.
  - eexists. split; [reflexivity|]. cbn. rewrite app_nil_r. repeat split; lia.
Qed.

Lemma run_spec ops p :
  exists o, run ops p = Some o /\
    delivered o ++ data (pipe o) = data p ++ accepted o /\
    capacity (pipe o) = capacity p /\
    len (data (pipe o)) <= Z.max (bound p) (len (data p)).
Proof.
  revert p. induction ops as [|op ops IH]; intros p; cbn [run].
  { eexists. split; [reflexivity|]. cbn. rewrite app_nil_r. repeat split. lia. }
  destruct (step_spec op p) as (o & -> & Hd & Hc & Hl).
  destruct (IH (pipe o)) as (o' & Hr & Hd' & Hc' & Hl'). cbn [mbind option_bind]. rewrite Hr.
  eexists. split; [reflexivity|]. cbn [pipe accepted delivered].
  split; [|split; [congruence|]].
  - by rewrite <- app_assoc, Hd', app_assoc, Hd, app_assoc.
  - unfold bound in *. rewrite Hc in Hl'. lia.
Qed.

(** C37: A pipe is a faithful FIFO: whatever reads, writes, drains and closes
    happen in whatever order, no call panics, what was delivered followed by
    what is still buffered is exactly what was accepted, in order, and the
    buffer never exceeds the larger of its capacity and the 64 MiB cap. *)
Theorem pipe_fifo (cap : Z) (ops : list pipe_op) :
  exists o, run ops (new cap) = Some o /\
    delivered o ++ data (pipe o) = accepted o /\
    len (data (pipe o)) <= Z.max cap MAX_PIPE_TOTAL.
Proof.
  destruct (run_spec ops (new cap)) as (o & Hr & Hd & _ & Hl). exists o. split; [done|].
  split; [done|]. assert (0 <= MAX_PIPE_TOTAL) by done.
  change (len (data (new cap))) with 0 in Hl. change (bound (new cap)) with (Z.max cap MAX_PIPE_TOTAL) in Hl. lia.
Qed.

(** Progress and end of stream: a write into a pipe with space accepts at
    least one byte, a read from a pipe with data delivers at least one, a read
    reports end of stream exactly on an empty pipe whose writer has closed, and
    a write after the reader closed is a broken pipe that changes nothing. *)
Theorem pipe_progress (p : PipeBuffer) (buf : list Ascii.ascii) :
  buf <> [] ->
  (read_closed p = false -> has_space p = true ->
     exists p' r, write buf p = (p', r) /\ 0 < written r <= len buf) /\
  (has_data p = true -> exists p' buf' n, read buf p = Some (p', buf', Read n) /\ 0 < n) /\
  ((exists p' buf', read buf p = Some (p', buf', Eof)) <-> has_data p = false /\ write_closed p = true) /\
  (read_closed p = true -> write buf p = (p, BrokenPipe)).
Proof.
  intros Hb. assert (Hlb : 0 < len buf) by (destruct buf; [done|]; rewrite len_cons; pose proof (len_nonneg buf); lia).
  pose proof (len_nonneg (data p)) as Hlp. split; [|split; [|split]].
  - intros Hr Hs. unfold has_space in Hs. bool_to_prop. unfold write, sat_sub. rewrite Hr.
    destruct buf as [|b buf]; [done|]. rewrite (proj2 (Z.eqb_neq _ 0)) by lia.
    case_split; do 2 eexists; (split; [reflexivity|]); cbn [written]; lia.
  - intros Hd. unfold has_data in Hd. destruct (read_spec buf p) as (p' & buf' & r & Hr & _ & _ & Hc).
    exists p', buf'. assert (data p <> []) by (by destruct (data p)).
    destruct r as [n| |]; [|by destruct Hc as (_ & ? & _)..].
    exists n. split; [done|]. destruct Hc as (_ & _ & ->).
    destruct (data p) as [|c d]; [done|]. rewrite len_cons in *. pose proof (len_nonneg d). lia.
  - unfold has_data. destruct (read_spec buf p) as (p' & buf' & r & Hr & _ & _ & Hc).
    split.
    + intros (q & qb & Hq). rewrite Hq in Hr. simplify_eq. destruct Hc as (_ & -> & ->). done.
    + intros [Hd Hw]. exists p', buf'. rewrite Hr. destruct (data p) eqn:E; [|done].
      destruct r as [n| |]; [|naive_solver congruence|done].
      exfalso. unfold read in Hr. destruct buf; [done|]. rewrite E in Hr. simplify_eq. by rewrite Hw in *.
  - intros Hr. unfold write. by rewrite Hr.
Qed.

Lemma pipe_progress_witness :
  exists p' r, write (lit "abc") (new 2) = (p', r) /\ 0 < written r <= len (lit "abc").
Proof. apply (pipe_progress (new 2) (lit "abc")); [done|reflexivity|reflexivity]. Defined.
End Pipe.
