(* ===== verification/Ast.v ===== *)
(** * Abstract syntax (crates/wasmsh-ast/src/lib.rs)

    The types of the parser's output.  A Rust enum variant that wraps a struct
    is one constructor with the struct's fields, in the struct's order; the
    types that contain commands are one mutual inductive family.  [Param] is
    `WordPart::Parameter`. *)

From S2P Require Import Prelude.

Record Span := { span_start : Z; span_end : Z }.

Inductive AndOrOp := And | Or.

Inductive CaseTerminator := Break | Fallthrough | ContinueTesting.

Inductive WordPart :=
  | Literal (s : str)
  | SingleQuoted (s : str)
  | DoubleQuoted (parts : list WordPart)
  | Param (s : str)
  | CommandSubstitution (s : str)
  | Arithmetic (s : str)
  | ProcessSubstIn (s : str)
  | ProcessSubstOut (s : str).

Record Word := { parts : list WordPart; word_span : Span }.

Inductive RedirectionOp :=
  | Input | Output | Append | Clobber | AppendBoth | ReadWrite
  | HereDoc | HereDocStrip | HereString | DupOutput | DupInput.

Record HereDocBody := { content : str; expand : bool; here_doc_span : Span }.

Record Redirection := {
  redir_fd : option Z;
  redir_op : RedirectionOp;
  redir_target : Word;
  redir_here_doc_body : option HereDocBody;
  redir_span : Span;
}.

Record Assignment := { asg_name : str; asg_value : option Word; asg_span : Span }.

Record SimpleCommand := {
  sc_assignments : list Assignment;
  sc_words : list Word;
  sc_redirections : list Redirection;
  sc_span : Span;
}.

Inductive Command :=
  | Simple (sc : SimpleCommand)
  | Subshell (body : list CompleteCommand) (redirections : list Redirection) (span : Span)
  | Group (body : list CompleteCommand) (redirections : list Redirection) (span : Span)
  | If (condition then_body : list CompleteCommand) (elifs : list ElifClause)
      (else_body : option (list CompleteCommand)) (redirections : list Redirection) (span : Span)
  | While (condition body : list CompleteCommand) (redirections : list Redirection) (span : Span)
  | Until (condition body : list CompleteCommand) (redirections : list Redirection) (span : Span)
  | For (var_name : str) (words : option (list Word)) (body : list CompleteCommand)
      (redirections : list Redirection) (span : Span)
  | ArithFor (init cond step : str) (body : list CompleteCommand)
      (redirections : list Redirection) (span : Span)
  | FunctionDef (name : str) (body : Command) (span : Span)
  | Case (word : Word) (items : list CaseItem) (redirections : list Redirection) (span : Span)
  | DoubleBracket (words : list Word) (span : Span)
  | ArithCommand (expr : str) (span : Span)
  | Select (var_name : str) (words : option (list Word)) (body : list CompleteCommand)
      (redirections : list Redirection) (span : Span)
with ElifClause :=
  | mkElif (condition then_body : list CompleteCommand)
with CaseItem :=
  | mkCaseItem (patterns : list Word) (body : list CompleteCommand) (terminator : CaseTerminator)
with CompleteCommand :=
  | mkCompleteCommand (list : list AndOrList) (span : Span)
with AndOrList :=
  | mkAndOrList (first : Pipeline) (rest : list (AndOrOp * Pipeline))
with Pipeline :=
  | mkPipeline (timed time_posix negated : bool) (commands : list Command) (pipe_stderr : list bool).

Record Program := { commands : list CompleteCommand }.
