(* ===== verification/Hir.v ===== *)
(** * HIR and lowering (crates/wasmsh-hir/src/lib.rs, lower.rs)

    The normalised command tree the runtime executes and the lowering from the
    abstract syntax.  [raise] goes back; the theorems say that lowering is a
    bijection onto the HIR trees in normal form: nothing of a program is lost
    or changed but the classification of simple commands. *)

From S2P Require Import Prelude Ast.

Inductive HirAndOrOp := HAnd | HOr.

Record HirAssignment := { ha_name : str; ha_value : option Word; ha_span : Span }.

Record HirRedirection := {
  hr_fd : option Z;
  hr_op : RedirectionOp;
  hr_target : Word;
  hr_here_doc_body : option HereDocBody;
  hr_span : Span;
}.

Inductive HirCommand :=
  | HExec (argv : list Word) (env : list HirAssignment) (redirections : list HirRedirection) (span : Span)
  | HAssign (assignments : list HirAssignment) (redirections : list HirRedirection) (span : Span)
  | HRedirectOnly (redirections : list HirRedirection) (span : Span)
  | HIf (condition then_body : list HirCompleteCommand) (elifs : list HirElif)
      (else_body : option (list HirCompleteCommand)) (redirections : list HirRedirection) (span : Span)
  | HWhile (condition body : list HirCompleteCommand) (redirections : list HirRedirection) (span : Span)
  | HUntil (condition body : list HirCompleteCommand) (redirections : list HirRedirection) (span : Span)
  | HFor (var_name : str) (words : option (list Word)) (body : list HirCompleteCommand)
      (redirections : list HirRedirection) (span : Span)
  | HSubshell (body : list HirCompleteCommand) (redirections : list HirRedirection) (span : Span)
  | HGroup (body : list HirCompleteCommand) (redirections : list HirRedirection) (span : Span)
  | HFunctionDef (name : str) (body : HirCommand) (span : Span)
  | HCase (word : Word) (items : list HirCaseItem) (redirections : list HirRedirection) (span : Span)
  | HDoubleBracket (words : list Word) (span : Span)
  | HArithFor (init cond step : str) (body : list HirCompleteCommand)
      (redirections : list HirRedirection) (span : Span)
  | HArithCommand (expr : str) (span : Span)
  | HSelect (var_name : str) (words : option (list Word)) (body : list HirCompleteCommand)
      (redirections : list HirRedirection) (span : Span)
with HirElif :=
  | mkHirElif (condition then_body : list HirCompleteCommand)
with HirCaseItem :=
  | mkHirCaseItem (patterns : list Word) (body : list HirCompleteCommand) (terminator : CaseTerminator)
with HirCompleteCommand :=
  | mkHirCompleteCommand (list : list HirAndOr) (span : Span)
with HirAndOr :=
  | mkHirAndOr (first : HirPipeline) (rest : list (HirAndOrOp * HirPipeline))
with HirPipeline :=
  | mkHirPipeline (timed time_posix negated : bool) (commands : list HirCommand) (pipe_stderr : list bool).

Record HirProgram := { items : list HirCompleteCommand }.

(** ** Lowering *)

Definition lower_and_or_op (op : AndOrOp) : HirAndOrOp :=
  match op with Or => HOr | _ => HAnd end.

Definition lower_assignment (a : Assignment) : HirAssignment :=
  {| ha_name := asg_name a; ha_value := asg_value a; ha_span := asg_span a |}.

Definition lower_redirection (r : Redirection) : HirRedirection :=
  {| hr_fd := redir_fd r; hr_op := redir_op r; hr_target := redir_target r;
     hr_here_doc_body := redir_here_doc_body r; hr_span := redir_span r |}.

Definition lower_simple_command (sc : SimpleCommand) : HirCommand :=
  let assignments := map lower_assignment (sc_assignments sc) in
  let redirections := map lower_redirection (sc_redirections sc) in
  match sc_words sc, assignments with
  | _ :: _, _ => HExec (sc_words sc) assignments redirections (sc_span sc)
  | [], _ :: _ => HAssign assignments redirections (sc_span sc)
  | [], [] => HRedirectOnly redirections (sc_span sc)
  end.

Fixpoint lower_command (cmd : Command) : HirCommand :=
  match cmd with
  | Simple sc => lower_simple_command sc
  | Subshell body rs sp => HSubshell (map lower_complete_command body) (map lower_redirection rs) sp
  | Group body rs sp => HGroup (map lower_complete_command body) (map lower_redirection rs) sp
  | If cond th elifs els rs sp =>
      HIf (map lower_complete_command cond) (map lower_complete_command th)
        (map lower_elif elifs)
        (match els with Some b => Some (map lower_complete_command b) | None => None end)
        (map lower_redirection rs) sp
  | While cond body rs sp =>
      HWhile (map lower_complete_command cond) (map lower_complete_command body) (map lower_redirection rs) sp
  | Until cond body rs sp =>
      HUntil (map lower_complete_command cond) (map lower_complete_command body) (map lower_redirection rs) sp
  | For v ws body rs sp => HFor v ws (map lower_complete_command body) (map lower_redirection rs) sp
  | FunctionDef name body sp => HFunctionDef name (lower_command body) sp
  | Case w items rs sp => HCase w (map lower_case_item items) (map lower_redirection rs) sp
  | DoubleBracket ws sp => HDoubleBracket ws sp
  | ArithFor i c s body rs sp =>
      HArithFor i c s (map lower_complete_command body) (map lower_redirection rs) sp
  | ArithCommand e sp => HArithCommand e sp
  | Select v ws body rs sp => HSelect v ws (map lower_complete_command body) (map lower_redirection rs) sp
  end
with lower_elif (e : ElifClause) : HirElif :=
  match e with
  | mkElif cond th => mkHirElif (map lower_complete_command cond) (map lower_complete_command th)
  end
with lower_case_item (i : CaseItem) : HirCaseItem :=
  match i with
  | mkCaseItem ps body t => mkHirCaseItem ps (map lower_complete_command body) t
  end
with lower_complete_command (cc : CompleteCommand) : HirCompleteCommand :=
  match cc with
  | mkCompleteCommand l sp => mkHirCompleteCommand (map lower_and_or l) sp
  end
with lower_and_or (ao : AndOrList) : HirAndOr :=
  match ao with
  | mkAndOrList first rest =>
      mkHirAndOr (lower_pipeline first)
        (map (fun op_p => (lower_and_or_op (fst op_p), lower_pipeline (snd op_p))) rest)
  end
with lower_pipeline (p : Pipeline) : HirPipeline :=
  match p with
  | mkPipeline t tp n cmds pe => mkHirPipeline t tp n (map lower_command cmds) pe
  end.

Definition lower_body (cs : list CompleteCommand) : list HirCompleteCommand :=
  map lower_complete_command cs.

Definition lower (program : Program) : HirProgram :=
  {| items := map lower_complete_command (commands program) |}.

(** ** The way back *)

Definition raise_and_or_op (op : HirAndOrOp) : AndOrOp :=
  match op with HAnd => And | HOr => Or end.

Definition raise_assignment (a : HirAssignment) : Assignment :=
  {| asg_name := ha_name a; asg_value := ha_value a; asg_span := ha_span a |}.

Definition raise_redirection (r : HirRedirection) : Redirection :=
  {| redir_fd := hr_fd r; redir_op := hr_op r; redir_target := hr_target r;
     redir_here_doc_body := hr_here_doc_body r; redir_span := hr_span r |}.

Definition raise_simple (asgs : list HirAssignment) (ws : list Word) (rs : list HirRedirection) (sp : Span) : Command :=
  Simple {| sc_assignments := map raise_assignment asgs; sc_words := ws;
            sc_redirections := map raise_redirection rs; sc_span := sp |}.

Fixpoint raise_command (cmd : HirCommand) : Command :=
  match cmd with
  | HExec argv env rs sp => raise_simple env argv rs sp
  | HAssign asgs rs sp => raise_simple asgs [] rs sp
  | HRedirectOnly rs sp => raise_simple [] [] rs sp
  | HIf cond th elifs els rs sp =>
      If (map raise_complete_command cond) (map raise_complete_command th) (map raise_elif elifs)
        (match els with Some b => Some (map raise_complete_command b) | None => None end)
        (map raise_redirection rs) sp
  | HWhile cond body rs sp =>
      While (map raise_complete_command cond) (map raise_complete_command body) (map raise_redirection rs) sp
  | HUntil cond body rs sp =>
      Until (map raise_complete_command cond) (map raise_complete_command body) (map raise_redirection rs) sp
  | HFor v ws body rs sp => For v ws (map raise_complete_command body) (map raise_redirection rs) sp
  | HSubshell body rs sp => Subshell (map raise_complete_command body) (map raise_redirection rs) sp
  | HGroup body rs sp => Group (map raise_complete_command body) (map raise_redirection rs) sp
  | HFunctionDef name body sp => FunctionDef name (raise_command body) sp
  | HCase w items rs sp => Case w (map raise_case_item items) (map raise_redirection rs) sp
  | HDoubleBracket ws sp => DoubleBracket ws sp
  | HArithFor i c s body rs sp =>
      ArithFor i c s (map raise_complete_command body) (map raise_redirection rs) sp
  | HArithCommand e sp => ArithCommand e sp
  | HSelect v ws body rs sp => Select v ws (map raise_complete_command body) (map raise_redirection rs) sp
  end
with raise_elif (e : HirElif) : ElifClause :=
  match e with
  | mkHirElif cond th => mkElif (map raise_complete_command cond) (map raise_complete_command th)
  end
with raise_case_item (i : HirCaseItem) : CaseItem :=
  match i with
  | mkHirCaseItem ps body t => mkCaseItem ps (map raise_complete_command body) t
  end
with raise_complete_command (cc : HirCompleteCommand) : CompleteCommand :=
  match cc with
  | mkHirCompleteCommand l sp => mkCompleteCommand (map raise_and_or l) sp
  end
with raise_and_or (ao : HirAndOr) : AndOrList :=
  match ao with
  | mkHirAndOr first rest =>
      mkAndOrList (raise_pipeline first)
        (map (fun op_p => (raise_and_or_op (fst op_p), raise_pipeline (snd op_p))) rest)
  end
with raise_pipeline (p : HirPipeline) : Pipeline :=
  match p with
  | mkHirPipeline t tp n cmds pe => mkPipeline t tp n (map raise_command cmds) pe
  end.

Definition raise (program : HirProgram) : Program :=
  {| commands := map raise_complete_command (items program) |}.

(** Normal form: the classification of simple commands is the one their parts
    call for. *)
Fixpoint normal_command (cmd : HirCommand) : bool :=
  match cmd with
  | HExec argv _ _ _ => match argv with [] => false | _ => true end
  | HAssign asgs _ _ => match asgs with [] => false | _ => true end
  | HRedirectOnly _ _ | HDoubleBracket _ _ | HArithCommand _ _ => true
  | HIf cond th elifs els _ _ =>
      forallb normal_complete_command cond && forallb normal_complete_command th
      && forallb normal_elif elifs
      && match els with Some b => forallb normal_complete_command b | None => true end
  | HWhile cond body _ _ | HUntil cond body _ _ =>
      forallb normal_complete_command cond && forallb normal_complete_command body
  | HFor _ _ body _ _ | HSubshell body _ _ | HGroup body _ _ | HArithFor _ _ _ body _ _
  | HSelect _ _ body _ _ => forallb normal_complete_command body
  | HFunctionDef _ body _ => normal_command body
  | HCase _ items _ _ => forallb normal_case_item items
  end
with normal_elif (e : HirElif) : bool :=
  match e with
  | mkHirElif cond th => forallb normal_complete_command cond && forallb normal_complete_command th
  end
with normal_case_item (i : HirCaseItem) : bool :=
  match i with mkHirCaseItem _ body _ => forallb normal_complete_command body end
with normal_complete_command (cc : HirCompleteCommand) : bool :=
  match cc with mkHirCompleteCommand l _ => forallb normal_and_or l end
with normal_and_or (ao : HirAndOr) : bool :=
  match ao with
  | mkHirAndOr first rest => normal_pipeline first && forallb (fun op_p => normal_pipeline (snd op_p)) rest
  end
with normal_pipeline (p : HirPipeline) : bool :=
  match p with mkHirPipeline _ _ _ cmds _ => forallb normal_command cmds end.

Definition normal (program : HirProgram) : bool := forallb normal_complete_command (items program).

(** ** Nested induction *)

(** Lift a fact about the elements to the list; transparent, so that it can be
    applied to the recursive calls of a nested induction. *)
Definition map_cancel {A B} (f : A -> B) (g : B -> A) (H : forall x, g (f x) = x) :
    forall l, map g (map f l) = l :=
  fix go l := match l with
              | [] => eq_refl
              | x :: l' => f_equal2 cons (H x) (go l')
              end.

Definition map_cancel_if {A B} (f : A -> B) (g : B -> A) (ok : A -> bool)
    (H : forall x, ok x = true -> g (f x) = x) :
    forall l, forallb ok l = true -> map g (map f l) = l :=
  fix go l := match l with
              | [] => fun _ => eq_refl
              | x :: l' => fun Hl =>
                  let Hx := proj1 (andb_true_iff (ok x) (forallb ok l')) Hl in
                  f_equal2 cons (H x (proj1 Hx)) (go l' (proj2 Hx))
              end.

Definition forallb_map_rec {A B} (f : A -> B) (ok : B -> bool) (H : forall x, ok (f x) = true) :
    forall l, forallb ok (map f l) = true :=
  fix go l := match l with
              | [] => eq_refl
              | x :: l' => proj2 (andb_true_iff (ok (f x)) (forallb ok (map f l'))) (conj (H x) (go l'))
              end.

Lemma raise_lower_redirections rs : map raise_redirection (map lower_redirection rs) = rs.
Proof. apply map_cancel. by intros []. Qed.

Lemma lower_raise_redirections rs : map lower_redirection (map raise_redirection rs) = rs.
Proof. apply map_cancel. by intros []. Qed.

Lemma raise_lower_assignments l : map raise_assignment (map lower_assignment l) = l.
Proof. apply map_cancel. by intros []. Qed.

Lemma lower_raise_assignments l : map lower_assignment (map raise_assignment l) = l.
Proof. apply map_cancel. by intros []. Qed.

Lemma raise_lower_op op : raise_and_or_op (lower_and_or_op op) = op.
Proof. by destruct op. Qed.

Lemma lower_raise_op op : lower_and_or_op (raise_and_or_op op) = op.
Proof. by destruct op. Qed.

Lemma raise_lower_simple sc : raise_command (lower_simple_command sc) = Simple sc.
Proof.
  destruct sc as [asgs ws rs sp]. unfold lower_simple_command; cbn.
  destruct ws as [|w ws]; [destruct asgs as [|a asgs]|]; cbn; unfold raise_simple; cbn;
    rewrite ?raise_lower_redirections; [done| |].
  - do 3 f_equal; [by destruct a|apply raise_lower_assignments].
  - by rewrite raise_lower_assignments.
Qed.

Fixpoint raise_lower_command (c : Command) : raise_command (lower_command c) = c
with raise_lower_elif (e : ElifClause) : raise_elif (lower_elif e) = e
with raise_lower_case_item (i : CaseItem) : raise_case_item (lower_case_item i) = i
with raise_lower_complete_command (cc : CompleteCommand) :
  raise_complete_command (lower_complete_command cc) = cc
with raise_lower_and_or (ao : AndOrList) : raise_and_or (lower_and_or ao) = ao
with raise_lower_pipeline (p : Pipeline) : raise_pipeline (lower_pipeline p) = p.
Proof.
  - pose proof (map_cancel _ _ raise_lower_complete_command) as Hb.
    pose proof (map_cancel _ _ raise_lower_elif) as He.
    pose proof (map_cancel _ _ raise_lower_case_item) as Hi.
    destruct c; cbn [lower_command raise_command];
      rewrite ?Hb, ?He, ?Hi, ?raise_lower_redirections, ?raise_lower_command; try done.
    + apply raise_lower_simple.
    + destruct else_body; [by rewrite Hb|done].
  - pose proof (map_cancel _ _ raise_lower_complete_command) as Hb. destruct e; cbn. by rewrite !Hb.
  - pose proof (map_cancel _ _ raise_lower_complete_command) as Hb. destruct i; cbn. by rewrite !Hb.
  - destruct cc as [l sp]; cbn. by rewrite (map_cancel _ _ raise_lower_and_or).
  - destruct ao as [first rest]; cbn. rewrite raise_lower_pipeline. f_equal. apply map_cancel.
    intros [op p]; cbn. by rewrite raise_lower_op, raise_lower_pipeline.
  - destruct p; cbn. by rewrite (map_cancel _ _ raise_lower_command).
Qed.

Lemma normal_lower_simple sc : normal_command (lower_simple_command sc) = true.
Proof.
  unfold lower_simple_command. destruct (sc_words sc) as [|w ws]; [|done].
  by destruct (map lower_assignment (sc_assignments sc)).
Qed.

Fixpoint normal_lower_command (c : Command) : normal_command (lower_command c) = true
with normal_lower_elif (e : ElifClause) : normal_elif (lower_elif e) = true
with normal_lower_case_item (i : CaseItem) : normal_case_item (lower_case_item i) = true
with normal_lower_complete_command (cc : CompleteCommand) :
  normal_complete_command (lower_complete_command cc) = true
with normal_lower_and_or (ao : AndOrList) : normal_and_or (lower_and_or ao) = true
with normal_lower_pipeline (p : Pipeline) : normal_pipeline (lower_pipeline p) = true.
Proof.
  - pose proof (forallb_map_rec _ _ normal_lower_complete_command) as Hb.
    pose proof (forallb_map_rec _ _ normal_lower_elif) as He.
    pose proof (forallb_map_rec _ _ normal_lower_case_item) as Hi.
    destruct c; cbn [lower_command normal_command]; rewrite ?Hb, ?He, ?Hi, ?normal_lower_command; try done.
    + apply normal_lower_simple.
    + destruct else_body; [by rewrite Hb|done].
  - pose proof (forallb_map_rec _ _ normal_lower_complete_command) as Hb. destruct e; cbn. by rewrite !Hb.
  - destruct i; cbn. apply (forallb_map_rec _ _ normal_lower_complete_command).
  - destruct cc; cbn. apply (forallb_map_rec _ _ normal_lower_and_or).
  - destruct ao as [first rest]; cbn. rewrite normal_lower_pipeline. cbn.
    apply (forallb_map_rec (fun op_p => (lower_and_or_op (fst op_p), lower_pipeline (snd op_p)))
             (fun op_p => normal_pipeline (snd op_p))).
    intros [op p]; cbn. apply normal_lower_pipeline.
  - destruct p; cbn. apply (forallb_map_rec _ _ normal_lower_command).
Qed.

Fixpoint lower_raise_command (c : HirCommand) :
  normal_command c = true -> lower_command (raise_command c) = c
with lower_raise_elif (e : HirElif) : normal_elif e = true -> lower_elif (raise_elif e) = e
with lower_raise_case_item (i : HirCaseItem) :
  normal_case_item i = true -> lower_case_item (raise_case_item i) = i
with lower_raise_complete_command (cc : HirCompleteCommand) :
  normal_complete_command cc = true -> lower_complete_command (raise_complete_command cc) = cc
with lower_raise_and_or (ao : HirAndOr) : normal_and_or ao = true -> lower_and_or (raise_and_or ao) = ao
with lower_raise_pipeline (p : HirPipeline) :
  normal_pipeline p = true -> lower_pipeline (raise_pipeline p) = p.
Proof.
  - pose proof (map_cancel_if _ _ _ lower_raise_complete_command) as Hb.
    pose proof (map_cancel_if _ _ _ lower_raise_elif) as He.
    pose proof (map_cancel_if _ _ _ lower_raise_case_item) as Hi.
    destruct c; cbn [raise_command normal_command]; intros Hn; bool_to_prop;
      cbn [lower_command]; rewrite ?Hb, ?He, ?Hi, ?lower_raise_redirections, ?lower_raise_command by done;
      try done; unfold raise_simple; cbn [lower_command]; unfold lower_simple_command; cbn;
      rewrite ?lower_raise_redirections, ?lower_raise_assignments.
    + by destruct argv.
    + by destruct assignments.
    + done.
    + destruct else_body; [by rewrite Hb|done].
  - pose proof (map_cancel_if _ _ _ lower_raise_complete_command) as Hb.
    destruct e; cbn. intros. bool_to_prop. by rewrite !Hb.
  - destruct i; cbn. intros. by rewrite (map_cancel_if _ _ _ lower_raise_complete_command).
  - destruct cc; cbn. intros. by rewrite (map_cancel_if _ _ _ lower_raise_and_or).
  - destruct ao as [first rest]; cbn. intros. bool_to_prop. rewrite lower_raise_pipeline by done. f_equal.
    apply (map_cancel_if (fun op_p => (raise_and_or_op (fst op_p), raise_pipeline (snd op_p)))
             (fun op_p => (lower_and_or_op (fst op_p), lower_pipeline (snd op_p)))
             (fun op_p => normal_pipeline (snd op_p))); [|done].
    intros [op p]; cbn. intros. by rewrite lower_raise_op, lower_raise_pipeline.
  - destruct p; cbn. intros. by rewrite (map_cancel_if _ _ _ lower_raise_command).
Qed.

(** C36: Lowering is a bijection between programs and HIR programs in normal
    form: it always yields normal form (a command word makes an [Exec],
    assignments alone an [Assign], the rest a [RedirectOnly]), [raise] recovers
    the program with every span, word, redirection and flag, and every normal
    HIR program is the lowering of one. *)
Theorem lower_bijective :
  (forall p : Program, normal (lower p) = true /\ raise (lower p) = p) /\
  (forall h : HirProgram, normal h = true -> lower (raise h) = h).
Proof.
  split.
  - intros [cs]. unfold normal, lower, raise; cbn. split.
    + apply (forallb_map_rec _ _ normal_lower_complete_command).
    + by rewrite (map_cancel _ _ raise_lower_complete_command).
  - intros [its] Hn. unfold normal, lower, raise in *; cbn in *.
    by rewrite (map_cancel_if _ _ _ lower_raise_complete_command).
Qed.
