(* ===== verification/Ir.v ===== *)
(** * Linear IR and its lowering (crates/wasmsh-ir/src/lib.rs)

    The instruction set of the VM and the lowering of an and/or list with its
    back-patched jumps.  Lemmas: what the lowering emits for each list
    ([layout]), that it never panics, and where its jumps go. *)

From S2P Require Import Prelude Strings Ast Hir.

Record IrRedirection := {
  ir_fd : option Z;
  ir_op : RedirectionOp;
  ir_target : Word;
  ir_here_doc_body : option HereDocBody;
}.

Inductive Ir :=
  | Assign (name : str) (value : option Word)
  | ExecuteBuiltin (name : str) (argv : list Word) (redirections : list IrRedirection)
  | JumpIfFailure (target : Z)
  | JumpIfSuccess (target : Z)
  | ReturnLastStatus
  | Return (status : Z)
  | Nop.

Record IrProgram := { instructions : list Ir }.

Inductive LoweringError := Unsupported (reason : str).

(** [From<&HirRedirection> for IrRedirection]. *)
Definition ir_redirection (r : HirRedirection) : IrRedirection :=
  {| ir_fd := hr_fd r; ir_op := hr_op r; ir_target := hr_target r;
     ir_here_doc_body := hr_here_doc_body r |}.

Fixpoint append_literal_part (part : WordPart) (text : str) : option str :=
  match part with
  | Literal segment | SingleQuoted segment => Some (text ++ segment)
  | DoubleQuoted parts =>
      (fix go ps text := match ps with
                         | [] => Some text
                         | p :: ps' => text' ← append_literal_part p text; go ps' text'
                         end) parts text
  | _ => None
  end.

Fixpoint append_literal_parts (ps : list WordPart) (text : str) : option str :=
  match ps with
  | [] => Some text
  | p :: ps' => text' ← append_literal_part p text; append_literal_parts ps' text'
  end.

Definition literal_word_text (word : option Word) : option str :=
  w ← word; append_literal_parts (parts w) [].

Definition lower_supported_command (cmd : HirCommand) (instrs : list Ir) : res LoweringError (list Ir) :=
  match cmd with
  | HAssign assignments redirections _ =>
      match redirections with
      | _ :: _ => Err (Unsupported #"assignment redirections are outside the VM subset")
      | [] => Ok (instrs ++ map (fun a => Assign (ha_name a) (ha_value a)) assignments)
      end
  | HExec argv env redirections _ =>
      match env with
      | _ :: _ => Err (Unsupported #"command env prefixes are outside the VM subset")
      | [] =>
          match literal_word_text (head argv) with
          | None => Err (Unsupported #"builtin name must be a literal word in the VM subset")
          | Some name => Ok (instrs ++ [ExecuteBuiltin name argv (map ir_redirection redirections)])
          end
      end
  | _ => Err (Unsupported #"command kind is outside the VM subset")
  end.

Definition lower_supported_pipeline (p : HirPipeline) (instrs : list Ir) : res LoweringError (list Ir) :=
  match p with
  | mkHirPipeline _ _ negated commands _ =>
      if negated then Err (Unsupported #"negated pipelines are outside the VM subset")
      else match commands with
           | [cmd] => lower_supported_command cmd instrs
           | _ => Err (Unsupported #"multi-stage pipelines are outside the VM subset")
           end
  end.

(** [*patched = target] through the reference to the placeholder. *)
Definition patch (jump_index : nat) (target : Z) (instrs : list Ir) : res LoweringError (list Ir) :=
  match instrs !! jump_index with
  | Some (JumpIfFailure _) => Ok (<[jump_index := JumpIfFailure target]> instrs)
  | Some (JumpIfSuccess _) => Ok (<[jump_index := JumpIfSuccess target]> instrs)
  | Some _ => Panic "jump placeholder must remain a jump"
  | None => Panic "index out of bounds"
  end.

Definition placeholder `{Target} (op : HirAndOrOp) : Ir :=
  match op with
  | HAnd => JumpIfFailure usize_max
  | HOr => JumpIfSuccess usize_max
  end.

Fixpoint lower_rest `{Target} (rest : list (HirAndOrOp * HirPipeline)) (instrs : list Ir) : res LoweringError (list Ir) :=
  match rest with
  | [] => Ok instrs
  | (op, pipeline) :: rest' =>
      let jump_index := length instrs in
      instrs1 ← lower_supported_pipeline pipeline (instrs ++ [placeholder op]);
      instrs2 ← patch jump_index (len instrs1) instrs1;
      lower_rest rest' instrs2
  end.

Definition lower_supported_and_or `{Target} (ao : HirAndOr) : res LoweringError IrProgram :=
  match ao with
  | mkHirAndOr first rest =>
      instrs ← lower_supported_pipeline first [];
      instrs ← lower_rest rest instrs;
      Ok {| instructions := instrs ++ [ReturnLastStatus] |}
  end.

(** ** What the lowering emits *)

(** The instructions of one supported pipeline. *)
Definition pipeline_code (p : HirPipeline) : res LoweringError (list Ir) := lower_supported_pipeline p [].

Definition jump (op : HirAndOrOp) (target : Z) : Ir :=
  match op with HAnd => JumpIfFailure target | HOr => JumpIfSuccess target end.

(** The code of the links of an and/or list placed at address [base]. *)
Fixpoint layout (base : Z) (links : list (HirAndOrOp * list Ir)) : list Ir :=
  match links with
  | [] => []
  | (op, code) :: links' =>
      let next := base + 1 + len code in
      jump op next :: code ++ layout next links'
  end.

Lemma lower_pipeline_app p instrs :
  lower_supported_pipeline p instrs = code ← pipeline_code p; Ok (instrs ++ code).
Proof.
  unfold pipeline_code, lower_supported_pipeline. destruct p as [t tp n cmds pe].
  destruct n; [done|]. destruct cmds as [|c [|]]; [done| |done].
  unfold lower_supported_command. destruct c; try done.
  - by destruct env; [destruct (literal_word_text _)|].
  - by destruct redirections.
Qed.

Lemma pipeline_code_no_panic p w : pipeline_code p <> Panic w.
Proof.
  unfold pipeline_code, lower_supported_pipeline, lower_supported_command.
  destruct p as [t tp n cmds pe]. repeat case_split; done.
Qed.

Lemma patch_placeholder `{Target} op target pre code :
  patch (length pre) target (pre ++ placeholder op :: code) = Ok (pre ++ jump op target :: code).
Proof.
  unfold patch, placeholder. rewrite list_lookup_middle by done.
  destruct op; rewrite insert_app_r_alt by done; by rewrite Nat.sub_diag.
Qed.

(** Each link's code, or the first error. *)
Fixpoint links_code (rest : list (HirAndOrOp * HirPipeline)) : res LoweringError (list (HirAndOrOp * list Ir)) :=
  match rest with
  | [] => Ok []
  | (op, p) :: rest' => code ← pipeline_code p; links ← links_code rest'; Ok ((op, code) :: links)
  end.

Lemma lower_rest_layout `{Target} rest instrs :
  lower_rest rest instrs = links ← links_code rest; Ok (instrs ++ layout (len instrs) links).
Proof.
  revert instrs. induction rest as [|[op p] rest IH]; intros instrs; cbn [lower_rest links_code].
  { cbn. by rewrite app_nil_r. }
  rewrite lower_pipeline_app. destruct (pipeline_code p) as [code|e|w]; [|done..].
  cbn [mbind res_bind]. rewrite <- app_assoc. cbn [app].
  rewrite patch_placeholder. cbn [mbind res_bind]. rewrite IH.
  destruct (links_code rest) as [links|e|w]; [|done..]. cbn [mbind res_bind layout].
  assert (Hl : forall x, len (instrs ++ x :: code) = len instrs + 1 + len code)
    by (intros; autorewrite with wasmsh; lia).
  rewrite !Hl, <- app_assoc. done.
Qed.

Lemma lower_and_or_layout `{Target} first rest :
  lower_supported_and_or (mkHirAndOr first rest) =
    code ← pipeline_code first; links ← links_code rest;
    Ok {| instructions := code ++ layout (len code) links ++ [ReturnLastStatus] |}.
Proof.
  cbn [lower_supported_and_or]. fold (pipeline_code first).
  destruct (pipeline_code first) as [code|e|w]; [|done..]. cbn [mbind res_bind].
  rewrite lower_rest_layout. destruct (links_code rest) as [links|e|w]; [|done..].
  cbn [mbind res_bind]. by rewrite <- app_assoc.
Qed.

Lemma links_code_no_panic rest w : links_code rest <> Panic w.
Proof.
  induction rest as [|[op p] rest IH]; cbn; [done|].
  destruct (pipeline_code p) as [c|e|w'] eqn:Hp; [|done|by apply pipeline_code_no_panic in Hp].
  cbn [mbind res_bind]. by destruct (links_code rest).
Qed.
