(* ===== verification/Vm.v ===== *)
(** * The virtual machine (crates/wasmsh-vm/src/lib.rs)

    Execution limits and the budget tracker, diagnostics, the cancellation
    token, the VM state and its interpreter loop over an abstract executor (the
    [VmExecutor] trait), and the built-in executor over an expansion function
    and a registry of builtins.

    The cancellation flag is an [Arc<AtomicBool>] other threads may store to
    while the loop runs: [stores i] is what they store just before the [i]-th
    time the loop polls it.  The [builtins] field of [Vm], which [run] moves
    into its executor and back, is the executor's registry here.  Byte counts of
    one write fit in [u64]; [steps] and [output_bytes] wrap as in a release
    build. *)

From S2P Require Import Prelude Strings IndexMap State Ast Ir.

Inductive StepResult := Done (status : Z) | Yield | Cancelled | OutputLimitExceeded.

Record ExecutionLimits := {
  step_limit : Z;
  output_byte_limit : Z;
  pipe_byte_limit : Z;
  recursion_limit : Z;
}.

Inductive DiagLevel := Trace | Info | Warning | Error.
Inductive DiagCategory := DParse | DExpansion | DRuntime | DFilesystem | DBuiltin | DBudget.

Record DiagnosticEvent := { level : DiagLevel; diag_category : DiagCategory; message : list Ascii.ascii }.

Inductive BudgetCategory := Steps | VisibleOutputBytes | PipeBytes | RecursionDepth.

#[export] Instance BudgetCategory_eq_dec : EqDecision BudgetCategory.
Proof. solve_decision. Defined.

Record ExhaustionReason := { category : BudgetCategory; used : Z; limit : Z }.

Definition diagnostic_message (r : ExhaustionReason) : str :=
  match category r with
  | Steps => #"step budget exhausted: " ++ Z_to_string (used r) ++ #" steps (limit: "
  | VisibleOutputBytes => #"output limit exceeded: " ++ Z_to_string (used r) ++ #" bytes (limit: "
  | PipeBytes => #"pipe buffer limit exceeded: " ++ Z_to_string (used r) ++ #" bytes (limit: "
  | RecursionDepth => #"maximum recursion depth exceeded: " ++ Z_to_string (used r) ++ #" frames (limit: "
  end ++ Z_to_string (limit r) ++ #")".

Inductive StopReason := Exhausted (r : ExhaustionReason) | SCancelled.

Record BudgetTracker := {
  steps : Z;
  visible_output_bytes : Z;
  pipe_bytes : Z;
  recursion_depth : Z;
  stop_reason : option StopReason;
}.

Module Budget.

Definition default : BudgetTracker :=
  {| steps := 0; visible_output_bytes := 0; pipe_bytes := 0; recursion_depth := 0; stop_reason := None |}.

Definition set_reason (r : option StopReason) (b : BudgetTracker) : BudgetTracker :=
  {| steps := steps b; visible_output_bytes := visible_output_bytes b; pipe_bytes := pipe_bytes b;
     recursion_depth := recursion_depth b; stop_reason := r |}.

Definition clear_stop_reason : BudgetTracker -> BudgetTracker := set_reason None.
Definition note_cancelled : BudgetTracker -> BudgetTracker := set_reason (Some SCancelled).

Definition exhaust (r : ExhaustionReason) (b : BudgetTracker) : BudgetTracker * (unit + ExhaustionReason) :=
  (set_reason (Some (Exhausted r)) b, inr r).

Definition begin_step (lim : Z) (b : BudgetTracker) : BudgetTracker * (unit + ExhaustionReason) :=
  if (0 <? lim) && (lim <=? steps b)
  then exhaust {| category := Steps; used := steps b; limit := lim |} b
  else ({| steps := wrap_add U64_MAX (steps b) 1; visible_output_bytes := visible_output_bytes b;
           pipe_bytes := pipe_bytes b; recursion_depth := recursion_depth b;
           stop_reason := stop_reason b |}, inl tt).

Definition track_visible_output (bytes lim : Z) (b : BudgetTracker) : BudgetTracker * (unit + ExhaustionReason) :=
  let b' := {| steps := steps b; visible_output_bytes := sat_add U64_MAX (visible_output_bytes b) bytes;
               pipe_bytes := pipe_bytes b; recursion_depth := recursion_depth b;
               stop_reason := stop_reason b |} in
  if (0 <? lim) && (lim <? visible_output_bytes b')
  then exhaust {| category := VisibleOutputBytes; used := visible_output_bytes b'; limit := lim |} b'
  else (b', inl tt).

Definition set_pipe_bytes (bytes lim : Z) (b : BudgetTracker) : BudgetTracker * (unit + ExhaustionReason) :=
  let b' := {| steps := steps b; visible_output_bytes := visible_output_bytes b;
               pipe_bytes := bytes; recursion_depth := recursion_depth b; stop_reason := stop_reason b |} in
  if (0 <? lim) && (lim <? pipe_bytes b')
  then exhaust {| category := PipeBytes; used := pipe_bytes b'; limit := lim |} b'
  else (b', inl tt).

Definition set_depth (d : Z) (b : BudgetTracker) : BudgetTracker :=
  {| steps := steps b; visible_output_bytes := visible_output_bytes b; pipe_bytes := pipe_bytes b;
     recursion_depth := d; stop_reason := stop_reason b |}.

Definition enter_recursion (lim : Z) (b : BudgetTracker) : BudgetTracker * (unit + ExhaustionReason) :=
  let b' := set_depth (sat_add U32_MAX (recursion_depth b) 1) b in
  if (0 <? lim) && (lim <? recursion_depth b')
  then exhaust {| category := RecursionDepth; used := recursion_depth b'; limit := lim |} b'
  else (b', inl tt).

Definition exit_recursion (b : BudgetTracker) : BudgetTracker :=
  set_depth (sat_sub (recursion_depth b) 1) b.

End Budget.

Record Vm := {
  state : ShellState;
  vm_steps : Z;
  limits : ExecutionLimits;
  output_bytes : Z;
  budget : BudgetTracker;
  cancel : bool;
  diagnostics : list DiagnosticEvent;
  stdout : list Ascii.ascii;
  stderr : list Ascii.ascii;
}.

Module Vm.

Definition with_limits (st : ShellState) (lims : ExecutionLimits) : Vm :=
  {| state := st; vm_steps := 0; limits := lims; output_bytes := 0; budget := Budget.default;
     cancel := false; diagnostics := []; stdout := []; stderr := [] |}.

Definition new (st : ShellState) (step_budget : Z) : Vm :=
  with_limits st {| step_limit := step_budget; output_byte_limit := 0; pipe_byte_limit := 0; recursion_limit := 0 |}.

Definition set_state (st : ShellState) (vm : Vm) : Vm :=
  {| state := st; vm_steps := vm_steps vm; limits := limits vm; output_bytes := output_bytes vm;
     budget := budget vm; cancel := cancel vm; diagnostics := diagnostics vm;
     stdout := stdout vm; stderr := stderr vm |}.

Definition set_budget (b : BudgetTracker) (vm : Vm) : Vm :=
  {| state := state vm; vm_steps := vm_steps vm; limits := limits vm; output_bytes := output_bytes vm;
     budget := b; cancel := cancel vm; diagnostics := diagnostics vm;
     stdout := stdout vm; stderr := stderr vm |}.

Definition sync_steps (vm : Vm) : Vm :=
  {| state := state vm; vm_steps := steps (budget vm); limits := limits vm; output_bytes := output_bytes vm;
     budget := budget vm; cancel := cancel vm; diagnostics := diagnostics vm;
     stdout := stdout vm; stderr := stderr vm |}.

(** A store to the shared flag: [CancellationToken::cancel] or [reset]. *)
Definition store_cancel (c : bool) (vm : Vm) : Vm :=
  {| state := state vm; vm_steps := vm_steps vm; limits := limits vm; output_bytes := output_bytes vm;
     budget := budget vm; cancel := c; diagnostics := diagnostics vm;
     stdout := stdout vm; stderr := stderr vm |}.

Definition emit_diagnostic (l : DiagLevel) (c : DiagCategory) (m : str) (vm : Vm) : Vm :=
  {| state := state vm; vm_steps := vm_steps vm; limits := limits vm; output_bytes := output_bytes vm;
     budget := budget vm; cancel := cancel vm;
     diagnostics := diagnostics vm ++ [ {| level := l; diag_category := c; message := m |} ];
     stdout := stdout vm; stderr := stderr vm |}.

Definition budget_stop (r : StepResult) (m : str) (vm : Vm) : Vm * (unit + StepResult) :=
  (emit_diagnostic Error DBudget m vm, inr r).

Definition append_out (out err : str) (vm : Vm) : Vm :=
  {| state := state vm; vm_steps := vm_steps vm; limits := limits vm; output_bytes := output_bytes vm;
     budget := budget vm; cancel := cancel vm; diagnostics := diagnostics vm;
     stdout := stdout vm ++ out; stderr := stderr vm ++ err |}.

Definition add_output_bytes (n : Z) (vm : Vm) : Vm :=
  {| state := state vm; vm_steps := vm_steps vm; limits := limits vm;
     output_bytes := wrap_add U64_MAX (output_bytes vm) n;
     budget := budget vm; cancel := cancel vm; diagnostics := diagnostics vm;
     stdout := stdout vm; stderr := stderr vm |}.

Definition track_output (bytes : Z) (vm : Vm) : Vm * bool :=
  let vm := add_output_bytes bytes vm in
  let '(b, r) := Budget.track_visible_output bytes (output_byte_limit (limits vm)) (budget vm) in
  (set_budget b vm, match r with inl _ => true | inr _ => false end).

Definition write_stdout (data : str) (vm : Vm) : Vm := fst (track_output (len data) (append_out data [] vm)).
Definition write_stderr (data : str) (vm : Vm) : Vm := fst (track_output (len data) (append_out [] data vm)).
Definition write_streams (out err : str) (vm : Vm) : Vm :=
  fst (track_output (len out + len err) (append_out out err vm)).

Definition check_output_limit (vm : Vm) : Vm * (unit + StepResult) :=
  match stop_reason (budget vm) with
  | Some (Exhausted reason) =>
      if decide (category reason = VisibleOutputBytes)
      then budget_stop OutputLimitExceeded (diagnostic_message reason) vm
      else (vm, inl tt)
  | _ => (vm, inl tt)
  end.

Definition begin_step (vm : Vm) : Vm * (unit + StepResult) :=
  if cancel vm
  then budget_stop Cancelled #"execution cancelled" (set_budget (Budget.note_cancelled (budget vm)) vm)
  else match check_output_limit vm with
  | (vm, inr stop) => (vm, inr stop)
  | (vm, inl _) =>
      match Budget.begin_step (step_limit (limits vm)) (budget vm) with
      | (b, inr reason) => budget_stop Yield (diagnostic_message reason) (sync_steps (set_budget b vm))
      | (b, inl _) => (sync_steps (set_budget b vm), inl tt)
      end
  end.

End Vm.

(** The [VmExecutor] trait over an executor state [E]; [None]: the call does
    not return. *)
Class VmExecutor (E : Type) := {
  assign : E -> Vm -> str -> option Word -> option (E * Vm);
  execute_builtin : E -> Vm -> str -> list Word -> list IrRedirection -> option (E * Vm * Z);
}.

(** What the interpreter relies on: an executor leaves the limits alone and
    does not give steps back. *)
Class LawfulExecutor (E : Type) `{VmExecutor E} := {
  assign_budget e vm n v e' vm' : assign e vm n v = Some (e', vm') ->
    limits vm' = limits vm /\ steps (budget vm) <= steps (budget vm');
  execute_builtin_budget e vm n a r e' vm' z : execute_builtin e vm n a r = Some (e', vm', z) ->
    limits vm' = limits vm /\ steps (budget vm) <= steps (budget vm');
}.

Section run.
Context `{VmExecutor E}.
(** Stores of other holders of the cancellation token. *)
Context (stores : nat -> option bool).

Record machine := { vm : Vm; ex : E; polls : nat }.

Definition poll (s : machine) : machine * (unit + StepResult) :=
  let vm := match stores (polls s) with Some c => Vm.store_cancel c (vm s) | None => vm s end in
  let '(vm', r) := Vm.begin_step vm in
  ({| vm := vm'; ex := ex s; polls := S (polls s) |}, r).

Inductive vm_run := Finished (s : machine) (r : StepResult) | ExecutorStuck | OutOfFuel.

Definition set_last (z : Z) (v : Vm) : Vm := Vm.set_state (set_last_status z (state v)) v.

(** One instruction after its step was granted: stop, or continue at a [pc]. *)
Inductive effect := Next (s : machine) (pc : Z) | Halt (s : machine) (r : StepResult) | Stuck.

Definition exec_instr (i : Ir) (pc : Z) (s : machine) : effect :=
  match i with
  | Assign name value =>
      match assign (ex s) (vm s) name value with
      | Some (e', vm') => Next {| vm := vm'; ex := e'; polls := polls s |} (pc + 1)
      | None => Stuck
      end
  | ExecuteBuiltin name argv redirections =>
      match execute_builtin (ex s) (vm s) name argv redirections with
      | Some (e', vm', status) => Next {| vm := set_last status vm'; ex := e'; polls := polls s |} (pc + 1)
      | None => Stuck
      end
  | JumpIfFailure target => if last_status (state (vm s)) =? 0 then Next s (pc + 1) else Next s target
  | JumpIfSuccess target => if last_status (state (vm s)) =? 0 then Next s target else Next s (pc + 1)
  | ReturnLastStatus => Halt s (Done (last_status (state (vm s))))
  | Return status => Halt {| vm := set_last status (vm s); ex := ex s; polls := polls s |} (Done status)
  | Nop => Next s (pc + 1)
  end.

Fixpoint run_loop (fuel : nat) (code : list Ir) (pc : Z) (s : machine) : vm_run :=
  match fuel with
  | O => OutOfFuel
  | S fuel' =>
      match code !! Z.to_nat pc with
      | None => Finished s (Done (last_status (state (vm s))))
      | Some i =>
          match poll s with
          | (s, inr stop) => Finished s stop
          | (s, inl _) =>
              match exec_instr i pc s with
              | Next s pc' => run_loop fuel' code pc' s
              | Halt s r => Finished s r
              | Stuck => ExecutorStuck
              end
          end
      end
  end.

Definition run_with_executor (fuel : nat) (program : IrProgram) (v : Vm) (e : E) : vm_run :=
  run_loop fuel (instructions program) 0 {| vm := v; ex := e; polls := 0 |}.
End run.
Arguments machine : clear implicits.
Arguments vm_run : clear implicits.

(** ** The executor of [Vm::run]

    Over the word expansion of wasmsh-expand and the builtin functions of
    wasmsh-builtins, both given here as functions on the shell state; a builtin
    gets no filesystem and no input, returns its two output streams and its
    status. *)
Section builtin_executor.
Context (expand_word : Word -> ShellState -> option (ShellState * list Ascii.ascii)).

Definition builtin_fn : Type :=
  ShellState -> list (list Ascii.ascii) -> option (ShellState * list Ascii.ascii * list Ascii.ascii * Z).

Record BuiltinVmExecutor := { builtins : list Ascii.ascii -> option builtin_fn }.

Definition builtin_assign (e : BuiltinVmExecutor) (vm : Vm) (name : str) (value : option Word) : option (BuiltinVmExecutor * Vm) :=
  '(st, v) ← match value with
             | None => Some (state vm, [])
             | Some w => expand_word w (state vm)
             end;
  st' ← set_var st name v;
  Some (e, Vm.set_state (set_last_status 0 st') vm).

Fixpoint expand_argv (argv : list Word) (st : ShellState) : option (ShellState * list (list Ascii.ascii)) :=
  match argv with
  | [] => Some (st, [])
  | w :: ws => '(st1, s) ← expand_word w st; '(st2, ss) ← expand_argv ws st1; Some (st2, s :: ss)
  end.

Definition builtin_execute (e : BuiltinVmExecutor) (vm : Vm) (name : str) (argv : list Word)
    (redirections : list IrRedirection) : option (BuiltinVmExecutor * Vm * Z) :=
  match builtins e name with
  | None =>
      let vm := Vm.emit_diagnostic Error DBuiltin (#"unknown builtin: " ++ name) vm in
      Some (e, Vm.set_state (set_last_status 127 (state vm)) vm, 127)
  | Some f =>
      '(st, expanded) ← expand_argv argv (state vm);
      '(st', out, err, status) ← f st expanded;
      let vm := Vm.write_streams out err (Vm.set_state st' vm) in
      Some (e, Vm.set_state (set_last_status status (state vm)) vm, status)
  end.

#[export] Instance builtin_vm_executor : VmExecutor BuiltinVmExecutor :=
  {| assign := builtin_assign; execute_builtin := builtin_execute |}.

Definition run (stores : nat -> option bool) (fuel : nat) (program : IrProgram) (v : Vm) (e : BuiltinVmExecutor) : vm_run BuiltinVmExecutor :=
  run_with_executor stores fuel program v e.

Lemma write_streams_keeps out err vm :
  limits (Vm.write_streams out err vm) = limits vm /\
  steps (budget (Vm.write_streams out err vm)) = steps (budget vm).
Proof.
  unfold Vm.write_streams, Vm.track_output, Budget.track_visible_output.
  case_split; done.
Qed.

(** The built-in executor keeps the interpreter's contract, whatever expansion
    and the builtins do to the shell state. *)
#[export] Instance builtin_lawful : LawfulExecutor BuiltinVmExecutor.
Proof.
  split.
  - intros e vm0 n v e' vm'. cbn. unfold builtin_assign. intros Hb.
    apply bind_Some in Hb as ([st x] & _ & Hb). apply bind_Some in Hb as (st' & _ & Hb). simplify_eq/=.
    split; [done|lia].
  - intros e vm0 n a r e' vm' z. cbn. unfold builtin_execute. destruct (builtins e n).
    + intros Hb. apply bind_Some in Hb as ([st x] & _ & Hb).
      apply bind_Some in Hb as ([[[st' o] er] stat] & _ & Hb). simplify_eq/=.
      destruct (write_streams_keeps o er (Vm.set_state st' vm0)) as [-> ->]. split; [done|]. cbn. lia.
    + intros; simplify_eq/=. split; [done|lia].
Qed.
End builtin_executor.
