(* ===== verification/VmProps.v ===== *)
(** * Correctness of the VM and of the lowering to it

    [and_or_sem] is the structured meaning of an and/or list: run the first
    pipeline, then each further one when the status calls for it, taking one
    step per instruction.  The compiled program computes exactly that.  The
    interpreter respects its step limit on every program, output limits stop
    it, and a cancellation is seen at the next step. *)

From S2P Require Import Prelude Strings IndexMap State Ast Hir Ir Vm.

Section semantics.
Context `{VmExecutor E}.
Context (stores : nat -> option bool).
Implicit Types s : machine E.

(** Outcome of a piece of a program: go on, or the run is over. *)
Inductive flow := Go (s : machine E) | Fin (s : machine E) (r : StepResult) | FStuck.

Definition flow_bind (m : flow) (k : machine E -> flow) : flow :=
  match m with Go s => k s | Fin s r => Fin s r | FStuck => FStuck end.

(** Take one step, then act. *)
Definition ticked (k : machine E -> flow) s : flow :=
  match poll stores s with
  | (s, inr stop) => Fin s stop
  | (s, inl _) => k s
  end.

Definition do_assign (a : HirAssignment) s : flow :=
  match assign (ex s) (vm s) (ha_name a) (ha_value a) with
  | Some (e', vm') => Go {| vm := vm'; ex := e'; polls := polls s |}
  | None => FStuck
  end.

Fixpoint assigns_sem (l : list HirAssignment) s : flow :=
  match l with
  | [] => Go s
  | a :: l' => flow_bind (ticked (do_assign a) s) (assigns_sem l')
  end.

Definition do_builtin (name : str) (argv : list Word) (rs : list HirRedirection) s : flow :=
  match execute_builtin (ex s) (vm s) name argv (map ir_redirection rs) with
  | Some (e', vm', status) => Go {| vm := set_last status vm'; ex := e'; polls := polls s |}
  | None => FStuck
  end.

(** A pipeline of the supported subset. *)
Definition pipeline_sem (p : HirPipeline) s : flow :=
  match p with
  | mkHirPipeline _ _ _ [HAssign asgs _ _] _ => assigns_sem asgs s
  | mkHirPipeline _ _ _ [HExec argv _ rs _] _ =>
      match literal_word_text (head argv) with
      | Some name => ticked (do_builtin name argv rs) s
      | None => Go s
      end
  | _ => Go s
  end.

Definition wanted (op : HirAndOrOp) (status : Z) : bool :=
  match op with HAnd => status =? 0 | HOr => negb (status =? 0) end.

Fixpoint links_sem (rest : list (HirAndOrOp * HirPipeline)) s : flow :=
  match rest with
  | [] => Go s
  | (op, p) :: rest' =>
      flow_bind
        (ticked (fun s => if wanted op (last_status (state (vm s))) then pipeline_sem p s else Go s) s)
        (links_sem rest')
  end.

Definition and_or_sem (ao : HirAndOr) s : flow :=
  match ao with
  | mkHirAndOr first rest =>
      flow_bind (pipeline_sem first s) (fun s =>
      flow_bind (links_sem rest s)
        (ticked (fun s => Fin s (Done (last_status (state (vm s)))))))
  end.

(** ** Running a fragment of a program *)

(** [frag] sits at address [pc] of [code]. *)
Definition code_at (code : list Ir) (pc : Z) (frag : list Ir) : Prop :=
  exists pre post, code = pre ++ frag ++ post /\ len pre = pc.

Lemma code_at_cons code pc i frag :
  code_at code pc (i :: frag) ->
  code !! Z.to_nat pc = Some i /\ code_at code (pc + 1) frag.
Proof.
  intros (pre & post & -> & <-). split.
  - unfold len. rewrite Nat2Z.id. cbn [app]. by rewrite list_lookup_middle.
  - exists (pre ++ [i]), post. rewrite <- app_assoc. split; [done|]. autorewrite with wasmsh. lia.
Qed.

Lemma code_at_app code pc f g :
  code_at code pc (f ++ g) -> code_at code pc f /\ code_at code (pc + len f) g.
Proof.
  intros (pre & post & -> & <-). split.
  - exists pre, (g ++ post). by rewrite <- app_assoc.
  - exists (pre ++ f), post. split; [by rewrite <- !app_assoc|]. by rewrite len_app.
Qed.

(** The loop from [pc] first behaves as [m], then continues at [pc'] with at
    least the fuel left after [n] instructions. *)
Definition runs (code : list Ir) (n : nat) (pc pc' : Z) (m : machine E -> flow) : Prop :=
  forall s fuel, (n <= fuel)%nat ->
    match m s with
    | Go s' => exists fuel', (fuel - n <= fuel')%nat /\
        run_loop stores fuel code pc s = run_loop stores fuel' code pc' s'
    | Fin s' r => run_loop stores fuel code pc s = Finished s' r
    | FStuck => run_loop stores fuel code pc s = ExecutorStuck
    end.

Lemma runs_nil code pc : runs code 0 pc pc Go.
Proof. intros s fuel _. exists fuel. split; [lia|done]. Qed.

Lemma runs_ext code n pc pc' m m' :
  (forall s, m s = m' s) -> runs code n pc pc' m -> runs code n pc pc' m'.
Proof. intros He Hm s fuel Hf. rewrite <- He. by apply Hm. Qed.

Lemma runs_seq code n1 n2 pc pc1 pc2 m k :
  runs code n1 pc pc1 m -> runs code n2 pc1 pc2 k ->
  runs code (n1 + n2) pc pc2 (fun s => flow_bind (m s) k).
Proof.
  intros Hm Hk s fuel Hf. specialize (Hm s fuel ltac:(lia)). destruct (m s) as [s1|s1 r|]; cbn; [|done..].
  destruct Hm as (f1 & Hf1 & ->). specialize (Hk s1 f1 ltac:(lia)).
  destruct (k s1); [|done..]. destruct Hk as (f2 & ? & ->). exists f2. split; [lia|done].
Qed.

(** One instruction: a step, then what it does. *)
Lemma runs_instr code pc i m pc' :
  code !! Z.to_nat pc = Some i ->
  (forall s, match m s with
             | Go s' => exec_instr i pc s = Next s' pc'
             | Fin s' r => exec_instr i pc s = Halt s' r
             | FStuck => exec_instr i pc s = Stuck
             end) ->
  runs code 1 pc pc' (ticked m).
Proof.
  intros Hi Hm s [|fuel] Hf; [lia|]. cbn [run_loop]. rewrite Hi. unfold ticked.
  destruct (poll stores s) as [s1 [[]|stop]]; [|done]. specialize (Hm s1).
  destruct (m s1); rewrite Hm; [|done..]. exists fuel. split; [lia|done].
Qed.

Lemma runs_assigns code pc asgs :
  code_at code pc (map (fun a => Assign (ha_name a) (ha_value a)) asgs) ->
  runs code (length asgs) pc (pc + len asgs) (assigns_sem asgs).
Proof.
  revert pc. induction asgs as [|a asgs IH]; intros pc Hc.
  { rewrite len_nil, Z.add_0_r. apply runs_nil. }
  cbn [map] in Hc. apply code_at_cons in Hc as [Hi Hc].
  rewrite len_cons, Z.add_assoc. change (length (a :: asgs)) with (1 + length asgs)%nat.
  apply (runs_seq code 1 (length asgs) pc (pc + 1)); [|by apply IH].
  apply (runs_instr code pc _ (do_assign a)) with (1 := Hi).
  intros s. unfold do_assign. cbn. by destruct (assign _ _ _ _) as [[e' vm']|].
Qed.

Lemma runs_pipeline code pc p frag :
  pipeline_code p = Ok frag -> code_at code pc frag ->
  runs code (length frag) pc (pc + len frag) (pipeline_sem p).
Proof.
  unfold pipeline_code, lower_supported_pipeline. destruct p as [t tp n cmds pe].
  destruct n; [done|]. destruct cmds as [|c [|]]; [done| |by destruct c].
  destruct c; try done; cbn [lower_supported_command].
  - destruct env; [|done]. destruct (literal_word_text (head argv)) as [name|] eqn:Hlit; [|done].
    intros [= <-] Hc. apply code_at_cons in Hc as [Hi _].
    apply (runs_ext _ _ _ _ (ticked (do_builtin name argv redirections))).
    { intros s. cbn [pipeline_sem]. by rewrite Hlit. }
    change (len [_]) with 1. apply (runs_instr code pc _ (do_builtin name argv redirections)) with (1 := Hi).
    intros s. unfold do_builtin. cbn. by destruct (execute_builtin _ _ _ _ _) as [[[e' vm'] z]|].
  - destruct redirections; [|done]. intros [= <-] Hc.
    assert (Hl : len (map (fun a => Assign (ha_name a) (ha_value a)) assignments) = len assignments)
      by (unfold len; by rewrite length_map).
    rewrite Hl, length_map. by apply runs_assigns.
Qed.

Lemma exec_jump op pc target s :
  exec_instr (jump op target) pc s =
    Next s (if wanted op (last_status (state (vm s))) then pc + 1 else target).
Proof. destruct op; cbn; by destruct (last_status (state (vm s)) =? 0). Qed.

Lemma runs_link code pc op p frag :
  pipeline_code p = Ok frag -> code_at code pc (jump op (pc + 1 + len frag) :: frag) ->
  runs code (1 + length frag) pc (pc + 1 + len frag)
    (ticked (fun s => if wanted op (last_status (state (vm s))) then pipeline_sem p s else Go s)).
Proof.
  intros Hp [Hi Hc]%code_at_cons s [|fuel] Hf; [lia|]. cbn [run_loop]. rewrite Hi. unfold ticked.
  destruct (poll stores s) as [s1 [[]|stop]]; [|done]. rewrite exec_jump.
  destruct (wanted op _).
  - apply (runs_pipeline code (pc + 1) p frag Hp Hc). lia.
  - exists fuel. split; [lia|done].
Qed.

Lemma runs_links code pc rest links :
  links_code rest = Ok links -> code_at code pc (layout pc links) ->
  runs code (length (layout pc links)) pc (pc + len (layout pc links)) (links_sem rest).
Proof.
  revert pc links. induction rest as [|[op p] rest IH]; intros pc links Hl Hc; cbn in Hl.
  { simplify_eq/=. rewrite len_nil, Z.add_0_r. apply runs_nil. }
  destruct (pipeline_code p) as [frag|e|w] eqn:Hp; [|done..]. cbn in Hl.
  destruct (links_code rest) as [links'|e|w] eqn:Hls; [|done..]. cbn in Hl. simplify_eq/=.
  set (next := pc + 1 + len frag) in *.
  change (jump op next :: frag ++ layout next links') with ((jump op next :: frag) ++ layout next links') in Hc.
  apply code_at_app in Hc as [Hc1 Hc2]. rewrite len_cons, Z.add_assoc in Hc2.
  replace (S (length (frag ++ layout next links'))) with ((1 + length frag) + length (layout next links'))%nat
    by (rewrite length_app; lia).
  replace (pc + len (jump op next :: frag ++ layout next links')) with (next + len (layout next links'))
    by (subst next; autorewrite with wasmsh; lia).
  apply (runs_seq code _ _ pc next); [by apply runs_link|]. by apply IH.
Qed.

(** C10: Compilation correctness: the program [lower_supported_and_or] emits,
    run by the interpreter loop with any fuel of at least its length, behaves
    exactly as the and/or list: the same executor calls in the same order, the
    same steps, stops and cancellations, the same final machine and result.  In
    particular compiled programs always terminate. *)
Theorem lowering_correct `{Target} (ao : HirAndOr) (prog : IrProgram) (fuel : nat) s :
  lower_supported_and_or ao = Ok prog -> (length (instructions prog) <= fuel)%nat ->
  run_loop stores fuel (instructions prog) 0 s =
    match and_or_sem ao s with
    | Go s' => OutOfFuel
    | Fin s' r => Finished s' r
    | FStuck => ExecutorStuck
    end.
Proof.
  destruct ao as [first rest]. rewrite lower_and_or_layout.
  destruct (pipeline_code first) as [frag|e|w] eqn:Hp; [|done..].
  destruct (links_code rest) as [links|e|w] eqn:Hl; [|done..]. cbn [mbind res_bind].
  intros [= <-]. cbn [instructions]. set (code := frag ++ layout (len frag) links ++ [ReturnLastStatus]).
  assert (Hlen : length code = (length frag + (length (layout (len frag) links) + 1))%nat)
    by (unfold code; by rewrite !length_app).
  rewrite Hlen. intros Hf.
  assert (Hc : code_at code 0 code) by (exists [], []; by rewrite app_nil_r).
  apply code_at_app in Hc as [Hc1 [Hc2 Hc3]%code_at_app]. rewrite Z.add_0_l in *.
  apply code_at_cons in Hc3 as [Hi _].
  assert (Hret : runs code 1 (len frag + len (layout (len frag) links)) 0
                   (ticked (fun s => Fin s (Done (last_status (state (vm s))))))).
  { by apply (runs_instr code _ _ _ _ Hi). }
  pose proof (runs_seq code _ _ 0 _ _ _ _ (runs_pipeline code 0 first frag Hp Hc1)
    (runs_seq code _ _ _ _ _ _ _ (runs_links code (len frag) rest links Hl Hc2) Hret)) as Hrun.
  specialize (Hrun s fuel ltac:(lia)). cbv beta in Hrun. cbn [and_or_sem].
  destruct (flow_bind _ _) as [s'|s' r|] eqn:Hfl; [|done..].
  exfalso. revert Hfl. clear. destruct (pipeline_sem first s) as [s1|? ?|]; cbn; try done.
  destruct (links_sem rest s1) as [s2|? ?|]; cbn; try done.
  unfold ticked. by destruct (poll stores s2) as [? [[]|?]].
Qed.
End semantics.

(** ** Steps, output and cancellation *)

Lemma check_output_limit_ok vm vm' u : Vm.check_output_limit vm = (vm', inl u) -> vm' = vm.
Proof. unfold Vm.check_output_limit, Vm.budget_stop. intros. repeat case_split_in H; by simplify_eq. Qed.

(** A granted step: the budget had room and counts one more. *)
Lemma begin_step_granted vm vm' u :
  Vm.begin_step vm = (vm', inl u) ->
  limits vm' = limits vm /\ state vm' = state vm /\ cancel vm = false /\
  steps (budget vm') = wrap_add U64_MAX (steps (budget vm)) 1 /\
  (0 < step_limit (limits vm) -> steps (budget vm) < step_limit (limits vm)).
Proof.
  unfold Vm.begin_step, Vm.budget_stop. destruct (cancel vm); [done|].
  destruct (Vm.check_output_limit vm) as [vm1 [u1|?]] eqn:Hc; [|done].
  apply check_output_limit_ok in Hc as ->. unfold Budget.begin_step, Budget.exhaust.
  destruct ((0 <? _) && (_ <=? _)) eqn:Hl; intros; simplify_eq/=.
  repeat split; try done. intros. apply andb_false_iff in Hl as [?|?]; bool_to_prop; lia.
Qed.

Lemma begin_step_refused vm vm' stop :
  Vm.begin_step vm = (vm', inr stop) -> state vm' = state vm /\ stdout vm' = stdout vm /\ stderr vm' = stderr vm.
Proof.
  unfold Vm.begin_step, Vm.check_output_limit, Vm.budget_stop, Budget.begin_step, Budget.exhaust.
  repeat case_match; intros; by simplify_eq/=.
Qed.

Section limits.
Context `{LawfulExecutor E}.
Context (stores : nat -> option bool).
Implicit Types s : machine E.

Lemma poll_granted s s1 u :
  poll stores s = (s1, inl u) ->
  limits (vm s1) = limits (vm s) /\ polls s1 = S (polls s) /\
  steps (budget (vm s1)) = wrap_add U64_MAX (steps (budget (vm s))) 1 /\
  (0 < step_limit (limits (vm s)) -> steps (budget (vm s)) < step_limit (limits (vm s))).
Proof.
  unfold poll. set (v := match stores (polls s) with Some c => Vm.store_cancel c (vm s) | None => vm s end).
  assert (Hv : limits v = limits (vm s) /\ budget v = budget (vm s)) by (subst v; by case_match).
  destruct Hv as [Hl Hb]. destruct (Vm.begin_step v) as [v' [u'|?]] eqn:Hs; intros; simplify_eq/=.
  apply begin_step_granted in Hs as (? & _ & _ & ? & ?). by rewrite <- Hl, <- Hb.
Qed.

Lemma exec_instr_next i pc s s' pc' :
  exec_instr i pc s = Next s' pc' ->
  limits (vm s') = limits (vm s) /\ steps (budget (vm s)) <= steps (budget (vm s')) /\ polls s' = polls s.
Proof.
  destruct i; cbn; intros Hx; repeat case_split_in Hx; simplify_eq/=; try (repeat split; lia).
  - destruct (assign_budget _ _ _ _ _ _ Heqo) as [-> ?]. repeat split; lia.
  - destruct (execute_builtin_budget _ _ _ _ _ _ _ _ Heqo) as [-> ?]. repeat split; lia.
Qed.

Lemma exec_instr_halt i pc s s' r : exec_instr i pc s = Halt s' r -> polls s' = polls s.
Proof. destruct i; cbn; intros Hx; repeat case_split_in Hx; by simplify_eq/=. Qed.

(** C27: The step limit bounds every run: with a limit set, whatever the program
    (also one that loops), the interpreter stops within the remaining steps
    plus one poll; it never runs on. *)
Theorem step_limit_bounds_run (code : list Ir) (pc : Z) (fuel : nat) s :
  0 < step_limit (limits (vm s)) <= U64_MAX -> 0 <= steps (budget (vm s)) ->
  (Z.to_nat (step_limit (limits (vm s)) - steps (budget (vm s))) < fuel)%nat ->
  match run_loop stores fuel code pc s with
  | Finished s' _ =>
      (polls s' <= polls s + Z.to_nat (step_limit (limits (vm s)) - steps (budget (vm s))) + 1)%nat
  | ExecutorStuck => True
  | OutOfFuel => False
  end.
Proof.
  revert pc s. induction fuel as [|fuel IH]; intros pc s Hlim Hst Hf; [lia|]. cbn [run_loop].
  destruct (code !! Z.to_nat pc) as [i|]; [|lia].
  destruct (poll stores s) as [s1 [u|stop]] eqn:Hp.
  - apply poll_granted in Hp as (Hl & Hpo & Hs & Hlt). specialize (Hlt ltac:(lia)).
    unfold wrap_add in Hs. rewrite Z.mod_small in Hs by lia.
    destruct (exec_instr i pc s1) as [s2 pc'|s2 r|] eqn:He; [| |done].
    + apply exec_instr_next in He as (Hl2 & Hs2 & Hp2). rewrite Hl in Hl2.
      specialize (IH pc' s2). rewrite Hl2 in IH. specialize (IH Hlim ltac:(lia) ltac:(lia)).
      destruct (run_loop stores fuel code pc' s2); [|done..]. lia.
    + apply exec_instr_halt in He. lia.
  - unfold poll in Hp. destruct (Vm.begin_step _); simplify_eq/=. lia.
Qed.

(** A cancellation stored before the [k]-th poll is seen by it: the run
    polls no further, and if it gets that far its result is [Cancelled], with
    no instruction executed after the request. *)
Theorem cancellation_prompt (code : list Ir) (pc : Z) (fuel k : nat) s s' r :
  stores k = Some true -> (polls s <= k)%nat ->
  run_loop stores fuel code pc s = Finished s' r ->
  (polls s' <= S k)%nat /\ (polls s' = S k -> r = Cancelled).
Proof.
  intros Hk. revert pc s. induction fuel as [|fuel IH]; intros pc s Hp; cbn [run_loop]; [done|].
  destruct (code !! Z.to_nat pc) as [i|]; [|intros; simplify_eq; lia].
  destruct (decide (polls s = k)) as [Heq|Hne].
  - unfold poll. rewrite Heq, Hk. unfold Vm.begin_step. cbn. intros; simplify_eq/=. split; [lia|done].
  - destruct (poll stores s) as [s1 [u|stop]] eqn:Hpo.
    + apply poll_granted in Hpo as (_ & Hpo & _). destruct (exec_instr i pc s1) as [s2 pc'|s2 r2|] eqn:He; [| |done].
      * apply exec_instr_next in He as (_ & _ & He). apply IH. lia.
      * apply exec_instr_halt in He. intros; simplify_eq. lia.
    + unfold poll in Hpo. destruct (Vm.begin_step _); intros; simplify_eq/=. lia.
Qed.
End limits.

(** Writes and steps of a VM nobody cancels. *)
Inductive vm_op := VOut (d : list Ascii.ascii) | VErr (d : list Ascii.ascii)
  | VStreams (o e : list Ascii.ascii) | VStep.

Definition vm_apply (v : Vm) (op : vm_op) : Vm :=
  match op with
  | VOut d => Vm.write_stdout d v
  | VErr d => Vm.write_stderr d v
  | VStreams o e => Vm.write_streams o e v
  | VStep => fst (Vm.begin_step v)
  end.

Definition op_bytes (op : vm_op) : Z :=
  match op with VOut d | VErr d => len d | VStreams o e => len o + len e | VStep => 0 end.

Definition output_exceeded (v : Vm) : bool :=
  match stop_reason (budget v) with
  | Some (Exhausted r) => bool_decide (category r = VisibleOutputBytes)
  | _ => false
  end.

(** The byte counter and the verdict agree with the bytes written so far. *)
Definition output_inv (lim total : Z) (v : Vm) : Prop :=
  output_byte_limit (limits v) = lim /\ cancel v = false /\
  visible_output_bytes (budget v) = Z.min U64_MAX total /\
  output_exceeded v = (lim <? total).

Lemma track_output_inv lim total n v :
  0 < lim < U64_MAX -> 0 <= n -> 0 <= total ->
  output_inv lim total v -> output_inv lim (total + n) (fst (Vm.track_output n v)).
Proof.
  intros Hlim Hn Ht (Hl & Hc & Hv & He). unfold Vm.track_output, Budget.track_visible_output, sat_add, Budget.exhaust.
  cbn. rewrite Hl, Hv. destruct ((0 <? lim) && _) eqn:Hx; unfold output_inv, output_exceeded in *; cbn.
  - repeat split; [done..|lia|]. rewrite bool_decide_true by done. symmetry. bool_to_prop. apply Z.ltb_lt. lia.
  - repeat split; [done..|lia|]. rewrite He. apply andb_false_iff in Hx as [?|?]; bool_to_prop; lia.
Qed.

Lemma append_out_inv lim total o e v : output_inv lim total v -> output_inv lim total (Vm.append_out o e v).
Proof. done. Qed.

(** Taking a step neither raises nor clears the output verdict. *)
Lemma begin_step_verdict v :
  cancel v = false ->
  let v' := fst (Vm.begin_step v) in
  limits v' = limits v /\ cancel v' = false /\
  visible_output_bytes (budget v') = visible_output_bytes (budget v) /\
  output_exceeded v' = output_exceeded v /\
  (snd (Vm.begin_step v) = inr OutputLimitExceeded <-> output_exceeded v = true).
Proof.
  intros Hc. unfold Vm.begin_step. rewrite Hc.
  unfold Vm.check_output_limit, Vm.budget_stop, Budget.begin_step, Budget.exhaust.
  destruct (stop_reason (budget v)) as [[r|]|] eqn:Hr; [destruct (decide (category r = VisibleOutputBytes)) as [Hv|Hv]| |].
  { unfold output_exceeded. cbn. rewrite Hr, bool_decide_true by done. done. }
  all: destruct ((0 <? _) && _); unfold output_exceeded; cbn; rewrite Hr, ?bool_decide_false by done; done.
Qed.

Lemma vm_apply_inv lim total v op :
  0 < lim < U64_MAX -> 0 <= total ->
  output_inv lim total v -> output_inv lim (total + op_bytes op) (vm_apply v op).
Proof.
  intros Hlim Ht Hv. destruct op as [d|d|o e|]; cbn [op_bytes vm_apply].
  - apply track_output_inv; [done|apply len_nonneg|done|by apply append_out_inv].
  - apply track_output_inv; [done|apply len_nonneg|done|by apply append_out_inv].
  - apply track_output_inv; [done| |done|by apply append_out_inv].
    pose proof (len_nonneg o). pose proof (len_nonneg e). lia.
  - rewrite Z.add_0_r. destruct Hv as (Hl & Hc & Hb & He).
    destruct (begin_step_verdict v Hc) as (Hl' & Hc' & Hb' & He' & _).
    unfold output_inv. by rewrite Hl', Hc', Hb', He'.
Qed.

Lemma op_bytes_nonneg op : 0 <= op_bytes op.
Proof.
  destruct op as [d|d|o e|]; cbn; [apply len_nonneg..| |lia].
  pose proof (len_nonneg o). pose proof (len_nonneg e). lia.
Qed.

Lemma vm_ops_inv lim ops total v :
  0 < lim < U64_MAX -> 0 <= total -> output_inv lim total v ->
  output_inv lim (total + foldr Z.add 0 (map op_bytes ops)) (foldl vm_apply v ops).
Proof.
  intros Hlim. revert total v. induction ops as [|op ops IH]; intros total v Ht Hv; cbn.
  { by rewrite Z.add_0_r. }
  rewrite Z.add_assoc. pose proof (op_bytes_nonneg op). apply IH; [lia|]. by apply vm_apply_inv.
Qed.

(** C39: The output limit is enforced and exact: in a VM with an output limit,
    after any sequence of writes and steps, the next step is refused with
    [OutputLimitExceeded] exactly when the bytes written so far, on both
    streams together, exceed the limit. *)
Theorem output_limit_exact (st : ShellState) (lims : ExecutionLimits) (ops : list vm_op) :
  0 < output_byte_limit lims < U64_MAX ->
  let v := foldl vm_apply (Vm.with_limits st lims) ops in
  snd (Vm.begin_step v) = inr OutputLimitExceeded <->
  output_byte_limit lims < foldr Z.add 0 (map op_bytes ops).
Proof.
  intros Hlim v. destruct (vm_ops_inv (output_byte_limit lims) ops 0 (Vm.with_limits st lims)) as (_ & Hc & _ & He);
    [done|done| |].
  - unfold output_inv, output_exceeded. cbn. repeat split. symmetry. apply Z.ltb_ge. lia.
  - fold v in Hc, He. destruct (begin_step_verdict v Hc) as (_ & _ & _ & _ & ->). rewrite He. apply Z.ltb_lt.
Qed.

(** ** Concrete runs *)

Definition no_stores (i : nat) : option bool := None.

Definition lit_word (s : str) : Word := {| parts := [Literal s]; word_span := {| span_start := 0; span_end := 0 |} |}.

Definition expand_lit (w : Word) (st : ShellState) : option (ShellState * list Ascii.ascii) :=
  Some (st, default [] (literal_word_text (Some w))).

(** [echo], [true] and [false]. *)
Definition demo_builtins : BuiltinVmExecutor := {| builtins := fun name =>
  if decide (name = #"echo") then Some (fun st args => Some (st, join #" " (tail args) ++ [Ascii.ascii_of_N 10], [], 0))
  else if decide (name = #"true") then Some (fun st _ => Some (st, [], [], 0))
  else if decide (name = #"false") then Some (fun st _ => Some (st, [], [], 1))
  else None |}.

#[local] Existing Instance native64.
#[local] Instance demo_executor : VmExecutor BuiltinVmExecutor := builtin_vm_executor expand_lit.
#[local] Instance demo_lawful : LawfulExecutor BuiltinVmExecutor := builtin_lawful expand_lit.

Definition cmd (ws : list str) : HirPipeline :=
  let sp := {| span_start := 0; span_end := 0 |} in
  mkHirPipeline false false false [HExec (map lit_word ws) [] [] sp] [].

(** [false && echo a || echo b]. *)
Definition demo_list : HirAndOr :=
  mkHirAndOr (cmd [ #"false" ]) [(HAnd, cmd [ #"echo"; #"a" ]); (HOr, cmd [ #"echo"; #"b" ])].

Definition demo_program : IrProgram :=
  match lower_supported_and_or demo_list with Ok p => p | _ => {| instructions := [] |} end.

Definition demo_machine (limit : Z) : machine BuiltinVmExecutor :=
  {| vm := Vm.new (new_state 1) limit; ex := demo_builtins; polls := 0 |}.

Lemma lowering_correct_witness :
  match run_loop no_stores 6 (instructions demo_program) 0 (demo_machine 0) with
  | Finished s' (Done 0) => stdout (vm s') = #"b" ++ [Ascii.ascii_of_N 10]
  | _ => False
  end /\
  run_loop no_stores 6 (instructions demo_program) 0 (demo_machine 0) =
    match and_or_sem no_stores demo_list (demo_machine 0) with
    | Go s' => OutOfFuel | Fin s' r => Finished s' r | FStuck => ExecutorStuck end.
Proof.
  split; [vm_compute; reflexivity|].
  apply (lowering_correct no_stores demo_list demo_program 6); [reflexivity|vm_compute; lia].
Defined.

Lemma step_limit_bounds_run_witness :
  match run_loop no_stores 4 [Nop; JumpIfSuccess 0] 0 (demo_machine 3) with
  | Finished s' _ => (polls s' <= 0 + 3 + 1)%nat
  | ExecutorStuck => True
  | OutOfFuel => False
  end.
Proof.
  apply (step_limit_bounds_run no_stores [Nop; JumpIfSuccess 0] 0 4 (demo_machine 3)); vm_compute; [done|done|lia].
Defined.

Definition cancel_at_2 (i : nat) : option bool := if decide (i = 2%nat) then Some true else None.

Lemma cancellation_prompt_witness :
  match run_loop cancel_at_2 100 [Nop; JumpIfSuccess 0] 0 (demo_machine 0) with
  | Finished s' r => (polls s' <= 3)%nat /\ (polls s' = 3%nat -> r = Cancelled)
  | _ => False
  end.
Proof.
  destruct (run_loop cancel_at_2 100 [Nop; JumpIfSuccess 0] 0 (demo_machine 0)) as [s' r| |] eqn:Hr;
    [|vm_compute in Hr; discriminate..].
  apply (cancellation_prompt cancel_at_2 [Nop; JumpIfSuccess 0] 0 100 2 (demo_machine 0) s' r); [reflexivity|cbn; lia|exact Hr].
Defined.

Lemma output_limit_exact_witness :
  let lims := {| step_limit := 0; output_byte_limit := 3; pipe_byte_limit := 0; recursion_limit := 0 |} in
  snd (Vm.begin_step (foldl vm_apply (Vm.with_limits (new_state 1) lims) [VOut #"ab"; VStep; VErr #"cd"])) =
    inr OutputLimitExceeded.
Proof.
  apply (output_limit_exact (new_state 1)
    {| step_limit := 0; output_byte_limit := 3; pipe_byte_limit := 0; recursion_limit := 0 |}
    [VOut #"ab"; VStep; VErr #"cd"]); vm_compute; done.
Defined.
