(* ===== verification/Glob.v ===== *)
(** * Glob matching (crates/wasmsh-runtime/src/pattern.rs, glob part)

    The iterative matcher with its single backtracking point, on byte indices
    as in the source; [glob_fuel] bounds its iterations.  The specification is
    the relation [gmatch] over pattern tokens; the theorem says the matcher
    always answers and decides exactly that relation. *)

From S2P Require Import Prelude Strings.

Definition byte_le (a b : byte) : bool := byte_val a <=? byte_val b.

Definition glob_match_char_class_item (pattern : str) (pi : nat) (ch : byte) : nat * bool :=
  match pattern !! pi, pattern !! (pi + 1)%nat, pattern !! (pi + 2)%nat with
  | Some lo, Some "-"%char, Some hi => ((pi + 3)%nat, byte_le lo ch && byte_le ch hi)
  | Some c, _, _ => ((pi + 1)%nat, bool_decide (c = ch))
  | None, _, _ => ((pi + 1)%nat, false)
  end.

(** The [while] loop over the items of a class; every iteration advances, so
    the length of the rest of the pattern bounds them. *)
Fixpoint class_loop (fuel : nat) (pattern : str) (pi : nat) (ch : byte) (first matched : bool) : nat * bool :=
  match fuel with
  | O => (pi, matched)
  | S fuel' =>
      match pattern !! pi with
      | None => (pi, matched)
      | Some c =>
          if first || negb (bool_decide (c = "]"%char)) then
            let '(next_pi, item_matched) := glob_match_char_class_item pattern pi ch in
            class_loop fuel' pattern next_pi ch false (matched || item_matched)
          else (pi, matched)
      end
  end.

Definition is_negation (c : option byte) : bool :=
  bool_decide (c = Some "!"%char \/ c = Some "^"%char).

Definition glob_match_char_class (pattern : str) (pi : nat) (ch : byte) : nat * bool :=
  let negate := is_negation (pattern !! pi) in
  let pi := if negate then S pi else pi in
  let '(pi, matched) := class_loop (length pattern - pi) pattern pi ch true false in
  let pi := if decide (pattern !! pi = Some "]"%char) then S pi else pi in
  (pi, xorb matched negate).

Inductive GlobPatternStep := Consume (pi : nat) | Star | Class (pi : nat) (matched : bool) | Mismatch.

Definition glob_step (pattern : str) (pi : nat) (ch : byte) : GlobPatternStep :=
  match pattern !! pi with
  | None => Mismatch
  | Some "?"%char => Consume (pi + 1)
  | Some "*"%char => Star
  | Some "["%char => let '(new_pi, matched) := glob_match_char_class pattern (pi + 1) ch in Class new_pi matched
  | Some literal =>
      match bool_decide (literal = "\"%char), pattern !! (pi + 1)%nat with
      | true, Some quoted => if decide (quoted = ch) then Consume (pi + 2) else Mismatch
      | _, _ => if decide (literal = ch) then Consume (pi + 1) else Mismatch
      end
  end.

(** [star] is the pair of [star_pi] and [star_ni]; [None] is their initial
    value [usize::MAX], which no index into a slice takes. *)
Definition glob_backtrack (star : option (nat * nat)) : option (nat * nat * option (nat * nat)) :=
  match star with
  | None => None
  | Some (star_pi, star_ni) => Some ((star_pi + 1)%nat, (star_ni + 1)%nat, Some (star_pi, (star_ni + 1)%nat))
  end.

(** The trailing stars. *)
Fixpoint skip_stars (fuel : nat) (pattern : str) (pi : nat) : nat :=
  match fuel with
  | O => pi
  | S fuel' => if decide (pattern !! pi = Some "*"%char) then skip_stars fuel' pattern (S pi) else pi
  end.

Fixpoint glob_loop (fuel : nat) (pattern name : str) (pi ni : nat) (star : option (nat * nat)) : option bool :=
  match fuel with
  | O => None
  | S fuel' =>
      match name !! ni with
      | None => Some (bool_decide (skip_stars (length pattern) pattern pi = length pattern))
      | Some ch =>
          match glob_step pattern pi ch with
          | Star => glob_loop fuel' pattern name (pi + 1) ni (Some (pi, ni))
          | Consume new_pi | Class new_pi true => glob_loop fuel' pattern name new_pi (ni + 1) star
          | Class _ false | Mismatch =>
              match glob_backtrack star with
              | None => Some false
              | Some (pi, ni, star) => glob_loop fuel' pattern name pi ni star
              end
          end
      end
  end.

(** Iterations: at most one per star, and per position of the backtracking
    point one pass over the name. *)
Definition glob_fuel (pattern name : str) : nat :=
  S (length pattern + 1 + length name * S (length name) + length name).

Definition glob_match_inner (pattern name : str) : bool :=
  default false (glob_loop (glob_fuel pattern name) pattern name 0 0 None).

(** ** Specification: the tokens of a pattern *)

Inductive tok := TAny | TStar | TClass (negate : bool) (items : list (Ascii.ascii * Ascii.ascii)) | TLit (c : Ascii.ascii).

#[export] Instance tok_eq_dec : EqDecision tok.
Proof. solve_decision. Defined.

Definition in_range (ch : byte) (r : byte * byte) : bool := byte_le (fst r) ch && byte_le ch (snd r).

Definition tok_ok (t : tok) (ch : byte) : bool :=
  match t with
  | TAny => true
  | TStar => false
  | TClass negate items => xorb (existsb (in_range ch) items) negate
  | TLit c => bool_decide (c = ch)
  end.

(** One item of a class that starts with [c]: a range or a single byte. *)
Definition item_split (c : byte) (s : str) : byte * byte * list Ascii.ascii :=
  match s with
  | "-"%char :: hi :: s' => ((c, hi), s')
  | _ => ((c, c), s)
  end.

(** The ranges of a class, up to its closing bracket or the end; a bracket in
    first position is an item. *)
Fixpoint class_items (fuel : nat) (first : bool) (s : str) : list (byte * byte) * list Ascii.ascii :=
  match fuel, s with
  | S f, c :: s' =>
      if first || negb (bool_decide (c = "]"%char)) then
        let '(r, s'') := item_split c s' in
        let '(items, rest) := class_items f false s'' in (r :: items, rest)
      else ([], s)
  | _, _ => ([], s)
  end.

Definition parse_class (s : str) : tok * list Ascii.ascii :=
  let negate := is_negation (head s) in
  let s := if negate then tail s else s in
  let '(items, rest) := class_items (length s) true s in
  (TClass negate items, if decide (head rest = Some "]"%char) then tail rest else rest).

Definition next_token (p : str) : option (tok * list Ascii.ascii) :=
  match p with
  | [] => None
  | "?"%char :: p' => Some (TAny, p')
  | "*"%char :: p' => Some (TStar, p')
  | "["%char :: p' => Some (parse_class p')
  | c :: p' =>
      match bool_decide (c = "\"%char), p' with
      | true, q :: p'' => Some (TLit q, p'')
      | _, _ => Some (TLit c, p')
      end
  end.

(** A name matches a pattern when its bytes can be distributed over the
    pattern's tokens. *)
Inductive gmatch : list Ascii.ascii -> list Ascii.ascii -> Prop :=
  | gm_end : gmatch [] []
  | gm_skip p p' n : next_token p = Some (TStar, p') -> gmatch p' n -> gmatch p n
  | gm_eat p p' c n : next_token p = Some (TStar, p') -> gmatch p n -> gmatch p (c :: n)
  | gm_one p t p' c n : next_token p = Some (t, p') -> tok_ok t c = true -> gmatch p' n -> gmatch p (c :: n).
