(* ===== verification/GlobProps.v ===== *)
(** * The glob matcher decides its specification

    Index-based steps against tokens, the invariant of the backtracking loop
    (only the last star needs to be revisited), its termination measure. *)

From S2P Require Import Prelude Strings Glob.

(** ** Positions and suffixes *)

Lemma lookup_drop0 (s : str) i : s !! i = head (drop i s).
Proof. rewrite <- (Nat.add_0_r i) at 1. rewrite <- lookup_drop. by destruct (drop i s). Qed.

Lemma drop_succ_tail (s : str) i : drop (S i) s = tail (drop i s).
Proof. replace (S i) with (i + 1)%nat by lia. rewrite <- drop_drop. by destruct (drop i s). Qed.

Lemma drop_add_cons (s r : str) i c : drop i s = c :: r -> drop (i + 1) s = r.
Proof. intros Hd. rewrite <- drop_drop, Hd. done. Qed.

Lemma lookup_from (s : str) i k : s !! (i + k)%nat = drop i s !! k.
Proof. by rewrite lookup_drop. Qed.

Lemma drop_length_bound (s r : str) i : drop i s = r -> r <> [] -> (i + length r = length s)%nat.
Proof.
  intros <- Hr. assert (length (drop i s) <> 0%nat) by (by rewrite length_zero_iff_nil).
  rewrite length_drop in *. lia.
Qed.

Lemma single_range ch c : in_range ch (c, c) = bool_decide (c = ch).
Proof.
  unfold in_range, byte_le; cbn. case_bool_decide as Hc.
  - subst. by rewrite Z.leb_refl.
  - apply andb_false_iff. destruct (Z.lt_trichotomy (byte_val c) (byte_val ch)) as [?|[?|?]].
    + right. apply Z.leb_gt. lia.
    + by apply byte_val_inj in H.
    + left. apply Z.leb_gt. lia.
Qed.

(** ** Character classes *)

Lemma class_item_spec pattern pi ch c s' :
  drop pi pattern = c :: s' ->
  exists k, glob_match_char_class_item pattern pi ch = ((pi + k)%nat, in_range ch (fst (item_split c s'))) /\
    (1 <= k)%nat /\ (pi + k <= length pattern)%nat /\ drop (pi + k) pattern = snd (item_split c s').
Proof.
  intros Hd. pose proof (drop_length_bound _ _ _ Hd ltac:(done)) as Hb. cbn in Hb. pose proof (drop_add_cons _ _ pi c Hd) as Hd1.
  unfold glob_match_char_class_item. rewrite (lookup_drop0 pattern pi), !lookup_from, Hd. cbn.
  assert (Hsingle : item_split c s' = ((c, c), s') ->
    exists k, ((pi + 1)%nat, bool_decide (c = ch)) = ((pi + k)%nat, in_range ch (fst (item_split c s'))) /\
      (1 <= k)%nat /\ (pi + k <= length pattern)%nat /\ drop (pi + k) pattern = snd (item_split c s')).
  { intros ->. exists 1%nat. cbn. rewrite single_range. repeat split; [lia..|done]. }
  destruct s' as [|d [|hi s'']]; cbn; [by apply Hsingle|by destruct d as [[] [] [] [] [] [] [] []]; apply Hsingle|].
  destruct (decide (d = "-"%char)) as [->|Hne].
  - exists 3%nat. split; [done|]. split; [lia|]. cbn in Hb. split; [lia|]. by rewrite <- drop_drop, Hd.
  - by destruct d as [[] [] [] [] [] [] [] []]; try (by apply Hsingle); congruence.
Qed.

(** The pattern-side and the index-side loop run in step. *)
Lemma class_loop_spec fuel pattern pi ch first matched :
  (length (drop pi pattern) <= fuel)%nat -> (pi <= length pattern)%nat ->
  exists k, class_loop fuel pattern pi ch first matched =
      ((pi + k)%nat, matched || existsb (in_range ch) (fst (class_items fuel first (drop pi pattern)))) /\
    (pi + k <= length pattern)%nat /\
    drop (pi + k) pattern = snd (class_items fuel first (drop pi pattern)).
Proof.
  revert pi first matched. induction fuel as [|fuel IH]; intros pi first matched Hf Hpi; cbn.
  { exists 0%nat. rewrite orb_false_r, Nat.add_0_r. by destruct (drop pi pattern). }
  rewrite lookup_drop0. destruct (drop pi pattern) as [|c s'] eqn:Hd; cbn.
  { exists 0%nat. by rewrite orb_false_r, Nat.add_0_r. }
  destruct (first || _); [|exists 0%nat; by rewrite orb_false_r, Nat.add_0_r].
  destruct (class_item_spec pattern pi ch c s' Hd) as (k & -> & Hk & Hkb & Hr).
  destruct (item_split c s') as [r s'']. cbn in Hr |- *.
  destruct (IH (pi + k)%nat false (matched || in_range ch r)) as (k' & -> & Hkb' & Hd').
  { assert (length (drop pi pattern) = S (length s')) as Hl by (by rewrite Hd).
    rewrite length_drop in *. cbn in Hf. lia. }
  { done. }
  rewrite Hr in *. destruct (class_items fuel false s'') as [items rest]. cbn in *.
  exists (k + k')%nat. rewrite Nat.add_assoc, orb_assoc. done.
Qed.

Lemma char_class_spec pattern pi ch :
  (pi <= length pattern)%nat ->
  exists k, glob_match_char_class pattern pi ch = ((pi + k)%nat, tok_ok (fst (parse_class (drop pi pattern))) ch) /\
    (pi + k <= length pattern)%nat /\ drop (pi + k) pattern = snd (parse_class (drop pi pattern)).
Proof.
  intros Hpi. unfold glob_match_char_class, parse_class. rewrite lookup_drop0.
  set (neg := is_negation _). set (pi1 := if neg then S pi else pi).
  assert (Hd1 : (if neg then tail (drop pi pattern) else drop pi pattern) = drop pi1 pattern).
  { subst pi1. destruct neg; [by rewrite drop_succ_tail|done]. }
  rewrite Hd1. assert (Hlen : (length pattern - pi1 = length (drop pi1 pattern))%nat) by (by rewrite length_drop).
  rewrite Hlen. assert (Hpi1 : (pi1 <= length pattern)%nat).
  { subst pi1. destruct neg eqn:Hneg; [|done]. subst neg. unfold is_negation in Hneg. bool_to_prop.
    rewrite <- lookup_drop0 in Hneg. destruct (pattern !! pi) eqn:Hl; [|naive_solver].
    by apply lookup_lt_Some in Hl. }
  destruct (class_loop_spec (length (drop pi1 pattern)) pattern pi1 ch true false) as (k & -> & Hkb & Hk); [lia|done|].
  destruct (class_items _ true (drop pi1 pattern)) as [items rest]. cbn in *.
  rewrite lookup_drop0, Hk. case_decide as Hcl.
  - rewrite <- Hk, <- lookup_drop0 in Hcl. apply lookup_lt_Some in Hcl.
    exists (S ((if neg then 1 else 0) + k)). subst pi1. split; [f_equal; destruct neg; lia|].
    split; [destruct neg; lia|].
    rewrite <- Hk, <- drop_succ_tail. f_equal. destruct neg; lia.
  - exists ((if neg then 1 else 0) + k)%nat. subst pi1. split; [f_equal; destruct neg; lia|].
    split; [destruct neg; lia|].
    rewrite <- Hk. f_equal. destruct neg; lia.
Qed.

(** ** One step of the matcher is one token *)

Lemma next_token_other c p :
  c <> "?"%char -> c <> "*"%char -> c <> "["%char ->
  next_token (c :: p) =
    match bool_decide (c = "\"%char), p with
    | true, q :: p' => Some (TLit q, p')
    | _, _ => Some (TLit c, p)
    end.
Proof. destruct c as [[] [] [] [] [] [] [] []]; try done; congruence. Qed.

Lemma glob_step_other pattern pi ch c :
  c <> "?"%char -> c <> "*"%char -> c <> "["%char -> pattern !! pi = Some c ->
  glob_step pattern pi ch =
    match bool_decide (c = "\"%char), pattern !! (pi + 1)%nat with
    | true, Some quoted => if decide (quoted = ch) then Consume (pi + 2) else Mismatch
    | _, _ => if decide (c = ch) then Consume (pi + 1) else Mismatch
    end.
Proof.
  intros ? ? ? Hp. unfold glob_step. rewrite Hp.
  destruct c as [[] [] [] [] [] [] [] []]; try done; congruence.
Qed.

(** What a step does, by the next token of the pattern. *)
Definition step_agrees (pattern : str) (pi : nat) (ch : byte) (nt : option (tok * list Ascii.ascii)) : Prop :=
  match nt with
  | None => glob_step pattern pi ch = Mismatch
  | Some (TStar, p') => glob_step pattern pi ch = Star /\ drop (pi + 1) pattern = p'
  | Some (t, p') =>
      if tok_ok t ch
      then exists pi', (pi < pi' <= length pattern)%nat /\ drop pi' pattern = p' /\
             (glob_step pattern pi ch = Consume pi' \/ glob_step pattern pi ch = Class pi' true)
      else glob_step pattern pi ch = Mismatch \/ exists pi', glob_step pattern pi ch = Class pi' false
  end.

Lemma step_agrees_lit pattern pi ch q pi' p' :
  glob_step pattern pi ch = (if decide (q = ch) then Consume pi' else Mismatch) ->
  (pi < pi' <= length pattern)%nat -> drop pi' pattern = p' -> step_agrees pattern pi ch (Some (TLit q, p')).
Proof.
  intros Hs Hb Hd. cbn. rewrite Hs. case_bool_decide; case_decide; try done; [eauto|by left].
Qed.

Lemma glob_step_spec pattern pi ch : step_agrees pattern pi ch (next_token (drop pi pattern)).
Proof.
  destruct (drop pi pattern) as [|c p] eqn:Hd.
  { cbn. unfold glob_step. by rewrite lookup_drop0, Hd. }
  pose proof (drop_add_cons _ _ _ _ Hd) as Hd1.
  pose proof (drop_length_bound _ _ _ Hd ltac:(done)) as Hb. cbn in Hb.
  assert (Hc : pattern !! pi = Some c) by (by rewrite lookup_drop0, Hd).
  destruct (decide (c = "?"%char)) as [->|H1].
  { cbn. unfold glob_step. rewrite Hc. exists (pi + 1)%nat. repeat split; [lia|lia|done|by left]. }
  destruct (decide (c = "*"%char)) as [->|H2].
  { cbn. unfold glob_step. by rewrite Hc. }
  destruct (decide (c = "["%char)) as [->|H3].
  { cbn [next_token]. destruct (char_class_spec pattern (pi + 1) ch) as (k & Hk & Hkb & Hr); [lia|]. rewrite Hd1 in *.
    destruct (parse_class p) as [t p'] eqn:Hpc. cbn in Hk, Hr.
    assert (Hst : glob_step pattern pi ch = Class (pi + 1 + k) (tok_ok t ch)).
    { unfold glob_step. by rewrite Hc, Hk. }
    assert (Ht : t <> TStar).
    { unfold parse_class in Hpc. destruct (class_items _ _ _). by simplify_eq. }
    unfold step_agrees. rewrite Hst. assert ((pi < pi + 1 + k <= length pattern)%nat) by lia.
    destruct t; try done; destruct (tok_ok _ ch); eauto. }
  rewrite next_token_other by done.
  pose proof (glob_step_other pattern pi ch c H1 H2 H3 Hc) as Hst. rewrite lookup_drop0, Hd1 in Hst.
  destruct (bool_decide (c = "\"%char)); [|eapply step_agrees_lit; [done|lia|done]].
  destruct p as [|q p']; cbn in Hst, Hb; [eapply step_agrees_lit; [done|lia|done]|].
  eapply step_agrees_lit; [done|lia|]. by rewrite <- drop_drop, Hd.
Qed.

(** ** The relation *)

Lemma gmatch_star p p' n :
  next_token p = Some (TStar, p') ->
  gmatch p n <-> exists k, (k <= length n)%nat /\ gmatch p' (drop k n).
Proof.
  intros Ht. split.
  - intros Hg. revert Ht. induction Hg as [|p q n Hq Hg IH|p q c n Hq Hg IH|p t q c n Hq Hok Hg IH]; intros Ht; simplify_eq.
    + exists 0%nat. split; [lia|]. by rewrite drop_0.
    + destruct (IH Hq) as (k & ? & ?). exists (S k). cbn. split; [lia|done].
  - intros (k & Hk & Hg). revert n Hk Hg. induction k as [|k IH]; intros n Hk Hg.
    + rewrite drop_0 in Hg. by eapply gm_skip.
    + destruct n as [|c n]; cbn in *; [lia|]. eapply gm_eat; [done|]. apply IH; [lia|done].
Qed.

Lemma gmatch_tok p t p' n :
  next_token p = Some (t, p') -> t <> TStar ->
  gmatch p n <-> exists c n', n = c :: n' /\ tok_ok t c = true /\ gmatch p' n'.
Proof.
  intros Ht Hs. split.
  - inversion 1; simplify_eq. eauto.
  - intros (c & n' & -> & ? & ?). by eapply gm_one.
Qed.

Lemma gmatch_nil_pattern n : gmatch [] n <-> n = [].
Proof. split; [by inversion 1|intros ->; constructor]. Qed.

(** [m] tokens other than stars lead from one suffix of the pattern to
    another. *)
Inductive seg : nat -> list Ascii.ascii -> list Ascii.ascii -> Prop :=
  | seg_nil p : seg 0 p p
  | seg_snoc m p q t r : seg m p q -> next_token q = Some (t, r) -> t <> TStar -> seg (S m) p r.

(** Such a stretch consumes exactly [m] bytes of any name it matches. *)
Lemma seg_gmatch m p q n :
  seg m p q -> gmatch p n -> (m <= length n)%nat /\ gmatch q (drop m n).
Proof.
  intros Hs. induction Hs as [p|m p q t r Hs IH Ht Hne]; intros Hg; [rewrite drop_0; split; [lia|done]|].
  destruct (IH Hg) as [Hl Hq]. rewrite (gmatch_tok _ _ _ _ Ht Hne) in Hq.
  destruct Hq as (c & n' & Hd & _ & Hr).
  assert (Hlen : length (drop m n) = S (length n')) by (by rewrite Hd). rewrite length_drop in Hlen.
  split; [lia|]. by rewrite drop_succ_tail, Hd.
Qed.

(** ** The loop *)

Lemma skip_stars_spec fuel pattern pi :
  (length pattern - pi <= fuel)%nat -> (pi <= length pattern)%nat ->
  skip_stars fuel pattern pi = length pattern <-> gmatch (drop pi pattern) [].
Proof.
  revert pi. induction fuel as [|fuel IH]; intros pi Hf Hpi; cbn.
  { assert (pi = length pattern) as -> by lia. rewrite drop_all. split; [constructor|done]. }
  rewrite lookup_drop0. destruct (drop pi pattern) as [|c p] eqn:Hd; cbn.
  { rewrite decide_False by done. rewrite gmatch_nil_pattern. split; [done|]. intros _.
    assert (Hl : length (drop pi pattern) = 0%nat) by (by rewrite Hd). rewrite length_drop in Hl. lia. }
  pose proof (drop_length_bound _ _ _ Hd ltac:(done)) as Hb. cbn in Hb.
  case_decide as Hc.
  - simplify_eq. rewrite IH by lia. rewrite drop_succ_tail, Hd. cbn.
    rewrite (gmatch_star ("*"%char :: p) p []) by done. split; [intros; by exists 0%nat|].
    intros (k & _ & Hk). by rewrite drop_nil in Hk.
  - split; [intros ->; lia|]. intros Hg. exfalso.
    assert (exists p', next_token (c :: p) = Some (TStar, p')) as [p' Hp'] by (inversion Hg; eauto).
    destruct (decide (c = "?"%char)) as [->|]; [done|]. destruct (decide (c = "["%char)) as [->|].
    + cbn in Hp'. unfold parse_class in Hp'. destruct (class_items _ _ _). done.
    + rewrite next_token_other in Hp' by naive_solver. repeat case_split_in Hp'; done.
Qed.

(** The names still possible from a state of the loop. *)
Definition answer (pattern name : str) (pi ni : nat) (star : option (nat * nat)) : Prop :=
  gmatch (drop pi pattern) (drop ni name) \/
  exists sp sn k, star = Some (sp, sn) /\ (sn < k <= length name)%nat /\
    gmatch (drop (sp + 1) pattern) (drop k name).

(** Since the last star only single tokens were consumed, one byte each. *)
Definition loop_inv (pattern name : str) (pi ni : nat) (star : option (nat * nat)) : Prop :=
  (pi <= length pattern)%nat /\ (ni <= length name)%nat /\
  match star with
  | None => True
  | Some (sp, sn) => (sn <= ni)%nat /\ (sp < pi)%nat /\ (sp < length pattern)%nat /\
      seg (ni - sn) (drop (sp + 1) pattern) (drop pi pattern)
  end.

(** Decreases with every iteration. *)
Definition measure (pattern name : str) (ni : nat) (star : option (nat * nat)) : nat :=
  match star with
  | None => length pattern + 1 + length name * S (length name) + (length name - ni)
  | Some (sp, sn) => (length pattern - sp) + (length name - sn) * S (length name) + (length name - ni)
  end.

(** A match through the last star extends to a match from the current state,
    shifted. *)
Lemma star_shift pattern name pi ni sp sn k :
  loop_inv pattern name pi ni (Some (sp, sn)) -> (sn < k <= length name)%nat ->
  gmatch (drop (sp + 1) pattern) (drop k name) ->
  exists j, (ni < j <= length name)%nat /\ gmatch (drop pi pattern) (drop j name).
Proof.
  intros (_ & Hni & Hsn & _ & _ & Hseg) Hk Hg. destruct (seg_gmatch _ _ _ _ Hseg Hg) as [Hl Hq].
  rewrite length_drop in Hl. rewrite drop_drop in Hq. exists (k + (ni - sn))%nat. split; [lia|done].
Qed.

Lemma drop_cons_lookup (s : str) i c : s !! i = Some c -> drop i s = c :: drop (i + 1) s.
Proof. intros Hc. rewrite (drop_S _ c) by done. by rewrite Nat.add_1_r. Qed.

Lemma answer_end pattern name pi ni star :
  loop_inv pattern name pi ni star -> name !! ni = None ->
  answer pattern name pi ni star <-> gmatch (drop pi pattern) [].
Proof.
  intros Hinv Hn. pose proof Hinv as (_ & Hni & _). apply lookup_ge_None in Hn.
  assert (drop ni name = []) as Hd by (apply drop_ge; lia). unfold answer. rewrite Hd.
  split; [|by left]. intros [?|(sp & sn & k & -> & Hk & Hg)]; [done|].
  destruct (star_shift _ _ _ _ _ _ _ Hinv Hk Hg) as (j & Hj & _). lia.
Qed.

Lemma answer_star pattern name pi ni star p' :
  loop_inv pattern name pi ni star -> next_token (drop pi pattern) = Some (TStar, p') ->
  drop (pi + 1) pattern = p' ->
  answer pattern name pi ni star <-> answer pattern name (pi + 1) ni (Some (pi, ni)).
Proof.
  intros Hinv Ht Hd. pose proof Hinv as (_ & Hni & _).
  assert (Hst : forall j, (ni <= j <= length name)%nat -> gmatch (drop pi pattern) (drop j name) ->
     answer pattern name (pi + 1) ni (Some (pi, ni))).
  { intros j Hj Hg. rewrite (gmatch_star _ _ _ Ht) in Hg. destruct Hg as (k & Hk & Hg).
    rewrite drop_drop in Hg. rewrite length_drop in Hk. rewrite <- Hd in Hg.
    destruct (decide (j + k = ni)%nat) as [He|]; [left; by rewrite <- He|].
    right. exists pi, ni, (j + k)%nat. split; [done|]. split; [lia|done]. }
  split.
  - intros [Hg|(sp & sn & k & -> & Hk & Hg)]; [by apply (Hst ni)|].
    destruct (star_shift _ _ _ _ _ _ _ Hinv Hk Hg) as (j & Hj & Hg'). apply (Hst j); [lia|done].
  - intros [Hg|(sp & sn & k & [= <- <-] & Hk & Hg)]; left; rewrite (gmatch_star _ _ _ Ht).
    + exists 0%nat. rewrite drop_0, <- Hd. split; [lia|done].
    + exists (k - ni)%nat. rewrite drop_drop, length_drop, <- Hd.
      split; [lia|]. by replace (ni + (k - ni))%nat with k by lia.
Qed.

Lemma answer_consume pattern name pi ni star t p' pi' ch :
  next_token (drop pi pattern) = Some (t, p') -> t <> TStar -> tok_ok t ch = true ->
  name !! ni = Some ch -> drop pi' pattern = p' ->
  answer pattern name pi ni star <-> answer pattern name pi' (ni + 1) star.
Proof.
  intros Ht Hne Hok Hch Hd. unfold answer.
  rewrite (gmatch_tok _ _ _ _ Ht Hne), (drop_cons_lookup _ _ _ Hch), Hd.
  assert ((exists c n', ch :: drop (ni + 1) name = c :: n' /\ tok_ok t c = true /\ gmatch p' n') <->
          gmatch p' (drop (ni + 1) name)) as ->; [|done]. naive_solver.
Qed.

Lemma answer_backtrack pattern name pi ni star ch :
  loop_inv pattern name pi ni star -> name !! ni = Some ch ->
  ~ gmatch (drop pi pattern) (drop ni name) ->
  answer pattern name pi ni star <->
  match glob_backtrack star with
  | None => False
  | Some (pi', ni', star') => answer pattern name pi' ni' star'
  end.
Proof.
  intros Hinv Hch Hno. apply lookup_lt_Some in Hch. destruct star as [[sp sn]|]; cbn.
  - destruct Hinv as (_ & _ & Hsn & _). split.
    + intros [?|(? & ? & k & [= <- <-] & Hk & Hg)]; [done|].
      destruct (decide (k = sn + 1)%nat) as [->|]; [by left|].
      right. exists sp, (sn + 1)%nat, k. split; [done|]. split; [lia|done].
    + intros [Hg|(? & ? & k & [= <- <-] & Hk & Hg)]; right; exists sp, sn.
      * exists (sn + 1)%nat. split; [done|]. split; [lia|done].
      * exists k. split; [done|]. split; [lia|done].
  - split; [|done]. intros [?|(? & ? & ? & ? & _)]; done.
Qed.

Lemma no_match pattern pi name ni ch t p' :
  name !! ni = Some ch -> next_token (drop pi pattern) = Some (t, p') -> t <> TStar ->
  tok_ok t ch = false -> ~ gmatch (drop pi pattern) (drop ni name).
Proof.
  intros Hch Ht Hne Hok. rewrite (gmatch_tok _ _ _ _ Ht Hne), (drop_cons_lookup _ _ _ Hch).
  intros (c & n' & [= <- <-] & ? & _). congruence.
Qed.

(** The invariant and the measure along each kind of iteration. *)
Lemma loop_star pattern name pi ni star p' ch :
  loop_inv pattern name pi ni star -> next_token (drop pi pattern) = Some (TStar, p') ->
  name !! ni = Some ch ->
  loop_inv pattern name (pi + 1) ni (Some (pi, ni)) /\
  (measure pattern name ni (Some (pi, ni)) < measure pattern name ni star)%nat.
Proof.
  intros (Hpi & Hni & Hst) Ht Hch. assert (Hlt : (pi < length pattern)%nat).
  { destruct (drop pi pattern) as [|c p] eqn:Hd; [done|].
    pose proof (drop_length_bound _ _ _ Hd ltac:(done)) as Hb. cbn in Hb. lia. }
  split.
  - split; [lia|]. split; [done|]. repeat split; [lia..|]. rewrite Nat.sub_diag. constructor.
  - unfold measure. destruct star as [[sp sn]|]; [destruct Hst as (? & ? & ? & _)|]; nia.
Qed.

Lemma loop_consume pattern name pi ni star t p' pi' ch :
  loop_inv pattern name pi ni star -> next_token (drop pi pattern) = Some (t, p') -> t <> TStar ->
  (pi < pi' <= length pattern)%nat -> drop pi' pattern = p' -> name !! ni = Some ch ->
  loop_inv pattern name pi' (ni + 1) star /\
  (measure pattern name (ni + 1) star < measure pattern name ni star)%nat.
Proof.
  intros (Hpi & Hni & Hst) Ht Hne Hpi' Hd Hch. apply lookup_lt_Some in Hch. split.
  - split; [lia|]. split; [lia|]. destruct star as [[sp sn]|]; [|done].
    destruct Hst as (? & ? & ? & Hseg). repeat split; [lia..|].
    replace (ni + 1 - sn)%nat with (S (ni - sn)) by lia. rewrite Hd. by eapply seg_snoc.
  - unfold measure. destruct star as [[sp sn]|]; lia.
Qed.

Lemma loop_backtrack pattern name pi ni star pi' ni' star' ch :
  loop_inv pattern name pi ni star -> name !! ni = Some ch ->
  glob_backtrack star = Some (pi', ni', star') ->
  loop_inv pattern name pi' ni' star' /\
  (measure pattern name ni' star' < measure pattern name ni star)%nat.
Proof.
  intros (Hpi & Hni & Hst) Hch Hb. apply lookup_lt_Some in Hch.
  destruct star as [[sp sn]|]; [|done]. cbn in Hb. simplify_eq. destruct Hst as (? & ? & ? & _). split.
  - split; [lia|]. split; [lia|]. repeat split; [lia..|]. rewrite Nat.sub_diag. constructor.
  - unfold measure. nia.
Qed.

(** [r] is an answer, and it is [A]. *)
Definition decides (r : option bool) (A : Prop) : Prop := exists b, r = Some b /\ (b = true <-> A).

#[export] Instance decides_proper r : Proper (iff ==> iff) (decides r).
Proof. intros A B HAB. unfold decides. by setoid_rewrite HAB. Qed.

Lemma glob_loop_spec fuel pattern name pi ni star :
  loop_inv pattern name pi ni star -> (measure pattern name ni star < fuel)%nat ->
  decides (glob_loop fuel pattern name pi ni star) (answer pattern name pi ni star).
Proof.
  revert pi ni star. induction fuel as [|fuel IH]; intros pi ni star Hinv Hf; [lia|]. cbn [glob_loop].
  destruct (name !! ni) as [ch|] eqn:Hch.
  2:{ eexists. split; [reflexivity|]. rewrite bool_decide_eq_true, (answer_end _ _ _ _ _ Hinv Hch).
      apply skip_stars_spec; [lia|apply Hinv]. }
  assert (Hback : ~ gmatch (drop pi pattern) (drop ni name) ->
    decides (match glob_backtrack star with
             | None => Some false
             | Some (pi, ni, star) => glob_loop fuel pattern name pi ni star
             end) (answer pattern name pi ni star)).
  { intros Hno. rewrite (answer_backtrack _ _ _ _ _ _ Hinv Hch Hno).
    destruct (glob_backtrack star) as [[[pi' ni'] star']|] eqn:Hb; [|by exists false].
    destruct (loop_backtrack _ _ _ _ _ _ _ _ _ Hinv Hch Hb). apply IH; [done|lia]. }
  pose proof (glob_step_spec pattern pi ch) as Hs. unfold step_agrees in Hs.
  destruct (next_token (drop pi pattern)) as [[t p']|] eqn:Ht.
  2:{ rewrite Hs. apply Hback. rewrite (drop_cons_lookup _ _ _ Hch). inversion 1; simplify_eq. }
  destruct (decide (t = TStar)) as [->|Hne].
  { destruct Hs as [-> Hd]. rewrite (answer_star _ _ _ _ _ _ Hinv Ht Hd).
    destruct (loop_star _ _ _ _ _ _ _ Hinv Ht Hch). apply IH; [done|lia]. }
  assert (Hs' : if tok_ok t ch
      then exists pi', (pi < pi' <= length pattern)%nat /\ drop pi' pattern = p' /\
             (glob_step pattern pi ch = Consume pi' \/ glob_step pattern pi ch = Class pi' true)
      else glob_step pattern pi ch = Mismatch \/ exists pi', glob_step pattern pi ch = Class pi' false)
    by (by destruct t).
  clear Hs. destruct (tok_ok t ch) eqn:Hok.
  - destruct Hs' as (pi' & Hle & Hd & Hstep). rewrite (answer_consume _ _ _ _ _ _ _ _ _ Ht Hne Hok Hch Hd).
    destruct (loop_consume _ _ _ _ _ _ _ _ _ Hinv Ht Hne Hle Hd Hch).
    destruct Hstep as [-> | ->]; (apply IH; [done|lia]).
  - pose proof (no_match _ _ _ _ _ _ _ Hch Ht Hne Hok).
    destruct Hs' as [-> | [pi' ->]]; by apply Hback.
Qed.

Lemma glob_match_inner_decides (pattern name : str) :
  (exists b, glob_loop (glob_fuel pattern name) pattern name 0 0 None = Some b) /\
  (glob_match_inner pattern name = true <-> gmatch pattern name).
Proof.
  destruct (glob_loop_spec (glob_fuel pattern name) pattern name 0 0 None) as (b & Hb & Hans).
  - split; [lia|]. split; [lia|done].
  - unfold measure, glob_fuel. lia.
  - split; [eauto|]. unfold glob_match_inner. rewrite Hb. cbn. rewrite Hans. unfold answer.
    rewrite !drop_0. split; [|by left]. intros [?|(? & ? & ? & ? & _)]; done.
Qed.

(** C13: The glob matcher terminates on every pattern and name and decides the
    glob language exactly: it answers [true] precisely when the bytes of the
    name can be distributed over the pattern's tokens, although it only ever
    revisits the last star. *)
Theorem glob_match_inner_correct (pattern name : str) :
  (exists b, glob_loop (glob_fuel pattern name) pattern name 0 0 None = Some b) /\
  (glob_match_inner pattern name = true <-> gmatch pattern name).
Proof. apply glob_match_inner_decides. Qed.
