(* ===== verification/ExtGlob.v ===== *)
(** * Extended globs (crates/wasmsh-runtime/src/pattern.rs, extglob part)

    [?(...)], [*(...)], [+(...)], [@(...)] and [!(...)]: the first operator of
    a pattern is replaced by its alternatives and the result is matched again.
    The recursion is not structural (repetition copies alternatives), so the
    matcher carries fuel; [None] is running out of it.  [gas] in
    [extglob_star] is [21 - depth]: the source gives up at depth 21. *)

From S2P Require Import Prelude Strings Glob GlobProps.

Definition is_extglob_op (c : byte) : bool :=
  bool_decide (c = "?"%char \/ c = "*"%char \/ c = "+"%char \/ c = "@"%char \/ c = "!"%char).

Fixpoint has_extglob_pattern (pattern : str) : bool :=
  match pattern with
  | a :: (b :: _) as rest => (bool_decide (b = "("%char) && is_extglob_op a) || has_extglob_pattern rest
  | _ => false
  end.

(** The scan of [find_matching_paren]; the result counts from where it
    starts. *)
Fixpoint paren_scan (depth : nat) (s : str) : option nat :=
  match s with
  | [] => None
  | c :: s' =>
      if decide (c = "("%char) then S <$> paren_scan (S depth) s'
      else if decide (c = ")"%char) then
        match depth with
        | S (S d) => S <$> paren_scan (S d) s'
        | _ => Some 0%nat
        end
      else S <$> paren_scan depth s'
  end.

Definition find_matching_paren (pattern : str) (open : nat) : option nat :=
  (fun i => (open + i)%nat) <$> paren_scan 1 (drop open pattern).

(** One byte of [split_alternatives]: the finished alternatives, the current
    one, and the [u32] nesting depth.  Its decrement wraps below zero as in a
    release build; no pattern in memory nests deeply enough to wrap above. *)
Definition split_byte (acc : list (list Ascii.ascii) * list Ascii.ascii * Z) (b : byte) : list (list Ascii.ascii) * list Ascii.ascii * Z :=
  let '(result, current, depth) := acc in
  if decide (b = "("%char) then (result, current ++ [b], depth + 1)
  else if decide (b = ")"%char) then (result, current ++ [b], if decide (depth = 0) then U32_MAX else depth - 1)
  else if decide (b = "|"%char /\ depth = 0) then (result ++ [current], [], depth)
  else (result, current ++ [b], depth).

Definition split_alternatives (pat : str) : list (list Ascii.ascii) :=
  let '(result, current, _) := foldl split_byte ([], [], 0) pat in result ++ [current].

Fixpoint find_operator_from (fuel pi : nat) (pattern : str) : option (nat * Ascii.ascii * nat) :=
  match fuel with
  | O => None
  | S fuel' =>
      match pattern !! pi, pattern !! (pi + 1)%nat with
      | Some op, Some "("%char =>
          match is_extglob_op op, find_matching_paren pattern (pi + 2) with
          | true, Some close => Some (pi, op, close)
          | _, _ => find_operator_from fuel' (S pi) pattern
          end
      | _, _ => find_operator_from fuel' (S pi) pattern
      end
  end.

Definition find_extglob_operator (pattern : str) : option (nat * Ascii.ascii * nat) :=
  find_operator_from (length pattern) 0 pattern.

Definition build_combined (prefix mid suffix : str) : str := prefix ++ mid ++ suffix.

(** Boolean or and conditional over answers that may run out of fuel. *)
Definition or_else (a b : option bool) : option bool :=
  match a with Some true => Some true | Some false => b | None => None end.

Section operators.
(** The matcher the operators call back. *)
Context (rec : list Ascii.ascii -> list Ascii.ascii -> option bool).

Fixpoint any_alternative (alts : list str) (f : str -> option bool) : option bool :=
  match alts with
  | [] => Some false
  | alt :: alts' => or_else (f alt) (any_alternative alts' f)
  end.

Definition extglob_match_at_or_opt (op : byte) (prefix : str) (alts : list str) (suffix name : str) : option bool :=
  or_else (if decide (op = "?"%char) then rec (build_combined prefix [] suffix) name else Some false)
    (any_alternative alts (fun alt => rec (build_combined prefix alt suffix) name)).

Definition extglob_match_negate (prefix : str) (alts : list str) (suffix name : str) : option bool :=
  match any_alternative alts (fun alt => rec (build_combined prefix alt suffix) name) with
  | Some true => Some false
  | Some false => Some (glob_match_inner (build_combined prefix #"*" suffix) name)
  | None => None
  end.

(** [extglob_star] with [extglob_try_extend]. *)
Fixpoint extglob_star (gas : nat) (prefix : str) (alts : list str) (suffix name : str) : option bool :=
  match gas with
  | O => Some false
  | S gas' =>
      or_else (rec (build_combined prefix [] suffix) name)
        (any_alternative alts (fun alt =>
           let new_prefix := build_combined prefix alt [] in
           if (length prefix <? length new_prefix)%nat
           then extglob_star gas' new_prefix alts suffix name else Some false))
  end.

Definition extglob_plus (gas : nat) (prefix : str) (alts : list str) (suffix name : str) : option bool :=
  match gas with
  | O => Some false
  | S gas' => any_alternative alts (fun alt => extglob_star gas' (build_combined prefix alt []) alts suffix name)
  end.

Definition extglob_dispatch (pi : nat) (op : byte) (close : nat) (pattern name : str) : option bool :=
  let alts := split_alternatives (slice pattern (pi + 2) close) in
  let prefix := take pi pattern in
  let suffix := drop (close + 1) pattern in
  if decide (op = "@"%char \/ op = "?"%char) then extglob_match_at_or_opt op prefix alts suffix name
  else if decide (op = "*"%char) then extglob_star 21 prefix alts suffix name
  else if decide (op = "+"%char) then extglob_plus 21 prefix alts suffix name
  else extglob_match_negate prefix alts suffix name.
End operators.

Fixpoint extglob_match_recursive (fuel : nat) (pattern name : str) : option bool :=
  match fuel with
  | O => None
  | S fuel' =>
      match find_extglob_operator pattern with
      | None => Some (glob_match_inner pattern name)
      | Some (pi, op, close) => extglob_dispatch (extglob_match_recursive fuel') pi op close pattern name
      end
  end.

(** ** Fuel

    The weight of the groups of a pattern: a group weighs more than 21 copies of
    what it contains, and a match consumes one group, so the weight bounds the
    depth of the recursion ([ExtGlobProps]).  [pots] reads the pattern from the
    right; the head of the list is the weight of the current level. *)
Definition pot_char (c : byte) (v : list nat) : list nat :=
  if decide (c = ")"%char) then 0%nat :: v
  else if decide (c = "("%char) then
    match v with
    | inner :: outer :: rest => (outer + 1 + 22 * inner)%nat :: rest
    | _ => v
    end
  else v.

Definition pots (s : str) (v : list nat) : list nat := foldr pot_char v s.

Definition pot (s : str) : nat := sum_list (pots s [0%nat]).

Definition extglob_match (pattern name : str) : bool :=
  default false (extglob_match_recursive (S (pot pattern)) pattern name).

Definition starts_dot (s : str) : bool := starts_with #"." s.

Definition glob_match_ext (pattern name : str) (dotglob extglob : bool) : bool :=
  if starts_dot name && negb (starts_dot pattern) && negb dotglob then false
  else if extglob && has_extglob_pattern pattern then extglob_match pattern name
  else glob_match_inner pattern name.
