(* ===== verification/ExtGlobProps.v ===== *)
(** * Extended globs: termination and meaning

    Balanced stretches of a pattern and their weight, what the alternatives of
    a group are, that the matcher always answers, and what each operator
    means. *)

From S2P Require Import Prelude Strings Glob GlobProps ExtGlob.

(** ** Balanced stretches *)

(** [s] closes [d] open groups and nothing else. *)
Fixpoint closes (d : nat) (s : str) : bool :=
  match s with
  | [] => bool_decide (d = 0%nat)
  | c :: s' =>
      if decide (c = "("%char) then closes (S d) s'
      else if decide (c = ")"%char) then match d with O => false | S d' => closes d' s' end
      else closes d s'
  end.

Lemma paren_scan_spec d s i :
  paren_scan (S d) s = Some i -> closes d (take i s) = true /\ s !! i = Some ")"%char.
Proof.
  revert d i. induction s as [|c s IH]; intros d i; cbn [paren_scan]; [done|].
  destruct (decide (c = "("%char)) as [->|Ho].
  { intros (j & Hj & ->)%fmap_Some. apply IH in Hj as [? ?]. done. }
  destruct (decide (c = ")"%char)) as [->|Hc].
  { destruct d as [|d]; [intros [= <-]; done|].
    intros (j & Hj & ->)%fmap_Some. apply IH in Hj as [? ?]. done. }
  intros (j & Hj & ->)%fmap_Some. apply IH in Hj as [? ?]. split; [|done]. cbn.
  by rewrite !decide_False.
Qed.

(** The weights a stretch contributes to the levels it closes. *)
Lemma closes_pots d s :
  closes d s = true ->
  exists qs q, length qs = d /\ forall h t, pots s (h :: t) = qs ++ (q + h)%nat :: t.
Proof.
  revert d. induction s as [|c s IH]; intros d; cbn [closes].
  { intros ->%bool_decide_eq_true. exists [], 0%nat. done. }
  unfold pots in *. cbn [foldr]. unfold pot_char at 1.
  destruct (decide (c = "("%char)) as [->|Ho].
  { intros (qs & q & Hl & Hq)%IH. destruct qs as [|a [|b qs]]; cbn in Hl; [done| |]; simplify_eq/=.
    - exists [], (q + 1 + 22 * a)%nat. split; [done|]. intros h t. rewrite Hq. cbn. f_equal. lia.
    - exists ((b + 1 + 22 * a)%nat :: qs), q. split; [done|]. intros h t. by rewrite Hq. }
  destruct (decide (c = ")"%char)) as [->|Hc].
  { destruct d as [|d]; [done|]. intros (qs & q & Hl & Hq)%IH.
    exists (0%nat :: qs), q. split; [cbn; lia|]. intros h t. by rewrite Hq. }
  intros (qs & q & Hl & Hq)%IH. exists qs, q. done.
Qed.

(** A balanced stretch of weight [q]. *)
Definition bal (q : nat) (s : str) : Prop := forall h t, pots s (h :: t) = (q + h)%nat :: t.

Lemma closes_bal s : closes 0 s = true -> exists q, bal q s.
Proof.
  intros (qs & q & Hl & Hq)%closes_pots. destruct qs; [|done]. by exists q.
Qed.

Lemma bal_unique q q' s : bal q s -> bal q' s -> q = q'.
Proof. intros H H'. specialize (H 0%nat []). specialize (H' 0%nat []). rewrite H in H'. simplify_eq. lia. Qed.

Lemma pots_app x y v : pots (x ++ y) v = pots x (pots y v).
Proof. apply foldr_app. Qed.

Lemma bal_app q r x y : bal q x -> bal r y -> bal (q + r) (x ++ y).
Proof. intros Hx Hy h t. rewrite pots_app, Hy, Hx. f_equal. lia. Qed.

Lemma bal_nil : bal 0 [].
Proof. done. Qed.

Lemma bal_plain c s q : c <> "("%char -> c <> ")"%char -> bal q s -> bal q (c :: s).
Proof.
  intros ? ? Hs h t. unfold pots; cbn. unfold pot_char at 1. rewrite !decide_False by done. apply Hs.
Qed.

(** ** The alternatives of a group *)

Lemma closes_app_opens cur d :
  (forall y, closes 0 (cur ++ y) = closes d y) ->
  (forall y, closes 0 ((cur ++ [ "("%char ]) ++ y) = closes (S d) y) /\
  (forall d' y, d = S d' -> closes 0 ((cur ++ [ ")"%char ]) ++ y) = closes d' y) /\
  (forall c y, c <> "("%char -> c <> ")"%char -> closes 0 ((cur ++ [c]) ++ y) = closes d y).
Proof.
  intros Hc. split; [|split].
  - intros y. by rewrite <- app_assoc, Hc.
  - intros d' y ->. by rewrite <- app_assoc, Hc.
  - intros c y ? ?. rewrite <- app_assoc, Hc. cbn. by rewrite !decide_False.
Qed.

Lemma join_merge (sep : str) l x y : join sep (l ++ [x; y]) = join sep (l ++ [x ++ sep ++ y]).
Proof.
  induction l as [|a l IH]; [done|]. destruct l as [|b l]; [done|].
  change (a ++ sep ++ join sep ((b :: l) ++ [x; y]) = a ++ sep ++ join sep ((b :: l) ++ [x ++ sep ++ y])).
  by rewrite IH.
Qed.

Lemma split_spec rest done_ cur d result current dz :
  closes d rest = true -> (forall y, closes 0 (cur ++ y) = closes d y) ->
  Forall (fun a => closes 0 a = true) done_ ->
  foldl split_byte (done_, cur, Z.of_nat d) rest = (result, current, dz) ->
  Forall (fun a => closes 0 a = true) (result ++ [current]) /\
  join #"|" (result ++ [current]) = join #"|" (done_ ++ [cur ++ rest]).
Proof.
  revert done_ cur d. induction rest as [|c rest IH]; intros done_ cur d Hcl Hcur Hdone; cbn [foldl].
  { intros [= <- <- <-]. rewrite app_nil_r. split; [|done]. rewrite Forall_app, Forall_singleton.
    split; [done|]. specialize (Hcur []). rewrite app_nil_r in Hcur. by rewrite Hcur. }
  destruct (closes_app_opens cur d Hcur) as (Hop & Hclo & Hoth). cbn [closes] in Hcl.
  replace (cur ++ c :: rest) with ((cur ++ [c]) ++ rest) by (by rewrite <- app_assoc).
  cbn [split_byte]. destruct (decide (c = "("%char)) as [->|Ho].
  { replace (Z.of_nat d + 1) with (Z.of_nat (S d)) by lia. by apply IH. }
  destruct (decide (c = ")"%char)) as [->|Hc].
  { destruct d as [|d]; [done|]. rewrite decide_False by lia.
    replace (Z.of_nat (S d) - 1) with (Z.of_nat d) by lia. apply IH; auto. }
  destruct (decide (c = "|"%char /\ Z.of_nat d = 0)) as [[-> Hd]|Hd].
  - assert (d = 0%nat) as -> by lia. intros Hf. apply (IH (done_ ++ [cur]) []) in Hf as [Hall Hj]; [|done| |].
    + split; [done|]. rewrite Hj, <- app_assoc. cbn [app]. rewrite join_merge. by rewrite <- app_assoc.
    + done.
    + rewrite Forall_app, Forall_singleton. split; [done|]. specialize (Hcur []). rewrite app_nil_r in Hcur. by rewrite Hcur.
  - apply IH; auto.
Qed.

Lemma bal_join alts :
  Forall (fun a => closes 0 a = true) alts ->
  exists qs, Forall2 bal qs alts /\ bal (sum_list qs) (join #"|" alts).
Proof.
  induction 1 as [|a alts Ha Hall (qs & Hqs & Hj)].
  { exists []. split; [constructor|done]. }
  destruct (closes_bal a Ha) as [q Hq]. exists (q :: qs). split; [by constructor|].
  destruct alts as [|b alts].
  { inversion Hqs; subst. cbn. by rewrite Nat.add_0_r. }
  rewrite join_cons. cbn [sum_list]. apply bal_app; [done|]. by apply bal_plain.
Qed.

(** The alternatives of a balanced group are balanced and weigh no more than
    the group's content. *)
Lemma alternatives_bal inner q :
  closes 0 inner = true -> bal q inner ->
  Forall (fun a => exists qa, bal qa a /\ (qa <= q)%nat) (split_alternatives inner).
Proof.
  intros Hcl Hq. unfold split_alternatives.
  destruct (foldl split_byte ([], [], 0) inner) as [[result current] dz] eqn:Hf.
  apply (split_spec inner [] [] 0) in Hf as [Hall Hj]; [|done..].
  destruct (bal_join _ Hall) as (qs & Hqs & Hbal). rewrite Hj in Hbal.
  change (join #"|" ([] ++ [[] ++ inner])) with inner in Hbal.
  rewrite (bal_unique _ _ _ Hq Hbal). clear -Hqs.
  induction Hqs as [|q a qs alts Hqa Hqs IH]; constructor; cbn.
  - exists q. split; [done|lia].
  - eapply Forall_impl; [exact IH|]. intros x (qx & ? & ?). exists qx. split; [done|lia].
Qed.

(** ** The weight decreases *)

Definition vlt (v w : list nat) : Prop := Forall2 le v w /\ (sum_list v < sum_list w)%nat.

Lemma vle_sum v w : Forall2 le v w -> (sum_list v <= sum_list w)%nat.
Proof. induction 1; cbn; lia. Qed.

Lemma pot_char_vlt c v w : vlt v w -> vlt (pot_char c v) (pot_char c w).
Proof.
  intros [Hle Hs]. unfold pot_char. case_decide; [split; [by constructor; [lia|]|cbn; lia]|].
  case_decide; [|done].
  destruct Hle as [|a a' v w Ha Hle]; [done|]. destruct Hle as [|b b' v w Hb Hle].
  - split; [by repeat constructor|done].
  - split; [constructor; [lia|done]|]. cbn in *. pose proof (vle_sum _ _ Hle). lia.
Qed.

Lemma pots_vlt x v w : vlt v w -> vlt (pots x v) (pots x w).
Proof. intros Hv. induction x as [|c x IH]; [done|]. cbn. by apply pot_char_vlt. Qed.

Lemma pots_nonempty x h t : exists h' t', pots x (h :: t) = h' :: t'.
Proof.
  induction x as [|c x (h' & t' & IH)]; [eauto|]. unfold pots in *. cbn. rewrite IH. unfold pot_char.
  repeat case_match; eauto.
Qed.

Lemma pot_replace prefix op inner suffix mid q qm :
  op <> "("%char -> op <> ")"%char -> bal q inner -> bal qm mid -> (qm <= 22 * q)%nat ->
  (pot (prefix ++ mid ++ suffix) < pot (prefix ++ op :: "("%char :: inner ++ ")"%char :: suffix))%nat.
Proof.
  intros Ho1 Ho2 Hq Hm Hle. unfold pot. rewrite !pots_app. apply pots_vlt.
  destruct (pots_nonempty suffix 0 []) as (h & t & Hs). rewrite Hs, Hm.
  assert (pots (op :: "("%char :: inner ++ ")"%char :: suffix) [0%nat] = (h + 1 + 22 * q)%nat :: t) as ->.
  { unfold pots at 1. cbn [foldr]. fold (pots (inner ++ ")"%char :: suffix) [0%nat]). rewrite pots_app.
    unfold pots at 2. cbn [foldr]. fold (pots suffix [0%nat]). rewrite Hs. cbn [pot_char].
    unfold pot_char at 3. rewrite decide_True by done. rewrite Hq. unfold pot_char at 2.
    rewrite decide_False, decide_True by done. unfold pot_char. rewrite !decide_False by done. f_equal. lia. }
  split; [constructor; [lia|]|cbn; lia]. clear. induction t; constructor; [lia|done].
Qed.

(** ** The first operator *)

Record operator_at (pattern : list Ascii.ascii) (pi : nat) (op : Ascii.ascii) (close : nat) : Prop := {
  oa_split : pattern = take pi pattern ++ op :: "("%char :: slice pattern (pi + 2) close ++ ")"%char :: drop (close + 1) pattern;
  oa_closes : closes 0 (slice pattern (pi + 2) close) = true;
  oa_op : is_extglob_op op = true;
}.

Lemma operator_at_intro pattern pi op close :
  pattern !! pi = Some op -> pattern !! (pi + 1)%nat = Some "("%char -> is_extglob_op op = true ->
  find_matching_paren pattern (pi + 2) = Some close -> operator_at pattern pi op close.
Proof.
  intros H0 H1 Hop Hf. unfold find_matching_paren in Hf. apply fmap_Some in Hf as (i & Hi & ->).
  apply paren_scan_spec in Hi as [Hcl Hi].
  assert (Hsl : slice pattern (pi + 2) (pi + 2 + i) = take i (drop (pi + 2) pattern)).
  { unfold slice. f_equal. lia. }
  constructor; rewrite ?Hsl; [|done..].
  rewrite <- (take_drop pi pattern) at 1. f_equal.
  rewrite (drop_cons_lookup _ _ _ H0). f_equal. rewrite (drop_cons_lookup _ _ _ H1). f_equal.
  replace (pi + 1 + 1)%nat with (pi + 2)%nat by lia.
  rewrite <- (take_drop i (drop (pi + 2) pattern)) at 1. f_equal.
  rewrite (drop_cons_lookup _ _ _ Hi). by rewrite !drop_drop, Nat.add_assoc.
Qed.

Lemma find_operator_spec fuel pi0 pattern pi op close :
  find_operator_from fuel pi0 pattern = Some (pi, op, close) -> operator_at pattern pi op close.
Proof.
  revert pi0. induction fuel as [|fuel IH]; intros pi0; cbn; [done|]. intros Hf.
  repeat case_split_in Hf; simplify_eq/=; eauto using operator_at_intro.
Qed.

Lemma find_extglob_operator_spec pattern pi op close :
  find_extglob_operator pattern = Some (pi, op, close) -> operator_at pattern pi op close.
Proof. apply find_operator_spec. Qed.

Lemma extglob_op_plain op : is_extglob_op op = true -> op <> "("%char /\ op <> ")"%char.
Proof. unfold is_extglob_op. intros H%bool_decide_eq_true. split; intros ->; naive_solver. Qed.

(** ** What the operators compute *)

Lemma or_else_decides a b A B :
  decides a A -> (~ A -> decides b B) -> decides (or_else a b) (A \/ B).
Proof.
  intros (x & -> & Hx) Hb. destruct x; cbn.
  - exists true. split; [done|]. naive_solver.
  - destruct Hb as (y & -> & Hy); [naive_solver|]. exists y. split; [done|]. naive_solver.
Qed.

Lemma any_alternative_decides alts f (A : str -> Prop) :
  (forall a, a ∈ alts -> decides (f a) (A a)) ->
  decides (any_alternative alts f) (exists a, a ∈ alts /\ A a).
Proof.
  induction alts as [|a alts IH]; intros Hf; cbn.
  { exists false. split; [done|]. set_solver. }
  assert (Hr : decides (or_else (f a) (any_alternative alts f)) (A a \/ exists a', a' ∈ alts /\ A a')).
  { apply or_else_decides; [apply Hf; set_solver|]. intros _. apply IH. set_solver. }
  destruct Hr as (b & -> & Hb). exists b. split; [done|]. rewrite Hb. clear. set_solver.
Qed.

Lemma is_Some_decides (r : option bool) : is_Some r -> decides r (r = Some true).
Proof. intros [b ->]. exists b. split; [done|]. naive_solver. Qed.

Section operators.
Context (rec : list Ascii.ascii -> list Ascii.ascii -> option bool).

(** Up to [gas - 1] copies of non-empty alternatives. *)
Definition repetitions (gas : nat) (alts : list str) (P : str -> Prop) : Prop :=
  exists reps, Forall (fun a => a ∈ alts /\ a <> []) reps /\ (length reps < gas)%nat /\ P (concat reps).

Lemma extglob_star_decides gas prefix alts suffix name :
  (forall reps, Forall (fun a => a ∈ alts) reps -> (length reps < gas)%nat ->
     is_Some (rec (prefix ++ concat reps ++ suffix) name)) ->
  decides (extglob_star rec gas prefix alts suffix name)
    (repetitions gas alts (fun mid => rec (prefix ++ mid ++ suffix) name = Some true)).
Proof.
  revert prefix. induction gas as [|gas IH]; intros prefix Hrec; cbn [extglob_star].
  { exists false. split; [done|]. split; [done|]. intros (reps & _ & ? & _). lia. }
  assert (Hor : decides (extglob_star rec (S gas) prefix alts suffix name)
    (rec (prefix ++ suffix) name = Some true \/
     exists a, a ∈ alts /\ a <> [] /\
       repetitions gas alts (fun mid => rec ((prefix ++ a) ++ mid ++ suffix) name = Some true))).
  { cbn [extglob_star]. unfold build_combined. cbn [app]. apply or_else_decides.
    - apply is_Some_decides. apply (Hrec []); [constructor|cbn; lia].
    - intros _. apply any_alternative_decides. intros a Ha. rewrite app_nil_r, length_app.
      destruct (Nat.ltb_spec (length prefix) (length prefix + length a)) as [Hlt|Hge].
      + destruct (IH (prefix ++ a)) as (b & -> & Hb).
        * intros reps Hr Hl. rewrite <- app_assoc, app_assoc, <- app_assoc. rewrite (app_assoc a).
          apply (Hrec (a :: reps)); [by constructor|cbn; lia].
        * exists b. split; [done|]. rewrite Hb. split; [|tauto]. intros; split; [|done].
          intros ->. cbn in Hlt. lia.
      + exists false. split; [done|]. split; [done|]. intros [Hne _]. destruct a; [done|]. cbn in Hge. lia. }
  destruct Hor as (b & Hb & Hiff). exists b. split; [done|]. rewrite Hiff. split.
  - intros [Hz|(a & Ha & Hne & reps & Hr & Hl & Hm)].
    + exists []. split; [constructor|]. split; [cbn; lia|done].
    + exists (a :: reps). split; [by constructor|]. split; [cbn; lia|]. cbn. by rewrite <- app_assoc, app_assoc in *.
  - intros ([|a reps] & Hr & Hl & Hm); [by left|]. right. inversion_clear Hr as [|?? [Ha Hne] Hr'].
    exists a. split; [done|]. split; [done|]. exists reps. split; [done|]. split; [cbn in Hl; lia|].
    cbn in Hm. by rewrite <- !app_assoc in *.
Qed.
End operators.

(** ** More fuel does not change an answer *)

Definition extends_to {A} (r r' : option A) : Prop := forall b, r = Some b -> r' = Some b.

Lemma extends_refl {A} (r : option A) : extends_to r r.
Proof. by intros b. Qed.

Lemma or_else_extends a a' b b' :
  extends_to a a' -> extends_to b b' -> extends_to (or_else a b) (or_else a' b').
Proof. intros Ha Hb x. destruct a as [[]|]; cbn; [|intros; rewrite (Ha false); auto|done]. by rewrite (Ha true). Qed.

Lemma any_alternative_extends alts f f' :
  (forall a, extends_to (f a) (f' a)) -> extends_to (any_alternative alts f) (any_alternative alts f').
Proof. intros Hf. induction alts; cbn; [apply extends_refl|]. by apply or_else_extends. Qed.

Section monotone.
Context (rec rec' : list Ascii.ascii -> list Ascii.ascii -> option bool).
Context (Hrec : forall p n, extends_to (rec p n) (rec' p n)).

Lemma extglob_star_extends gas prefix alts suffix name :
  extends_to (extglob_star rec gas prefix alts suffix name) (extglob_star rec' gas prefix alts suffix name).
Proof.
  revert prefix. induction gas as [|gas IH]; intros prefix; cbn; [apply extends_refl|].
  apply or_else_extends; [apply Hrec|]. apply any_alternative_extends. intros a.
  case_match; [apply IH|apply extends_refl].
Qed.

Lemma extglob_dispatch_extends pi op close pattern name :
  extends_to (extglob_dispatch rec pi op close pattern name) (extglob_dispatch rec' pi op close pattern name).
Proof.
  unfold extglob_dispatch. repeat case_decide.
  - apply or_else_extends; [case_decide; [apply Hrec|apply extends_refl]|]. apply any_alternative_extends. intros; apply Hrec.
  - apply extglob_star_extends.
  - apply any_alternative_extends. intros. apply extglob_star_extends.
  - unfold extglob_match_negate.
    match goal with |- context [any_alternative ?l (fun a => rec (@?g a) name)] =>
      pose proof (any_alternative_extends l (fun a => rec (g a) name) (fun a => rec' (g a) name)
        (fun a => Hrec (g a) name)) as Ha end.
    intros b. destruct (any_alternative _ (fun alt => rec _ name)) as [[]|]; [rewrite (Ha true)|rewrite (Ha false)|]; done.
Qed.
End monotone.

Lemma extglob_fuel_extends fuel fuel' pattern name :
  (fuel <= fuel')%nat ->
  extends_to (extglob_match_recursive fuel pattern name) (extglob_match_recursive fuel' pattern name).
Proof.
  revert fuel' pattern name. induction fuel as [|fuel IH]; intros [|fuel'] pattern name Hle; try done; [lia|].
  cbn. destruct (find_extglob_operator pattern) as [[[pi op] close]|]; [|apply extends_refl].
  apply extglob_dispatch_extends. intros p n. apply IH. lia.
Qed.

(** ** Meaning and termination *)

(** What a pattern whose first operator is [op] matches, in terms of the
    patterns without it. *)
Definition op_meaning (R : str -> Prop) (op : byte) (prefix : str) (alts : list str) (suffix name : str) : Prop :=
  if decide (op = "@"%char) then exists a, a ∈ alts /\ R (prefix ++ a ++ suffix)
  else if decide (op = "?"%char) then R (prefix ++ suffix) \/ exists a, a ∈ alts /\ R (prefix ++ a ++ suffix)
  else if decide (op = "*"%char) then repetitions 21 alts (fun mid => R (prefix ++ mid ++ suffix))
  else if decide (op = "+"%char) then
    exists a, a ∈ alts /\ repetitions 20 alts (fun mid => R ((prefix ++ a) ++ mid ++ suffix))
  else ~ (exists a, a ∈ alts /\ R (prefix ++ a ++ suffix)) /\ gmatch (prefix ++ #"*" ++ suffix) name.

Lemma bal_concat q reps :
  Forall (fun a => exists qa, bal qa a /\ (qa <= q)%nat) reps ->
  exists qm, bal qm (concat reps) /\ (qm <= length reps * q)%nat.
Proof.
  induction 1 as [|a reps (qa & Ha & Hle) _ (qm & Hm & Hlm)]; cbn.
  - exists 0%nat. split; [done|lia].
  - exists (qa + qm)%nat. split; [by apply bal_app|]. lia.
Qed.

Lemma dispatch_decides rec pi op close pattern name :
  operator_at pattern pi op close ->
  (forall p, (pot p < pot pattern)%nat -> is_Some (rec p name)) ->
  decides (extglob_dispatch rec pi op close pattern name)
    (op_meaning (fun p => rec p name = Some true) op (take pi pattern)
       (split_alternatives (slice pattern (pi + 2) close)) (drop (close + 1) pattern) name).
Proof.
  intros [Hsplit Hcl Hop] Hrec. destruct (closes_bal _ Hcl) as [q Hq].
  pose proof (alternatives_bal _ _ Hcl Hq) as Halts. destruct (extglob_op_plain op Hop) as [Ho1 Ho2].
  unfold extglob_dispatch, op_meaning. set (prefix := take pi pattern) in *.
  set (suffix := drop (close + 1) pattern) in *. set (alts := split_alternatives _) in *.
  rewrite Forall_forall in Halts.
  assert (Hmid : forall reps, Forall (fun a => a ∈ alts) reps -> (length reps <= 21)%nat ->
     is_Some (rec (prefix ++ concat reps ++ suffix) name)).
  { intros reps Hr Hl. apply Hrec. destruct (bal_concat q reps) as (qm & Hqm & Hle).
    - eapply Forall_impl; [exact Hr|]. cbn. auto.
    - rewrite Hsplit. eapply pot_replace; [done|done|done|done|nia]. }
  assert (Halt : forall a, a ∈ alts -> is_Some (rec (prefix ++ a ++ suffix) name)).
  { intros a Ha. specialize (Hmid [a]). cbn in Hmid. rewrite app_nil_r in Hmid. apply Hmid; [by repeat constructor|lia]. }
  assert (Hany : decides (any_alternative alts (fun alt => rec (build_combined prefix alt suffix) name))
    (exists a, a ∈ alts /\ rec (prefix ++ a ++ suffix) name = Some true)).
  { apply any_alternative_decides with (A := fun a => rec (prefix ++ a ++ suffix) name = Some true).
    intros a Ha. apply is_Some_decides. by apply Halt. }
  destruct (decide (op = "@"%char)) as [->|H1].
  { rewrite decide_True by auto. unfold extglob_match_at_or_opt. by rewrite decide_False by done. }
  destruct (decide (op = "?"%char)) as [->|H2].
  { rewrite decide_True by auto. unfold extglob_match_at_or_opt. rewrite decide_True by done.
    apply or_else_decides; [|done]. apply is_Some_decides. apply (Hmid []); [constructor|cbn; lia]. }
  rewrite decide_False by naive_solver.
  destruct (decide (op = "*"%char)) as [->|H3].
  { apply extglob_star_decides. intros reps Hr Hl. apply Hmid; [done|lia]. }
  destruct (decide (op = "+"%char)) as [->|H4].
  { cbn [extglob_plus]. apply any_alternative_decides with (A := fun a => repetitions 20 alts
      (fun mid => rec ((prefix ++ a) ++ mid ++ suffix) name = Some true)). intros a Ha. unfold build_combined. rewrite app_nil_r.
    apply extglob_star_decides. intros reps Hr Hl. rewrite <- app_assoc, (app_assoc a).
    apply (Hmid (a :: reps)); [by constructor|cbn; lia]. }
  unfold extglob_match_negate. destruct Hany as (b & -> & Hb). destruct b.
  - exists false. split; [done|]. split; [done|]. intros [Hn _]. destruct Hn. by apply Hb.
  - eexists. split; [reflexivity|]. unfold build_combined.
    destruct (glob_match_inner_decides (prefix ++ #"*" ++ suffix) name) as [_ Hg]. rewrite Hg.
    split; [|tauto]. intros. split; [|done]. intros Hex. by apply Hb in Hex.
Qed.

Lemma extglob_total fuel pattern name :
  (pot pattern < fuel)%nat -> is_Some (extglob_match_recursive fuel pattern name).
Proof.
  revert pattern. induction fuel as [|fuel IH]; intros pattern Hf; [lia|]. cbn.
  destruct (find_extglob_operator pattern) as [[[pi op] close]|] eqn:Ho; [|eauto].
  apply find_extglob_operator_spec in Ho.
  destruct (dispatch_decides (extglob_match_recursive fuel) pi op close pattern name Ho) as (b & -> & _); [|eauto].
  intros p Hp. apply IH. lia.
Qed.

(** Any sufficient fuel gives [extglob_match]. *)
Lemma extglob_match_fuel fuel pattern name :
  (pot pattern < fuel)%nat -> extglob_match_recursive fuel pattern name = Some (extglob_match pattern name).
Proof.
  intros Hf. unfold extglob_match. destruct (extglob_total (S (pot pattern)) pattern name) as [b Hb]; [lia|].
  rewrite Hb. cbn. eapply extglob_fuel_extends; [|done]. lia.
Qed.

Lemma extglob_recursive_answer fuel pattern name :
  extends_to (extglob_match_recursive fuel pattern name) (Some (extglob_match pattern name)).
Proof.
  intros b Hb. rewrite <- (extglob_match_fuel (Nat.max fuel (S (pot pattern)))) by lia.
  eapply extglob_fuel_extends; [|done]. lia.
Qed.


(** ** Limits of the matcher *)

(** [*(a)] stops at twenty repetitions. *)
Theorem star_repetition_cap :
  extglob_match #"*(a)" (replicate 20 "a"%char) = true /\
  extglob_match #"*(a)" (replicate 21 "a"%char) = false.
Proof. vm_compute. auto. Qed.

(** [!(a)*] on [ab]: the alternative [a] followed by the suffix matches, so the
    whole pattern is rejected, although [!(a)] could match the empty string. *)
Theorem negation_ignores_other_splits : extglob_match #"!(a)*" #"ab" = false.
Proof. vm_compute. reflexivity. Qed.

(** A class that ends in a dash, [[a-]], takes the closing bracket as the end
    of a range and matches nothing. *)
Theorem class_trailing_dash (c : byte) : glob_match_inner #"[a-]" [c] = false.
Proof. destruct c as [[] [] [] [] [] [] [] []]; vm_compute; reflexivity. Qed.
