(* ===== verification/Regex.v ===== *)
(** * Regular expressions of [[[ =~ ]]] (crates/wasmsh-runtime/src/pattern.rs, regex part)

    The backtracking matcher with captures.  A position [pi] in a pattern is the
    suffix [pat[pi..]] (the code only looks ahead), a position in the text is an
    index.  Captures are the mutable vector threaded through the calls: every
    function returns it together with its result.  All recursion is on shorter
    patterns or shorter stretches of text; [fuel] is their length and
    [RegexProps] shows that more of it changes nothing. *)

From S2P Require Import Prelude Strings Glob.

(** ** Anchors and literals *)

Definition regex_strip_anchors (pattern : str) : str * bool * bool :=
  let anchored_start := starts_with #"^" pattern in
  let anchored_end := ends_with #"$" pattern && negb (ends_with #"\$" pattern) in
  let core :=
    match anchored_start, anchored_end with
    | true, true => if (2 <=? length pattern)%nat then slice pattern 1 (length pattern - 1) else drop 1 pattern
    | true, false => drop 1 pattern
    | false, true => take (length pattern - 1) pattern
    | false, false => pattern
    end in
  (core, anchored_start, anchored_end).

Definition has_regex_metachar (core : str) : bool :=
  existsb (fun c => bool_decide (c ∈ #".+*?[(|")) core.

Definition literal_match_range (text core : str) (start end_ : bool) : option (nat * nat) :=
  match start, end_ with
  | true, true => if decide (text = core) then Some (0%nat, length text) else None
  | true, false => if starts_with core text then Some (0%nat, length core) else None
  | false, true => if ends_with core text then Some ((length text - length core)%nat, length text) else None
  | false, false => (fun pos => (pos, (pos + length core)%nat)) <$> find_sub core text
  end.

(** ** Elements *)

(** The bytes of a class, as ranges ([chars.extend(lo..=hi)] for each). *)
Fixpoint class_chars (fuel : nat) (s : str) : list (byte * byte) * list Ascii.ascii :=
  match fuel, s with
  | S f, c :: s' =>
      if decide (c = "]"%char) then ([], s)
      else let '(r, s'') := item_split c s' in
           let '(rs, rest) := class_chars f s'' in (r :: rs, rest)
  | _, _ => ([], s)
  end.

Definition regex_char_class_matches (chars : list (byte * byte)) (negate : bool) (c : byte) : bool :=
  let found := existsb (in_range c) chars in
  if negate then negb found else found.

(** From just past the [[]. *)
Definition parse_regex_char_class (s : str) : (byte -> bool) * list Ascii.ascii :=
  let negate := is_negation (head s) in
  let s := if negate then tail s else s in
  let '(chars, rest) := class_chars (length s) s in
  (regex_char_class_matches chars negate, tail rest).

(** One element at the head of a non-empty pattern. *)
Definition parse_regex_elem (c : byte) (p : str) : (byte -> bool) * list Ascii.ascii :=
  if decide (c = "."%char) then (fun _ => true, p)
  else if decide (c = "["%char) then parse_regex_char_class p
  else match bool_decide (c = "\"%char), p with
       | true, escaped :: p' => (fun x => bool_decide (x = escaped), p')
       | _, _ => (fun x => bool_decide (x = c), p)
       end.

Inductive quant := QNone | QStar | QPlus | QOpt.

(** [parse_quantifier] and [parse_group_quantifier]. *)
Definition parse_quantifier (p : str) : quant * list Ascii.ascii :=
  match p with
  | "*"%char :: p' => (QStar, p')
  | "+"%char :: p' => (QPlus, p')
  | "?"%char :: p' => (QOpt, p')
  | _ => (QNone, p)
  end.

(** ** Groups *)

(** [find_matching_paren_bytes], from just past the opening parenthesis; a
    backslash hides the next byte. *)
Fixpoint paren_scan_bytes (depth : nat) (s : str) : option nat :=
  match s with
  | [] => None
  | c :: s' =>
      if decide (c = "\"%char) then
        match s' with
        | [] => None
        | _ :: s'' => (fun i => S (S i)) <$> paren_scan_bytes depth s''
        end
      else if decide (c = "("%char) then S <$> paren_scan_bytes (S depth) s'
      else if decide (c = ")"%char) then
        match depth with
        | S (S d) => S <$> paren_scan_bytes (S d) s'
        | _ => Some 0%nat
        end
      else S <$> paren_scan_bytes depth s'
  end.

(** [split_alternatives_bytes] from a current alternative and depth. *)
Fixpoint split_alts (s : str) (current : str) (depth : Z) : list (list Ascii.ascii) :=
  match s with
  | [] => [current]
  | c :: s' =>
      match bool_decide (c = "\"%char), s' with
      | true, e :: s'' => split_alts s'' (current ++ [c; e]) depth
      | _, _ =>
          if decide (c = "("%char) then split_alts s' (current ++ [c]) (depth + 1)
          else if decide (c = ")"%char) then split_alts s' (current ++ [c]) (depth - 1)
          else if decide (c = "|"%char /\ depth = 0) then current :: split_alts s' [] depth
          else split_alts s' (current ++ [c]) depth
      end
  end.

Definition split_alternatives_bytes (pat : str) : list (list Ascii.ascii) := split_alts pat [] 0.

Definition regex_check_end (ti text_len : nat) (must_end : bool) : option nat :=
  if must_end && (ti <? text_len)%nat then None else Some ti.

Section text.
Context (text : list Ascii.ascii).

(** Leading bytes of [s] that match. *)
Fixpoint count_from (f : byte -> bool) (s : str) : nat :=
  match s with
  | [] => 0
  | c :: s' => if f c then S (count_from f s') else 0
  end.

Definition count_regex_matches (ti : nat) (f : byte -> bool) : nat := count_from f (drop ti text).

Definition matches_at (ti : nat) (f : byte -> bool) : bool :=
  match text !! ti with Some c => f c | None => false end.

(** [for c in (min..=count).rev()]: the first success. *)
Definition try_down {A} (min count : nat) (f : nat -> option A) : option A :=
  find_map f (reverse (seq min (S count - min))).

Definition quant_min (q : quant) : nat := match q with QPlus => 1 | _ => 0 end.

(** [regex_try_apply_quant]: an element with its quantifier, then [k] on what
    follows. *)
Definition try_elem (ti : nat) (f : byte -> bool) (q : quant) (k : nat -> option nat) : option nat :=
  match q with
  | QStar | QPlus => try_down (quant_min q) (count_regex_matches ti f) (fun c => k (ti + c)%nat)
  | QOpt => match (if matches_at ti f then k (ti + 1)%nat else None) with
            | Some e => Some e
            | None => k ti
            end
  | QNone => if matches_at ti f then k (ti + 1)%nat else None
  end.

(** [regex_try_match_inner]: match without captures. *)
Fixpoint regex_try_match_inner (fuel ti : nat) (p : str) : option nat :=
  match fuel with
  | O => None
  | S fuel' =>
      match p with
      | [] => Some ti
      | c :: p' =>
          if decide (c = "("%char) then
            close ← paren_scan_bytes 1 p';
            let inner := take close p' in
            let rest := drop (close + 1) p' in
            find_map (fun alt => after ← regex_try_match_inner fuel' ti alt;
                                 regex_try_match_inner fuel' after rest)
              (split_alternatives_bytes inner)
          else
            let '(f, p1) := parse_regex_elem c p' in
            let '(q, p2) := parse_quantifier p1 in
            try_elem ti f q (fun ti' => regex_try_match_inner fuel' ti' p2)
      end
  end.

Definition regex_try_match_at (ti : nat) (p : str) : option nat :=
  regex_try_match_inner (S (length p)) ti p.

(** [regex_match_group_repeated]: alternatives repeatedly fill [start..end]. *)
Fixpoint regex_match_group_repeated (fuel start end_ : nat) (alts : list str) (min_reps : nat) : bool :=
  match fuel with
  | O => false
  | S fuel' =>
      if (start =? end_)%nat then (min_reps =? 0)%nat
      else if (end_ <? start)%nat then false
      else existsb (fun alt =>
             match regex_try_match_at start alt with
             | None => false
             | Some after =>
                 if (after <=? start)%nat || (end_ <? after)%nat then false
                 else if (after =? end_)%nat && (min_reps <=? 1)%nat then true
                 else regex_match_group_repeated fuel' after end_ alts (min_reps - 1)
             end) alts
  end.

(** ** Matching with captures *)

Abbreviation caps := (list (nat * nat)) (only parsing).

Definition insert_at_index (i : nat) (x : nat * nat) (l : caps) : list (nat * nat) := take i l ++ x :: drop i l.

(** A computation over the captures vector: try each candidate in turn on
    captures cut back to [save], and cut back again after the last. *)
Fixpoint try_each {A} (save : nat) (f : A -> caps -> caps * option nat) (l : list A) (cs : caps) : list (nat * nat) * option nat :=
  match l with
  | [] => (take save cs, None)
  | x :: l' => match f x (take save cs) with
               | (cs', Some e) => (cs', Some e)
               | (cs', None) => try_each save f l' cs'
               end
  end.

(** Continue with [k] at [pos] and record the group [(ti, pos)] on success. *)
Definition then_record (k : nat -> caps -> caps * option nat) (save ti pos : nat) (cs : caps) : list (nat * nat) * option nat :=
  match k pos cs with
  | (cs', Some e) => (insert_at_index save (ti, pos) cs', Some e)
  | (cs', None) => (cs', None)
  end.

Definition regex_try_group_one_alt (k : nat -> caps -> caps * option nat) (ti : nat) (alts : list str) (cs : caps) : list (nat * nat) * option nat :=
  let save := length cs in
  try_each save (fun alt cs => match regex_try_match_at ti alt with
                               | Some e => then_record k save ti e cs
                               | None => (cs, None)
                               end) alts cs.

Definition regex_match_group_rep (k : nat -> caps -> caps * option nat) (ti : nat) (alts : list str) (min_reps : nat) (cs : caps) : list (nat * nat) * option nat :=
  let save := length cs in
  try_each save (fun end_pos cs =>
      if regex_match_group_repeated (S (end_pos - ti)) ti end_pos alts min_reps
      then then_record k save ti end_pos cs else (cs, None))
    (reverse (seq ti (S (length text) - ti))) cs.

Definition regex_match_group_opt (k : nat -> caps -> caps * option nat) (ti : nat) (alts : list str) (cs : caps) : list (nat * nat) * option nat :=
  let save := length cs in
  match regex_try_group_one_alt k ti alts cs with
  | (cs', Some e) => (cs', Some e)
  | (cs', None) =>
      match then_record k save ti ti (take save cs') with
      | (cs', Some e) => (cs', Some e)
      | (cs', None) => (take save cs', None)
      end
  end.

(** The element functions try positions in turn, without cutting back. *)
Fixpoint try_positions (k : nat -> caps -> caps * option nat) (l : list nat) (cs : caps) : list (nat * nat) * option nat :=
  match l with
  | [] => (cs, None)
  | pos :: l' => match k pos cs with
                 | (cs', Some e) => (cs', Some e)
                 | (cs', None) => try_positions k l' cs'
                 end
  end.

(** Positions an element with its quantifier can end at, in the order tried. *)
Definition elem_ends (ti : nat) (f : byte -> bool) (q : quant) : list nat :=
  match q with
  | QStar | QPlus => map (fun c => (ti + c)%nat) (reverse (seq (quant_min q) (S (count_regex_matches ti f) - quant_min q)))
  | QOpt => (if matches_at ti f then [(ti + 1)%nat] else []) ++ [ti]
  | QNone => if matches_at ti f then [(ti + 1)%nat] else []
  end.

Fixpoint regex_match_capturing (fuel ti : nat) (p : str) (must_end : bool) (cs : caps) : list (nat * nat) * option nat :=
  match fuel with
  | O => (cs, None)
  | S fuel' =>
      match p with
      | [] => (cs, regex_check_end ti (length text) must_end)
      | c :: p' =>
          if decide (c = "("%char) then
            match paren_scan_bytes 1 p' with
            | None => (cs, None)
            | Some close =>
                let alts := split_alternatives_bytes (take close p') in
                let rest := drop (close + 1) p' in
                let '(q, after) := parse_quantifier rest in
                let k := fun pos cs => regex_match_capturing fuel' pos after must_end cs in
                match q with
                | QPlus => regex_match_group_rep k ti alts 1 cs
                | QStar => regex_match_group_rep k ti alts 0 cs
                | QOpt => regex_match_group_opt k ti alts cs
                | QNone => regex_try_group_one_alt k ti alts cs
                end
            end
          else
            let '(f, p1) := parse_regex_elem c p' in
            let '(q, p2) := parse_quantifier p1 in
            try_positions (fun pos cs => regex_match_capturing fuel' pos p2 must_end cs) (elem_ends ti f q) cs
      end
  end.

(** ** Entry points; slicing the text panics off a character boundary *)

Fixpoint slice_all_caps (l : caps) : res Empty_set (list (list Ascii.ascii)) :=
  match l with
  | [] => Ok []
  | (gs, ge) :: l' => s ← str_slice text gs ge; ss ← slice_all_caps l'; Ok (s :: ss)
  end.

Definition regex_build_capture_list (start end_ : nat) (group_caps : caps) : res Empty_set (list (list Ascii.ascii)) :=
  slice_all_caps ((start, end_) :: group_caps).

Definition regex_match_from_start (core : str) (anchored_end : bool) (start : nat) : res Empty_set (option (list (list Ascii.ascii))) :=
  match regex_match_capturing (S (length core)) start core anchored_end [] with
  | (group_caps, Some e) => l ← regex_build_capture_list start e group_caps; Ok (Some l)
  | (_, None) => Ok None
  end.

Fixpoint first_start (core : str) (anchored_end : bool) (starts : list nat) : res Empty_set (option (list (list Ascii.ascii))) :=
  match starts with
  | [] => Ok None
  | start :: starts' =>
      r ← regex_match_from_start core anchored_end start;
      match r with
      | Some l => Ok (Some l)
      | None => first_start core anchored_end starts'
      end
  end.

Definition regex_find_first_match (core : str) (anchored_start anchored_end : bool) : res Empty_set (option (list (list Ascii.ascii))) :=
  first_start core anchored_end (seq 0 (S (if anchored_start then 0 else length text))).

Definition regex_match_literal_with_captures (core : str) (anchored_start anchored_end : bool) : res Empty_set (option (list (list Ascii.ascii))) :=
  match literal_match_range text core anchored_start anchored_end with
  | None => Ok None
  | Some (s, e) => x ← str_slice text s e; Ok (Some [x])
  end.

Definition regex_match_with_captures (pattern : str) : res Empty_set (option (list (list Ascii.ascii))) :=
  let '(core, anchored_start, anchored_end) := regex_strip_anchors pattern in
  if negb (has_regex_metachar core)
  then regex_match_literal_with_captures core anchored_start anchored_end
  else regex_find_first_match core anchored_start anchored_end.
End text.
