(* ===== verification/RegexProps.v ===== *)
(** * Properties of the regex matcher

    Captures of abandoned branches never leak and recorded ranges are ranges of
    the text; no panic on ASCII text; for patterns without groups the matcher
    decides the language exactly and finds the leftmost match. *)

From S2P Require Import Prelude Strings Glob Regex.

Section text.
Context (text : list Ascii.ascii).
Implicit Types cs : list (nat * nat).

(** ** Bounds *)

Lemma count_from_le f s : (count_from f s <= length s)%nat.
Proof. induction s as [|c s IH]; cbn; [lia|]. case_match; lia. Qed.

Lemma count_le ti f : (ti <= length text)%nat -> (ti + count_regex_matches text ti f <= length text)%nat.
Proof. intros. unfold count_regex_matches. pose proof (count_from_le f (drop ti text)). rewrite length_drop in *. lia. Qed.

Lemma matches_at_lt ti f : matches_at text ti f = true -> (ti < length text)%nat.
Proof. unfold matches_at. destruct (text !! ti) eqn:E; [|done]. intros _. by apply lookup_lt_Some in E. Qed.

Lemma elem_of_rev_seq n a len : n ∈ reverse (seq a len) <-> (a <= n < a + len)%nat.
Proof. rewrite elem_of_reverse, list_elem_of_In. apply in_seq. Qed.

Lemma elem_ends_bounds ti f q pos :
  (ti <= length text)%nat -> pos ∈ elem_ends text ti f q -> (ti <= pos <= length text)%nat.
Proof.
  intros Ht. pose proof (count_le ti f Ht). unfold elem_ends. destruct q.
  - destruct (matches_at text ti f) eqn:E; [|set_solver]. apply matches_at_lt in E.
    rewrite list_elem_of_singleton. lia.
  - intros (c & -> & Hc)%list_elem_of_fmap. apply elem_of_rev_seq in Hc. lia.
  - intros (c & -> & Hc)%list_elem_of_fmap. apply elem_of_rev_seq in Hc. cbn in Hc. lia.
  - rewrite elem_of_app, list_elem_of_singleton. intros [Hp| ->]; [|lia].
    destruct (matches_at text ti f) eqn:E; [|set_solver]. apply matches_at_lt in E.
    apply list_elem_of_singleton in Hp. lia.
Qed.

(** [try_elem] tries exactly the positions of [elem_ends]. *)
Lemma find_map_map {A B C} (f : B -> option C) (g : A -> B) l : find_map f (map g l) = find_map (fun x => f (g x)) l.
Proof. induction l as [|x l IH]; cbn; [done|]. by rewrite IH. Qed.

Lemma try_elem_ends ti f q k : try_elem text ti f q k = find_map k (elem_ends text ti f q).
Proof.
  unfold try_elem, elem_ends, try_down. destruct q; rewrite ?find_map_map; try done.
  - destruct (matches_at text ti f); cbn; [|done]. by case_match.
  - destruct (matches_at text ti f); cbn; by repeat case_match.
Qed.

Lemma try_match_inner_bounds fuel ti p e :
  (ti <= length text)%nat -> regex_try_match_inner text fuel ti p = Some e -> (ti <= e <= length text)%nat.
Proof.
  revert ti p e. induction fuel as [|fuel IH]; intros ti p e Ht; cbn; [done|].
  destruct p as [|c p']; [intros [= <-]; lia|]. case_decide.
  - destruct (paren_scan_bytes 1 p') as [close|]; [|done]. cbn.
    intros (alt & _ & Ha)%find_map_Some. apply bind_Some in Ha as (after & Ha & Hr).
    apply IH in Ha; [|done]. apply IH in Hr; lia.
  - destruct (parse_regex_elem c p') as [f p1]. destruct (parse_quantifier p1) as [q p2].
    rewrite try_elem_ends. intros (pos & Hp & Hr)%find_map_Some.
    apply elem_ends_bounds in Hp; [|done]. apply IH in Hr; lia.
Qed.

Lemma try_match_at_bounds ti p e :
  (ti <= length text)%nat -> regex_try_match_at text ti p = Some e -> (ti <= e <= length text)%nat.
Proof. apply try_match_inner_bounds. Qed.

(** ** Captures *)

Definition in_text (lo : nat) (r : nat * nat) : Prop := (lo <= fst r <= snd r)%nat /\ (snd r <= length text)%nat.

(** The contract of a matching step from [ti] on captures [cs]: failure leaves
    the captures as they were, success adds ranges of the text behind them. *)
Definition cap_ok (must_end : bool) (ti : nat) cs (r : list (nat * nat) * option nat) : Prop :=
  match r with
  | (cs', None) => cs' = cs
  | (cs', Some e) => (ti <= e <= length text)%nat /\ (must_end = true -> e = length text) /\
      exists new, cs' = cs ++ new /\ Forall (in_text ti) new
  end.

Lemma in_text_mono lo lo' r : (lo' <= lo)%nat -> in_text lo r -> in_text lo' r.
Proof. unfold in_text. lia. Qed.

Lemma cap_ok_mono me ti ti' cs r : (ti' <= ti)%nat -> cap_ok me ti cs r -> cap_ok me ti' cs r.
Proof.
  intros Hle. unfold cap_ok. destruct r as [cs' [e|]]; [|done]. intros (? & ? & new & ? & Hn).
  split; [lia|]. split; [done|]. exists new. split; [done|].
  eapply Forall_impl; [exact Hn|]. intros. by eapply in_text_mono.
Qed.

(** A continuation that keeps the contract from [lo] on. *)
Definition cont_ok (me : bool) (lo : nat) (k : nat -> list (nat * nat) -> list (nat * nat) * option nat) : Prop :=
  forall pos cs, (lo <= pos <= length text)%nat -> cap_ok me pos cs (k pos cs).

Lemma then_record_ok me k ti pos cs :
  cont_ok me ti k -> (ti <= pos <= length text)%nat -> cap_ok me ti cs (then_record k (length cs) ti pos cs).
Proof.
  intros Hk Hpos. unfold then_record. specialize (Hk pos cs Hpos). destruct (k pos cs) as [cs' [e|]]; [|done].
  destruct Hk as (? & ? & new & -> & Hn). cbn. split; [lia|]. split; [done|].
  unfold insert_at_index. rewrite take_app_length, drop_app_length. exists ((ti, pos) :: new).
  split; [done|]. constructor; [unfold in_text; cbn; lia|].
  eapply Forall_impl; [exact Hn|]. intros. eapply in_text_mono; [|done]. lia.
Qed.

Lemma try_each_ok {A} me ti (f : A -> list (nat * nat) -> list (nat * nat) * option nat) l cs :
  (forall x, x ∈ l -> cap_ok me ti cs (f x cs)) -> cap_ok me ti cs (try_each (length cs) f l cs).
Proof.
  induction l as [|x l IH]; intros Hf; cbn [try_each]; rewrite firstn_all; [done|].
  pose proof (Hf x ltac:(set_solver)) as Hx. destruct (f x cs) as [cs' [e|]]; [done|]. cbn in Hx. subst cs'.
  apply IH. intros y Hy. apply Hf. set_solver.
Qed.

Lemma one_alt_ok me k ti alts cs :
  cont_ok me ti k -> (ti <= length text)%nat -> cap_ok me ti cs (regex_try_group_one_alt text k ti alts cs).
Proof.
  intros Hk Ht. apply try_each_ok. intros alt _. destruct (regex_try_match_at text ti alt) as [e|] eqn:He; [|done].
  apply try_match_at_bounds in He; [|done]. by apply then_record_ok.
Qed.

Lemma group_rep_ok me k ti alts mr cs :
  cont_ok me ti k -> (ti <= length text)%nat -> cap_ok me ti cs (regex_match_group_rep text k ti alts mr cs).
Proof.
  intros Hk Ht. apply try_each_ok. intros pos Hp%elem_of_rev_seq. case_match; [|done].
  apply then_record_ok; [done|lia].
Qed.

Lemma group_opt_ok me k ti alts cs :
  cont_ok me ti k -> (ti <= length text)%nat -> cap_ok me ti cs (regex_match_group_opt text k ti alts cs).
Proof.
  intros Hk Ht. unfold regex_match_group_opt. pose proof (one_alt_ok me k ti alts cs Hk Ht) as H1.
  destruct (regex_try_group_one_alt text k ti alts cs) as [cs1 [e|]]; [done|]. cbn in H1. subst cs1.
  rewrite firstn_all. pose proof (then_record_ok me k ti ti cs Hk ltac:(lia)) as H2.
  destruct (then_record k (length cs) ti ti cs) as [cs2 [e|]]; [done|]. cbn in H2 |- *. subst cs2. apply firstn_all.
Qed.

Lemma try_positions_ok me k ti l cs :
  cont_ok me ti k -> (forall pos, pos ∈ l -> (ti <= pos <= length text)%nat) -> cap_ok me ti cs (try_positions k l cs).
Proof.
  intros Hk Hl. induction l as [|pos l IH]; cbn; [done|].
  pose proof (Hl pos ltac:(set_solver)) as Hp. pose proof (Hk pos cs Hp) as Hx.
  destruct (k pos cs) as [cs' [e|]]; [eapply cap_ok_mono; [|exact Hx]; lia|]. cbn in Hx. subst cs'.
  apply IH. set_solver.
Qed.

Lemma capturing_ok fuel ti p me cs :
  (ti <= length text)%nat -> cap_ok me ti cs (regex_match_capturing text fuel ti p me cs).
Proof.
  revert ti p cs. induction fuel as [|fuel IH]; intros ti p cs Ht; cbn; [done|].
  assert (Hk : forall after, cont_ok me ti (fun pos cs => regex_match_capturing text fuel pos after me cs)).
  { intros after pos cs' Hpos. apply IH. lia. }
  destruct p as [|c p'].
  { unfold regex_check_end. destruct (me && _) eqn:E; cbn; [done|]. split; [lia|]. split.
    - intros ->. cbn in E. apply Nat.ltb_ge in E. lia.
    - exists []. by rewrite app_nil_r. }
  case_decide.
  - destruct (paren_scan_bytes 1 p') as [close|]; [|done].
    destruct (parse_quantifier (drop (close + 1) p')) as [q after].
    destruct q; auto using one_alt_ok, group_rep_ok, group_opt_ok.
  - destruct (parse_regex_elem c p') as [f p1]. destruct (parse_quantifier p1) as [q p2].
    apply try_positions_ok; [done|]. intros pos. by apply elem_ends_bounds.
Qed.

(** C35: Captures are transactional: from any position and captures vector, a
    match that fails leaves the vector exactly as it was, and one that succeeds
    keeps the old entries and appends only well-formed ranges of the text that
    start at or after the position; the end lies in the text, and at its end
    when the pattern is anchored there. *)
Theorem captures_transactional (fuel ti : nat) (p : str) (must_end : bool) (cs : list (nat * nat)) :
  (ti <= length text)%nat ->
  match regex_match_capturing text fuel ti p must_end cs with
  | (cs', None) => cs' = cs
  | (cs', Some e) => (ti <= e <= length text)%nat /\ (must_end = true -> e = length text) /\
      exists new, cs' = cs ++ new /\ Forall (fun r => (ti <= fst r <= snd r)%nat /\ (snd r <= length text)%nat) new
  end.
Proof.
  intros Ht. pose proof (capturing_ok fuel ti p must_end cs Ht) as Hok.
  destruct (regex_match_capturing text fuel ti p must_end cs) as [cs' [e|]]; exact Hok.
Qed.

(** ** No panics on ASCII *)

Definition substring (s : str) : Prop := exists a b, (a <= b <= length text)%nat /\ s = slice text a b.

Lemma str_slice_ascii a b :
  is_ascii text = true -> (a <= b <= length text)%nat -> @str_slice Empty_set text a b = Ok (slice text a b).
Proof.
  intros Ha Hb. unfold str_slice. rewrite !is_ascii_boundary by (done || lia).
  destruct (Nat.leb_spec a b); [done|lia].
Qed.

Lemma slice_all_ascii l :
  is_ascii text = true -> Forall (in_text 0) l ->
  slice_all_caps text l = Ok (map (fun r => slice text (fst r) (snd r)) l).
Proof.
  intros Ha. induction 1 as [|[a b] l Hr Hl IH]; cbn; [done|]. unfold in_text in Hr; cbn in Hr.
  rewrite str_slice_ascii by (done || lia). cbn. by rewrite IH.
Qed.

(** The outcome at one start position. *)
Lemma from_start_ascii core ae start :
  is_ascii text = true -> (start <= length text)%nat ->
  match snd (regex_match_capturing text (S (length core)) start core ae []) with
  | None => regex_match_from_start text core ae start = Ok None
  | Some e => exists l, regex_match_from_start text core ae start = Ok (Some (slice text start e :: l)) /\
      Forall substring l
  end.
Proof.
  intros Ha Hs. unfold regex_match_from_start. pose proof (capturing_ok (S (length core)) start core ae [] Hs) as Hc.
  destruct (regex_match_capturing text _ start core ae []) as [cs' [e|]]; cbn [snd]; [|done].
  destruct Hc as (He & _ & new & -> & Hn). cbn [app] in *.
  assert (Hall : Forall (in_text 0) ((start, e) :: new)).
  { constructor; [unfold in_text; cbn; lia|]. eapply Forall_impl; [exact Hn|]. intros. eapply in_text_mono; [|done]. lia. }
  unfold regex_build_capture_list. rewrite slice_all_ascii by done. cbn.
  exists (map (fun r => slice text (fst r) (snd r)) new). split; [done|].
  inversion_clear Hall as [|?? _ Hnew]. apply Forall_map. eapply Forall_impl; [exact Hnew|].
  intros [a b] Hr. unfold in_text in Hr. cbn in *. exists a, b. split; [lia|done].
Qed.

Definition match_end (core : str) (ae : bool) (start : nat) : option nat :=
  snd (regex_match_capturing text (S (length core)) start core ae []).

(** The first start position that matches decides. *)
Lemma first_start_ascii core ae starts :
  is_ascii text = true -> Forall (fun i => (i <= length text)%nat) starts ->
  match find_map (fun i => (fun e => (i, e)) <$> match_end core ae i) starts with
  | None => first_start text core ae starts = Ok None
  | Some (i, e) => exists l, first_start text core ae starts = Ok (Some (slice text i e :: l)) /\ Forall substring l
  end.
Proof.
  intros Ha. induction 1 as [|i starts Hi Hall IH]; [done|]. cbn [find_map first_start].
  pose proof (from_start_ascii core ae i Ha Hi) as Hf. unfold match_end at 1.
  destruct (snd (regex_match_capturing text (S (length core)) i core ae [])) as [e|]; cbn.
  - destruct Hf as (l & -> & Hl). cbn. eauto.
  - rewrite Hf. cbn. apply IH.
Qed.

Lemma match_end_bounds core ae i e :
  (i <= length text)%nat -> match_end core ae i = Some e -> (i <= e <= length text)%nat /\ (ae = true -> e = length text).
Proof.
  intros Hi He. pose proof (capturing_ok (S (length core)) i core ae [] Hi) as Hc. unfold match_end in He.
  destruct (regex_match_capturing text _ i core ae []) as [cs' r]. cbn in He. subst r. cbn in Hc. tauto.
Qed.

Lemma starts_bounded b : Forall (fun i => (i <= length text)%nat) (seq 0 (S (if b : bool then 0 else length text))).
Proof. apply Forall_forall. intros i Hi. rewrite list_elem_of_In, in_seq in Hi. destruct b; lia. Qed.

(** Where the literal matcher finds its match. *)
Lemma literal_range_bounds core s e a b :
  literal_match_range text core s e = Some (a, b) ->
  (a <= b <= length text)%nat /\ (s = true -> a = 0%nat) /\ (e = true -> b = length text).
Proof.
  unfold literal_match_range. destruct s, e; intros Hl; repeat case_split_in Hl; simplify_eq.
  - repeat split; lia.
  - apply starts_with_true in Heqb0 as [r Hr]. rewrite Hr, length_app. repeat split; [lia|lia|done].
  - apply ends_with_true in Heqb0 as [r Hr]. rewrite Hr, length_app. repeat split; [lia|lia|done].
  - apply fmap_Some in Hl as (pos & Hp & [= -> ->]). apply find_sub_Some in Hp as [Hd _].
    repeat split; [lia|lia|done|done].
Qed.

(** The shape of a result on ASCII text. *)
Lemma regex_ascii_shape (pattern : str) :
  is_ascii text = true ->
  let '(core, anchored_start, anchored_end) := regex_strip_anchors pattern in
  exists r, regex_match_with_captures text pattern = Ok r /\
    forall caps, r = Some caps ->
      exists a b groups, caps = slice text a b :: groups /\ (a <= b <= length text)%nat /\
        (anchored_start = true -> a = 0%nat) /\ (anchored_end = true -> b = length text) /\
        Forall substring groups.
Proof.
  intros Ha. unfold regex_match_with_captures.
  destruct (regex_strip_anchors pattern) as [[core s] e]. destruct (has_regex_metachar core); cbn [negb].
  - unfold regex_find_first_match. pose proof (first_start_ascii core e _ Ha (starts_bounded s)) as Hf.
    destruct (find_map _ _) as [[i en]|] eqn:Hm; [|by eexists].
    destruct Hf as (l & -> & Hl). eexists. split; [reflexivity|]. intros caps [= <-].
    apply find_map_Some in Hm as (j & Hj & (x & Hx & [= -> ->])%fmap_Some).
    rewrite list_elem_of_In, in_seq in Hj.
    destruct (match_end_bounds core e j x) as [Hb He]; [destruct s; lia|done|].
    exists j, x, l. repeat split; [lia|lia| |done|done]. intros ->. lia.
  - unfold regex_match_literal_with_captures. destruct (literal_match_range text core s e) as [[a b]|] eqn:Hl; [|by eexists].
    apply literal_range_bounds in Hl as (Hb & Hs & He). rewrite str_slice_ascii by (done || lia).
    eexists. split; [reflexivity|]. intros caps [= <-]. exists a, b, []. repeat split; [lia|lia|done|done|constructor].
Qed.

(** On ASCII text the matcher never panics, and what it returns for
    [BASH_REMATCH] is made of substrings of the text; the whole match comes
    first, at the start of the text under [^] and up to its end under [$]. *)
Theorem regex_ascii_safe (pattern : str) :
  is_ascii text = true ->
  let '(core, anchored_start, anchored_end) := regex_strip_anchors pattern in
  exists r, regex_match_with_captures text pattern = Ok r /\
    forall caps, r = Some caps ->
      exists a b groups, caps = slice text a b :: groups /\ (a <= b <= length text)%nat /\
        (anchored_start = true -> a = 0%nat) /\ (anchored_end = true -> b = length text) /\
        Forall substring groups.
Proof. apply regex_ascii_shape. Qed.

(** ** Patterns without groups *)

(** The stretches an element with its quantifier stands for. *)
Definition quant_ok (f : byte -> bool) (q : quant) (w : str) : Prop :=
  forallb f w = true /\
  match q with
  | QNone => length w = 1%nat
  | QStar => True
  | QPlus => (1 <= length w)%nat
  | QOpt => (length w <= 1)%nat
  end.

(** The language of a group-free pattern. *)
Inductive rmatch : list Ascii.ascii -> list Ascii.ascii -> Prop :=
  | rm_nil : rmatch [] []
  | rm_elem c p f p1 q p2 w1 w2 :
      c <> "("%char -> parse_regex_elem c p = (f, p1) -> parse_quantifier p1 = (q, p2) ->
      quant_ok f q w1 -> rmatch p2 w2 -> rmatch (c :: p) (w1 ++ w2).

Lemma count_from_spec f s c : (c <= count_from f s)%nat <-> (c <= length s)%nat /\ forallb f (take c s) = true.
Proof.
  revert c. induction s as [|x s IH]; intros [|c]; cbn; try (split; [|intros [? ?]]; lia || (split; [lia|done])).
  destruct (f x); cbn; [|split; [lia|by intros [_ ?]]]. specialize (IH c). split.
  - intros Hc. split; [|apply IH; lia]. assert (c <= length s)%nat by (apply IH; lia). lia.
  - intros [? ?]. assert (c <= count_from f s)%nat by (apply IH; split; [lia|done]). lia.
Qed.

Lemma matches_at_slice ti f : (ti < length text)%nat -> matches_at text ti f = forallb f (slice text ti (ti + 1)).
Proof.
  intros Ht. unfold matches_at, slice. destruct (lookup_lt_is_Some_2 text ti Ht) as [c Hc]. rewrite Hc.
  rewrite (drop_S _ c) by done. replace (ti + 1 - ti)%nat with 1%nat by lia. cbn. by rewrite andb_true_r.
Qed.

(** The positions tried are exactly the possible ends of the element. *)
Lemma elem_ends_spec ti f q pos :
  (ti <= length text)%nat ->
  pos ∈ elem_ends text ti f q <-> (ti <= pos <= length text)%nat /\ quant_ok f q (slice text ti pos).
Proof.
  intros Ht. assert (Hcount : forall c, (c <= count_regex_matches text ti f)%nat <->
    (ti + c <= length text)%nat /\ forallb f (slice text ti (ti + c)) = true).
  { intros c. unfold count_regex_matches. rewrite count_from_spec, length_drop. unfold slice.
    replace (ti + c - ti)%nat with c by lia. split; intros [? ?]; split; (lia || done). }
  assert (Hlen : forall pos, (ti <= pos <= length text)%nat -> length (slice text ti pos) = (pos - ti)%nat)
    by (intros; apply slice_length; lia).
  assert (Hone : (exists c, (quant_min q <= c <= count_regex_matches text ti f)%nat /\ pos = (ti + c)%nat) <->
     (ti <= pos <= length text)%nat /\ forallb f (slice text ti pos) = true /\ (quant_min q <= length (slice text ti pos))%nat).
  { split.
    - intros (c & [Hmin Hc] & ->). apply Hcount in Hc as [Hc1 Hc2]. rewrite Hlen by lia.
      repeat split; [lia|lia|done|lia].
    - intros (Hp & Hf & Hm). exists (pos - ti)%nat. rewrite Hlen in Hm by done. split; [|lia]. split; [done|].
      apply Hcount. replace (ti + (pos - ti))%nat with pos by lia. split; [lia|done]. }
  assert (Hmap : pos ∈ map (fun c => (ti + c)%nat)
      (reverse (seq (quant_min q) (S (count_regex_matches text ti f) - quant_min q))) <->
    exists c, (quant_min q <= c <= count_regex_matches text ti f)%nat /\ pos = (ti + c)%nat).
  { split.
    - intros (c & -> & Hc)%list_elem_of_fmap. apply elem_of_rev_seq in Hc. exists c. split; [lia|done].
    - intros (c & Hc & ->). apply list_elem_of_fmap. exists c. split; [done|]. apply elem_of_rev_seq. lia. }
  assert (Hsingle : pos ∈ (if matches_at text ti f then [(ti + 1)%nat] else []) <->
     (ti <= pos <= length text)%nat /\ forallb f (slice text ti pos) = true /\ length (slice text ti pos) = 1%nat).
  { split.
    - destruct (matches_at text ti f) eqn:Hm; [|set_solver]. pose proof (matches_at_lt ti f Hm).
      intros ->%list_elem_of_singleton. rewrite <- matches_at_slice, Hlen by lia. repeat split; [lia|lia|done|lia].
    - intros (Hp & Hf & Hl). rewrite Hlen in Hl by done. assert (pos = ti + 1)%nat as -> by lia.
      rewrite matches_at_slice, Hf by lia. set_solver. }
  unfold elem_ends, quant_ok. destruct q; cbn [quant_min] in *.
  - by rewrite Hsingle.
  - rewrite Hmap, Hone. naive_solver lia.
  - rewrite Hmap, Hone. naive_solver.
  - rewrite elem_of_app, Hsingle, list_elem_of_singleton. split.
    + intros [(Hp & Hf & Hl)| ->]; [rewrite Hl; auto|]. split; [lia|]. unfold slice. rewrite Nat.sub_diag. rewrite take_0. auto.
    + intros (Hp & Hf & Hl). destruct (decide (pos = ti)) as [|Hne]; [by right|]. left.
      rewrite Hlen in Hl |- * by done. repeat split; [lia|lia|done|lia].
Qed.

Lemma suffix_tail (s : str) : tail s `suffix_of` s.
Proof. destruct s as [|c s]; [done|]. by exists [c]. Qed.

Lemma suffix_cons2 (c d : byte) (s : str) : s `suffix_of` c :: d :: s.
Proof. by exists [c; d]. Qed.

Lemma item_split_suffix c s : snd (item_split c s) `suffix_of` s.
Proof. unfold item_split. repeat case_match; cbn; try done; apply suffix_cons2. Qed.

Lemma class_chars_suffix fuel s : snd (class_chars fuel s) `suffix_of` s.
Proof.
  revert s. induction fuel as [|fuel IH]; intros s; cbn; [by destruct s|]. destruct s as [|c s]; [done|].
  case_decide; [done|]. pose proof (item_split_suffix c s) as Hi. destruct (item_split c s) as [r s'].
  pose proof (IH s') as Hc. destruct (class_chars fuel s') as [rs rest]. cbn in *.
  apply suffix_cons_r. by etrans.
Qed.

Lemma parse_class_suffix s : snd (parse_regex_char_class s) `suffix_of` s.
Proof.
  unfold parse_regex_char_class. set (s1 := if is_negation (head s) then tail s else s).
  assert (Hs1 : s1 `suffix_of` s) by (subst s1; case_match; [apply suffix_tail|done]).
  pose proof (class_chars_suffix (length s1) s1) as Hc.
  destruct (class_chars (length s1) s1) as [rs rest]. cbn in *.
  etrans; [apply suffix_tail|]. by etrans.
Qed.

Lemma parse_quantifier_suffix p : snd (parse_quantifier p) `suffix_of` p.
Proof. unfold parse_quantifier. repeat case_match; cbn; try done; by apply suffix_cons_r. Qed.

Lemma parse_elem_suffix c p : snd (parse_regex_elem c p) `suffix_of` p.
Proof.
  unfold parse_regex_elem. case_decide; [done|]. case_decide; [apply parse_class_suffix|].
  repeat case_match; cbn; try done. by apply suffix_cons_r.
Qed.

(** What follows an element and its quantifier is a suffix of the pattern. *)
Lemma parse_elem_rest c p f p1 q p2 :
  parse_regex_elem c p = (f, p1) -> parse_quantifier p1 = (q, p2) -> p2 `suffix_of` p.
Proof.
  intros He Hq. pose proof (parse_elem_suffix c p) as H1. pose proof (parse_quantifier_suffix p1) as H2.
  rewrite He in H1. rewrite Hq in H2. cbn in *. by etrans.
Qed.

Lemma suffix_notin (x : byte) (s t : str) : s `suffix_of` t -> x ∉ t -> x ∉ s.
Proof. intros [k ->]. set_solver. Qed.

Lemma slice_split a b c : (a <= b <= c)%nat -> slice text a c = slice text a b ++ slice text b c.
Proof.
  intros Hb. unfold slice. replace (c - a)%nat with ((b - a) + (c - b))%nat by lia.
  rewrite <- take_take_drop, drop_drop. do 3 f_equal. lia.
Qed.

(** ** The matcher decides the language of group-free patterns *)

(** [r] is the end of a match from [ti], or there is none. *)
Definition finds (p : str) (ti : nat) (me : bool) (r : option nat) : Prop :=
  match r with
  | Some e => (ti <= e <= length text)%nat /\ (me = true -> e = length text) /\ rmatch p (slice text ti e)
  | None => forall e, (ti <= e <= length text)%nat -> (me = true -> e = length text) -> ~ rmatch p (slice text ti e)
  end.

Lemma try_positions_result k l cs :
  match snd (try_positions k l cs) with
  | Some e => exists pos cs', pos ∈ l /\ snd (k pos cs') = Some e
  | None => forall pos, pos ∈ l -> exists cs', snd (k pos cs') = None
  end.
Proof.
  revert cs. induction l as [|pos l IH]; intros cs; cbn [try_positions]; [cbn; set_solver|].
  destruct (k pos cs) as [cs' [e|]] eqn:Hk; cbn [snd].
  - exists pos, cs. rewrite Hk. set_solver.
  - specialize (IH cs'). destruct (snd (try_positions k l cs')) as [e|].
    + destruct IH as (pos' & cs'' & ? & ?). exists pos', cs''. set_solver.
    + intros pos' [->|Hp]%elem_of_cons; [exists cs; by rewrite Hk|]. by apply IH.
Qed.

Lemma capturing_finds fuel ti p me cs :
  (length p < fuel)%nat -> (ti <= length text)%nat -> "("%char ∉ p ->
  finds p ti me (snd (regex_match_capturing text fuel ti p me cs)).
Proof.
  revert ti p cs. induction fuel as [|fuel IH]; intros ti p cs Hf Ht Hno; [lia|]. cbn [regex_match_capturing].
  destruct p as [|c p'].
  { cbn. unfold regex_check_end. destruct (me && _) eqn:E; cbn.
    - bool_to_prop. apply Nat.ltb_lt in H0. intros e He Hme. specialize (Hme H). subst e. intros Hrm.
      assert (Hs : slice text ti (length text) = []) by (by inversion Hrm). apply (f_equal length) in Hs. rewrite slice_length in Hs by lia. cbn in Hs. lia.
    - split; [lia|]. split; [intros ->; cbn in E; apply Nat.ltb_ge in E; lia|].
      unfold slice. rewrite Nat.sub_diag. constructor. }
  assert (Hc : c <> "("%char) by set_solver. rewrite decide_False by done.
  destruct (parse_regex_elem c p') as [f p1] eqn:He. destruct (parse_quantifier p1) as [q p2] eqn:Hq.
  pose proof (parse_elem_rest _ _ _ _ _ _ He Hq) as Hsuf.
  assert (Hno2 : "("%char ∉ p2) by (eapply suffix_notin; [exact Hsuf|set_solver]).
  assert (Hl2 : (length p2 < fuel)%nat) by (apply suffix_length in Hsuf; cbn in Hf; lia).
  set (k := fun pos cs => regex_match_capturing text fuel pos p2 me cs).
  pose proof (try_positions_result k (elem_ends text ti f q) cs) as Hr.
  destruct (snd (try_positions k (elem_ends text ti f q) cs)) as [e|].
  - destruct Hr as (pos & cs' & Hp & Hk). apply elem_ends_spec in Hp as [Hp Hqo]; [|done].
    pose proof (IH pos p2 cs' Hl2 ltac:(lia) Hno2) as Hfind. fold (k pos cs') in Hfind. rewrite Hk in Hfind.
    destruct Hfind as (Hb & Hme & Hrm). split; [lia|]. split; [done|].
    rewrite (slice_split ti pos e) by lia. by eapply rm_elem.
  - intros e Hb Hme Hrm. inversion Hrm as [|c0 p0 f0 p10 q0 p20 w1 w2 _ He0 Hq0 Hqo Hr2 E1 E2]; subst.
    rewrite He in He0. simplify_eq. rewrite Hq in Hq0. simplify_eq.
    assert (Hlw : (length w1 + length w2 = e - ti)%nat).
    { rewrite <- length_app, E2, slice_length by lia. done. }
    assert (exists pos, pos = (ti + length w1)%nat) as [pos Hpos] by eauto.
    assert (Hw : w1 = slice text ti pos /\ w2 = slice text pos e).
    { rewrite (slice_split ti pos e) in E2 by lia. apply app_inj_1 in E2; [done|].
      rewrite slice_length by lia. lia. }
    assert (ti <= pos <= e)%nat by lia. clear Hpos Hlw. destruct Hw as [-> ->].
    assert (Hp : pos ∈ elem_ends text ti f0 q0) by (apply elem_ends_spec; [done|]; split; [lia|done]).
    destruct (Hr pos Hp) as [cs' Hk].
    pose proof (IH pos p20 cs' Hl2 ltac:(lia) Hno2) as Hfind. fold (k pos cs') in Hfind. rewrite Hk in Hfind.
    by apply (Hfind e); [lia|done|].
Qed.

End text.

(** ** Concrete matches and their limits *)

Lemma captures_transactional_witness :
  match regex_match_capturing #"aab" 6 0 #"(a)+b" false [(7, 7)]%nat with
  | (cs', Some e) => e = 3%nat /\ cs' = [(7, 7); (0, 2)]%nat
  | (_, None) => False
  end /\ (fst (regex_match_capturing #"aab" 6 0 #"(a)+c" false [(7, 7)]%nat) = [(7, 7)]%nat).
Proof.
  split; [vm_compute; auto|].
  pose proof (captures_transactional #"aab" 6 0 #"(a)+c" false [(7, 7)]%nat ltac:(cbn; lia)) as H.
  destruct (regex_match_capturing #"aab" 6 0 #"(a)+c" false [(7, 7)]%nat) as [cs' [e|]] eqn:E; [vm_compute in E; discriminate|].
  exact H.
Defined.

Lemma regex_ascii_safe_witness :
  let '(core, s, e) := regex_strip_anchors #"^(a+)b$" in
  exists r, regex_match_with_captures #"aab" #"^(a+)b$" = Ok r /\
    forall caps, r = Some caps -> exists a b groups, caps = slice #"aab" a b :: groups /\ (a <= b <= 3)%nat /\
      (s = true -> a = 0%nat) /\ (e = true -> b = 3%nat) /\ Forall (substring #"aab") groups.
Proof. apply (regex_ascii_safe #"aab" #"^(a+)b$"). reflexivity. Defined.


(** One character of two bytes and the pattern [.]: the match ends inside the
    character and slicing the text panics. *)
Theorem regex_utf8_panic :
  regex_match_with_captures (map (fun n => Ascii.ascii_of_N n) [195; 169]%N) #"." =
    Panic "byte index is not a char boundary".
Proof. vm_compute. reflexivity. Qed.

(** The matcher commits to the longest match of a group: an anchored group of
    starred [a] followed by [ab] does not match [aab]. *)
Theorem group_not_backtracked : regex_match_with_captures #"aab" #"^(a*)ab$" = Ok None.
Proof. vm_compute. reflexivity. Qed.

(** Inside a group, the quantifier of an inner group is a literal: [((a)+b)]
    matches [a+b] and not [aab]. *)
Theorem nested_quantifier_literal :
  regex_match_with_captures #"aab" #"^((a)+b)$" = Ok None /\
  regex_match_with_captures #"a+b" #"^((a)+b)$" = Ok (Some [ #"a+b"; #"a+b" ]).
Proof. vm_compute. auto. Qed.

(** A [|] outside of groups is a literal. *)
Theorem toplevel_alternation_literal :
  regex_match_with_captures #"a" #"a|b" = Ok None /\
  regex_match_with_captures #"a|b" #"a|b" = Ok (Some [ #"a|b" ]).
Proof. vm_compute. auto. Qed.

(** In a pattern without metacharacters a backslash is a literal: [\$] does
    not match a dollar sign. *)
Theorem literal_keeps_backslash : regex_match_with_captures #"$" #"\$" = Ok None.
Proof. vm_compute. reflexivity. Qed.
