(* ===== verification/Router.v ===== *)
(** * Output routing (crates/wasmsh-runtime/src/lib.rs)

    Where the bytes a command writes go: a redirected descriptor (file sink,
    pipe, process substitution, closed), the innermost capture scope that wants
    the stream, or the visible output of the session, which is counted against
    the output limit.  [Runtime] holds the fields of [WorkerRuntime] these
    functions touch; objects behind an [Rc] live in the stores [sinks] and
    [pipes].  The definitions without prefix are those of [WorkerRuntime], the
    ones with [direct_] those of the borrowed [RuntimeOutputRouter] through which
    builtins and utilities write.  The pipeline behind a live process substitution is the parameter
    [Runner]. *)

From S2P Require Import Prelude Strings Fs MemFs IndexMap State Pipe Ast Ir Vm FdTable.

Record OutputCapture := {
  wants_stdout : bool;
  wants_stderr : bool;
  cap_stdout : list Ascii.ascii;
  cap_stderr : list Ascii.ascii;
}.

Record CapturedOutput := { got_stdout : list Ascii.ascii; got_stderr : list Ascii.ascii }.

Section router.
Context `{Target} {R : Type} {Runner : Type}.
(** [LiveProcessSubstRunner::write_input]. *)
Context (write_input : Runner -> list Ascii.ascii -> Runner).

Inductive PendingProcessSubstOutMode := Buffered (data : list Ascii.ascii) | Live (runner : Runner).

Record PendingProcessSubstOut := {
  ps_path : list Ascii.ascii;
  ps_inner : list Ascii.ascii;
  ps_mode : PendingProcessSubstOutMode;
}.

Definition ps_write (d : str) (p : PendingProcessSubstOut) : PendingProcessSubstOut :=
  {| ps_path := ps_path p; ps_inner := ps_inner p;
     ps_mode := match ps_mode p with
                | Buffered b => Buffered (b ++ d)
                | Live r => Live (write_input r d)
                end |}.

Definition ps_clear (p : PendingProcessSubstOut) : PendingProcessSubstOut :=
  {| ps_path := ps_path p; ps_inner := ps_inner p;
     ps_mode := match ps_mode p with Buffered _ => Buffered [] | Live r => Live r end |}.

Record Runtime := {
  rt_vm : Vm;
  rt_fs : MemoryFsInner R;
  sinks : gmap nat MemoryWriteSink;
  pipes : gmap nat PipeBuffer;
  current_exec_io : option ExecIo;
  output_captures : list OutputCapture;
  resource_exhausted : bool;
  exec_stop_reason : option StopReason;
  proc_subst_out_scopes : list (list PendingProcessSubstOut);
}.

Definition map_vm (f : Vm -> Vm) (r : Runtime) : Runtime :=
  {| rt_vm := f (rt_vm r); rt_fs := rt_fs r; sinks := sinks r; pipes := pipes r;
     current_exec_io := current_exec_io r; output_captures := output_captures r;
     resource_exhausted := resource_exhausted r; exec_stop_reason := exec_stop_reason r;
     proc_subst_out_scopes := proc_subst_out_scopes r |}.

Definition set_store (fs : MemoryFsInner R) (k : gmap nat MemoryWriteSink) (r : Runtime) : Runtime :=
  {| rt_vm := rt_vm r; rt_fs := fs; sinks := k; pipes := pipes r;
     current_exec_io := current_exec_io r; output_captures := output_captures r;
     resource_exhausted := resource_exhausted r; exec_stop_reason := exec_stop_reason r;
     proc_subst_out_scopes := proc_subst_out_scopes r |}.

Definition set_pipes (p : gmap nat PipeBuffer) (r : Runtime) : Runtime :=
  {| rt_vm := rt_vm r; rt_fs := rt_fs r; sinks := sinks r; pipes := p;
     current_exec_io := current_exec_io r; output_captures := output_captures r;
     resource_exhausted := resource_exhausted r; exec_stop_reason := exec_stop_reason r;
     proc_subst_out_scopes := proc_subst_out_scopes r |}.

Definition set_exec_io (io : option ExecIo) (r : Runtime) : Runtime :=
  {| rt_vm := rt_vm r; rt_fs := rt_fs r; sinks := sinks r; pipes := pipes r;
     current_exec_io := io; output_captures := output_captures r;
     resource_exhausted := resource_exhausted r; exec_stop_reason := exec_stop_reason r;
     proc_subst_out_scopes := proc_subst_out_scopes r |}.

Definition set_captures (c : list OutputCapture) (r : Runtime) : Runtime :=
  {| rt_vm := rt_vm r; rt_fs := rt_fs r; sinks := sinks r; pipes := pipes r;
     current_exec_io := current_exec_io r; output_captures := c;
     resource_exhausted := resource_exhausted r; exec_stop_reason := exec_stop_reason r;
     proc_subst_out_scopes := proc_subst_out_scopes r |}.

Definition set_exhausted (b : bool) (reason : option StopReason) (r : Runtime) : Runtime :=
  {| rt_vm := rt_vm r; rt_fs := rt_fs r; sinks := sinks r; pipes := pipes r;
     current_exec_io := current_exec_io r; output_captures := output_captures r;
     resource_exhausted := b; exec_stop_reason := reason;
     proc_subst_out_scopes := proc_subst_out_scopes r |}.

Definition set_scopes (s : list (list PendingProcessSubstOut)) (r : Runtime) : Runtime :=
  {| rt_vm := rt_vm r; rt_fs := rt_fs r; sinks := sinks r; pipes := pipes r;
     current_exec_io := current_exec_io r; output_captures := output_captures r;
     resource_exhausted := resource_exhausted r; exec_stop_reason := exec_stop_reason r;
     proc_subst_out_scopes := s |}.

(** ** Destinations common to both routers *)

(** [iter_mut().rev()] over a vector: update the last element the function
    accepts. *)
Fixpoint update_last {A} (f : A -> option A) (l : list A) : option (list A) :=
  match l with
  | [] => None
  | x :: l' => match update_last f l' with
               | Some l'' => Some (x :: l'')
               | None => y ← f x; Some (y :: l')
               end
  end.

(** [iter().position(..)] and [get_mut]: update the first one. *)
Fixpoint update_first {A} (f : A -> option A) (l : list A) : option (list A) :=
  match l with
  | [] => None
  | x :: l' => match f x with
               | Some y => Some (y :: l')
               | None => l'' ← update_first f l'; Some (x :: l'')
               end
  end.

(** [process_subst_out_sink_mut] followed by a change of the sink it finds. *)
Definition on_process_subst (path : str) (f : PendingProcessSubstOut -> PendingProcessSubstOut)
    (scopes : list (list PendingProcessSubstOut)) : option (list (list PendingProcessSubstOut)) :=
  update_last (update_first (fun p => if decide (ps_path p = path) then Some (f p) else None)) scopes.

Definition append_visible_output_direct (d : str) (stdout : bool) (r : Runtime) : Runtime :=
  map_vm (if stdout then Vm.append_out d [] else Vm.append_out [] d) r.

(** Write through a shared sink: the file changes, the sink starts to append. *)
Definition sink_write (sink : rc) (d : str) (r : Runtime) : Runtime * option FsError :=
  match sinks r !! sink with
  | None => (r, None)
  | Some k =>
      match write_chunk k d (rt_fs r) with
      | (fs, Ok k') => (set_store fs (<[sink := k']> (sinks r)) r, None)
      | (fs, Err e) => (set_store fs (sinks r) r, Some e)
      | (fs, Panic _) => (set_store fs (sinks r) r, None)
      end
  end.

Definition pipe_write (pipe : rc) (d : str) (r : Runtime) : Runtime :=
  match pipes r !! pipe with
  | None => r
  | Some p => set_pipes (<[pipe := Pipe.write_all d p]> (pipes r)) r
  end.

Definition capture_append (stdout : bool) (d : str) (c : OutputCapture) : option OutputCapture :=
  if stdout then
    if wants_stdout c then Some {| wants_stdout := wants_stdout c; wants_stderr := wants_stderr c;
                                   cap_stdout := cap_stdout c ++ d; cap_stderr := cap_stderr c |} else None
  else
    if wants_stderr c then Some {| wants_stdout := wants_stdout c; wants_stderr := wants_stderr c;
                                   cap_stdout := cap_stdout c; cap_stderr := cap_stderr c ++ d |} else None.

(** The loop over the captures and the visible output behind it. *)
Definition deliver_inherited (d : str) (routed_stdout : bool) (r : Runtime) : Runtime * bool :=
  match update_last (capture_append routed_stdout d) (output_captures r) with
  | Some cs => (set_captures cs r, false)
  | None => (append_visible_output_direct d routed_stdout r, true)
  end.

Definition write_error_message (e : FsError) : str := #"wasmsh: write error: " ++ fs_error_display e ++ [Ascii.ascii_of_N 10].

Definition fs_diagnostic (path : str) (e : FsError) : Vm -> Vm :=
  Vm.emit_diagnostic Error DFilesystem (#"write failed for " ++ path ++ #": " ++ fs_error_display e).

(** [route_output], given the function that writes to a redirected target. *)
Definition route_output_with (write_destination : OutputTarget -> str -> Runtime -> Runtime * bool)
    (d : str) (stdout : bool) (r : Runtime) : Runtime * bool :=
  match Io.output_target stdout <$> current_exec_io r with
  | None => deliver_inherited d stdout r
  | Some InheritStdout => deliver_inherited d true r
  | Some InheritStderr => deliver_inherited d false r
  | Some destination => write_destination destination d r
  end.

(** ** [WorkerRuntime] *)

Definition flag_output_limit_if_needed (r : Runtime) : Runtime :=
  if resource_exhausted r then r
  else match Vm.check_output_limit (rt_vm r) with
       | (v, inl _) => map_vm (fun _ => v) r
       | (v, inr _) => set_exhausted true (exec_stop_reason r) (map_vm (fun _ => v) r)
       end.

Definition account_output (bytes : Z) (r : Runtime) : Runtime :=
  flag_output_limit_if_needed (map_vm (fun v => fst (Vm.track_output bytes v)) r).

Definition emit_visible_stderr_direct (d : str) (r : Runtime) : Runtime :=
  account_output (len d) (append_visible_output_direct d false r).

Definition write_output_destination (destination : OutputTarget) (d : str) (r : Runtime) : Runtime * bool :=
  match destination with
  | InheritStdout => (append_visible_output_direct d true r, true)
  | InheritStderr => (append_visible_output_direct d false r, true)
  | OutFile path _ sink =>
      match sink_write sink d r with
      | (r, Some e) => (map_vm (fs_diagnostic path e) (emit_visible_stderr_direct (write_error_message e) r), false)
      | (r, None) => (r, false)
      end
  | ProcessSubst path =>
      match on_process_subst path (ps_write d) (proc_subst_out_scopes r) with
      | Some scopes => (set_scopes scopes r, false)
      | None => (emit_visible_stderr_direct
                   (#"wasmsh: " ++ path ++ #": process substitution sink not found" ++ [Ascii.ascii_of_N 10]) r, false)
      end
  | OutPipe pipe => (pipe_write pipe d r, false)
  | OutClosed => (r, false)
  end.

Definition route_output (d : str) (stdout : bool) (r : Runtime) : Runtime * bool :=
  route_output_with write_output_destination d stdout r.

Definition write_stream (stdout : bool) (d : str) (r : Runtime) : Runtime :=
  match route_output d stdout r with
  | (r, true) => account_output (len d) r
  | (r, false) => r
  end.

Definition write_stdout : str -> Runtime -> Runtime := write_stream true.
Definition write_stderr : str -> Runtime -> Runtime := write_stream false.

Definition write_streams (out err : str) (r : Runtime) : Runtime :=
  let '(r, visible_stdout) := route_output out true r in
  let '(r, visible_stderr) := route_output err false r in
  let visible_bytes := (if visible_stdout then len out else 0) + (if visible_stderr then len err else 0) in
  if 0 <? visible_bytes then account_output visible_bytes r else r.

(** ** [RuntimeOutputRouter] *)

Definition direct_output_destination (destination : OutputTarget) (d : str) (r : Runtime) : Runtime * bool :=
  match destination with
  | InheritStdout => (append_visible_output_direct d true r, true)
  | InheritStderr => (append_visible_output_direct d false r, true)
  | ProcessSubst path =>
      match on_process_subst path (ps_write d) (proc_subst_out_scopes r) with
      | Some scopes => (set_scopes scopes r, false)
      | None => (r, false)
      end
  | OutFile path _ sink =>
      match sink_write sink d r with
      | (r, Some e) =>
          (map_vm (fs_diagnostic path e) (append_visible_output_direct (write_error_message e) false r), false)
      | (r, None) => (r, false)
      end
  | OutPipe pipe => (pipe_write pipe d r, false)
  | OutClosed => (r, false)
  end.

Definition direct_account_output (bytes : Z) (r : Runtime) : Runtime :=
  let r := set_exhausted (resource_exhausted r) None (map_vm (Vm.add_output_bytes bytes) r) in
  if resource_exhausted r then r
  else
    let used := output_bytes (rt_vm r) in
    let lim := output_byte_limit (limits (rt_vm r)) in
    if (0 <? lim) && (lim <? used)
    then
      let reason := {| category := VisibleOutputBytes; used := used; limit := lim |} in
      map_vm (Vm.emit_diagnostic Error DBudget (diagnostic_message reason))
        (set_exhausted true (Some (Exhausted reason)) r)
    else r.

Definition direct_write_stream (stdout : bool) (d : str) (r : Runtime) : Runtime :=
  match route_output_with direct_output_destination d stdout r with
  | (r, true) => direct_account_output (len d) r
  | (r, false) => r
  end.

(** ** Scopes *)

Definition push_output_capture (capture_stdout capture_stderr : bool) (r : Runtime) : Runtime :=
  set_captures (output_captures r ++
    [ {| wants_stdout := capture_stdout; wants_stderr := capture_stderr; cap_stdout := []; cap_stderr := [] |} ]) r.

(** [None]: the panic of the [expect]. *)
Definition pop_output_capture (r : Runtime) : option (Runtime * CapturedOutput) :=
  c ← last (output_captures r);
  Some (set_captures (removelast (output_captures r)) r,
        {| got_stdout := cap_stdout c; got_stderr := cap_stderr c |}).

Definition with_output_capture {T} (capture_stdout capture_stderr : bool) (f : Runtime -> Runtime * T) (r : Runtime)
    : option (Runtime * T * CapturedOutput) :=
  let '(r, result) := f (push_output_capture capture_stdout capture_stderr r) in
  '(r, captured) ← pop_output_capture r;
  Some (r, result, captured).

Definition with_exec_io_scope {T} (io : option ExecIo) (f : Runtime -> Runtime * T) (r : Runtime) : Runtime * T :=
  match io with
  | None => f r
  | Some io =>
      let saved := current_exec_io r in
      let '(r, result) := f (set_exec_io (Some io) r) in
      let restored :=
        match saved, current_exec_io r with
        | Some saved, Some current => Some (Io.map_fds (Fds.set_input (snd (Io.take_stdin current))) saved)
        | saved, _ => saved
        end in
      (set_exec_io restored r, result)
  end.

(** What a stream collected since a mark is taken back, from the capture that
    holds it or from the visible output; the slice panics when the mark is past
    the end. *)
Fixpoint take_last {A B} (f : A -> option (A * B)) (l : list A) : option (list A * B) :=
  match l with
  | [] => None
  | x :: l' => match take_last f l' with
               | Some (l'', b) => Some (x :: l'', b)
               | None => '(y, b) ← f x; Some (y :: l', b)
               end
  end.

Definition set_vm_out (out err : str) (v : Vm) : Vm :=
  {| state := state v; vm_steps := vm_steps v; limits := limits v; output_bytes := output_bytes v;
     budget := budget v; cancel := cancel v; diagnostics := diagnostics v; stdout := out; stderr := err |}.

Definition capture_stdout (from : nat) (r : Runtime) : res FsError (Runtime * list Ascii.ascii) :=
  let truncate c := {| wants_stdout := wants_stdout c; wants_stderr := wants_stderr c;
                       cap_stdout := take from (cap_stdout c); cap_stderr := cap_stderr c |} in
  let '(r', whole) :=
    match take_last (fun c => if wants_stdout c then Some (truncate c, cap_stdout c) else None) (output_captures r) with
    | Some (cs, d) => (set_captures cs r, d)
    | None => (map_vm (set_vm_out (take from (stdout (rt_vm r))) (stderr (rt_vm r))) r, stdout (rt_vm r))
    end in
  if (from <=? length whole)%nat then Ok (r', drop from whole)
  else Panic "range start index out of range for slice".

Definition take_stderr (r : Runtime) : Runtime * list Ascii.ascii :=
  match take_last (fun c => if wants_stderr c
          then Some ({| wants_stdout := wants_stdout c; wants_stderr := true; cap_stdout := cap_stdout c; cap_stderr := [] |}, cap_stderr c)
          else None) (output_captures r) with
  | Some (cs, d) => (set_captures cs r, d)
  | None => (map_vm (set_vm_out (stdout (rt_vm r)) []) r, stderr (rt_vm r))
  end.

End router.
