(* ===== verification/RouterProps.v ===== *)
(** * Output routing: theorems

    A capture scope splits the stream of writes exactly; redirected writes that
    share a sink land in the file in the order they were made; the output limit
    is noticed exactly when the visible bytes exceed it, as long as all writes go
    through one of the two routers. *)

From S2P Require Import Prelude Strings Fs MemFs MemFsInv MemFsSafe MemFsSpec IndexMap State Pipe Ast Ir Vm FdTable Router.

Section router_props.
Context `{Target} {R : Type} {Runner : Type} (write_input : Runner -> list Ascii.ascii -> Runner).

Abbreviation runtime := (@Runtime R Runner).

(** A trace of writes of one command: the stream ([true] is standard output) and
    the bytes. *)
Definition run_writes (ws : list (bool * list Ascii.ascii)) (r : runtime) : runtime :=
  foldl (fun r w => write_stream write_input w.1 w.2 r) r ws.

(** ** Capture scopes *)

(** The inherited stream a descriptor leads to, unless it is redirected. *)
Definition inherited_as (io : option ExecIo) (stdout : bool) : option bool :=
  match Io.output_target stdout <$> io with
  | None => Some stdout
  | Some InheritStdout => Some true
  | Some InheritStderr => Some false
  | Some _ => None
  end.

(** Whether a scope that captures the given streams takes a write. *)
Definition taken (io : option ExecIo) (cs ce : bool) (w : bool * list Ascii.ascii) : bool :=
  match inherited_as io w.1 with Some true => cs | Some false => ce | None => false end.

(** The bytes of a trace that reach the inherited stream [b]. *)
Definition stream_bytes (io : option ExecIo) (b : bool) (ws : list (bool * list Ascii.ascii)) : str :=
  concat (map snd (filter (fun w => inherited_as io w.1 = Some b) ws)).

Lemma update_last_snoc {A} (f : A -> option A) l x :
  update_last f (l ++ [x]) = match f x with Some y => Some (l ++ [y]) | None => (fun l' => l' ++ [x]) <$> update_last f l end.
Proof.
  induction l as [|a l IH]; cbn; [by destruct (f x)|]. rewrite IH.
  destruct (f x) as [y|]; [done|]. destruct (update_last f l) as [l'|]; cbn; [done|]. by destruct (f a).
Qed.

(** Adding an outer-to-inner capture at the end commutes with every change that
    leaves the captures alone. *)
Definition push (c : OutputCapture) (r : runtime) : runtime := set_captures (output_captures r ++ [c]) r.

Lemma push_map_vm c f r : map_vm f (push c r) = push c (map_vm f r).
Proof. done. Qed.

Lemma push_account c n r : account_output n (push c r) = push c (account_output n r).
Proof.
  unfold account_output, flag_output_limit_if_needed. cbn.
  case_split; [done|]. by destruct (Vm.check_output_limit _) as [v [?|?]].
Qed.

Lemma push_sink_write c k d r :
  sink_write k d (push c r) = (push c (fst (sink_write k d r)), snd (sink_write k d r)).
Proof.
  unfold sink_write. cbn. destruct (sinks r !! k) as [s|]; [|done].
  by destruct (write_chunk s d (rt_fs r)) as [fs [?|?|?]].
Qed.

Lemma push_destination c t d r :
  write_output_destination write_input t d (push c r)
  = (push c (fst (write_output_destination write_input t d r)), snd (write_output_destination write_input t d r)).
Proof.
  destruct t as [| |path app k|path|p|]; cbn [write_output_destination]; [done|done| | | |done].
  - rewrite push_sink_write. destruct (sink_write k d r) as [r1 [e|]]; cbn; [|done].
    unfold emit_visible_stderr_direct, append_visible_output_direct.
    by rewrite push_map_vm, push_account, push_map_vm.
  - change (proc_subst_out_scopes (push c r)) with (proc_subst_out_scopes r).
    destruct (on_process_subst path (ps_write write_input d) (proc_subst_out_scopes r)); cbn [fst snd]; [done|].
    unfold emit_visible_stderr_direct, append_visible_output_direct. by rewrite push_map_vm, push_account.
  - unfold pipe_write. cbn. by destruct (pipes r !! p).
Qed.

Lemma capture_append_Some b d c :
  is_Some (capture_append b d c) <-> (if b then wants_stdout c else wants_stderr c) = true.
Proof. unfold capture_append. destruct b, (wants_stdout c), (wants_stderr c); split; (by intros [? ?]) || eauto; done. Qed.

Lemma deliver_push c d b r :
  deliver_inherited d b (push c r) =
  match capture_append b d c with
  | Some c' => (push c' r, false)
  | None => (push c (fst (deliver_inherited d b r)), snd (deliver_inherited d b r))
  end.
Proof.
  unfold deliver_inherited. cbn [output_captures push set_captures]. rewrite update_last_snoc.
  destruct (capture_append b d c) as [c'|]; [done|].
  by destruct (update_last (capture_append b d) (output_captures r)).
Qed.

Lemma write_push c b d r :
  write_stream write_input b d (push c r) =
  match inherited_as (current_exec_io r) b with
  | Some b' => match capture_append b' d c with
               | Some c' => push c' r
               | None => push c (write_stream write_input b d r)
               end
  | None => push c (write_stream write_input b d r)
  end.
Proof.
  unfold write_stream, route_output, route_output_with, inherited_as.
  change (current_exec_io (push c r)) with (current_exec_io r).
  assert (Hdel : forall b', match deliver_inherited d b' (push c r) with
    | (r', true) => account_output (len d) r' | (r', false) => r' end =
    match capture_append b' d c with
    | Some c' => push c' r
    | None => push c match deliver_inherited d b' r with (r', true) => account_output (len d) r' | (r', false) => r' end
    end).
  { intros b'. rewrite deliver_push. destruct (capture_append b' d c); [done|].
    destruct (deliver_inherited d b' r) as [r' []]; cbn; [apply push_account|done]. }
  assert (Hdst : forall t, match write_output_destination write_input t d (push c r) with
    | (r', true) => account_output (len d) r' | (r', false) => r' end =
    push c match write_output_destination write_input t d r with
    | (r', true) => account_output (len d) r' | (r', false) => r' end).
  { intros t. rewrite push_destination. destruct (write_output_destination write_input t d r) as [r' []]; cbn;
      [apply push_account|done]. }
  destruct (Io.output_target b <$> current_exec_io r) as [[| |? ? ?|?|?|]|]; auto.
Qed.

(** Writing never changes the descriptors. *)
Lemma account_exec_io n (r : runtime) : current_exec_io (account_output n r) = current_exec_io r.
Proof.
  unfold account_output, flag_output_limit_if_needed. case_split; [done|].
  by destruct (Vm.check_output_limit _) as [v [?|?]].
Qed.

Lemma sink_write_exec_io k d (r : runtime) : current_exec_io (fst (sink_write k d r)) = current_exec_io r.
Proof.
  unfold sink_write. destruct (sinks r !! k) as [s|]; [|done].
  by destruct (write_chunk s d (rt_fs r)) as [fs [?|?|?]].
Qed.

Lemma destination_exec_io t d (r : runtime) :
  current_exec_io (fst (write_output_destination write_input t d r)) = current_exec_io r.
Proof.
  destruct t as [| |path app k|path|p|]; try done; cbn [write_output_destination].
  - pose proof (sink_write_exec_io k d r). destruct (sink_write k d r) as [r1 [e|]]; cbn [fst] in *; [|done].
    change (current_exec_io (emit_visible_stderr_direct (write_error_message e) r1) = current_exec_io r).
    unfold emit_visible_stderr_direct. by rewrite account_exec_io.
  - destruct (on_process_subst _ _ _); cbn [fst]; [done|]. unfold emit_visible_stderr_direct. by rewrite account_exec_io.
  - unfold pipe_write. by destruct (pipes r !! p).
Qed.

Lemma write_exec_io b d (r : runtime) : current_exec_io (write_stream write_input b d r) = current_exec_io r.
Proof.
  unfold write_stream. assert (current_exec_io (fst (route_output write_input d b r)) = current_exec_io r) as Hr.
  { unfold route_output, route_output_with, deliver_inherited.
    destruct (Io.output_target b <$> current_exec_io r) as [[| |? ? ?|?|?|]|];
      (by apply destination_exec_io) || (by destruct (update_last _ _)). }
  destruct (route_output write_input d b r) as [r' []]; cbn in *; [by rewrite account_exec_io|done].
Qed.

(** The capture after it took part of a trace. *)
Definition filled (io : option ExecIo) (ws : list (bool * list Ascii.ascii)) (c : OutputCapture) : OutputCapture :=
  {| wants_stdout := wants_stdout c; wants_stderr := wants_stderr c;
     cap_stdout := cap_stdout c ++ (if wants_stdout c then stream_bytes io true ws else []);
     cap_stderr := cap_stderr c ++ (if wants_stderr c then stream_bytes io false ws else []) |}.

Lemma stream_bytes_cons io b w ws :
  stream_bytes io b (w :: ws) = (if decide (inherited_as io w.1 = Some b) then w.2 else []) ++ stream_bytes io b ws.
Proof. unfold stream_bytes. rewrite filter_cons. by case_decide. Qed.

Lemma filled_cons io w ws c :
  filled io (w :: ws) c =
  filled io ws match inherited_as io w.1 with
               | Some b => default c (capture_append b w.2 c)
               | None => c
               end.
Proof.
  unfold filled. rewrite !stream_bytes_cons.
  destruct (inherited_as io w.1) as [[]|]; unfold capture_append; destruct c as [cs ce o e], cs, ce; cbn;
    rewrite ?decide_True by done; rewrite ?decide_False by done; cbn; by rewrite <- ?app_assoc, ?app_nil_r.
Qed.

Lemma run_writes_push ws c r :
  run_writes ws (push c r) =
  push (filled (current_exec_io r) ws c)
    (run_writes (filter (fun w => taken (current_exec_io r) (wants_stdout c) (wants_stderr c) w = false) ws) r).
Proof.
  revert c r. induction ws as [|[b d] ws IH]; intros c r.
  - unfold filled. cbn. f_equal. destruct c as [cs ce o e], cs, ce; cbn; by rewrite !app_nil_r.
  - assert (Hcons : forall ws' (r0 : runtime), run_writes ((b, d) :: ws') r0 = run_writes ws' (write_stream write_input b d r0)) by done.
    rewrite Hcons, filled_cons, write_push. cbn [fst snd].
    set (P := fun w => taken (current_exec_io r) (wants_stdout c) (wants_stderr c) w = false).
    destruct (inherited_as (current_exec_io r) b) as [b'|] eqn:Hio;
      [destruct (capture_append b' d c) as [c'|] eqn:Hc|].
    + assert (wants_stdout c' = wants_stdout c /\ wants_stderr c' = wants_stderr c) as [Hw1 Hw2].
      { revert Hc. unfold capture_append. destruct b'; case_split; naive_solver. }
      assert ((if b' then wants_stdout c else wants_stderr c) = true) as Hw.
      { apply (capture_append_Some b' d). eauto. }
      rewrite filter_cons_False by (unfold P, taken; cbn; rewrite Hio; by destruct b'; rewrite Hw).
      rewrite IH, Hw1, Hw2. done.
    + assert ((if b' then wants_stdout c else wants_stderr c) = false) as Hw.
      { apply not_true_iff_false. rewrite <- (capture_append_Some b' d), Hc. by intros [? ?]. }
      rewrite filter_cons_True by (unfold P, taken; cbn; rewrite Hio; by destruct b').
      cbn [default]. by rewrite IH, write_exec_io, Hcons.
    + rewrite filter_cons_True by (unfold P, taken; cbn; by rewrite Hio).
      by rewrite IH, write_exec_io, Hcons.
Qed.

(** C23: A capture scope is transparent and exact: it returns precisely the bytes the
    body sent to the inherited streams it captures, in order, and leaves
    everything else -- files, pipes, enclosing captures, visible output, the
    output accounting -- as if only the remaining writes had been made. *)
Theorem capture_scope_exact (cs ce : bool) (ws : list (bool * list Ascii.ascii)) (r : runtime) :
  let io := current_exec_io r in
  with_output_capture cs ce (fun r => (run_writes ws r, tt)) r =
  Some (run_writes (filter (fun w => taken io cs ce w = false) ws) r, tt,
        {| got_stdout := if cs then stream_bytes io true ws else [];
           got_stderr := if ce then stream_bytes io false ws else [] |}).
Proof.
  intros io. unfold with_output_capture, push_output_capture.
  change (set_captures _ r) with
    (push {| wants_stdout := cs; wants_stderr := ce; cap_stdout := []; cap_stderr := [] |} r).
  rewrite run_writes_push. cbn [wants_stdout wants_stderr]. fold io.
  set (r1 := run_writes _ r). unfold pop_output_capture, push. cbn [output_captures set_captures].
  rewrite last_snoc. cbn. rewrite removelast_last. by destruct r1, cs, ce.
Qed.

(** ** Redirections *)

(** One write through a descriptor that leads to a sink with room left. *)
Lemma write_to_sink (r : runtime) io b path app sink k base d :
  fs_inv (rt_fs r) -> sinks r !! sink = Some k -> nodes (rt_fs r) !! sink_path k = Some (File base) ->
  current_exec_io r = Some io -> Io.output_target b io = OutFile path app sink ->
  let new : str := if sink_append k then base ++ d else d in
  len new <= MAX_FILE_SIZE -> total_bytes (rt_fs r) - len base + len new <= MAX_TOTAL_BYTES ->
  exists fs', write_stream write_input b d r =
      set_store fs' (<[sink := {| sink_path := sink_path k; sink_append := true |}]> (sinks r)) r /\
    fs_inv fs' /\ nodes fs' !! sink_path k = Some (File new) /\
    total_bytes fs' = total_bytes (rt_fs r) - len base + len new.
Proof.
  intros Hi Hk Hn Hio Hb new Hf Ht. pose proof (write_chunk_fits (rt_fs r) k d base Hi Hn Hf Ht) as Hw.
  pose proof (write_chunk_inv k d (rt_fs r) Hi) as Hi'. rewrite Hw in Hi'. cbn [fst] in Hi'.
  eexists. split; [|split; [exact Hi'|split; [apply lookup_insert_eq|done]]].
  unfold write_stream, route_output, route_output_with. rewrite Hio. cbn [fmap option_fmap option_map]. rewrite Hb.
  cbn [write_output_destination]. unfold sink_write. rewrite Hk, Hw. done.
Qed.

(** What the writes of one redirected command leave alone. *)
Definition same_but_files (r r' : runtime) : Prop :=
  rt_vm r' = rt_vm r /\ output_captures r' = output_captures r /\ pipes r' = pipes r /\
  current_exec_io r' = current_exec_io r /\ resource_exhausted r' = resource_exhausted r /\
  proc_subst_out_scopes r' = proc_subst_out_scopes r.

Lemma run_writes_to_sink ws (r : runtime) io path app sink k base :
  fs_inv (rt_fs r) -> sinks r !! sink = Some k -> nodes (rt_fs r) !! sink_path k = Some (File base) ->
  current_exec_io r = Some io -> (forall b, Io.output_target b io = OutFile path app sink) ->
  let kept : str := if sink_append k then base else [] in
  len kept + len (concat (map snd ws)) <= MAX_FILE_SIZE ->
  total_bytes (rt_fs r) - len base + len kept + len (concat (map snd ws)) <= MAX_TOTAL_BYTES ->
  same_but_files r (run_writes ws r) /\
  nodes (rt_fs (run_writes ws r)) !! sink_path k
  = Some (File (match ws with [] => base | _ => kept ++ concat (map snd ws) end)).
Proof.
  revert r k base. induction ws as [|[b d] ws IH]; intros r k base Hi Hk Hn Hio Hb kept Hf Ht; [done|].
  set (data := concat (map snd ws)) in *.
  assert (Hd : concat (map snd ((b, d) :: ws)) = d ++ data) by done.
  rewrite Hd, len_app in Hf, Ht. pose proof (len_nonneg data). pose proof (len_nonneg d).
  assert (Hnew : (if sink_append k then base ++ d else d) = kept ++ d) by (subst kept; by destruct (sink_append k)).
  destruct (write_to_sink r io b path app sink k base d) as (fs' & Hw & Hi' & Hn' & Ht');
    [done..|by rewrite Hnew, len_app; lia|by rewrite Hnew, len_app; lia|].
  rewrite Hnew in Hn', Ht'. rewrite len_app in Ht'.
  change (run_writes ((b, d) :: ws) r) with (run_writes ws (write_stream write_input b d r)).
  rewrite Hw. set (r1 := set_store _ _ r).
  destruct (IH r1 {| sink_path := sink_path k; sink_append := true |} (kept ++ d)) as [Hsame Hc];
    [done|apply lookup_insert_eq|done|done|done|cbn; rewrite len_app; lia| |].
  { cbn [sink_append]. change (rt_fs r1) with fs'. rewrite Ht', !len_app. fold data. lia. }
  split; [exact Hsame|]. change (sink_path k) with (sink_path {| sink_path := sink_path k; sink_append := true |}).
  rewrite Hc. fold data. rewrite Hd. cbn [sink_append]. destruct ws; by rewrite <- ?app_assoc, ?app_nil_r.
Qed.


(** ** The output limit *)

Definition visible (r : runtime) : Z := len (stdout (rt_vm r)) + len (stderr (rt_vm r)).

Definition output_stopped (v : Vm) : bool :=
  match stop_reason (budget v) with
  | Some (Exhausted reason) => bool_decide (category reason = VisibleOutputBytes)
  | _ => false
  end.

(** All visible bytes but the last [n] are accounted for, and the flag says
    whether those exceed the limit. *)
Record accounted (lim n : Z) (r : runtime) : Prop := {
  acc_limit : output_byte_limit (limits (rt_vm r)) = lim;
  acc_bytes : visible_output_bytes (budget (rt_vm r)) = Z.min U64_MAX (visible r - n);
  acc_flag : resource_exhausted r = (lim <? visible r - n);
  acc_stop : output_stopped (rt_vm r) = true -> resource_exhausted r = true;
}.

Lemma append_accounted lim n d b r :
  accounted lim n r -> accounted lim (n + len d) (append_visible_output_direct d b r).
Proof.
  intros [Hl Hb Hf Hs].
  assert (visible (append_visible_output_direct d b r) - (n + len d) = visible r - n) as Hv.
  { unfold visible, append_visible_output_direct. destruct b; cbn; rewrite ?len_app, ?len_nil; lia. }
  assert (output_stopped (rt_vm (append_visible_output_direct d b r)) = output_stopped (rt_vm r)) as Hst by by destruct b.
  constructor; rewrite ?Hv, ?Hst; destruct b; done.
Qed.

Lemma check_stopped v :
  Vm.check_output_limit v = if output_stopped v then Vm.check_output_limit v else (v, inl tt).
Proof.
  unfold Vm.check_output_limit, output_stopped. destruct (stop_reason (budget v)) as [[reason|]|]; [|done..].
  by case_bool_decide; case_decide.
Qed.

Lemma check_stopped_keeps v :
  output_stopped v = true ->
  exists v' s, Vm.check_output_limit v = (v', inr s) /\ limits v' = limits v /\ budget v' = budget v /\
    stdout v' = stdout v /\ stderr v' = stderr v.
Proof.
  unfold Vm.check_output_limit, output_stopped. destruct (stop_reason (budget v)) as [[reason|]|]; [|done..].
  intros Hc%bool_decide_eq_true. rewrite decide_True by done. unfold Vm.budget_stop. eauto 10.
Qed.

(** The effect of tracking on the counters. *)
Lemma track_stopped m v :
  let lim := output_byte_limit (limits v) in
  let total := sat_add U64_MAX (visible_output_bytes (budget v)) m in
  let v' := fst (Vm.track_output m v) in
  limits v' = limits v /\ stdout v' = stdout v /\ stderr v' = stderr v /\
  visible_output_bytes (budget v') = total /\
  output_stopped v' = (if (0 <? lim) && (lim <? total) then true else output_stopped v).
Proof.
  unfold Vm.track_output, Budget.track_visible_output. cbn.
  case_split; cbn; repeat split; unfold output_stopped; cbn; done.
Qed.

Lemma account_accounted lim n m r :
  0 < lim < U64_MAX -> 0 <= m -> accounted lim (n + m) r -> accounted lim n (account_output m r).
Proof.
  intros Hlim Hm [Hl Hb Hf Hs].
  destruct (track_stopped m (rt_vm r)) as (H1 & H2 & H3 & H4 & H5).
  set (v' := fst (Vm.track_output m (rt_vm r))) in *. rewrite Hl, Hb in *.
  assert (Hsat : sat_add U64_MAX (Z.min U64_MAX (visible r - (n + m))) m = Z.min U64_MAX (visible r - n))
    by (unfold sat_add; lia).
  rewrite Hsat in H4, H5. rewrite (proj2 (Z.ltb_lt 0 lim)) in H5 by lia. cbn [andb] in H5.
  assert (Hltb : (lim <? Z.min U64_MAX (visible r - n)) = (lim <? visible r - n)).
  { destruct (Z.ltb_spec lim (Z.min U64_MAX (visible r - n))), (Z.ltb_spec lim (visible r - n)); done || lia. }
  rewrite Hltb in H5.
  assert (Hvis : forall v'' b q, stdout v'' = stdout v' -> stderr v'' = stderr v' ->
    visible (set_exhausted b q (map_vm (fun _ => v'') r)) = visible r).
  { intros v'' b q E1 E2. unfold visible. cbn. by rewrite E1, E2, H2, H3. }
  change (account_output m r) with (flag_output_limit_if_needed (set_exhausted (resource_exhausted r) (exec_stop_reason r) (map_vm (fun _ => v') r))).
  unfold flag_output_limit_if_needed. cbn [resource_exhausted set_exhausted rt_vm map_vm].
  destruct (resource_exhausted r) eqn:Hex.
  - symmetry in Hf. apply Z.ltb_lt in Hf.
    constructor; rewrite ?Hvis by done; cbn; [by rewrite H1|done|symmetry; apply Z.ltb_lt; lia|done].
  - destruct (output_stopped v') eqn:Hst.
    + destruct (check_stopped_keeps v' Hst) as (v'' & q & -> & E1 & E2 & E3 & E4).
      change (map_vm (fun _ => v'') _) with (set_exhausted false (exec_stop_reason r) (map_vm (fun _ => v'') r)).
      assert (Hover : (lim <? visible r - n) = true).
      { destruct (lim <? visible r - n); [done|]. symmetry in H5. by apply Hs in H5. }
      constructor; cbn; [by rewrite E1, H1| | |done].
      * rewrite E2, H4. f_equal. f_equal. symmetry. by apply (Hvis v'' true (exec_stop_reason r)).
      * rewrite <- Hover. f_equal. f_equal. symmetry. by apply (Hvis v'' true (exec_stop_reason r)).
    + rewrite check_stopped, Hst.
      assert (Hunder : (lim <? visible r - n) = false) by (destruct (lim <? visible r - n); [done|done]).
      pose proof (Hvis v' false (exec_stop_reason r) eq_refl eq_refl) as Hv.
      constructor; cbn; [by rewrite H1| | |by rewrite Hst].
      * rewrite H4. f_equal. f_equal. symmetry. exact Hv.
      * rewrite <- Hunder. f_equal. f_equal. symmetry. exact Hv.
Qed.

(** Steps that touch neither the session's output nor the flag. *)
Lemma accounted_same lim n r r' :
  limits (rt_vm r') = limits (rt_vm r) -> budget (rt_vm r') = budget (rt_vm r) ->
  stdout (rt_vm r') = stdout (rt_vm r) -> stderr (rt_vm r') = stderr (rt_vm r) ->
  resource_exhausted r' = resource_exhausted r -> accounted lim n r -> accounted lim n r'.
Proof.
  intros H1 H2 H3 H4 H5 [Hl Hb Hf Hs].
  constructor; unfold visible, output_stopped in *; by rewrite ?H1, ?H2, ?H3, ?H4, ?H5.
Qed.

Lemma emit_accounted lim n d r :
  0 < lim < U64_MAX -> accounted lim n r -> accounted lim n (emit_visible_stderr_direct d r).
Proof.
  intros. apply account_accounted; [done|apply len_nonneg|]. by apply append_accounted.
Qed.

Lemma sink_write_accounted lim n k d r : accounted lim n r -> accounted lim n (fst (sink_write k d r)).
Proof.
  apply accounted_same; unfold sink_write; (destruct (sinks r !! k) as [s|]; [|done]);
    by destruct (write_chunk s d (rt_fs r)) as [fs [?|?|?]].
Qed.

Definition shown (vis : bool) (d : str) : Z := if vis then len d else 0.

Lemma destination_accounted lim n t d r :
  0 < lim < U64_MAX -> accounted lim n r ->
  let res := write_output_destination write_input t d r in accounted lim (n + shown (snd res) d) (fst res).
Proof.
  intros Hlim Ha. destruct t as [| |path app k|path|p|]; cbn [write_output_destination].
  - by apply append_accounted.
  - by apply append_accounted.
  - pose proof (sink_write_accounted lim n k d r Ha) as Hw.
    destruct (sink_write k d r) as [r1 [e|]]; cbn [fst snd shown] in *; rewrite Z.add_0_r; [|done].
    eapply accounted_same; [..|by apply emit_accounted]; done.
  - destruct (on_process_subst _ _ _); cbn [fst snd shown]; rewrite Z.add_0_r; [|by apply emit_accounted].
    by apply (accounted_same lim n r).
  - cbn [fst snd shown]. rewrite Z.add_0_r. unfold pipe_write. destruct (pipes r !! p); [by apply (accounted_same lim n r)|done].
  - cbn [fst snd shown]. by rewrite Z.add_0_r.
Qed.

Lemma deliver_accounted lim n b d r :
  accounted lim n r -> let res := deliver_inherited d b r in accounted lim (n + shown (snd res) d) (fst res).
Proof.
  intros Ha. unfold deliver_inherited. destruct (update_last _ _); cbn [fst snd shown].
  - rewrite Z.add_0_r. by apply (accounted_same lim n r).
  - by apply append_accounted.
Qed.

Lemma route_accounted lim n b d r :
  0 < lim < U64_MAX -> accounted lim n r ->
  let res := route_output write_input d b r in accounted lim (n + shown (snd res) d) (fst res).
Proof.
  intros Hlim Ha. unfold route_output, route_output_with.
  destruct (Io.output_target b <$> current_exec_io r) as [[| |? ? ?|?|?|]|];
    (by apply destination_accounted) || by apply deliver_accounted.
Qed.

(** A call of one of the three writers. *)
Inductive out_op := WriteStdout (d : list Ascii.ascii) | WriteStderr (d : list Ascii.ascii) | WriteStreams (out err : list Ascii.ascii).

Definition out_apply (r : runtime) (op : out_op) : runtime :=
  match op with
  | WriteStdout d => write_stdout write_input d r
  | WriteStderr d => write_stderr write_input d r
  | WriteStreams out err => write_streams write_input out err r
  end.

Lemma out_op_accounted lim r op : 0 < lim < U64_MAX -> accounted lim 0 r -> accounted lim 0 (out_apply r op).
Proof.
  intros Hlim Ha. destruct op as [d|d|out err]; cbn [out_apply].
  - unfold write_stdout, write_stream. pose proof (route_accounted lim 0 true d r Hlim Ha) as Hr.
    destruct (route_output write_input d true r) as [r1 []]; [|done].
    apply account_accounted; [done|apply len_nonneg|done].
  - unfold write_stderr, write_stream. pose proof (route_accounted lim 0 false d r Hlim Ha) as Hr.
    destruct (route_output write_input d false r) as [r1 []]; [|done].
    apply account_accounted; [done|apply len_nonneg|done].
  - unfold write_streams. pose proof (route_accounted lim 0 true out r Hlim Ha) as Hr.
    destruct (route_output write_input out true r) as [r1 v1]. cbn [fst snd] in Hr.
    pose proof (route_accounted lim _ false err r1 Hlim Hr) as Hr2.
    destruct (route_output write_input err false r1) as [r2 v2]. cbn [fst snd] in Hr2.
    rewrite <- Z.add_assoc in Hr2. unfold shown in Hr2.
    pose proof (len_nonneg out). pose proof (len_nonneg err).
    destruct (Z.ltb_spec 0 ((if v1 then len out else 0) + (if v2 then len err else 0))).
    + apply account_accounted; [done|lia|done].
    + replace ((if v1 then len out else 0) + (if v2 then len err else 0)) with 0 in Hr2 by (destruct v1, v2; lia).
      done.
Qed.

(** C30: The runtime's writers notice the output limit exactly: after any sequence of
    writes in a fresh session, whatever is redirected or captured on the way and
    error messages of failed writes included, the session is flagged as
    exhausted if and only if its visible output exceeds the limit. *)
Theorem output_flag_exact (st : ShellState) (lims : ExecutionLimits) (ops : list out_op) (r : runtime) :
  rt_vm r = Vm.with_limits st lims -> resource_exhausted r = false ->
  0 < output_byte_limit lims < U64_MAX ->
  let r' := foldl out_apply r ops in
  resource_exhausted r' = true <-> output_byte_limit lims < visible r'.
Proof.
  intros Hvm Hex Hlim r'. cut (accounted (output_byte_limit lims) 0 r').
  { intros [_ _ Hf _]. rewrite Hf, Z.sub_0_r. apply Z.ltb_lt. }
  assert (Ha : accounted (output_byte_limit lims) 0 r).
  { constructor; unfold visible, output_stopped; rewrite ?Hvm, ?Hex; cbn; try done.
    symmetry. apply Z.ltb_ge. unfold len. cbn. lia. }
  subst r'. clear Hvm Hex. revert r Ha. induction ops as [|op ops IH]; intros r Ha; cbn; [done|].
  apply IH. by apply out_op_accounted.
Qed.
End router_props.

(** ** Concrete sessions *)

#[local] Existing Instance wasm32.

Abbreviation session := (@Runtime (list Ascii.ascii) unit).
Definition no_runner (r : unit) (d : list Ascii.ascii) : unit := r.

Definition small_limits : ExecutionLimits :=
  {| step_limit := 0; output_byte_limit := 4; pipe_byte_limit := 0; recursion_limit := 0 |}.

Definition session_new (st : ShellState) : session :=
  {| rt_vm := Vm.with_limits st small_limits; rt_fs := MemFs.new; sinks := ∅; pipes := ∅;
     current_exec_io := None; output_captures := []; resource_exhausted := false;
     exec_stop_reason := None; proc_subst_out_scopes := [] |}.

(** The two routers keep separate counts: the one builtins write through does
    not feed the budget the other one checks, so a session may show more bytes
    than its limit without being flagged. *)
Theorem mixed_writers_miss_limit (st : ShellState) :
  let r := write_stdout no_runner #"de" (direct_write_stream no_runner true #"abc" (session_new st)) in
  visible r = 5 /\ output_byte_limit (limits (rt_vm r)) = 4 /\ resource_exhausted r = false.
Proof. by vm_compute. Qed.

Lemma output_flag_exact_witness :
  let r' := foldl (out_apply no_runner) (session_new (new_state 7)) [WriteStdout #"abc"; WriteStreams #"d" #"e"] in
  resource_exhausted r' = true /\ 4 < visible r'.
Proof.
  intros r'. assert (Hv : 4 < visible r') by by vm_compute.
  split; [|exact Hv].
  exact (proj2 (output_flag_exact no_runner (new_state 7) small_limits [WriteStdout #"abc"; WriteStreams #"d" #"e"]
    (session_new (new_state 7)) eq_refl eq_refl (conj eq_refl eq_refl)) Hv).
Defined.

(** [( echo out; echo err >&2 ) >f 2>&1] in an empty filesystem. *)
Definition both_to_sink : ExecIo :=
  {| fds := {| fd_stdin := Inherit; fd_stdout := OutFile #"/f" false 0%nat; fd_stderr := OutFile #"/f" false 0%nat |} |}.

Definition redirected : session :=
  match open_write_sink #"/f" false (MemFs.new : MemoryFsInner (list Ascii.ascii)) with
  | (fs, Ok k) => set_store fs {[ 0%nat := k ]} (session_new (new_state 7))
  | _ => session_new (new_state 7)
  end.

Lemma redirected_inv : fs_inv (rt_fs redirected).
Proof.
  change (fs_inv (fst (open_write_sink #"/f" false (MemFs.new : MemoryFsInner (list Ascii.ascii))))).
  apply open_write_sink_inv, new_inv.
Qed.

