(* ===== verification/Signals.v ===== *)
(** * Signal table (crates/wasmsh-runtime/src/signals.rs)

    The signals a host can deliver and the lookup by number or name.  Theorems:
    the lookup is exactly membership in the table under the parsed key, every
    signal is found under its number, its name in any case and its upper-case
    [SIG] name, and the bookkeeping variables of different signals are
    different. *)

From S2P Require Import Prelude Strings.

Inductive SignalDefaultAction := Terminate | Ignore | StopLike | ContinueLike.

Record RuntimeSignalSpec := {
  sig_name : list Ascii.ascii;
  number : Z;
  handler_var : list Ascii.ascii;
  ignore_var : list Ascii.ascii;
  default_action : SignalDefaultAction;
  trappable : bool;
}.

#[export] Instance SignalDefaultAction_eq_dec : EqDecision SignalDefaultAction.
Proof. solve_decision. Defined.
#[export] Instance RuntimeSignalSpec_eq_dec : EqDecision RuntimeSignalSpec.
Proof. solve_decision. Defined.

Definition RUNTIME_SIGNAL_SPECS : list RuntimeSignalSpec :=
  [
    {| sig_name := #"HUP"; number := 1; handler_var := #"_TRAP_SIG_HUP";
       ignore_var := #"_TRAP_IGNORE_SIG_HUP"; default_action := Terminate; trappable := true |};
    {| sig_name := #"INT"; number := 2; handler_var := #"_TRAP_SIG_INT";
       ignore_var := #"_TRAP_IGNORE_SIG_INT"; default_action := Terminate; trappable := true |};
    {| sig_name := #"QUIT"; number := 3; handler_var := #"_TRAP_SIG_QUIT";
       ignore_var := #"_TRAP_IGNORE_SIG_QUIT"; default_action := Terminate; trappable := true |};
    {| sig_name := #"ILL"; number := 4; handler_var := #"_TRAP_SIG_ILL";
       ignore_var := #"_TRAP_IGNORE_SIG_ILL"; default_action := Terminate; trappable := true |};
    {| sig_name := #"ABRT"; number := 6; handler_var := #"_TRAP_SIG_ABRT";
       ignore_var := #"_TRAP_IGNORE_SIG_ABRT"; default_action := Terminate; trappable := true |};
    {| sig_name := #"FPE"; number := 8; handler_var := #"_TRAP_SIG_FPE";
       ignore_var := #"_TRAP_IGNORE_SIG_FPE"; default_action := Terminate; trappable := true |};
    {| sig_name := #"KILL"; number := 9; handler_var := #"_TRAP_SIG_KILL";
       ignore_var := #"_TRAP_IGNORE_SIG_KILL"; default_action := Terminate; trappable := false |};
    {| sig_name := #"USR1"; number := 10; handler_var := #"_TRAP_SIG_USR1";
       ignore_var := #"_TRAP_IGNORE_SIG_USR1"; default_action := Terminate; trappable := true |};
    {| sig_name := #"SEGV"; number := 11; handler_var := #"_TRAP_SIG_SEGV";
       ignore_var := #"_TRAP_IGNORE_SIG_SEGV"; default_action := Terminate; trappable := true |};
    {| sig_name := #"USR2"; number := 12; handler_var := #"_TRAP_SIG_USR2";
       ignore_var := #"_TRAP_IGNORE_SIG_USR2"; default_action := Terminate; trappable := true |};
    {| sig_name := #"PIPE"; number := 13; handler_var := #"_TRAP_SIG_PIPE";
       ignore_var := #"_TRAP_IGNORE_SIG_PIPE"; default_action := Terminate; trappable := true |};
    {| sig_name := #"ALRM"; number := 14; handler_var := #"_TRAP_SIG_ALRM";
       ignore_var := #"_TRAP_IGNORE_SIG_ALRM"; default_action := Terminate; trappable := true |};
    {| sig_name := #"TERM"; number := 15; handler_var := #"_TRAP_SIG_TERM";
       ignore_var := #"_TRAP_IGNORE_SIG_TERM"; default_action := Terminate; trappable := true |};
    {| sig_name := #"CHLD"; number := 17; handler_var := #"_TRAP_SIG_CHLD";
       ignore_var := #"_TRAP_IGNORE_SIG_CHLD"; default_action := Ignore; trappable := true |};
    {| sig_name := #"CONT"; number := 18; handler_var := #"_TRAP_SIG_CONT";
       ignore_var := #"_TRAP_IGNORE_SIG_CONT"; default_action := ContinueLike; trappable := true |};
    {| sig_name := #"STOP"; number := 19; handler_var := #"_TRAP_SIG_STOP";
       ignore_var := #"_TRAP_IGNORE_SIG_STOP"; default_action := StopLike; trappable := false |};
    {| sig_name := #"TSTP"; number := 20; handler_var := #"_TRAP_SIG_TSTP";
       ignore_var := #"_TRAP_IGNORE_SIG_TSTP"; default_action := StopLike; trappable := true |};
    {| sig_name := #"TTIN"; number := 21; handler_var := #"_TRAP_SIG_TTIN";
       ignore_var := #"_TRAP_IGNORE_SIG_TTIN"; default_action := StopLike; trappable := true |};
    {| sig_name := #"TTOU"; number := 22; handler_var := #"_TRAP_SIG_TTOU";
       ignore_var := #"_TRAP_IGNORE_SIG_TTOU"; default_action := StopLike; trappable := true |};
    {| sig_name := #"WINCH"; number := 28; handler_var := #"_TRAP_SIG_WINCH";
       ignore_var := #"_TRAP_IGNORE_SIG_WINCH"; default_action := Ignore; trappable := true |}
  ].

Definition find_runtime_signal_spec (name : str) : option RuntimeSignalSpec :=
  match parse_i32 name with
  | Some n => find_map (fun spec => if number spec =? n then Some spec else None) RUNTIME_SIGNAL_SPECS
  | None =>
      let normalized := to_ascii_uppercase (default name (strip_prefix #"SIG" name)) in
      find_map (fun spec => if decide (sig_name spec = normalized) then Some spec else None) RUNTIME_SIGNAL_SPECS
  end.

(** The key a spelling is looked up under. *)
Definition names_signal (name : str) (spec : RuntimeSignalSpec) : Prop :=
  match parse_i32 name with
  | Some n => number spec = n
  | None => sig_name spec = to_ascii_uppercase (default name (strip_prefix #"SIG" name))
  end.

(** A search by a key that no two elements share finds the element with it. *)
Lemma find_map_key {A K} `{EqDecision K} (key : A -> K) (f : A -> option A) (l : list A) (k : K) (x : A) :
  (forall y, f y = if decide (key y = k) then Some y else None) -> NoDup (map key l) ->
  find_map f l = Some x <-> x ∈ l /\ key x = k.
Proof.
  intros Hf. induction l as [|y l IH]; cbn; intros Hnd.
  - split; [done|]. intros [Hx _]. by apply not_elem_of_nil in Hx.
  - apply NoDup_cons in Hnd as [Hy Hnd]. rewrite Hf. case_decide as Hk.
    + split; [intros [= <-]; split; [left|done]|]. intros [Hx Hkx]. apply elem_of_cons in Hx as [->|Hx]; [done|].
      contradict Hy. rewrite Hk, <- Hkx. by apply list_elem_of_fmap_2.
    + rewrite IH by done. split; intros [Hx Hkx]; (split; [|done]); [by right|].
      apply elem_of_cons in Hx as [->|]; done.
Qed.

Lemma signal_numbers_distinct : NoDup (map number RUNTIME_SIGNAL_SPECS).
Proof. by apply (bool_decide_unpack _); vm_compute. Qed.

Lemma signal_names_distinct : NoDup (map sig_name RUNTIME_SIGNAL_SPECS).
Proof. by apply (bool_decide_unpack _); vm_compute. Qed.

(** The lookup is sound and complete: it returns a signal exactly when that
    signal is in the table and the spelling, read as a number if it parses as
    one and otherwise as a name, denotes it; the answer is unique. *)
Theorem find_signal_spec (name : list Ascii.ascii) (spec : RuntimeSignalSpec) :
  find_runtime_signal_spec name = Some spec <-> spec ∈ RUNTIME_SIGNAL_SPECS /\ names_signal name spec.
Proof.
  unfold find_runtime_signal_spec, names_signal. destruct (parse_i32 name) as [n|].
  - apply find_map_key; [|apply signal_numbers_distinct]. intros y. destruct (Z.eqb_spec (number y) n); by case_decide.
  - apply find_map_key; [done|apply signal_names_distinct].
Qed.

(** The spellings a host or a script may use for one signal. *)
Definition spellings (spec : RuntimeSignalSpec) : list (list Ascii.ascii) :=
  [ Z_to_string (number spec); sig_name spec; to_ascii_lowercase (sig_name spec);
    #"SIG" ++ sig_name spec; #"SIG" ++ to_ascii_lowercase (sig_name spec) ].

(** Every signal is found under each of its spellings, only KILL and STOP cannot
    be trapped, and the variables that hold a signal's handler and its ignore
    flag are its own. *)
Theorem signal_table_wf :
  Forall (fun spec =>
    Forall (fun name => find_runtime_signal_spec name = Some spec) (spellings spec) /\
    handler_var spec = #"_TRAP_SIG_" ++ sig_name spec /\ ignore_var spec = #"_TRAP_IGNORE_SIG_" ++ sig_name spec /\
    (trappable spec = false <-> sig_name spec = #"KILL" \/ sig_name spec = #"STOP")) RUNTIME_SIGNAL_SPECS /\
  NoDup (map handler_var RUNTIME_SIGNAL_SPECS ++ map ignore_var RUNTIME_SIGNAL_SPECS).
Proof. split; apply (bool_decide_unpack _); by vm_compute. Qed.

(** A lower-case [sig] prefix is not recognised although lower-case names are. *)
Theorem lowercase_sig_prefix :
  find_runtime_signal_spec #"sigint" = None /\ sig_name <$> find_runtime_signal_spec #"int" = Some #"INT".
Proof. by vm_compute. Qed.
