(* ===== verification/DblBracket.v ===== *)
(** * Conditional expressions (crates/wasmsh-runtime/src/dbl_bracket.rs)

    The evaluator of [[[ expr ]]]: a recursive descent over the expanded tokens
    with a cursor, over the filesystem (file tests), the shell state (the
    working directory, [SHOPT_nocasematch], [BASH_REMATCH]) and the matchers.
    Rust's [str::to_lowercase], a full Unicode case mapping, is the parameter
    [to_lowercase].  The mutual recursion takes fuel; [dbl_bracket_fuel] is
    linear in the number of tokens. *)

From S2P Require Import Prelude Strings Fs MemFs IndexMap State Glob Regex.

(** Results of the evaluator: the state, the cursor and a value; the panic is
    the one of the capture slicing in the regular-expression matcher. *)
Inductive outcome (A : Type) := Ret (a : A) | Panicked | NoFuel.
Arguments Ret {A} a.
Arguments Panicked {A}.
Arguments NoFuel {A}.

#[export] Instance outcome_ret : MRet outcome := fun A a => Ret a.
#[export] Instance outcome_bind : MBind outcome := fun A B f m =>
  match m with Ret a => f a | Panicked => Panicked | NoFuel => NoFuel end.

Definition resolve_test_path (cwd path : str) : str :=
  if starts_with #"/" path then normalize_path path else normalize_path (cwd ++ #"/" ++ path).

Definition is_binary_op (s : str) : bool :=
  bool_decide (s ∈ [ #"=="; #"!="; #"=~"; #"="; #"<"; #">"; #"-eq"; #"-ne"; #"-lt"; #"-le"; #"-gt"; #"-ge";
                     #"-ef"; #"-nt"; #"-ot" ]).

Definition dbl_bracket_parse_unary_flag (op : str) : option byte :=
  if negb (starts_with #"-" op) || negb (length op =? 2)%nat then None else op !! 1%nat.

Definition is_string_flag (flag : byte) : bool := bool_decide (flag ∈ #"zn").
Definition is_file_flag (flag : byte) : bool := bool_decide (flag ∈ #"fdesrwxLhpStNOG").

Definition eval_int_cmp (lhs op rhs : str) : bool :=
  let a := default 0 (parse_i64 (trim lhs)) in
  let b := default 0 (parse_i64 (trim rhs)) in
  if decide (op = #"-eq") then a =? b
  else if decide (op = #"-ne") then negb (a =? b)
  else if decide (op = #"-lt") then a <? b
  else if decide (op = #"-le") then a <=? b
  else if decide (op = #"-gt") then b <? a
  else if decide (op = #"-ge") then b <=? a
  else false.

Section dbl_bracket.
Context `{Target} {R : Type} (to_lowercase : list Ascii.ascii -> list Ascii.ascii).
Context (tokens : list (list Ascii.ascii)) (fs : MemoryFsInner R).

Definition eval_file_test (flag : byte) (path cwd : str) : bool :=
  if decide (flag = "t"%char) then bool_decide (path = #"0")
  else match stat fs (resolve_test_path cwd path) with
       | Ok meta =>
           if decide (flag = "f"%char) then negb (is_dir meta)
           else if decide (flag = "d"%char) then is_dir meta
           else if decide (flag ∈ #"sN") then 0 <? size meta
           else bool_decide (flag ∈ #"erwxOG")
       | _ => false
       end.

(** The option is no special variable, so the clock is not consulted. *)
Definition glob_cmp (lhs rhs : str) (st : ShellState) : bool :=
  if decide (snd (get_var 0 st #"SHOPT_nocasematch") = Some #"1")
  then glob_match_inner (to_lowercase rhs) (to_lowercase lhs)
  else glob_match_inner rhs lhs.

Definition BASH_REMATCH : str := #"BASH_REMATCH".

(** The loop over the captures with their indices. *)
Fixpoint store_captures (i : Z) (caps : list str) (st : ShellState) : ShellState :=
  match caps with
  | [] => st
  | cap :: caps => store_captures (i + 1) caps (set_array_element st BASH_REMATCH (Z_to_string i) cap)
  end.

Definition eval_regex_match (lhs rhs : str) (st : ShellState) : outcome (ShellState * bool) :=
  match regex_match_with_captures lhs rhs with
  | Ok None => Ret (init_indexed_array st BASH_REMATCH, false)
  | Ok (Some caps) => Ret (store_captures 0 caps (init_indexed_array st BASH_REMATCH), true)
  | _ => Panicked
  end.

Definition eval_binary_op (lhs op rhs : str) (st : ShellState) : outcome (ShellState * bool) :=
  let exists_ p := eval_file_test "e"%char p (cwd st) in
  if decide (op = #"==" \/ op = #"=") then Ret (st, glob_cmp lhs rhs st)
  else if decide (op = #"!=") then Ret (st, negb (glob_cmp lhs rhs st))
  else if decide (op = #"=~") then eval_regex_match lhs rhs st
  else if decide (op = #"<") then Ret (st, str_ltb lhs rhs)
  else if decide (op = #">") then Ret (st, str_ltb rhs lhs)
  else if decide (op = #"-ef") then
    Ret (st, bool_decide (resolve_test_path (cwd st) lhs = resolve_test_path (cwd st) rhs))
  else if decide (op = #"-nt") then Ret (st, exists_ lhs && negb (exists_ rhs))
  else if decide (op = #"-ot") then Ret (st, negb (exists_ lhs) && exists_ rhs)
  else Ret (st, eval_int_cmp lhs op rhs).

(** The tokens up to the next connective, and the cursor there. *)
Fixpoint regex_rhs_from (rest : list str) : str * nat :=
  match rest with
  | [] => ([], O)
  | t :: rest => if decide (t = #"&&" \/ t = #"||") then ([], O)
                 else let '(s, n) := regex_rhs_from rest in (t ++ s, S n)
  end.

Definition dbl_bracket_collect_regex_rhs (pos : nat) : str * nat :=
  let '(s, n) := regex_rhs_from (drop pos tokens) in (s, (pos + n)%nat).

Definition dbl_bracket_collect_rhs (pos : nat) (op : str) : str * nat :=
  match tokens !! pos with
  | None => ([], pos)
  | Some t => if decide (op = #"=~") then dbl_bracket_collect_regex_rhs pos else (t, S pos)
  end.

Definition dbl_bracket_try_binary (st : ShellState) (pos : nat) : option (outcome (ShellState * nat * bool)) :=
  match tokens !! pos, tokens !! S pos with
  | Some lhs, Some op =>
      if is_binary_op op then
        let '(rhs, pos') := dbl_bracket_collect_rhs (S (S pos)) op in
        Some ('(st, r) ← eval_binary_op lhs op rhs st; Ret (st, pos', r))
      else None
  | _, _ => None
  end.

Definition dbl_bracket_eval_string_test (arg : str) (flag : byte) : bool :=
  if decide (flag = "z"%char) then bool_decide (arg = []) else negb (bool_decide (arg = [])).

(** [None]: not a unary test; otherwise the cursor afterwards and the result. *)
Definition dbl_bracket_try_unary (pos : nat) (cwd : str) : option (nat * bool) :=
  match tokens !! pos, tokens !! S pos with
  | Some op, Some arg =>
      flag ← dbl_bracket_parse_unary_flag op;
      if is_string_flag flag then Some (S (S pos), dbl_bracket_eval_string_test arg flag)
      else if is_file_flag flag then
        match tokens !! S (S pos) with
        | Some t => if is_binary_op t then None else Some (S (S pos), eval_file_test flag arg cwd)
        | None => Some (S (S pos), eval_file_test flag arg cwd)
        end
      else None
  | _, _ => None
  end.

Definition dbl_bracket_take_truthy_token (pos : nat) : nat * bool :=
  match tokens !! pos with
  | None => (pos, false)
  | Some t => (S pos, negb (bool_decide (t = [])))
  end.

(** The part of [dbl_bracket_eval_primary] after the group. *)
Definition eval_simple (st : ShellState) (pos : nat) : outcome (ShellState * nat * bool) :=
  let truthy := let '(p, r) := dbl_bracket_take_truthy_token pos in Ret (st, p, r) in
  match dbl_bracket_try_unary pos (cwd st) with
  | Some (p, r) => Ret (st, p, r)
  | None =>
      if (S pos =? length tokens)%nat then truthy
      else match dbl_bracket_try_binary st pos with
           | Some res => res
           | None => truthy
           end
  end.

Definition at_token (pos : nat) (t : str) : bool := bool_decide (tokens !! pos = Some t).

(** [or_loop] and [and_loop] are the [while] loops of the two connectives; the
    right operand is evaluated whatever the left one was. *)
Fixpoint dbl_bracket_eval_or (fuel : nat) (st : ShellState) (pos : nat) : outcome (ShellState * nat * bool) :=
  match fuel with
  | O => NoFuel
  | S f => '(st, pos, result) ← dbl_bracket_eval_and f st pos; or_loop f st pos result
  end
with or_loop (fuel : nat) (st : ShellState) (pos : nat) (result : bool) : outcome (ShellState * nat * bool) :=
  match fuel with
  | O => NoFuel
  | S f =>
      if at_token pos #"||"
      then '(st, pos, rhs) ← dbl_bracket_eval_and f st (S pos); or_loop f st pos (result || rhs)
      else Ret (st, pos, result)
  end
with dbl_bracket_eval_and (fuel : nat) (st : ShellState) (pos : nat) : outcome (ShellState * nat * bool) :=
  match fuel with
  | O => NoFuel
  | S f => '(st, pos, result) ← dbl_bracket_eval_not f st pos; and_loop f st pos result
  end
with and_loop (fuel : nat) (st : ShellState) (pos : nat) (result : bool) : outcome (ShellState * nat * bool) :=
  match fuel with
  | O => NoFuel
  | S f =>
      if at_token pos #"&&"
      then '(st, pos, rhs) ← dbl_bracket_eval_not f st (S pos); and_loop f st pos (result && rhs)
      else Ret (st, pos, result)
  end
with dbl_bracket_eval_not (fuel : nat) (st : ShellState) (pos : nat) : outcome (ShellState * nat * bool) :=
  match fuel with
  | O => NoFuel
  | S f =>
      if at_token pos #"!" then '(st, pos, r) ← dbl_bracket_eval_not f st (S pos); Ret (st, pos, negb r)
      else dbl_bracket_eval_primary f st pos
  end
with dbl_bracket_eval_primary (fuel : nat) (st : ShellState) (pos : nat) : outcome (ShellState * nat * bool) :=
  match fuel with
  | O => NoFuel
  | S f =>
      if (length tokens <=? pos)%nat then Ret (st, pos, false)
      else if at_token pos #"(" then
        '(st, pos, result) ← dbl_bracket_eval_or f st (S pos);
        Ret (st, if at_token pos #")" then S pos else pos, result)
      else eval_simple st pos
  end.

(** A call at a position with [k] tokens left needs at most five calls per token
    below it. *)
Definition dbl_bracket_fuel (pos : nat) : nat := (5 * (length tokens - pos) + 4)%nat.

Definition eval_double_bracket (st : ShellState) : outcome (ShellState * nat * bool) :=
  dbl_bracket_eval_or (dbl_bracket_fuel 0) st 0.
End dbl_bracket.
