(* ===== verification/DblBracketProps.v ===== *)
(** * Conditional expressions: theorems

    The evaluator returns on every token list within its fuel and only moves
    forward; on ASCII operands it does not panic.  On the printed form of an
    expression, with parentheses where the precedence asks for them, it computes
    the expression's meaning and consumes exactly its tokens.  [=~] leaves in
    [BASH_REMATCH] the captures of the matcher and nothing else changes. *)

From S2P Require Import Prelude Strings Fs MemFs IndexMap State StateProps Glob Regex RegexProps DblBracket.

Section props.
Context `{Target} {R : Type} (to_lowercase : list Ascii.ascii -> list Ascii.ascii).
Context (fs : MemoryFsInner R).

Section tokens.
Context (tokens : list (list Ascii.ascii)).

Abbreviation eval_or := (dbl_bracket_eval_or to_lowercase tokens fs).
Abbreviation eval_and := (dbl_bracket_eval_and to_lowercase tokens fs).
Abbreviation eval_not := (dbl_bracket_eval_not to_lowercase tokens fs).
Abbreviation eval_primary := (dbl_bracket_eval_primary to_lowercase tokens fs).
Abbreviation or_loop := (or_loop to_lowercase tokens fs).
Abbreviation and_loop := (and_loop to_lowercase tokens fs).

(** ** Termination *)

(** The evaluator returned at or after [pos], or panicked on a non-ASCII
    token. *)
Definition progress (pos : nat) (o : outcome (ShellState * nat * bool)) : Prop :=
  match o with
  | Ret (_, pos', _) => (pos <= pos')%nat
  | Panicked => ~ Forall (fun t => is_ascii t = true) tokens
  | NoFuel => False
  end.

Lemma progress_le pos pos' o : (pos <= pos')%nat -> progress pos' o -> progress pos o.
Proof. destruct o as [[[? ?] ?]| |]; cbn; lia || done. Qed.

Lemma progress_bind pos o k :
  progress pos o -> (forall st pos' r, (pos <= pos')%nat -> progress pos' (k (st, pos', r))) -> progress pos (o ≫= k).
Proof.
  intros Ho Hk. destruct o as [[[st pos'] r]| |]; cbn in *; [|done..]. eapply progress_le; [exact Ho|by apply Hk].
Qed.

Lemma regex_match_progress lhs rhs st :
  is_ascii lhs = true -> exists x, eval_regex_match lhs rhs st = Ret x.
Proof.
  intros Ha. unfold eval_regex_match. pose proof (regex_ascii_shape lhs rhs Ha) as Hr.
  destruct (regex_strip_anchors rhs) as [[? ?] ?]. destruct Hr as (r & -> & _). destruct r; eauto.
Qed.

Lemma binary_op_returns lhs op rhs st :
  (exists x, eval_binary_op to_lowercase fs lhs op rhs st = Ret x) \/
  eval_binary_op to_lowercase fs lhs op rhs st = Panicked /\ is_ascii lhs = false.
Proof.
  unfold eval_binary_op. repeat case_decide; try by eauto.
  destruct (is_ascii lhs) eqn:Ha; [left; by apply regex_match_progress|].
  unfold eval_regex_match. destruct (regex_match_with_captures lhs rhs) as [[caps|]|[]|]; eauto.
Qed.

Lemma collect_rhs_progress pos op : (pos <= snd (dbl_bracket_collect_rhs tokens pos op))%nat.
Proof.
  unfold dbl_bracket_collect_rhs, dbl_bracket_collect_regex_rhs. destruct (tokens !! pos); [|done].
  case_decide; [|cbn; lia]. destruct (regex_rhs_from _); cbn; lia.
Qed.

Lemma simple_progress st pos : progress pos (eval_simple to_lowercase tokens fs st pos).
Proof.
  unfold eval_simple.
  assert (Htruthy : progress pos (let '(p, r) := dbl_bracket_take_truthy_token tokens pos in Ret (st, p, r))).
  { unfold dbl_bracket_take_truthy_token. destruct (tokens !! pos); cbn; lia. }
  destruct (dbl_bracket_try_unary tokens fs pos (cwd st)) as [[p r]|] eqn:Hu.
  { revert Hu. unfold dbl_bracket_try_unary. destruct (tokens !! pos); [|done]. destruct (tokens !! S pos); [|done].
    destruct (dbl_bracket_parse_unary_flag _); [|done]. cbn. repeat case_split; intros [= <- <-]; lia. }
  case_split; [done|]. unfold dbl_bracket_try_binary.
  destruct (tokens !! pos) as [lhs|] eqn:Hl; [|done]. destruct (tokens !! S pos) as [op|]; [|done].
  destruct (is_binary_op op); [|done]. pose proof (collect_rhs_progress (S (S pos)) op) as Hc.
  destruct (dbl_bracket_collect_rhs tokens (S (S pos)) op) as [rhs pos'].
  destruct (binary_op_returns lhs op rhs st) as [[[st' r] ->]|[-> Hna]]; cbn in *; [lia|].
  rewrite Forall_forall. intros Hall. rewrite (Hall lhs) in Hna; [done|]. by eapply list_elem_of_lookup_2.
Qed.

(** Fuel of five calls per remaining token and the given rank suffices. *)
Lemma eval_progress f : forall st pos,
  let left := (5 * (length tokens - pos))%nat in
  ((left + 4 <= f)%nat -> progress pos (eval_or f st pos)) /\
  (forall r, (left + 1 <= f)%nat -> progress pos (or_loop f st pos r)) /\
  ((left + 3 <= f)%nat -> progress pos (eval_and f st pos)) /\
  (forall r, (left + 1 <= f)%nat -> progress pos (and_loop f st pos r)) /\
  ((left + 2 <= f)%nat -> progress pos (eval_not f st pos)) /\
  ((left + 1 <= f)%nat -> progress pos (eval_primary f st pos)).
Proof.
  induction f as [|f IH]; intros st pos left; [repeat split; intros; lia|].
  assert (Hlt : forall t, at_token tokens pos t = true -> (pos < length tokens)%nat).
  { intros t Ht%bool_decide_eq_true. by eapply lookup_lt_Some. }
  repeat split; intros; cbn.
  - apply progress_bind; [apply IH; lia|]. intros st' pos' r ?. apply IH. lia.
  - case_split; [|by cbn]. apply Hlt in Heqb. apply (progress_le _ (S pos)); [lia|].
    apply progress_bind; [apply IH; lia|]. intros st' pos' r' ?. apply IH. lia.
  - apply progress_bind; [apply IH; lia|]. intros st' pos' r ?. apply IH. lia.
  - case_split; [|by cbn]. apply Hlt in Heqb. apply (progress_le _ (S pos)); [lia|].
    apply progress_bind; [apply IH; lia|]. intros st' pos' r' ?. apply IH. lia.
  - case_split; [|apply IH; lia]. apply Hlt in Heqb. apply (progress_le _ (S pos)); [lia|].
    apply progress_bind; [apply IH; lia|]. intros st' pos' r' ?. by cbn.
  - case_split; [by cbn|]. case_split; [|apply simple_progress].
    apply Hlt in Heqb0. apply (progress_le _ (S pos)); [lia|].
    apply progress_bind; [apply IH; lia|]. intros st' pos' r' ?. cbn. case_split; lia.
Qed.

(** C32: Evaluation returns for every token list: the fuel is never exhausted, and
    the only panic is the matcher's on a token with bytes outside ASCII. *)
Theorem dbl_bracket_total (st : ShellState) :
  (Forall (fun t => is_ascii t = true) tokens ->
     exists st' pos r, eval_double_bracket to_lowercase tokens fs st = Ret (st', pos, r)) /\
  eval_double_bracket to_lowercase tokens fs st <> NoFuel.
Proof.
  unfold eval_double_bracket, dbl_bracket_fuel.
  assert (Hp : progress 0 (eval_or (5 * (length tokens - 0) + 4) st 0)) by by apply eval_progress.
  destruct (eval_or _ st 0) as [[[st' pos] r]| |]; cbn in Hp; [|by split|done]. split; [eauto|done].
Qed.

(** ** Fuel does not matter *)

(** An outcome that is kept when there is more fuel. *)
Definition settled {A} (o o' : outcome A) : Prop := o <> NoFuel -> o' = o.

Lemma settled_bind {A B} (o o' : outcome A) (k k' : A -> outcome B) :
  settled o o' -> (forall a, settled (k a) (k' a)) -> settled (o ≫= k) (o' ≫= k').
Proof.
  intros Ho Hk Hn. destruct o as [a| |]; cbn in *; [|rewrite Ho by done; done|done].
  rewrite Ho by done. cbn. by apply Hk.
Qed.

Lemma settled_refl {A} (o : outcome A) : settled o o.
Proof. done. Qed.

Lemma eval_settled f : forall st pos,
  settled (eval_or f st pos) (eval_or (S f) st pos) /\
  (forall r, settled (or_loop f st pos r) (or_loop (S f) st pos r)) /\
  settled (eval_and f st pos) (eval_and (S f) st pos) /\
  (forall r, settled (and_loop f st pos r) (and_loop (S f) st pos r)) /\
  settled (eval_not f st pos) (eval_not (S f) st pos) /\
  settled (eval_primary f st pos) (eval_primary (S f) st pos).
Proof.
  induction f as [|f IH]; intros st pos; [repeat split; intros; intros Hn; by destruct Hn|].
  repeat split; intros.
  - apply settled_bind; [apply IH|]. intros [[st' pos'] r]. apply IH.
  - change (settled (if at_token tokens pos #"||"
        then '(st, pos, rhs) ← eval_and f st (S pos); or_loop f st pos (r || rhs) else Ret (st, pos, r))
      (if at_token tokens pos #"||"
        then '(st, pos, rhs) ← eval_and (S f) st (S pos); or_loop (S f) st pos (r || rhs) else Ret (st, pos, r))).
    case_split; [|apply settled_refl]. apply settled_bind; [apply IH|]. intros [[st' pos'] r']. apply IH.
  - apply settled_bind; [apply IH|]. intros [[st' pos'] r]. apply IH.
  - change (settled (if at_token tokens pos #"&&"
        then '(st, pos, rhs) ← eval_not f st (S pos); and_loop f st pos (r && rhs) else Ret (st, pos, r))
      (if at_token tokens pos #"&&"
        then '(st, pos, rhs) ← eval_not (S f) st (S pos); and_loop (S f) st pos (r && rhs) else Ret (st, pos, r))).
    case_split; [|apply settled_refl]. apply settled_bind; [apply IH|]. intros [[st' pos'] r']. apply IH.
  - change (settled (if at_token tokens pos #"!"
        then '(st, pos, r) ← eval_not f st (S pos); Ret (st, pos, negb r) else eval_primary f st pos)
      (if at_token tokens pos #"!"
        then '(st, pos, r) ← eval_not (S f) st (S pos); Ret (st, pos, negb r) else eval_primary (S f) st pos)).
    case_split; [|apply IH]. apply settled_bind; [apply IH|]. intros [[st' pos'] r]. apply settled_refl.
  - change (settled (if (length tokens <=? pos)%nat then Ret (st, pos, false)
        else if at_token tokens pos #"(" then
          '(st, pos, result) ← eval_or f st (S pos); Ret (st, if at_token tokens pos #")" then S pos else pos, result)
        else eval_simple to_lowercase tokens fs st pos)
      (if (length tokens <=? pos)%nat then Ret (st, pos, false)
        else if at_token tokens pos #"(" then
          '(st, pos, result) ← eval_or (S f) st (S pos); Ret (st, if at_token tokens pos #")" then S pos else pos, result)
        else eval_simple to_lowercase tokens fs st pos)).
    do 2 (case_split; [try apply settled_refl|]); [|apply settled_refl].
    apply settled_bind; [apply IH|]. intros [[st' pos'] r]. apply settled_refl.
Qed.

(** The evaluators as relations: some fuel gives the result. *)
Definition gives {A} (run : nat -> outcome A) (x : A) : Prop := exists f, run f = Ret x.

Lemma settled_more {A} (run : nat -> outcome A) f f' x :
  (forall f, settled (run f) (run (S f))) -> (f <= f')%nat -> run f = x -> x <> NoFuel -> run f' = x.
Proof.
  intros Hs Hle Hf Hx. induction Hle as [|f' _ IH]; [done|]. rewrite (Hs f'); [done|]. by rewrite IH.
Qed.

(** Sequencing: one more unit of fuel than the larger of the two. *)
Lemma gives_bind {A B} (run : nat -> outcome B) (m : nat -> outcome A) (k : A -> nat -> outcome B) a x :
  (forall f, run (S f) = m f ≫= (fun a => k a f)) ->
  (forall f, settled (m f) (m (S f))) -> (forall f, settled (k a f) (k a (S f))) ->
  gives m a -> gives (k a) x -> gives run x.
Proof.
  intros Hrun Hm Hk [f1 H1] [f2 H2]. exists (S (max f1 f2)). rewrite Hrun.
  rewrite (settled_more m f1 (max f1 f2) (Ret a)) by (done || lia). cbn.
  by rewrite (settled_more (k a) f2 (max f1 f2) (Ret x)) by (done || lia).
Qed.

Lemma bind_uncurry {A B C D} (o : outcome (A * B * C)) (k : A -> B -> C -> outcome D) :
  ('(a, b, c) ← o; k a b c) = o ≫= (fun x => k x.1.1 x.1.2 x.2).
Proof. by destruct o as [[[? ?] ?]| |]. Qed.

Lemma or_start st pos st1 pos1 r1 x :
  gives (fun f => eval_and f st pos) (st1, pos1, r1) -> gives (fun f => or_loop f st1 pos1 r1) x ->
  gives (fun f => eval_or f st pos) x.
Proof.
  apply (gives_bind _ (fun f => eval_and f st pos) (fun a f => or_loop f a.1.1 a.1.2 a.2)).
  - intros f. apply (bind_uncurry (eval_and f st pos) (fun st pos r => or_loop f st pos r)).
  - intros f. apply eval_settled.
  - intros f. apply eval_settled.
Qed.

Lemma or_next st pos r st1 pos1 r1 x :
  at_token tokens pos #"||" = true ->
  gives (fun f => eval_and f st (S pos)) (st1, pos1, r1) -> gives (fun f => or_loop f st1 pos1 (r || r1)) x ->
  gives (fun f => or_loop f st pos r) x.
Proof.
  intros Ht. apply (gives_bind _ (fun f => eval_and f st (S pos)) (fun a f => or_loop f a.1.1 a.1.2 (r || a.2))).
  - intros f. rewrite <- (bind_uncurry (eval_and f st (S pos)) (fun st pos r1 => or_loop f st pos (r || r1))).
    cbn [DblBracket.or_loop]. by rewrite Ht.
  - intros f. apply eval_settled.
  - intros f. apply eval_settled.
Qed.

Lemma or_stop st pos r : at_token tokens pos #"||" = false -> gives (fun f => or_loop f st pos r) (st, pos, r).
Proof. intros Ht. exists 1%nat. cbn [DblBracket.or_loop]. by rewrite Ht. Qed.

Lemma and_start st pos st1 pos1 r1 x :
  gives (fun f => eval_not f st pos) (st1, pos1, r1) -> gives (fun f => and_loop f st1 pos1 r1) x ->
  gives (fun f => eval_and f st pos) x.
Proof.
  apply (gives_bind _ (fun f => eval_not f st pos) (fun a f => and_loop f a.1.1 a.1.2 a.2)).
  - intros f. apply (bind_uncurry (eval_not f st pos) (fun st pos r => and_loop f st pos r)).
  - intros f. apply eval_settled.
  - intros f. apply eval_settled.
Qed.

Lemma and_next st pos r st1 pos1 r1 x :
  at_token tokens pos #"&&" = true ->
  gives (fun f => eval_not f st (S pos)) (st1, pos1, r1) -> gives (fun f => and_loop f st1 pos1 (r && r1)) x ->
  gives (fun f => and_loop f st pos r) x.
Proof.
  intros Ht. apply (gives_bind _ (fun f => eval_not f st (S pos)) (fun a f => and_loop f a.1.1 a.1.2 (r && a.2))).
  - intros f. rewrite <- (bind_uncurry (eval_not f st (S pos)) (fun st pos r1 => and_loop f st pos (r && r1))).
    cbn [DblBracket.and_loop]. by rewrite Ht.
  - intros f. apply eval_settled.
  - intros f. apply eval_settled.
Qed.

Lemma and_stop st pos r : at_token tokens pos #"&&" = false -> gives (fun f => and_loop f st pos r) (st, pos, r).
Proof. intros Ht. exists 1%nat. cbn [DblBracket.and_loop]. by rewrite Ht. Qed.

Lemma not_bang st pos st1 pos1 r :
  at_token tokens pos #"!" = true -> gives (fun f => eval_not f st (S pos)) (st1, pos1, r) ->
  gives (fun f => eval_not f st pos) (st1, pos1, negb r).
Proof. intros Ht [f Hf]. exists (S f). cbn [dbl_bracket_eval_not]. by rewrite Ht, Hf. Qed.

Lemma not_simple st pos x :
  at_token tokens pos #"!" = false -> at_token tokens pos #"(" = false -> (pos < length tokens)%nat ->
  eval_simple to_lowercase tokens fs st pos = Ret x -> gives (fun f => eval_not f st pos) x.
Proof.
  intros Hb Hp Hl Hs. exists 2%nat. cbn [dbl_bracket_eval_not dbl_bracket_eval_primary]. rewrite Hb, Hp. by rewrite (proj2 (Nat.leb_gt _ _)).
Qed.

Lemma eval_primary_S f st pos :
  eval_primary (S f) st pos =
  if (length tokens <=? pos)%nat then Ret (st, pos, false)
  else if at_token tokens pos #"(" then
    '(st, pos, result) ← eval_or f st (S pos); Ret (st, if at_token tokens pos #")" then S pos else pos, result)
  else eval_simple to_lowercase tokens fs st pos.
Proof. done. Qed.

Lemma not_group st pos st1 pos1 r :
  at_token tokens pos #"!" = false -> at_token tokens pos #"(" = true ->
  gives (fun f => eval_or f st (S pos)) (st1, pos1, r) -> at_token tokens pos1 #")" = true ->
  gives (fun f => eval_not f st pos) (st1, S pos1, r).
Proof.
  intros Hb Hp [f Hf] Hc. exists (S (S f)).
  assert (pos < length tokens)%nat by (apply bool_decide_eq_true in Hp; by eapply lookup_lt_Some).
  transitivity (eval_primary (S f) st pos); [cbn [dbl_bracket_eval_not]; by rewrite Hb|].
  rewrite eval_primary_S, Hp, Hf. rewrite (proj2 (Nat.leb_gt _ _)) by lia. cbn [mbind outcome_bind]. by rewrite Hc.
Qed.
End tokens.

(** ** Expressions *)

Inductive cond :=
  | CWord (w : list Ascii.ascii)
  | CUnary (flag : Ascii.ascii) (arg : list Ascii.ascii)
  | CBinary (lhs op rhs : list Ascii.ascii)
  | CNot (c : cond)
  | CAnd (a b : cond)
  | COr (a b : cond).

(** The tokens of an expression where an operand of precedence [lvl] is
    expected: 0 for [||], 1 for [&&], 2 for [!]. *)
Fixpoint print_cond (lvl : nat) (c : cond) : list str :=
  let paren n body := if (lvl <=? n)%nat then body else [ #"(" ] ++ body ++ [ #")" ] in
  match c with
  | CWord w => [w]
  | CUnary flag arg => [ ["-"%char; flag]; arg ]
  | CBinary lhs op rhs => [lhs; op; rhs]
  | CNot c => [ #"!" ] ++ print_cond 2 c
  | CAnd a b => paren 1%nat (print_cond 1 a ++ [ #"&&" ] ++ print_cond 2 b)
  | COr a b => paren 0%nat (print_cond 0 a ++ [ #"||" ] ++ print_cond 1 b)
  end.

(** A word that the evaluator reads as an operand wherever it starts a primary:
    no parenthesis, no negation, no unary operator. *)
Definition operand_word (w : str) : bool :=
  negb (bool_decide (w ∈ [ #"("; #"!" ])) &&
  match dbl_bracket_parse_unary_flag w with
  | Some flag => negb (is_string_flag flag || is_file_flag flag)
  | None => true
  end.

Fixpoint cond_wf (c : cond) : bool :=
  match c with
  | CWord w => operand_word w
  | CUnary flag _ => is_string_flag flag || is_file_flag flag
  | CBinary lhs op _ => operand_word lhs && is_binary_op op && negb (bool_decide (op = #"=~"))
  | CNot c => cond_wf c
  | CAnd a b | COr a b => cond_wf a && cond_wf b
  end.

(** The meaning of an expression in a state. *)
Fixpoint holds (st : ShellState) (c : cond) : bool :=
  match c with
  | CWord w => negb (bool_decide (w = []))
  | CUnary flag arg => if is_string_flag flag then dbl_bracket_eval_string_test arg flag
                       else eval_file_test fs flag arg (cwd st)
  | CBinary lhs op rhs => match eval_binary_op to_lowercase fs lhs op rhs st with Ret (_, r) => r | _ => false end
  | CNot c => negb (holds st c)
  | CAnd a b => holds st a && holds st b
  | COr a b => holds st a || holds st b
  end.

(** [seg] is what the tokens have from position [pos] on. *)
Definition has_at (tokens : list str) (pos : nat) (seg : list str) : Prop :=
  exists pre post, tokens = pre ++ seg ++ post /\ length pre = pos.

Lemma has_at_lookup tokens pos seg i : has_at tokens pos seg -> (i < length seg)%nat -> tokens !! (pos + i)%nat = seg !! i.
Proof.
  intros (pre & post & -> & <-) Hi. rewrite lookup_app_r by lia.
  replace (length pre + i - length pre)%nat with i by lia. by rewrite lookup_app_l.
Qed.

Lemma has_at_app tokens pos s1 s2 :
  has_at tokens pos (s1 ++ s2) -> has_at tokens pos s1 /\ has_at tokens (pos + length s1)%nat s2.
Proof.
  intros (pre & post & -> & <-). split.
  - exists pre, (s2 ++ post). by rewrite <- app_assoc.
  - exists (pre ++ s1), post. rewrite length_app. by rewrite <- !app_assoc.
Qed.

Lemma has_at_head tokens pos t seg : has_at tokens pos (t :: seg) -> tokens !! pos = Some t.
Proof. intros Hh. pose proof (has_at_lookup _ _ _ 0 Hh) as Hl. rewrite Nat.add_0_r in Hl. apply Hl. cbn. lia. Qed.

Lemma at_token_head tokens pos t t' seg : has_at tokens pos (t :: seg) -> at_token tokens pos t' = bool_decide (t = t').
Proof.
  intros Hh%has_at_head. unfold at_token. rewrite Hh. apply bool_decide_ext. naive_solver.
Qed.

Lemma has_at_bound tokens pos t seg : has_at tokens pos (t :: seg) -> (pos < length tokens)%nat.
Proof. intros Hh%has_at_head. by eapply lookup_lt_Some. Qed.

(** What may follow an expression: the end or a token that is no binary
    operator. *)
Definition quiet (next : option str) : Prop := forall t, next = Some t -> is_binary_op t = false.

Lemma operand_word_spec w :
  operand_word w = true ->
  w <> #"(" /\ w <> #"!" /\
  (forall flag, dbl_bracket_parse_unary_flag w = Some flag -> is_string_flag flag = false /\ is_file_flag flag = false).
Proof.
  unfold operand_word. intros [Hw Hf]%andb_true_iff. bool_to_prop. split; [set_solver|]. split; [set_solver|].
  intros flag Hfl. rewrite Hfl in Hf. bool_to_prop. done.
Qed.

Lemma operand_no_unary tokens pos w cwd :
  operand_word w = true -> tokens !! pos = Some w -> dbl_bracket_try_unary tokens fs pos cwd = None.
Proof.
  intros (_ & _ & Hw)%operand_word_spec Hp. unfold dbl_bracket_try_unary. rewrite Hp.
  destruct (tokens !! S pos); [|done]. destruct (dbl_bracket_parse_unary_flag w) as [flag|]; [|done].
  destruct (Hw flag eq_refl) as [H1 H2]. cbn. by rewrite H1, H2.
Qed.

(** Without [=~] a binary test changes no state. *)
Lemma binary_op_pure lhs op rhs st :
  op <> #"=~" -> exists r, eval_binary_op to_lowercase fs lhs op rhs st = Ret (st, r).
Proof. intros. unfold eval_binary_op. repeat case_decide; eauto. done. Qed.

Lemma parse_flag_token flag : dbl_bracket_parse_unary_flag ["-"%char; flag] = Some flag.
Proof. done. Qed.

(** The three primaries. *)
Lemma simple_word tokens st pos w :
  operand_word w = true -> has_at tokens pos [w] -> quiet (tokens !! S pos) ->
  eval_simple to_lowercase tokens fs st pos = Ret (st, S pos, negb (bool_decide (w = []))).
Proof.
  intros Hw Hh Hq. pose proof (has_at_head _ _ _ _ Hh) as Hp. unfold eval_simple, dbl_bracket_try_binary.
  rewrite (operand_no_unary tokens pos w) by done. unfold dbl_bracket_take_truthy_token. rewrite Hp.
  case_split; [done|]. destruct (tokens !! S pos) as [t|]; [|done]. by rewrite (Hq t).
Qed.

Lemma simple_unary tokens st pos flag arg :
  is_string_flag flag || is_file_flag flag = true -> has_at tokens pos [["-"%char; flag]; arg] ->
  quiet (tokens !! S (S pos)) ->
  eval_simple to_lowercase tokens fs st pos = Ret (st, S (S pos), holds st (CUnary flag arg)).
Proof.
  intros Hf Hh Hq. pose proof (has_at_head _ _ _ _ Hh) as Hp.
  pose proof (has_at_lookup _ _ _ 1 Hh) as Ha. rewrite Nat.add_1_r in Ha.
  unfold eval_simple, dbl_bracket_try_unary. rewrite Hp, Ha by (cbn; lia).
  cbn [lookup list_lookup]. rewrite parse_flag_token. cbn [mbind option_bind holds].
  destruct (is_string_flag flag); [done|]. cbn in Hf. rewrite Hf.
  destruct (tokens !! S (S pos)) as [t|] eqn:Ht; [|done]. by rewrite (Hq t).
Qed.

Lemma simple_binary tokens st pos lhs op rhs :
  operand_word lhs = true -> is_binary_op op = true -> op <> #"=~" -> has_at tokens pos [lhs; op; rhs] ->
  eval_simple to_lowercase tokens fs st pos = Ret (st, S (S (S pos)), holds st (CBinary lhs op rhs)).
Proof.
  intros Hw Hop Hne Hh. pose proof (has_at_head _ _ _ _ Hh) as Hp.
  pose proof (has_at_lookup _ _ _ 1 Hh) as Ho. pose proof (has_at_lookup _ _ _ 2 Hh) as Hr. cbn in Ho, Hr.
  rewrite Nat.add_1_r in Ho. replace (pos + 2)%nat with (S (S pos)) in Hr by lia.
  specialize (Ho ltac:(lia)). specialize (Hr ltac:(lia)).
  unfold eval_simple, dbl_bracket_try_binary. rewrite (operand_no_unary tokens pos lhs) by done.
  assert (S pos < length tokens)%nat by by eapply lookup_lt_Some.
  rewrite (proj2 (Nat.eqb_neq _ _)) by lia. rewrite Hp, Ho, Hop.
  unfold dbl_bracket_collect_rhs. rewrite Hr, decide_False by done. cbn [holds].
  destruct (binary_op_pure lhs op rhs st Hne) as [r ->]. done.
Qed.

(** ** Printed expressions evaluate to their meaning

    One statement per precedence; the two lower ones are in continuation form
    because the connectives are parsed by loops. *)
Section levels.
Context (tokens : list (list Ascii.ascii)) (st : ShellState).

Abbreviation next_of pos lvl c := (tokens !! (pos + length (print_cond lvl c))%nat) (only parsing).

Definition not_ok (c : cond) : Prop := forall pos,
  has_at tokens pos (print_cond 2 c) -> quiet (next_of pos 2%nat c) ->
  gives (fun f => dbl_bracket_eval_not to_lowercase tokens fs f st pos)
    (st, (pos + length (print_cond 2 c))%nat, holds st c).

Definition and_ok (c : cond) : Prop := forall pos x,
  has_at tokens pos (print_cond 1 c) -> quiet (next_of pos 1%nat c) ->
  gives (fun f => and_loop to_lowercase tokens fs f st (pos + length (print_cond 1 c)) (holds st c)) x ->
  gives (fun f => dbl_bracket_eval_and to_lowercase tokens fs f st pos) x.

Definition or_ok (c : cond) : Prop := forall pos x,
  has_at tokens pos (print_cond 0 c) -> quiet (next_of pos 0%nat c) ->
  at_token tokens (pos + length (print_cond 0 c)) #"&&" = false ->
  gives (fun f => or_loop to_lowercase tokens fs f st (pos + length (print_cond 0 c)) (holds st c)) x ->
  gives (fun f => dbl_bracket_eval_or to_lowercase tokens fs f st pos) x.

Lemma not_and_ok c : print_cond 1 c = print_cond 2 c -> not_ok c -> and_ok c.
Proof. intros Heq Hc pos x Hh Hq. rewrite Heq in *. eapply and_start. by apply Hc. Qed.

(** An [&&] level operand that is not followed by [&&]. *)
Lemma and_ok_stop c pos :
  and_ok c -> has_at tokens pos (print_cond 1 c) -> quiet (next_of pos 1%nat c) ->
  at_token tokens (pos + length (print_cond 1 c)) #"&&" = false ->
  gives (fun f => dbl_bracket_eval_and to_lowercase tokens fs f st pos)
    (st, (pos + length (print_cond 1 c))%nat, holds st c).
Proof. intros Hc Hh Hq Ha. apply Hc; [done|done|]. by apply and_stop. Qed.

Lemma and_or_ok c : print_cond 0 c = print_cond 1 c -> and_ok c -> or_ok c.
Proof. intros Heq Hc pos x Hh Hq Ha. rewrite Heq in *. eapply or_start. by apply and_ok_stop. Qed.

Lemma quiet_token t : is_binary_op t = false -> quiet (Some t).
Proof. by intros ? ? [= <-]. Qed.

Lemma group_ok c : print_cond 2 c = [ #"(" ] ++ print_cond 0 c ++ [ #")" ] -> or_ok c -> not_ok c.
Proof.
  intros Heq Hc pos Hh _. rewrite Heq in *. pose proof Hh as Hh0.
  apply has_at_app in Hh as [Hopen Hh]. apply has_at_app in Hh as [Hbody Hclose]. cbn [length] in Hbody, Hclose.
  rewrite Nat.add_1_r in Hbody, Hclose.
  replace (pos + length ([ #"(" ] ++ print_cond 0 c ++ [ #")" ]))%nat with (S (S pos + length (print_cond 0 c)))
    by (rewrite !length_app; cbn [length]; lia).
  apply not_group; [by rewrite (at_token_head _ _ _ _ _ Hopen)|by rewrite (at_token_head _ _ _ _ _ Hopen)| |
    by rewrite (at_token_head _ _ _ _ _ Hclose)].
  apply Hc; [done| | |].
  - rewrite (has_at_head _ _ _ _ Hclose). by apply quiet_token.
  - by rewrite (at_token_head _ _ _ _ _ Hclose).
  - apply or_stop. by rewrite (at_token_head _ _ _ _ _ Hclose).
Qed.

Lemma or_node_ok a b : or_ok a -> and_ok b -> or_ok (COr a b).
Proof.
  intros Ha Hb pos x Hh Hq Hamp Hx. cbn [print_cond Nat.leb] in *.
  apply has_at_app in Hh as [Hha Hh]. apply has_at_app in Hh as [Hop Hhb]. cbn [length] in Hhb.
  rewrite Nat.add_1_r in Hhb.
  replace (pos + length (print_cond 0 a ++ [ #"||" ] ++ print_cond 1 b))%nat
    with (S (pos + length (print_cond 0 a)) + length (print_cond 1 b))%nat in * by (rewrite !length_app; cbn [length]; lia).
  apply Ha; [done| | |].
  - rewrite (has_at_head _ _ _ _ Hop). by apply quiet_token.
  - by rewrite (at_token_head _ _ _ _ _ Hop).
  - eapply or_next; [by rewrite (at_token_head _ _ _ _ _ Hop)|by apply and_ok_stop|exact Hx].
Qed.

Lemma and_node_ok a b : and_ok a -> not_ok b -> and_ok (CAnd a b).
Proof.
  intros Ha Hb pos x Hh Hq Hx. cbn [print_cond Nat.leb] in *.
  apply has_at_app in Hh as [Hha Hh]. apply has_at_app in Hh as [Hop Hhb]. cbn [length] in Hhb.
  rewrite Nat.add_1_r in Hhb.
  replace (pos + length (print_cond 1 a ++ [ #"&&" ] ++ print_cond 2 b))%nat
    with (S (pos + length (print_cond 1 a)) + length (print_cond 2 b))%nat in * by (rewrite !length_app; cbn [length]; lia).
  apply Ha; [done| |].
  - rewrite (has_at_head _ _ _ _ Hop). by apply quiet_token.
  - eapply and_next; [by rewrite (at_token_head _ _ _ _ _ Hop)|by apply Hb|exact Hx].
Qed.

Lemma not_node_ok c : not_ok c -> not_ok (CNot c).
Proof.
  intros Hc pos Hh Hq. cbn [print_cond] in *. apply has_at_app in Hh as [Hop Hh]. cbn [length] in Hh.
  rewrite Nat.add_1_r in Hh.
  replace (pos + length ([ #"!" ] ++ print_cond 2 c))%nat with (S pos + length (print_cond 2 c))%nat in *
    by (rewrite !length_app; cbn [length]; lia).
  apply not_bang; [by rewrite (at_token_head _ _ _ _ _ Hop)|by apply Hc].
Qed.

Lemma primary_ok c t seg :
  print_cond 2 c = t :: seg -> t <> #"(" -> t <> #"!" ->
  (forall pos, has_at tokens pos (print_cond 2 c) -> quiet (next_of pos 2%nat c) ->
     eval_simple to_lowercase tokens fs st pos = Ret (st, (pos + length (print_cond 2 c))%nat, holds st c)) ->
  not_ok c.
Proof.
  intros Heq H1 H2 Hs pos Hh Hq. pose proof Hh as Hh'. rewrite Heq in Hh'.
  apply not_simple; [rewrite (at_token_head _ _ _ _ _ Hh'); by apply bool_decide_eq_false|
    rewrite (at_token_head _ _ _ _ _ Hh'); by apply bool_decide_eq_false|by eapply has_at_bound|by apply Hs].
Qed.

Lemma cond_ok c : cond_wf c = true -> not_ok c /\ and_ok c /\ or_ok c.
Proof.
  assert (Hlow : forall c, print_cond 1 c = print_cond 2 c -> print_cond 0 c = print_cond 1 c ->
    not_ok c -> not_ok c /\ and_ok c /\ or_ok c).
  { intros c' E1 E0 Hc. pose proof (not_and_ok c' E1 Hc). auto using and_or_ok. }
  induction c as [w|flag arg|lhs op rhs|c IH|a IHa b IHb|a IHa b IHb]; cbn [cond_wf]; intros Hwf.
  - apply Hlow; [done|done|]. destruct (operand_word_spec w Hwf) as (H1 & H2 & _).
    apply (primary_ok _ w []); [done..|]. intros pos Hh Hq. cbn [print_cond length] in *. rewrite Nat.add_1_r in *.
    by apply simple_word.
  - apply Hlow; [done|done|]. apply (primary_ok _ ["-"%char; flag] [arg]); [done..|]. intros pos Hh Hq.
    cbn [print_cond length] in *. replace (pos + 2)%nat with (S (S pos)) in * by lia. by apply simple_unary.
  - apply Hlow; [done|done|]. bool_to_prop. destruct (operand_word_spec lhs) as (H1' & H2' & _); [done|].
    apply (primary_ok _ lhs [op; rhs]); [done..|]. intros pos Hh Hq.
    cbn [print_cond length] in *. replace (pos + 3)%nat with (S (S (S pos))) in * by lia. by apply simple_binary.
  - apply Hlow; [done|done|]. by apply not_node_ok, IH.
  - bool_to_prop. destruct IHa as (_ & Ha & _), IHb as (Hb & _ & _); [done..|].
    pose proof (and_node_ok a b Ha Hb) as Hand. pose proof (and_or_ok (CAnd a b) eq_refl Hand) as Hor.
    split; [by apply group_ok|done].
  - bool_to_prop. destruct IHa as (_ & _ & Ha), IHb as (_ & Hb & _); [done..|].
    pose proof (or_node_ok a b Ha Hb) as Hor. pose proof (group_ok (COr a b) eq_refl Hor) as Hnot.
    split; [done|]. split; [by apply not_and_ok|done].
Qed.
End levels.

(** C22: The evaluator implements the grammar: on the tokens of a well-formed
    expression (without [=~]) it returns the expression's truth value with the
    usual precedences and parentheses, consumes every token and leaves the shell
    state alone. *)
Theorem dbl_bracket_correct (c : cond) (st : ShellState) :
  cond_wf c = true ->
  eval_double_bracket to_lowercase (print_cond 0 c) fs st = Ret (st, length (print_cond 0 c), holds st c).
Proof.
  intros Hwf. set (tokens := print_cond 0 c).
  destruct (cond_ok tokens st c Hwf) as (_ & _ & Hor).
  assert (Hend : tokens !! length tokens = None) by by apply lookup_ge_None.
  destruct (Hor 0%nat (st, length tokens, holds st c)) as [f Hf].
  - exists [], []. by rewrite app_nil_r.
  - intros t Ht. change (tokens !! length tokens = Some t) in Ht. by rewrite Hend in Ht.
  - change (at_token tokens (length tokens) #"&&" = false). unfold at_token. by rewrite Hend.
  - apply or_stop. change (at_token tokens (length tokens) #"||" = false). unfold at_token. by rewrite Hend.
  - unfold eval_double_bracket. set (F := dbl_bracket_fuel tokens 0).
    set (run f := dbl_bracket_eval_or to_lowercase tokens fs f st 0).
    assert (Hs : forall f, settled (run f) (run (S f))) by (intros; apply eval_settled).
    assert (HF : run F <> NoFuel).
    { pose proof (proj1 (eval_progress tokens F st 0)) as Hp. specialize (Hp ltac:(unfold F, dbl_bracket_fuel; lia)).
      change (progress tokens 0 (run F)) in Hp. by destruct (run F). }
    change (run F = Ret (st, length tokens, holds st c)).
    rewrite <- (settled_more run F (max F f) (run F) Hs) by (done || lia).
    by apply (settled_more run f (max F f) _ Hs); [lia|exact Hf|].
Qed.

(** ** [BASH_REMATCH] *)

(** The captures under the indices 0, 1, ... *)
Definition indexed (caps : list str) : list (Z * str) := zip (seqZ 0 (len caps)) caps.

Lemma indexed_snoc caps c : indexed (caps ++ [c]) = indexed caps ++ [(len caps, c)].
Proof.
  unfold indexed. rewrite len_app. cbn [len length]. pose proof (len_nonneg caps).
  rewrite (seqZ_app 0 (len caps) (len [c])) by (unfold len; cbn; lia).
  rewrite zip_with_app by (rewrite length_seqZ; unfold len; lia). done.
Qed.

Lemma indexed_keys caps : len caps ∉ im_keys (indexed caps).
Proof.
  unfold im_keys, indexed. change (map fst ?l) with (fst <$> l). rewrite fst_zip.
  - rewrite elem_of_seqZ. lia.
  - rewrite length_seqZ. unfold len. lia.
Qed.

(** The array holds the captures stored so far, and nothing else has changed
    since [st0]. *)
Definition rematch_is (st0 st : ShellState) (caps : list str) : Prop :=
  (exists var, Env.get BASH_REMATCH (env st) = Some var /\ readonly var = false /\ value var = IndexedArray (indexed caps)) /\
  (forall name, name <> BASH_REMATCH -> Env.get name (env st) = Env.get name (env st0)).

Lemma store_capture_ok st0 st caps cap :
  rematch_is st0 st caps -> len caps <= usize_max ->
  rematch_is st0 (set_array_element st BASH_REMATCH (Z_to_string (len caps)) cap) (caps ++ [cap]).
Proof.
  intros [(var & Hg & Hr & Hv) Hother] Hlen. unfold set_array_element, attrs. rewrite Hg, Hr.
  split.
  - rewrite env_set_env, get_get_mut, decide_True, Hg by done. cbn. eexists. split; [done|]. cbn. split; [done|].
    rewrite Hv. unfold insert_at. rewrite parse_usize_to_string by (pose proof (len_nonneg caps); lia).
    rewrite im_insert_new by apply indexed_keys. by rewrite indexed_snoc.
  - intros name Hn. rewrite env_set_env, get_get_mut, decide_False by done. by apply Hother.
Qed.

Lemma store_captures_ok st0 caps : forall st stored,
  rematch_is st0 st stored -> len stored + len caps <= usize_max ->
  rematch_is st0 (store_captures (len stored) caps st) (stored ++ caps).
Proof.
  induction caps as [|c caps IH]; intros st stored Hs Hl; cbn [store_captures]; [by rewrite app_nil_r|].
  rewrite len_cons in Hl. pose proof (len_nonneg caps).
  replace (len stored + 1) with (len (stored ++ [c])) by (rewrite len_app; unfold len; cbn; lia).
  replace (stored ++ c :: caps) with ((stored ++ [c]) ++ caps) by by rewrite <- app_assoc. apply IH; [apply store_capture_ok; [done|lia]|rewrite len_app; unfold len in *; cbn; lia].
Qed.

(** C34: [lhs =~ rhs] reports the matcher's verdict and leaves in [BASH_REMATCH]
    exactly its captures under the indices 0, 1, ... (none when there is no
    match), whatever the array held before; no other variable changes. *)
Theorem rematch_captures (lhs rhs : list Ascii.ascii) (st st' : ShellState) (r : bool) (m : option (list (list Ascii.ascii))) :
  env_wf (env st) -> is_var_readonly st BASH_REMATCH = false ->
  regex_match_with_captures lhs rhs = Ok m -> len (default [] m) <= usize_max ->
  eval_regex_match lhs rhs st = Ret (st', r) ->
  r = bool_decide (is_Some m) /\ rematch_is st st' (default [] m).
Proof.
  intros [Hne _] Hro Hm Hlen. unfold eval_regex_match. rewrite Hm.
  assert (Hinit : rematch_is st (init_indexed_array st BASH_REMATCH) []).
  { unfold init_indexed_array, init_array. destruct (attrs st BASH_REMATCH) as [[[e ro] i] n] eqn:Ha.
    apply attrs_readonly in Ha. rewrite Hro in Ha. subst ro. split.
    - rewrite env_set_env, get_set_eq by done. eauto.
    - intros name Hn. by rewrite env_set_env, get_set_ne. }
  destruct m as [caps|]; intros [= <- <-]; [|done]. split; [done|].
  by apply (store_captures_ok st caps (init_indexed_array st BASH_REMATCH) []).
Qed.
End props.

(** ** Concrete expressions *)

#[local] Existing Instance wasm32.

Definition demo_state : ShellState := new_state 7.
Definition empty_fs : MemoryFsInner (list Ascii.ascii) := MemFs.new.

(** [! a == b && ( -n x || -d / ) ] *)
Definition demo_cond : cond :=
  CAnd (CNot (CBinary #"a" #"==" #"b")) (COr (CUnary "n"%char #"x") (CUnary "d"%char #"/")).

Lemma dbl_bracket_correct_witness :
  print_cond 0 demo_cond = [ #"!"; #"a"; #"=="; #"b"; #"&&"; #"("; #"-n"; #"x"; #"||"; #"-d"; #"/"; #")" ] /\
  eval_double_bracket to_ascii_lowercase (print_cond 0 demo_cond) empty_fs demo_state
  = Ret (demo_state, 12%nat, holds to_ascii_lowercase empty_fs demo_state demo_cond).
Proof.
  split; [by vm_compute|]. exact (dbl_bracket_correct to_ascii_lowercase empty_fs demo_cond demo_state eq_refl).
Defined.

Lemma rematch_captures_witness :
  exists st', eval_regex_match #"ab12" #"([a-z]+)([0-9]+)" demo_state = Ret (st', true) /\
    rematch_is demo_state st' [ #"ab12"; #"ab"; #"12" ].
Proof.
  eexists. split; [reflexivity|].
  apply (rematch_captures #"ab12" #"([a-z]+)([0-9]+)" demo_state _ true (Some [ #"ab12"; #"ab"; #"12" ])).
  - split; [done|]. by apply (bool_decide_unpack _); vm_compute.
  - by vm_compute.
  - by vm_compute.
  - by vm_compute.
  - reflexivity.
Defined.

(** The connectives do not short-circuit: in [[[ b == a && x =~ x ]]] the right
    side runs although the left one is false, and overwrites [BASH_REMATCH]. *)
Theorem no_short_circuit :
  match eval_double_bracket to_ascii_lowercase [ #"b"; #"=="; #"a"; #"&&"; #"x"; #"=~"; #"x" ] empty_fs demo_state with
  | Ret (st, _, r) => r = false /\ get_array_element st BASH_REMATCH #"0" = Some #"x"
  | _ => False
  end.
Proof. by vm_compute. Qed.

(** Inside parentheses [=~] takes the closing one into its pattern, so
    [[[ ( a =~ a ) ]]] searches for [a)] and fails. *)
Theorem regex_swallows_paren :
  match eval_double_bracket to_ascii_lowercase [ #"("; #"a"; #"=~"; #"a"; #")" ] empty_fs demo_state with
  | Ret (_, pos, r) => pos = 5%nat /\ r = false
  | _ => False
  end.
Proof. by vm_compute. Qed.
