(* ===== verification/Lexer.v ===== *)
(** * Lexer (crates/wasmsh-lex/src/lib.rs)

    The stateful lexer: a cursor over the source bytes, the comment mode and the
    nesting depth of substitutions.  Every method is a computation on [Lexer];
    the state after an error is kept, because the parser swallows some lexer
    errors and goes on.  Loops that advance the cursor in every round are bounded
    by the bytes left; the mutually recursive scanners of quotes and
    substitutions take fuel, whose exhaustion is a [Panic] that [LexerProps]
    excludes. *)

From S2P Require Import Prelude Strings Ast.

Inductive LexerMode := Normal | Comment.

Inductive TokenKind :=
  | TWord (is_reserved_candidate : bool)
  | Semi | Newline | Pipe | AndAnd | OrOr | Amp | PipeAmp
  | Less | Greater | GreaterGreater | GreaterPipe | LessLess | LessLessDash | LessLessLess
  | LessGreater | AmpGreater | AmpGreaterGreater
  | LParen | RParen | DblLBracket | DblRBracket | Eof.

#[export] Instance TokenKind_eq_dec : EqDecision TokenKind.
Proof. solve_decision. Defined.

Record Token := { kind : TokenKind; token_span : Span }.

Record LexerError := { lex_message : list Ascii.ascii; lex_span : Span }.

Record Lexer := { pos : nat; mode : LexerMode; subst_depth : Z }.

Definition set_pos (p : nat) (s : Lexer) : Lexer := {| pos := p; mode := mode s; subst_depth := subst_depth s |}.
Definition set_lexer_mode (m : LexerMode) (s : Lexer) : Lexer := {| pos := pos s; mode := m; subst_depth := subst_depth s |}.
Definition set_subst_depth (d : Z) (s : Lexer) : Lexer := {| pos := pos s; mode := mode s; subst_depth := d |}.

(** [as u32]. *)
Definition as_u32 (n : nat) : Z := Z.of_nat n mod 2 ^ 32.

Definition newline : byte := Ascii.ascii_of_N 10.
Definition tab : byte := Ascii.ascii_of_N 9.
Definition carriage_return : byte := Ascii.ascii_of_N 13.

Definition RESERVED_WORDS : list str :=
  [ #"if"; #"then"; #"else"; #"elif"; #"fi"; #"do"; #"done"; #"case"; #"esac"; #"while"; #"until"; #"for";
    #"in"; #"function"; #"select"; #"time"; #"!"; #"{"; #"}"; #"[["; #"]]" ].

Definition is_reserved_word (s : str) : bool := bool_decide (s ∈ RESERVED_WORDS).

Definition MAX_LEX_DEPTH : Z := 48.

Definition is_ascii_alphabetic (b : byte) : bool :=
  let v := byte_val b in ((65 <=? v) && (v <=? 90)) || ((97 <=? v) && (v <=? 122)).
Definition is_ascii_digit (b : byte) : bool := let v := byte_val b in (48 <=? v) && (v <=? 57).
Definition is_ascii_alphanumeric (b : byte) : bool := is_ascii_alphabetic b || is_ascii_digit b.

Definition is_special_param (b : byte) : bool := bool_decide (b ∈ #"?!#$@*-") || is_ascii_digit b.

Definition is_word_break (b : byte) : bool := bool_decide (b ∈ [" "%char; tab; newline] ++ #";&|<>()").

Definition plain_word_token_kind (text : str) (is_plain : bool) : option TokenKind :=
  if negb is_plain then None
  else if decide (text = #"[[") then Some DblLBracket
  else if decide (text = #"]]") then Some DblRBracket
  else None.

Definition dquote : byte := Ascii.ascii_of_N 34.
Definition squote : byte := "'"%char.
Definition bslash : byte := "\"%char.
Definition btick : byte := "`"%char.

Section lexer.
Context (source : list Ascii.ascii).

Abbreviation lx := (comp Lexer LexerError).

(** [Token::text]. *)
Definition text {E} (t : Token) : res E (list Ascii.ascii) :=
  str_slice source (Z.to_nat (span_start (token_span t))) (Z.to_nat (span_end (token_span t))).

Definition peek_ahead (offset : nat) : lx (option Ascii.ascii) := s ← get; mret (source !! (pos s + offset)%nat).
Definition peek : lx (option Ascii.ascii) := s ← get; mret (source !! pos s).

Definition bump (n : nat) : lx unit := modify (fun s => set_pos (pos s + n) s).

Definition span_from (start stop : nat) : Span := {| span_start := as_u32 start; span_end := as_u32 stop |}.

Definition fail_from {A} (start : nat) (message : str) : lx A :=
  s ← get; throw {| lex_message := message; lex_span := span_from start (pos s) |}.

Definition enter_subst : lx unit :=
  s ← get;
  if MAX_LEX_DEPTH <=? subst_depth s
  then fail_from (pos s) (#"maximum substitution nesting depth (" ++ Z_to_string MAX_LEX_DEPTH ++ #") exceeded")
  else modify (fun s => set_subst_depth (subst_depth s + 1) s).

Definition exit_subst (s : Lexer) : Lexer := set_subst_depth (sat_sub (subst_depth s) 1) s.

(** Run [m], then [f] on the state whatever the outcome was. *)
Definition finally {A} (f : Lexer -> Lexer) (m : lx A) : lx A := fun s => let '(s', r) := m s in (f s', r).

(** [set_position], which the parser calls. *)
Definition set_position (p : nat) (s : Lexer) : Lexer := set_lexer_mode Normal (set_pos p s).

(** Bytes left, the bound of every loop that advances in each round. *)
Definition left_from (p : nat) : nat := (length source - p)%nat.

Fixpoint skip_blanks_loop (n : nat) : lx unit :=
  match n with
  | O => mret tt
  | S n' =>
      c0 ← peek; c1 ← peek_ahead 1; c2 ← peek_ahead 2;
      if decide (c0 = Some " "%char \/ c0 = Some tab) then _ ← bump 1; skip_blanks_loop n'
      else if decide (c0 = Some bslash /\ c1 = Some newline) then _ ← bump 2; skip_blanks_loop n'
      else if decide (c0 = Some bslash /\ c1 = Some carriage_return /\ c2 = Some newline) then _ ← bump 3; skip_blanks_loop n'
      else mret tt
  end.

Definition skip_blanks : lx unit := s ← get; skip_blanks_loop (left_from (pos s)).

Definition op_token (width : nat) (k : TokenKind) : lx Token :=
  s ← get; _ ← bump width;
  mret {| kind := k; token_span := span_from (pos s) (pos s + width) |}.

Definition single_op : TokenKind -> lx Token := op_token 1.
Definition double_op : TokenKind -> lx Token := op_token 2.
Definition triple_op : TokenKind -> lx Token := op_token 3.

(** Advance while the bytes satisfy [ok]. *)
Fixpoint skip_while (ok : Ascii.ascii -> bool) (n : nat) : lx unit :=
  match n with
  | O => mret tt
  | S n' => c ← peek;
            match c with
            | Some b => if ok b then _ ← bump 1; skip_while ok n' else mret tt
            | None => mret tt
            end
  end.

Definition consume_comment : lx unit :=
  s ← get; skip_while (fun b => negb (bool_decide (b = newline))) (left_from (pos s)).

Definition consume_identifier : lx unit :=
  s ← get; skip_while (fun b => is_ascii_alphanumeric b || bool_decide (b = "_"%char)) (left_from (pos s)).

(** The loop of [consume_single_quoted]; it runs out of rounds only at the end
    of the source. *)
Fixpoint single_quoted_loop (start n : nat) : lx unit :=
  c ← peek;
  match c, n with
  | None, _ | _, O => fail_from start #"unterminated single quote"
  | Some b, S n' => if decide (b = squote) then bump 1 else _ ← bump 1; single_quoted_loop start n'
  end.

Definition consume_single_quoted : lx unit :=
  s ← get; _ ← bump 1; single_quoted_loop (pos s) (left_from (pos s)).

Definition consume_backslash : lx unit :=
  _ ← bump 1; c ← peek;
  match c with Some _ => bump 1 | None => mret tt end.

Fixpoint backtick_loop (start n : nat) : lx unit :=
  c ← peek;
  match c, n with
  | None, _ | _, O => fail_from start #"unterminated backquote"
  | Some b, S n' =>
      if decide (b = btick) then bump 1
      else if decide (b = bslash) then _ ← consume_backslash; backtick_loop start n'
      else _ ← bump 1; backtick_loop start n'
  end.

Definition consume_backtick : lx unit :=
  s ← get; _ ← bump 1; backtick_loop (pos s) (left_from (pos s)).

(** [consume_arithmetic_close_paren]: the depths afterwards and whether the
    outermost [))] was consumed. *)
Definition consume_arithmetic_close_paren (paren_depth dbl_depth : nat) : lx (nat * nat * bool) :=
  match paren_depth with
  | S p => _ ← bump 1; mret (p, dbl_depth, false)
  | O => c1 ← peek_ahead 1;
         if decide (c1 = Some ")"%char)
         then _ ← bump 2; mret (O, Nat.pred dbl_depth, (Nat.pred dbl_depth =? 0)%nat)
         else _ ← bump 1; mret (O, dbl_depth, false)
  end.

Definition no_fuel {A} : lx A := panic "out of fuel".

(** The mutually recursive scanners.  The depth counters are [u32]s that stay
    below the length of the source; a counter that reaches zero ends its loop. *)
Fixpoint double_quoted_loop (fuel start : nat) : lx unit :=
  match fuel with
  | O => no_fuel
  | S f =>
      c ← peek;
      match c with
      | None => fail_from start #"unterminated double quote"
      | Some b =>
          if decide (b = dquote) then bump 1
          else if decide (b = bslash) then _ ← consume_backslash; double_quoted_loop f start
          else if decide (b = "$"%char) then _ ← consume_dollar f; double_quoted_loop f start
          else if decide (b = btick) then _ ← consume_backtick; double_quoted_loop f start
          else _ ← bump 1; double_quoted_loop f start
      end
  end
with consume_double_quoted (fuel : nat) : lx unit :=
  match fuel with
  | O => no_fuel
  | S f => s ← get; _ ← bump 1; double_quoted_loop f (pos s)
  end
with consume_dollar (fuel : nat) : lx unit :=
  match fuel with
  | O => no_fuel
  | S f =>
      _ ← bump 1; c ← peek;
      match c with
      | None => mret tt
      | Some b =>
          if decide (b = squote) then consume_single_quoted
          else if decide (b = "("%char) then consume_dollar_paren f
          else if decide (b = "{"%char) then _ ← bump 1; s ← get; brace_param_loop f (pos s - 2) 1
          else if is_ascii_alphabetic b || bool_decide (b = "_"%char) then consume_identifier
          else if is_special_param b then bump 1
          else mret tt
      end
  end
with consume_dollar_paren (fuel : nat) : lx unit :=
  match fuel with
  | O => no_fuel
  | S f =>
      _ ← bump 1;
      _ ← enter_subst;
      finally exit_subst
        (c ← peek;
         if decide (c = Some "("%char)
         then _ ← bump 1; s ← get; arithmetic_loop f (pos s - 3) 0 1
         else s ← get; command_subst_loop f (pos s - 2) 1)
  end
with command_subst_loop (fuel start depth : nat) : lx unit :=
  match fuel with
  | O => no_fuel
  | S f =>
      c ← peek;
      match c with
      | None => fail_from start #"unterminated command substitution"
      | Some b =>
          if decide (b = "("%char) then _ ← bump 1; command_subst_loop f start (S depth)
          else if decide (b = ")"%char) then
            _ ← bump 1;
            match Nat.pred depth with O => mret tt | S d => command_subst_loop f start (S d) end
          else if decide (b = squote) then _ ← consume_single_quoted; command_subst_loop f start depth
          else if decide (b = dquote) then _ ← consume_double_quoted f; command_subst_loop f start depth
          else if decide (b = bslash) then _ ← consume_backslash; command_subst_loop f start depth
          else if decide (b = "$"%char) then _ ← consume_dollar f; command_subst_loop f start depth
          else _ ← bump 1; command_subst_loop f start depth
      end
  end
with arithmetic_loop (fuel start paren_depth dbl_depth : nat) : lx unit :=
  match fuel with
  | O => no_fuel
  | S f =>
      c ← peek;
      match c with
      | None => fail_from start #"unterminated arithmetic expansion"
      | Some b =>
          if decide (b = "("%char) then
            _ ← bump 1; c1 ← peek;
            if decide (c1 = Some "("%char) then _ ← bump 1; arithmetic_loop f start paren_depth (S dbl_depth)
            else arithmetic_loop f start (S paren_depth) dbl_depth
          else if decide (b = ")"%char) then
            r ← consume_arithmetic_close_paren paren_depth dbl_depth;
            let '(p, d, closed) := r in
            if (closed : bool) then mret tt else arithmetic_loop f start p d
          else if decide (b = squote) then _ ← consume_single_quoted; arithmetic_loop f start paren_depth dbl_depth
          else if decide (b = dquote) then _ ← consume_double_quoted f; arithmetic_loop f start paren_depth dbl_depth
          else if decide (b = bslash) then _ ← consume_backslash; arithmetic_loop f start paren_depth dbl_depth
          else if decide (b = "$"%char) then _ ← consume_dollar f; arithmetic_loop f start paren_depth dbl_depth
          else _ ← bump 1; arithmetic_loop f start paren_depth dbl_depth
      end
  end
with brace_param_loop (fuel start depth : nat) : lx unit :=
  match fuel with
  | O => no_fuel
  | S f =>
      c ← peek;
      match c with
      | None => fail_from start #"unterminated parameter expansion"
      | Some b =>
          if decide (b = "{"%char) then _ ← bump 1; brace_param_loop f start (S depth)
          else if decide (b = "}"%char) then
            _ ← bump 1;
            match Nat.pred depth with O => mret tt | S d => brace_param_loop f start (S d) end
          else if decide (b = squote) then _ ← consume_single_quoted; brace_param_loop f start depth
          else if decide (b = dquote) then _ ← consume_double_quoted f; brace_param_loop f start depth
          else if decide (b = bslash) then _ ← consume_backslash; brace_param_loop f start depth
          else _ ← bump 1; brace_param_loop f start depth
      end
  end.

(** Fuel for a scanner that starts at [p]. *)
Definition scan_fuel (p : nat) : nat := (2 * left_from p + 2)%nat.

Fixpoint extglob_loop (start n depth : nat) : lx unit :=
  c ← peek;
  match c, n with
  | None, _ | _, O => fail_from start #"unterminated extglob pattern"
  | Some b, S n' =>
      if decide (b = "("%char) then _ ← bump 1; extglob_loop start n' (S depth)
      else if decide (b = ")"%char) then
        _ ← bump 1;
        match Nat.pred depth with O => mret tt | S d => extglob_loop start n' (S d) end
      else if decide (b = bslash) then _ ← consume_backslash; extglob_loop start n' depth
      else _ ← bump 1; extglob_loop start n' depth
  end.

Definition consume_extglob : lx unit :=
  s ← get; _ ← bump 2; extglob_loop (pos s) (left_from (pos s)) 1.

Definition consume_word_dollar : lx unit :=
  s ← get; c1 ← peek_ahead 1; c2 ← peek_ahead 2;
  if decide (c1 = Some dquote /\ c2 <> Some "("%char)
  then _ ← bump 1; consume_double_quoted (scan_fuel (pos s))
  else consume_dollar (scan_fuel (pos s)).

(** [self.source[self.pos]] is the byte [read_word] just peeked at. *)
Definition consume_word_plain (cur : byte) : lx unit :=
  c1 ← peek_ahead 1;
  if decide (cur ∈ #"?*+@!" /\ c1 = Some "("%char) then consume_extglob else bump 1.

Definition read_word_part (next : byte) : lx unit :=
  s ← get;
  if decide (next = squote) then consume_single_quoted
  else if decide (next = dquote) then consume_double_quoted (scan_fuel (pos s))
  else if decide (next = btick) then consume_backtick
  else if decide (next = bslash) then consume_backslash
  else if decide (next = "$"%char) then consume_word_dollar
  else consume_word_plain next.

Fixpoint read_word_loop (n : nat) : lx unit :=
  match n with
  | O => mret tt
  | S n' =>
      c ← peek;
      match c with
      | None => mret tt
      | Some next => if is_word_break next then mret tt else _ ← read_word_part next; read_word_loop n'
      end
  end.

Definition make_word_token (start stop : nat) : lx Token :=
  word ← lift_res (str_slice source start stop);
  let is_plain := forallb (fun b => negb (bool_decide (b ∈ [squote; dquote; bslash; "$"%char]))) word in
  let k := default (TWord (is_plain && is_reserved_word word)) (plain_word_token_kind word is_plain) in
  mret {| kind := k; token_span := span_from start stop |}.

Definition read_word : lx Token :=
  s ← get; _ ← read_word_loop (left_from (pos s)); s' ← get; make_word_token (pos s) (pos s').

Definition amp_token : lx Token :=
  c1 ← peek_ahead 1; c2 ← peek_ahead 2;
  if decide (c1 = Some "&"%char) then double_op AndAnd
  else if decide (c1 = Some ">"%char /\ c2 = Some ">"%char) then triple_op AmpGreaterGreater
  else if decide (c1 = Some ">"%char) then double_op AmpGreater
  else single_op Amp.

Definition pipe_token : lx Token :=
  c1 ← peek_ahead 1;
  if decide (c1 = Some "|"%char) then double_op OrOr
  else if decide (c1 = Some "&"%char) then double_op PipeAmp
  else single_op Pipe.

Fixpoint process_subst_loop (start n depth : nat) : lx unit :=
  c ← peek;
  match c, n with
  | None, _ | _, O => fail_from start #"unterminated process substitution"
  | Some b, S n' =>
      s ← get;
      if decide (b = "("%char) then _ ← bump 1; process_subst_loop start n' (S depth)
      else if decide (b = ")"%char) then
        _ ← bump 1;
        match Nat.pred depth with O => mret tt | S d => process_subst_loop start n' (S d) end
      else if decide (b = squote) then _ ← consume_single_quoted; process_subst_loop start n' depth
      else if decide (b = dquote) then _ ← consume_double_quoted (scan_fuel (pos s)); process_subst_loop start n' depth
      else if decide (b = bslash) then _ ← consume_backslash; process_subst_loop start n' depth
      else if decide (b = "$"%char) then _ ← consume_dollar (scan_fuel (pos s)); process_subst_loop start n' depth
      else _ ← bump 1; process_subst_loop start n' depth
  end.

Definition consume_process_subst : lx Token :=
  s ← get; _ ← bump 2; _ ← process_subst_loop (pos s) (left_from (pos s)) 1; s' ← get;
  mret {| kind := TWord false; token_span := span_from (pos s) (pos s') |}.

Definition greater_token : lx Token :=
  c1 ← peek_ahead 1;
  if decide (c1 = Some "("%char) then consume_process_subst
  else if decide (c1 = Some ">"%char) then double_op GreaterGreater
  else if decide (c1 = Some "|"%char) then double_op GreaterPipe
  else single_op Greater.

Definition less_token : lx Token :=
  c1 ← peek_ahead 1; c2 ← peek_ahead 2;
  if decide (c1 = Some "("%char) then consume_process_subst
  else if decide (c1 = Some "<"%char /\ c2 = Some "<"%char) then triple_op LessLessLess
  else if decide (c1 = Some "<"%char /\ c2 = Some "-"%char) then triple_op LessLessDash
  else if decide (c1 = Some "<"%char) then double_op LessLess
  else if decide (c1 = Some ">"%char) then double_op LessGreater
  else single_op Less.

(** [recur] is the call of [next_token] that follows a [#]. *)
Definition next_normal_token (recur : lx Token) : lx Token :=
  _ ← skip_blanks;
  c ← peek; s ← get;
  match c with
  | None => mret {| kind := Eof; token_span := span_from (pos s) (pos s) |}
  | Some b =>
      if decide (b = newline) then single_op Newline
      else if decide (b = ";"%char) then single_op Semi
      else if decide (b = "("%char) then single_op LParen
      else if decide (b = ")"%char) then single_op RParen
      else if decide (b = "#"%char) then _ ← modify (set_lexer_mode Comment); recur
      else if decide (b = "&"%char) then amp_token
      else if decide (b = "|"%char) then pipe_token
      else if decide (b = ">"%char) then greater_token
      else if decide (b = "<"%char) then less_token
      else read_word
  end.

(** [next_token] calls [next_normal_token] in the mode [Normal], which calls
    back once per comment. *)
Fixpoint next_token_loop (n : nat) : lx Token :=
  s0 ← get;
  _ ← match mode s0 with
      | Comment => _ ← consume_comment; modify (set_lexer_mode Normal)
      | Normal => mret tt
      end;
  next_normal_token (match n with O => no_fuel | S n' => next_token_loop n' end).

Definition next_token : lx Token := next_token_loop 1.

Fixpoint tokenize_loop (n : nat) : lx (list Token) :=
  match n with
  | O => no_fuel
  | S n' =>
      tok ← next_token;
      if decide (kind tok = Eof) then mret []
      else toks ← tokenize_loop n'; mret (tok :: toks)
  end.

Definition Lexer_new : Lexer := {| pos := 0; mode := Normal; subst_depth := 0 |}.

Definition tokenize_all : lx (list Token) := s ← get; tokenize_loop (S (S (left_from (pos s)))).

Definition tokenize : res LexerError (list Token) := snd (tokenize_all Lexer_new).
End lexer.

(** * The digits of a printed integer

    What the tokenizers and the brace expansion rely on of [to_string]: digits
    only, and no leading zero. *)

Lemma print_digits_digits fuel n tl : 0 <= n -> forallb is_ascii_digit tl = true -> forallb is_ascii_digit (print_digits fuel n tl) = true.
Proof.
  assert (Hd : forall d, 0 <= d < 10 -> is_ascii_digit (digit_char d) = true).
  { intros d Hd. assert (d ∈ [0;1;2;3;4;5;6;7;8;9]) as Hin by (rewrite list_elem_of_In; cbn; lia).
    rewrite list_elem_of_In in Hin. cbn in Hin. repeat destruct Hin as [<-|Hin]; done. }
  revert n tl. induction fuel as [|f IH]; intros n tl Hn Htl; cbn [print_digits]; [done|].
  destruct (Z.ltb_spec n 10); [cbn [forallb]; by rewrite Hd by lia|]. apply IH; [apply Z.div_pos; lia|].
  cbn [forallb]. rewrite Hd; [done|]. apply Z.mod_pos_bound. lia.
Qed.

Lemma print_digits_head_nonzero fuel n tl : 0 < n < 2 ^ Z.of_nat (S fuel) -> head (print_digits (S fuel) n tl) <> Some "0"%char.
Proof.
  revert n tl. induction fuel as [|f IH]; intros n tl Hn.
  - assert (n = 1) as -> by (simpl in Hn; lia). done.
  - change (print_digits (S (S f)) n tl) with
      (if n <? 10 then digit_char n :: tl else print_digits (S f) (n / 10) (digit_char (n mod 10) :: tl)).
    destruct (Z.ltb_spec n 10).
    + assert (n ∈ [1;2;3;4;5;6;7;8;9]) as Hin by (rewrite list_elem_of_In; cbn; lia).
      rewrite list_elem_of_In in Hin. cbn in Hin. repeat destruct Hin as [<-|Hin]; done.
    + apply IH. rewrite (Nat2Z.inj_succ (S f)), Z.pow_succ_r in Hn by lia.
      pose proof (Z.div_le_lower_bound n 10 1 ltac:(lia) ltac:(lia)). split; [lia|]. apply Z.div_lt_upper_bound; lia.
Qed.

Lemma number_text n : 0 <= n -> exists c s, Z_to_string n = c :: s /\ is_ascii_digit c = true /\ forallb is_ascii_digit s = true /\
  (c = "0"%char -> n = 0 /\ s = []).
Proof.
  intros Hn. unfold Z_to_string. rewrite (proj2 (Z.ltb_ge _ _)) by lia.
  pose proof (log2_fuel n Hn) as Hf. destruct (print_digits_head (Z.to_nat (Z.log2 n)) n [] Hf) as (c & s & E & _).
  assert (Hd := print_digits_digits (S (Z.to_nat (Z.log2 n))) n [] Hn eq_refl). rewrite E in Hd. cbn [forallb] in Hd.
  apply andb_true_iff in Hd as [Hc Hs]. rewrite E. exists c, s. split_and!; [done..|]. intros ->.
  destruct (decide (n = 0)) as [->|Hz]; [cbn in E; by injection E|].
  exfalso. apply (print_digits_head_nonzero (Z.to_nat (Z.log2 n)) n []); [lia|]. by rewrite E.
Qed.

(** The text of an integer: an optional sign, a digit and more digits; a leading
    zero only for zero. *)
Lemma integer_text n : exists sign c s, Z_to_string n = sign ++ c :: s /\ (sign = [] \/ sign = #"-") /\
  is_ascii_digit c = true /\ forallb is_ascii_digit s = true /\ (sign = [] -> c = "0"%char -> s = []).
Proof.
  destruct (decide (0 <= n)) as [Hn|Hn].
  - destruct (number_text n Hn) as (c & s & -> & Hc & Hs & Hz). exists [], c, s. split_and!; [done|by left|done..|]. intros _ H0. by apply Hz.
  - assert (Hz : Z_to_string n = "-"%char :: Z_to_string (- n)).
    { unfold Z_to_string. rewrite (proj2 (Z.ltb_lt n 0)), (proj2 (Z.ltb_ge (- n) 0)) by lia. done. }
    destruct (number_text (- n)) as (c & s & Ht & Hc & Hs & _); [lia|]. exists ( #"-"), c, s.
    rewrite Hz, Ht. split_and!; [done|by right|done..].
Qed.

(** No byte other than digits and a sign. *)
Lemma integer_bytes n c : c ∈ Z_to_string n -> is_ascii_digit c = true \/ c = "-"%char.
Proof.
  destruct (integer_text n) as (sign & d & s & -> & Hsign & Hd & Hs & _). rewrite elem_of_app, elem_of_cons.
  intros [Hc|[->|Hc]].
  - destruct Hsign as [-> | ->]; [by apply elem_of_nil in Hc|]. right. by apply list_elem_of_singleton in Hc.
  - by left.
  - left. rewrite forallb_forall in Hs. by apply Hs, list_elem_of_In.
Qed.
