(* ===== verification/LexerProps.v ===== *)
(** * Lexer: progress and tiling

    Every scanner stays within the source, restores the nesting depth, moves
    forward and never exhausts its fuel.  The tokens of a source tile it: between
    them there are only blanks, line continuations and comments, so no byte is
    lost or read twice. *)

From S2P Require Import Prelude Strings Ast Lexer.

(** What the lexer relies on of a Rust [str]: no UTF-8 continuation byte starts
    the string or follows an ASCII byte. *)
Definition utf8_shape (s : str) : Prop :=
  (forall c, s !! 0%nat = Some c -> is_continuation c = false) /\
  forall i a b, s !! i = Some a -> byte_val a < 128 -> s !! S i = Some b -> is_continuation b = false.

Section props.
Context (source : list Ascii.ascii) (Hutf8 : utf8_shape source).

Abbreviation lx := (comp Lexer LexerError).

Definition boundary (p : nat) : Prop := is_char_boundary source p = true.

Lemma boundary_end : boundary (length source).
Proof. unfold boundary, is_char_boundary. case_split; [done|]. by rewrite Nat.eqb_refl. Qed.

(** A position at an ASCII byte, and one behind an ASCII byte. *)
Lemma boundary_at p b : source !! p = Some b -> byte_val b < 128 -> boundary p.
Proof.
  intros Hp Hb. unfold boundary, is_char_boundary. do 2 (case_split; [done|]). rewrite Hp.
  unfold is_continuation. by rewrite (proj2 (Z.leb_gt _ _)).
Qed.

Lemma boundary_after p b : source !! p = Some b -> byte_val b < 128 -> boundary (S p).
Proof.
  intros Hp Hb. unfold boundary, is_char_boundary. do 2 (case_split; [done|]).
  destruct (source !! S p) as [c|] eqn:Hc; [by rewrite (proj2 Hutf8 p b c)|].
  apply lookup_ge_None in Hc. apply lookup_lt_Some in Hp. apply Nat.eqb_neq in Heqb1. lia.
Qed.

(** [moves n m s]: from [s], [m] stays within the source, restores mode and
    depth, advances by at least [n] when it succeeds and stops at a character
    boundary when it fails; it does not panic. *)
Definition moves {A} (n : nat) (m : lx A) (s : Lexer) : Prop :=
  let '(s', r) := m s in
  (pos s <= pos s' <= length source)%nat /\ mode s' = mode s /\ subst_depth s' = subst_depth s /\
  match r with
  | Ok _ => (pos s + n <= pos s')%nat
  | Err _ => boundary (pos s')
  | Panic _ => False
  end.

Lemma moves_ret {A} (a : A) s : (pos s <= length source)%nat -> moves 0 (mret a : lx A) s.
Proof. intros. cbn. repeat split; lia. Qed.

Lemma moves_bind {A B} n k (m : lx A) (f : A -> lx B) s :
  moves n m s ->
  (forall s' a, (pos s + n <= pos s' <= length source)%nat -> subst_depth s' = subst_depth s -> mode s' = mode s ->
     moves k (f a) s') ->
  moves (n + k) (m ≫= f) s.
Proof.
  unfold moves. intros Hm Hf. unfold mbind, comp_bind. destruct (m s) as [s1 [a|e|w]].
  - destruct Hm as (Hp & Hmo & Hd & Hn). specialize (Hf s1 a ltac:(lia) Hd Hmo).
    destruct (f a s1) as [s2 r]. destruct Hf as (Hp2 & Hmo2 & Hd2 & Hr). rewrite Hmo2, Hd2.
    repeat split; [lia|lia|done|done|]. destruct r; [lia|done|done].
  - naive_solver.
  - naive_solver.
Qed.

Lemma moves_weaken {A} n k (m : lx A) s : (n <= k)%nat -> moves k m s -> moves n m s.
Proof. unfold moves. destruct (m s) as [s' [?|?|?]]; naive_solver lia. Qed.

Lemma moves_get {B} n (f : Lexer -> lx B) s : moves n (f s) s -> moves n (get ≫= f) s.
Proof. done. Qed.

Lemma moves_peek {B} n (f : option Ascii.ascii -> lx B) s :
  moves n (f (source !! pos s)) s -> moves n (peek source ≫= f) s.
Proof. done. Qed.

Lemma moves_peek_ahead {B} n o (f : option Ascii.ascii -> lx B) s :
  moves n (f (source !! (pos s + o)%nat)) s -> moves n (peek_ahead source o ≫= f) s.
Proof. done. Qed.

(** The reading operations on a state. *)
Lemma bind_peek {B} (f : option Ascii.ascii -> lx B) s : (peek source ≫= f) s = f (source !! pos s) s.
Proof. done. Qed.

Lemma bind_peek_ahead {B} o (f : option Ascii.ascii -> lx B) s : (peek_ahead source o ≫= f) s = f (source !! (pos s + o)%nat) s.
Proof. done. Qed.

Lemma bind_ok {A B} (m : lx A) (f : A -> lx B) s s' b :
  (m ≫= f) s = (s', Ok b) -> exists s1 a, m s = (s1, Ok a) /\ f a s1 = (s', Ok b).
Proof. unfold mbind, comp_bind. destruct (m s) as [s1 []]; naive_solver. Qed.

Lemma bind_get {B} (f : Lexer -> lx B) s : (get ≫= f) s = f s s.
Proof. done. Qed.

Lemma bind_bump {B} n (f : unit -> lx B) s : (bump n ≫= f) s = f tt (set_pos (pos s + n) s).
Proof. done. Qed.

Lemma moves_bump n s : (pos s + n <= length source)%nat -> moves n (bump n) s.
Proof. intros. cbn. repeat split; lia. Qed.

(** The same with the state after the step known exactly. *)
Lemma moves_bump_then {B} n k (f : unit -> lx B) s :
  (pos s + n <= length source)%nat -> moves k (f tt) (set_pos (pos s + n) s) -> moves (n + k) (bump n ≫= f) s.
Proof.
  intros Hn. unfold moves, bump, modify, mbind, comp_bind. cbn [fst snd].
  destruct (f tt _) as [s' []]; cbn; intros (? & ? & ? & ?); repeat split; lia || done.
Qed.

Lemma moves_fail {A} n start msg s :
  boundary (pos s) -> (pos s <= length source)%nat -> moves n (fail_from start msg : lx A) s.
Proof. intros. cbn. repeat split; lia || done. Qed.

(** At the end of the source. *)
Lemma moves_fail_end {A} n start msg s :
  source !! pos s = None -> (pos s <= length source)%nat -> moves n (fail_from start msg : lx A) s.
Proof.
  intros Hp%lookup_ge_None Hl. apply moves_fail; [|done].
  replace (pos s) with (length source) by lia. apply boundary_end.
Qed.

Lemma peek_lt s b : source !! pos s = Some b -> (pos s < length source)%nat.
Proof. apply lookup_lt_Some. Qed.

Lemma skip_while_moves ok n s : (pos s <= length source)%nat -> moves 0 (skip_while source ok n) s.
Proof.
  revert s. induction n as [|n IH]; intros s Hs; cbn [skip_while]; [by apply moves_ret|].
  apply moves_peek. destruct (source !! pos s) as [b|] eqn:Hb; [|by apply moves_ret].
  destruct (ok b); [|by apply moves_ret]. apply (moves_weaken _ (1 + 0)); [lia|].
  apply moves_bind; [apply moves_bump; apply lookup_lt_Some in Hb; lia|]. intros. apply IH. lia.
Qed.

Lemma identifier_moves s : (pos s <= length source)%nat -> moves 0 (consume_identifier source) s.
Proof. apply skip_while_moves. Qed.

Lemma backslash_moves s : (pos s < length source)%nat -> moves 1 (consume_backslash source) s.
Proof.
  intros Hs. apply (moves_bind 1 0); [apply moves_bump; lia|]. intros s' [] Hp _ _.
  apply moves_peek. destruct (source !! pos s') eqn:Hb; [|apply moves_ret; lia].
  apply (moves_weaken _ 1); [lia|]. apply moves_bump. apply lookup_lt_Some in Hb. lia.
Qed.

(** ** Automation for the scanning loops *)

Ltac at_byte H := let Hlt := fresh "Hlt" in pose proof (lookup_lt_Some _ _ _ H) as Hlt.

Ltac moves_step :=
  match goal with
  | |- moves _ (peek _ ≫= _) _ => apply moves_peek
  | |- moves _ (peek_ahead _ _ ≫= _) _ => apply moves_peek_ahead
  | |- moves _ (get ≫= _) _ => apply moves_get
  end.

Lemma single_quoted_loop_moves start n s :
  (pos s <= length source)%nat -> (length source - pos s <= n)%nat -> moves 0 (single_quoted_loop source start n) s.
Proof.
  revert s. induction n as [|n IH]; intros s Hs Hn; cbn [single_quoted_loop]; moves_step;
    destruct (source !! pos s) as [b|] eqn:Hb; try by apply moves_fail_end.
  - at_byte Hb. lia.
  - at_byte Hb. case_decide; apply (moves_weaken _ (1 + 0)); try lia.
    + apply (moves_weaken _ 1); [lia|]. apply moves_bump. lia.
    + apply moves_bind; [apply moves_bump; lia|]. intros. apply IH; lia.
Qed.

Lemma single_quoted_moves s : (pos s < length source)%nat -> moves 1 (consume_single_quoted source) s.
Proof.
  intros Hs. unfold consume_single_quoted. moves_step. apply (moves_bind 1 0); [apply moves_bump; lia|]. intros.
  apply single_quoted_loop_moves; unfold left_from; lia.
Qed.

Lemma backtick_loop_moves start n s :
  (pos s <= length source)%nat -> (length source - pos s <= n)%nat -> moves 0 (backtick_loop source start n) s.
Proof.
  revert s. induction n as [|n IH]; intros s Hs Hn; cbn [backtick_loop]; moves_step;
    destruct (source !! pos s) as [b|] eqn:Hb; try by apply moves_fail_end.
  - at_byte Hb. lia.
  - at_byte Hb. repeat case_decide; apply (moves_weaken _ (1 + 0)); try lia.
    + apply (moves_weaken _ 1); [lia|]. apply moves_bump. lia.
    + apply moves_bind; [by apply backslash_moves|]. intros. apply IH; lia.
    + apply moves_bind; [apply moves_bump; lia|]. intros. apply IH; lia.
Qed.

Lemma backtick_moves s : (pos s < length source)%nat -> moves 1 (consume_backtick source) s.
Proof.
  intros Hs. unfold consume_backtick. moves_step. apply (moves_bind 1 0); [apply moves_bump; lia|]. intros.
  apply backtick_loop_moves; unfold left_from; lia.
Qed.

(** ** The recursive scanners *)

Lemma enter_exit_moves n s (m : lx unit) (b : Ascii.ascii) :
  (pos s < length source)%nat -> source !! pos s = Some b -> byte_val b < 128 -> 0 <= subst_depth s ->
  (forall s', pos s' = S (pos s) -> mode s' = mode s -> 0 <= subst_depth s' -> moves n m s') ->
  moves (1 + n) (_ ← bump 1; _ ← enter_subst; finally exit_subst m) s.
Proof.
  intros Hs Hb Ha Hd Hm. set (s1 := set_pos (pos s + 1) s).
  assert (Hrun : (_ ← bump 1; _ ← enter_subst; finally exit_subst m) s
    = if MAX_LEX_DEPTH <=? subst_depth s
      then (s1, Err {| lex_message := #"maximum substitution nesting depth (" ++ Z_to_string MAX_LEX_DEPTH ++ #") exceeded";
                       lex_span := span_from (pos s1) (pos s1) |})
      else finally exit_subst m (set_subst_depth (subst_depth s1 + 1) s1)).
  { unfold enter_subst, bump, modify, mbind, comp_bind, get. cbn [fst snd].
    change (subst_depth (set_pos (pos s + 1) s)) with (subst_depth s). by destruct (MAX_LEX_DEPTH <=? subst_depth s). }
  unfold moves. rewrite Hrun. destruct (MAX_LEX_DEPTH <=? subst_depth s).
  - cbn. rewrite Nat.add_1_r. repeat split; try lia. by apply boundary_after with b.
  - unfold finally. set (s2 := set_subst_depth _ s1).
    specialize (Hm s2 ltac:(cbn; lia) eq_refl ltac:(cbn; lia)). unfold moves in Hm.
    destruct (m s2) as [s3 r]. destruct Hm as (Hp & Hmo & Hde & Hr). cbn in Hp, Hmo, Hde, Hr |- *.
    repeat split; [lia|lia|done| |].
    + rewrite Hde. unfold sat_sub. lia.
    + destruct r; [lia|done|done].
Qed.

(** The bounds on the fuel: a loop at a position with [k] bytes left needs
    [2 k + 2], the entry of a quote or a substitution [2 k + 1]. *)
Definition enough (rank fuel : nat) (s : Lexer) : Prop := (2 * (length source - pos s) + rank <= fuel)%nat.

Definition loop_ok (m : nat -> lx unit) (f : nat) : Prop := forall s,
  (pos s <= length source)%nat -> 0 <= subst_depth s -> enough 2 f s -> moves 0 (m f) s.

Definition entry_ok (m : nat -> lx unit) (f : nat) (c : Ascii.ascii) : Prop := forall s,
  source !! pos s = Some c -> 0 <= subst_depth s -> enough 1 f s -> moves 1 (m f) s.

Record scan_ok (f : nat) : Prop := {
  ok_double_quoted_loop start : loop_ok (fun f => double_quoted_loop source f start) f;
  ok_double_quoted : entry_ok (consume_double_quoted source) f dquote;
  ok_dollar : entry_ok (consume_dollar source) f "$"%char;
  ok_dollar_paren : entry_ok (consume_dollar_paren source) f "("%char;
  ok_command_subst start depth : loop_ok (fun f => command_subst_loop source f start depth) f;
  ok_arithmetic start p d : loop_ok (fun f => arithmetic_loop source f start p d) f;
  ok_brace_param start depth : loop_ok (fun f => brace_param_loop source f start depth) f;
}.

(** Side conditions of the recursive calls. *)
Ltac fuel := unfold enough in *; congruence || lia.

(** The call of a scanner on the byte at the cursor. *)
Ltac scanner IH :=
  first [by apply backslash_moves | by apply single_quoted_moves | by apply backtick_moves | apply moves_bump; lia
        | apply (ok_dollar _ IH); fuel | apply (ok_double_quoted _ IH); fuel].

(** One round of a loop: over at least one byte, then the loop again. *)
Ltac round IH loop :=
  apply (moves_weaken 0 (1 + 0)); [lia|]; apply moves_bind; [scanner IH|intros; apply loop; fuel].

Ltac last_step := apply (moves_weaken 0 1); [lia|]; apply moves_bump; lia.

Lemma scan_double_quoted_loop f start : scan_ok f -> loop_ok (fun f => double_quoted_loop source f start) (S f).
Proof.
  intros IH s Hs Hd He. cbn [double_quoted_loop]. moves_step.
  destruct (source !! pos s) as [b|] eqn:Hb; [|by apply moves_fail_end]. at_byte Hb.
  repeat case_decide; [last_step|subst; round IH (ok_double_quoted_loop _ IH)..|round IH (ok_double_quoted_loop _ IH)].
Qed.

Lemma scan_double_quoted f : scan_ok f -> entry_ok (consume_double_quoted source) (S f) dquote.
Proof.
  intros IH s Hb Hd He. at_byte Hb. cbn [consume_double_quoted]. moves_step.
  apply (moves_bind 1 0); [apply moves_bump; lia|]. intros. apply (ok_double_quoted_loop _ IH); fuel.
Qed.

Lemma scan_brace_param f start depth : scan_ok f -> loop_ok (fun f => brace_param_loop source f start depth) (S f).
Proof.
  intros IH s Hs Hd He. cbn [brace_param_loop]. moves_step.
  destruct (source !! pos s) as [b|] eqn:Hb; [|by apply moves_fail_end]. at_byte Hb.
  repeat case_decide; subst; try round IH (ok_brace_param _ IH).
  apply (moves_weaken 0 (1 + 0)); [lia|]. apply moves_bind; [apply moves_bump; lia|]. intros.
  destruct (Nat.pred depth); [by apply moves_ret; lia|apply (ok_brace_param _ IH); fuel].
Qed.

Lemma scan_command_subst f start depth : scan_ok f -> loop_ok (fun f => command_subst_loop source f start depth) (S f).
Proof.
  intros IH s Hs Hd He. cbn [command_subst_loop]. moves_step.
  destruct (source !! pos s) as [b|] eqn:Hb; [|by apply moves_fail_end]. at_byte Hb.
  repeat case_decide; subst; try round IH (ok_command_subst _ IH).
  apply (moves_weaken 0 (1 + 0)); [lia|]. apply moves_bind; [apply moves_bump; lia|]. intros.
  destruct (Nat.pred depth); [by apply moves_ret; lia|apply (ok_command_subst _ IH); fuel].
Qed.

Lemma close_paren_moves p d s : source !! pos s = Some ")"%char -> moves 1 (consume_arithmetic_close_paren source p d) s.
Proof.
  intros Hb. at_byte Hb. unfold consume_arithmetic_close_paren. destruct p.
  - moves_step. case_decide as Hc.
    + apply (moves_weaken 1 (2 + 0)); [lia|]. apply moves_bind; [apply moves_bump|intros; apply moves_ret; lia].
      apply lookup_lt_Some in Hc. lia.
    + apply (moves_weaken 1 (1 + 0)); [lia|]. apply moves_bind; [apply moves_bump; lia|intros; apply moves_ret; lia].
  - apply (moves_weaken 1 (1 + 0)); [lia|]. apply moves_bind; [apply moves_bump; lia|intros; apply moves_ret; lia].
Qed.

Lemma scan_arithmetic f start p d : scan_ok f -> loop_ok (fun f => arithmetic_loop source f start p d) (S f).
Proof.
  intros IH s Hs Hd He. cbn [arithmetic_loop]. moves_step.
  destruct (source !! pos s) as [b|] eqn:Hb; [|by apply moves_fail_end]. at_byte Hb.
  repeat case_decide; subst; try round IH (ok_arithmetic _ IH).
  - apply (moves_weaken 0 (1 + 0)); [lia|]. apply moves_bind; [apply moves_bump; lia|]. intros s' [] Hp Hd' _. moves_step.
    case_decide as Hc; [|apply (ok_arithmetic _ IH); fuel]. at_byte Hc.
    apply (moves_weaken 0 (1 + 0)); [lia|]. apply moves_bind; [apply moves_bump; lia|]. intros.
    apply (ok_arithmetic _ IH); fuel.
  - apply (moves_weaken 0 (1 + 0)); [lia|]. apply moves_bind; [by apply close_paren_moves|].
    intros s' [[p' d'] []] Hp Hd' _; [apply moves_ret; lia|apply (ok_arithmetic _ IH); fuel].
Qed.

Lemma scan_dollar_paren f : scan_ok f -> entry_ok (consume_dollar_paren source) (S f) "("%char.
Proof.
  intros IH s Hb Hd He. at_byte Hb. cbn [consume_dollar_paren].
  apply (enter_exit_moves 0 s _ "("%char); [done|done|done|done|]. intros s' Hp _ Hd'. moves_step.
  case_decide as Hc.
  - at_byte Hc. apply (moves_weaken 0 (1 + 0)); [lia|]. apply moves_bind; [apply moves_bump; lia|]. intros.
    moves_step. apply (ok_arithmetic _ IH); fuel.
  - moves_step. apply (ok_command_subst _ IH); fuel.
Qed.

Lemma scan_dollar f : scan_ok f -> entry_ok (consume_dollar source) (S f) "$"%char.
Proof.
  intros IH s Hb Hd He. at_byte Hb. cbn [consume_dollar].
  apply (moves_bind 1 0); [apply moves_bump; lia|]. intros s' [] Hp Hd' _. moves_step.
  destruct (source !! pos s') as [c|] eqn:Hc; [|apply moves_ret; lia]. at_byte Hc.
  repeat match goal with |- moves _ (if decide (c = ?d) then _ else _) _ => destruct (decide (c = d)) as [->|_] end.
  - apply (moves_weaken 0 1); [lia|]. by apply single_quoted_moves.
  - apply (moves_weaken 0 1); [lia|]. apply (ok_dollar_paren _ IH); fuel.
  - apply (moves_weaken 0 (1 + 0)); [lia|]. apply moves_bind; [apply moves_bump; lia|]. intros. moves_step.
    apply (ok_brace_param _ IH); fuel.
  - case_split; [by apply identifier_moves; lia|]. case_split; [last_step|apply moves_ret; lia].
Qed.

Lemma scanners_ok f : scan_ok f.
Proof.
  induction f as [|f IH].
  - constructor; repeat intro; unfold enough in *; lia.
  - constructor; intros; auto using scan_double_quoted_loop, scan_double_quoted, scan_dollar, scan_dollar_paren,
      scan_command_subst, scan_arithmetic, scan_brace_param.
Qed.

(** ** Words *)

Ltac first_byte := apply (moves_weaken 0 (1 + 0)); [lia|]; apply moves_bind; [apply moves_bump; lia|].

Lemma extglob_loop_moves start n depth s :
  (pos s <= length source)%nat -> (length source - pos s <= n)%nat -> moves 0 (extglob_loop source start n depth) s.
Proof.
  revert s depth. induction n as [|n IH]; intros s depth Hs Hn; cbn [extglob_loop]; moves_step;
    destruct (source !! pos s) as [b|] eqn:Hb; try by apply moves_fail_end.
  - at_byte Hb. lia.
  - at_byte Hb. repeat case_decide.
    + first_byte. intros. apply IH; lia.
    + first_byte. intros. destruct (Nat.pred depth); [apply moves_ret; lia|apply IH; lia].
    + apply (moves_weaken 0 (1 + 0)); [lia|]. apply moves_bind; [by apply backslash_moves|]. intros. apply IH; lia.
    + first_byte. intros. apply IH; lia.
Qed.

Lemma extglob_moves s : (S (pos s) < length source)%nat -> moves 1 (consume_extglob source) s.
Proof.
  intros Hs. unfold consume_extglob. moves_step. apply (moves_weaken 1 (2 + 0)); [lia|].
  apply moves_bind; [apply moves_bump; lia|]. intros. apply extglob_loop_moves; unfold left_from; lia.
Qed.

(** The entry of a scanner with the fuel its callers give it. *)
Lemma scan_fuel_enough s : enough 1 (scan_fuel source (pos s)) s.
Proof. unfold enough, scan_fuel, left_from. lia. Qed.

Lemma dollar_moves s : source !! pos s = Some "$"%char -> 0 <= subst_depth s ->
  moves 1 (consume_dollar source (scan_fuel source (pos s))) s.
Proof. intros. apply (ok_dollar _ (scanners_ok _)); auto using scan_fuel_enough. Qed.

Lemma double_quoted_moves s : source !! pos s = Some dquote -> 0 <= subst_depth s ->
  moves 1 (consume_double_quoted source (scan_fuel source (pos s))) s.
Proof. intros. apply (ok_double_quoted _ (scanners_ok _)); auto using scan_fuel_enough. Qed.

Lemma word_part_moves b s : source !! pos s = Some b -> 0 <= subst_depth s -> moves 1 (read_word_part source b) s.
Proof.
  intros Hb Hd. at_byte Hb. unfold read_word_part. moves_step.
  repeat match goal with |- moves _ (if decide (b = ?c) then _ else _) _ => destruct (decide (b = c)) as [->|_] end.
  - by apply single_quoted_moves.
  - by apply double_quoted_moves.
  - by apply backtick_moves.
  - by apply backslash_moves.
  - unfold consume_word_dollar. do 3 moves_step. case_decide as Hq; [|by apply dollar_moves].
    destruct Hq as [Hq _]. at_byte Hq. apply (moves_weaken 1 (1 + 1)); [lia|].
    apply moves_bump_then; [lia|]. apply (ok_double_quoted _ (scanners_ok _)); [done|done|].
    unfold enough, scan_fuel, left_from. cbn. lia.
  - unfold consume_word_plain. moves_step. case_decide as Hc; [|apply moves_bump; lia].
    destruct Hc as [_ Hc]. at_byte Hc. apply extglob_moves. lia.
Qed.

(** Where a word stops: at a word break or at the end of the source. *)
Definition word_stop (p : nat) : Prop := forall b, source !! p = Some b -> is_word_break b = true.

Lemma word_break_ascii b : is_word_break b = true -> byte_val b < 128.
Proof.
  unfold is_word_break. intros H%bool_decide_eq_true. rewrite list_elem_of_In in H.
  repeat destruct H as [<-|H]; done.
Qed.

Lemma word_stop_boundary p : (p <= length source)%nat -> word_stop p -> boundary p.
Proof.
  intros Hp Hw. destruct (source !! p) as [b|] eqn:Hb.
  - eapply boundary_at; [done|]. by apply word_break_ascii, Hw.
  - apply lookup_ge_None in Hb. replace p with (length source) by lia. apply boundary_end.
Qed.

Lemma read_word_loop_moves n s :
  (pos s <= length source)%nat -> 0 <= subst_depth s -> moves 0 (read_word_loop source n) s.
Proof.
  revert s. induction n as [|n IH]; intros s Hs Hd; cbn [read_word_loop]; [by apply moves_ret|]. moves_step.
  destruct (source !! pos s) as [b|] eqn:Hb; [|by apply moves_ret]. destruct (is_word_break b); [by apply moves_ret|].
  apply (moves_weaken 0 (1 + 0)); [lia|]. apply moves_bind; [by apply word_part_moves|]. intros. apply IH; [lia|congruence].
Qed.

(** With enough rounds the loop ends where a word stops. *)
Lemma read_word_loop_stop n s s' : (left_from source (pos s) <= n)%nat -> 0 <= subst_depth s ->
  (pos s <= length source)%nat ->
  read_word_loop source n s = (s', Ok tt) -> word_stop (pos s').
Proof.
  unfold left_from. revert s. induction n as [|n IH]; intros s Hn Hd Hs; cbn [read_word_loop].
  - intros [= <-]. intros b Hb%lookup_lt_Some. lia.
  - rewrite bind_peek.
    destruct (source !! pos s) as [b|] eqn:Hb; [|intros H b'; injection H as <-; congruence].
    destruct (is_word_break b) eqn:Hbr; [intros H b'; injection H as <-; congruence|].
    pose proof (word_part_moves b s Hb Hd) as Hm. unfold moves in Hm. unfold mbind, comp_bind.
    destruct (read_word_part source b s) as [s1 []]; [|done..]. apply IH; [lia|intuition congruence|lia].
Qed.

(** ** Tokens *)

(** The text of the operators. *)
Definition op_text (k : TokenKind) : option str :=
  match k with
  | TWord _ => None
  | Semi => Some #";" | Newline => Some [newline] | Pipe => Some #"|" | AndAnd => Some #"&&" | OrOr => Some #"||"
  | Amp => Some #"&" | PipeAmp => Some #"|&" | Less => Some #"<" | Greater => Some #">" | GreaterGreater => Some #">>"
  | GreaterPipe => Some #">|" | LessLess => Some #"<<" | LessLessDash => Some #"<<-" | LessLessLess => Some #"<<<"
  | LessGreater => Some #"<>" | AmpGreater => Some #"&>" | AmpGreaterGreater => Some #"&>>"
  | LParen => Some #"(" | RParen => Some #")" | DblLBracket => Some #"[[" | DblRBracket => Some #"]]" | Eof => Some []
  end.

(** [k] may be the kind of a token with this text. *)
Definition spelled (k : TokenKind) (txt : str) : Prop :=
  match k with
  | TWord reserved => txt <> [] /\ (reserved = true -> txt ∈ RESERVED_WORDS)
  | _ => op_text k = Some txt
  end.

(** The outcome of reading a token that starts at [a]. *)
Definition scans (a : nat) (s : Lexer) (out : Lexer * res LexerError Token) : Prop :=
  let '(s', r) := out in
  (a <= pos s' <= length source)%nat /\ mode s' = Normal /\ subst_depth s' = subst_depth s /\ boundary (pos s') /\
  match r with
  | Ok t => (a < pos s')%nat /\ token_span t = span_from a (pos s') /\ spelled (kind t) (slice source a (pos s'))
  | Err _ => True
  | Panic _ => False
  end.

Lemma slice_step {A} (l : list A) a b x : l !! a = Some x -> (a < b)%nat -> slice l a b = x :: slice l (S a) b.
Proof.
  intros Hx Hab. unfold slice. rewrite (drop_S l x a Hx). by replace (b - a)%nat with (S (b - S a)) by lia.
Qed.

Lemma slice_empty {A} (l : list A) a : slice l a a = [].
Proof. unfold slice. by rewrite Nat.sub_diag. Qed.

Lemma op_token_scans w k s b : mode s = Normal -> op_text k = Some (slice source (pos s) (pos s + w)) ->
  source !! (pos s + w - 1)%nat = Some b -> byte_val b < 128 -> (0 < w)%nat ->
  scans (pos s) s (op_token w k s).
Proof.
  intros Hm Hk Hb Ha Hw. at_byte Hb.
  assert (Hp : (pos s + w = S (pos s + w - 1))%nat) by lia. unfold op_token. rewrite bind_get, bind_bump. cbn.
  split; [lia|]. do 2 (split; [done|]). split; [|split; [lia|split; [done|]]].
  - rewrite Hp. by eapply boundary_after.
  - destruct k; done.
Qed.

Lemma single_op_scans k s b : mode s = Normal -> source !! pos s = Some b -> byte_val b < 128 ->
  op_text k = Some [b] -> scans (pos s) s (single_op k s).
Proof.
  intros Hm Hb Ha Hk. apply (op_token_scans 1 k s b); [done| |by rewrite Nat.add_sub|done|lia].
  rewrite Hk. f_equal. rewrite (slice_step _ _ _ b Hb) by lia. by rewrite Nat.add_1_r, slice_empty.
Qed.

Lemma double_op_scans k s b c : mode s = Normal -> source !! pos s = Some b -> source !! (pos s + 1)%nat = Some c ->
  byte_val c < 128 -> op_text k = Some [b; c] -> scans (pos s) s (double_op k s).
Proof.
  intros Hm Hb Hc Ha Hk. apply (op_token_scans 2 k s c); [done| |by replace (pos s + 2 - 1)%nat with (pos s + 1)%nat by lia|done|lia].
  rewrite Hk. f_equal. rewrite Nat.add_comm in Hc. cbn in Hc.
  rewrite (slice_step _ _ _ b Hb), (slice_step _ _ _ c Hc) by lia.
  by replace (S (S (pos s))) with (pos s + 2)%nat by lia; rewrite slice_empty.
Qed.

Lemma triple_op_scans k s b c d : mode s = Normal -> source !! pos s = Some b -> source !! (pos s + 1)%nat = Some c ->
  source !! (pos s + 2)%nat = Some d -> byte_val d < 128 -> op_text k = Some [b; c; d] -> scans (pos s) s (triple_op k s).
Proof.
  intros Hm Hb Hc Hd Ha Hk. apply (op_token_scans 3 k s d); [done| |by replace (pos s + 3 - 1)%nat with (pos s + 2)%nat by lia|done|lia].
  rewrite Hk. f_equal. rewrite Nat.add_comm in Hc, Hd. cbn in Hc, Hd.
  rewrite (slice_step _ _ _ b Hb), (slice_step _ _ _ c Hc), (slice_step _ _ _ d Hd) by lia.
  by replace (S (S (S (pos s)))) with (pos s + 3)%nat by lia; rewrite slice_empty.
Qed.

(** From [moves] to the outcome of a token. *)
Lemma moves_scans n (m : lx unit) (k : lx Token) s :
  mode s = Normal -> moves n m s ->
  (forall s', m s = (s', Ok tt) -> (pos s + n <= pos s' <= length source)%nat -> mode s' = Normal ->
     subst_depth s' = subst_depth s -> scans (pos s) s (k s')) ->
  scans (pos s) s ((_ ← m; k) s).
Proof.
  unfold moves. intros Hm Hmo Hk. unfold mbind, comp_bind. destruct (m s) as [s1 [[]|e|w]].
  - apply Hk; [done|lia|intuition congruence|tauto].
  - cbn. intuition congruence.
  - tauto.
Qed.

Lemma make_word_token_scans a s : mode s = Normal -> (a < pos s <= length source)%nat -> boundary a -> boundary (pos s) ->
  scans a s (make_word_token source a (pos s) s).
Proof.
  intros Hm Hp Ha Hb. unfold make_word_token, str_slice, lift_res, mbind, comp_bind.
  rewrite (proj2 (Nat.leb_le _ _)) by lia. rewrite Ha, Hb. cbn [andb].
  assert (Hne : slice source a (pos s) <> []).
  { intros He. apply (f_equal length) in He. rewrite slice_length in He by lia. cbn in He. lia. }
  split; [lia|]. split; [done|]. do 2 (split; [done|]). split; [lia|]. split; [done|]. cbn [kind].
  destruct (forallb _ _); cbn [plain_word_token_kind negb andb]; [|by cbn].
  unfold plain_word_token_kind. cbn [negb]. case_decide as H1; [exact (f_equal Some (eq_sym H1))|].
  case_decide as H2; [exact (f_equal Some (eq_sym H2))|].
  split; [done|]. unfold is_reserved_word. apply bool_decide_eq_true_1.
Qed.

Lemma read_word_scans s b : mode s = Normal -> 0 <= subst_depth s -> boundary (pos s) ->
  source !! pos s = Some b -> is_word_break b = false -> scans (pos s) s (read_word source s).
Proof.
  intros Hm Hd Hbd Hb Hbr. at_byte Hb. unfold read_word. rewrite bind_get.
  apply (moves_scans 0); [done|apply read_word_loop_moves; lia|]. intros s' Hrun Hp Hm' Hd'. rewrite bind_get.
  assert (Hstop : word_stop (pos s')) by (by apply (read_word_loop_stop (left_from source (pos s)) s s'); [lia|done|lia|]).
  assert (pos s' <> pos s). { intros He. specialize (Hstop b). rewrite He in Hstop. specialize (Hstop Hb). congruence. }
  assert (Hbd' : boundary (pos s')) by (apply word_stop_boundary; [lia|done]).
  pose proof (make_word_token_scans (pos s) s' Hm' ltac:(lia) Hbd Hbd') as H1.
  unfold scans in *. destruct (make_word_token _ _ _ _) as [s2 r]. by rewrite Hd' in H1.
Qed.

Lemma process_subst_loop_moves start n depth s : (pos s <= length source)%nat -> (length source - pos s <= n)%nat ->
  0 <= subst_depth s -> moves 0 (process_subst_loop source start n depth) s.
Proof.
  revert s depth. induction n as [|n IH]; intros s depth Hs Hn Hd; cbn [process_subst_loop]; moves_step;
    destruct (source !! pos s) as [b|] eqn:Hb; try by apply moves_fail_end.
  - at_byte Hb. lia.
  - at_byte Hb. moves_step.
    repeat match goal with |- moves _ (if decide (b = ?d) then _ else _) _ => destruct (decide (b = d)) as [->|_] end;
    apply (moves_weaken 0 (1 + 0)); try lia; (apply moves_bind;
      [first [apply moves_bump; lia|by apply single_quoted_moves|by apply double_quoted_moves|by apply backslash_moves
             |by apply dollar_moves]|intros]); try (apply IH; [lia|lia|congruence]).
    destruct (Nat.pred depth); [apply moves_ret; lia|apply IH; [lia|lia|congruence]].
Qed.

Lemma process_subst_loop_close start n depth s s' :
  process_subst_loop source start n depth s = (s', Ok tt) -> exists p, pos s' = S p /\ source !! p = Some ")"%char.
Proof.
  revert s depth. induction n as [|n IH]; intros s depth; cbn [process_subst_loop]; rewrite bind_peek;
    destruct (source !! pos s) as [b|] eqn:Hb; try done. rewrite bind_get.
  destruct (decide (b = "("%char)); [rewrite bind_bump; apply IH|].
  destruct (decide (b = ")"%char)) as [->|_].
  { rewrite bind_bump. destruct (Nat.pred depth); [|apply IH]. intros H. injection H as <-. exists (pos s).
    cbn. split; [lia|done]. }
  repeat match goal with |- (if decide ?P then _ else _) _ = _ -> _ => destruct (decide P) end;
    intros (? & ? & _ & Hrun)%bind_ok; by apply IH in Hrun.
Qed.

Lemma process_subst_scans s b : mode s = Normal -> 0 <= subst_depth s -> source !! pos s = Some b ->
  source !! (pos s + 1)%nat = Some "("%char -> scans (pos s) s (consume_process_subst source s).
Proof.
  intros Hm Hd Hb Hc. at_byte Hc. unfold consume_process_subst. rewrite bind_get, bind_bump.
  pose proof (process_subst_loop_moves (pos s) (left_from source (pos s)) 1 (set_pos (pos s + 2) s)) as Hmo.
  specialize (Hmo ltac:(cbn; lia) ltac:(unfold left_from; cbn; lia) Hd). unfold moves in Hmo.
  unfold mbind at 1, comp_bind at 1. destruct (process_subst_loop _ _ _ _ _) as [s1 [[]|e|w]] eqn:Hrun; cbn in Hmo; [|cbn|tauto].
  - rewrite bind_get. destruct Hmo as (Hp & Hm' & Hd' & _). cbn. split; [lia|]. split; [congruence|]. split; [done|].
    apply process_subst_loop_close in Hrun as (p & Hp1 & Hpc). rewrite Hp1 in Hp |- *. split; [by eapply boundary_after|].
    split; [lia|]. split; [done|]. split; [|done]. rewrite (slice_step _ _ _ b Hb) by lia. done.
  - intuition (lia || congruence).
Qed.

(** A token read at a byte of the source. *)
Ltac op_scans := destruct_and?;
  first [eapply single_op_scans; [done|eassumption|done|done]
        |eapply double_op_scans; [done|eassumption|eassumption|done|done]
        |eapply triple_op_scans; [done|eassumption|eassumption|eassumption|done|done]].

Lemma amp_token_scans s : mode s = Normal -> source !! pos s = Some "&"%char -> scans (pos s) s (amp_token source s).
Proof. intros. unfold amp_token. rewrite !bind_peek_ahead. repeat case_decide; op_scans. Qed.

Lemma pipe_token_scans s : mode s = Normal -> source !! pos s = Some "|"%char -> scans (pos s) s (pipe_token source s).
Proof. intros. unfold pipe_token. rewrite !bind_peek_ahead. repeat case_decide; op_scans. Qed.

Lemma greater_token_scans s : mode s = Normal -> 0 <= subst_depth s -> source !! pos s = Some ">"%char ->
  scans (pos s) s (greater_token source s).
Proof.
  intros. unfold greater_token. rewrite !bind_peek_ahead. case_decide; [by eapply process_subst_scans|].
  repeat case_decide; op_scans.
Qed.

Lemma less_token_scans s : mode s = Normal -> 0 <= subst_depth s -> source !! pos s = Some "<"%char ->
  scans (pos s) s (less_token source s).
Proof.
  intros. unfold less_token. rewrite !bind_peek_ahead. case_decide; [by eapply process_subst_scans|].
  repeat case_decide; op_scans.
Qed.

(** ** Between the tokens *)

Definition is_blank (c : Ascii.ascii) : Prop := c = " "%char \/ c = tab.

(** The bytes from [p] to [q] are blanks, line continuations and comments; a
    comment extends to the end of its line. *)
Inductive gap : nat -> nat -> Prop :=
  | gap_nil p : gap p p
  | gap_blank p q c : source !! p = Some c -> is_blank c -> gap (S p) q -> gap p q
  | gap_continuation p q : source !! p = Some bslash -> source !! S p = Some newline -> gap (S (S p)) q -> gap p q
  | gap_continuation_crlf p q : source !! p = Some bslash -> source !! S p = Some carriage_return ->
      source !! S (S p) = Some newline -> gap (S (S (S p))) q -> gap p q
  | gap_comment p e q : source !! p = Some "#"%char -> (p <= e <= length source)%nat -> newline ∉ slice source p e ->
      (source !! e = Some newline \/ e = length source) -> gap e q -> gap p q.

Lemma gap_trans p q r : gap p q -> gap q r -> gap p r.
Proof. induction 1; eauto using gap. Qed.

Lemma gap_boundary p q : gap p q -> boundary p -> boundary q.
Proof.
  induction 1 as [|p q c Hp [-> | ->] _ IH|p q Hp Hp1 _ IH|p q Hp Hp1 Hp2 _ IH|p e q Hp Hle Hno He _ IH]; intros Hb; auto;
    apply IH; try by eapply boundary_after.
  destruct He as [He| ->]; [by eapply boundary_at|apply boundary_end].
Qed.

Lemma gap_le p q : gap p q -> (p <= length source)%nat -> (p <= q <= length source)%nat.
Proof.
  induction 1 as [|p q c Hp _ _ IH|p q Hp Hp1 _ IH|p q Hp Hp1 Hp2 _ IH|p e q Hp Hle Hno He _ IH]; [lia| | | |lia];
    repeat match goal with H : source !! _ = Some _ |- _ => apply lookup_lt_Some in H end; lia.
Qed.

Lemma skip_blanks_loop_gap n s : exists q, skip_blanks_loop source n s = (set_pos q s, Ok tt) /\ gap (pos s) q /\
  ((left_from source (pos s) <= n)%nat -> forall c, source !! q = Some c -> ~ is_blank c).
Proof.
  revert s. induction n as [|n IH]; intros s; cbn [skip_blanks_loop].
  - exists (pos s). repeat split; [by destruct s|constructor|]. unfold left_from. intros Hn c Hc%lookup_lt_Some. lia.
  - rewrite bind_peek, !bind_peek_ahead. unfold left_from in *.
    assert (Hnext : forall k, (0 < k)%nat -> (forall q, gap (pos s + k) q -> gap (pos s) q) ->
      exists q, (_ ← bump k; skip_blanks_loop source n) s = (set_pos q s, Ok tt) /\ gap (pos s) q /\
        ((length source - pos s <= S n)%nat -> forall c, source !! q = Some c -> ~ is_blank c)).
    { intros k Hk Hgap. rewrite bind_bump. destruct (IH (set_pos (pos s + k) s)) as (q & Hq & Hg & Hc).
      exists q. cbn in Hg, Hc. split; [by rewrite Hq|]. split; [by apply Hgap|]. intros. apply Hc; [lia|done]. }
    case_decide as H1; [apply Hnext; [lia|]; intros q; rewrite Nat.add_1_r;
      destruct H1 as [H1|H1]; apply (gap_blank _ _ _ H1); first [by left|by right]|].
    case_decide as H2; [apply Hnext; [lia|]; intros q; rewrite Nat.add_comm; rewrite Nat.add_comm in H2; destruct H2; by apply gap_continuation|].
    case_decide as H3; [apply Hnext; [lia|]; intros q; rewrite Nat.add_comm; rewrite !(Nat.add_comm (pos s)) in H3;
      destruct H3 as (? & ? & ?); by apply gap_continuation_crlf|].
    exists (pos s). repeat split; [by destruct s|constructor|]. intros _ c Hc [-> | ->]; tauto.
Qed.

Lemma skip_while_run ok n s : (pos s <= length source)%nat -> exists e, skip_while source ok n s = (set_pos e s, Ok tt) /\
  (pos s <= e <= length source)%nat /\ Forall (fun b => ok b = true) (slice source (pos s) e) /\
  ((left_from source (pos s) <= n)%nat -> forall b, source !! e = Some b -> ok b = false).
Proof.
  unfold left_from. revert s. induction n as [|n IH]; intros s Hs; cbn [skip_while].
  - exists (pos s). repeat split; [by destruct s|lia|lia|by rewrite slice_empty|]. intros Hn b Hb%lookup_lt_Some. lia.
  - rewrite bind_peek. destruct (source !! pos s) as [b|] eqn:Hb; [destruct (ok b) eqn:Hok|].
    + at_byte Hb. rewrite bind_bump. destruct (IH (set_pos (pos s + 1) s)) as (e & He & Hle & Hall & Hstop); [cbn; lia|].
      exists e. cbn in Hle, Hall, Hstop. repeat split; [by rewrite He|lia|lia| |intros; apply Hstop; [lia|done]].
      rewrite (slice_step _ _ _ b Hb) by lia. rewrite Nat.add_1_r in Hall. by constructor.
    + exists (pos s). repeat split; [by destruct s|lia|lia|by rewrite slice_empty|congruence].
    + exists (pos s). repeat split; [by destruct s|lia|lia|by rewrite slice_empty|congruence].
Qed.

(** The comment at the cursor is a gap that ends its line. *)
Lemma consume_comment_run s : source !! pos s = Some "#"%char -> exists e, consume_comment source s = (set_pos e s, Ok tt) /\
  gap (pos s) e /\ (pos s <= e <= length source)%nat /\ (source !! e = Some newline \/ e = length source).
Proof.
  intros Hc. at_byte Hc. unfold consume_comment. rewrite bind_get.
  destruct (skip_while_run (fun b => negb (bool_decide (b = newline))) (left_from source (pos s)) s) as (e & He & Hle & Hall & Hstop);
    [lia|]. exists e.
  assert (Hend : source !! e = Some newline \/ e = length source).
  { destruct (source !! e) as [b|] eqn:Hb.
    - left. specialize (Hstop ltac:(lia) b eq_refl). by apply negb_false_iff, bool_decide_eq_true in Hstop as ->.
    - right. apply lookup_ge_None in Hb. lia. }
  repeat split; [done| |lia|lia|done]. apply (gap_comment _ e); [done|lia| |done|constructor].
  intros Hin. rewrite Forall_forall in Hall. by specialize (Hall _ Hin).
Qed.

(** The dispatch of [next_token] on the byte behind the blanks. *)
Definition ready (s : Lexer) : Prop :=
  mode s = Normal /\ (pos s <= length source)%nat /\ 0 <= subst_depth s /\ boundary (pos s).

(** The token at the end of the source. *)
Definition eof_token : Token := {| kind := Eof; token_span := span_from (length source) (length source) |}.

(** The outcome of [next_token]: a gap, then a token or the end of the source. *)
Definition reads (s : Lexer) (out : Lexer * res LexerError Token) : Prop :=
  exists a, gap (pos s) a /\
    (scans a s out \/ a = length source /\ out = (set_lexer_mode Normal (set_pos a s), Ok eof_token)).

Lemma reads_gap s s1 out : gap (pos s) (pos s1) -> subst_depth s1 = subst_depth s -> reads s1 out -> reads s out.
Proof.
  intros Hg Hd (a & Ha & Hs). exists a. split; [by eapply gap_trans|]. unfold scans in *. destruct out as [s2 r].
  destruct Hs as [Hs|(-> & [= -> ->])]; [left|right].
  - by rewrite <-Hd.
  - split; [done|]. unfold set_lexer_mode, set_pos. cbn. by rewrite Hd.
Qed.

Lemma skip_blanks_run s : exists q, skip_blanks source s = (set_pos q s, Ok tt) /\ gap (pos s) q /\
  forall c, source !! q = Some c -> ~ is_blank c.
Proof.
  unfold skip_blanks. rewrite bind_get. destruct (skip_blanks_loop_gap (left_from source (pos s)) s) as (q & ? & ? & ?).
  exists q. auto.
Qed.

(** The bytes that [next_normal_token] does not dispatch on start a word. *)
Lemma not_break b : ~ is_blank b -> b <> newline -> b <> ";"%char -> b <> "("%char -> b <> ")"%char -> b <> "&"%char ->
  b <> "|"%char -> b <> ">"%char -> b <> "<"%char -> is_word_break b = false.
Proof.
  intros Hb. intros. apply bool_decide_eq_false. rewrite list_elem_of_In. intros H'.
  repeat destruct H' as [<-|H']; try congruence; destruct Hb; first [by left|by right].
Qed.

Lemma next_normal_token_reads recur s : ready s ->
  (forall s1, gap (pos s) (pos s1) -> ready s1 -> subst_depth s1 = subst_depth s -> source !! pos s1 = Some "#"%char ->
     reads s1 (recur (set_lexer_mode Comment s1))) ->
  reads s (next_normal_token source recur s).
Proof.
  intros (Hm & Hp & Hd & Hb) Hrec. unfold next_normal_token.
  destruct (skip_blanks_run s) as (q & Hrun & Hg & Hnb). unfold mbind at 1, comp_bind at 1. rewrite Hrun.
  pose proof (gap_boundary _ _ Hg Hb) as Hbq. pose proof (gap_le _ _ Hg Hp) as Hlq. apply (reads_gap s (set_pos q s)); [done..|].
  assert (Hr : ready (set_pos q s)) by (repeat split; done || (cbn; lia)).
  assert (Hq : pos (set_pos q s) = q) by done. assert (Hds : subst_depth (set_pos q s) = subst_depth s) by done.
  revert Hq Hds Hr. generalize (set_pos q s). clear Hrun. intros s1 <- Hds Hr. rewrite bind_peek, bind_get.
  destruct (source !! pos s1) as [b|] eqn:Hc.
  2:{ apply lookup_ge_None in Hc. exists (pos s1). split; [constructor|]. right. destruct Hr as (Hm1 & Hp1 & _).
      assert (pos s1 = length source) as He by lia. split; [done|]. unfold eof_token. rewrite <-He.
      destruct s1; cbn in *. by rewrite Hm1. }
  destruct (decide (b = "#"%char)) as [->|Hhash].
  { exact (Hrec s1 Hg Hr Hds Hc). }
  exists (pos s1). split; [constructor|]. left. destruct Hr as (Hm1 & Hp1 & Hd1 & Hb1).
  repeat match goal with |- scans _ _ ((if decide (b = ?d) then _ else _) _) => destruct (decide (b = d)) as [->|?] end;
    try done; try by eapply single_op_scans.
  - by apply amp_token_scans.
  - by apply pipe_token_scans.
  - by apply greater_token_scans.
  - by apply less_token_scans.
  - eapply read_word_scans; [done..|]. apply not_break; auto.
Qed.

Lemma gap_line_end e q : source !! e = Some newline \/ e = length source -> gap e q -> q = e.
Proof.
  intros He Hg. assert (Hc : forall c, source !! e = Some c -> c = newline).
  { intros c Hc. destruct He as [He| ->]; [congruence|]. apply lookup_lt_Some in Hc. lia. }
  destruct Hg as [|? ? ? H1 [-> | ->]|? ? H1|? ? H1|? ? ? H1]; [done|by apply Hc in H1..].
Qed.

(** ** [next_token] and [tokenize] *)

Lemma next_token_reads s : ready s -> reads s (next_token source s).
Proof.
  intros Hr. unfold next_token. cbn [next_token_loop]. rewrite bind_get. pose proof Hr as (Hm & Hp & Hd & Hb). rewrite Hm.
  apply next_normal_token_reads; [done|]. intros s1 Hg Hr1 Hd1 Hc. rewrite bind_get. cbn [mode set_lexer_mode].
  destruct (consume_comment_run (set_lexer_mode Comment s1)) as (e & He & Hge & Hle & Hend); [done|].
  unfold mbind at 1 2, comp_bind at 1 2. rewrite He. unfold modify. cbn [fst snd]. pose proof Hr1 as (Hm1 & Hp1 & Hd1' & Hb1).
  apply (reads_gap s1 (set_lexer_mode Normal (set_pos e s1))); [done|done|]. apply next_normal_token_reads.
  - split; [done|]. split; [cbn; lia|]. split; [done|]. by eapply gap_boundary.
  - intros s2 Hg2 _ _ Hc2. cbn in Hg2. apply gap_line_end in Hg2; [|done]. rewrite Hg2 in Hc2. destruct Hend as [Hend|Hend]; [rewrite Hend in Hc2; discriminate|].
    apply lookup_lt_Some in Hc2. lia.
Qed.

(** The tokens cut [p..q]: gaps alternate with tokens, and the text between the
    ends of a token's span is spelled as its kind says. *)
Inductive tiles : nat -> list Token -> nat -> Prop :=
  | tiles_end p q : gap p q -> tiles p [] q
  | tiles_token p a b q t ts : gap p a -> (a < b)%nat -> token_span t = {| span_start := Z.of_nat a; span_end := Z.of_nat b |} ->
      spelled (kind t) (slice source a b) -> tiles b ts q -> tiles p (t :: ts) q.

Lemma scans_not_eof a s s' t : scans a s (s', Ok t) -> kind t <> Eof.
Proof.
  intros (Hp & _ & _ & _ & Hlt & _ & Hsp) He. rewrite He in Hsp. cbn in Hsp.
  injection Hsp as Hsp. apply (f_equal length) in Hsp. rewrite slice_length in Hsp by lia. cbn in Hsp. lia.
Qed.

Lemma tokenize_loop_tiles n s : Z.of_nat (length source) < 2 ^ 32 -> ready s -> (length source - pos s < n)%nat ->
  match tokenize_loop source n s with
  | (s', Ok ts) => tiles (pos s) ts (length source)
  | (s', Err e) => (pos s <= pos s' <= length source)%nat
  | (_, Panic _) => False
  end.
Proof.
  intros Hlen. revert s. induction n as [|n IH]; intros s Hr Hn; [lia|]. cbn [tokenize_loop].
  pose proof Hr as (Hm & Hp & Hd & Hb). destruct (next_token_reads s Hr) as (a & Hg & Hs). unfold mbind, comp_bind.
  pose proof (gap_le _ _ Hg Hp) as Hla.
  destruct (next_token source s) as [s1 r] eqn:Hrun. destruct Hs as [Hs|[-> [= -> ->]]].
  2:{ rewrite decide_True by done. by apply tiles_end. }
  destruct r as [t|e|w]; [|unfold scans in Hs; lia|by destruct Hs as (_ & _ & _ & _ & [])].
  rewrite decide_False by by eapply scans_not_eof. destruct Hs as (Hp1 & Hm1 & Hd1 & Hb1 & Hlt & Hspan & Hsp).
  specialize (IH s1). destruct (tokenize_loop source n s1) as [s2 [ts|e|w]].
  - eapply tiles_token; [done|done| |done|apply IH; [split; [done|]; split; [lia|]; split; [lia|done]|lia]].
    rewrite Hspan. unfold span_from, as_u32. f_equal; apply Z.mod_small; lia.
  - assert (pos s1 <= pos s2 <= length source)%nat; [|lia]. apply IH; [|lia]. split; [done|]; split; [lia|]; split; [lia|done].
  - apply IH; [|lia]. split; [done|]; split; [lia|]; split; [lia|done].
Qed.
End props.

(** A decidable form of [utf8_shape]. *)
Fixpoint utf8_shapeb (prev_ascii : bool) (s : str) : bool :=
  match s with
  | [] => true
  | c :: s' => negb (prev_ascii && is_continuation c) && utf8_shapeb (byte_val c <? 128) s'
  end.

Lemma utf8_shapeb_correct s : utf8_shapeb true s = true -> utf8_shape s.
Proof.
  assert (Hpair : forall b s, utf8_shapeb b s = true -> forall i a c, s !! i = Some a -> byte_val a < 128 ->
    s !! S i = Some c -> is_continuation c = false).
  { intros b l. revert b. induction l as [|x l IH]; intros b Hb i a c Ha Hlt Hc; [done|].
    cbn [utf8_shapeb] in Hb. apply andb_true_iff in Hb as [_ Hb]. destruct i as [|i]; [|exact (IH _ Hb i a c Ha Hlt Hc)].
    injection Ha as ->. rewrite (proj2 (Z.ltb_lt _ _)) in Hb by done. destruct l as [|y l]; [done|]. injection Hc as ->.
    cbn [utf8_shapeb andb] in Hb. by apply andb_true_iff in Hb as [Hb%negb_true_iff _]. }
  intros Hs. split; [|exact (Hpair _ _ Hs)]. intros c Hc. destruct s as [|y s]; [done|]. injection Hc as ->.
  cbn [utf8_shapeb andb] in Hs. by apply andb_true_iff in Hs as [Hs%negb_true_iff _].
Qed.
