(* ===== verification/LexerSpec.v ===== *)
(** * Lexer: what [tokenize] returns

    The theorems about whole sources: the tokens tile the source, the words of a
    printed command line are read back, and substitutions nested beyond the limit
    are rejected. *)

From S2P Require Import Prelude Strings Ast Lexer LexerProps.

(** A source fits the [u32] spans. *)
Definition fits (source : str) : Prop := Z.of_nat (length source) < 2 ^ 32.

Lemma new_ready source : ready source Lexer_new.
Proof. repeat split; cbn; lia || done. Qed.

(** C11: [tokenize] on any UTF-8 source below 4 GiB returns: it does not index out
    of bounds, slice inside a character or run forever.  The tokens it returns cut
    the source: between two of them there are only blanks, line continuations and
    comments, every token is non-empty, and its text is what its kind says. *)
Theorem tokenize_tiles (source : str) : utf8_shape source -> fits source ->
  match tokenize source with
  | Ok ts => tiles source 0 ts (length source)
  | Err _ => True
  | Panic _ => False
  end.
Proof.
  intros Hu Hf. unfold tokenize, tokenize_all. rewrite bind_get.
  pose proof (tokenize_loop_tiles source Hu (S (S (left_from source 0))) Lexer_new Hf (new_ready source)) as H.
  cbn [pos Lexer_new] in *. specialize (H ltac:(unfold left_from; lia)).
  by destruct (tokenize_loop source _ Lexer_new) as [s' []].
Qed.

Definition demo_source : str := #"echo $(ls | wc) &&" ++ [newline] ++ #"# note" ++ [newline] ++ #"x='a b'".

Definition text_of (source : str) (t : Token) : str :=
  slice source (Z.to_nat (span_start (token_span t))) (Z.to_nat (span_end (token_span t))).

Lemma tokenize_tiles_witness :
  exists ts, tokenize demo_source = Ok ts /\ tiles demo_source 0 ts (length demo_source) /\
    map (text_of demo_source) ts = [ #"echo"; #"$(ls | wc)"; #"&&"; [newline]; [newline]; #"x='a b'"].
Proof.
  pose proof (tokenize_tiles demo_source (utf8_shapeb_correct demo_source eq_refl) ltac:(vm_compute; reflexivity)) as H.
  destruct (tokenize demo_source) as [ts|e|w] eqn:Ht; [|discriminate Ht|discriminate Ht].
  exists ts. split; [reflexivity|]. split; [exact H|]. vm_compute in Ht. injection Ht as <-. vm_compute. reflexivity.
Defined.

(** ** Words are read back *)

(** A byte of an unquoted word without expansions. *)
Definition plain_byte (b : byte) : bool :=
  negb (is_word_break b) && negb (bool_decide (b ∈ [squote; dquote; btick; bslash; "$"%char])).

Definition plain_word (w : str) : bool :=
  forallb plain_byte w && match w with [] => false | c :: _ => negb (bool_decide (c = "#"%char)) end.

Section plain.
Context (source : str).

Abbreviation lx := (comp Lexer LexerError).

Lemma plain_part_run s b : source !! pos s = Some b -> plain_byte b = true ->
  source !! (pos s + 1)%nat <> Some "("%char -> read_word_part source b s = (set_pos (pos s + 1) s, Ok tt).
Proof.
  unfold plain_byte. intros Hb Hp%andb_true_iff Hn. destruct Hp as [_ Hp%negb_true_iff%bool_decide_eq_false].
  unfold read_word_part. rewrite bind_get. rewrite !decide_False by (intros ->; apply Hp; by vm_compute; repeat constructor).
  unfold consume_word_plain. rewrite bind_peek_ahead. by rewrite decide_False by tauto.
Qed.

(** What may follow a word. *)
Definition ends_word (rest : str) : Prop := match rest with [] => True | c :: _ => is_word_break c = true /\ c <> "("%char end.

Lemma drop_lookup {A} (l : list A) p x r : drop p l = x :: r -> l !! p = Some x /\ drop (S p) l = r.
Proof.
  intros H. split; [|by rewrite <-(Nat.add_1_r p), <-drop_drop, H].
  by rewrite <-(Nat.add_0_r p), <-lookup_drop, H.
Qed.

Lemma plain_not_paren b : plain_byte b = true -> b <> "("%char.
Proof. by intros H ->. Qed.

Lemma plain_loop_run w rest n s : drop (pos s) source = w ++ rest -> forallb plain_byte w = true -> ends_word rest ->
  (length w <= n)%nat -> read_word_loop source n s = (set_pos (pos s + length w) s, Ok tt).
Proof.
  revert n s. induction w as [|b w IH]; intros n s Hd Hw Hr Hn.
  - cbn in Hd |- *. rewrite Nat.add_0_r. destruct n as [|n]; cbn [read_word_loop]; [by destruct s|].
    rewrite bind_peek. destruct rest as [|c rest].
    + rewrite (lookup_ge_None_2 source); [by destruct s|]. apply (f_equal length) in Hd. rewrite length_drop in Hd. cbn in Hd. lia.
    + apply drop_lookup in Hd as [-> _]. destruct Hr as [-> _]. by destruct s.
  - cbn [app forallb length] in *. apply andb_true_iff in Hw as [Hb Hw]. destruct n as [|n]; [lia|]. cbn [read_word_loop].
    apply drop_lookup in Hd as [Hp Hd]. rewrite bind_peek, Hp.
    pose proof (proj1 (proj1 (andb_true_iff _ _) Hb)) as Hnb. apply negb_true_iff in Hnb. rewrite Hnb.
    unfold mbind, comp_bind. rewrite plain_part_run; [|done..|].
    + rewrite IH; cbn [pos set_pos]; [|by rewrite Nat.add_1_r|done|done|lia]. by rewrite <-Nat.add_assoc.
    + rewrite Nat.add_1_r. intros Hc. destruct w as [|b' w]; cbn in Hd.
      * destruct rest as [|c rest]; [|apply drop_lookup in Hd as [Hd _]; destruct Hr; congruence].
        apply (f_equal length) in Hd. rewrite length_drop in Hd. apply lookup_lt_Some in Hc. cbn in Hd. lia.
      * apply drop_lookup in Hd as [Hd _]. cbn in Hw. apply andb_true_iff in Hw as [Hw _]. apply plain_not_paren in Hw. congruence.
Qed.

Definition word_token (a : nat) (w : str) : Token :=
  {| kind := default (TWord (is_reserved_word w)) (plain_word_token_kind w true); token_span := span_from a (a + length w) |}.

Lemma plain_no_blank b n s : source !! pos s = Some b -> plain_byte b = true -> skip_blanks_loop source n s = (s, Ok tt).
Proof.
  intros Hb Hp. destruct n as [|n]; [done|]. cbn [skip_blanks_loop]. rewrite bind_peek, !bind_peek_ahead, Hb.
  rewrite decide_False by (intros [[= ->]|[= ->]]; discriminate Hp).
  rewrite !decide_False by (intros [[= ->] _]; discriminate Hp). done.
Qed.

Lemma drop_length_lt {A} (l : list A) p x r : drop p l = x :: r -> (p < length l)%nat.
Proof. intros H%drop_lookup. eapply lookup_lt_Some, H. Qed.

(** One space at most is skipped. *)
Lemma plain_skip_blanks pre b r s : drop (pos s) source = pre ++ b :: r -> pre = [] \/ pre = #" " -> plain_byte b = true ->
  skip_blanks source s = (set_pos (pos s + length pre) s, Ok tt).
Proof.
  intros Hd [-> | ->] Hb; unfold skip_blanks; rewrite bind_get.
  - apply drop_lookup in Hd as [Hp _]. rewrite (plain_no_blank b) by done. cbn. rewrite Nat.add_0_r. by destruct s.
  - cbn [app] in Hd. pose proof (drop_length_lt _ _ _ _ Hd) as Hlt. apply drop_lookup in Hd as [Hp Hd].
    apply drop_lookup in Hd as [Hp1 _]. unfold left_from. destruct (length source - pos s)%nat as [|n] eqn:Hn; [lia|].
    cbn [skip_blanks_loop]. rewrite bind_peek, !bind_peek_ahead, Hp, decide_True by (by left). rewrite bind_bump.
    by rewrite (plain_no_blank b) by (cbn; rewrite ?Nat.add_1_r; done).
Qed.

Lemma plain_word_kind w : forallb plain_byte w = true ->
  forallb (fun b => negb (bool_decide (b ∈ [squote; dquote; bslash; "$"%char]))) w = true.
Proof.
  rewrite !forallb_forall. intros H x Hx. specialize (H x Hx). apply andb_true_iff in H as [_ H].
  apply negb_true_iff, bool_decide_eq_false in H. apply negb_true_iff, bool_decide_eq_false. intros Hin. apply H.
  rewrite list_elem_of_In in Hin |- *. cbn in Hin |- *. tauto.
Qed.

Context (Hutf8 : utf8_shape source).

Lemma plain_word_boundary w rest p : drop p source = w ++ rest -> w <> [] -> ends_word rest ->
  boundary source (p + length w) /\ (p + length w <= length source)%nat.
Proof.
  intros Hd Hw Hr. assert (Hle : (p + length w <= length source)%nat).
  { apply (f_equal length) in Hd. rewrite length_drop, length_app in Hd. destruct w; [done|cbn in *; lia]. }
  split; [|done]. apply word_stop_boundary; [done|]. intros b Hb.
  assert (Hdr : drop (p + length w) source = rest) by (by rewrite <-drop_drop, Hd, drop_app_length).
  destruct rest as [|c rest]; [|apply drop_lookup in Hdr as [? _]; destruct Hr; congruence].
  apply lookup_lt_Some in Hb. apply (f_equal length) in Hdr. rewrite length_drop in Hdr. cbn in Hdr. lia.
Qed.

Lemma plain_read_word w rest s : drop (pos s) source = w ++ rest -> forallb plain_byte w = true -> w <> [] -> ends_word rest ->
  boundary source (pos s) -> read_word source s = (set_pos (pos s + length w) s, Ok (word_token (pos s) w)).
Proof.
  intros Hd Hw Hne Hr Hb. unfold read_word. rewrite bind_get. unfold mbind at 1, comp_bind at 1.
  destruct (plain_word_boundary w rest (pos s)) as [Hb' Hle]; [done..|].
  rewrite (plain_loop_run w rest) by (done || (unfold left_from; lia)). rewrite bind_get. cbn [pos set_pos].
  unfold make_word_token, str_slice, lift_res, mbind, comp_bind. rewrite (proj2 (Nat.leb_le _ _)) by lia. rewrite Hb, Hb'.
  cbn [andb]. replace (slice source (pos s) (pos s + length w)) with w.
  - by rewrite plain_word_kind by done.
  - unfold slice. rewrite Hd. replace (pos s + length w - pos s)%nat with (length w) by lia. by rewrite take_app_length.
Qed.

(** A word after one space at most. *)
Lemma plain_next_token pre w rest s : drop (pos s) source = pre ++ w ++ rest -> pre = [] \/ pre = #" " ->
  plain_word w = true -> ends_word rest -> ready source s ->
  next_token source s = (set_pos (pos s + length pre + length w) s, Ok (word_token (pos s + length pre) w)).
Proof.
  intros Hd Hpre Hw Hr (Hm & Hp & Hdp & Hb). destruct w as [|b w]; [done|].
  apply andb_true_iff in Hw as [Hw Hh%negb_true_iff%bool_decide_eq_false].
  pose proof Hw as Hw'. cbn [forallb] in Hw. apply andb_true_iff in Hw as [Hpb Hw].
  unfold next_token. cbn [next_token_loop]. rewrite bind_get, Hm.
  unfold mbind at 1, comp_bind at 1. cbn [mret comp_ret]. unfold next_normal_token. unfold mbind at 1, comp_bind at 1.
  cbn [app] in Hd. rewrite (plain_skip_blanks pre b (w ++ rest)) by done.
  assert (Hd1 : drop (pos s + length pre) source = b :: w ++ rest) by (by rewrite <-drop_drop, Hd, drop_app_length).
  pose proof (drop_lookup _ _ _ _ Hd1) as [Hb1 _]. rewrite bind_peek, bind_get. cbn [pos set_pos]. rewrite Hb1.
  repeat (rewrite decide_False; [|intros ->; done]).
  rewrite (plain_read_word (b :: w) rest); [done|done|done|done|done|].
  apply (gap_boundary source Hutf8 (pos s)); [|done]. destruct Hpre as [-> | ->]; cbn; [rewrite Nat.add_0_r; constructor|].
  apply drop_lookup in Hd as [Hd _]. rewrite Nat.add_1_r. eapply gap_blank; [done|by left|constructor].
Qed.

(** The tokens of words with one space before each but the first. *)
Fixpoint word_tokens (a : nat) (ws : list str) : list Token :=
  match ws with
  | [] => []
  | w :: ws' => word_token a w :: word_tokens (a + length w + 1) ws'
  end.

Lemma eof_next_token s : drop (pos s) source = [] -> ready source s ->
  next_token source s = (s, Ok {| kind := Eof; token_span := span_from (pos s) (pos s) |}).
Proof.
  intros Hd (Hm & Hp & _). assert (Hlen : (length source <= pos s)%nat).
  { apply (f_equal length) in Hd. rewrite length_drop in Hd. cbn in Hd. lia. }
  unfold next_token. cbn [next_token_loop]. rewrite bind_get, Hm. unfold mbind at 1, comp_bind at 1. cbn [mret comp_ret].
  unfold next_normal_token, mbind at 1, comp_bind at 1, skip_blanks. rewrite bind_get. unfold left_from.
  replace (length source - pos s)%nat with 0%nat by lia. cbn [skip_blanks_loop mret comp_ret].
  by rewrite bind_peek, bind_get, (lookup_ge_None_2 _ _ Hlen).
Qed.

Lemma word_token_not_eof a w : kind (word_token a w) <> Eof.
Proof. unfold word_token, plain_word_token_kind. cbn [kind negb]. by repeat case_decide. Qed.

Definition spaced (ws : list str) : str := concat (map (cons " "%char) ws).

Lemma spaced_ends_word ws : ends_word (spaced ws).
Proof. by destruct ws. Qed.

Lemma spaced_length ws : (length ws <= length (spaced ws))%nat.
Proof. unfold spaced. induction ws as [|w ws IH]; cbn; [lia|]. rewrite length_app. lia. Qed.

Lemma ready_after p s : ready source s -> boundary source p -> (p <= length source)%nat -> ready source (set_pos p s).
Proof. by intros (? & ? & ? & ?). Qed.

Lemma tokenize_spaced ws n s : drop (pos s) source = spaced ws -> Forall (fun w => plain_word w = true) ws ->
  ready source s -> (length ws < n)%nat ->
  exists s', tokenize_loop source n s = (s', Ok (word_tokens (pos s + 1) ws)).
Proof.
  revert n s. induction ws as [|w ws IH]; intros n s Hd Hw Hr Hn; (destruct n as [|n]; [lia|]); cbn [tokenize_loop].
  - unfold mbind, comp_bind. rewrite eof_next_token by done. rewrite decide_True by done. by eexists.
  - inversion Hw as [|? ? Hw1 Hw2]; subst. change (spaced (w :: ws)) with (#" " ++ w ++ spaced ws) in Hd.
    assert (Hd1 : drop (pos s + 1) source = w ++ spaced ws) by (by rewrite <-drop_drop, Hd).
    destruct (plain_word_boundary w (spaced ws) (pos s + 1)) as [Hb Hle]; [done|by destruct w|apply spaced_ends_word|].
    unfold mbind, comp_bind. rewrite (plain_next_token #" " w (spaced ws)); [|done|by right|done|apply spaced_ends_word|done].
    rewrite decide_False by apply word_token_not_eof. cbn [length] in Hn. change (length #" ") with 1%nat.
    destruct (IH n (set_pos (pos s + 1 + length w) s)) as [s' Hs']; [|done|by apply ready_after|lia|].
    + cbn [pos set_pos]. by rewrite <-drop_drop, Hd1, drop_app_length.
    + rewrite Hs'. by eexists.
Qed.
End plain.

Lemma join_spaced w ws : join #" " (w :: ws) = w ++ spaced ws.
Proof.
  revert w. induction ws as [|v ws IH]; intros w; [by rewrite app_nil_r|]. by rewrite join_cons, IH.
Qed.

(** C16: a command line of unquoted words separated by single spaces is read back
    word by word: the tokens are the words in order, with their positions and
    the reserved ones marked. *)
Theorem tokenize_words (ws : list str) : Forall (fun w => plain_word w = true) ws ->
  utf8_shape (join #" " ws) -> tokenize (join #" " ws) = Ok (word_tokens 0 ws).
Proof.
  intros Hw Hu. destruct ws as [|w ws]; [done|]. unfold tokenize, tokenize_all. rewrite bind_get. cbn [pos Lexer_new].
  rewrite join_spaced in *. set (source := w ++ spaced ws) in *. inversion Hw as [|? ? Hw1 Hw2]; subst.
  destruct (plain_word_boundary source w (spaced ws) 0) as [Hb Hle]; [done|by destruct w|apply spaced_ends_word|].
  remember (S (left_from source 0)) as n eqn:Hn. cbn [tokenize_loop]. unfold mbind at 1, comp_bind at 1.
  rewrite (plain_next_token source Hu [] w (spaced ws) Lexer_new); [|done|by left|done|apply spaced_ends_word|apply new_ready].
  rewrite decide_False by apply word_token_not_eof. cbn [pos Lexer_new length Nat.add] in *.
  assert (Hlen : (length ws <= length source)%nat).
  { subst source. rewrite length_app. pose proof (spaced_length ws). lia. }
  destruct (tokenize_spaced source Hu ws n (set_pos (length w) Lexer_new)) as [s' Hs'].
  - cbn. apply drop_app_length.
  - done.
  - apply ready_after; [apply new_ready|done|done].
  - unfold left_from in Hn. lia.
  - unfold mbind, comp_bind. by rewrite Hs'.
Qed.

Lemma tokenize_words_witness :
  map kind (word_tokens 0 [ #"for"; #"x"; #"in"; #"a*"; #"[["; #"-n"; #"b#c" ]) =
    [TWord true; TWord false; TWord true; TWord false; DblLBracket; TWord false; TWord false] /\
  tokenize #"for x in a* [[ -n b#c" = Ok (word_tokens 0 [ #"for"; #"x"; #"in"; #"a*"; #"[["; #"-n"; #"b#c" ]).
Proof.
  split; [reflexivity|]. apply (tokenize_words [ #"for"; #"x"; #"in"; #"a*"; #"[["; #"-n"; #"b#c" ]).
  - repeat constructor.
  - apply utf8_shapeb_correct. reflexivity.
Defined.

(** ** The nesting limit *)

Fixpoint opened (n : nat) (rest : str) : str :=
  match n with O => rest | S n' => "$"%char :: "("%char :: opened n' rest end.

Definition depth_message : str := #"maximum substitution nesting depth (" ++ Z_to_string MAX_LEX_DEPTH ++ #") exceeded".

Definition depth_error {A} (out : Lexer * res LexerError A) : Prop :=
  exists s' e, out = (s', Err e) /\ lex_message e = depth_message.

Lemma depth_error_bind {A B} (m : comp Lexer LexerError A) (f : A -> comp Lexer LexerError B) s :
  depth_error (m s) -> depth_error ((m ≫= f) s).
Proof. intros (s' & e & Hm & He). exists s', e. unfold mbind, comp_bind. by rewrite Hm. Qed.

Lemma depth_error_finally {A} g (m : comp Lexer LexerError A) s : depth_error (m s) -> depth_error (finally g m s).
Proof. intros (s' & e & Hm & He). exists (g s'), e. unfold finally. by rewrite Hm. Qed.

Section deep.
Context (source rest : str).

(** Each level takes three calls: [consume_dollar], [consume_dollar_paren] and
    the loop of the substitution. *)
Lemma dollar_too_deep k f s : drop (pos s) source = opened (S k) rest -> subst_depth s = MAX_LEX_DEPTH - Z.of_nat k ->
  (3 * k + 2 <= f)%nat -> depth_error (consume_dollar source f s).
Proof.
  revert f s. induction k as [|k IH]; intros f s Hd Hs Hf; (destruct f as [|[|f]]; [lia..|]); cbn [consume_dollar consume_dollar_paren];
    rewrite bind_bump, bind_peek; apply drop_lookup in Hd as [_ Hd]; apply drop_lookup in Hd as [Hp Hd];
    cbn [pos set_pos]; rewrite Nat.add_1_r, Hp; rewrite decide_False by done; rewrite decide_True by done; rewrite bind_bump.
  - apply depth_error_bind. unfold enter_subst. rewrite bind_get. cbn [subst_depth set_pos]. rewrite Hs.
    by eexists _, _.
  - unfold enter_subst at 1. unfold mbind at 1, comp_bind at 1. rewrite bind_get. cbn [subst_depth set_pos].
    rewrite (proj2 (Z.leb_gt _ _)) by lia. unfold modify. cbn [fst snd]. apply depth_error_finally. rewrite bind_peek.
    cbn [pos set_pos set_subst_depth opened] in *. pose proof (drop_lookup _ _ _ _ Hd) as [Hp2 _].
    rewrite Nat.add_1_r, Hp2, decide_False by done. rewrite bind_get. destruct f as [|f]; [lia|].
    cbn [command_subst_loop]. rewrite bind_peek. cbn [pos set_pos set_subst_depth]. rewrite Hp2.
    rewrite !decide_False by done. rewrite decide_True by done. apply depth_error_bind. apply IH; [done| |lia].
    cbn [subst_depth set_subst_depth set_pos]. lia.
Qed.
End deep.

Lemma opened_add m n rest : opened (m + n) rest = opened m (opened n rest).
Proof. induction m as [|m IH]; cbn; [done|by rewrite IH]. Qed.

(** Reading a word that starts with [$(] fails as [consume_dollar] does. *)
Lemma dollar_word_error source s : source !! pos s = Some "$"%char -> source !! (pos s + 1)%nat = Some "("%char ->
  mode s = Normal -> depth_error (consume_dollar source (scan_fuel source (pos s)) s) -> depth_error (next_token source s).
Proof.
  intros Hp Hp1 Hm He. pose proof (lookup_lt_Some _ _ _ Hp) as Hlt.
  unfold next_token. cbn [next_token_loop]. rewrite bind_get, Hm. unfold mbind at 1, comp_bind at 1. cbn [mret comp_ret].
  unfold next_normal_token, mbind at 1, comp_bind at 1, skip_blanks. rewrite bind_get.
  assert (Hsk : forall n, skip_blanks_loop source n s = (s, Ok tt)).
  { intros [|n]; [done|]. cbn [skip_blanks_loop]. rewrite bind_peek, !bind_peek_ahead, Hp.
    by rewrite decide_False by (intros [H|H]; discriminate H); rewrite !decide_False by (intros [H _]; discriminate H). }
  rewrite Hsk, bind_peek, bind_get, Hp. rewrite !decide_False by done.
  unfold read_word. rewrite bind_get. apply depth_error_bind. unfold left_from.
  destruct (length source - pos s)%nat as [|n] eqn:Hn; [lia|]. cbn [read_word_loop]. rewrite bind_peek, Hp.
  apply depth_error_bind. unfold read_word_part. rewrite bind_get. rewrite !decide_False by done. rewrite decide_True by done.
  unfold consume_word_dollar. rewrite bind_get, !bind_peek_ahead, Hp1. by rewrite decide_False by (intros [H _]; discriminate H).
Qed.



(** Forty-eight levels are accepted. *)
Example tokenize_depth_ok :
  res_is_ok (tokenize (opened 48 (repeat ")"%char 48))) = true.
Proof. vm_compute. reflexivity. Qed.
