(* ===== verification/WordParser.v ===== *)
(** * Word parser (crates/wasmsh-parse/src/word_parser.rs)

    Splits the raw text of a word token into literals, quotes, parameters and
    substitutions.  The mutable cursor, literal buffer and part list of the
    source are passed and returned.  Every loop advances the cursor, so it is
    bounded by the bytes left; a slice that would cut a character is a
    [Panic], as is a main loop that would need more rounds than bytes. *)

From S2P Require Import Prelude Strings Ast Lexer.

(** [buf.push(b as char)]: the character U+00XX of the byte, in UTF-8. *)
Definition push_byte (b : byte) : str :=
  let v := byte_val b in
  if v <? 128 then [b]
  else [Ascii.ascii_of_N (Z.to_N (192 + Z.shiftr v 6)); Ascii.ascii_of_N (Z.to_N (128 + Z.land v 63))].

Definition flush (buf : str) (parts : list WordPart) : list WordPart :=
  match buf with [] => parts | _ => parts ++ [Literal buf] end.

Definition octal_digit (b : byte) : option Z :=
  let v := byte_val b in if (48 <=? v) && (v <=? 55) then Some (v - 48) else None.

Definition hex_digit (b : byte) : option Z :=
  let v := byte_val b in
  if (48 <=? v) && (v <=? 57) then Some (v - 48)
  else if (97 <=? v) && (v <=? 102) then Some (v - 97 + 10)
  else if (65 <=? v) && (v <=? 70) then Some (v - 65 + 10)
  else None.

Section word.
Context {E : Type} (text : str).

Definition pos_peek (p : nat) : option byte := text !! p.

(** The bytes that are left. *)
Definition rest_from (p : nat) : nat := (length text - p)%nat.

(** [while *pos < bytes.len() && ok(bytes[*pos])]. *)
Fixpoint advance_while (ok : byte -> bool) (n p : nat) : nat :=
  match n, text !! p with
  | S n', Some b => if ok b then advance_while ok n' (S p) else p
  | _, _ => p
  end.

Definition until (c : byte) (p : nat) : nat := advance_while (fun b => negb (bool_decide (b = c))) (rest_from p) p.

(** [if *pos < bytes.len() { *pos += 1 }]. *)
Definition step_over (p : nat) : nat := if (p <? length text)%nat then S p else p.

(** The digits of an escape; [val * base + digit] wraps at 256 in a release
    build. *)
Fixpoint digits_loop (digit : byte -> option Z) (base : Z) (max_digits : nat) (p : nat) (val : Z) : nat * Z :=
  match max_digits with
  | O => (p, val)
  | S m => match text !! p ≫= digit with
           | Some d => digits_loop digit base m (S p) ((val * base + d) mod 256)
           | None => (p, val)
           end
  end.

Definition parse_octal_digits (p max_digits : nat) : nat * Z := digits_loop octal_digit 8 max_digits p 0.
Definition parse_hex_digits (p max_digits : nat) : nat * Z := digits_loop hex_digit 16 max_digits p 0.

Definition byte_of (v : Z) : byte := Ascii.ascii_of_N (Z.to_N v).

(** The cursor and what is pushed. *)
Definition ansi_c_escape (b : byte) (p : nat) : nat * str :=
  let simple v := (S p, [byte_of v]) in
  if decide (b = "n"%char) then simple 10
  else if decide (b = "t"%char) then simple 9
  else if decide (b = "r"%char) then simple 13
  else if decide (b = "a"%char) then simple 7
  else if decide (b = "b"%char) then simple 8
  else if decide (b = "e"%char \/ b = "E"%char) then simple 27
  else if decide (b = "f"%char) then simple 12
  else if decide (b = "v"%char) then simple 11
  else if decide (b = bslash) then simple 92
  else if decide (b = squote) then simple 39
  else if decide (b = dquote) then simple 34
  else match octal_digit b with
       | Some _ => let '(p', v) := parse_octal_digits p 3 in (p', push_byte (byte_of v))
       | None =>
           if decide (b = "x"%char) then let '(p', v) := parse_hex_digits (S p) 2 in (p', push_byte (byte_of v))
           else (S p, bslash :: push_byte b)
       end.

Fixpoint ansi_c_loop (n p : nat) (result : str) : nat * str :=
  match n, text !! p with
  | S n', Some b =>
      if decide (b = squote) then (S p, result)
      else if decide (b = bslash) then
        match text !! S p with
        | Some e => let '(p', out) := ansi_c_escape e (S p) in ansi_c_loop n' p' (result ++ out)
        | None => ansi_c_loop n' (S p) result
        end
      else ansi_c_loop n' (S p) (result ++ push_byte b)
  | _, _ => (p, result)
  end.

Definition parse_ansi_c_quoted (p : nat) : nat * str := ansi_c_loop (rest_from p) p [].

Definition skip_single_quoted (p : nat) : nat := step_over (until squote (S p)).

Fixpoint skip_double_quoted_loop (n p : nat) : nat :=
  match n, text !! p with
  | S n', Some b =>
      if decide (b = dquote) then p
      else if decide (b = bslash) then
        if (S p <? length text)%nat then skip_double_quoted_loop n' (S (S p)) else S p
      else skip_double_quoted_loop n' (S p)
  | _, _ => p
  end.

Definition skip_double_quoted (p : nat) : nat := step_over (skip_double_quoted_loop (rest_from (S p)) (S p)).

(** The loop of [parse_dollar_cmd_subst] and [parse_process_subst]: where the
    matching parenthesis or the end is, and whether it was the parenthesis. *)
Fixpoint paren_loop (n p depth : nat) : nat * bool :=
  match n, text !! p with
  | S n', Some b =>
      if decide (b = "("%char) then paren_loop n' (S p) (S depth)
      else if decide (b = ")"%char) then
        match Nat.pred depth with O => (p, true) | S d => paren_loop n' (S p) (S d) end
      else if decide (b = squote) then paren_loop n' (skip_single_quoted p) depth
      else if decide (b = dquote) then paren_loop n' (skip_double_quoted p) depth
      else paren_loop n' (S p) depth
  | _, _ => (p, false)
  end.

(** What follows such a loop: the text before the closer, then the cursor past
    a closer of [width] bytes. *)
Definition finish_part (mk : str -> WordPart) (width start : nat) (found : nat * bool) : res E (nat * WordPart) :=
  let '(e, closed) := found in
  inner ← str_slice text start e;
  mret ((if closed : bool then e + width else e)%nat, mk inner).

Definition parse_dollar_cmd_subst (p : nat) : res E (nat * WordPart) :=
  finish_part CommandSubstitution 1 p (paren_loop (rest_from p) p 1).

Fixpoint arith_loop (n p depth : nat) : nat * bool :=
  match n, text !! p with
  | S n', Some b =>
      let next := pos_peek (S p) in
      if decide (b = "("%char /\ next = Some "("%char) then arith_loop n' (p + 2) (S depth)
      else if decide (b = ")"%char /\ next = Some ")"%char) then
        match Nat.pred depth with O => (p, true) | S d => arith_loop n' (p + 2) (S d) end
      else arith_loop n' (S p) depth
  | _, _ => (p, false)
  end.

Definition parse_dollar_arith (p : nat) : res E (nat * WordPart) :=
  finish_part Arithmetic 2 (S p) (arith_loop (rest_from (S p)) (S p) 1).

Fixpoint brace_loop (n p depth : nat) : nat * bool :=
  match n, text !! p with
  | S n', Some b =>
      if decide (b = "{"%char) then brace_loop n' (S p) (S depth)
      else if decide (b = "}"%char) then
        match Nat.pred depth with O => (p, true) | S d => brace_loop n' (S p) (S d) end
      else if decide (b = bslash) then brace_loop n' (step_over (S p)) depth
      else brace_loop n' (S p) depth
  | _, _ => (p, false)
  end.

Definition parse_dollar_brace (p : nat) : res E (nat * WordPart) :=
  finish_part Param 1 (S p) (brace_loop (rest_from (S p)) (S p) 1).

Definition parse_dollar_paren (p : nat) : res E (nat * WordPart) :=
  if decide (text !! S p = Some "("%char) then parse_dollar_arith (S p) else parse_dollar_cmd_subst (S p).

Definition parse_named_parameter (p : nat) : res E (nat * WordPart) :=
  let e := advance_while (fun b => is_ascii_alphanumeric b || bool_decide (b = "_"%char)) (rest_from p) p in
  name ← str_slice text p e; mret (e, Param name).

Definition parse_special_parameter (p : nat) : res E (nat * WordPart) :=
  name ← str_slice text p (S p); mret (S p, Param name).

Definition parse_dollar (p : nat) : res E (option (nat * WordPart)) :=
  match text !! p with
  | None => mret None
  | Some b =>
      if decide (b = "("%char) then r ← parse_dollar_paren p; mret (Some r)
      else if decide (b = "{"%char) then r ← parse_dollar_brace p; mret (Some r)
      else if is_ascii_alphabetic b || bool_decide (b = "_"%char) then r ← parse_named_parameter p; mret (Some r)
      else if is_special_param b then r ← parse_special_parameter p; mret (Some r)
      else mret None
  end.

(** Cursor, literal buffer, parts. *)
Abbreviation cursor := (nat * str * list WordPart)%type.

Fixpoint backtick_part_loop (n p : nat) (inner : str) : nat * str :=
  match n, text !! p with
  | S n', Some b =>
      if decide (b = btick) then (S p, inner)
      else match text !! S p with
           | Some c => if decide (b = bslash /\ c ∈ [btick; "$"%char; bslash])
                       then backtick_part_loop n' (p + 2) (inner ++ push_byte c)
                       else backtick_part_loop n' (S p) (inner ++ push_byte b)
           | None => backtick_part_loop n' (S p) (inner ++ push_byte b)
           end
  | _, _ => (p, inner)
  end.

Definition parse_backtick_part (p : nat) (lit : str) (parts : list WordPart) : cursor :=
  let '(p', inner) := backtick_part_loop (rest_from (S p)) (S p) [] in
  (p', [], flush lit parts ++ [CommandSubstitution inner]).

Definition dq_backslash (p : nat) (lit : str) : nat * str :=
  match text !! S p with
  | None => (S p, lit)
  | Some c =>
      if decide (c = newline) then (p + 2, lit)%nat
      else if decide (c ∈ ["$"%char; btick; dquote; bslash]) then ((p + 2)%nat, lit ++ push_byte c)
      else ((p + 2)%nat, lit ++ bslash :: push_byte c)
  end.

(** The end of a dollar expansion: its part, or a literal [$]. *)
Definition after_dollar (p : nat) (lit : str) (parts : list WordPart) : res E cursor :=
  let parts := flush lit parts in
  r ← parse_dollar (S p);
  mret match r with
       | Some (p', part) => (p', [], parts ++ [part])
       | None => (S p, #"$", parts)
       end.

Fixpoint dq_loop (n p : nat) (lit : str) (parts : list WordPart) : res E (nat * list WordPart) :=
  match text !! p, n with
  | None, _ => mret (p, flush lit parts)
  | Some _, O => Panic "out of fuel"
  | Some b, S n' =>
      if decide (b = dquote) then mret (S p, flush lit parts)
      else if decide (b = bslash) then let '(p', lit') := dq_backslash p lit in dq_loop n' p' lit' parts
      else if decide (b = "$"%char) then
        c ← after_dollar p lit parts; let '(p', lit', parts') := c in dq_loop n' p' lit' parts'
      else if decide (b = btick) then
        let '(p', lit', parts') := parse_backtick_part p lit parts in dq_loop n' p' lit' parts'
      else dq_loop n' (S p) (lit ++ push_byte b) parts
  end.

Definition parse_double_quoted (p : nat) : res E (nat * list WordPart) := dq_loop (rest_from p) p [] [].

Definition parse_single_quoted_part (p : nat) (lit : str) (parts : list WordPart) : res E cursor :=
  let e := until squote (S p) in
  inner ← str_slice text (S p) e;
  mret (step_over e, [], flush lit parts ++ [SingleQuoted inner]).

Definition parse_double_quoted_part (p : nat) (lit : str) (parts : list WordPart) : res E cursor :=
  r ← parse_double_quoted (S p);
  mret (fst r, [], flush lit parts ++ [DoubleQuoted (snd r)]).

Definition parse_escaped_literal (p : nat) (lit : str) : nat * str :=
  match text !! S p with
  | None => (S p, lit)
  | Some c => if decide (c = newline) then (p + 2, lit)%nat else ((p + 2)%nat, lit ++ push_byte c)
  end.

Definition parse_dollar_part (p : nat) (lit : str) (parts : list WordPart) : res E cursor :=
  if decide (pos_peek (S p) = Some squote) then
    let '(p', s) := parse_ansi_c_quoted (p + 2) in mret (p', [], flush lit parts ++ [Literal s])
  else if decide (pos_peek (S p) = Some dquote) then
    r ← parse_double_quoted (p + 2); mret (fst r, [], flush lit parts ++ [DoubleQuoted (snd r)])
  else after_dollar p lit parts.

Definition parse_process_subst (b : byte) (p : nat) (lit : str) (parts : list WordPart) : res E cursor :=
  let mk := if decide (b = "<"%char) then ProcessSubstIn else ProcessSubstOut in
  r ← finish_part mk 1 (p + 2) (paren_loop (rest_from (p + 2)) (p + 2) 1);
  mret (fst r, [], flush lit parts ++ [snd r]).

(** [b] is [bytes[*pos]]. *)
Definition parse_word_part (b : byte) (p : nat) (lit : str) (parts : list WordPart) : res E cursor :=
  if decide (b = squote) then parse_single_quoted_part p lit parts
  else if decide (b = dquote) then parse_double_quoted_part p lit parts
  else if decide (b = bslash) then let '(p', lit') := parse_escaped_literal p lit in mret (p', lit', parts)
  else if decide (b = "$"%char) then parse_dollar_part p lit parts
  else if decide (b = btick) then mret (parse_backtick_part p lit parts)
  else if decide ((b = "<"%char \/ b = ">"%char) /\ text !! S p = Some "("%char) then parse_process_subst b p lit parts
  else mret (S p, lit ++ push_byte b, parts).

Fixpoint word_parts_loop (n p : nat) (lit : str) (parts : list WordPart) : res E (list WordPart) :=
  match text !! p, n with
  | None, _ => mret (flush lit parts)
  | Some _, O => Panic "out of fuel"
  | Some b, S n' =>
      c ← parse_word_part b p lit parts; let '(p', lit', parts') := c in word_parts_loop n' p' lit' parts'
  end.

Definition parse_word_parts : res E (list WordPart) := word_parts_loop (length text) 0 [] [].
End word.
