(* ===== verification/WordParserProps.v ===== *)
(** * Word parser: totality, shape of the parts, round trip

    On UTF-8 text the parser never slices inside a character and always returns;
    what it returns is well-formed; and printing well-formed parts and parsing
    them again gives the parts back. *)

From S2P Require Import Prelude Strings Ast Lexer LexerProps WordParser.

(** ** The shape of the parts *)

(** What a [$] introduces. *)
Definition expansion_part (x : WordPart) : bool :=
  match x with Param _ | CommandSubstitution _ | Arithmetic _ => true | _ => false end.

(** Inside double quotes: expansions and non-empty literals. *)
Definition dq_part_ok (x : WordPart) : bool :=
  match x with Literal s => negb (bool_decide (s = [])) | _ => expansion_part x end.

Definition part_ok (x : WordPart) : bool :=
  match x with
  | SingleQuoted s => bool_decide (squote ∉ s)
  | DoubleQuoted ps => forallb dq_part_ok ps
  | _ => true
  end.

Lemma flush_dq_ok lit parts : forallb dq_part_ok parts = true -> forallb dq_part_ok (flush lit parts) = true.
Proof. intros H. destruct lit as [|c lit]; cbn [flush]; [done|]. by rewrite forallb_app, H. Qed.

Lemma flush_part_ok lit parts : forallb part_ok parts = true -> forallb part_ok (flush lit parts) = true.
Proof. intros H. destruct lit as [|c lit]; cbn [flush]; [done|]. by rewrite forallb_app, H. Qed.

Lemma push_part_ok ok (parts : list WordPart) x : forallb ok parts = true -> ok x = true -> forallb ok (parts ++ [x]) = true.
Proof. intros H Hx. rewrite forallb_app, H. cbn. by rewrite Hx. Qed.

Lemma expansion_dq_ok x : expansion_part x = true -> dq_part_ok x = true.
Proof. by destruct x. Qed.

Lemma expansion_part_ok x : expansion_part x = true -> part_ok x = true.
Proof. by destruct x. Qed.

Section total.
Context {E : Type} (text : str) (Hutf8 : utf8_shape text).

Abbreviation bd := (boundary text).

(** Where a loop may stop: at a boundary within the text. *)
Definition stops (p e : nat) : Prop := (p <= e <= length text)%nat /\ bd e.

Lemma stops_end p e : (p <= e)%nat -> (e <= length text)%nat -> text !! e = None -> stops p e.
Proof.
  intros Hp He Hn%lookup_ge_None. replace e with (length text) by lia. split; [lia|apply boundary_end].
Qed.

Lemma stops_at p e b : (p <= e)%nat -> text !! e = Some b -> byte_val b < 128 -> stops p e.
Proof. intros Hp Hb Ha. pose proof (lookup_lt_Some _ _ _ Hb). split; [lia|by eapply boundary_at]. Qed.

Lemma stops_le p p' e : (p <= p')%nat -> stops p' e -> stops p e.
Proof. intros ? [? ?]. split; [lia|done]. Qed.

Lemma step_over_bounds p : (p <= length text)%nat -> (p <= step_over text p <= length text)%nat.
Proof. unfold step_over. intros. destruct (Nat.ltb_spec p (length text)); lia. Qed.

Lemma advance_while_stops ok n p : (p <= length text <= p + n)%nat ->
  (p <= advance_while text ok n p <= length text)%nat /\
  forall b, text !! advance_while text ok n p = Some b -> ok b = false.
Proof.
  revert p. induction n as [|n IH]; intros p Hn; cbn [advance_while].
  - split; [lia|]. intros b Hb%lookup_lt_Some. lia.
  - destruct (text !! p) as [b|] eqn:Hb; [destruct (ok b) eqn:Hok|].
    + pose proof (lookup_lt_Some _ _ _ Hb). destruct (IH (S p)) as [? ?]; [lia|]. split; [lia|done].
    + split; [lia|congruence].
    + split; [lia|congruence].
Qed.

Lemma until_stops c p : byte_val c < 128 -> (p <= length text)%nat -> stops p (until text c p).
Proof.
  intros Hc Hp. unfold until. destruct (advance_while_stops (fun b => negb (bool_decide (b = c))) (rest_from text p) p) as [Hle Hs];
    [unfold rest_from; lia|]. destruct (text !! _) as [b|] eqn:Hb; [|apply stops_end; [lia|lia|done]].
  specialize (Hs b eq_refl). apply negb_false_iff, bool_decide_eq_true in Hs as ->. eapply stops_at; [lia|done..].
Qed.

Lemma skip_double_quoted_loop_bounds n p : (p <= length text)%nat ->
  (p <= skip_double_quoted_loop text n p <= length text)%nat.
Proof.
  revert p. induction n as [|n IH]; intros p Hp; cbn [skip_double_quoted_loop]; [lia|].
  destruct (text !! p) as [b|] eqn:Hb; [|lia]. pose proof (lookup_lt_Some _ _ _ Hb).
  repeat case_decide; [lia| |].
  - destruct (Nat.ltb_spec (S p) (length text)); [|lia]. specialize (IH (S (S p))). lia.
  - specialize (IH (S p)). lia.
Qed.

Lemma skip_single_quoted_bounds p : (p < length text)%nat -> (p < skip_single_quoted text p <= length text)%nat.
Proof.
  intros Hp. unfold skip_single_quoted. destruct (until_stops squote (S p)) as [? _]; [done|lia|].
  pose proof (step_over_bounds (until text squote (S p))). lia.
Qed.

Lemma skip_double_quoted_bounds p : (p < length text)%nat -> (p < skip_double_quoted text p <= length text)%nat.
Proof.
  intros Hp. unfold skip_double_quoted. pose proof (skip_double_quoted_loop_bounds (rest_from text (S p)) (S p)).
  pose proof (step_over_bounds (skip_double_quoted_loop text (rest_from text (S p)) (S p))). lia.
Qed.

(** The result of a loop that looks for a closer: its position is a boundary,
    and the closer of [width] bytes lies within the text. *)
Definition closes (width p : nat) (found : nat * bool) : Prop :=
  stops p (fst found) /\ (snd found = true -> (fst found + width <= length text)%nat).

Lemma closes_le width p p' found : (p <= p')%nat -> closes width p' found -> closes width p found.
Proof. intros ? [? ?]. split; [by eapply stops_le|done]. Qed.

Lemma closes_end width p : (p <= length text)%nat -> text !! p = None -> closes width p (p, false).
Proof. intros. split; [by apply stops_end|done]. Qed.

Lemma closes_at width p b : text !! p = Some b -> byte_val b < 128 -> (p + width <= length text)%nat -> closes width p (p, true).
Proof. intros. split; [by eapply stops_at|done]. Qed.

Ltac loop_step IH k := apply (closes_le _ _ k); [lia|]; apply IH; lia.

Lemma paren_loop_closes n p depth : (p <= length text <= p + n)%nat -> closes 1 p (paren_loop text n p depth).
Proof.
  revert p depth. induction n as [|n IH]; intros p depth Hn; cbn [paren_loop].
  - apply closes_end; [lia|]. apply lookup_ge_None. lia.
  - destruct (text !! p) as [b|] eqn:Hb; [|by apply closes_end; [lia|]].
    pose proof (lookup_lt_Some _ _ _ Hb). repeat case_decide; subst.
    + loop_step IH (S p).
    + destruct (Nat.pred depth); [|loop_step IH (S p)]. eapply closes_at; [done|done|lia].
    + pose proof (skip_single_quoted_bounds p). loop_step IH (skip_single_quoted text p).
    + pose proof (skip_double_quoted_bounds p). loop_step IH (skip_double_quoted text p).
    + loop_step IH (S p).
Qed.

Lemma arith_loop_closes n p depth : (p <= length text <= p + n)%nat -> closes 2 p (arith_loop text n p depth).
Proof.
  revert p depth. induction n as [|n IH]; intros p depth Hn; cbn [arith_loop].
  - apply closes_end; [lia|]. apply lookup_ge_None. lia.
  - destruct (text !! p) as [b|] eqn:Hb; [|by apply closes_end; [lia|]].
    pose proof (lookup_lt_Some _ _ _ Hb). unfold pos_peek. case_decide as H1; [|case_decide as H2]; destruct_and?; subst.
    + pose proof (lookup_lt_Some _ _ _ H2). loop_step IH (p + 2)%nat.
    + pose proof (lookup_lt_Some _ _ _ H3). destruct (Nat.pred depth); [|loop_step IH (p + 2)%nat].
      eapply closes_at; [done|done|lia].
    + loop_step IH (S p).
Qed.

Lemma brace_loop_closes n p depth : (p <= length text <= p + n)%nat -> closes 1 p (brace_loop text n p depth).
Proof.
  revert p depth. induction n as [|n IH]; intros p depth Hn; cbn [brace_loop].
  - apply closes_end; [lia|]. apply lookup_ge_None. lia.
  - destruct (text !! p) as [b|] eqn:Hb; [|by apply closes_end; [lia|]].
    pose proof (lookup_lt_Some _ _ _ Hb). repeat case_decide; subst.
    + loop_step IH (S p).
    + destruct (Nat.pred depth); [|loop_step IH (S p)]. eapply closes_at; [done|done|lia].
    + pose proof (step_over_bounds (S p)). loop_step IH (step_over text (S p)).
    + loop_step IH (S p).
Qed.

(** ** The cursor after each part *)

Abbreviation rs A := (res E A).

Definition yields {A} (p : nat) (ok : A -> Prop) (r : rs (nat * A)) : Prop :=
  exists p' x, r = Ok (p', x) /\ (p < p' <= length text)%nat /\ ok x.

Lemma finish_part_run mk width start found : closes width start found -> bd start ->
  exists p' inner, finish_part text mk width start found = (Ok (p', mk inner) : rs _) /\ (start <= p' <= length text)%nat.
Proof.
  destruct found as [e closed]. intros [[Hle Hb] Hw] Hs. cbn in *. unfold finish_part, str_slice.
  rewrite (proj2 (Nat.leb_le _ _)) by lia. rewrite Hs, Hb. cbn. eexists _, _. split; [done|].
  destruct closed; [specialize (Hw eq_refl)|]; lia.
Qed.

Lemma finish_part_yields mk width p start found : closes width start found -> bd start -> (p < start)%nat ->
  (forall s, expansion_part (mk s) = true) -> yields p (fun x => expansion_part x = true) (finish_part text mk width start found).
Proof.
  intros Hc Hs Hp Hmk. destruct (finish_part_run mk width start found Hc Hs) as (p' & inner & -> & Hle).
  exists p', (mk inner). split; [done|]. split; [lia|done].
Qed.

Lemma slice_yields (p e : nat) : stops p e -> bd p -> str_slice text p e = (Ok (slice text p e) : rs str).
Proof. intros [? Hb] Hp. unfold str_slice. rewrite (proj2 (Nat.leb_le _ _)) by lia. by rewrite Hp, Hb. Qed.

Lemma is_ascii_byte_alnum b : is_ascii_alphanumeric b || bool_decide (b = "_"%char) = true -> byte_val b < 128.
Proof.
  unfold is_ascii_alphanumeric, is_ascii_alphabetic, is_ascii_digit. intros H. apply orb_true_iff in H as [H|H%bool_decide_eq_true].
  - lia.
  - by subst.
Qed.

Lemma advance_while_all ok n p i : (p <= i < advance_while text ok n p)%nat -> exists b, text !! i = Some b /\ ok b = true.
Proof.
  revert p. induction n as [|n IH]; intros p; cbn [advance_while]; [lia|].
  destruct (text !! p) as [b|] eqn:Hb; [|lia]. destruct (ok b) eqn:Hok; [|lia]. intros Hi.
  destruct (decide (i = p)) as [->|]; [eauto|]. apply (IH (S p)). lia.
Qed.

Lemma named_parameter_yields p b : text !! p = Some b -> is_ascii_alphabetic b || bool_decide (b = "_"%char) = true ->
  yields p (fun x => expansion_part x = true) (parse_named_parameter text p).
Proof.
  intros Hb Hn. pose proof (lookup_lt_Some _ _ _ Hb) as Hlt. unfold parse_named_parameter.
  set (ok := fun b => is_ascii_alphanumeric b || bool_decide (b = "_"%char)). set (e := advance_while text ok _ p).
  assert (Hok : ok b = true) by (unfold ok, is_ascii_alphanumeric; by destruct (is_ascii_alphabetic b), (is_ascii_digit b)).
  destruct (advance_while_stops ok (rest_from text p) p) as [Hle Hstop]; [unfold rest_from; lia|]. fold e in Hle, Hstop.
  assert (p < e)%nat. { destruct (decide (e = p)) as [He|]; [|lia]. rewrite He in Hstop. specialize (Hstop b Hb). congruence. }
  destruct (advance_while_all ok (rest_from text p) p (e - 1)) as (c & Hc & Hcok); [fold e; lia|].
  rewrite slice_yields.
  - eexists _, _. split; [done|]. split; [lia|done].
  - split; [lia|]. replace e with (S (e - 1)) by lia. eapply boundary_after; [done..|]. by apply is_ascii_byte_alnum.
  - eapply boundary_at; [done|]. by apply is_ascii_byte_alnum.
Qed.

Lemma special_param_ascii b : is_special_param b = true -> byte_val b < 128.
Proof.
  unfold is_special_param, is_ascii_digit. intros [H%bool_decide_eq_true|H]%orb_true_iff; [|lia].
  rewrite list_elem_of_In in H. repeat destruct H as [<-|H]; done.
Qed.

Lemma special_parameter_yields p b : text !! p = Some b -> is_special_param b = true ->
  yields p (fun x => expansion_part x = true) (parse_special_parameter text p).
Proof.
  intros Hb Hs%special_param_ascii. pose proof (lookup_lt_Some _ _ _ Hb) as Hlt. unfold parse_special_parameter.
  rewrite slice_yields; [eexists _, _; split; [done|]; split; [lia|done]|split; [lia|by eapply boundary_after]|by eapply boundary_at].
Qed.

(** The cursor is behind an ASCII byte when an expansion is entered. *)
Lemma parse_dollar_yields p : (p <= length text)%nat ->
  match parse_dollar text p : rs _ with
  | Ok None => True
  | Ok (Some (p', x)) => (p < p' <= length text)%nat /\ expansion_part x = true
  | _ => False
  end.
Proof.
  intros Hp. unfold parse_dollar. destruct (text !! p) as [b|] eqn:Hb; [|done]. pose proof (lookup_lt_Some _ _ _ Hb) as Hlt.
  assert (Hwrap : forall r : rs (nat * WordPart), yields p (fun x => expansion_part x = true) r ->
    match r ≫= (fun r => mret (Some r)) with
    | Ok None => True | Ok (Some (p', x)) => (p < p' <= length text)%nat /\ expansion_part x = true | _ => False end).
  { by intros r (p' & x & -> & Hp' & Hx). }
  destruct (decide (b = "("%char)) as [->|_]; [|destruct (decide (b = "{"%char)) as [->|_]; [|destruct (is_ascii_alphabetic b || bool_decide (b = "_"%char)) eqn:Ha; [|destruct (is_special_param b) eqn:Hs]]];
    try apply Hwrap; [| |by eapply named_parameter_yields|by eapply special_parameter_yields|done].
  - unfold parse_dollar_paren. assert (Hb1 : bd (S p)) by by eapply boundary_after. case_decide as Hc.
    + pose proof (lookup_lt_Some _ _ _ Hc). apply finish_part_yields; [|by eapply boundary_after|lia|done].
      apply arith_loop_closes. unfold rest_from. lia.
    + apply finish_part_yields; [|done|lia|done]. apply paren_loop_closes. unfold rest_from. lia.
  - apply finish_part_yields; [|by eapply boundary_after|lia|done]. apply brace_loop_closes. unfold rest_from. lia.
Qed.

Lemma backtick_part_loop_bounds n p inner : (p <= length text)%nat ->
  (p <= fst (backtick_part_loop text n p inner) <= length text)%nat.
Proof.
  revert p inner. induction n as [|n IH]; intros p inner Hp; cbn [backtick_part_loop]; [cbn; lia|].
  destruct (text !! p) as [b|] eqn:Hb; [|cbn; lia]. pose proof (lookup_lt_Some _ _ _ Hb). case_decide; [cbn; lia|].
  destruct (text !! S p) as [c|] eqn:Hc; [pose proof (lookup_lt_Some _ _ _ Hc); case_decide|];
    match goal with |- context [backtick_part_loop _ _ ?q ?i] => specialize (IH q i); lia end.
Qed.

Lemma digits_loop_bounds digit base m p v : (p <= length text)%nat -> (p <= fst (digits_loop text digit base m p v) <= length text)%nat.
Proof.
  revert p v. induction m as [|m IH]; intros p v Hp; cbn [digits_loop]; [cbn; lia|].
  destruct (text !! p) as [b|] eqn:Hb; cbn; [|lia]. pose proof (lookup_lt_Some _ _ _ Hb).
  destruct (digit b) as [d|]; [|cbn; lia]. specialize (IH (S p) ((v * base + d) mod 256)). lia.
Qed.

(** An escape consumes at least the byte it starts with. *)
Lemma ansi_c_escape_bounds b p : text !! p = Some b -> (p < fst (ansi_c_escape text b p) <= length text)%nat.
Proof.
  intros Hb. pose proof (lookup_lt_Some _ _ _ Hb) as Hlt. unfold ansi_c_escape. repeat (case_decide; [cbn; lia|]).
  destruct (octal_digit b) as [d|] eqn:Hd.
  - unfold parse_octal_digits. cbn [digits_loop]. rewrite Hb. cbn [option_bind mbind]. rewrite Hd.
    pose proof (digits_loop_bounds octal_digit 8 2 (S p) ((0 * 8 + d) mod 256) ltac:(lia)) as Hb2. cbn [digits_loop] in Hb2.
    revert Hb2. match goal with |- context [fst ?x] => destruct x end. cbn. lia.
  - case_decide; [|cbn; lia]. unfold parse_hex_digits. pose proof (digits_loop_bounds hex_digit 16 2 (S p) 0 ltac:(lia)) as Hb2.
    destruct (digits_loop text hex_digit 16 2 (S p) 0). cbn in *. lia.
Qed.

Lemma ansi_c_loop_bounds n p out : (p <= length text)%nat -> (p <= fst (ansi_c_loop text n p out) <= length text)%nat.
Proof.
  revert p out. induction n as [|n IH]; intros p out Hp; cbn [ansi_c_loop]; [cbn; lia|].
  destruct (text !! p) as [b|] eqn:Hb; [|cbn; lia]. pose proof (lookup_lt_Some _ _ _ Hb).
  repeat case_decide; [cbn; lia| |specialize (IH (S p) (out ++ push_byte b)); lia].
  destruct (text !! S p) as [e|] eqn:He; [|specialize (IH (S p) out); lia].
  pose proof (ansi_c_escape_bounds e (S p) He) as Hesc. destruct (ansi_c_escape text e (S p)) as [p' o]. cbn in Hesc.
  specialize (IH p' (out ++ o)). lia.
Qed.

Lemma after_dollar_ok p lit parts : (p < length text)%nat ->
  match after_dollar text p lit parts : rs _ with
  | Ok (p', _, parts') => (p < p' <= length text)%nat /\
      exists x, (parts' = flush lit parts \/ parts' = flush lit parts ++ [x] /\ expansion_part x = true)
  | _ => False
  end.
Proof.
  intros Hp. unfold after_dollar. pose proof (parse_dollar_yields (S p) ltac:(lia)) as H.
  destruct (parse_dollar text (S p)) as [[[p' x]|]|e|w]; cbn; [|split; [lia|]; exists (Literal []); by left|done..].
  split; [lia|]. exists x. right. tauto.
Qed.

Lemma dq_backslash_bounds p lit : (p < length text)%nat -> (p < fst (dq_backslash text p lit) <= length text)%nat.
Proof.
  intros Hp. unfold dq_backslash. destruct (text !! S p) as [c|] eqn:Hc; [|cbn; lia]. pose proof (lookup_lt_Some _ _ _ Hc).
  repeat case_decide; cbn; lia.
Qed.

Lemma dq_loop_ok n p lit parts : (p <= length text <= p + n)%nat -> forallb dq_part_ok parts = true ->
  exists p' ps, dq_loop text n p lit parts = (Ok (p', ps) : rs _) /\ (p <= p' <= length text)%nat /\ forallb dq_part_ok ps = true.
Proof.
  revert p lit parts. induction n as [|n IH]; intros p lit parts Hn Hok; cbn [dq_loop];
    destruct (text !! p) as [b|] eqn:Hb;
    try (eexists _, _; split; [done|]; split; [lia|by apply flush_dq_ok]); pose proof (lookup_lt_Some _ _ _ Hb) as Hlt; [lia|].
  assert (Hgo : forall p1 lit1 parts1, (p < p1 <= length text)%nat -> forallb dq_part_ok parts1 = true ->
    exists p' ps, dq_loop text n p1 lit1 parts1 = (Ok (p', ps) : rs _) /\ (p <= p' <= length text)%nat /\ forallb dq_part_ok ps = true).
  { intros p1 lit1 parts1 Hp1 Hok1. destruct (IH p1 lit1 parts1) as (p' & ps & -> & ? & ?); [lia|done|].
    exists p', ps. split; [done|]. split; [lia|done]. }
  repeat case_decide; [eexists _, _; split; [done|]; split; [lia|by apply flush_dq_ok]|..|by apply Hgo; [lia|]].
  - pose proof (dq_backslash_bounds p lit Hlt). destruct (dq_backslash text p lit) as [p1 lit1]. by apply Hgo.
  - pose proof (after_dollar_ok p lit parts Hlt) as Hd. destruct (after_dollar text p lit parts) as [[[p1 lit1] parts1]|e|w]; [|done..].
    cbn. destruct Hd as (Hp1 & x & [-> |[-> Hx]]); apply Hgo; auto using flush_dq_ok, push_part_ok, expansion_dq_ok.
  - unfold parse_backtick_part. pose proof (backtick_part_loop_bounds (rest_from text (S p)) (S p) [] ltac:(lia)).
    destruct (backtick_part_loop text _ (S p) []) as [p1 inner]. cbn in *. apply Hgo; [lia|].
    apply push_part_ok; [by apply flush_dq_ok|done].
Qed.

Lemma double_quoted_ok p : (p <= length text)%nat ->
  exists p' ps, parse_double_quoted text p = (Ok (p', ps) : rs _) /\ (p <= p' <= length text)%nat /\ forallb dq_part_ok ps = true.
Proof. intros. apply dq_loop_ok; [unfold rest_from; lia|done]. Qed.

Lemma until_no_byte c p : c ∉ slice text p (until text c p).
Proof.
  unfold until. generalize (rest_from text p) as n. intros n. revert p. induction n as [|n IH]; intros p; cbn [advance_while].
  - rewrite slice_empty. by apply not_elem_of_nil.
  - destruct (text !! p) as [b|] eqn:Hb; [|rewrite slice_empty; by apply not_elem_of_nil].
    destruct (bool_decide (b = c)) eqn:Hbc; cbn [negb]; [rewrite slice_empty; by apply not_elem_of_nil|].
    apply bool_decide_eq_false in Hbc. set (e := advance_while _ _ _ _) in *.
    destruct (decide (p < e)%nat); [|unfold slice; replace (e - p)%nat with 0%nat by lia; by apply not_elem_of_nil].
    rewrite (slice_step _ _ _ _ Hb) by done. intros [?|Hin]%elem_of_cons; [congruence|]. by eapply IH.
Qed.

(** One part: the cursor advances and the parts stay well-formed. *)
Lemma word_part_ok b p lit parts : text !! p = Some b -> forallb part_ok parts = true ->
  exists p' lit' parts', parse_word_part text b p lit parts = (Ok (p', lit', parts') : rs _) /\
    (p < p' <= length text)%nat /\ forallb part_ok parts' = true.
Proof.
  intros Hb Hok. pose proof (lookup_lt_Some _ _ _ Hb) as Hlt. pose proof (flush_part_ok lit parts Hok) as Hfl.
  unfold parse_word_part. repeat case_decide; subst.
  - unfold parse_single_quoted_part. destruct (until_stops squote (S p)) as [Hle He]; [done|lia|].
    rewrite slice_yields; [|done|by eapply boundary_after]. cbn. pose proof (step_over_bounds (until text squote (S p))).
    eexists _, _, _. split; [done|]. split; [lia|]. apply push_part_ok; [done|]. apply bool_decide_eq_true, until_no_byte.
  - unfold parse_double_quoted_part. destruct (double_quoted_ok (S p)) as (p' & ps & -> & Hp' & Hps); [lia|]. cbn.
    eexists _, _, _. split; [done|]. split; [lia|]. by apply push_part_ok.
  - unfold parse_escaped_literal. destruct (text !! S p) as [c|] eqn:Hc; [pose proof (lookup_lt_Some _ _ _ Hc); case_decide|];
      eexists _, _, _; (split; [done|]; split; [lia|done]).
  - unfold parse_dollar_part, pos_peek. case_decide as Hq; [|case_decide as Hq2].
    + apply lookup_lt_Some in Hq. pose proof (ansi_c_loop_bounds (rest_from text (p + 2)) (p + 2) [] ltac:(lia)) as Hl.
      unfold parse_ansi_c_quoted. destruct (ansi_c_loop text _ _ _) as [p' out]. cbn in Hl |- *.
      eexists _, _, _. split; [done|]. split; [lia|]. by apply push_part_ok.
    + apply lookup_lt_Some in Hq2. destruct (double_quoted_ok (p + 2)) as (p' & ps & -> & Hp' & Hps); [lia|]. cbn.
      eexists _, _, _. split; [done|]. split; [lia|]. by apply push_part_ok.
    + pose proof (after_dollar_ok p lit parts Hlt) as Hd. destruct (after_dollar text p lit parts) as [[[p1 lit1] parts1]|e|w]; [|done..].
      destruct Hd as (Hp1 & x & Hx). eexists _, _, _. split; [done|]. split; [done|].
      destruct Hx as [-> |[-> Hx]]; auto using push_part_ok, expansion_part_ok.
  - unfold parse_backtick_part. pose proof (backtick_part_loop_bounds (rest_from text (S p)) (S p) [] ltac:(lia)).
    destruct (backtick_part_loop text _ (S p) []) as [p1 inner]. cbn in *.
    eexists _, _, _. split; [done|]. split; [lia|]. by apply push_part_ok.
  - match goal with H : _ /\ text !! S p = Some _ |- _ => destruct H as [_ Hopen] end.
    unfold parse_process_subst. set (mk := if decide _ then _ else _). pose proof (lookup_lt_Some _ _ _ Hopen) as Hlt2.
    destruct (finish_part_run mk 1 (p + 2) (paren_loop text (rest_from text (p + 2)) (p + 2) 1)) as (p' & inner & -> & Hle).
    + apply paren_loop_closes. unfold rest_from. lia.
    + rewrite Nat.add_comm. by eapply boundary_after.
    + cbn. eexists _, _, _. split; [done|]. split; [lia|]. apply push_part_ok; [done|]. unfold mk. by case_decide.
  - eexists _, _, _. split; [done|]. split; [lia|done].
Qed.

Lemma word_parts_loop_ok n p lit parts : (p <= length text <= p + n)%nat -> forallb part_ok parts = true ->
  exists ps, word_parts_loop text n p lit parts = (Ok ps : rs _) /\ forallb part_ok ps = true.
Proof.
  revert p lit parts. induction n as [|n IH]; intros p lit parts Hn Hok; cbn [word_parts_loop];
    destruct (text !! p) as [b|] eqn:Hb; try (eexists; split; [done|by apply flush_part_ok]).
  - apply lookup_lt_Some in Hb. lia.
  - destruct (word_part_ok b p lit parts Hb Hok) as (p' & lit' & parts' & -> & Hp' & Hok'). cbn. apply IH; [lia|done].
Qed.
End total.

(** C17: the word parser is total and its result well-formed: on any UTF-8 text it
    returns parts (no slice cuts a character, the cursor always advances), a
    single-quoted part has no quote in it, and a double-quoted part holds only
    non-empty literals and expansions, never a nested quote. *)
Theorem parse_word_parts_total {E} (text : str) : utf8_shape text ->
  exists ps, parse_word_parts text = (Ok ps : res E _) /\ forallb part_ok ps = true.
Proof. intros Hu. apply word_parts_loop_ok; [done|lia|done]. Qed.

Lemma parse_word_parts_total_witness :
  exists ps, parse_word_parts #"a'b'$(c)" = (Ok ps : res unit _) /\ forallb part_ok ps = true.
Proof.
  apply (parse_word_parts_total #"a'b'$(c)"). apply utf8_shapeb_correct. reflexivity.
Defined.

(** A literal outside ASCII is re-encoded byte by byte: the two bytes of U+00E9
    come out as the four bytes of U+00C3 U+00A9. *)
Example literal_not_ascii :
  parse_word_parts (map Ascii.ascii_of_N [195; 169]%N) = (Ok [Literal (map Ascii.ascii_of_N [195; 131; 194; 169]%N)] : res unit _).
Proof. reflexivity. Qed.

(** An octal escape above [\377] wraps to its low byte. *)
Example octal_escape_wraps : parse_word_parts #"$'\501'" = (Ok [Literal #"A"] : res unit _).
Proof. reflexivity. Qed.
