(* ===== verification/WordRoundTrip.v ===== *)
(** * Word parser: round trip

    A printer for word parts and the theorem that the word parser inverts it. *)

From S2P Require Import Prelude Strings Ast Lexer LexerProps LexerSpec WordParser WordParserProps.

(** ** Printing *)

Definition escape_all (s : str) : str := concat (map (fun b => [bslash; b]) s).

(** The bytes a backslash escapes in double quotes. *)
Definition dq_special : list byte := ["$"%char; btick; dquote; bslash].

Definition escape_dq (s : str) : str := concat (map (fun b => if decide (b ∈ dq_special) then [bslash; b] else [b]) s).

Definition print_expansion (x : WordPart) : str :=
  match x with
  | Param s => #"${" ++ s ++ #"}"
  | CommandSubstitution s => #"$(" ++ s ++ #")"
  | Arithmetic s => #"$((" ++ s ++ #"))"
  | _ => []
  end.

Definition print_dq_part (x : WordPart) : str :=
  match x with Literal s => escape_dq s | _ => print_expansion x end.

Definition print_part (x : WordPart) : str :=
  match x with
  | Literal s => escape_all s
  | SingleQuoted s => [squote] ++ s ++ [squote]
  | DoubleQuoted ps => [dquote] ++ concat (map print_dq_part ps) ++ [dquote]
  | ProcessSubstIn s => #"<(" ++ s ++ #")"
  | ProcessSubstOut s => #">(" ++ s ++ #")"
  | _ => print_expansion x
  end.

Definition print_parts (ps : list WordPart) : str := concat (map print_part ps).

(** ** What can be printed *)

Definition without (bad : list byte) (s : str) : bool := is_ascii s && forallb (fun b => negb (bool_decide (b ∈ bad))) s.

Definition not_empty (s : str) : bool := match s with [] => false | _ => true end.

Definition parens_quotes : list byte := ["("%char; ")"%char; squote; dquote].

Definition printable_expansion (x : WordPart) : bool :=
  match x with
  | Param s => without ["{"%char; "}"%char; bslash] s
  | CommandSubstitution s => without parens_quotes s
  | Arithmetic s => without ["("%char; ")"%char] s
  | _ => false
  end.

Definition printable_dq (x : WordPart) : bool :=
  match x with Literal s => not_empty s && without [newline] s | _ => printable_expansion x end.

(** Adjacent literals would be read as one. *)
Fixpoint no_adjacent (ps : list WordPart) : bool :=
  match ps with
  | Literal _ :: ((Literal _ :: _) as ps') => false
  | _ :: ps' => no_adjacent ps'
  | [] => true
  end.

Definition printable (x : WordPart) : bool :=
  match x with
  | Literal s => not_empty s && without [newline] s
  | SingleQuoted s => without [squote] s
  | DoubleQuoted ps => forallb printable_dq ps && no_adjacent ps
  | ProcessSubstIn s | ProcessSubstOut s => without parens_quotes s
  | _ => printable_expansion x
  end.

Lemma without_cons bad b s : without bad (b :: s) = true -> byte_val b < 128 /\ (b ∉ bad) /\ without bad s = true.
Proof.
  unfold without, is_ascii. cbn [forallb]. rewrite !andb_true_iff, Z.ltb_lt, negb_true_iff, bool_decide_eq_false. tauto.
Qed.

(** ** Scanning printed text *)

Section run.
Context {E : Type} (text : str) (Hascii : is_ascii text = true).

Abbreviation rs A := (res E A).

Lemma drop_app_at p s rest : drop p text = s ++ rest -> drop (p + length s) text = rest.
Proof. intros H. by rewrite <-drop_drop, H, drop_app_length. Qed.

Lemma slice_run p s rest : drop p text = s ++ rest -> s ++ rest <> [] -> str_slice text p (p + length s) = (Ok s : rs str).
Proof.
  intros Hd Hne. assert (Hle : (p + length s <= length text)%nat).
  { apply (f_equal length) in Hd. rewrite length_drop, length_app in Hd. destruct (s ++ rest) eqn:He; [done|].
    apply (f_equal length) in He. rewrite length_app in He. cbn in He. lia. }
  unfold str_slice. rewrite (proj2 (Nat.leb_le _ _)) by lia. rewrite !is_ascii_boundary by (done || lia). cbn.
  unfold slice. rewrite Hd. replace (p + length s - p)%nat with (length s) by lia. by rewrite take_app_length.
Qed.

Lemma paren_loop_run s rest n p : drop p text = s ++ ")"%char :: rest -> without parens_quotes s = true ->
  (length s < n)%nat -> paren_loop text n p 1 = ((p + length s)%nat, true).
Proof.
  revert n p. induction s as [|b s IH]; intros [|n] p Hd Hw Hn; cbn [app length] in *; try lia; apply drop_lookup in Hd as [Hb Hd];
    cbn [paren_loop]; rewrite Hb.
  - by rewrite Nat.add_0_r.
  - apply without_cons in Hw as (_ & Hbad & Hw). rewrite !decide_False by (intros ->; apply Hbad; by vm_compute; repeat constructor).
    rewrite IH by (done || lia). f_equal. lia.
Qed.

Lemma brace_loop_run s rest n p : drop p text = s ++ "}"%char :: rest -> without ["{"%char; "}"%char; bslash] s = true ->
  (length s < n)%nat -> brace_loop text n p 1 = ((p + length s)%nat, true).
Proof.
  revert n p. induction s as [|b s IH]; intros [|n] p Hd Hw Hn; cbn [app length] in *; try lia; apply drop_lookup in Hd as [Hb Hd];
    cbn [brace_loop]; rewrite Hb.
  - by rewrite Nat.add_0_r.
  - apply without_cons in Hw as (_ & Hbad & Hw). rewrite !decide_False by (intros ->; apply Hbad; by vm_compute; repeat constructor).
    rewrite IH by (done || lia). f_equal. lia.
Qed.

Lemma arith_loop_run s rest n p : drop p text = s ++ ")"%char :: ")"%char :: rest -> without ["("%char; ")"%char] s = true ->
  (length s < n)%nat -> arith_loop text n p 1 = ((p + length s)%nat, true).
Proof.
  revert n p. induction s as [|b s IH]; intros [|n] p Hd Hw Hn; cbn [app length] in *; try lia; apply drop_lookup in Hd as [Hb Hd];
    cbn [arith_loop]; rewrite Hb.
  - apply drop_lookup in Hd as [Hb2 _]. unfold pos_peek. rewrite Hb2. by rewrite Nat.add_0_r.
  - apply without_cons in Hw as (_ & Hbad & Hw). rewrite !decide_False by (intros [-> _]; apply Hbad; by vm_compute; repeat constructor).
    rewrite IH by (done || lia). f_equal. lia.
Qed.

Lemma until_run c s rest n p : drop p text = s ++ c :: rest -> without [c] s = true -> (length s < n)%nat ->
  advance_while text (fun b => negb (bool_decide (b = c))) n p = (p + length s)%nat.
Proof.
  revert n p. induction s as [|b s IH]; intros [|n] p Hd Hw Hn; cbn [app length] in *; try lia; apply drop_lookup in Hd as [Hb Hd];
    cbn [advance_while]; rewrite Hb.
  - rewrite bool_decide_true by done. cbn. lia.
  - apply without_cons in Hw as (_ & Hbad & Hw). rewrite bool_decide_false by (intros ->; apply Hbad; constructor). cbn.
    rewrite IH by (done || lia). lia.
Qed.

Lemma drop_rest_lt p s c rest : drop p text = s ++ c :: rest -> (length s < rest_from text p)%nat.
Proof. intros Hd%(f_equal length). rewrite length_drop, length_app in Hd. cbn in Hd. unfold rest_from. lia. Qed.

Lemma finish_part_printed mk width p s c rest : drop p text = s ++ c :: rest ->
  finish_part text mk width p ((p + length s)%nat, true) = (Ok ((p + length s + width)%nat, mk s) : rs _).
Proof. intros Hd. unfold finish_part. rewrite (slice_run p s (c :: rest)); [done|done|by destruct s]. Qed.

(** An expansion after its [$]. *)
Lemma parse_dollar_run x p rest : drop p text = print_expansion x ++ rest -> printable_expansion x = true ->
  parse_dollar text (S p) = (Ok (Some ((p + length (print_expansion x))%nat, x)) : rs _).
Proof.
  intros Hd Hx. unfold parse_dollar. destruct x as [s|s|ps|s|s|s|s|s]; try done; cbn [print_expansion printable_expansion] in *;
    rewrite <-?app_assoc in Hd; cbn [app] in Hd; apply drop_lookup in Hd as [_ Hd]; pose proof (drop_lookup _ _ _ _ Hd) as [Hb Hd1];
    rewrite Hb.
  - rewrite decide_False by done. rewrite decide_True by done. unfold parse_dollar_brace.
    rewrite (brace_loop_run s rest) by (done || by apply (drop_rest_lt _ s "}"%char rest)).
    rewrite (finish_part_printed _ _ _ s "}"%char rest) by done. cbn. do 3 f_equal. rewrite length_app. cbn. lia.
  - rewrite decide_True by done. unfold parse_dollar_paren. rewrite decide_False.
    + unfold parse_dollar_cmd_subst. rewrite (paren_loop_run s rest) by (done || by apply (drop_rest_lt _ s ")"%char rest)).
      rewrite (finish_part_printed _ _ _ s ")"%char rest) by done. cbn. do 3 f_equal. rewrite length_app. cbn. lia.
    + destruct s as [|b s]; apply drop_lookup in Hd1 as [Hd1 _]; rewrite Hd1; [done|]. intros [= ->].
      by apply without_cons in Hx as (_ & Hx & _); apply Hx; constructor.
  - rewrite decide_True by done. unfold parse_dollar_paren. apply drop_lookup in Hd1 as [Hb2 Hd2]. rewrite decide_True by done.
    unfold parse_dollar_arith. rewrite (arith_loop_run s rest) by (done || by apply (drop_rest_lt _ s ")"%char (")"%char :: rest))).
    rewrite (finish_part_printed _ _ _ s ")"%char (")"%char :: rest)) by done. cbn. do 3 f_equal. rewrite length_app. cbn. lia.
Qed.

Lemma after_dollar_run x p rest lit parts : drop p text = print_expansion x ++ rest -> printable_expansion x = true ->
  after_dollar text p lit parts = (Ok ((p + length (print_expansion x))%nat, [], flush lit parts ++ [x]) : rs _).
Proof. intros Hd Hx. unfold after_dollar. by rewrite (parse_dollar_run x p rest). Qed.

Lemma expansion_head x : printable_expansion x = true -> exists r, print_expansion x = "$"%char :: r.
Proof. destruct x; try done; by eexists. Qed.

(** ** Double quotes *)

Definition starts_literal (ps : list WordPart) : bool := match ps with Literal _ :: _ => true | _ => false end.

(** A literal is not split from the buffered text before it. *)
Definition separate (lit : str) (ps : list WordPart) : Prop := lit = [] \/ starts_literal ps = false.

Lemma no_adjacent_cons x ps : no_adjacent (x :: ps) = true -> no_adjacent ps = true.
Proof. destruct x, ps as [|[] ?]; done. Qed.

Lemma no_adjacent_literal s ps : no_adjacent (Literal s :: ps) = true -> starts_literal ps = false.
Proof. by destruct ps as [|[] ?]. Qed.

Lemma push_ascii b : byte_val b < 128 -> push_byte b = [b].
Proof. intros H. unfold push_byte. by rewrite (proj2 (Z.ltb_lt _ _)). Qed.

Lemma fuel_at p b n : text !! p = Some b -> (length text <= p + n)%nat -> exists n', n = S n' /\ (length text <= S p + n')%nat.
Proof. intros Hb%lookup_lt_Some Hn. destruct n as [|n]; [lia|]. exists n. split; [done|lia]. Qed.

Lemma dq_literal_run s rest n p lit parts : drop p text = escape_dq s ++ rest -> without [newline] s = true ->
  (length text <= p + n)%nat -> exists n', (length text <= p + length (escape_dq s) + n')%nat /\
    dq_loop text n p lit parts = (dq_loop text n' (p + length (escape_dq s)) (lit ++ s) parts : rs _).
Proof.
  revert n p lit. induction s as [|b s IH]; intros n p lit Hd Hw Hn.
  - exists n. cbn. by rewrite Nat.add_0_r, app_nil_r.
  - apply without_cons in Hw as (Hb & Hnl & Hw). change (escape_dq (b :: s)) with
      ((if decide (b ∈ dq_special) then [bslash; b] else [b]) ++ escape_dq s) in *. rewrite <-app_assoc in Hd.
    case_decide as Hs; cbn [app] in Hd; apply drop_lookup in Hd as [Hp Hd]; destruct (fuel_at p _ n Hp Hn) as (m & -> & Hm);
      cbn [dq_loop]; rewrite Hp.
    + apply drop_lookup in Hd as [Hp1 Hd]. rewrite decide_False by done. rewrite decide_True by done. unfold dq_backslash. rewrite Hp1.
      rewrite decide_False by (intros ->; apply Hnl; constructor). rewrite decide_True by done. rewrite push_ascii by done.
      destruct (IH m (p + 2)%nat (lit ++ [b])) as (n' & Hn' & Heq); [by rewrite Nat.add_comm|done|lia|].
      exists n'. rewrite Heq, <-app_assoc.
      replace (p + length ([bslash; b] ++ escape_dq s))%nat with (p + 2 + length (escape_dq s))%nat by (cbn; lia). done.
    + assert (Hno : forall c, c ∈ dq_special -> b <> c) by (intros c Hc ->; done).
      rewrite decide_False by (apply Hno; by vm_compute; repeat constructor).
      rewrite !decide_False by (apply Hno; by vm_compute; repeat constructor). rewrite push_ascii by done.
      destruct (IH m (S p) (lit ++ [b])) as (n' & Hn' & Heq); [done|done|lia|].
      exists n'. rewrite Heq, <-app_assoc.
      replace (p + length ([b] ++ escape_dq s))%nat with (S p + length (escape_dq s))%nat by (cbn; lia). done.
Qed.

Lemma dq_run ps rest n p lit parts :
  drop p text = concat (map print_dq_part ps) ++ dquote :: rest -> forallb printable_dq ps = true -> no_adjacent ps = true ->
  separate lit ps -> (length text <= p + n)%nat ->
  dq_loop text n p lit parts = (Ok ((p + length (concat (map print_dq_part ps)) + 1)%nat, flush lit parts ++ ps) : rs _).
Proof.
  revert n p lit parts. induction ps as [|x ps IH]; intros n p lit parts Hd Hp Ha Hs Hn.
  - cbn in Hd. apply drop_lookup in Hd as [Hb _]. destruct (fuel_at p _ n Hb Hn) as (m & -> & Hm). cbn [dq_loop].
    rewrite Hb, decide_True by done. cbn. rewrite app_nil_r, Nat.add_0_r. by rewrite Nat.add_1_r.
  - cbn [map concat forallb] in *. rewrite <-app_assoc in Hd. apply andb_true_iff in Hp as [Hx Hp].
    pose proof (no_adjacent_cons _ _ Ha) as Ha'. rewrite length_app.
    destruct (decide (printable_expansion x = true)) as [He|He].
    + assert (Hpr : print_dq_part x = print_expansion x) by by destruct x. rewrite Hpr in *.
      destruct (expansion_head x He) as [r Hr]. pose proof Hd as Hd'. rewrite Hr in Hd'. cbn [app] in Hd'.
      apply drop_lookup in Hd' as [Hb _]. destruct (fuel_at p _ n Hb Hn) as (m & -> & Hm). cbn [dq_loop].
      rewrite Hb. rewrite !decide_False by done. rewrite decide_True by done. rewrite (after_dollar_run x p _ _ _ Hd He). cbn [mbind res_bind].
      assert (Hlen : (0 < length (print_expansion x))%nat) by (rewrite Hr; cbn; lia).
      rewrite IH; [|by apply drop_app_at|done|done|by left|lia]. cbn [flush]. rewrite <-app_assoc. do 2 f_equal. lia.
    + destruct x as [s| | | | | | |]; try done. cbn [print_dq_part printable_dq] in *. apply andb_true_iff in Hx as [Hne Hw].
      destruct Hs as [-> | Hs]; [|done].
      destruct (dq_literal_run s _ n p [] parts Hd Hw Hn) as (m & Hm & ->). rewrite IH; [|by apply drop_app_at|done|done| |lia].
      * destruct s as [|c s]; [done|]. cbn [flush app]. rewrite <-app_assoc. do 2 f_equal. lia.
      * right. by eapply no_adjacent_literal.
Qed.

(** ** Words *)

Lemma literal_run s rest n p lit parts : drop p text = escape_all s ++ rest -> without [newline] s = true ->
  (length text <= p + n)%nat -> exists n', (length text <= p + length (escape_all s) + n')%nat /\
    word_parts_loop text n p lit parts = (word_parts_loop text n' (p + length (escape_all s)) (lit ++ s) parts : rs _).
Proof.
  revert n p lit. induction s as [|b s IH]; intros n p lit Hd Hw Hn.
  - exists n. cbn. by rewrite Nat.add_0_r, app_nil_r.
  - apply without_cons in Hw as (Hb & Hnl & Hw). change (escape_all (b :: s)) with ([bslash; b] ++ escape_all s) in *.
    cbn [app] in Hd. apply drop_lookup in Hd as [Hp Hd]. destruct (fuel_at p _ n Hp Hn) as (m & -> & Hm). cbn [word_parts_loop].
    rewrite Hp. apply drop_lookup in Hd as [Hp1 Hd]. unfold parse_word_part. rewrite !decide_False by done. rewrite decide_True by done.
    unfold parse_escaped_literal. rewrite Hp1, decide_False by (intros ->; apply Hnl; constructor). rewrite push_ascii by done. cbn [mbind res_bind mret res_ret].
    destruct (IH m (p + 2)%nat (lit ++ [b])) as (n' & Hn' & Heq); [by rewrite Nat.add_comm|done|lia|].
    exists n'. rewrite Heq, <-app_assoc.
    replace (p + length ([bslash; b] ++ escape_all s))%nat with (p + 2 + length (escape_all s))%nat by (cbn; lia). done.
Qed.

Lemma process_subst_run b mk s p rest lit parts : drop p text = [b; "("%char] ++ s ++ ")"%char :: rest ->
  without parens_quotes s = true -> (mk = if decide (b = "<"%char) then ProcessSubstIn else ProcessSubstOut) ->
  parse_process_subst text b p lit parts = (Ok ((p + length s + 3)%nat, [], flush lit parts ++ [mk s]) : rs _).
Proof.
  intros Hd Hw ->. cbn [app] in Hd. apply drop_lookup in Hd as [_ Hd]. apply drop_lookup in Hd as [_ Hd].
  unfold parse_process_subst. rewrite (Nat.add_comm p 2). cbn [Nat.add].
  rewrite (paren_loop_run s rest) by (done || by apply (drop_rest_lt _ s ")"%char rest)).
  rewrite (finish_part_printed _ _ _ s ")"%char rest) by done. cbn. do 3 f_equal. lia.
Qed.

Ltac same_cursor :=
  unfold mret, res_ret; match goal with |- Ok (?a, _, _) = Ok (?b, _, _) => replace b with a; [done|] end;
  cbn; rewrite ?length_app; cbn; lia.

(** A part other than a literal. *)
Lemma part_run x p b r rest lit parts : drop p text = print_part x ++ rest -> print_part x = b :: r -> printable x = true ->
  starts_literal [x] = false ->
  parse_word_part text b p lit parts = (Ok ((p + length (print_part x))%nat, [], flush lit parts ++ [x]) : rs _).
Proof.
  intros Hd Hr Hx Hl. unfold parse_word_part.
  destruct (decide (printable_expansion x = true)) as [He|He].
  - assert (Hpr : print_part x = print_expansion x) by by destruct x. rewrite Hpr in *.
    destruct (expansion_head x He) as [r' Hr']. rewrite Hr' in Hr. injection Hr as <- _.
    rewrite !decide_False by done. rewrite decide_True by done. unfold parse_dollar_part, pos_peek.
    assert (Hq : text !! S p <> Some squote /\ text !! S p <> Some dquote).
    { clear -Hd He. destruct x; try done; cbn [print_expansion] in Hd; rewrite <-!app_assoc in Hd; cbn [app] in Hd;
        apply drop_lookup in Hd as [_ Hd]; apply drop_lookup in Hd as [-> _]; done. }
    rewrite !decide_False by apply Hq. by apply after_dollar_run with rest.
  - destruct x as [s|s|ps|s|s|s|s|s]; try done; cbn [print_part] in *; injection Hr as <- _; rewrite <-?app_assoc in Hd.
    + rewrite decide_True by done. unfold parse_single_quoted_part. cbn [app] in Hd. apply drop_lookup in Hd as [_ Hd].
      unfold until. rewrite (until_run squote s rest) by (done || by eapply drop_rest_lt).
      rewrite (slice_run (S p) s (squote :: rest)) by (done || by destruct s). cbn [mbind res_bind mret res_ret].
      apply drop_rest_lt in Hd. unfold step_over, rest_from in *. rewrite (proj2 (Nat.ltb_lt _ _)) by lia.
      same_cursor.
    + rewrite decide_False by done. rewrite decide_True by done. unfold parse_double_quoted_part, parse_double_quoted.
      cbn [app] in Hd. apply drop_lookup in Hd as [_ Hd]. apply andb_true_iff in Hx as [Hx Ha].
      rewrite (dq_run ps rest) by (done || (by left) || (unfold rest_from; lia)). cbn [mbind res_bind mret res_ret fst snd flush app].
      same_cursor.
    + rewrite !decide_False by done. rewrite decide_True.
      * rewrite (process_subst_run _ ProcessSubstIn s p rest) by done. same_cursor.
      * split; [by left|]. cbn [app] in Hd. by apply drop_lookup in Hd as [_ [? _]%drop_lookup].
    + rewrite !decide_False by done. rewrite decide_True.
      * rewrite (process_subst_run _ ProcessSubstOut s p rest) by done. same_cursor.
      * split; [by right|]. cbn [app] in Hd. by apply drop_lookup in Hd as [_ [? _]%drop_lookup].
Qed.

Lemma print_part_head x : printable x = true -> starts_literal [x] = false -> exists b r, print_part x = b :: r.
Proof. destruct x; try done; intros; by eexists _, _. Qed.

Lemma word_run ps n p lit parts : drop p text = print_parts ps -> forallb printable ps = true -> no_adjacent ps = true ->
  separate lit ps -> (length text <= p + n)%nat -> word_parts_loop text n p lit parts = (Ok (flush lit parts ++ ps) : rs _).
Proof.
  revert n p lit parts. induction ps as [|x ps IH]; intros n p lit parts Hd Hp Ha Hs Hn.
  - cbn in Hd. apply (f_equal length) in Hd. rewrite length_drop in Hd. cbn in Hd.
    assert (Hb : text !! p = None) by (apply lookup_ge_None; lia).
    destruct n; cbn [word_parts_loop]; rewrite Hb; by rewrite app_nil_r.
  - change (print_parts (x :: ps)) with (print_part x ++ print_parts ps) in Hd. cbn [forallb] in Hp. apply andb_true_iff in Hp as [Hx Hp].
    pose proof (no_adjacent_cons _ _ Ha) as Ha'. destruct (starts_literal [x]) eqn:Hl.
    + destruct x as [s| | | | | | |]; try done. cbn [print_part printable] in *. apply andb_true_iff in Hx as [Hne Hw].
      destruct Hs as [-> | Hs]; [|done].
      destruct (literal_run s _ n p [] parts Hd Hw Hn) as (m & Hm & ->). rewrite IH; [|by apply drop_app_at|done|done| |lia].
      * destruct s as [|c s]; [done|]. cbn [flush app]. by rewrite <-app_assoc.
      * right. by eapply no_adjacent_literal.
    + destruct (print_part_head x Hx Hl) as (b & r & Hr). pose proof Hd as Hd'. rewrite Hr in Hd'. cbn [app] in Hd'.
      apply drop_lookup in Hd' as [Hb _]. destruct (fuel_at p _ n Hb Hn) as (m & -> & Hm). cbn [word_parts_loop]. rewrite Hb.
      rewrite (part_run x p b r (print_parts ps)) by done. cbn [mbind res_bind].
      assert (Hlen : (0 < length (print_part x))%nat) by (rewrite Hr; cbn; lia).
      rewrite IH; [|by apply drop_app_at|done|done|by left|lia]. cbn [flush]. by rewrite <-app_assoc.
Qed.
End run.

Lemma is_ascii_app a b : is_ascii a = true -> is_ascii b = true -> is_ascii (a ++ b) = true.
Proof. unfold is_ascii. rewrite forallb_app. intros -> ->. done. Qed.

Lemma is_ascii_concat (l : list str) : Forall (fun s => is_ascii s = true) l -> is_ascii (concat l) = true.
Proof. induction 1; [done|]. by apply is_ascii_app. Qed.

Lemma without_ascii bad s : without bad s = true -> is_ascii s = true.
Proof. unfold without. by intros [? _]%andb_true_iff. Qed.

Lemma escape_all_ascii s : is_ascii s = true -> is_ascii (escape_all s) = true.
Proof.
  unfold escape_all, is_ascii. induction s as [|b s IH]; [done|]. cbn [map concat forallb app].
  intros [Hb Hs]%andb_true_iff. rewrite Hb. by apply IH.
Qed.

Lemma escape_dq_ascii s : is_ascii s = true -> is_ascii (escape_dq s) = true.
Proof.
  unfold escape_dq, is_ascii. induction s as [|b s IH]; [done|]. cbn [map concat forallb].
  intros [Hb Hs]%andb_true_iff. rewrite forallb_app, (IH Hs). case_decide; cbn [forallb]; by rewrite Hb.
Qed.

Lemma print_expansion_ascii x : printable_expansion x = true -> is_ascii (print_expansion x) = true.
Proof. destruct x; try done; intros H%without_ascii; cbn [print_expansion]; by repeat apply is_ascii_app. Qed.

Lemma print_dq_ascii x : printable_dq x = true -> is_ascii (print_dq_part x) = true.
Proof.
  destruct x; try apply print_expansion_ascii. cbn [print_dq_part printable_dq]. intros [_ H%without_ascii]%andb_true_iff.
  by apply escape_dq_ascii.
Qed.

Lemma print_part_ascii x : printable x = true -> is_ascii (print_part x) = true.
Proof.
  destruct x; try apply print_expansion_ascii; cbn [print_part printable]; intros H.
  - apply andb_true_iff in H as [_ H%without_ascii]. by apply escape_all_ascii.
  - apply without_ascii in H. by repeat apply is_ascii_app.
  - apply andb_true_iff in H as [H _]. repeat apply is_ascii_app; [done| |done].
    apply is_ascii_concat, Forall_map, Forall_forall. intros x Hx. apply print_dq_ascii.
    rewrite forallb_forall in H. by apply H, list_elem_of_In.
  - apply without_ascii in H. by repeat apply is_ascii_app.
  - apply without_ascii in H. by repeat apply is_ascii_app.
Qed.

(** C12: parsing inverts printing: for printable parts (literals escaped byte by
    byte, both kinds of quotes, parameters, command, arithmetic and process
    substitutions, nested as the grammar allows) the word parser returns exactly
    the parts that were printed. *)
Theorem parse_print_parts {E} (ps : list WordPart) : forallb printable ps = true -> no_adjacent ps = true ->
  parse_word_parts (print_parts ps) = (Ok ps : res E _).
Proof.
  intros Hp Ha. unfold parse_word_parts. rewrite (word_run _ ) with (ps := ps); [done| |done|done|done|by left|lia].
  apply is_ascii_concat, Forall_map, Forall_forall. intros x Hx. apply print_part_ascii.
  rewrite forallb_forall in Hp. by apply Hp, list_elem_of_In.
Qed.

Definition demo_parts : list WordPart :=
  [Literal #"a$b"; SingleQuoted #"x y"; DoubleQuoted [Literal #"say $"; Param #"who:-me"; CommandSubstitution #"ls -l"];
   Arithmetic #"1 + 2"; ProcessSubstIn #"sort f"].

Lemma parse_print_parts_witness : parse_word_parts (print_parts demo_parts) = (Ok demo_parts : res unit _).
Proof. apply (parse_print_parts demo_parts); reflexivity. Defined.
