(* ===== verification/Parser.v ===== *)
(** * Parser (crates/wasmsh-parse/src/lib.rs)

    The recursive-descent parser as computations on the state [Parser]: the
    lexer, the current token, the tokens peeked at, the pending here-documents
    and the nesting depth.  The only recursive entry is [parse_command], which
    the source bounds by [MAX_NESTING_DEPTH]; everything between two calls of it
    is a definition over the recursive call.  Loops are [loop], which allows one
    round more than the source has bytes.  Running out of rounds or of recursion
    is a [Panic], which [ParserProps] excludes. *)

From S2P Require Import Prelude Strings Ast Lexer WordParser.

Record ParseError := { pe_message : str; pe_offset : Z }.

Definition TERMINATOR_WORDS : list str := [ #"then"; #"elif"; #"else"; #"fi"; #"do"; #"done"; #"esac"; #"}" ].

Definition MAX_NESTING_DEPTH : Z := 24.

Record PendingHereDoc := { delimiter : str; strip_tabs : bool; expand_body : bool }.

Record Parser := {
  lexer : Lexer;
  current : Token;
  peeked : list Token;
  prev_end : Z;
  pending_heredocs : list PendingHereDoc;
  nesting_depth : Z;
}.

Definition set_lexer (l : Lexer) (s : Parser) : Parser :=
  {| lexer := l; current := current s; peeked := peeked s; prev_end := prev_end s;
     pending_heredocs := pending_heredocs s; nesting_depth := nesting_depth s |}.
Definition set_current (t : Token) (s : Parser) : Parser :=
  {| lexer := lexer s; current := t; peeked := peeked s; prev_end := prev_end s;
     pending_heredocs := pending_heredocs s; nesting_depth := nesting_depth s |}.
Definition set_peeked (ts : list Token) (s : Parser) : Parser :=
  {| lexer := lexer s; current := current s; peeked := ts; prev_end := prev_end s;
     pending_heredocs := pending_heredocs s; nesting_depth := nesting_depth s |}.
Definition set_prev_end (e : Z) (s : Parser) : Parser :=
  {| lexer := lexer s; current := current s; peeked := peeked s; prev_end := e;
     pending_heredocs := pending_heredocs s; nesting_depth := nesting_depth s |}.
Definition set_pending (hs : list PendingHereDoc) (s : Parser) : Parser :=
  {| lexer := lexer s; current := current s; peeked := peeked s; prev_end := prev_end s;
     pending_heredocs := hs; nesting_depth := nesting_depth s |}.
Definition set_nesting (d : Z) (s : Parser) : Parser :=
  {| lexer := lexer s; current := current s; peeked := peeked s; prev_end := prev_end s;
     pending_heredocs := pending_heredocs s; nesting_depth := d |}.

Definition lex_err (e : LexerError) : ParseError := {| pe_message := lex_message e; pe_offset := span_start (lex_span e) |}.

(** [{:?}] of a token kind. *)
Definition TokenKind_debug (k : TokenKind) : str :=
  match k with
  | TWord true => #"Word { is_reserved_candidate: true }"
  | TWord false => #"Word { is_reserved_candidate: false }"
  | Semi => #"Semi" | Newline => #"Newline" | Pipe => #"Pipe" | AndAnd => #"AndAnd" | OrOr => #"OrOr" | Amp => #"Amp"
  | PipeAmp => #"PipeAmp" | Less => #"Less" | Greater => #"Greater" | GreaterGreater => #"GreaterGreater"
  | GreaterPipe => #"GreaterPipe" | LessLess => #"LessLess" | LessLessDash => #"LessLessDash"
  | LessLessLess => #"LessLessLess" | LessGreater => #"LessGreater" | AmpGreater => #"AmpGreater"
  | AmpGreaterGreater => #"AmpGreaterGreater" | LParen => #"LParen" | RParen => #"RParen"
  | DblLBracket => #"DblLBracket" | DblRBracket => #"DblRBracket" | Eof => #"Eof"
  end.

Definition u32_add (a b : Z) : Z := wrap_add U32_MAX a b.

(** [find] of an ASCII character. *)
Definition find_byte (c : byte) (s : str) : option nat := find_sub [c] s.

(** [splitn]. *)
Fixpoint splitn (n : nat) (c : byte) (s : str) : list str :=
  match n with
  | O => []
  | S O => [s]
  | S n' => match find_byte c s with
            | Some i => take i s :: splitn n' c (drop (S i) s)
            | None => [s]
            end
  end.

Fixpoint trim_start_matches (c : byte) (s : str) : str :=
  match s with
  | b :: s' => if decide (b = c) then trim_start_matches c s' else s
  | [] => []
  end.

(** [str::lines]: a line break is LF or CRLF, and a final one ends the last line. *)
Definition strip_cr (s : str) : str :=
  if ends_with [carriage_return] s then take (length s - 1) s else s.
Fixpoint lines_of (pieces : list str) : list str :=
  match pieces with
  | [] => []
  | [last] => match last with [] => [] | _ => [last] end
  | p :: ps => strip_cr p :: lines_of ps
  end.
Definition lines (s : str) : list str := lines_of (split_on newline s).

Definition is_assignment_text (text : str) : bool :=
  match find_byte "="%char text with
  | None => false
  | Some eq_pos =>
      let name := take eq_pos text in
      if decide (name = []) then false
      else
        let name := if ends_with #"+" name then take (length name - 1) name else name in
        if decide (name = []) then false
        else
          let subscripted :=
            match find_byte "["%char name with
            | Some bracket_start => if ends_with #"]" name then Some (take bracket_start name) else None
            | None => Some name
            end in
          match subscripted with
          | None => false
          | Some [] => false
          | Some (first :: rest) =>
              (is_ascii_alphabetic first || bool_decide (first = "_"%char)) &&
              forallb (fun c => is_ascii_alphanumeric c || bool_decide (c = "_"%char)) rest
          end
  end.

Definition heredoc_delimiter (word : Word) : str :=
  concat (map (fun part =>
    match part with
    | Literal s | SingleQuoted s => s
    | DoubleQuoted ps => concat (map (fun p => match p with Literal s => s | _ => [] end) ps)
    | _ => []
    end) (parts word)).

(** ** Attaching here-document bodies *)

Definition is_here_doc (op : RedirectionOp) : bool :=
  match op with HereDoc | HereDocStrip => true | _ => false end.

Definition set_here_doc_body (b : option HereDocBody) (r : Redirection) : Redirection :=
  {| redir_fd := redir_fd r; redir_op := redir_op r; redir_target := redir_target r;
     redir_here_doc_body := b; redir_span := redir_span r |}.

(** The redirections with the next bodies, and the bodies left. *)
Fixpoint assign_redirections (rs : list Redirection) (bodies : list HereDocBody) : list Redirection * list HereDocBody :=
  match rs with
  | [] => ([], bodies)
  | r :: rs' =>
      let '(r', bodies') :=
        if is_here_doc (redir_op r) && negb (bool_decide (is_Some (redir_here_doc_body r)))
        then (set_here_doc_body (head bodies) r, tail bodies)
        else (r, bodies) in
      let '(rs'', bodies'') := assign_redirections rs' bodies' in
      (r' :: rs'', bodies'')
  end.

Definition assign_heredoc_bodies_cmd (cmd : Command) (bodies : list HereDocBody) : Command * list HereDocBody :=
  match cmd with
  | Simple sc =>
      let '(rs, b) := assign_redirections (sc_redirections sc) bodies in
      (Simple {| sc_assignments := sc_assignments sc; sc_words := sc_words sc; sc_redirections := rs; sc_span := sc_span sc |}, b)
  | Subshell body rs sp => let '(rs, b) := assign_redirections rs bodies in (Subshell body rs sp, b)
  | Group body rs sp => let '(rs, b) := assign_redirections rs bodies in (Group body rs sp, b)
  | If c t e el rs sp => let '(rs, b) := assign_redirections rs bodies in (If c t e el rs sp, b)
  | While c body rs sp => let '(rs, b) := assign_redirections rs bodies in (While c body rs sp, b)
  | Until c body rs sp => let '(rs, b) := assign_redirections rs bodies in (Until c body rs sp, b)
  | For v ws body rs sp => let '(rs, b) := assign_redirections rs bodies in (For v ws body rs sp, b)
  | ArithFor i c st body rs sp => let '(rs, b) := assign_redirections rs bodies in (ArithFor i c st body rs sp, b)
  | Case w items rs sp => let '(rs, b) := assign_redirections rs bodies in (Case w items rs sp, b)
  | Select v ws body rs sp => let '(rs, b) := assign_redirections rs bodies in (Select v ws body rs sp, b)
  | FunctionDef _ _ _ | DoubleBracket _ _ | ArithCommand _ _ => (cmd, bodies)
  end.

(** Visit a list in order, passing the bodies on. *)
Fixpoint assign_each {A} (visit : A -> list HereDocBody -> A * list HereDocBody) (l : list A) (bodies : list HereDocBody)
  : list A * list HereDocBody :=
  match l with
  | [] => ([], bodies)
  | x :: l' => let '(x', b) := visit x bodies in let '(l'', b') := assign_each visit l' b in (x' :: l'', b')
  end.

Definition assign_heredoc_bodies_pipeline (p : Pipeline) (bodies : list HereDocBody) : Pipeline * list HereDocBody :=
  match p with
  | mkPipeline timed time_posix negated commands pipe_stderr =>
      let '(commands, b) := assign_each assign_heredoc_bodies_cmd commands bodies in
      (mkPipeline timed time_posix negated commands pipe_stderr, b)
  end.

Definition assign_heredoc_bodies_and_or (a : AndOrList) (bodies : list HereDocBody) : AndOrList * list HereDocBody :=
  match a with
  | mkAndOrList first rest =>
      let '(first, b) := assign_heredoc_bodies_pipeline first bodies in
      let '(rest, b) := assign_each (fun '(op, p) b => let '(p, b) := assign_heredoc_bodies_pipeline p b in ((op, p), b)) rest b in
      (mkAndOrList first rest, b)
  end.

Definition assign_heredoc_bodies_cc (cc : CompleteCommand) (bodies : list HereDocBody) : CompleteCommand * list HereDocBody :=
  match cc with
  | mkCompleteCommand list span =>
      let '(list, b) := assign_each assign_heredoc_bodies_and_or list bodies in (mkCompleteCommand list span, b)
  end.

Section parser.
Context (source : list Ascii.ascii).

Abbreviation px := (comp Parser ParseError).

(** ** Loops and tokens *)

(** [step] continues with [inl] and leaves the loop with [inr]. *)
Fixpoint iterate {A B} (n : nat) (step : A -> px (A + B)) (a : A) : px B :=
  match n with
  | O => panic "out of rounds"
  | S n' => r ← step a; match r with inl a' => iterate n' step a' | inr b => mret b end
  end.

Definition loop {A B} (step : A -> px (A + B)) (a : A) : px B := iterate (S (length source)) step a.

Definition next_token_px : px Token := fun s =>
  match next_token source (lexer s) with
  | (l, Ok t) => (set_lexer l s, Ok t)
  | (l, Err e) => (set_lexer l s, Err (lex_err e))
  | (l, Panic w) => (set_lexer l s, Panic w)
  end.

(** The [Ok] of a call whose error is ignored; its effects stay. *)
Definition attempt {A} (m : px A) : px (option A) := fun s =>
  match m s with
  | (s', Ok a) => (s', Ok (Some a))
  | (s', Err _) => (s', Ok None)
  | (s', Panic w) => (s', Panic w)
  end.

Definition finally_px {A} (f : Parser -> Parser) (m : px A) : px A := fun s => let '(s', r) := m s in (f s', r).

Definition error_at {A} (message : str) (offset : Z) : px A := throw {| pe_message := message; pe_offset := offset |}.

Definition error_here {A} (message : str) : px A := s ← get; error_at message (span_start (token_span (current s))).

Definition enter_nesting : px unit :=
  s ← get;
  if MAX_NESTING_DEPTH <=? nesting_depth s
  then error_here (#"maximum nesting depth (" ++ Z_to_string MAX_NESTING_DEPTH ++ #") exceeded")
  else modify (fun s => set_nesting (nesting_depth s + 1) s).

Definition exit_nesting (s : Parser) : Parser := set_nesting (sat_sub (nesting_depth s) 1) s.

Definition advance : px Token :=
  s ← get;
  let prev := current s in
  _ ← modify (set_prev_end (span_end (token_span prev)));
  match peeked s with
  | tok :: rest => _ ← modify (fun s => set_current tok (set_peeked rest s)); mret prev
  | [] => tok ← next_token_px; _ ← modify (set_current tok); mret prev
  end.

(** [while self.peeked.len() <= n]: [k] more tokens. *)
Fixpoint fill_peeked (k : nat) : px unit :=
  match k with
  | O => mret tt
  | S k' => tok ← next_token_px; _ ← modify (fun s => set_peeked (peeked s ++ [tok]) s); fill_peeked k'
  end.

Definition peek_nth (n : nat) : px Token :=
  s ← get;
  _ ← fill_peeked (S n - length (peeked s));
  s' ← get;
  match peeked s' !! n with Some t => mret t | None => panic "index out of bounds" end.

Definition at_kind (k : TokenKind) : px bool := s ← get; mret (bool_decide (kind (current s) = k)).

Definition is_word_kind (k : TokenKind) : bool := match k with TWord _ => true | _ => false end.

Definition at_word : px bool := s ← get; mret (is_word_kind (kind (current s))).

Definition tok_text (t : Token) : px str := lift_res (text source t).

Definition current_text : px str := s ← get; tok_text (current s).

Definition at_word_eq (w : str) : px bool :=
  b ← at_word;
  if (b : bool) then t ← current_text; mret (bool_decide (t = w)) else mret false.

Definition is_redirection_kind (k : TokenKind) : bool :=
  match k with
  | Less | Greater | GreaterGreater | GreaterPipe | LessLess | LessLessDash | LessLessLess | LessGreater
  | AmpGreater | AmpGreaterGreater => true
  | _ => false
  end.

Definition at_redirection : px bool := s ← get; mret (is_redirection_kind (kind (current s))).

(** The operators that take a descriptor prefix. *)
Definition is_fd_redirection_kind (k : TokenKind) : bool :=
  match k with AmpGreater | AmpGreaterGreater => false | _ => is_redirection_kind k end.

Definition is_single_digit (t : str) : bool := match t with [b] => is_ascii_digit b | _ => false end.

Definition at_fd_prefix_redirection : px bool :=
  w ← at_word;
  if negb w then mret false
  else
    t ← current_text;
    if negb (is_single_digit t) then mret false
    else next ← attempt (peek_nth 0); mret (match next with Some tok => is_fd_redirection_kind (kind tok) | None => false end).

(** [matches!(self.peek_nth(n), Ok(tok) if tok.kind == k)]. *)
Definition peek_is (n : nat) (k : TokenKind) : px bool :=
  next ← attempt (peek_nth n); mret (match next with Some tok => bool_decide (kind tok = k) | None => false end).

Definition peek_is_lparen : px bool := peek_is 0 LParen.

Definition is_double_semi : px bool :=
  b ← at_kind Semi; if (b : bool) then peek_is 0 Semi else mret false.

Definition is_case_fallthrough : px bool :=
  b ← at_kind Semi; if (b : bool) then peek_is 0 Amp else mret false.

Definition is_case_continue_testing : px bool :=
  b ← at_kind Semi;
  if negb b then mret false
  else c ← peek_is 0 Semi; if negb c then mret false else peek_is 1 Amp.

Definition at_command_start : px bool :=
  s ← get;
  match kind (current s) with
  | LParen | DblLBracket => mret true
  | TWord _ => t ← current_text; mret (negb (bool_decide (t ∈ TERMINATOR_WORDS)))
  | _ => at_redirection
  end.

Definition skip_newlines : px unit :=
  loop (fun _ => b ← at_kind Newline; if (b : bool) then _ ← advance; mret (inl tt) else mret (inr tt)) tt.

Definition span_from_px (start : Z) : px Span := s ← get; mret {| span_start := start; span_end := prev_end s |}.

Definition current_start : px Z := s ← get; mret (span_start (token_span (current s))).

Definition expect_word (expected : str) : px Token :=
  b ← at_word_eq expected;
  if (b : bool) then advance
  else t ← current_text; error_here (#"expected '" ++ expected ++ #"', got '" ++ t ++ #"'").

(** ** Words, assignments, redirections *)

Definition parse_word : px Word :=
  tok ← advance; t ← tok_text tok;
  ps ← lift_res (parse_word_parts t);
  mret {| parts := ps; word_span := token_span tok |}.

Definition parse_process_substitution_word : px Word :=
  s ← get;
  let start := span_start (token_span (current s)) in
  let is_input := bool_decide (kind (current s) = Less) in
  _ ← advance; _ ← advance;
  inner_start ← current_start;
  _ ← loop (fun depth =>
        s ← get;
        match kind (current s), depth with
        | LParen, _ => _ ← advance; mret (inl (S depth))
        | RParen, (O | 1%nat) => mret (inr tt)
        | RParen, S d => _ ← advance; mret (inl d)
        | Eof, _ => error_at #"unterminated process substitution" start
        | _, _ => _ ← advance; mret (inl depth)
        end) 1%nat;
  inner_end ← current_start;
  inner ← lift_res (str_slice source (Z.to_nat inner_start) (Z.to_nat inner_end));
  _ ← advance;
  sp ← span_from_px start;
  mret {| parts := [if is_input : bool then ProcessSubstIn (trim inner) else ProcessSubstOut (trim inner)]; word_span := sp |}.

(** The elements between the parentheses of a compound assignment. *)
Definition collect_elements : px (list str) :=
  loop (fun elements =>
    s ← get;
    match kind (current s) with
    | RParen | Eof => mret (inr elements)
    | Newline => _ ← advance; mret (inl elements)
    | TWord _ => w ← advance; t ← tok_text w; mret (inl (elements ++ [t]))
    | _ => mret (inr elements)
    end) [].

(** The end of the closing parenthesis, or of the token that stands there. *)
Definition compound_end : px Z :=
  s ← get;
  if decide (kind (current s) = RParen) then tok ← advance; mret (span_end (token_span tok))
  else mret (span_end (token_span (current s))).

Definition parse_compound_assign_word : px Word :=
  tok ← advance; t ← tok_text tok;
  _ ← advance;
  elements ← collect_elements;
  end_span ← compound_end;
  mret {| parts := [Literal (t ++ #"(" ++ join #" " elements ++ #")")];
          word_span := {| span_start := span_start (token_span tok); span_end := end_span |} |}.

Definition parse_assignment_compound_value (tok : Token) (eq_pos : nat) : px (option Word) :=
  b ← at_kind LParen;
  if negb b then mret None
  else
    _ ← advance;
    let paren_start := u32_add (u32_add (span_start (token_span tok)) (as_u32 eq_pos)) 1 in
    elements ← collect_elements;
    end_span ← compound_end;
    mret (Some {| parts := [Literal (#"(" ++ join #" " elements ++ #")")];
                  word_span := {| span_start := paren_start; span_end := end_span |} |}).

Definition make_assignment_word (tok : Token) (eq_pos : nat) (val_str : str) : px Word :=
  let val_start := u32_add (u32_add (span_start (token_span tok)) (as_u32 eq_pos)) 1 in
  ps ← lift_res (parse_word_parts val_str);
  mret {| parts := ps; word_span := {| span_start := val_start; span_end := span_end (token_span tok) |} |}.

Definition parse_assignment : px Assignment :=
  tok ← advance; t ← tok_text tok;
  match find_byte "="%char t with
  | None => panic "assignment must contain '='"
  | Some eq_pos =>
      let name := take eq_pos t in
      let val_str := drop (S eq_pos) t in
      value ← match val_str with
              | [] => parse_assignment_compound_value tok eq_pos
              | _ => w ← make_assignment_word tok eq_pos val_str; mret (Some w)
              end;
      mret {| asg_name := name; asg_value := value; asg_span := token_span tok |}
  end.

Definition heredoc_delimiter_is_quoted (word : Word) : bool :=
  if existsb (fun part => match part with Literal _ => false | _ => true end) (parts word) then true
  else
    match (str_slice source (Z.to_nat (span_start (word_span word))) (Z.to_nat (span_end (word_span word))) : res unit str) with
    | Ok t => bool_decide (squote ∈ t) || bool_decide (dquote ∈ t)
    | _ => false
    end.

Definition redirection_op (k : TokenKind) : option (RedirectionOp * bool) :=
  match k with
  | Less => Some (Input, false)
  | Greater | AmpGreater => Some (Output, false)
  | GreaterGreater => Some (Append, false)
  | GreaterPipe => Some (Clobber, false)
  | AmpGreaterGreater => Some (AppendBoth, false)
  | LessGreater => Some (ReadWrite, false)
  | LessLess => Some (HereDoc, true)
  | LessLessDash => Some (HereDocStrip, true)
  | LessLessLess => Some (HereString, false)
  | _ => None
  end.

Definition is_amp_greater (k : TokenKind) : bool := match k with AmpGreater | AmpGreaterGreater => true | _ => false end.
Definition is_greater_or_less (k : TokenKind) : bool := match k with Greater | Less => true | _ => false end.

Definition parse_redirection : px Redirection :=
  op_tok ← advance;
  let k := kind op_tok in
  let start := span_start (token_span op_tok) in
  match redirection_op k with
  | None => error_at (#"unexpected redirection operator: " ++ TokenKind_debug k) start
  | Some (op, is_heredoc) =>
      amp ← at_kind Amp;
      if amp && is_greater_or_less k then
        _ ← advance;
        w ← at_word;
        if (w : bool) then
          target ← parse_word;
          mret {| redir_fd := None; redir_op := if decide (k = Greater) then DupOutput else DupInput; redir_target := target;
                  redir_here_doc_body := None; redir_span := {| span_start := start; span_end := span_end (word_span target) |} |}
        else error_here #"expected fd number after >&"
      else
        w ← at_word;
        if negb w then error_here #"expected word after redirection operator"
        else
          target ← parse_word;
          _ ← (if (is_heredoc : bool)
               then modify (fun s => set_pending (pending_heredocs s ++
                      [ {| delimiter := heredoc_delimiter target;
                           strip_tabs := match op with HereDocStrip => true | _ => false end;
                           expand_body := negb (heredoc_delimiter_is_quoted target) |} ]) s)
               else mret tt);
          mret {| redir_fd := if is_amp_greater k then Some U32_MAX else None; redir_op := op; redir_target := target;
                  redir_here_doc_body := None; redir_span := {| span_start := start; span_end := span_end (word_span target) |} |}
  end.

Definition parse_fd_prefixed_redirection : px Redirection :=
  fd_text ← current_text;
  let fd := default 0 (parse_unsigned U32_MAX fd_text) in
  _ ← advance;
  redir ← parse_redirection;
  mret {| redir_fd := Some fd; redir_op := redir_op redir; redir_target := redir_target redir;
          redir_here_doc_body := redir_here_doc_body redir; redir_span := redir_span redir |}.

Definition parse_trailing_redirections : px (list Redirection) :=
  loop (fun redirections =>
    a ← at_redirection;
    b ← (if (a : bool) then mret true else at_fd_prefix_redirection);
    if negb b then mret (inr redirections)
    else
      c ← at_fd_prefix_redirection;
      r ← (if (c : bool) then parse_fd_prefixed_redirection else parse_redirection);
      mret (inl (redirections ++ [r]))) [].

(** ** Simple commands *)

(** Assignments, words, redirections, and whether a word was seen. *)
Abbreviation simple_acc := (list Assignment * list Word * list Redirection * bool)%type.

Definition parse_simple_word_part (acc : simple_acc) : px simple_acc :=
  let '(assignments, words, redirections, past_assignments) := acc in
  t ← current_text;
  if negb past_assignments && is_assignment_text t then
    a ← parse_assignment; mret (assignments ++ [a], words, redirections, past_assignments)
  else
    p ← (if ends_with #"=" t then peek_is_lparen else mret false);
    w ← (if (p : bool) then parse_compound_assign_word else parse_word);
    mret (assignments, words ++ [w], redirections, true).

(** [None]: no part of a simple command stands here. *)
Definition parse_simple_command_part (acc : simple_acc) : px (option simple_acc) :=
  let '(assignments, words, redirections, past_assignments) := acc in
  fd ← at_fd_prefix_redirection;
  if (fd : bool) then
    r ← parse_fd_prefixed_redirection; mret (Some (assignments, words, redirections ++ [r], past_assignments))
  else
    s ← get;
    ps ← (if is_greater_or_less (kind (current s)) then peek_is_lparen else mret false);
    if (ps : bool) then
      w ← parse_process_substitution_word; mret (Some (assignments, words ++ [w], redirections, true))
    else
      rd ← at_redirection;
      if (rd : bool) then
        r ← parse_redirection; mret (Some (assignments, words, redirections ++ [r], past_assignments))
      else
        w ← at_word;
        if (w : bool) then acc' ← parse_simple_word_part acc; mret (Some acc')
        else mret None.

Definition parse_simple_command : px SimpleCommand :=
  start ← current_start;
  acc ← loop (fun acc =>
          r ← parse_simple_command_part acc;
          mret (match r with Some acc' => inl acc' | None => inr acc end)) ([], [], [], false);
  let '(assignments, words, redirections, _) := acc in
  match assignments, words, redirections with
  | [], [], [] => error_here #"expected a command"
  | _, _, _ =>
      sp ← span_from_px start;
      mret {| sc_assignments := assignments; sc_words := words; sc_redirections := redirections; sc_span := sp |}
  end.

(** ** Here-documents *)

(** The line at [scan_pos]: where it starts and ends, and its text. *)
Definition heredoc_line (scan_pos : nat) : res ParseError (nat * nat * str) :=
  rest ← str_slice source scan_pos (length source);
  let line_end := match find_byte newline rest with Some i => (scan_pos + i)%nat | None => length source end in
  line ← str_slice source scan_pos line_end;
  mret (scan_pos, line_end, line).

Definition heredoc_check_line (line : str) (strip : bool) : str := if strip then trim_start_matches tab line else line.

Definition build_heredoc_body (body_start line_start : nat) (strip expand_it : bool) : res ParseError HereDocBody :=
  raw_body ← str_slice source body_start line_start;
  let content_ :=
    if strip
    then join [newline] (map (trim_start_matches tab) (lines raw_body)) ++ (if ends_with [newline] raw_body then [newline] else [])
    else raw_body in
  mret {| content := content_; expand := expand_it; here_doc_span := {| span_start := as_u32 body_start; span_end := as_u32 line_start |} |}.

Definition advance_heredoc_scan (line_end : nat) : nat := if (line_end <? length source)%nat then S line_end else line_end.

(** The inner loop of [resolve_heredocs]: the body and where the scan goes on. *)
Fixpoint heredoc_loop (n : nat) (hd : PendingHereDoc) (body_start scan_pos : nat) : res ParseError (HereDocBody * nat) :=
  match n with
  | O => Panic "out of rounds"
  | S n' =>
      l ← heredoc_line scan_pos;
      let '(line_start, line_end, line) := l in
      if decide (heredoc_check_line line (strip_tabs hd) = delimiter hd) then
        body ← build_heredoc_body body_start line_start (strip_tabs hd) (expand_body hd);
        mret (body, advance_heredoc_scan line_end)
      else if (length source <=? line_end)%nat then
        Err {| pe_message := #"unterminated here-doc, expected '" ++ delimiter hd ++ #"'"; pe_offset := as_u32 body_start |}
      else heredoc_loop n' hd body_start (S line_end)
  end.

Fixpoint heredoc_bodies (hds : list PendingHereDoc) (scan_pos : nat) : res ParseError (list HereDocBody * nat) :=
  match hds with
  | [] => mret ([], scan_pos)
  | hd :: hds' =>
      r ← heredoc_loop (S (length source)) hd scan_pos scan_pos;
      let '(body, next) := r in
      r' ← heredoc_bodies hds' next;
      let '(bodies, final) := r' in
      mret (body :: bodies, final)
  end.

(** Restart the lexer at [p] and read the current token there. *)
Definition restart_at (p : nat) : px unit :=
  _ ← modify (fun s => set_peeked [] (set_lexer (set_position p (lexer s)) s));
  tok ← next_token_px;
  modify (set_current tok).

Definition resolve_heredocs (cc : CompleteCommand) : px CompleteCommand :=
  s ← get;
  r ← lift_res (heredoc_bodies (pending_heredocs s) (Z.to_nat (span_end (token_span (current s)))));
  let '(bodies, scan_pos) := r in
  _ ← modify (set_pending []);
  _ ← restart_at scan_pos;
  mret (fst (assign_heredoc_bodies_cc cc bodies)).

(** ** Arithmetic text *)

(** The scan of [collect_arith_expr] for the closing parentheses. *)
Fixpoint arith_scan (n p depth : nat) : res (option nat) nat :=
  match n, source !! p with
  | S n', Some b =>
      if decide (b = "("%char) then arith_scan n' (S p) (S depth)
      else if decide (b = ")"%char) then
        match depth with
        | S d => arith_scan n' (S p) d
        | O => if decide (source !! S p = Some ")"%char) then Ok p else Err (Some p)
        end
      else arith_scan n' (S p) depth
  | _, _ => Err None
  end.

Definition collect_arith_expr : px str :=
  expr_start ← current_start;
  let start := Z.to_nat expr_start in
  match arith_scan (length source - start) start 0 with
  | Ok p =>
      inner ← lift_res (str_slice source start p);
      let end_pos := (p + 2)%nat in
      _ ← modify (set_prev_end (as_u32 end_pos));
      _ ← restart_at end_pos;
      mret (trim inner)
  | Err (Some p) => error_at #"expected '))' to close arithmetic expression" (as_u32 p)
  | Err None => error_at #"unterminated arithmetic expression, expected '))'" (as_u32 start)
  | Panic w => panic w
  end.

Definition parse_arith_command : px Command :=
  start ← current_start;
  _ ← advance; _ ← advance;
  expr ← collect_arith_expr;
  sp ← span_from_px start;
  mret (ArithCommand expr sp).

Definition is_arith_for_start : px bool :=
  s ← get;
  if decide (kind (current s) = LParen) then
    next ← attempt (peek_nth 0);
    mret (match next with
          | Some tok => bool_decide (kind tok = LParen) && (span_start (token_span tok) =? span_end (token_span (current s)))
          | None => false
          end)
  else mret false.

(** ** Loop headers and case items *)

Definition consume_optional_semi : px unit :=
  b ← at_kind Semi; if (b : bool) then _ ← advance; mret tt else mret tt.

(** The words up to a terminator. *)
Definition loop_words : px (list Word) :=
  loop (fun words =>
    w ← at_word;
    if negb w then mret (inr words)
    else
      t ← current_text;
      if decide (t = #"do" \/ t ∈ TERMINATOR_WORDS) then mret (inr words)
      else x ← parse_word; mret (inl (words ++ [x]))) [].

Definition parse_loop_words_clause : px (option (list Word)) :=
  b ← at_word_eq #"in";
  if negb b then _ ← consume_optional_semi; mret None
  else
    _ ← advance;
    words ← loop_words;
    _ ← consume_optional_semi;
    mret (Some words).

Definition parse_case_patterns : px (list Word) :=
  b ← at_kind LParen;
  _ ← (if (b : bool) then _ ← advance; mret tt else mret tt);
  first ← parse_word;
  patterns ← loop (fun patterns =>
               b ← at_kind Pipe;
               if (b : bool) then _ ← advance; w ← parse_word; mret (inl (patterns ++ [w]))
               else mret (inr patterns)) [first];
  b ← at_kind RParen;
  if negb b then error_here #"expected ')' after case pattern"
  else _ ← advance; mret patterns.

Definition parse_case_terminator : px CaseTerminator :=
  b ← is_case_continue_testing;
  if (b : bool) then _ ← advance; _ ← advance; _ ← advance; mret ContinueTesting
  else
    b ← is_double_semi;
    if (b : bool) then _ ← advance; _ ← advance; mret Break
    else
      b ← is_case_fallthrough;
      if (b : bool) then _ ← advance; _ ← advance; mret Fallthrough
      else mret Break.

Definition parse_double_bracket : px Command :=
  start ← current_start;
  _ ← advance;
  words ← loop (fun words =>
            s ← get;
            match kind (current s) with
            | DblRBracket => _ ← advance; mret (inr words)
            | Eof => error_here #"expected ']]' to close extended test"
            | TWord _ => w ← parse_word; mret (inl (words ++ [w]))
            | _ => tok ← advance; t ← tok_text tok;
                   mret (inl (words ++ [ {| parts := [Literal t]; word_span := token_span tok |} ]))
            end) [];
  sp ← span_from_px start;
  mret (DoubleBracket words sp).

(** ** The recursive grammar *)

Section commands.
Context (parse_command : px Command).

Definition parse_pipeline : px Pipeline :=
  timed ← at_word_eq #"time";
  _ ← (if (timed : bool) then _ ← advance; mret tt else mret tt);
  p ← (if timed : bool then at_word_eq #"-p" else mret false);
  _ ← (if (p : bool) then _ ← advance; mret tt else mret tt);
  negated ← at_word_eq #"!";
  _ ← (if (negated : bool) then _ ← advance; mret tt else mret tt);
  first ← parse_command;
  r ← loop (fun '(commands, pipe_stderr) =>
        s ← get;
        match kind (current s) with
        | Pipe => _ ← advance; _ ← skip_newlines; c ← parse_command; mret (inl (commands ++ [c], pipe_stderr ++ [false]))
        | PipeAmp => _ ← advance; _ ← skip_newlines; c ← parse_command; mret (inl (commands ++ [c], pipe_stderr ++ [true]))
        | _ => mret (inr (commands, pipe_stderr))
        end) ([first], []);
  mret (mkPipeline timed p negated (fst r) (snd r)).

Definition parse_and_or : px AndOrList :=
  first ← parse_pipeline;
  rest ← loop (fun rest =>
           s ← get;
           match kind (current s) with
           | AndAnd => _ ← advance; _ ← skip_newlines; p ← parse_pipeline; mret (inl (rest ++ [(And, p)]))
           | OrOr => _ ← advance; _ ← skip_newlines; p ← parse_pipeline; mret (inl (rest ++ [(Or, p)]))
           | _ => mret (inr rest)
           end) [];
  mret (mkAndOrList first rest).

(** [self.at(Semi) && !is_double_semi() && !is_case_fallthrough() &&
    !is_case_continue_testing()]. *)
Definition at_list_semi : px bool :=
  a ← at_kind Semi;
  if negb a then mret false
  else b ← is_double_semi;
       if (b : bool) then mret false
       else c ← is_case_fallthrough;
            if (c : bool) then mret false else d ← is_case_continue_testing; mret (negb d).

Definition parse_complete_command : px CompleteCommand :=
  start ← current_start;
  first ← parse_and_or;
  list ← loop (fun list =>
           b ← at_list_semi;
           if negb b then mret (inr list)
           else
             _ ← advance;
             s ← get;
             _ ← (match pending_heredocs s with [] => skip_newlines | _ => mret tt end);
             c ← at_command_start;
             if (c : bool) then a ← parse_and_or; mret (inl (list ++ [a])) else mret (inl list)) [first];
  sp ← span_from_px start;
  s ← get;
  match pending_heredocs s, kind (current s) with
  | _ :: _, Newline => resolve_heredocs (mkCompleteCommand list sp)
  | _, _ => mret (mkCompleteCommand list sp)
  end.

(** The loop of [parse_program] and [parse_compound_list]. *)
Definition command_list : px (list CompleteCommand) :=
  _ ← skip_newlines;
  loop (fun commands =>
    b ← at_command_start;
    if (b : bool) then c ← parse_complete_command; _ ← skip_newlines; mret (inl (commands ++ [c]))
    else mret (inr commands)) [].

Definition parse_compound_list : px (list CompleteCommand) := command_list.

Definition parse_program : px Program :=
  cs ← command_list;
  s ← get;
  if decide (kind (current s) = Eof) then mret {| commands := cs |}
  else error_here (#"unexpected token: " ++ TokenKind_debug (kind (current s))).

Definition parse_subshell : px Command :=
  start ← current_start;
  _ ← advance;
  body ← parse_compound_list;
  b ← at_kind RParen;
  if negb b then error_here #"expected ')' to close subshell"
  else
    _ ← advance;
    rs ← parse_trailing_redirections;
    sp ← span_from_px start;
    mret (Subshell body rs sp).

Definition parse_group : px Command :=
  start ← current_start;
  _ ← expect_word #"{";
  body ← parse_compound_list;
  _ ← expect_word #"}";
  rs ← parse_trailing_redirections;
  sp ← span_from_px start;
  mret (Group body rs sp).

Definition parse_elif_clause : px ElifClause :=
  _ ← advance;
  c ← parse_compound_list;
  _ ← expect_word #"then";
  b ← parse_compound_list;
  mret (mkElif c b).

Definition parse_if : px Command :=
  start ← current_start;
  _ ← expect_word #"if";
  condition ← parse_compound_list;
  _ ← expect_word #"then";
  then_body ← parse_compound_list;
  elifs ← loop (fun elifs =>
            b ← at_word_eq #"elif";
            if (b : bool) then e ← parse_elif_clause; mret (inl (elifs ++ [e])) else mret (inr elifs)) [];
  b ← at_word_eq #"else";
  else_body ← (if (b : bool) then _ ← advance; l ← parse_compound_list; mret (Some l) else mret None);
  _ ← expect_word #"fi";
  rs ← parse_trailing_redirections;
  sp ← span_from_px start;
  mret (If condition then_body elifs else_body rs sp).

(** [do list done] with the redirections that follow. *)
Definition do_group : px (list CompleteCommand * list Redirection) :=
  _ ← expect_word #"do";
  body ← parse_compound_list;
  _ ← expect_word #"done";
  rs ← parse_trailing_redirections;
  mret (body, rs).

Definition parse_while : px Command :=
  start ← current_start;
  _ ← expect_word #"while";
  condition ← parse_compound_list;
  r ← do_group;
  sp ← span_from_px start;
  mret (While condition (fst r) (snd r) sp).

Definition parse_until : px Command :=
  start ← current_start;
  _ ← expect_word #"until";
  condition ← parse_compound_list;
  r ← do_group;
  sp ← span_from_px start;
  mret (Until condition (fst r) (snd r) sp).

Definition parse_arith_for (start : Z) : px Command :=
  _ ← advance; _ ← advance;
  inner ← collect_arith_expr;
  let ps := splitn 3 ";"%char inner in
  let part i := default [] (trim <$> (ps !! i)) in
  _ ← consume_optional_semi;
  _ ← skip_newlines;
  r ← do_group;
  sp ← span_from_px start;
  mret (ArithFor (part 0%nat) (part 1%nat) (part 2%nat) (fst r) (snd r) sp).

(** The variable of [for] and [select]. *)
Definition loop_variable (keyword : str) : px str :=
  w ← at_word;
  if negb w then error_here (#"expected variable name after '" ++ keyword ++ #"'")
  else v ← current_text; _ ← advance; mret v.

Definition parse_for : px Command :=
  start ← current_start;
  _ ← expect_word #"for";
  b ← is_arith_for_start;
  if (b : bool) then parse_arith_for start
  else
    var_name ← loop_variable #"for";
    words ← parse_loop_words_clause;
    _ ← skip_newlines;
    r ← do_group;
    sp ← span_from_px start;
    mret (For var_name words (fst r) (snd r) sp).

Definition parse_select : px Command :=
  start ← current_start;
  _ ← expect_word #"select";
  var_name ← loop_variable #"select";
  words ← parse_loop_words_clause;
  _ ← skip_newlines;
  r ← do_group;
  sp ← span_from_px start;
  mret (Select var_name words (fst r) (snd r) sp).

Definition parse_case_body : px (list CompleteCommand) :=
  loop (fun body =>
    a ← at_command_start;
    if negb a then mret (inr body)
    else b ← is_double_semi;
         if (b : bool) then mret (inr body)
         else c ← is_case_fallthrough;
              if (c : bool) then mret (inr body)
              else cc ← parse_complete_command; _ ← skip_newlines; mret (inl (body ++ [cc]))) [].

Definition parse_case_item : px CaseItem :=
  patterns ← parse_case_patterns;
  _ ← skip_newlines;
  body ← parse_case_body;
  terminator ← parse_case_terminator;
  _ ← skip_newlines;
  mret (mkCaseItem patterns body terminator).

Definition parse_case : px Command :=
  start ← current_start;
  _ ← expect_word #"case";
  w ← at_word;
  if negb w then error_here #"expected word after 'case'"
  else
    word ← parse_word;
    _ ← skip_newlines;
    _ ← expect_word #"in";
    _ ← skip_newlines;
    items ← loop (fun items =>
              e ← at_word_eq #"esac";
              f ← at_kind Eof;
              if (e : bool) || f then mret (inr items)
              else i ← parse_case_item; mret (inl (items ++ [i]))) [];
    _ ← expect_word #"esac";
    rs ← parse_trailing_redirections;
    sp ← span_from_px start;
    mret (Case word items rs sp).

Definition parse_function_posix : px Command :=
  start ← current_start;
  name ← current_text;
  _ ← advance; _ ← advance; _ ← advance;
  _ ← skip_newlines;
  body ← parse_command;
  sp ← span_from_px start;
  mret (FunctionDef name body sp).

Definition parse_function_bash : px Command :=
  start ← current_start;
  _ ← expect_word #"function";
  w ← at_word;
  if negb w then error_here #"expected function name after 'function'"
  else
    name ← current_text;
    _ ← advance;
    l ← at_kind LParen;
    _ ← (if (l : bool) then
           _ ← advance;
           r ← at_kind RParen;
           if negb r then error_here #"expected ')' after '(' in function definition" else _ ← advance; mret tt
         else mret tt);
    _ ← skip_newlines;
    body ← parse_command;
    sp ← span_from_px start;
    mret (FunctionDef name body sp).

Definition try_parse_compound_keyword : px (option Command) :=
  t ← current_text;
  if decide (t = #"{") then c ← parse_group; mret (Some c)
  else if decide (t = #"if") then c ← parse_if; mret (Some c)
  else if decide (t = #"while") then c ← parse_while; mret (Some c)
  else if decide (t = #"until") then c ← parse_until; mret (Some c)
  else if decide (t = #"for") then c ← parse_for; mret (Some c)
  else if decide (t = #"case") then c ← parse_case; mret (Some c)
  else if decide (t = #"select") then c ← parse_select; mret (Some c)
  else if decide (t = #"function") then c ← parse_function_bash; mret (Some c)
  else
    t0 ← peek_nth 0;
    if decide (kind t0 = LParen) then
      t1 ← peek_nth 1;
      if decide (kind t1 = RParen) then c ← parse_function_posix; mret (Some c) else mret None
    else mret None.

Definition parse_command_lparen : px Command :=
  s ← get;
  next ← attempt (peek_nth 0);
  match next with
  | Some tok =>
      if decide (kind tok = LParen /\ span_start (token_span tok) = span_end (token_span (current s)))
      then parse_arith_command else parse_subshell
  | None => parse_subshell
  end.

Definition parse_command_inner : px Command :=
  s ← get;
  match kind (current s) with
  | LParen => parse_command_lparen
  | DblLBracket => parse_double_bracket
  | TWord _ => c ← try_parse_compound_keyword;
               match c with Some cmd => mret cmd | None => sc ← parse_simple_command; mret (Simple sc) end
  | _ => sc ← parse_simple_command; mret (Simple sc)
  end.

Definition parse_command_body : px Command := _ ← enter_nesting; finally_px exit_nesting parse_command_inner.
End commands.

Fixpoint parse_command (fuel : nat) : px Command :=
  match fuel with
  | O => panic "recursion limit"
  | S f => parse_command_body (parse_command f)
  end.

(** One level more than [MAX_NESTING_DEPTH]. *)
Definition recursion_limit : nat := 25.

Definition Parser_new : res ParseError Parser :=
  match next_token source Lexer_new with
  | (l, Ok t) => Ok {| lexer := l; current := t; peeked := []; prev_end := 0; pending_heredocs := []; nesting_depth := 0 |}
  | (_, Err e) => Err (lex_err e)
  | (_, Panic w) => Panic w
  end.

Definition parse : res ParseError Program :=
  parser ← Parser_new;
  snd (parse_program (parse_command recursion_limit) parser).
End parser.
