(* ===== verification/ParserProps.v ===== *)
(** * Parser: totality

    A Hoare logic for the parser: from a state whose tokens follow each other
    within the source, every grammar rule keeps the state so, restores the
    nesting depth and moves the current token forward; no slice cuts a character,
    no loop exceeds its rounds and no recursion the nesting limit. *)

From S2P Require Import Prelude Strings Ast Lexer LexerProps LexerSpec WordParser WordParserProps Parser.

Lemma find_byte_Some c t i : find_byte c t = Some i -> t !! i = Some c.
Proof.
  intros [Hl Hs]%find_sub_Some. cbn in Hl, Hs. destruct (t !! i) as [x|] eqn:Hx; [|apply lookup_ge_None in Hx; lia].
  rewrite (slice_step _ _ _ x Hx) in Hs by lia. by injection Hs as ->.
Qed.

Section props.
Context (source : list Ascii.ascii) (Hutf8 : utf8_shape source) (Hfits : Z.of_nat (length source) < 2 ^ 32).

Abbreviation px := (comp Parser ParseError).
Abbreviation bd := (boundary source).

Definition tstart (t : Token) : nat := Z.to_nat (span_start (token_span t)).
Definition tend (t : Token) : nat := Z.to_nat (span_end (token_span t)).

Record tok_ok (t : Token) : Prop := {
  tok_le : (tstart t <= tend t <= length source)%nat;
  tok_bd_start : bd (tstart t);
  tok_bd_end : bd (tend t);
  tok_eof : kind t = Eof -> tstart t = length source;
  tok_lt : kind t <> Eof -> (tstart t < tend t)%nat;
}.

(** The tokens lie in [p..q], each behind the one before it. *)
Fixpoint tokens_in (p : nat) (ts : list Token) (q : nat) : Prop :=
  match ts with
  | [] => (p <= q)%nat
  | t :: ts' => (p <= tstart t)%nat /\ tok_ok t /\ tokens_in (tend t) ts' q
  end.

Lemma tokens_in_snoc p ts q t q' : tokens_in p ts q -> tokens_in q [t] q' -> tokens_in p (ts ++ [t]) q'.
Proof.
  revert p. induction ts as [|x ts IH]; intros p; cbn.
  - intros ? (? & ? & ?). split; [lia|done].
  - intros (? & ? & ?) ?. split; [done|]. split; [done|]. by apply IH.
Qed.

Lemma tokens_in_mono p ts q q' : tokens_in p ts q -> (q <= q')%nat -> tokens_in p ts q'.
Proof. revert p. induction ts as [|x ts IH]; intros p; cbn; [lia|]. intros (? & ? & ?) ?. split; [done|]. split; [done|]. by apply IH. Qed.

Lemma tokens_in_weaken p p' ts q : tokens_in p' ts q -> (p <= p')%nat -> tokens_in p ts q.
Proof. destruct ts; cbn; [lia|]. intros (? & ? & ?) ?. split; [lia|done]. Qed.

Ltac is_ready := split; [done|]; split; [lia|]; split; [lia|done].

(** The lexer delivers such tokens. *)
Lemma next_token_tokens l : ready source l ->
  match next_token source l with
  | (l', Ok t) => ready source l' /\ tokens_in (pos l) [t] (pos l')
  | (l', Err _) => ready source l' /\ (pos l <= pos l')%nat
  | (_, Panic _) => False
  end.
Proof.
  intros Hr. pose proof Hr as (Hm & Hp & Hd & Hb). destruct (next_token_reads source Hutf8 l Hr) as (a & Hg & Hs).
  pose proof (gap_le _ _ _ Hg Hp) as Hla. pose proof (gap_boundary _ Hutf8 _ _ Hg Hb) as Hba.
  destruct (next_token source l) as [l' r]. destruct Hs as [Hs|[-> [= -> ->]]].
  - destruct r as [t|e|w]; [pose proof (scans_not_eof _ _ _ _ _ Hs) as Hne| |];
      destruct Hs as (Hp' & Hm' & Hd' & Hb' & Hr'); [|split; [is_ready|lia]|done].
    destruct Hr' as (Hlt & Hsp & _). split; [is_ready|].
    assert (Hst : tstart t = a /\ tend t = pos l').
    { unfold tstart, tend. rewrite Hsp. unfold span_from, as_u32. cbn. rewrite !Z.mod_small by lia. lia. }
    destruct Hst as [Hst Hen]. cbn. rewrite Hst, Hen. split; [lia|]. split; [|lia].
    constructor; rewrite ?Hst, ?Hen; [lia|done|done|done|lia].
  - split; [split; [done|]; split; [cbn; lia|]; split; [done|apply boundary_end]|].
    assert (Hst : tstart (eof_token source) = length source /\ tend (eof_token source) = length source).
    { unfold tstart, tend, eof_token, span_from, as_u32. cbn. rewrite !Z.mod_small by lia. lia. }
    destruct Hst as [Hst Hen]. cbn. rewrite Hst, Hen. split; [lia|]. split; [|lia].
    constructor; rewrite ?Hst, ?Hen; [lia|done|done|done|done].
Qed.

Definition pinv (s : Parser) : Prop :=
  ready source (lexer s) /\ tokens_in 0 (current s :: peeked s) (pos (lexer s)) /\ 0 <= nesting_depth s.

(** The bytes from the current token on: the measure of the parser. *)
Definition left_of (s : Parser) : nat := (length source - tstart (current s))%nat.

(** [goes Q m s]: [m] does not panic from [s], and when it succeeds it keeps the
    invariant, restores the depth and establishes [Q]. *)
Definition goes {A} (Q : A -> Parser -> Prop) (m : px A) (s : Parser) : Prop :=
  match m s with
  | (s', Ok a) => pinv s' /\ nesting_depth s' = nesting_depth s /\ Q a s'
  | (_, Err _) => True
  | (_, Panic _) => False
  end.

Lemma goes_ret {A} Q (a : A) s : pinv s -> Q a s -> goes Q (mret a : px A) s.
Proof. done. Qed.

Lemma goes_weaken {A} (Q Q' : A -> Parser -> Prop) m s : goes Q m s -> (forall a s', pinv s' -> Q a s' -> Q' a s') -> goes Q' m s.
Proof. unfold goes. destruct (m s) as [s' []]; naive_solver. Qed.

Lemma goes_bind {A B} (Q1 : A -> Parser -> Prop) (Q : B -> Parser -> Prop) m (f : A -> px B) s :
  goes Q1 m s -> (forall a s', pinv s' -> nesting_depth s' = nesting_depth s -> Q1 a s' -> goes Q (f a) s') -> goes Q (m ≫= f) s.
Proof.
  unfold goes. intros Hm Hf. unfold mbind, comp_bind. destruct (m s) as [s1 [a|e|w]]; [|done|done].
  destruct Hm as (Hi & Hn & HQ). specialize (Hf a s1 Hi Hn HQ). destruct (f a s1) as [s2 []]; [|done|done].
  destruct Hf as (? & ? & ?). split; [done|]. split; [congruence|done].
Qed.

(** Reading the state. *)
Lemma goes_get {B} (Q : B -> Parser -> Prop) (f : Parser -> px B) s : goes Q (f s) s -> goes Q (get ≫= f) s.
Proof. done. Qed.

Lemma goes_at_kind {B} (Q : B -> Parser -> Prop) k f s : goes Q (f (bool_decide (kind (current s) = k))) s -> goes Q (at_kind k ≫= f) s.
Proof. done. Qed.

Lemma goes_at_word {B} (Q : B -> Parser -> Prop) f s : goes Q (f (is_word_kind (kind (current s)))) s -> goes Q (at_word ≫= f) s.
Proof. done. Qed.

Lemma goes_at_redirection {B} (Q : B -> Parser -> Prop) f s :
  goes Q (f (is_redirection_kind (kind (current s)))) s -> goes Q (at_redirection ≫= f) s.
Proof. done. Qed.

Lemma goes_current_start {B} (Q : B -> Parser -> Prop) f s :
  goes Q (f (span_start (token_span (current s)))) s -> goes Q (current_start ≫= f) s.
Proof. done. Qed.

Lemma goes_span_from {B} (Q : B -> Parser -> Prop) start f s :
  goes Q (f {| span_start := start; span_end := prev_end s |}) s -> goes Q (span_from_px start ≫= f) s.
Proof. done. Qed.

Lemma goes_error {A} (Q : A -> Parser -> Prop) msg off s : goes Q (error_at msg off) s.
Proof. done. Qed.

Lemma goes_error_here {A} (Q : A -> Parser -> Prop) msg s : goes Q (error_here msg) s.
Proof. done. Qed.

(** The loop rule: [I] on the accumulator, and the measure falls in each round
    that continues. *)
Lemma goes_iterate {A B} (I : A -> Parser -> Prop) (Q : B -> Parser -> Prop) n step a s :
  pinv s -> I a s -> (left_of s < n)%nat ->
  (forall a s1, pinv s1 -> nesting_depth s1 = nesting_depth s -> I a s1 -> (left_of s1 <= left_of s)%nat ->
     goes (fun r s2 => match r with inl a' => I a' s2 /\ (left_of s2 < left_of s1)%nat | inr b => Q b s2 end) (step a) s1) ->
  goes Q (iterate n step a : px B) s.
Proof.
  revert a s. induction n as [|n IH]; intros a s Hi Ha Hn Hstep; [lia|]. cbn [iterate].
  eapply goes_bind; [apply Hstep; auto|]. intros [a'|b] s1 Hi1 Hn1 HQ; [|by apply goes_ret].
  destruct HQ as [Ha' Hlt]. apply IH; [done|done|lia|]. intros a2 s2 Hi2 Hn2 Ha2 Hle. apply Hstep; [done|congruence|done|lia].
Qed.

Lemma goes_loop {A B} (I : A -> Parser -> Prop) (Q : B -> Parser -> Prop) step a s :
  pinv s -> I a s ->
  (forall a s1, pinv s1 -> nesting_depth s1 = nesting_depth s -> I a s1 -> (left_of s1 <= left_of s)%nat ->
     goes (fun r s2 => match r with inl a' => I a' s2 /\ (left_of s2 < left_of s1)%nat | inr b => Q b s2 end) (step a) s1) ->
  goes Q (loop source step a) s.
Proof. intros Hi Ha. apply goes_iterate; [done|done|]. unfold left_of. lia. Qed.

(** ** Tokens *)

Lemma pinv_current s : pinv s -> tok_ok (current s).
Proof. by intros (_ & (_ & H & _) & _). Qed.

Lemma left_of_eof s : pinv s -> kind (current s) = Eof -> left_of s = 0%nat.
Proof. intros Hi He. pose proof (tok_eof _ (pinv_current s Hi) He). unfold left_of. lia. Qed.

Definition lt_of {A} (s : Parser) : A -> Parser -> Prop := fun _ s' => (left_of s' < left_of s)%nat.
Definition le_of {A} (s : Parser) : A -> Parser -> Prop := fun _ s' => (left_of s' <= left_of s)%nat.

(** The next token as the current one, from a state whose lexer stands at [p]. *)
Lemma read_current s p k : ready source (lexer s) -> peeked s = [] -> 0 <= nesting_depth s -> (p <= pos (lexer s))%nat ->
  (tstart (current s) <= p)%nat ->
  goes (fun a s' => a = k /\ (left_of s' <= left_of s)%nat /\ ((tstart (current s) < p)%nat -> (0 < left_of s)%nat -> (left_of s' < left_of s)%nat))
    (tok ← next_token_px source; _ ← modify (set_current tok); mret k : px Token) s.
Proof.
  intros Hr Hpk Hd Hp Hle. unfold goes, next_token_px, mbind, comp_bind. pose proof (next_token_tokens _ Hr) as H.
  destruct (next_token source (lexer s)) as [l' [t|e|w]]; [|done|done]. destruct H as [Hr' (Hge & Hok & Hend)]. cbn in *.
  pose proof (tok_le _ Hok). split; [split; [done|]; split; [cbn; rewrite Hpk; split; [lia|done]|done]|]. split; [done|].
  split; [done|]. unfold left_of. cbn. lia.
Qed.

Lemma advance_goes s : pinv s ->
  goes (fun tok s' => tok = current s /\ (left_of s' <= left_of s)%nat /\ (kind (current s) <> Eof -> (left_of s' < left_of s)%nat))
    (advance source) s.
Proof.
  intros Hi. pose proof (pinv_current s Hi) as Hc. destruct Hi as (Hr & (_ & _ & Hts) & Hd).
  unfold advance. apply goes_get. unfold goes, mbind at 1, comp_bind at 1, modify at 1. cbn [fst snd].
  destruct Hc as [Hle _ _ Heof Hlt]. destruct (peeked s) as [|t ts] eqn:Hpk.
  - pose proof (read_current (set_prev_end (span_end (token_span (current s))) s) (tend (current s)) (current s) Hr Hpk Hd Hts ltac:(cbn; lia)) as H.
    unfold goes in H. revert H. destruct ((next_token_px source ≫= _) _) as [s1 [t|e|w]]; [|done|done].
    intros (Hi' & Hn' & -> & Hl & Hl2). split; [done|]. split; [done|]. split; [done|]. split; [exact Hl|]. intros Hk.
    apply Hl2; cbn; [by apply Hlt|]. unfold left_of. cbn. specialize (Hlt Hk). lia.
  - unfold mbind, comp_bind, modify. cbn [fst snd mret comp_ret]. cbn in Hts. destruct Hts as (Hge & Hok & Hts).
    pose proof (tok_le _ Hok). split; [split; [done|]; split; [cbn; split; [lia|done]|done]|]. split; [done|]. split; [done|].
    unfold left_of. cbn. split; [lia|]. intros Hk. specialize (Hlt Hk). lia.
Qed.

Lemma fill_peeked_ok k s : pinv s ->
  match fill_peeked source k s with
  | (s', r) => pinv s' /\ nesting_depth s' = nesting_depth s /\ current s' = current s /\
      match r with Ok _ => length (peeked s') = (length (peeked s) + k)%nat | Err _ => True | Panic _ => False end
  end.
Proof.
  revert s. induction k as [|k IH]; intros s Hi; cbn [fill_peeked]; [cbn; by rewrite Nat.add_0_r|].
  unfold mbind at 1, comp_bind at 1, next_token_px. pose proof Hi as (Hr & Hts & Hd).
  pose proof (next_token_tokens _ Hr) as H. destruct (next_token source (lexer s)) as [l' [t|e|w]]; [| |done].
  - destruct H as [Hr' Ht]. unfold mbind, comp_bind, modify. cbn [fst snd].
    set (s1 := set_peeked _ _). assert (Hi1 : pinv s1).
    { split; [done|]. split; [|done]. cbn [s1 set_peeked set_lexer current peeked lexer].
      apply (tokens_in_snoc 0 (current s :: peeked s) (pos (lexer s))); done. }
    specialize (IH s1 Hi1). destruct (fill_peeked source k s1) as [s2 r]. destruct IH as (? & ? & ? & Hlen).
    split; [done|]. split; [done|]. split; [done|]. destruct r; [|done|done]. rewrite Hlen. cbn. rewrite length_app. cbn. lia.
  - destruct H as [Hr' Hle]. split; [|done]. split; [done|]. split; [|done]. by apply (tokens_in_mono _ _ (pos (lexer s))).
Qed.

Lemma peek_nth_ok n s : pinv s ->
  match peek_nth source n s with
  | (s', r) => pinv s' /\ nesting_depth s' = nesting_depth s /\ current s' = current s /\
      match r with Panic _ => False | _ => True end
  end.
Proof.
  intros Hi. unfold peek_nth. unfold mbind at 1, comp_bind at 1, get. cbn [fst snd]. unfold mbind, comp_bind.
  pose proof (fill_peeked_ok (S n - length (peeked s)) s Hi) as H. destruct (fill_peeked source _ s) as [s1 [[]|e|w]]; [|tauto|tauto].
  destruct H as (Hi1 & Hn & Hc & Hlen). destruct (peeked s1 !! n) eqn:Hl; [done|]. apply lookup_ge_None in Hl. lia.
Qed.

Definition same {A} (s : Parser) : A -> Parser -> Prop := fun _ s' => current s' = current s /\ left_of s' = left_of s.

Lemma same_intro {A} s s' (a : A) : current s' = current s -> same s a s'.
Proof. intros H. split; [done|]. unfold left_of. by rewrite H. Qed.

Lemma peek_goes n s : pinv s -> goes (same s) (peek_nth source n) s.
Proof. intros Hi. pose proof (peek_nth_ok n s Hi) as H. unfold goes. destruct (peek_nth source n s) as [s' []]; [|done|tauto].
  split_and!; [tauto|tauto|apply same_intro; tauto]. Qed.

Lemma attempt_peek_goes n s : pinv s -> goes (same s) (attempt (peek_nth source n)) s.
Proof.
  intros Hi. pose proof (peek_nth_ok n s Hi) as H. unfold goes, attempt. destruct (peek_nth source n s) as [s' []]; [| |tauto];
    (split_and!; [tauto|tauto|apply same_intro; tauto]).
Qed.

(** ** Texts *)

Lemma text_slice {E} t : tok_ok t -> text source t = (Ok (slice source (tstart t) (tend t)) : res E _).
Proof.
  intros [Hle Hb1 Hb2 _ _]. unfold text, str_slice. fold (tstart t) (tend t).
  rewrite (proj2 (Nat.leb_le _ _)) by lia. by rewrite Hb1, Hb2.
Qed.

Definition text_of_tok (t : Token) : str := slice source (tstart t) (tend t).

Lemma goes_tok_text {B} (Q : B -> Parser -> Prop) t f s : tok_ok t -> goes Q (f (text_of_tok t)) s -> goes Q (tok_text source t ≫= f) s.
Proof. intros Ht H. unfold tok_text, goes, mbind, comp_bind, lift_res. by rewrite text_slice. Qed.

Lemma goes_current_text {B} (Q : B -> Parser -> Prop) f s : pinv s -> goes Q (f (text_of_tok (current s))) s -> goes Q (current_text source ≫= f) s.
Proof.
  intros Hi H. unfold current_text, goes, mbind at 1, comp_bind at 1, get, mbind, comp_bind, tok_text, lift_res.
  by rewrite (text_slice _ (pinv_current s Hi)).
Qed.

Lemma current_text_run s : pinv s -> current_text source s = (s, Ok (text_of_tok (current s))).
Proof.
  intros Hi. unfold current_text, get, mbind, comp_bind, tok_text, lift_res. by rewrite (text_slice _ (pinv_current s Hi)).
Qed.

Lemma goes_at_word_eq {B} (Q : B -> Parser -> Prop) w f s : pinv s ->
  (forall b, (b = true -> is_word_kind (kind (current s)) = true /\ text_of_tok (current s) = w) -> goes Q (f b) s) ->
  goes Q (at_word_eq source w ≫= f) s.
Proof.
  intros Hi H. unfold at_word_eq, goes, mbind at 1, comp_bind at 1, at_word. unfold mbind at 1, comp_bind at 1, get. cbn [fst snd mret comp_ret].
  unfold mbind at 1, comp_bind at 1. cbn [fst snd mret comp_ret].
  destruct (is_word_kind (kind (current s))) eqn:Hw; [|by apply H].
  unfold mbind at 1, comp_bind at 1. rewrite current_text_run by done. cbn [mret comp_ret]. apply H.
  intros Hb%bool_decide_eq_true. done.
Qed.

Lemma goes_at_command_start {B} (Q : B -> Parser -> Prop) f s : pinv s ->
  (forall b, (b = true -> kind (current s) <> Eof) -> goes Q (f b) s) -> goes Q (at_command_start source ≫= f) s.
Proof.
  intros Hi H. unfold at_command_start, goes, mbind at 1, comp_bind at 1, get. unfold mbind at 1, comp_bind at 1. cbn [fst snd].
  destruct (kind (current s)) eqn:Hk; try (apply H; rewrite ?Hk; cbn; congruence).
  unfold mbind at 1, comp_bind at 1. rewrite current_text_run by done. cbn [mret comp_ret]. apply H. congruence.
Qed.

(** ** Lookahead *)

Lemma peek_is_goes n k s : pinv s -> goes (same s) (peek_is source n k) s.
Proof.
  intros Hi. unfold peek_is. eapply goes_bind; [by apply attempt_peek_goes|]. intros t s1 Hi1 Hn Hs. by apply goes_ret.
Qed.

(** A test that looks ahead; [P] holds of the current token when it succeeds. *)
Definition test (P : Token -> Prop) (s : Parser) : bool -> Parser -> Prop :=
  fun b s' => same s b s' /\ (b = true -> P (current s)).

Lemma same_refl {A} s (a : A) : same s a s.
Proof. done. Qed.

Lemma semi_test_goes n k s : pinv s ->
  goes (test (fun t => kind t = Semi) s) (b ← at_kind Semi; if (b : bool) then peek_is source n k else mret false) s.
Proof.
  intros Hi. apply goes_at_kind. case_bool_decide as Hk; [|by apply goes_ret].
  eapply goes_weaken; [by apply peek_is_goes|]. by intros b s' _ Hs.
Qed.

Lemma is_double_semi_goes s : pinv s -> goes (test (fun t => kind t = Semi) s) (is_double_semi source) s.
Proof. apply semi_test_goes. Qed.

Lemma is_case_fallthrough_goes s : pinv s -> goes (test (fun t => kind t = Semi) s) (is_case_fallthrough source) s.
Proof. apply semi_test_goes. Qed.

Lemma is_case_continue_goes s : pinv s -> goes (test (fun t => kind t = Semi) s) (is_case_continue_testing source) s.
Proof.
  intros Hi. apply goes_at_kind. case_bool_decide as Hk; cbn [negb]; [|by apply goes_ret].
  eapply goes_bind; [by apply peek_is_goes|]. intros c s1 Hi1 Hn [Hc Hl]. destruct c; cbn [negb]; [|by apply goes_ret].
  eapply goes_weaken; [by apply peek_is_goes|]. intros b s' _ [Hc' Hl']. split; [split; congruence|done].
Qed.

Lemma at_fd_prefix_goes s : pinv s -> goes (test (fun t => is_word_kind (kind t) = true) s) (at_fd_prefix_redirection source) s.
Proof.
  intros Hi. apply goes_at_word. destruct (is_word_kind (kind (current s))) eqn:Hw; cbn [negb]; [|by apply goes_ret].
  apply goes_current_text; [done|]. destruct (is_single_digit _); cbn [negb]; [|by apply goes_ret].
  eapply goes_bind; [by apply attempt_peek_goes|]. intros t s1 Hi1 Hn Hs. by apply goes_ret.
Qed.

(** ** Automation *)

(** Rules that read the state only. *)
Ltac reading :=
  repeat match goal with
  | |- goes _ (get ≫= _) _ => apply goes_get
  | |- goes _ (at_kind _ ≫= _) _ => apply goes_at_kind; case_bool_decide
  | |- goes _ (at_word ≫= _) _ => apply goes_at_word
  | |- goes _ (at_redirection ≫= _) _ => apply goes_at_redirection
  | |- goes _ (current_start ≫= _) _ => apply goes_current_start
  | |- goes _ (span_from_px _ ≫= _) _ => apply goes_span_from
  | |- goes _ (current_text _ ≫= _) _ => apply goes_current_text; [assumption|]
  | |- goes _ (at_word_eq _ _ ≫= _) _ => apply goes_at_word_eq; [assumption|]; intros [] ?
  | |- goes _ (at_command_start _ ≫= _) _ => apply goes_at_command_start; [assumption|]; intros [] ?
  | |- goes _ (error_here _) _ => apply goes_error_here
  | |- goes _ (error_at _ _) _ => apply goes_error
  end.

(** A call with a known specification, then the continuation from its state. *)
Ltac call lem :=
  eapply goes_bind; [solve [apply lem; assumption || congruence]|]; intros ? ? ? ? ?; unfold le_of, lt_of in *.

(** The end: the measures are compared. *)
Ltac finish := apply goes_ret; [assumption|]; unfold le_of, lt_of in *; lia.

(** What [advance] and its like guarantee. *)
Definition adv {A} (s : Parser) : A -> Parser -> Prop := fun _ s' =>
  (left_of s' <= left_of s)%nat /\ (kind (current s) <> Eof -> (left_of s' < left_of s)%nat).

Lemma skip_newlines_goes s : pinv s -> goes (le_of s) (skip_newlines source) s.
Proof.
  intros Hi. apply (goes_loop (fun _ _ => True)); [done|done|]. intros _ s1 Hi1 Hn1 _ Hle. reading.
  - eapply goes_bind; [by apply advance_goes|]. intros t s2 Hi2 Hn2 (_ & Hl & Hlt). apply goes_ret; [done|].
    split; [done|]. apply Hlt. congruence.
  - by apply goes_ret.
Qed.

Lemma expect_word_goes w s : pinv s -> goes (lt_of s) (expect_word source w) s.
Proof.
  intros Hi. unfold expect_word. reading.
  destruct H as [Hw _]; [done|]. eapply goes_weaken; [by apply advance_goes|]. intros t s1 _ (_ & _ & Hlt).
  apply Hlt. intros He. by rewrite He in Hw.
Qed.

(** ** Words *)

Lemma utf8_slice a b : bd a -> utf8_shape (slice source a b).
Proof.
  intros Hb. assert (Hl : forall i c, slice source a b !! i = Some c -> source !! (a + i)%nat = Some c).
  { intros i c Hc. unfold slice in Hc. apply lookup_take_Some in Hc as [Hc _]. by rewrite lookup_drop in Hc. }
  split.
  - intros c Hc. apply Hl in Hc. rewrite Nat.add_0_r in Hc. unfold boundary, is_char_boundary in Hb.
    destruct a as [|a]; [by apply Hutf8|]. pose proof (lookup_lt_Some _ _ _ Hc).
    rewrite !(proj2 (Nat.eqb_neq _ _)), Hc in Hb by lia. by apply negb_true_iff in Hb.
  - intros i x y Hx Hlt Hy. apply Hl in Hx, Hy. rewrite Nat.add_succ_r in Hy. by apply (proj2 Hutf8 (a + i)%nat x y).
Qed.

Lemma utf8_drop_after t c i : utf8_shape t -> find_byte c t = Some i -> byte_val c < 128 -> utf8_shape (drop (S i) t).
Proof.
  intros [Ht1 Ht2] Hf Hc. assert (Hi : t !! i = Some c).
  { by apply find_byte_Some. }
  split.
  - intros x Hx. rewrite lookup_drop, Nat.add_0_r in Hx. by apply (Ht2 i c x).
  - intros j x y Hx Hlt Hy. rewrite lookup_drop in Hx, Hy. rewrite Nat.add_succ_r in Hy. by apply (Ht2 (S i + j)%nat x y).
Qed.

Lemma parts_total {E} t : utf8_shape t -> exists ps, parse_word_parts t = (Ok ps : res E _).
Proof. intros Hu. destruct (word_parts_loop_ok (E:=E) t Hu (length t) 0 [] []) as (ps & Hps & _); [lia|done|]. by exists ps. Qed.

Lemma goes_parts {B} (Q : B -> Parser -> Prop) t f s : utf8_shape t -> (forall ps, goes Q (f ps) s) ->
  goes Q (lift_res (parse_word_parts t) ≫= f) s.
Proof.
  intros Hu H. destruct (parts_total (E:=ParseError) t Hu) as [ps Hps]. unfold goes, mbind, comp_bind, lift_res. rewrite Hps. apply H.
Qed.

Lemma advance_adv s : pinv s -> goes (adv s) (advance source) s.
Proof. intros Hi. eapply goes_weaken; [by apply advance_goes|]. intros t s' _ (_ & ? & ?). done. Qed.

(** [advance] where the current token is known not to be the last. *)
Lemma advance_lt s : pinv s -> kind (current s) <> Eof -> goes (lt_of s) (advance source) s.
Proof. intros Hi Hk. eapply goes_weaken; [by apply advance_goes|]. intros t s' _ (_ & _ & H). by apply H. Qed.

Lemma parse_word_goes s : pinv s -> goes (adv s) (parse_word source) s.
Proof.
  intros Hi. unfold parse_word. pose proof (pinv_current s Hi) as Hc. eapply goes_bind; [by apply advance_goes|].
  intros t s1 Hi1 Hn1 (-> & Hl & Hlt). apply goes_tok_text; [done|]. apply goes_parts; [|intros ps; by apply goes_ret].
  apply utf8_slice, Hc.
Qed.

Lemma word_not_eof s : is_word_kind (kind (current s)) = true -> kind (current s) <> Eof.
Proof. intros H He. by rewrite He in H. Qed.

Lemma parse_word_lt s : pinv s -> is_word_kind (kind (current s)) = true -> goes (lt_of s) (parse_word source) s.
Proof. intros Hi Hw. eapply goes_weaken; [by apply parse_word_goes|]. intros w s' _ [_ H]. by apply H, word_not_eof. Qed.

Lemma collect_elements_goes s : pinv s -> goes (le_of s) (collect_elements source) s.
Proof.
  intros Hi. apply (goes_loop (fun _ _ => True)); [done|done|]. intros els s1 Hi1 Hn1 _ Hle. reading.
  pose proof (pinv_current s1 Hi1) as Hc.
  destruct (kind (current s1)) eqn:Hk; try (by apply goes_ret).
  - eapply goes_bind; [by apply advance_goes|]. intros t s2 Hi2 Hn2 (-> & Hl & Hlt). apply goes_tok_text; [done|].
    apply goes_ret; [done|]. split; [done|]. apply Hlt. congruence.
  - eapply goes_bind; [apply advance_lt; congruence|]. intros t s2 Hi2 Hn2 Hlt. apply goes_ret; [done|]. split; [done|]. exact Hlt.
Qed.

Lemma compound_end_goes s : pinv s -> goes (le_of s) (compound_end source) s.
Proof.
  intros Hi. unfold compound_end. reading. case_decide; [|finish].
  eapply goes_bind; [by apply advance_adv|]. intros t s1 Hi1 Hn1 [Hl _]. by apply goes_ret.
Qed.

Lemma parse_compound_assign_word_goes s : pinv s -> goes (adv s) (parse_compound_assign_word source) s.
Proof.
  intros Hi. unfold parse_compound_assign_word. pose proof (pinv_current s Hi) as Hc.
  eapply goes_bind; [by apply advance_goes|]. intros t s1 Hi1 Hn1 (-> & Hl & Hlt). apply goes_tok_text; [done|].
  eapply goes_bind; [by apply advance_adv|]. intros t s2 Hi2 Hn2 [Hl2 _].
  eapply goes_bind; [by apply collect_elements_goes|]. intros els s3 Hi3 Hn3 Hl3.
  eapply goes_bind; [by apply compound_end_goes|]. intros e s4 Hi4 Hn4 Hl4. unfold le_of in *.
  apply goes_ret; [done|]. split; [lia|]. intros Hk. specialize (Hlt Hk). lia.
Qed.

Lemma compound_value_goes tok eq_pos s : pinv s -> goes (le_of s) (parse_assignment_compound_value source tok eq_pos) s.
Proof.
  intros Hi. unfold parse_assignment_compound_value. reading; cbn [negb]; [|finish].
  eapply goes_bind; [by apply advance_adv|]. intros t s2 Hi2 Hn2 [Hl2 _].
  eapply goes_bind; [by apply collect_elements_goes|]. intros els s3 Hi3 Hn3 Hl3.
  eapply goes_bind; [by apply compound_end_goes|]. intros e s4 Hi4 Hn4 Hl4. unfold le_of in *.
  apply goes_ret; [done|]. lia.
Qed.

Lemma parse_assignment_goes s : pinv s -> is_word_kind (kind (current s)) = true ->
  is_assignment_text (text_of_tok (current s)) = true -> goes (lt_of s) (parse_assignment source) s.
Proof.
  intros Hi Hw Ha. unfold parse_assignment. pose proof (pinv_current s Hi) as Hc.
  eapply goes_bind; [by apply advance_goes|]. intros t s1 Hi1 Hn1 (-> & _ & Hlt). specialize (Hlt (word_not_eof s Hw)).
  apply goes_tok_text; [done|]. unfold is_assignment_text in Ha. destruct (find_byte "="%char _) as [eq_pos|] eqn:Hf; [|done].
  clear Ha. eapply (goes_bind (le_of s1)).
  - destruct (drop (S eq_pos) (text_of_tok (current s))) as [|b v] eqn:Hv; [by apply compound_value_goes|].
    unfold make_assignment_word, mbind at 1, comp_bind at 1. rewrite <-Hv.
    eapply (goes_bind (le_of s1)); [|intros w s2 Hi2 Hn2 Hl2; by apply goes_ret].
    apply goes_parts; [|intros ps; finish].
    apply (utf8_drop_after _ "="%char); [apply utf8_slice, Hc|done|done].
  - intros v s2 Hi2 Hn2 Hl2. apply goes_ret; [done|]. unfold lt_of, le_of in *. lia.
Qed.

(** ** Redirections *)

Lemma goes_modify_pending {B} (Q : B -> Parser -> Prop) g f s : pinv s ->
  (forall hs, goes Q (f tt) (set_pending hs s)) -> goes Q (modify (fun s => set_pending (g s) s) ≫= f) s.
Proof.
  intros Hi H. unfold goes, mbind, comp_bind, modify. cbn [fst snd]. exact (H (g s)).
Qed.

Lemma pinv_pending hs s : pinv s -> pinv (set_pending hs s).
Proof. done. Qed.

Lemma parse_redirection_goes s : pinv s -> goes (adv s) (parse_redirection source) s.
Proof.
  intros Hi. unfold parse_redirection. eapply goes_bind; [by apply advance_goes|]. intros t s1 Hi1 Hn1 (-> & Hl & Hlt).
  assert (Hend : forall s' : Parser, (left_of s' <= left_of s1)%nat -> forall r : Redirection, adv s r s').
  { intros s' Hs' r. split; [lia|]. intros Hk. specialize (Hlt Hk). lia. }
  destruct (redirection_op _) as [[op is_heredoc]|]; [|apply goes_error]. apply goes_at_kind.
  destruct (bool_decide _ && is_greater_or_less _).
  - eapply goes_bind; [by apply advance_adv|]. intros t2 s2 Hi2 Hn2 [Hl2 _]. reading.
    destruct (is_word_kind _); [|apply goes_error_here].
    eapply goes_bind; [by apply parse_word_goes|]. intros w s3 Hi3 Hn3 [Hl3 _]. apply goes_ret; [done|]. apply Hend. lia.
  - reading. destruct (is_word_kind _); cbn [negb]; [|apply goes_error_here].
    eapply goes_bind; [by apply parse_word_goes|]. intros w s3 Hi3 Hn3 [Hl3 _].
    destruct is_heredoc; [|apply goes_ret; [done|]; apply Hend; lia].
    apply goes_modify_pending; [done|]. intros hs. apply goes_ret; [done|]. apply Hend. exact Hl3.
Qed.

Lemma fd_prefixed_goes s : pinv s -> is_word_kind (kind (current s)) = true ->
  goes (lt_of s) (parse_fd_prefixed_redirection source) s.
Proof.
  intros Hi Hw. unfold parse_fd_prefixed_redirection. reading.
  eapply goes_bind; [by apply advance_lt; [|apply word_not_eof]|]. intros t s1 Hi1 Hn1 Hlt.
  eapply goes_bind; [by apply parse_redirection_goes|]. intros r s2 Hi2 Hn2 [Hl2 _]. finish.
Qed.

Lemma redirection_lt s : pinv s -> kind (current s) <> Eof -> goes (lt_of s) (parse_redirection source) s.
Proof. intros Hi Hk. eapply goes_weaken; [by apply parse_redirection_goes|]. intros r s' _ [_ H]. by apply H. Qed.

Lemma redirection_not_eof s : is_redirection_kind (kind (current s)) = true -> kind (current s) <> Eof.
Proof. intros H He. by rewrite He in H. Qed.

Lemma parse_trailing_redirections_goes s : pinv s -> goes (le_of s) (parse_trailing_redirections source) s.
Proof.
  intros Hi. apply (goes_loop (fun _ _ => True)); [done|done|]. intros rs s1 Hi1 Hn1 _ Hle. reading.
  eapply (goes_bind (test (fun t => kind t <> Eof) s1)).
  - destruct (is_redirection_kind (kind (current s1))) eqn:Hr.
    + apply goes_ret; [done|]. split; [done|]. intros _. by apply redirection_not_eof.
    + eapply goes_weaken; [by apply at_fd_prefix_goes|]. intros b s2 _ [Hs Hb]. split; [done|]. intros Ht. by apply word_not_eof, Hb.
  - intros b s2 Hi2 Hn2 [[Hc2 Hl2] Hb]. destruct b; cbn [negb]; [|finish]. specialize (Hb eq_refl).
    eapply goes_bind; [by apply at_fd_prefix_goes|]. intros c s3 Hi3 Hn3 [[Hc3 Hl3] Hb3].
    eapply (goes_bind (lt_of s3)); [|intros r s4 Hi4 Hn4 Hlt; apply goes_ret; [done|]; split; [done|]; unfold lt_of in Hlt; lia].
    destruct c; [apply fd_prefixed_goes; [done|]; rewrite Hc3; by apply Hb3|apply redirection_lt; [done|congruence]].
Qed.

(** ** Simple commands *)

Lemma tstart_mono s s' : pinv s -> pinv s' -> (left_of s' <= left_of s)%nat -> (tstart (current s) <= tstart (current s'))%nat.
Proof.
  intros Hi Hi'. pose proof (tok_le _ (pinv_current s Hi)). pose proof (tok_le _ (pinv_current s' Hi')). unfold left_of. lia.
Qed.

Lemma goes_slice {B} (Q : B -> Parser -> Prop) a b f s : (a <= b <= length source)%nat -> bd a -> bd b ->
  goes Q (f (slice source a b)) s -> goes Q (lift_res (str_slice source a b) ≫= f) s.
Proof.
  intros Hab Ha Hb H. unfold goes, mbind, comp_bind, lift_res, str_slice. rewrite (proj2 (Nat.leb_le _ _)) by lia. by rewrite Ha, Hb.
Qed.

Lemma process_substitution_goes s : pinv s -> kind (current s) <> Eof -> goes (lt_of s) (parse_process_substitution_word source) s.
Proof.
  intros Hi Hk. unfold parse_process_substitution_word. reading.
  eapply goes_bind; [by apply advance_lt|]. intros t1 s1 Hi1 Hn1 Hlt.
  eapply goes_bind; [by apply advance_adv|]. intros t2 s2 Hi2 Hn2 [Hl2 _]. reading.
  eapply (goes_bind (le_of s2)).
  - apply (goes_loop (fun _ _ => True)); [done|done|]. intros d s3 Hi3 Hn3 _ Hl3. reading.
    destruct (kind (current s3)) eqn:Hk3; try (destruct d as [|[|d]]); try apply goes_error; try (by apply goes_ret);
      (eapply goes_bind; [by apply advance_lt; [|congruence]|]; intros t s4 Hi4 Hn4 Hl4; apply goes_ret; [done|]; split; [done|]; exact Hl4).
  - intros [] s3 Hi3 Hn3 Hl3. reading. pose proof (tstart_mono s2 s3 Hi2 Hi3 Hl3) as Hm.
    pose proof (pinv_current s2 Hi2) as Hc2. pose proof (pinv_current s3 Hi3) as Hc3. pose proof (tok_le _ Hc3).
    apply goes_slice; [unfold tstart in *; lia|apply Hc2|apply Hc3|].
    eapply goes_bind; [by apply advance_adv|]. intros t4 s4 Hi4 Hn4 [Hl4 _]. reading. finish.
Qed.

Lemma simple_word_part_goes acc s : pinv s -> is_word_kind (kind (current s)) = true ->
  goes (lt_of s) (parse_simple_word_part source acc) s.
Proof.
  intros Hi Hw. destruct acc as [[[asg ws] rs] past]. unfold parse_simple_word_part. reading.
  destruct (negb past && is_assignment_text _) eqn:Ha.
  - apply andb_true_iff in Ha as [_ Ha]. eapply goes_bind; [by apply parse_assignment_goes|]. intros a s1 Hi1 Hn1 Hlt. by apply goes_ret.
  - eapply (goes_bind (same s)); [destruct (ends_with _ _); [by apply peek_is_goes|by apply goes_ret]|].
    intros p s1 Hi1 Hn1 [Hc Hl]. eapply (goes_bind (lt_of s1)).
    + destruct p; [|apply parse_word_lt; congruence]. eapply goes_weaken; [by apply parse_compound_assign_word_goes|].
      intros w s2 _ [_ H]. apply H. rewrite Hc. by apply word_not_eof.
    + intros w s2 Hi2 Hn2 Hlt. finish.
Qed.

(** A part was read and the measure fell, or nothing changed. *)
Definition part_read {A} (s : Parser) : option A -> Parser -> Prop := fun r s' =>
  (left_of s' <= left_of s)%nat /\ (r <> None -> (left_of s' < left_of s)%nat).

Lemma part_read_some {A B} (s s1 : Parser) (m : px A) (g : A -> B) : left_of s1 = left_of s -> goes (lt_of s1) m s1 ->
  goes (part_read s) (x ← m; mret (Some (g x))) s1.
Proof.
  intros Hl Hm. eapply goes_bind; [done|]. intros x s2 Hi2 Hn2 Hlt. apply goes_ret; [done|]. unfold lt_of, part_read in *. lia.
Qed.

Lemma simple_command_part_goes acc s : pinv s -> goes (part_read s) (parse_simple_command_part source acc) s.
Proof.
  intros Hi. destruct acc as [[[asg ws] rs] past]. unfold parse_simple_command_part.
  eapply goes_bind; [by apply at_fd_prefix_goes|]. intros b s1 Hi1 Hn1 [[Hc Hl] Hb].
  destruct b.
  { apply (part_read_some s s1 _ (fun r => (asg, ws, rs ++ [r], past))); [done|]. apply fd_prefixed_goes; [done|]. rewrite Hc. by apply Hb. }
  reading. eapply (goes_bind (test (fun t => kind t <> Eof) s1)).
  { destruct (is_greater_or_less (kind (current s1))) eqn:Hg; [|by apply goes_ret].
    eapply goes_weaken; [by apply peek_is_goes|]. intros b' s' _ Hs. split; [done|]. intros _ He. by rewrite He in Hg. }
  intros ps s2 Hi2 Hn2 [[Hc2 Hl2] Hps]. assert (Hl' : left_of s2 = left_of s) by congruence. destruct ps.
  { apply (part_read_some s s2 _ (fun w => (asg, ws ++ [w], rs, true))); [done|]. apply process_substitution_goes; [done|].
    rewrite Hc2. by apply Hps. }
  reading. destruct (is_redirection_kind (kind (current s2))) eqn:Hr.
  { apply (part_read_some s s2 _ (fun r => (asg, ws, rs ++ [r], past))); [done|]. apply redirection_lt; [done|]. by apply redirection_not_eof. }
  reading. destruct (is_word_kind (kind (current s2))) eqn:Hw; [|apply goes_ret; [done|]; split; [lia|done]].
  apply (part_read_some s s2 _ id); [done|]. by apply simple_word_part_goes.
Qed.

Lemma parse_simple_command_goes s : pinv s -> goes (lt_of s) (parse_simple_command source) s.
Proof.
  intros Hi. unfold parse_simple_command. reading.
  pose (I := fun (acc : list Assignment * list Word * list Redirection * bool) s' =>
    (left_of s' <= left_of s)%nat /\ (acc = ([], [], [], false) \/ (left_of s' < left_of s)%nat)).
  eapply (goes_bind I).
  - apply (goes_loop I); [done|split; [lia|by left]|]. intros acc s1 Hi1 Hn1 Ha Hle.
    eapply goes_bind; [by apply simple_command_part_goes|]. intros r s2 Hi2 Hn2 [Hl Hlt]. apply goes_ret; [done|].
    destruct r as [acc'|].
    + specialize (Hlt ltac:(done)). split; [|done]. split; [lia|right; lia].
    + destruct Ha as [? [? | ?]]; (split; [lia|]); [by left|right; lia].
  - intros [[[asg ws] rs] past] s1 Hi1 Hn1 [Hle Ha].
    destruct asg, ws, rs; reading; destruct Ha as [Ha|Ha]; try done; by apply goes_ret.
Qed.

(** ** Repositioning the lexer *)

Lemma restart_goes p s : pinv s -> bd p -> (tstart (current s) <= p <= length source)%nat ->
  goes (fun _ s' => (left_of s' <= left_of s)%nat /\ ((tstart (current s) < p)%nat -> (left_of s' < left_of s)%nat)) (restart_at source p) s.
Proof.
  intros (Hr & _ & Hd) Hb Hp. unfold restart_at, goes, mbind at 1, comp_bind at 1, modify at 1. cbn [fst snd].
  set (s1 := set_peeked _ _). assert (Hr1 : ready source (lexer s1)).
  { destruct Hr as (_ & _ & Hsd & _). split; [done|]. split; [cbn; lia|]. split; [done|done]. }
  unfold mbind, comp_bind, next_token_px. pose proof (next_token_tokens _ Hr1) as H.
  destruct (next_token source (lexer s1)) as [l' [t|e|w]]; [|done|done]. destruct H as [Hr' (Hge & Hok & Hend)]. cbn in *.
  pose proof (tok_le _ Hok). split; [split; [done|]; split; [cbn; split; [lia|done]|done]|]. split; [done|].
  unfold left_of. cbn. lia.
Qed.

(** ** Here-documents *)

Lemma slice_ok {E} a b : (a <= b <= length source)%nat -> bd a -> bd b -> str_slice source a b = (Ok (slice source a b) : res E _).
Proof. intros Hab Ha Hb. unfold str_slice. rewrite (proj2 (Nat.leb_le _ _)) by lia. by rewrite Ha, Hb. Qed.

Lemma heredoc_line_ok p : (p <= length source)%nat -> bd p ->
  exists e line, heredoc_line source p = Ok (p, e, line) /\ (p <= e <= length source)%nat /\ bd e /\
    (e = length source \/ source !! e = Some newline).
Proof.
  intros Hp Hb. unfold heredoc_line. rewrite slice_ok by (done || lia || apply boundary_end). cbn [mbind res_bind].
  assert (He : exists e, (match find_byte newline (slice source p (length source)) with Some i => (p + i)%nat | None => length source end) = e /\
    (p <= e <= length source)%nat /\ bd e /\ (e = length source \/ source !! e = Some newline)).
  { eexists. split; [done|]. destruct (find_byte newline _) as [i|] eqn:Hf; [|split_and!; [lia|lia|apply boundary_end|by left]].
    apply find_byte_Some in Hf. unfold slice in Hf. apply lookup_take_Some in Hf as [Hf _]. rewrite lookup_drop in Hf.
    pose proof (lookup_lt_Some _ _ _ Hf). split_and!; [lia|lia|by eapply boundary_at|by right]. }
  destruct He as (e & -> & Hle & Hbe & Hend). rewrite slice_ok by done. cbn. by exists e, (slice source p e).
Qed.

Lemma heredoc_loop_ok n hd start p : (start <= p <= length source)%nat -> bd start -> bd p -> (length source - p < n)%nat ->
  match heredoc_loop source n hd start p with
  | Ok (_, q) => (p <= q <= length source)%nat /\ bd q
  | Err _ => True
  | Panic _ => False
  end.
Proof.
  revert p. induction n as [|n IH]; intros p Hp Hs Hb Hn; [lia|]. cbn [heredoc_loop].
  destruct (heredoc_line_ok p) as (e & line & -> & Hle & Hbe & Hend); [lia|done|]. cbn [mbind res_bind].
  case_decide.
  - unfold build_heredoc_body. rewrite slice_ok by (done || lia). cbn [mbind res_bind mret res_ret].
    unfold advance_heredoc_scan. destruct (Nat.ltb_spec e (length source)); [|done]. split; [lia|].
    destruct Hend as [?|Hend]; [lia|]. by eapply boundary_after.
  - destruct (Nat.leb_spec (length source) e); [done|]. destruct Hend as [?|Hend]; [lia|].
    specialize (IH (S e)). destruct (heredoc_loop source n hd start (S e)) as [[body q]|err|w]; [|done|].
    + destruct IH as [? ?]; [lia|done|by eapply boundary_after|lia|]. split; [lia|done].
    + apply IH; [lia|done|by eapply boundary_after|lia].
Qed.

Lemma heredoc_bodies_ok hds p : (p <= length source)%nat -> bd p ->
  match heredoc_bodies source hds p with
  | Ok (_, q) => (p <= q <= length source)%nat /\ bd q
  | Err _ => True
  | Panic _ => False
  end.
Proof.
  revert p. induction hds as [|hd hds IH]; intros p Hp Hb; cbn [heredoc_bodies]; [cbn; split; [lia|done]|].
  pose proof (heredoc_loop_ok (S (length source)) hd p p ltac:(lia) Hb Hb ltac:(lia)) as H.
  destruct (heredoc_loop source _ hd p p) as [[body q]|e|w]; [|done|done]. destruct H as [Hq Hbq]. cbn [mbind res_bind].
  specialize (IH q ltac:(lia) Hbq). destruct (heredoc_bodies source hds q) as [[bodies r]|e|w]; [|done|done]. cbn. split; [lia|tauto].
Qed.

Lemma resolve_heredocs_goes cc s : pinv s -> goes (le_of s) (resolve_heredocs source cc) s.
Proof.
  intros Hi. pose proof (pinv_current s Hi) as Hc. pose proof (tok_le _ Hc) as Hle. unfold resolve_heredocs. reading.
  fold (tend (current s)). pose proof (heredoc_bodies_ok (pending_heredocs s) (tend (current s)) ltac:(lia) (tok_bd_end _ Hc)) as H.
  unfold goes, mbind at 1, comp_bind at 1, lift_res. destruct (heredoc_bodies source _ _) as [[bodies q]|e|w]; [|done|done].
  change (goes (le_of s) (_ ← modify (set_pending []); _ ← restart_at source q; mret (fst (assign_heredoc_bodies_cc cc bodies))) s).
  unfold goes, mbind at 1, comp_bind at 1, modify. cbn [fst snd].
  change (goes (le_of s) (_ ← restart_at source q; mret (fst (assign_heredoc_bodies_cc cc bodies))) (set_pending [] s)).
  eapply goes_bind; [apply restart_goes; [done|tauto|cbn; lia]|]. intros [] s1 Hi1 Hn1 [Hl _]. by apply goes_ret.
Qed.

(** ** Arithmetic *)

Lemma arith_scan_ok n p d : match arith_scan source n p d with
  | Ok q => (p <= q)%nat /\ source !! q = Some ")"%char /\ source !! S q = Some ")"%char
  | Err _ => True
  | Panic _ => False
  end.
Proof.
  revert p d. induction n as [|n IH]; intros p d; cbn [arith_scan]; [done|]. destruct (source !! p) as [b|] eqn:Hb; [|done].
  assert (Hgo : forall d', match arith_scan source n (S p) d' with
    | Ok q => (p <= q)%nat /\ source !! q = Some ")"%char /\ source !! S q = Some ")"%char | Err _ => True | Panic _ => False end).
  { intros d'. specialize (IH (S p) d'). destruct (arith_scan _ _ _ _); [|done|done]. split; [lia|tauto]. }
  destruct (decide (b = "("%char)); [apply Hgo|]. destruct (decide (b = ")"%char)) as [->|]; [|apply Hgo].
  destruct d; [|apply Hgo]. by case_decide.
Qed.

Lemma collect_arith_goes s : pinv s -> goes (lt_of s) (collect_arith_expr source) s.
Proof.
  intros Hi. pose proof (pinv_current s Hi) as Hc. unfold collect_arith_expr. reading. fold (tstart (current s)).
  pose proof (arith_scan_ok (length source - tstart (current s)) (tstart (current s)) 0) as H.
  destruct (arith_scan source _ _ 0) as [q|[q|]|w]; [|apply goes_error..|done]. destruct H as (Hq & Hb1 & Hb2).
  pose proof (lookup_lt_Some _ _ _ Hb2). apply goes_slice; [lia|apply Hc|by eapply boundary_at|].
  unfold goes, mbind at 1, comp_bind at 1, modify. cbn [fst snd].
  change (goes (lt_of s) (_ ← restart_at source (q + 2); mret (trim (slice source (tstart (current s)) q))) (set_prev_end (as_u32 (q + 2)) s)).
  eapply goes_bind; [apply restart_goes; [done| |cbn; lia]|].
  - rewrite Nat.add_comm. by eapply boundary_after.
  - intros [] s1 Hi1 Hn1 [_ Hlt]. apply goes_ret; [done|]. apply Hlt. cbn. lia.
Qed.

Lemma advance_le s : pinv s -> goes (le_of s) (advance source) s.
Proof. intros Hi. eapply goes_weaken; [by apply advance_adv|]. by intros t s' _ [? _]. Qed.

Lemma parse_word_le s : pinv s -> goes (le_of s) (parse_word source) s.
Proof. intros Hi. eapply goes_weaken; [by apply parse_word_goes|]. by intros t s' _ [? _]. Qed.

Lemma arith_command_goes s : pinv s -> goes (lt_of s) (parse_arith_command source) s.
Proof. intros Hi. unfold parse_arith_command. reading. call advance_le. call advance_le. call collect_arith_goes. reading. finish. Qed.

Lemma is_arith_for_goes s : pinv s -> goes (same s) (is_arith_for_start source) s.
Proof.
  intros Hi. unfold is_arith_for_start. reading. case_decide; [|by apply goes_ret].
  eapply goes_bind; [by apply attempt_peek_goes|]. intros. by apply goes_ret.
Qed.

Lemma optional_semi_goes s : pinv s -> goes (le_of s) (consume_optional_semi source) s.
Proof. intros Hi. unfold consume_optional_semi. reading; [call advance_le|]; finish. Qed.

Lemma loop_words_goes s : pinv s -> goes (le_of s) (loop_words source) s.
Proof.
  intros Hi. apply (goes_loop (fun _ _ => True)); [done|done|]. intros ws s1 Hi1 Hn1 _ Hle. reading.
  destruct (is_word_kind (kind (current s1))) eqn:Hw; cbn [negb]; [|finish]. reading. case_decide; [finish|].
  call parse_word_lt. by apply goes_ret.
Qed.

Lemma words_clause_goes s : pinv s -> goes (le_of s) (parse_loop_words_clause source) s.
Proof.
  intros Hi. unfold parse_loop_words_clause. reading; cbn [negb]; [|call optional_semi_goes; finish].
  call advance_le. call loop_words_goes. call optional_semi_goes. finish.
Qed.

Lemma loop_variable_goes k s : pinv s -> goes (le_of s) (loop_variable source k) s.
Proof.
  intros Hi. unfold loop_variable. reading. destruct (is_word_kind _); cbn [negb]; reading. call advance_le. finish.
Qed.

Lemma case_patterns_goes s : pinv s -> goes (lt_of s) (parse_case_patterns source) s.
Proof.
  intros Hi. unfold parse_case_patterns. apply goes_at_kind. eapply (goes_bind (le_of s)).
  { case_bool_decide; [call advance_le|]; finish. }
  intros [] s1 Hi1 Hn1 Hl1. call parse_word_le. eapply (goes_bind (le_of s')).
  { apply (goes_loop (fun _ _ => True)); [done|done|]. intros ps s3 Hi3 Hn3 _ Hl3. reading; [|finish].
    call advance_lt. call parse_word_le. apply goes_ret; [done|]. split; [done|]. lia. }
  intros ps s4 Hi4 Hn4 Hl4. reading; cbn [negb]; reading. call advance_lt. unfold le_of in *. finish.
Qed.

Lemma case_terminator_goes s : pinv s -> goes (le_of s) (parse_case_terminator source) s.
Proof.
  intros Hi. unfold parse_case_terminator.
  eapply goes_bind; [by apply is_case_continue_goes|]. intros b s1 Hi1 Hn1 [[_ Hl1] _].
  destruct b; [do 3 call advance_le; finish|].
  eapply goes_bind; [by apply is_double_semi_goes|]. intros b s2 Hi2 Hn2 [[_ Hl2] _].
  destruct b; [do 2 call advance_le; finish|].
  eapply goes_bind; [by apply is_case_fallthrough_goes|]. intros b s3 Hi3 Hn3 [[_ Hl3] _].
  destruct b; [do 2 call advance_le|]; finish.
Qed.

Lemma double_bracket_goes s : pinv s -> kind (current s) <> Eof -> goes (lt_of s) (parse_double_bracket source) s.
Proof.
  intros Hi Hk. unfold parse_double_bracket. reading. call advance_lt. eapply (goes_bind (le_of s')).
  - apply (goes_loop (fun _ _ => True)); [done|done|]. intros ws s1 Hi1 Hn1 _ Hl1. reading.
    pose proof (pinv_current s1 Hi1) as Hc.
    destruct (kind (current s1)) eqn:Hk1; reading;
      try (eapply goes_bind; [by apply advance_goes|]; intros t s2 Hi2 Hn2 (-> & ? & Hlt); specialize (Hlt ltac:(congruence)));
      try (apply goes_tok_text; [done|]); try (apply goes_ret; [done|]; split; [done|lia]).
    + eapply goes_bind; [apply parse_word_lt; [done|by rewrite Hk1]|]. intros w s2 Hi2 Hn2 Hlt. by apply goes_ret.
    + finish.
  - intros ws s1 Hi1 Hn1 Hl1. reading. finish.
Qed.

(** ** The recursive grammar at one nesting depth *)

Section commands.
Context (D : Z) (rec : px Command) (Hrec : forall s, pinv s -> nesting_depth s = D -> goes (lt_of s) rec s).

(** A consumed keyword. *)
Lemma optional_advance_goes (b : bool) s : pinv s -> goes (le_of s) (if b then _ ← advance source; mret tt else mret tt) s.
Proof. intros Hi. destruct b; [call advance_le|]; finish. Qed.

Lemma pipeline_goes s : pinv s -> nesting_depth s = D -> goes (lt_of s) (parse_pipeline source rec) s.
Proof.
  intros Hi HD. unfold parse_pipeline. apply goes_at_word_eq; [done|]. intros timed _.
  call optional_advance_goes. eapply (goes_bind (le_of s)).
  { destruct timed; [|finish]. unfold at_word_eq. reading. destruct (is_word_kind _); [reading|]; finish. }
  intros p s1 Hi1 Hn1 Hl1. call optional_advance_goes. apply goes_at_word_eq; [done|]. intros negated _.
  call optional_advance_goes. call Hrec. eapply (goes_bind (lt_of s)); [|intros r s5 Hi5 Hn5 Hl5; finish].
  apply (goes_loop (fun _ _ => True)); [done|done|]. intros [cs pe] s5 Hi5 Hn5 _ Hl5. reading.
  destruct (kind (current s5)) eqn:Hk; try (unfold le_of in *; finish); (call advance_lt; call skip_newlines_goes; call Hrec;
    apply goes_ret; [done|]; split; [done|lia]).
Qed.

Lemma and_or_goes s : pinv s -> nesting_depth s = D -> goes (lt_of s) (parse_and_or source rec) s.
Proof.
  intros Hi HD. unfold parse_and_or. call pipeline_goes. eapply (goes_bind (lt_of s)); [|intros r s5 Hi5 Hn5 Hl5; finish].
  apply (goes_loop (fun _ _ => True)); [done|done|]. intros rest s5 Hi5 Hn5 _ Hl5. reading.
  destruct (kind (current s5)) eqn:Hk; try finish; (call advance_lt; call skip_newlines_goes; call pipeline_goes;
    apply goes_ret; [done|]; split; [done|lia]).
Qed.

Lemma at_list_semi_goes s : pinv s -> goes (test (fun t => kind t = Semi) s) (at_list_semi source) s.
Proof.
  intros Hi. unfold at_list_semi. reading; cbn [negb]; [|by apply goes_ret].
  eapply goes_bind; [by apply is_double_semi_goes|]. intros b s1 Hi1 Hn1 [[Hc1 Hl1] _].
  destruct b; [apply goes_ret; [done|]; by split|].
  eapply goes_bind; [by apply is_case_fallthrough_goes|]. intros b s2 Hi2 Hn2 [[Hc2 Hl2] _].
  destruct b; [apply goes_ret; [done|]; split; [split; congruence|done]|].
  eapply goes_bind; [by apply is_case_continue_goes|]. intros b s3 Hi3 Hn3 [[Hc3 Hl3] _].
  apply goes_ret; [done|]. split; [split; congruence|done].
Qed.

Lemma complete_command_goes s : pinv s -> nesting_depth s = D -> goes (lt_of s) (parse_complete_command source rec) s.
Proof.
  intros Hi HD. unfold parse_complete_command. reading. call and_or_goes. eapply (goes_bind (lt_of s)).
  - apply (goes_loop (fun _ _ => True)); [done|done|]. intros l s2 Hi2 Hn2 _ Hl2.
    eapply goes_bind; [by apply at_list_semi_goes|]. intros b s3 Hi3 Hn3 [[Hc3 Hl3] Hb].
    destruct b; cbn [negb]; [|finish]. specialize (Hb eq_refl). call advance_lt. reading.
    eapply (goes_bind (le_of s'0)); [destruct (pending_heredocs s'0); [by apply skip_newlines_goes|finish]|].
    intros [] s5 Hi5 Hn5 Hl5. reading; [call and_or_goes|]; (apply goes_ret; [done|]; split; [done|unfold le_of in *; lia]).
  - intros l s2 Hi2 Hn2 Hl2. reading.
    destruct (pending_heredocs s2), (kind (current s2)); try finish.
    eapply goes_weaken; [by apply resolve_heredocs_goes|]. intros cc s3 _ Hl3. unfold le_of, lt_of in *. lia.
Qed.

Lemma command_list_goes s : pinv s -> nesting_depth s = D -> goes (le_of s) (command_list source rec) s.
Proof.
  intros Hi HD. unfold command_list. call skip_newlines_goes.
  apply (goes_loop (fun _ _ => True)); [done|done|]. intros cs s1 Hi1 Hn1 _ Hl1. reading; [|finish].
  call complete_command_goes. call skip_newlines_goes. apply goes_ret; [done|]. split; [done|lia].
Qed.

Lemma compound_list_goes s : pinv s -> nesting_depth s = D -> goes (le_of s) (parse_compound_list source rec) s.
Proof. apply command_list_goes. Qed.

Lemma do_group_goes s : pinv s -> nesting_depth s = D -> goes (le_of s) (do_group source rec) s.
Proof.
  intros Hi HD. unfold do_group. call expect_word_goes. call compound_list_goes. call expect_word_goes.
  call parse_trailing_redirections_goes. finish.
Qed.

Lemma subshell_goes s : pinv s -> nesting_depth s = D -> kind (current s) <> Eof -> goes (lt_of s) (parse_subshell source rec) s.
Proof.
  intros Hi HD Hk. unfold parse_subshell. reading. call advance_lt. call compound_list_goes. reading; cbn [negb]; reading.
  call advance_le. call parse_trailing_redirections_goes. reading. finish.
Qed.

Lemma group_goes s : pinv s -> nesting_depth s = D -> goes (lt_of s) (parse_group source rec) s.
Proof.
  intros Hi HD. unfold parse_group. reading. call expect_word_goes. call compound_list_goes. call expect_word_goes.
  call parse_trailing_redirections_goes. reading. finish.
Qed.

Lemma if_goes s : pinv s -> nesting_depth s = D -> goes (lt_of s) (parse_if source rec) s.
Proof.
  intros Hi HD. unfold parse_if. reading. call expect_word_goes. call compound_list_goes. call expect_word_goes. call compound_list_goes.
  eapply (goes_bind (lt_of s)).
  { apply (goes_loop (fun _ _ => True)); [done|done|]. intros es s5 Hi5 Hn5 _ Hl5.
    apply goes_at_word_eq; [done|]. intros [] Hb; [|finish]. destruct (Hb eq_refl) as [Hw%word_not_eof _]. unfold parse_elif_clause.
    eapply (goes_bind (lt_of s5)); [|intros e s6 Hi6 Hn6 Hl6; by apply goes_ret].
    call advance_lt. call compound_list_goes. call expect_word_goes. call compound_list_goes. finish. }
  intros es s5 Hi5 Hn5 Hl5. apply goes_at_word_eq; [done|]. intros b _. eapply (goes_bind (le_of s5)).
  { destruct b; [call advance_le; call compound_list_goes|]; finish. }
  intros el s6 Hi6 Hn6 Hl6. call expect_word_goes. call parse_trailing_redirections_goes. reading. finish.
Qed.

Lemma while_goes s : pinv s -> nesting_depth s = D -> goes (lt_of s) (parse_while source rec) s.
Proof. intros Hi HD. unfold parse_while. reading. call expect_word_goes. call compound_list_goes. call do_group_goes. reading. finish. Qed.

Lemma until_goes s : pinv s -> nesting_depth s = D -> goes (lt_of s) (parse_until source rec) s.
Proof. intros Hi HD. unfold parse_until. reading. call expect_word_goes. call compound_list_goes. call do_group_goes. reading. finish. Qed.

Lemma arith_for_goes start s : pinv s -> nesting_depth s = D -> goes (le_of s) (parse_arith_for source rec start) s.
Proof.
  intros Hi HD. unfold parse_arith_for. call advance_le. call advance_le. call collect_arith_goes. call optional_semi_goes.
  call skip_newlines_goes. call do_group_goes. reading. finish.
Qed.

Lemma for_goes s : pinv s -> nesting_depth s = D -> goes (lt_of s) (parse_for source rec) s.
Proof.
  intros Hi HD. unfold parse_for. reading. call expect_word_goes.
  eapply goes_bind; [by apply is_arith_for_goes|]. intros b s2 Hi2 Hn2 [_ Hl2]. destruct b.
  - eapply goes_weaken; [apply arith_for_goes; [done|congruence]|]. intros c s3 _ Hl3. unfold le_of, lt_of in *. lia.
  - call loop_variable_goes. call words_clause_goes. call skip_newlines_goes. call do_group_goes. reading. finish.
Qed.

Lemma select_goes s : pinv s -> nesting_depth s = D -> goes (lt_of s) (parse_select source rec) s.
Proof.
  intros Hi HD. unfold parse_select. reading. call expect_word_goes. call loop_variable_goes. call words_clause_goes.
  call skip_newlines_goes. call do_group_goes. reading. finish.
Qed.

Lemma case_body_goes s : pinv s -> nesting_depth s = D -> goes (le_of s) (parse_case_body source rec) s.
Proof.
  intros Hi HD. apply (goes_loop (fun _ _ => True)); [done|done|]. intros cs s1 Hi1 Hn1 _ Hl1. reading; cbn [negb]; [|finish].
  eapply goes_bind; [by apply is_double_semi_goes|]. intros b s2 Hi2 Hn2 [[Hc2 Hl2] _]. destruct b; [finish|].
  eapply goes_bind; [by apply is_case_fallthrough_goes|]. intros b s3 Hi3 Hn3 [[Hc3 Hl3] _]. destruct b; [finish|].
  call complete_command_goes. call skip_newlines_goes. apply goes_ret; [done|]. split; [done|lia].
Qed.

Lemma case_goes s : pinv s -> nesting_depth s = D -> goes (lt_of s) (parse_case source rec) s.
Proof.
  intros Hi HD. unfold parse_case. reading. call expect_word_goes. reading. destruct (is_word_kind _); cbn [negb]; reading.
  call parse_word_le. call skip_newlines_goes. call expect_word_goes. call skip_newlines_goes. eapply (goes_bind (lt_of s)).
  { apply (goes_loop (fun _ _ => True)); [done|done|]. intros its s5 Hi5 Hn5 _ Hl5. apply goes_at_word_eq; [done|]. intros e _.
    apply goes_at_kind. destruct (e || _); [finish|]. unfold parse_case_item.
    eapply (goes_bind (lt_of s5)); [|intros i s6 Hi6 Hn6 Hl6; by apply goes_ret].
    call case_patterns_goes. call skip_newlines_goes. call case_body_goes. call case_terminator_goes. call skip_newlines_goes. finish. }
  intros its s5 Hi5 Hn5 Hl5. call expect_word_goes. call parse_trailing_redirections_goes. reading. finish.
Qed.

Lemma function_posix_goes s : pinv s -> nesting_depth s = D -> goes (lt_of s) (parse_function_posix source rec) s.
Proof.
  intros Hi HD. unfold parse_function_posix. reading. do 3 call advance_le. call skip_newlines_goes. call Hrec. reading. finish.
Qed.

Lemma function_bash_goes s : pinv s -> nesting_depth s = D -> goes (lt_of s) (parse_function_bash source rec) s.
Proof.
  intros Hi HD. unfold parse_function_bash. reading. call expect_word_goes. reading. destruct (is_word_kind _); cbn [negb]; reading.
  - call advance_le. apply goes_at_kind. eapply (goes_bind (le_of s'0)).
    { case_bool_decide; [|finish]. call advance_le. reading; cbn [negb]; reading. call advance_le. finish. }
    intros [] s4 Hi4 Hn4 Hl4. call skip_newlines_goes. call Hrec. reading. finish.
Qed.

Lemma some_goes (m : px Command) s s1 : left_of s1 = left_of s -> goes (lt_of s1) m s1 ->
  goes (part_read s) (c ← m; mret (Some c)) s1.
Proof. apply (part_read_some s s1 m id). Qed.

Lemma compound_keyword_goes s : pinv s -> nesting_depth s = D -> goes (part_read s) (try_parse_compound_keyword source rec) s.
Proof.
  intros Hi HD. unfold try_parse_compound_keyword. reading.
  repeat match goal with |- goes _ (if decide ?P then _ else _) _ => destruct (decide P) end;
    try (apply some_goes; [done|];
      first [by apply group_goes|by apply if_goes|by apply while_goes|by apply until_goes|by apply for_goes|by apply case_goes
            |by apply select_goes|by apply function_bash_goes]).
  eapply goes_bind; [by apply peek_goes|]. intros t0 s1 Hi1 Hn1 [Hc1 Hl1].
  assert (Hnone : forall s', pinv s' -> left_of s' = left_of s -> goes (part_read s) (mret None : px (option Command)) s').
  { intros s' Hi' Hl'. apply goes_ret; [done|]. split; [lia|done]. }
  case_decide; [|by apply Hnone]. eapply goes_bind; [by apply peek_goes|]. intros t1 s2 Hi2 Hn2 [Hc2 Hl2].
  case_decide; [|by apply Hnone; [|congruence]]. apply some_goes; [congruence|]. apply function_posix_goes; [done|congruence].
Qed.

Lemma command_lparen_goes s : pinv s -> nesting_depth s = D -> kind (current s) <> Eof -> goes (lt_of s) (parse_command_lparen source rec) s.
Proof.
  intros Hi HD Hk. unfold parse_command_lparen. reading.
  eapply goes_bind; [by apply attempt_peek_goes|]. intros t s1 Hi1 Hn1 [Hc Hl].
  assert (Hsub : goes (lt_of s) (parse_subshell source rec) s1).
  { eapply goes_weaken; [apply subshell_goes; congruence|]. intros c s2 _ Hlt. unfold lt_of in *. lia. }
  destruct t as [t|]; [|done]. case_decide; [|done]. eapply goes_weaken; [by apply arith_command_goes|].
  intros c s2 _ Hlt. unfold lt_of in *. lia.
Qed.

Lemma command_inner_goes s : pinv s -> nesting_depth s = D -> goes (lt_of s) (parse_command_inner source rec) s.
Proof.
  intros Hi HD. unfold parse_command_inner. reading.
  assert (Hsimple : forall s1, pinv s1 -> (left_of s1 <= left_of s)%nat -> goes (lt_of s) (sc ← parse_simple_command source; mret (Simple sc)) s1).
  { intros s1 Hi1 Hl1. eapply goes_bind; [by apply parse_simple_command_goes|]. intros sc s2 Hi2 Hn2 Hlt. finish. }
  destruct (kind (current s)) eqn:Hk; try (by apply Hsimple).
  - eapply goes_bind; [by apply compound_keyword_goes|]. intros c s1 Hi1 Hn1 [Hl Hlt].
    destruct c as [c|]; [apply goes_ret; [done|]; by apply Hlt|by apply Hsimple].
  - apply command_lparen_goes; congruence.
  - apply double_bracket_goes; congruence.
Qed.
End commands.

(** ** Tying the knot *)

(** The recursion left and the depth entered add up to the limit. *)
Lemma parse_command_goes fuel s : pinv s -> MAX_NESTING_DEPTH < nesting_depth s + Z.of_nat fuel ->
  nesting_depth s <= MAX_NESTING_DEPTH -> goes (lt_of s) (parse_command source fuel) s.
Proof.
  revert s. induction fuel as [|f IH]; intros s Hi Hf Hd; [lia|]. cbn [parse_command].
  unfold parse_command_body, enter_nesting, goes, mbind at 1, comp_bind at 1. unfold mbind at 1, comp_bind at 1, get. cbn [fst snd].
  destruct (Z.leb_spec MAX_NESTING_DEPTH (nesting_depth s)) as [Hmax|Hlt]; [done|]. unfold modify. cbn [fst snd].
  set (s1 := set_nesting (nesting_depth s + 1) s). unfold finally_px.
  assert (Hi1 : pinv s1) by (destruct Hi as (? & ? & ?); split; [done|]; split; [done|]; cbn; lia).
  pose proof (command_inner_goes (nesting_depth s + 1) (parse_command source f)) as H.
  specialize (H ltac:(intros s2 Hi2 Hn2; apply IH; [done|lia|lia]) s1 Hi1 eq_refl). unfold goes in H.
  destruct (parse_command_inner source _ s1) as [s2 [c|e|w]]; [|done|done]. destruct H as (Hi2 & Hn2 & Hl).
  destruct Hi as (_ & _ & Hd0). split; [|split].
  - destruct Hi2 as (? & ? & ?). split; [done|]. split; [done|]. cbn. unfold sat_sub. lia.
  - cbn. rewrite Hn2. cbn. unfold sat_sub. lia.
  - exact Hl.
Qed.

Lemma parser_new_ok : match Parser_new source with
  | Ok s => pinv s /\ nesting_depth s = 0
  | Err _ => True
  | Panic _ => False
  end.
Proof.
  unfold Parser_new. assert (Hr : ready source Lexer_new) by (repeat split; cbn; lia || done).
  pose proof (next_token_tokens _ Hr) as H. destruct (next_token source Lexer_new) as [l [t|e|w]]; [|done|done].
  destruct H as [Hr' Ht]. split; [|done]. split; [done|]. split; [exact Ht|done].
Qed.
End props.

(** C1: [parse] is total: on any UTF-8 source below 4 GiB it returns a program or a
    parse error.  No loop of the grammar runs forever, the recursion stays within
    the 24 levels of nesting the parser allows, and no slice, index or [expect]
    panics. *)
Theorem parse_total (source : str) : utf8_shape source -> Z.of_nat (length source) < 2 ^ 32 ->
  match parse source with Panic _ => False | _ => True end.
Proof.
  intros Hu Hf. unfold parse. pose proof (parser_new_ok source Hu Hf) as H.
  destruct (Parser_new source) as [s|e|w]; [|done|done]. destruct H as [Hi Hn]. cbn [mbind res_bind].
  assert (Hg : goes source (fun _ _ => True) (parse_program source (parse_command source recursion_limit)) s).
  { unfold parse_program. eapply goes_bind.
    - apply (command_list_goes source Hu Hf 0); [|done|done]. intros s1 Hi1 Hn1. apply parse_command_goes; [done..| |]; rewrite Hn1; done.
    - intros cs s1 Hi1 Hn1 Hl1. apply goes_get. case_decide; [by apply goes_ret|apply goes_error_here]. }
  unfold goes in Hg. destruct (parse_program source _ s) as [s1 []]; done.
Qed.

(** * Parser: programs

    What the parser returns on whole sources. *)

Definition demo_script : str :=
  #"for f in *.txt; do" ++ [newline] ++ #"  cat <<EOF | wc -l" ++ [newline] ++ #"$f" ++ [newline] ++ #"EOF" ++ [newline] ++
  #"done > out 2>&1".

Lemma parse_total_witness : match parse demo_script with Panic _ => False | _ => True end.
Proof. apply (parse_total demo_script); [apply utf8_shapeb_correct; reflexivity|vm_compute; reflexivity]. Defined.

(** ** Observations *)

(** A lexical error after a single digit is swallowed by the lookahead for a
    descriptor prefix: the unterminated quote below is not reported. *)
Example lookahead_hides_error : parse #"echo 2 'abc" = parse #"echo 2" /\
  exists e, parse #"echo x 'abc" = Err e.
Proof. split; [vm_compute; reflexivity|]. eexists. vm_compute. reflexivity. Qed.

(** A background command is a syntax error. *)
Example background_rejected : parse #"sleep 1 &" = Err {| pe_message := #"unexpected token: Amp"; pe_offset := 8 |}.
Proof. vm_compute. reflexivity. Qed.

(** The here-document of a one-line source that starts with [cat <<]. *)
Definition heredoc_bodies_of (p : Program) : list (option HereDocBody) :=
  match commands p with
  | [mkCompleteCommand [mkAndOrList (mkPipeline _ _ _ [Simple sc] _) _] _] => map redir_here_doc_body (sc_redirections sc)
  | [mkCompleteCommand [mkAndOrList (mkPipeline _ _ _
       [Group [mkCompleteCommand [mkAndOrList (mkPipeline _ _ _ [Simple sc] _) _] _] _ _] _) _] _] =>
      map redir_here_doc_body (sc_redirections sc)
  | _ => []
  end.

Definition parsed_bodies (source : str) : list (option HereDocBody) :=
  match parse source with Ok p => heredoc_bodies_of p | _ => [] end.

(** A group closed on the line of its here-document loses the body, and an escaped
    delimiter does not suppress expansion. *)
Example heredoc_in_group_lost :
  parsed_bodies ( #"{ cat <<EOF; }" ++ [newline] ++ #"hi" ++ [newline] ++ #"EOF" ++ [newline]) = [None] /\
  option_map expand <$> parsed_bodies ( #"cat <<\EOF" ++ [newline] ++ #"hi" ++ [newline] ++ #"EOF" ++ [newline]) = [Some true] /\
  option_map expand <$> parsed_bodies ( #"cat <<'EOF'" ++ [newline] ++ #"hi" ++ [newline] ++ #"EOF" ++ [newline]) = [Some false].
Proof. split_and!; vm_compute; reflexivity. Qed.
