(* ===== verification/ParserStream.v ===== *)
(** * Parser: token streams

    The lexer abstracted into the stream of the texts of its tokens, for sources
    in which the tokens are separated by single spaces: the parser's current and
    peeked tokens are the front of the stream, [advance] takes its head and
    [peek_nth] looks into it. *)

From S2P Require Import Prelude Strings Ast Lexer LexerProps LexerSpec WordParser WordParserProps Parser ParserProps.

(** ** Token streams *)

Definition op_kind (t : str) : option TokenKind :=
  if decide (t = #";") then Some Semi
  else if decide (t = #"|") then Some Pipe
  else if decide (t = #"|&") then Some PipeAmp
  else if decide (t = #"&&") then Some AndAnd
  else if decide (t = #"||") then Some OrOr
  else if decide (t = #"(") then Some LParen
  else if decide (t = #")") then Some RParen
  else None.

Definition word_kind (t : str) : TokenKind := default (TWord (is_reserved_word t)) (plain_word_token_kind t true).

Definition tok_kind (t : str) : TokenKind := default (word_kind t) (op_kind t).

Definition good_word (t : str) : bool := plain_word t && is_ascii t.

Definition good_token (t : str) : bool := bool_decide (is_Some (op_kind t)) || good_word t.

Lemma op_kind_cases t k : op_kind t = Some k ->
  (t, k) ∈ [( #";", Semi); ( #"|", Pipe); ( #"|&", PipeAmp); ( #"&&", AndAnd); ( #"||", OrOr); ( #"(", LParen); ( #")", RParen)].
Proof.
  unfold op_kind. rewrite list_elem_of_In.
  repeat match goal with
  | |- (if decide (t = ?x) then _ else _) = _ -> _ => destruct (decide (t = x)) as [->|_]; [intros [= <-]; cbn [In]; tauto|]
  end. done.
Qed.

Section streams.
Context (source : str) (Hutf8 : utf8_shape source).

(** The lexer stands before these tokens, each preceded by a space. *)
Definition lexes (l : Lexer) (ts : list str) : Prop :=
  ready source l /\ drop (pos l) source = spaced ts /\ forallb good_token ts = true.

Definition sep_follows (rest : str) : Prop := rest = [] \/ exists r, rest = " "%char :: r.

Lemma spaced_sep ts : sep_follows (spaced ts).
Proof. destruct ts; [by left|right; by eexists]. Qed.

Lemma sep_head rest p : drop p source = rest -> sep_follows rest -> source !! p = None \/ source !! p = Some " "%char.
Proof.
  intros Hd [-> |[r ->]]; [left|right; by apply drop_lookup in Hd as [? _]].
  apply (f_equal length) in Hd. rewrite length_drop in Hd. apply lookup_ge_None. cbn in Hd. lia.
Qed.

Definition op_tok (p : nat) (t : str) : Token := {| kind := tok_kind t; token_span := span_from p (p + length t) |}.

(** The cursor after at most one space, at a byte that starts no blank. *)
Lemma skip_one_blank pre b r s : drop (pos s) source = pre ++ b :: r -> pre = [] \/ pre = #" " ->
  (b <> " "%char /\ b <> tab /\ b <> bslash) -> skip_blanks source s = (set_pos (pos s + length pre) s, Ok tt).
Proof.
  intros Hd Hpre (Hb1 & Hb2 & Hb3).
  assert (Hno : forall n s', source !! pos s' = Some b -> skip_blanks_loop source n s' = (s', Ok tt)).
  { intros [|n] s' Hp; [done|]. cbn [skip_blanks_loop]. rewrite bind_peek, !bind_peek_ahead, Hp.
    rewrite decide_False by (intros [[= ->]|[= ->]]; done). rewrite !decide_False by (intros [[= ->] _]; done). done. }
  destruct Hpre as [-> | ->]; unfold skip_blanks; rewrite bind_get.
  - apply drop_lookup in Hd as [Hp _]. rewrite Hno by done. cbn. rewrite Nat.add_0_r. by destruct s.
  - cbn [app] in Hd. pose proof (drop_length_lt _ _ _ _ Hd) as Hlt. apply drop_lookup in Hd as [Hp Hd].
    apply drop_lookup in Hd as [Hp1 _]. unfold left_from. destruct (length source - pos s)%nat as [|n] eqn:Hn; [lia|].
    cbn [skip_blanks_loop]. rewrite bind_peek, !bind_peek_ahead, Hp, decide_True by (by left). rewrite bind_bump.
    by rewrite Hno by (cbn; rewrite ?Nat.add_1_r; done).
Qed.

Lemma op_next_token k pre t rest s : drop (pos s) source = pre ++ t ++ rest -> pre = [] \/ pre = #" " -> op_kind t = Some k ->
  sep_follows rest -> ready source s ->
  next_token source s = (set_pos (pos s + length pre + length t) s, Ok (op_tok (pos s + length pre) t)).
Proof.
  intros Hd Hpre Hop Hsep (Hm & _). unfold next_token. cbn [next_token_loop]. rewrite bind_get, Hm.
  unfold mbind at 1, comp_bind at 1. cbn [mret comp_ret]. unfold next_normal_token. unfold mbind at 1, comp_bind at 1.
  assert (Hd1 : drop (pos s + length pre) source = t ++ rest) by (by rewrite <-drop_drop, Hd, drop_app_length).
  assert (Hrest : drop (pos s + length pre + length t) source = rest) by (by rewrite <-drop_drop, Hd1, drop_app_length).
  pose proof (sep_head rest _ Hrest Hsep) as Hend.
  apply op_kind_cases in Hop. rewrite list_elem_of_In in Hop. cbn [In] in Hop.
  assert (Hhd : exists b r, t ++ rest = b :: r /\ (b <> " "%char /\ b <> tab /\ b <> bslash)).
  { repeat destruct Hop as [[= <- <-]|Hop]; [by eexists _, _..|done]. }
  destruct Hhd as (b & r & Hbr & Hb). rewrite Hbr in Hd. rewrite (skip_one_blank pre b r) by done. rewrite <-Hbr in Hd.
  rewrite bind_peek, bind_get. cbn [pos set_pos]. revert Hd1 Hend. generalize (pos s + length pre)%nat as p. intros p Hd1 Hend.
  repeat destruct Hop as [[= <- <-]|Hop]; [..|done]; cbn [app] in Hd1; apply drop_lookup in Hd1 as [Hp Hd1]; rewrite Hp; try reflexivity.
  - change (pipe_token source (set_pos p s) = (set_pos (p + 1) s, Ok (op_tok p #"|"))). unfold pipe_token. rewrite bind_peek_ahead.
    cbn [pos set_pos]. cbn in Hend. destruct Hend as [-> | ->]; reflexivity.
  - change (pipe_token source (set_pos p s) = (set_pos (p + 2) s, Ok (op_tok p #"|&"))). unfold pipe_token. rewrite bind_peek_ahead.
    cbn [pos set_pos]. apply drop_lookup in Hd1 as [Hp1 _]. rewrite Nat.add_1_r, Hp1. reflexivity.
  - change (amp_token source (set_pos p s) = (set_pos (p + 2) s, Ok (op_tok p #"&&"))). unfold amp_token. rewrite !bind_peek_ahead.
    cbn [pos set_pos]. apply drop_lookup in Hd1 as [Hp1 _]. rewrite Nat.add_1_r, Hp1. reflexivity.
  - change (pipe_token source (set_pos p s) = (set_pos (p + 2) s, Ok (op_tok p #"||"))). unfold pipe_token. rewrite bind_peek_ahead.
    cbn [pos set_pos]. apply drop_lookup in Hd1 as [Hp1 _]. rewrite Nat.add_1_r, Hp1. reflexivity.
Qed.

Lemma good_token_nonempty t : good_token t = true -> t <> [].
Proof. intros H ->. done. Qed.

(** Any token of a stream, after at most one space. *)
Lemma good_next_token pre t ts s : drop (pos s) source = pre ++ t ++ spaced ts -> pre = [] \/ pre = #" " ->
  forallb good_token (t :: ts) = true -> ready source s ->
  exists s', next_token source s = (s', Ok (op_tok (pos s + length pre) t)) /\ lexes s' ts.
Proof.
  intros Hd Hpre Hg Hr. cbn [forallb] in Hg. apply andb_true_iff in Hg as [Ht Hts].
  assert (Hend : drop (pos s + length pre + length t) source = spaced ts).
  { by rewrite <-!drop_drop, Hd, drop_app_length, drop_app_length. }
  assert (Hrun : next_token source s = (set_pos (pos s + length pre + length t) s, Ok (op_tok (pos s + length pre) t))).
  { destruct (op_kind t) as [k|] eqn:Hop; [by apply (op_next_token k pre t (spaced ts)); [..|apply spaced_sep|]|].
    unfold good_token in Ht. rewrite Hop in Ht. rewrite bool_decide_false in Ht by (by intros []). cbn [orb] in Ht.
    apply andb_true_iff in Ht as [Hw _]. rewrite (plain_next_token source Hutf8 pre t (spaced ts)) by (done || apply spaced_ends_word).
    unfold op_tok, tok_kind, word_token. rewrite Hop. done. }
  eexists. split; [exact Hrun|]. split; [|done].
  pose proof (next_token_reads source Hutf8 s Hr) as (a & Hg & Hs). rewrite Hrun in Hs. destruct Hr as (Hm & Hp & Hsd & Hb).
  destruct Hs as [Hs|(-> & Hs)].
  - destruct Hs as (Hle & Hm' & Hd' & Hb' & _). cbn in Hle. split; [done|]. split; [cbn; lia|]. split; [done|done].
  - injection Hs as Hs _. rewrite Hs. split; [done|]. split; [cbn; lia|]. split; [done|apply boundary_end].
Qed.

Context (Hfits : Z.of_nat (length source) < 2 ^ 32).

Abbreviation px := (comp Parser ParseError).

(** A token shows a text, or the end of the source. *)
Definition shows (tok : Token) (o : option str) : Prop :=
  match o with
  | Some t => kind tok = tok_kind t /\ text source tok = (Ok t : res ParseError str)
  | None => kind tok = Eof
  end.

(** The first [n] tokens of a stream that ends in ends of the source. *)
Fixpoint pad (n : nat) (ts : list str) : list (option str) :=
  match n with
  | O => []
  | S n' => match ts with [] => None :: pad n' [] | t :: ts' => Some t :: pad n' ts' end
  end.

(** No two tokens touch, and the lexer stands behind the last; a token at the end
    of the source is exempt. *)
Fixpoint spread (ts : list Token) (p : nat) : Prop :=
  match ts with
  | [] => True
  | t :: ts' =>
      match ts' with
      | [] => span_end (token_span t) <= Z.of_nat p
      | t' :: _ => kind t' = Eof \/ span_end (token_span t) < span_start (token_span t')
      end /\ spread ts' p
  end.

Lemma spread_tail t ts p : spread (t :: ts) p -> spread ts p.
Proof. by intros [_ ?]. Qed.

Lemma spread_snoc ts t p p' : ts <> [] -> spread ts p -> (kind t = Eof \/ Z.of_nat p < span_start (token_span t)) ->
  span_end (token_span t) <= Z.of_nat p' -> spread (ts ++ [t]) p'.
Proof.
  induction ts as [|x ts IH]; intros Hne Hsp Ht He; [done|]. destruct ts as [|y ts].
  - cbn in *. destruct Hsp as [Hx _]. split; [|split; [done|done]]. destruct Ht; [by left|right; lia].
  - destruct Hsp as [Hx Hsp]. split; [done|]. by apply IH.
Qed.

Record stream (s : Parser) (ts : list str) : Prop := {
  stream_shown : Forall2 shows (current s :: peeked s) (pad (S (length (peeked s))) ts);
  stream_lexes : lexes (lexer s) (drop (S (length (peeked s))) ts);
  stream_length : (length ts <= length source)%nat;
  stream_pending : pending_heredocs s = [];
  stream_spread : spread (current s :: peeked s) (pos (lexer s));
}.

Lemma op_tok_shows pre t ts l l' : drop (pos l) source = pre ++ t ++ spaced ts -> ready source l ->
  next_token source l = (l', Ok (op_tok (pos l + length pre) t)) -> t <> [] -> shows (op_tok (pos l + length pre) t) (Some t).
Proof.
  intros Hd Hr Hrun Hne. split; [done|]. pose proof (next_token_tokens source Hutf8 Hfits l Hr) as H. rewrite Hrun in H.
  destruct H as [_ (_ & Hok & _)]. rewrite (text_slice source _ Hok). f_equal.
  assert (Hd1 : drop (pos l + length pre) source = t ++ spaced ts) by (by rewrite <-drop_drop, Hd, drop_app_length).
  assert (Hlt : (pos l + length pre + length t <= length source)%nat).
  { apply (f_equal length) in Hd1. rewrite length_drop, length_app in Hd1. destruct t; [done|cbn in *; lia]. }
  unfold tstart, tend, op_tok, span_from, as_u32. cbn [token_span span_start span_end].
  rewrite !Z.mod_small by lia. rewrite !Nat2Z.id. unfold slice. rewrite Hd1.
  replace (pos l + length pre + length t - (pos l + length pre))%nat with (length t) by lia. by rewrite take_app_length.
Qed.

(** The lexer delivers the next token of its stream. *)
Lemma token_in_place l l' tok : ready source l -> next_token source l = (l', Ok tok) ->
  span_end (token_span tok) <= Z.of_nat (pos l').
Proof.
  intros Hr Hrun. pose proof (next_token_tokens source Hutf8 Hfits l Hr) as H. rewrite Hrun in H. destruct H as [_ (_ & _ & Hend)].
  cbn in Hend. unfold tend in Hend. lia.
Qed.

Lemma lexes_next l ts : lexes l ts -> exists l' tok, next_token source l = (l', Ok tok) /\ shows tok (head ts) /\ lexes l' (tail ts) /\
  (kind tok = Eof \/ Z.of_nat (pos l) < span_start (token_span tok)).
Proof.
  intros (Hr & Hd & Hg). destruct ts as [|t ts].
  - exists l, {| kind := Eof; token_span := span_from (pos l) (pos l) |}. rewrite eof_next_token by done. split; [done|].
    split; [done|]. split; [done|]. by left.
  - change (spaced (t :: ts)) with (#" " ++ t ++ spaced ts) in Hd.
    destruct (good_next_token #" " t ts l) as (l' & Hrun & Hl'); [done|by right|done|done|].
    assert (Hlt : Z.of_nat (pos l) + 1 < 2 ^ 32).
    { assert (pos l + 1 <= length source)%nat; [|lia]. apply (f_equal length) in Hd. rewrite length_drop in Hd. cbn in Hd. lia. }
    exists l', (op_tok (pos l + length #" ") t). split; [done|]. split; [|split; [done|right]].
    2:{ cbn. unfold as_u32. rewrite Z.mod_small by lia. lia. }
    cbn [forallb] in Hg. apply andb_true_iff in Hg as [Ht _].
    eapply op_tok_shows; [done|done|done|by apply good_token_nonempty].
Qed.

Lemma pad_snoc n ts : pad (S n) ts = pad n ts ++ [head (drop n ts)].
Proof.
  revert ts. induction n as [|n IH]; intros ts; [by destruct ts|]. change (pad (S (S n)) ts) with
    (match ts with [] => None :: pad (S n) [] | t :: ts' => Some t :: pad (S n) ts' end).
  destruct ts as [|t ts]; [|by rewrite IH].
  change (None :: pad (S n) [] = None :: (pad n [] ++ [@head str []])). by rewrite IH, drop_nil.
Qed.

Lemma next_token_px_run s o rest : lexes (lexer s) rest -> o = head rest -> exists l' tok,
  next_token_px source s = (set_lexer l' s, Ok tok) /\ shows tok o /\ lexes l' (tail rest) /\
  (kind tok = Eof \/ Z.of_nat (pos (lexer s)) < span_start (token_span tok)) /\ span_end (token_span tok) <= Z.of_nat (pos l').
Proof.
  intros Hl ->. destruct (lexes_next _ _ Hl) as (l' & tok & Hrun & Hs & Hl' & Hst). exists l', tok. unfold next_token_px.
  rewrite Hrun. split_and!; try done. apply (token_in_place (lexer s)); [apply Hl|done].
Qed.

Lemma tail_drop {A} n (l : list A) : tail (drop n l) = drop (S n) l.
Proof. revert l. induction n as [|n IH]; intros [|x l]; try done. apply IH. Qed.

(** [runs Q m s]: [m] succeeds from [s] and keeps the depth. *)
Definition runs {A} (Q : A -> Parser -> Prop) (m : px A) (s : Parser) : Prop :=
  exists a s', m s = (s', Ok a) /\ nesting_depth s' = nesting_depth s /\ Q a s'.

Lemma runs_ret {A} (Q : A -> Parser -> Prop) a s : Q a s -> runs Q (mret a) s.
Proof. intros. by exists a, s. Qed.

Lemma runs_bind {A B} (Q1 : A -> Parser -> Prop) (Q : B -> Parser -> Prop) m (f : A -> px B) s :
  runs Q1 m s -> (forall a s', nesting_depth s' = nesting_depth s -> Q1 a s' -> runs Q (f a) s') -> runs Q (m ≫= f) s.
Proof.
  intros (a & s' & Hm & Hn & HQ) Hf. destruct (Hf a s' Hn HQ) as (b & s2 & Hb & Hn2 & HQ2). exists b, s2.
  unfold mbind, comp_bind. rewrite Hm. split; [done|]. split; [congruence|done].
Qed.

Lemma runs_weaken {A} (Q Q' : A -> Parser -> Prop) m s : runs Q m s -> (forall a s', Q a s' -> Q' a s') -> runs Q' m s.
Proof. intros (a & s' & Hm & Hn & HQ) Hw. exists a, s'. auto. Qed.

Definition streams {A} (ts : list str) : A -> Parser -> Prop := fun _ s => stream s ts.

Lemma advance_runs s ts : stream s ts -> runs (fun tok s' => shows tok (head ts) /\ stream s' (tail ts)) (advance source) s.
Proof.
  intros [Hsh Hlx Hlen Hpd Hsp]. destruct s as [l cur pk pe pd nd]. cbn [current peeked lexer pending_heredocs] in *. subst pd.
  unfold advance, runs. unfold mbind at 1, comp_bind at 1, get. unfold mbind at 1, comp_bind at 1, modify at 1. cbn [fst snd peeked current].
  assert (Hcur : shows cur (head ts)) by (destruct ts; apply Forall2_cons in Hsh as [? _]; done).
  destruct pk as [|t pk].
  - destruct (next_token_px_run (set_prev_end (span_end (token_span cur)) {| lexer := l; current := cur; peeked := []; prev_end := pe;
      pending_heredocs := []; nesting_depth := nd |}) (head (drop 1 ts)) (drop 1 ts) Hlx eq_refl) as (l' & tok & Hrun & Hs & Hl' & _ & Hen).
    eexists _, _. unfold mbind, comp_bind. rewrite Hrun. unfold modify. cbn [fst snd mret comp_ret]. split; [done|]. split; [done|].
    split; [done|]. rewrite tail_drop in Hl'. constructor; cbn [current peeked lexer pending_heredocs set_current set_lexer set_prev_end length].
    + destruct ts as [|x [|y ts]]; (apply Forall2_cons; split; [done|by apply Forall2_nil]).
    + by destruct ts.
    + destruct ts; cbn in *; lia.
    + done.
    + done.
  - eexists _, _. unfold mbind, comp_bind, modify. cbn [fst snd mret comp_ret]. split; [done|]. split; [done|]. split; [done|].
    constructor; cbn [current peeked lexer pending_heredocs set_current set_peeked set_lexer set_prev_end length] in *.
    + destruct ts as [|x ts]; apply Forall2_cons in Hsh as [_ Hsh]; done.
    + by destruct ts.
    + destruct ts; cbn in *; lia.
    + done.
    + by eapply spread_tail.
Qed.

Lemma fill_runs k s ts : stream s ts ->
  runs (fun _ s' => stream s' ts /\ length (peeked s') = (length (peeked s) + k)%nat /\ current s' = current s) (fill_peeked source k) s.
Proof.
  revert s. induction k as [|k IH]; intros s Hst; cbn [fill_peeked]; [apply runs_ret; by rewrite Nat.add_0_r|].
  destruct Hst as [Hsh Hlx Hlen Hpd Hsp].
  destruct (next_token_px_run s _ _ Hlx eq_refl) as (l' & tok & Hrun & Hs & Hl' & Hst & Hen). rewrite tail_drop in Hl'.
  set (s1 := set_peeked (peeked s ++ [tok]) (set_lexer l' s)).
  assert (Hst1 : stream s1 ts).
  { constructor; cbn [s1 set_peeked set_lexer current peeked lexer pending_heredocs];
      [| |done|done|rewrite app_comm_cons; by eapply spread_snoc];
      rewrite length_app, Nat.add_comm; cbn [length Nat.add]; [|done].
    rewrite pad_snoc. rewrite app_comm_cons. apply Forall2_app; [done|]. apply Forall2_cons. split; [done|by apply Forall2_nil]. }
  destruct (IH s1 Hst1) as ([] & s2 & H2 & Hn2 & Hs2 & Hl2 & Hc2). exists tt, s2. unfold mbind, comp_bind. rewrite Hrun. unfold modify.
  cbn [fst snd]. split; [exact H2|]. split; [done|]. split; [done|]. split; [|done]. rewrite Hl2. cbn. rewrite length_app. cbn. lia.
Qed.

Lemma pad_lookup n i ts : (i < n)%nat -> pad n ts !! i = Some (ts !! i).
Proof.
  revert i ts. induction n as [|n IH]; intros i ts Hi; [lia|]. destruct ts as [|t ts], i as [|i]; cbn; try done; rewrite IH by lia; done.
Qed.

Lemma peek_runs n s ts : stream s ts -> runs (fun tok s' => shows tok (ts !! S n) /\ stream s' ts /\ current s' = current s /\
    (n = O -> kind tok = Eof \/ span_end (token_span (current s)) < span_start (token_span tok))) (peek_nth source n) s.
Proof.
  intros Hst. unfold peek_nth. unfold runs, mbind at 1, comp_bind at 1, get. cbn [fst snd].
  change (runs (fun tok s' => shows tok (ts !! S n) /\ stream s' ts /\ current s' = current s /\
      (n = O -> kind tok = Eof \/ span_end (token_span (current s)) < span_start (token_span tok)))
    (_ ← fill_peeked source (S n - length (peeked s)); s' ← get; match peeked s' !! n with Some t => mret t | None => panic "index out of bounds" end) s).
  eapply runs_bind; [by apply fill_runs|]. intros [] s1 Hn (Hs1 & Hl1 & Hc1). unfold runs, mbind, comp_bind, get. cbn [fst snd].
  assert (Hlt : (n < length (peeked s1))%nat) by lia. destruct (lookup_lt_is_Some_2 _ _ Hlt) as [tok Htok]. rewrite Htok.
  exists tok, s1. split; [done|]. split; [done|]. pose proof (stream_shown _ _ Hs1) as Hsh. split; [|split; [done|split; [done|]]].
  - eapply (Forall2_lookup_lr _ _ _ (S n) tok) in Hsh; [exact Hsh|done|]. apply pad_lookup. lia.
  - intros ->. destruct (peeked s1) as [|tok' pk] eqn:Hpk; [done|]. injection Htok as ->.
    pose proof (stream_spread _ _ Hs1) as Hsp. rewrite Hpk in Hsp. destruct Hsp as [Hsp _]. by rewrite <-Hc1.
Qed.

Lemma attempt_runs {A} (Q : A -> Parser -> Prop) m s : runs Q m s ->
  runs (fun o s' => exists a, o = Some a /\ Q a s') (attempt m) s.
Proof. intros (a & s' & Hm & Hn & HQ). exists (Some a), s'. unfold attempt. rewrite Hm. eauto. Qed.

(** Reading the head of the stream. *)
Definition cur_kind (ts : list str) : TokenKind := match ts with [] => Eof | t :: _ => tok_kind t end.

Lemma stream_kind s ts : stream s ts -> kind (current s) = cur_kind ts.
Proof. intros [Hsh _ _ _ _]. destruct ts; apply Forall2_cons in Hsh as [H _]; [done|]. by destruct H. Qed.

Lemma stream_text s t ts : stream s (t :: ts) -> current_text source s = (s, Ok t).
Proof.
  intros [Hsh _ _ _ _]. apply Forall2_cons in Hsh as [[_ Ht] _]. unfold current_text, mbind, comp_bind, get, tok_text, lift_res. by rewrite Ht.
Qed.

(** ** Rules *)

Lemma runs_get {B} (Q : B -> Parser -> Prop) f s : runs Q (f s) s -> runs Q (get ≫= f) s.
Proof. done. Qed.

Lemma runs_at_kind {B} (Q : B -> Parser -> Prop) k f s ts : stream s ts ->
  runs Q (f (bool_decide (cur_kind ts = k))) s -> runs Q (at_kind k ≫= f) s.
Proof. intros Hs H. rewrite <-(stream_kind s ts Hs) in H. exact H. Qed.

Lemma runs_at_word {B} (Q : B -> Parser -> Prop) f s ts : stream s ts -> runs Q (f (is_word_kind (cur_kind ts))) s -> runs Q (at_word ≫= f) s.
Proof. intros Hs H. rewrite <-(stream_kind s ts Hs) in H. exact H. Qed.

Lemma runs_at_redirection {B} (Q : B -> Parser -> Prop) f s ts : stream s ts ->
  runs Q (f (is_redirection_kind (cur_kind ts))) s -> runs Q (at_redirection ≫= f) s.
Proof. intros Hs H. rewrite <-(stream_kind s ts Hs) in H. exact H. Qed.

Lemma runs_current_text {B} (Q : B -> Parser -> Prop) f s t ts : stream s (t :: ts) -> runs Q (f t) s -> runs Q (current_text source ≫= f) s.
Proof.
  intros Hs (a & s' & H). exists a, s'. unfold mbind, comp_bind. by rewrite (stream_text s t ts Hs).
Qed.

Lemma runs_current_start {B} (Q : B -> Parser -> Prop) f s : runs Q (f (span_start (token_span (current s)))) s -> runs Q (current_start ≫= f) s.
Proof. done. Qed.

Lemma runs_span_from {B} (Q : B -> Parser -> Prop) start f s :
  runs Q (f {| span_start := start; span_end := prev_end s |}) s -> runs Q (span_from_px start ≫= f) s.
Proof. done. Qed.

(** Whether the head of the stream is the word [w]. *)
Definition head_is (w : str) (ts : list str) : bool :=
  match ts with [] => false | t :: _ => is_word_kind (tok_kind t) && bool_decide (t = w) end.

Lemma runs_at_word_eq {B} (Q : B -> Parser -> Prop) w f s ts : stream s ts -> runs Q (f (head_is w ts)) s -> runs Q (at_word_eq source w ≫= f) s.
Proof.
  intros Hs (a & s' & H). exists a, s'. unfold at_word_eq, mbind at 1, comp_bind at 1, at_word.
  unfold mbind at 1, comp_bind at 1, get. unfold mbind at 1, comp_bind at 1. cbn [fst snd mret comp_ret].
  rewrite (stream_kind s ts Hs). destruct ts as [|t ts]; cbn [cur_kind is_word_kind head_is] in *; [done|].
  destruct (is_word_kind (tok_kind t)); [|done]. unfold mbind at 1, comp_bind at 1. by rewrite (stream_text s t ts Hs).
Qed.

(** Whether a command starts at the head of the stream. *)
Definition starts_command (ts : list str) : bool :=
  match cur_kind ts with
  | LParen | DblLBracket => true
  | TWord _ => negb (bool_decide (default [] (head ts) ∈ TERMINATOR_WORDS))
  | k => is_redirection_kind k
  end.

Lemma runs_at_command_start {B} (Q : B -> Parser -> Prop) f s ts : stream s ts ->
  runs Q (f (starts_command ts)) s -> runs Q (at_command_start source ≫= f) s.
Proof.
  intros Hs (a & s' & H). exists a, s'. unfold at_command_start, starts_command in *. unfold mbind at 1, comp_bind at 1, get.
  unfold mbind at 1, comp_bind at 1. cbn [fst snd]. unfold at_redirection. rewrite (stream_kind s ts Hs).
  destruct (cur_kind ts) eqn:Hk; try exact H; try (unfold mbind, comp_bind, get; cbn [fst snd mret comp_ret];
    rewrite (stream_kind s ts Hs), Hk; exact H).
  destruct ts as [|t ts]; [done|]. unfold mbind at 1, comp_bind at 1. rewrite (stream_text s t ts Hs). exact H.
Qed.

(** No token of a stream is a redirection. *)
Lemma tok_kind_no_redirection t : is_redirection_kind (tok_kind t) = false.
Proof.
  unfold tok_kind. destruct (op_kind t) as [k|] eqn:Hk; cbn [default from_option].
  - apply op_kind_cases in Hk. rewrite list_elem_of_In in Hk. repeat destruct Hk as [[= <- <-]|Hk]; done.
  - unfold word_kind, plain_word_token_kind. cbn [negb]. by repeat case_decide.
Qed.

Lemma cur_no_redirection ts : is_redirection_kind (cur_kind ts) = false.
Proof. destruct ts; [done|apply tok_kind_no_redirection]. Qed.

Lemma shows_kind tok o : shows tok o -> kind tok = match o with Some t => tok_kind t | None => Eof end.
Proof. destruct o; [by intros [? _]|done]. Qed.

Lemma shows_no_fd tok o : shows tok o -> is_fd_redirection_kind (kind tok) = false.
Proof.
  intros H%shows_kind. rewrite H. destruct o as [t|]; [|done]. pose proof (tok_kind_no_redirection t). by destruct (tok_kind t).
Qed.

Lemma no_fd_prefix s ts : stream s ts -> runs (fun b s' => b = false /\ stream s' ts) (at_fd_prefix_redirection source) s.
Proof.
  intros Hs. unfold at_fd_prefix_redirection. eapply runs_at_word; [done|]. destruct (is_word_kind (cur_kind ts)) eqn:Hw; cbn [negb]; [|by apply runs_ret].
  destruct ts as [|t ts]; [done|]. eapply runs_current_text; [done|]. destruct (is_single_digit t); cbn [negb]; [|by apply runs_ret].
  eapply runs_bind; [by apply attempt_runs, peek_runs|]. intros o s1 Hn (tok & -> & Hsh & Hs1 & _). apply runs_ret. split; [|done].
  by eapply shows_no_fd.
Qed.

Lemma peek_is_runs n k s ts : stream s ts ->
  runs (fun b s' => b = bool_decide (match ts !! S n with Some t => tok_kind t | None => Eof end = k) /\ stream s' ts) (peek_is source n k) s.
Proof.
  intros Hs. unfold peek_is. eapply runs_bind; [by apply attempt_runs, peek_runs|]. intros o s1 Hn (tok & -> & Hsh & Hs1 & _).
  apply runs_ret. split; [|done]. by rewrite (shows_kind _ _ Hsh).
Qed.

(** Loops: enough rounds and one round. *)
Lemma iterate_exit {A B} (Q : B -> Parser -> Prop) n step (a : A) s : (0 < n)%nat ->
  runs (fun r s' => exists b, r = inr b /\ Q b s') (step a) s -> runs Q (iterate n step a : px B) s.
Proof.
  intros Hn Hr. destruct n as [|n]; [by apply Nat.nlt_0_r in Hn|]. cbn [iterate]. eapply runs_bind; [exact Hr|]. intros r s' _ (b & -> & HQ). by apply runs_ret.
Qed.

Lemma iterate_next {A B} (Q : B -> Parser -> Prop) n step (a : A) s : (0 < n)%nat ->
  runs (fun r s' => exists a', r = inl a' /\ runs Q (iterate (n - 1) step a') s') (step a) s -> runs Q (iterate n step a : px B) s.
Proof.
  intros Hn Hr. destruct n as [|n]; [by apply Nat.nlt_0_r in Hn|]. cbn [iterate]. eapply runs_bind; [exact Hr|]. intros r s' _ (a' & -> & HQ).
  by rewrite Nat.sub_1_r in HQ.
Qed.
End streams.
