(* ===== verification/ParserRoundTrip.v ===== *)
(** * Parser: round trip of the core grammar

    Programs of the core grammar (simple commands, pipelines, and/or lists,
    sequences, subshells, groups, [if], [while], [until] and [for]), printed with
    one space between the tokens, are parsed back to themselves. *)

From S2P Require Import Prelude Strings Ast Lexer LexerProps LexerSpec WordParser WordParserProps WordRoundTrip Parser ParserProps ParserStream.

(** ** The core grammar *)

Inductive cmd :=
  | CSimple (w : str) (ws : list str)
  | CSub (body : clist)
  | CGroup (body : clist)
  | CIf (c t : clist)
  | CIfElse (c t e : clist)
  | CWhile (until : bool) (c b : clist)
  | CFor (v : str) (ws : list str) (b : clist)
with pline := PLine (negated : bool) (c : cmd) (cs : cmds)
with cmds := NoCmd | MoreCmd (stderr : bool) (c : cmd) (cs : cmds)
with aol := AO (p : pline) (r : aos)
with aos := NoAO | MoreAO (op : AndOrOp) (p : pline) (r : aos)
with clist := LOne (a : aol) | LMore (a : aol) (l : clist).

Scheme cmd_mut := Induction for cmd Sort Prop
with pline_mut := Induction for pline Sort Prop
with cmds_mut := Induction for cmds Sort Prop
with aol_mut := Induction for aol Sort Prop
with aos_mut := Induction for aos Sort Prop
with clist_mut := Induction for clist Sort Prop.

Combined Scheme grammar_ind from cmd_mut, pline_mut, cmds_mut, aol_mut, aos_mut, clist_mut.

(** ** Printing to tokens *)

Fixpoint toks_cmd (c : cmd) : list str :=
  match c with
  | CSimple w ws => w :: ws
  | CSub l => #"(" :: toks_list l ++ [ #")" ]
  | CGroup l => #"{" :: toks_list l ++ [ #"}" ]
  | CIf c t => #"if" :: toks_list c ++ #"then" :: toks_list t ++ [ #"fi" ]
  | CIfElse c t e => #"if" :: toks_list c ++ #"then" :: toks_list t ++ #"else" :: toks_list e ++ [ #"fi" ]
  | CWhile u c b => (if u then #"until" else #"while") :: toks_list c ++ #"do" :: toks_list b ++ [ #"done" ]
  | CFor v ws b => #"for" :: v :: #"in" :: ws ++ #";" :: #"do" :: toks_list b ++ [ #"done" ]
  end
with toks_pline (p : pline) : list str :=
  match p with PLine neg c cs => (if neg then [ #"!" ] else []) ++ toks_cmd c ++ toks_cmds cs end
with toks_cmds (cs : cmds) : list str :=
  match cs with NoCmd => [] | MoreCmd err c cs => (if err then #"|&" else #"|") :: toks_cmd c ++ toks_cmds cs end
with toks_aol (a : aol) : list str :=
  match a with AO p r => toks_pline p ++ toks_aos r end
with toks_aos (r : aos) : list str :=
  match r with NoAO => [] | MoreAO op p r => (match op with And => #"&&" | Or => #"||" end) :: toks_pline p ++ toks_aos r end
with toks_list (l : clist) : list str :=
  match l with LOne a => toks_aol a ++ [ #";" ] | LMore a l => toks_aol a ++ #";" :: toks_list l end.

Definition print_list (l : clist) : str := join #" " (toks_list l).

(** ** Well-formedness *)

(** A word token in an argument position. *)
Definition arg_ok (w : str) : bool := good_word w && is_word_kind (tok_kind w).

Definition KEYWORDS : list str :=
  [ #"{"; #"if"; #"while"; #"until"; #"for"; #"case"; #"select"; #"function"; #"time"; #"!" ].

(** A word that starts a simple command. *)
Definition command_word_ok (w : str) : bool :=
  arg_ok w && negb (bool_decide (w ∈ KEYWORDS)) && negb (bool_decide (w ∈ TERMINATOR_WORDS)) && negb (is_assignment_text w).

Definition loop_word_ok (w : str) : bool := arg_ok w && negb (bool_decide (w ∈ TERMINATOR_WORDS)).

Fixpoint wf_cmd (c : cmd) : bool :=
  match c with
  | CSimple w ws => command_word_ok w && forallb arg_ok ws
  | CSub l | CGroup l => wf_list l
  | CIf c t => wf_list c && wf_list t
  | CIfElse c t e => wf_list c && wf_list t && wf_list e
  | CWhile _ c b => wf_list c && wf_list b
  | CFor v ws b => arg_ok v && forallb loop_word_ok ws && wf_list b
  end
with wf_pline (p : pline) : bool := match p with PLine _ c cs => wf_cmd c && wf_cmds cs end
with wf_cmds (cs : cmds) : bool := match cs with NoCmd => true | MoreCmd _ c cs => wf_cmd c && wf_cmds cs end
with wf_aol (a : aol) : bool := match a with AO p r => wf_pline p && wf_aos r end
with wf_aos (r : aos) : bool := match r with NoAO => true | MoreAO _ p r => wf_pline p && wf_aos r end
with wf_list (l : clist) : bool := match l with LOne a => wf_aol a | LMore a l => wf_aol a && wf_list l end.

(** The nesting of compound commands, with the simple command inside. *)
Fixpoint height (c : cmd) : nat :=
  match c with
  | CSimple _ _ => 1
  | CSub l | CGroup l => S (height_list l)
  | CIf c t => S (Nat.max (height_list c) (height_list t))
  | CIfElse c t e => S (Nat.max (Nat.max (height_list c) (height_list t)) (height_list e))
  | CWhile _ c b => S (Nat.max (height_list c) (height_list b))
  | CFor _ _ b => S (height_list b)
  end%nat
with height_pline (p : pline) : nat := match p with PLine _ c cs => Nat.max (height c) (height_cmds cs) end
with height_cmds (cs : cmds) : nat := match cs with NoCmd => 0%nat | MoreCmd _ c cs => Nat.max (height c) (height_cmds cs) end
with height_aol (a : aol) : nat := match a with AO p r => Nat.max (height_pline p) (height_aos r) end
with height_aos (r : aos) : nat := match r with NoAO => 0%nat | MoreAO _ p r => Nat.max (height_pline p) (height_aos r) end
with height_list (l : clist) : nat := match l with LOne a => height_aol a | LMore a l => Nat.max (height_aol a) (height_list l) end.

(** ** Meaning: the syntax tree, whatever its spans *)

Definition words_are (ws : list str) (Ws : list Word) : Prop := map parts Ws = map (fun t => [Literal t]) ws.

Fixpoint den_cmd (c : cmd) (C : Command) : Prop :=
  match c, C with
  | CSimple w ws, Simple sc => sc_assignments sc = [] /\ words_are (w :: ws) (sc_words sc) /\ sc_redirections sc = []
  | CSub l, Subshell b rs _ => (exists items sp, b = [mkCompleteCommand items sp] /\ den_list l items) /\ rs = []
  | CGroup l, Group b rs _ => (exists items sp, b = [mkCompleteCommand items sp] /\ den_list l items) /\ rs = []
  | CIf c t, If C T els el rs _ =>
      (exists items sp, C = [mkCompleteCommand items sp] /\ den_list c items) /\
      (exists items sp, T = [mkCompleteCommand items sp] /\ den_list t items) /\ els = [] /\ el = None /\ rs = []
  | CIfElse c t e, If C T els (Some El) rs _ =>
      (exists items sp, C = [mkCompleteCommand items sp] /\ den_list c items) /\
      (exists items sp, T = [mkCompleteCommand items sp] /\ den_list t items) /\
      (exists items sp, El = [mkCompleteCommand items sp] /\ den_list e items) /\ els = [] /\ rs = []
  | CWhile false c b, While C B rs _ =>
      (exists items sp, C = [mkCompleteCommand items sp] /\ den_list c items) /\
      (exists items sp, B = [mkCompleteCommand items sp] /\ den_list b items) /\ rs = []
  | CWhile true c b, Until C B rs _ =>
      (exists items sp, C = [mkCompleteCommand items sp] /\ den_list c items) /\
      (exists items sp, B = [mkCompleteCommand items sp] /\ den_list b items) /\ rs = []
  | CFor v ws b, For var (Some Ws) B rs _ =>
      var = v /\ words_are ws Ws /\ (exists items sp, B = [mkCompleteCommand items sp] /\ den_list b items) /\ rs = []
  | _, _ => False
  end
with den_pline (p : pline) (P : Pipeline) : Prop :=
  match p, P with
  | PLine neg c cs, mkPipeline timed posix negated Cs errs =>
      timed = false /\ posix = false /\ negated = neg /\
      exists C Cs', Cs = C :: Cs' /\ den_cmd c C /\ den_cmds cs Cs' errs
  end
with den_cmds (cs : cmds) (Cs : list Command) (errs : list bool) : Prop :=
  match cs with
  | NoCmd => Cs = [] /\ errs = []
  | MoreCmd err c cs => exists C Cs' errs', Cs = C :: Cs' /\ errs = err :: errs' /\ den_cmd c C /\ den_cmds cs Cs' errs'
  end
with den_aol (a : aol) (A : AndOrList) : Prop :=
  match a, A with AO p r, mkAndOrList P R => den_pline p P /\ den_aos r R end
with den_aos (r : aos) (R : list (AndOrOp * Pipeline)) : Prop :=
  match r with
  | NoAO => R = []
  | MoreAO op p r => exists P R', R = (op, P) :: R' /\ den_pline p P /\ den_aos r R'
  end
with den_list (l : clist) (items : list AndOrList) : Prop :=
  match l with
  | LOne a => exists A, items = [A] /\ den_aol a A
  | LMore a l => exists A items', items = A :: items' /\ den_aol a A /\ den_list l items'
  end.

Definition den_body (l : clist) (b : list CompleteCommand) : Prop :=
  exists items sp, b = [mkCompleteCommand items sp] /\ den_list l items.

(** ** Plain words *)

Lemma plain_part_literal {E} (t : str) b p lit parts : plain_byte b = true -> byte_val b < 128 ->
  parse_word_part t b p lit parts = (Ok (S p, lit ++ [b], parts) : res E _).
Proof.
  intros Hp Hb. unfold parse_word_part.
  repeat (rewrite decide_False; [|first [intros ->; discriminate Hp | intros [[-> | ->] _]; discriminate Hp]]).
  by rewrite push_ascii.
Qed.

Lemma plain_loop_literal {E} (t r : str) n p lit : drop p t = r -> forallb plain_byte r = true -> is_ascii r = true ->
  (length r <= n)%nat -> word_parts_loop t n p lit [] = (Ok (flush (lit ++ r) []) : res E _).
Proof.
  revert n p lit. induction r as [|b r IH]; intros n p lit Hd Hw Ha Hn.
  - assert (Hp : t !! p = None).
    { apply lookup_ge_None. apply (f_equal length) in Hd. rewrite length_drop in Hd. cbn in Hd. lia. }
    rewrite app_nil_r. destruct n; cbn [word_parts_loop]; by rewrite Hp.
  - cbn [forallb] in Hw. apply andb_true_iff in Hw as [Hb Hw]. unfold is_ascii in Ha. cbn [forallb] in Ha.
    apply andb_true_iff in Ha as [Hab Ha]. apply Z.ltb_lt in Hab. apply drop_lookup in Hd as [Hp Hd].
    destruct n as [|n]; [cbn in Hn; lia|]. cbn [word_parts_loop length] in *. rewrite Hp, plain_part_literal by done.
    cbn [mbind res_bind]. rewrite (IH n (S p)) by (done || lia). by rewrite <-app_assoc.
Qed.

Lemma good_word_parts {E} t : good_word t = true -> parse_word_parts t = (Ok [Literal t] : res E _).
Proof.
  unfold good_word, plain_word. intros [[Hw Hne]%andb_true_iff Ha]%andb_true_iff. unfold parse_word_parts.
  rewrite (plain_loop_literal t t) by done. by destruct t.
Qed.

Section roundtrip.
Context (source : str) (Hutf8 : utf8_shape source) (Hfits : Z.of_nat (length source) < 2 ^ 32).

Abbreviation px := (comp Parser ParseError).
Abbreviation stream := (stream source).

(** Advancing over a known token. *)
Lemma skip_token s t ts : stream s (t :: ts) -> runs (streams source ts) (advance source) s.
Proof. intros Hs. eapply runs_weaken; [by apply advance_runs|]. intros tok s' [_ H]. exact H. Qed.

Lemma arg_word_runs s t ts : stream s (t :: ts) -> good_word t = true ->
  runs (fun w s' => parts w = [Literal t] /\ stream s' ts) (parse_word source) s.
Proof.
  intros Hs Hg. unfold parse_word. eapply runs_bind; [by apply advance_runs|]. intros tok s1 Hn [[_ Ht] Hs1]. cbn [tail] in Hs1.
  unfold tok_text, runs, mbind, comp_bind, lift_res. rewrite Ht, good_word_parts by done. by eexists _, s1.
Qed.

Lemma expect_runs w s ts : stream s (w :: ts) -> is_word_kind (tok_kind w) = true -> runs (streams source ts) (expect_word source w) s.
Proof.
  intros Hs Hw. unfold expect_word. eapply runs_at_word_eq; [done|]. cbn [head_is]. rewrite Hw, bool_decide_true by done.
  by apply (skip_token s w ts).
Qed.

Lemma rounds ts s : stream s ts -> (length ts < S (length source))%nat.
Proof. intros Hs. apply Nat.lt_succ_r. exact (stream_length _ _ _ Hs). Qed.

Lemma no_newlines s ts : stream s ts -> runs (streams source ts) (skip_newlines source) s.
Proof.
  intros Hs. unfold skip_newlines, loop. apply iterate_exit; [lia|]. eapply runs_at_kind; [done|]. rewrite bool_decide_false.
  - apply runs_ret. exists tt. done.
  - destruct ts as [|t ts]; cbn [cur_kind]; [done|]. unfold tok_kind. destruct (op_kind t) as [k|] eqn:Hk; cbn [default from_option].
    + apply op_kind_cases in Hk. rewrite list_elem_of_In in Hk. repeat destruct Hk as [[= <- <-]|Hk]; done.
    + unfold word_kind, plain_word_token_kind. cbn [negb]. by repeat case_decide.
Qed.

Lemma no_redirections s ts : stream s ts -> runs (fun rs s' => rs = [] /\ stream s' ts) (parse_trailing_redirections source) s.
Proof.
  intros Hs. unfold parse_trailing_redirections, loop. apply iterate_exit; [lia|]. eapply runs_at_redirection; [done|].
  rewrite cur_no_redirection. eapply runs_bind; [by apply no_fd_prefix|]. intros b s1 Hn [-> Hs1]. cbn [negb].
  apply runs_ret. by exists [].
Qed.

(** ** Simple commands *)

(** What may follow a word of a command. *)
Definition no_paren (ts : list str) : Prop := cur_kind ts <> LParen.

Lemma cur_not_compare ts : is_greater_or_less (cur_kind ts) = false.
Proof. pose proof (cur_no_redirection ts). by destruct (cur_kind ts). Qed.

Lemma simple_part_word asg ws rs past s t ts : stream s (t :: ts) -> arg_ok t = true -> no_paren ts ->
  (past = true \/ is_assignment_text t = false) ->
  runs (fun r s' => exists w, parts w = [Literal t] /\ r = Some (asg, ws ++ [w], rs, true) /\ stream s' ts)
    (parse_simple_command_part source (asg, ws, rs, past)) s.
Proof.
  intros Hs [Hg Hw]%andb_true_iff Hp Ha. unfold parse_simple_command_part.
  eapply runs_bind; [by apply no_fd_prefix|]. intros b s1 Hn1 [-> Hs1]. apply runs_get.
  rewrite (stream_kind _ s1 _ Hs1), cur_not_compare. eapply (runs_bind (fun b s' => b = false /\ stream s' (t :: ts))); [by apply runs_ret|].
  intros b s2 Hn2 [-> Hs2]. eapply runs_at_redirection; [done|]. rewrite cur_no_redirection. eapply runs_at_word; [done|]. cbn [cur_kind]. rewrite Hw.
  eapply (runs_bind (fun r s' => exists w, parts w = [Literal t] /\ r = (asg, ws ++ [w], rs, true) /\ stream s' ts)).
  - unfold parse_simple_word_part. eapply runs_current_text; [done|].
    assert (Hna : negb past && is_assignment_text t = false) by (destruct Ha as [-> | ->]; [done|by rewrite andb_false_r]). rewrite Hna.
    eapply (runs_bind (fun b s' => b = false /\ stream s' (t :: ts))).
    + destruct (ends_with _ t); [|by apply runs_ret]. unfold peek_is_lparen. eapply runs_weaken; [by apply peek_is_runs|].
      intros b s' [-> Hs']. split; [|done]. apply bool_decide_false. unfold no_paren, cur_kind in Hp. cbn [lookup list_lookup]. by destruct ts.
    + intros b s3 Hn3 [-> Hs3]. eapply runs_bind; [by apply (arg_word_runs s3 t ts)|]. intros w s4 Hn4 [Hpt Hs4]. apply runs_ret. by exists w.
  - intros r s3 Hn3 (w & Hpt & -> & Hs3). apply runs_ret. by exists w.
Qed.

Lemma simple_part_end acc s ts : stream s ts -> is_word_kind (cur_kind ts) = false ->
  runs (fun r s' => r = None /\ stream s' ts) (parse_simple_command_part source acc) s.
Proof.
  intros Hs Hw. destruct acc as [[[asg ws] rs] past]. unfold parse_simple_command_part.
  eapply runs_bind; [by apply no_fd_prefix|]. intros b s1 Hn1 [-> Hs1]. apply runs_get.
  rewrite (stream_kind _ s1 _ Hs1), cur_not_compare. eapply (runs_bind (fun b s' => b = false /\ stream s' ts)); [by apply runs_ret|].
  intros b s2 Hn2 [-> Hs2]. eapply runs_at_redirection; [done|]. rewrite cur_no_redirection. eapply runs_at_word; [done|]. rewrite Hw.
  by apply runs_ret.
Qed.

Lemma word_kind_no_paren t ts : arg_ok t = true -> no_paren (t :: ts).
Proof. intros [_ Hw]%andb_true_iff He. cbn [cur_kind] in He. by rewrite He in Hw. Qed.

Lemma args_loop n ws Ws s rest : stream s (ws ++ rest) -> forallb arg_ok ws = true -> no_paren rest -> is_word_kind (cur_kind rest) = false ->
  (length ws < n)%nat ->
  runs (fun acc s' => exists Ws', acc = ([], Ws ++ Ws', [], true) /\ words_are ws Ws' /\ stream s' rest)
    (iterate n (fun acc => r ← parse_simple_command_part source acc; mret (match r with Some acc' => inl acc' | None => inr acc end)) ([], Ws, [], true)) s.
Proof.
  revert n Ws s. induction ws as [|t ws IH]; intros n Ws s Hs Hg Hp Hw Hn; cbn [app forallb length] in *.
  - apply iterate_exit; [lia|]. eapply runs_bind; [by apply simple_part_end|]. intros r s1 Hn1 [-> Hs1]. apply runs_ret.
    exists ([], Ws, [], true). split; [done|]. exists []. by rewrite app_nil_r.
  - apply andb_true_iff in Hg as [Ht Hg]. apply iterate_next; [lia|].
    assert (Hnp : no_paren (ws ++ rest)).
    { destruct ws as [|t' ws]; [done|]. cbn [forallb] in Hg. apply andb_true_iff in Hg as [Ht' _]. by apply word_kind_no_paren. }
    eapply runs_bind; [by apply (simple_part_word [] Ws [] true s t (ws ++ rest)); [..|left]|]. intros r s1 Hn1 (w & Hw1 & -> & Hs1).
    apply runs_ret. eexists. split; [done|].
    eapply runs_weaken; [apply (IH (n - 1)%nat (Ws ++ [w]) s1); [done..|lia]|]. intros acc s2 (Ws' & -> & Hws & Hs2).
    exists (w :: Ws'). rewrite <-app_assoc. split; [done|]. split; [|done]. unfold words_are in *. cbn. by rewrite Hw1, Hws.
Qed.

Lemma simple_runs w ws rest s : stream s ((w :: ws) ++ rest) -> command_word_ok w = true -> forallb arg_ok ws = true -> no_paren rest ->
  is_word_kind (cur_kind rest) = false ->
  runs (fun sc s' => den_cmd (CSimple w ws) (Simple sc) /\ stream s' rest) (parse_simple_command source) s.
Proof.
  intros Hs Hw Hws Hp Hk. unfold parse_simple_command. apply runs_current_start.
  apply andb_true_iff in Hw as [[[Hw _]%andb_true_iff _]%andb_true_iff Ha%negb_true_iff].
  assert (Hnp : no_paren (ws ++ rest)).
  { destruct ws as [|t' ws]; [done|]. cbn [forallb] in Hws. apply andb_true_iff in Hws as [Ht' _]. by apply word_kind_no_paren. }
  pose proof (rounds _ _ Hs) as Hr. rewrite length_app in Hr. cbn [length] in Hr.
  eapply (runs_bind (fun acc s' => exists Ws', acc = ([], Ws', [], true) /\ words_are (w :: ws) Ws' /\ stream s' rest)).
  - unfold loop. apply iterate_next; [lia|].
    eapply runs_bind; [by apply (simple_part_word [] [] [] false s w (ws ++ rest)); [..|right]|]. intros r s1 Hn1 (x & Hx & -> & Hs1).
    apply runs_ret. eexists. split; [done|].
    eapply runs_weaken; [apply (args_loop (S (length source) - 1) ws [x] s1 rest); [done..|lia]|]. intros acc s2 (Ws' & -> & Hden & Hs2).
    exists (x :: Ws'). split; [done|]. split; [|done]. unfold words_are in *. cbn. by rewrite Hx, Hden.
  - intros acc s1 Hn1 (Ws & -> & Hden & Hs1). destruct Ws as [|x Ws]; [done|]. apply runs_span_from, runs_ret. done.
Qed.

(** ** Sequences *)

Lemma stream_nesting d s ts : stream s ts -> stream (set_nesting d s) ts.
Proof. intros [? ? ? ? ?]. by constructor. Qed.

(** The context of a list: no command starts there and no separator stands there. *)
Definition ends_list (rest : list str) : Prop := starts_command rest = false /\ cur_kind rest <> Semi.

Lemma tok_kind_not_amp t : tok_kind t <> Amp.
Proof.
  unfold tok_kind. destruct (op_kind t) as [k|] eqn:Hk; cbn [default from_option].
  - apply op_kind_cases in Hk. rewrite list_elem_of_In in Hk. repeat destruct Hk as [[= <- <-]|Hk]; done.
  - unfold word_kind, plain_word_token_kind. cbn [negb]. by repeat case_decide.
Qed.

Lemma kind_at o : (match o with Some t => tok_kind t | None => Eof end) = cur_kind (match o with Some t => [t] | None => [] end).
Proof. by destruct o. Qed.

Lemma semi_not_double s rest : stream s ( #";" :: rest) -> cur_kind rest <> Semi ->
  runs (fun b s' => b = false /\ stream s' ( #";" :: rest)) (is_double_semi source) s.
Proof.
  intros Hs Hk. unfold is_double_semi. eapply runs_at_kind; [done|]. cbn [cur_kind].
  eapply runs_weaken; [by apply peek_is_runs|]. intros b s' [-> Hs']. split; [|done]. apply bool_decide_false.
  cbn [lookup list_lookup]. by destruct rest.
Qed.

Lemma semi_not_fallthrough s rest : stream s ( #";" :: rest) ->
  runs (fun b s' => b = false /\ stream s' ( #";" :: rest)) (is_case_fallthrough source) s.
Proof.
  intros Hs. unfold is_case_fallthrough. eapply runs_at_kind; [done|]. cbn [cur_kind].
  eapply runs_weaken; [by apply peek_is_runs|]. intros b s' [-> Hs']. split; [|done]. apply bool_decide_false.
  cbn [lookup list_lookup]. destruct rest; [done|]. apply tok_kind_not_amp.
Qed.

Lemma semi_not_continue s rest : stream s ( #";" :: rest) -> cur_kind rest <> Semi ->
  runs (fun b s' => b = false /\ stream s' ( #";" :: rest)) (is_case_continue_testing source) s.
Proof.
  intros Hs Hk. unfold is_case_continue_testing. eapply runs_at_kind; [done|]. cbn [cur_kind].
  change (bool_decide (tok_kind #";" = Semi)) with true. cbn [negb].
  eapply runs_bind; [by apply peek_is_runs|]. intros b s1 Hn [-> Hs1]. rewrite bool_decide_false; [by apply runs_ret|].
  cbn [lookup list_lookup]. by destruct rest.
Qed.

Lemma list_semi_runs s rest : stream s ( #";" :: rest) -> cur_kind rest <> Semi ->
  runs (fun b s' => b = true /\ stream s' ( #";" :: rest)) (at_list_semi source) s.
Proof.
  intros Hs Hk. unfold at_list_semi. eapply runs_at_kind; [done|]. change (bool_decide (cur_kind ( #";" :: rest) = Semi)) with true. cbn [negb].
  eapply runs_bind; [by apply semi_not_double|]. intros b s1 _ [-> Hs1].
  eapply runs_bind; [by apply semi_not_fallthrough|]. intros b s2 _ [-> Hs2].
  eapply runs_bind; [by apply semi_not_continue|]. intros b s3 _ [-> Hs3]. by apply runs_ret.
Qed.

Lemma list_semi_end s rest : stream s rest -> cur_kind rest <> Semi -> runs (fun b s' => b = false /\ stream s' rest) (at_list_semi source) s.
Proof.
  intros Hs Hk. unfold at_list_semi. eapply runs_at_kind; [done|]. rewrite bool_decide_false by done. by apply runs_ret.
Qed.

Fixpoint items_of (l : clist) : list aol := match l with LOne a => [a] | LMore a l => a :: items_of l end.

Definition item_toks (a : aol) : list str := toks_aol a ++ [ #";" ].

Lemma toks_items l : toks_list l = concat (map item_toks (items_of l)).
Proof. induction l as [a|a l IH]; cbn [toks_list items_of map concat]; [by rewrite app_nil_r|]. rewrite IH. unfold item_toks. by rewrite <-app_assoc. Qed.

Lemma den_items l As : den_list l As <-> Forall2 den_aol (items_of l) As.
Proof.
  revert As. induction l as [a|a l IH]; intros As; cbn [den_list items_of].
  - split; [intros (A & -> & HA); by apply Forall2_cons|]. intros H. apply Forall2_cons_inv_l in H as (A & As' & HA & HN & ->).
    apply Forall2_nil_inv_l in HN as ->. by exists A.
  - split; [intros (A & As' & -> & HA & HL); apply Forall2_cons; by rewrite <-IH|].
    intros H. apply Forall2_cons_inv_l in H as (A & As' & HA & HN & ->). exists A, As'. by rewrite IH.
Qed.

Lemma wf_items l : wf_list l = forallb wf_aol (items_of l).
Proof. induction l as [a|a l IH]; cbn [wf_list items_of forallb]; [by rewrite andb_true_r|by rewrite IH]. Qed.

Lemma height_items l a : a ∈ items_of l -> (height_aol a <= height_list l)%nat.
Proof.
  induction l as [b|b l IH]; cbn [items_of height_list]; intros Ha.
  - apply list_elem_of_singleton in Ha as ->. lia.
  - apply elem_of_cons in Ha as [-> |Ha]; [lia|]. specialize (IH Ha). lia.
Qed.

(** ** Starts of commands *)

Lemma simple_starts w x : command_word_ok w = true -> starts_command (w :: x) = true /\ cur_kind (w :: x) <> Semi.
Proof.
  intros [[[[_ Hw]%andb_true_iff _]%andb_true_iff Ht]%andb_true_iff _]%andb_true_iff. unfold starts_command. cbn [cur_kind head default].
  destruct (tok_kind w); try done.
Qed.

Lemma cmd_starts c x : wf_cmd c = true -> starts_command (toks_cmd c ++ x) = true /\ cur_kind (toks_cmd c ++ x) <> Semi.
Proof. destruct c as [w ws| | | | |[] |]; cbn [toks_cmd app wf_cmd]; try done. intros [Hw _]%andb_true_iff. by apply simple_starts. Qed.

Lemma aol_starts a x : wf_aol a = true -> starts_command (toks_aol a ++ x) = true /\ cur_kind (toks_aol a ++ x) <> Semi.
Proof.
  destruct a as [[[] c cs] r]; cbn [toks_aol toks_pline app wf_aol wf_pline]; [done|]. rewrite <-!app_assoc.
  intros [[Hc _]%andb_true_iff _]%andb_true_iff. by apply cmd_starts.
Qed.

(** ** Lists of commands *)

(** The depth entered, the recursion left and the nesting still to come fit. *)
Definition room (d : Z) (fuel h : nat) : Prop :=
  0 <= d /\ d + Z.of_nat h <= MAX_NESTING_DEPTH /\ MAX_NESTING_DEPTH < d + Z.of_nat fuel.

Lemma room_le d fuel h h' : room d fuel h -> (h' <= h)%nat -> room d fuel h'.
Proof. unfold room. lia. Qed.

Definition parses_aol (a : aol) : Prop := forall fuel s rest,
  stream s (toks_aol a ++ rest) -> cur_kind rest = Semi -> wf_aol a = true -> room (nesting_depth s) fuel (height_aol a) ->
  runs (fun A s' => den_aol a A /\ stream s' rest) (parse_and_or source (parse_command source fuel)) s.

(** A list item that is well-formed, fits and is parsed. *)
Definition item_ok (d : Z) (fuel : nat) (a : aol) : Prop := parses_aol a /\ wf_aol a = true /\ room d fuel (height_aol a).

Definition list_step (fuel : nat) (acc : list AndOrList) : px (list AndOrList + list AndOrList) :=
  b ← at_list_semi source;
  if negb b then mret (inr acc)
  else
    _ ← advance source;
    s ← get;
    _ ← (match pending_heredocs s with [] => skip_newlines source | _ => mret tt end);
    c ← at_command_start source;
    if (c : bool) then a ← parse_and_or source (parse_command source fuel); mret (inl (acc ++ [a])) else mret (inl acc).

(** Over a semicolon to the state behind it. *)
Lemma over_semi {B} (Q : B -> Parser -> Prop) s ts (k : unit -> px B) : stream s ( #";" :: ts) -> cur_kind ts <> Semi ->
  (forall s1, nesting_depth s1 = nesting_depth s -> stream s1 ts -> runs Q (k tt) s1) ->
  runs Q (_ ← advance source; s ← get; r ← (match pending_heredocs s with [] => skip_newlines source | _ => mret tt end); k r) s.
Proof.
  intros Hs Hk Hgo. eapply runs_bind; [by apply (skip_token s #";" ts)|]. intros tok s1 Hn1 Hs1. apply runs_get.
  rewrite (stream_pending _ _ _ Hs1). eapply runs_bind; [by apply no_newlines|]. intros [] s2 Hn2 Hs2. apply Hgo; [congruence|done].
Qed.

Lemma items_loop fuel items n acc s rest : stream s ( #";" :: concat (map item_toks items) ++ rest) -> ends_list rest ->
  Forall (item_ok (nesting_depth s) fuel) items -> (S (length items) < n)%nat ->
  runs (fun As s' => exists As', As = acc ++ As' /\ Forall2 den_aol items As' /\ stream s' rest) (iterate n (list_step fuel) acc) s.
Proof.
  revert n acc s. induction items as [|a items IH]; intros n acc s Hs [Hst Hsemi] Hit Hn; cbn [map concat length app] in *.
  - apply iterate_next; [lia|]. unfold list_step at 1.
    eapply runs_bind; [by apply list_semi_runs|]. intros b s1 Hn1 [-> Hs1]. cbn [negb].
    apply (over_semi _ _ rest); [done|done|]. intros s2 Hn2 Hs2. eapply runs_at_command_start; [done|]. rewrite Hst.
    apply runs_ret. eexists. split; [done|]. apply iterate_exit; [lia|]. unfold list_step.
    eapply runs_bind; [by apply list_semi_end|]. intros b s3 Hn3 [-> Hs3]. cbn [negb]. apply runs_ret. eexists. split; [done|].
    exists []. rewrite app_nil_r. split; [done|]. split; [by apply Forall2_nil|done].
  - apply Forall_cons in Hit as [(Hpa & Hwa & Hra) Hit]. unfold item_toks at 1 in Hs. rewrite <-!app_assoc in Hs. cbn [app] in Hs.
    set (next := #";" :: concat (map item_toks items) ++ rest) in *.
    destruct (aol_starts a next Hwa) as [Hstart Hns]. apply iterate_next; [lia|]. unfold list_step at 1.
    eapply runs_bind; [by apply list_semi_runs|]. intros b s1 Hn1 [-> Hs1]. cbn [negb].
    apply (over_semi _ _ (toks_aol a ++ next)); [done|done|]. intros s2 Hn2 Hs2. eapply runs_at_command_start; [done|]. rewrite Hstart.
    eapply runs_bind; [apply (Hpa fuel s2 next); [done|done|done|]; by rewrite Hn2, Hn1|]. intros A s3 Hn3 [HA Hs3].
    apply runs_ret. eexists. split; [done|]. eapply runs_weaken.
    + apply (IH (n - 1)%nat (acc ++ [A]) s3); [done|done| |lia]. by rewrite Hn3, Hn2, Hn1.
    + intros As s4 (As' & -> & HAs & Hs4). exists (A :: As'). rewrite <-app_assoc. split; [done|]. split; [by apply Forall2_cons|done].
Qed.

Lemma complete_command_runs fuel items s rest : items <> [] -> stream s (concat (map item_toks items) ++ rest) -> ends_list rest ->
  Forall (item_ok (nesting_depth s) fuel) items ->
  runs (fun cc s' => exists As sp, cc = mkCompleteCommand As sp /\ Forall2 den_aol items As /\ stream s' rest)
    (parse_complete_command source (parse_command source fuel)) s.
Proof.
  intros Hne Hs Hrest Hit. destruct items as [|a items]; [done|]. cbn [map concat] in Hs. unfold item_toks at 1 in Hs.
  rewrite <-!app_assoc in Hs. cbn [app] in Hs. apply Forall_cons in Hit as [(Hpa & Hwa & Hra) Hit].
  unfold parse_complete_command. apply runs_current_start.
  eapply runs_bind; [apply (Hpa fuel s); [exact Hs|done|done|done]|]. intros A s1 Hn1 [HA Hs1].
  eapply (runs_bind (fun As s' => exists As', As = [A] ++ As' /\ Forall2 den_aol items As' /\ stream s' rest)).
  - apply (items_loop fuel items (S (length source)) [A] s1 rest); [done|done|by rewrite Hn1|].
    pose proof (rounds _ _ Hs) as Hr. rewrite length_app in Hr. cbn [length] in Hr. rewrite length_app in Hr.
    assert (length items <= length (concat (map item_toks items)))%nat.
    { clear. induction items as [|b items IH]; cbn [map concat length]; [lia|]. rewrite length_app. unfold item_toks at 1. rewrite length_app. cbn. lia. }
    assert (0 < length (toks_aol a))%nat; [|lia].
    destruct (toks_aol a) eqn:Ht; [|cbn; lia]. destruct (aol_starts a [] Hwa) as [Hs0 _]. by rewrite Ht in Hs0.
  - intros As s2 Hn2 (As' & -> & HAs & Hs2). apply runs_span_from, runs_get. rewrite (stream_pending _ _ _ Hs2). apply runs_ret.
    eexists _, _. split; [done|]. split; [by apply Forall2_cons|done].
Qed.

Lemma compound_list_runs l fuel s rest : stream s (toks_list l ++ rest) -> ends_list rest -> Forall parses_aol (items_of l) ->
  wf_list l = true -> room (nesting_depth s) fuel (height_list l) ->
  runs (fun b s' => den_body l b /\ stream s' rest) (parse_compound_list source (parse_command source fuel)) s.
Proof.
  intros Hs Hrest Hpa Hwf Hroom. rewrite toks_items in Hs. rewrite wf_items in Hwf. unfold parse_compound_list, command_list.
  assert (Hne : items_of l <> []) by by destruct l.
  assert (Hit : Forall (item_ok (nesting_depth s) fuel) (items_of l)).
  { apply Forall_forall. intros a Ha. split; [by eapply Forall_forall in Hpa|].
    split; [rewrite forallb_forall in Hwf; by apply Hwf, list_elem_of_In|]. eapply room_le; [done|]. by apply height_items. }
  assert (Hstart : starts_command (concat (map item_toks (items_of l)) ++ rest) = true).
  { destruct (items_of l) as [|a items]; [done|]. apply Forall_cons in Hit as [(_ & Hwa & _) _]. cbn [map concat]. unfold item_toks.
    rewrite <-!app_assoc. by apply aol_starts. }
  assert (Hsrc : (1 < S (length source))%nat).
  { pose proof (rounds _ _ Hs) as Hr. destruct (concat _ ++ rest) eqn:He; [done|]. cbn in Hr. lia. }
  eapply runs_bind; [by apply no_newlines|]. intros [] s1 Hn1 Hs1. unfold loop. apply iterate_next; [lia|].
  eapply runs_at_command_start; [done|]. rewrite Hstart.
  eapply runs_bind; [apply (complete_command_runs fuel (items_of l) s1 rest); [done|done|done|by rewrite Hn1]|].
  intros cc s2 Hn2 (As & sp & -> & HAs & Hs2). eapply runs_bind; [by apply no_newlines|]. intros [] s3 Hn3 Hs3. apply runs_ret.
  eexists. split; [done|]. apply iterate_exit; [lia|]. eapply runs_at_command_start; [done|]. rewrite (proj1 Hrest). apply runs_ret.
  eexists. split; [done|]. split; [|done]. exists As, sp. by rewrite den_items.
Qed.

(** ** Commands *)

(** What follows a command: a separator. *)
Definition is_separator (k : TokenKind) : bool := match k with Semi | Pipe | PipeAmp | AndAnd | OrOr => true | _ => false end.

Definition parses_cmd (c : cmd) : Prop := forall fuel s rest,
  stream s (toks_cmd c ++ rest) -> is_separator (cur_kind rest) = true -> wf_cmd c = true -> room (nesting_depth s) fuel (height c) ->
  runs (fun C s' => den_cmd c C /\ stream s' rest) (parse_command source fuel) s.

(** The same inside the call, one level deeper. *)
Definition parses_inner (c : cmd) : Prop := forall fuel s rest,
  stream s (toks_cmd c ++ rest) -> is_separator (cur_kind rest) = true -> wf_cmd c = true ->
  room (nesting_depth s) fuel (pred (height c)) ->
  runs (fun C s' => den_cmd c C /\ stream s' rest) (parse_command_inner source (parse_command source fuel)) s.

Lemma height_pos c : (0 < height c)%nat.
Proof. destruct c; cbn; lia. Qed.

Lemma parses_enter c : parses_inner c -> parses_cmd c.
Proof.
  intros H fuel s rest Hs Hsep Hwf (Hd & Hh & Hf). pose proof (height_pos c) as Hpos. destruct fuel as [|f]; [lia|].
  cbn [parse_command]. unfold parse_command_body, enter_nesting.
  set (s1 := set_nesting (nesting_depth s + 1) s).
  assert (Hroom : room (nesting_depth s1) f (pred (height c))) by (unfold room; cbn; lia).
  destruct (H f s1 rest (stream_nesting _ _ _ Hs) Hsep Hwf Hroom) as (C & s2 & Hrun & Hn2 & HC & Hs2).
  exists C, (exit_nesting s2). unfold mbind at 1, comp_bind at 1. unfold mbind at 1, comp_bind at 1, get. cbn [fst snd].
  rewrite (proj2 (Z.leb_gt _ _)) by lia. unfold modify. cbn [fst snd]. unfold finally_px. fold s1. rewrite Hrun.
  split; [done|]. split; [cbn; rewrite Hn2; cbn; unfold sat_sub; lia|]. split; [done|]. by apply stream_nesting.
Qed.

Lemma separator_facts rest : is_separator (cur_kind rest) = true -> no_paren rest /\ is_word_kind (cur_kind rest) = false.
Proof. unfold no_paren. by destruct (cur_kind rest). Qed.

(** The dispatch on a word. *)
Lemma inner_word (Q : Command -> Parser -> Prop) rec s t ts : stream s (t :: ts) -> is_word_kind (tok_kind t) = true ->
  runs Q (c ← try_parse_compound_keyword source rec; match c with Some cmd => mret cmd | None => sc ← parse_simple_command source; mret (Simple sc) end) s ->
  runs Q (parse_command_inner source rec) s.
Proof.
  intros Hs Hw Hr. unfold parse_command_inner. apply runs_get. rewrite (stream_kind _ _ _ Hs). cbn [cur_kind]. by destruct (tok_kind t).
Qed.

(** A keyword that selects a compound command. *)
Lemma inner_keyword (Q : Command -> Parser -> Prop) rec s t ts : stream s (t :: ts) -> is_word_kind (tok_kind t) = true ->
  runs (fun o s' => exists C, o = Some C /\ Q C s') (try_parse_compound_keyword source rec) s ->
  runs Q (parse_command_inner source rec) s.
Proof.
  intros Hs Hw Hr. eapply inner_word; [done|done|]. eapply runs_bind; [exact Hr|]. intros o s1 _ (C & -> & HQ). by apply runs_ret.
Qed.

Lemma parses_simple w ws : parses_cmd (CSimple w ws).
Proof.
  apply parses_enter. intros fuel s rest Hs Hsep [Hw Hws]%andb_true_iff _. destruct (separator_facts _ Hsep) as [Hnp Hnw].
  pose proof Hw as [[[[_ Hk]%andb_true_iff Hkw]%andb_true_iff _]%andb_true_iff _]%andb_true_iff.
  apply negb_true_iff, bool_decide_eq_false in Hkw. cbn [toks_cmd app] in Hs. eapply inner_word; [done|done|].
  eapply (runs_bind (fun o s' => o = None /\ stream s' (w :: ws ++ rest))).
  - unfold try_parse_compound_keyword. eapply runs_current_text; [done|].
    repeat (rewrite decide_False; [|intros ->; apply Hkw; by vm_compute; repeat constructor]).
    eapply runs_bind; [by apply peek_runs|]. intros tok s1 Hn1 (Hsh & Hs1 & _). rewrite decide_False; [by apply runs_ret|].
    rewrite (shows_kind _ _ _ Hsh). cbn [lookup list_lookup]. destruct ws as [|x ws]; cbn [app lookup list_lookup].
    + unfold no_paren in Hnp. by destruct rest.
    + cbn [forallb] in Hws. apply andb_true_iff in Hws as [Hx _]. by apply (word_kind_no_paren x rest) in Hx.
  - intros o s1 Hn1 [-> Hs1]. eapply runs_bind; [by apply (simple_runs w ws rest)|]. intros sc s2 Hn2 [Hden Hs2]. by apply runs_ret.
Qed.

Definition parses_list (l : clist) : Prop := Forall parses_aol (items_of l).

Ltac expect w := eapply runs_bind; [by apply (expect_runs w)|]; intros ? ? ? ?.

(** A body in a command: the list, then the terminator. *)
Ltac body l :=
  eapply runs_bind; [apply (compound_list_runs l); [eassumption|by split|assumption|assumption|unfold room in *; lia]|];
  intros ? ? ? [? ?].

Ltac trailing := eapply runs_bind; [by apply no_redirections|]; intros ? ? ? [-> ?]; apply runs_span_from, runs_ret.

Lemma do_group_runs b fuel s rest : stream s ( #"do" :: toks_list b ++ #"done" :: rest) -> parses_list b -> wf_list b = true ->
  room (nesting_depth s) fuel (height_list b) ->
  runs (fun r s' => (den_body b (fst r) /\ snd r = []) /\ stream s' rest) (do_group source (parse_command source fuel)) s.
Proof.
  intros Hs Hp Hwf Hr. unfold do_group. expect ( #"do"). body b. expect ( #"done").
  eapply runs_bind; [by apply no_redirections|]. intros rs s4 Hn4 [-> Hs4]. by apply runs_ret.
Qed.

(** A compound command named by its first word. *)
Ltac compound c rest :=
  eapply inner_keyword; [done|done|]; unfold try_parse_compound_keyword; eapply runs_current_text; [done|];
  repeat (rewrite decide_False by done); rewrite decide_True by done;
  eapply (runs_bind (fun C s' => den_cmd c C /\ stream s' rest)); [|intros C s1 _ HC; apply runs_ret; eauto].

Lemma parses_group l : parses_list l -> parses_cmd (CGroup l).
Proof.
  intros Hp. apply parses_enter. intros fuel s rest Hs Hsep Hwf Hr. cbn [toks_cmd app] in Hs. rewrite <-app_assoc in Hs. cbn [app] in Hs.
  cbn [wf_cmd height pred] in *. compound (CGroup l) rest.
  unfold parse_group. apply runs_current_start. expect ( #"{"). body l. expect ( #"}"). trailing. done.
Qed.

Lemma parses_sub l : parses_list l -> parses_cmd (CSub l).
Proof.
  intros Hp. apply parses_enter. intros fuel s rest Hs Hsep Hwf Hr. cbn [toks_cmd app] in Hs. rewrite <-app_assoc in Hs. cbn [app] in Hs.
  cbn [wf_cmd height pred] in *. unfold parse_command_inner. apply runs_get. rewrite (stream_kind _ _ _ Hs).
  change (cur_kind ( #"(" :: toks_list l ++ #")" :: rest)) with LParen. cbv iota. unfold parse_command_lparen. apply runs_get.
  eapply runs_bind; [by apply attempt_runs, peek_runs|]. intros o s1 Hn1 (tok & -> & Hsh & Hs1 & Hc1 & Hfar).
  rewrite decide_False.
  - unfold parse_subshell. apply runs_current_start. eapply runs_bind; [by apply (skip_token s1 #"(")|]. intros t s2 Hn2 Hs2.
    unfold streams in Hs2. body l. eapply runs_at_kind; [done|].
    change (bool_decide (cur_kind ( #")" :: rest) = RParen)) with true. cbn [negb].
    eapply runs_bind; [by apply (skip_token _ #")")|]. intros ? ? ? ?. unfold streams in *. trailing. done.
  - intros [Hk Hadj]. destruct (Hfar eq_refl) as [He|Hlt]; [congruence|lia].
Qed.

Lemma parses_while u c b : parses_list c -> parses_list b -> parses_cmd (CWhile u c b).
Proof.
  intros Hpc Hpb. apply parses_enter. intros fuel s rest Hs Hsep [Hwc Hwb]%andb_true_iff Hr. cbn [toks_cmd app] in Hs.
  rewrite <-!app_assoc in Hs. cbn [app] in Hs. rewrite <-app_assoc in Hs. cbn [app height pred] in *.
  destruct u.
  - compound (CWhile true c b) rest. unfold parse_until. apply runs_current_start. expect ( #"until"). body c.
    eapply runs_bind; [apply (do_group_runs b); [eassumption|done|done|unfold room in *; lia]|]. intros r s4 Hn4 [[Hb ->] Hs4].
    apply runs_span_from, runs_ret. done.
  - compound (CWhile false c b) rest. unfold parse_while. apply runs_current_start. expect ( #"while"). body c.
    eapply runs_bind; [apply (do_group_runs b); [eassumption|done|done|unfold room in *; lia]|]. intros r s4 Hn4 [[Hb ->] Hs4].
    apply runs_span_from, runs_ret. done.
Qed.

(** [if] without [elif]: the condition and the first branch, up to a keyword. *)
Lemma if_head {B} (Q : B -> Parser -> Prop) fuel c t s kw rest (k : list CompleteCommand -> list CompleteCommand -> list ElifClause -> px B) :
  stream s ( #"if" :: toks_list c ++ #"then" :: toks_list t ++ kw :: rest) -> kw = #"else" \/ kw = #"fi" ->
  parses_list c -> parses_list t -> wf_list c = true -> wf_list t = true ->
  room (nesting_depth s) fuel (Nat.max (height_list c) (height_list t)) ->
  (forall C T s1, nesting_depth s1 = nesting_depth s -> den_body c C -> den_body t T -> stream s1 (kw :: rest) -> runs Q (k C T []) s1) ->
  runs Q (_ ← expect_word source #"if";
    condition ← parse_compound_list source (parse_command source fuel);
    _ ← expect_word source #"then";
    then_body ← parse_compound_list source (parse_command source fuel);
    elifs ← loop source (fun elifs =>
            b ← at_word_eq source #"elif";
            if (b : bool) then e ← parse_elif_clause source (parse_command source fuel); mret (inl (elifs ++ [e])) else mret (inr elifs)) [];
    k condition then_body elifs) s.
Proof.
  intros Hs Hkw Hpc Hpt Hwc Hwt Hr Hk. expect ( #"if"). body c. expect ( #"then").
  eapply runs_bind; [apply (compound_list_runs t); [eassumption|by destruct Hkw as [-> | ->]|assumption|assumption|unfold room in *; lia]|].
  intros T s4 Hn4 [HT Hs4]. eapply (runs_bind (fun es s' => es = [] /\ stream s' (kw :: rest))).
  - unfold loop. apply iterate_exit; [lia|]. eapply runs_at_word_eq; [done|].
    replace (head_is #"elif" (kw :: rest)) with false by (by destruct Hkw as [-> | ->]). apply runs_ret. by exists [].
  - intros es s5 Hn5 [-> Hs5]. apply Hk; [congruence|done|done|done].
Qed.

Lemma parses_if c t : parses_list c -> parses_list t -> parses_cmd (CIf c t).
Proof.
  intros Hpc Hpt. apply parses_enter. intros fuel s rest Hs Hsep [Hwc Hwt]%andb_true_iff Hr. cbn [toks_cmd app] in Hs.
  rewrite <-!app_assoc in Hs. cbn [app] in Hs. rewrite <-app_assoc in Hs. cbn [app height pred] in *.
  compound (CIf c t) rest. unfold parse_if. apply runs_current_start.
  apply (if_head _ fuel c t s #"fi" rest); [done|by right|done|done|done|done|done|]. intros C T s1 Hn1 HC HT Hs1.
  eapply runs_at_word_eq; [done|]. change (head_is #"else" ( #"fi" :: rest)) with false.
  eapply (runs_bind (fun o s' => o = None /\ stream s' ( #"fi" :: rest))); [by apply runs_ret|]. intros o s2 Hn2 [-> Hs2].
  expect ( #"fi"). trailing. done.
Qed.

Lemma parses_if_else c t e : parses_list c -> parses_list t -> parses_list e -> parses_cmd (CIfElse c t e).
Proof.
  intros Hpc Hpt Hpe. apply parses_enter. intros fuel s rest Hs Hsep [[Hwc Hwt]%andb_true_iff Hwe]%andb_true_iff Hr. cbn [toks_cmd app] in Hs.
  rewrite <-!app_assoc in Hs. cbn [app] in Hs. rewrite <-!app_assoc in Hs. cbn [app] in Hs. rewrite <-!app_assoc in Hs. cbn [app height pred] in *.
  compound (CIfElse c t e) rest. unfold parse_if. apply runs_current_start.
  apply (if_head _ fuel c t s #"else" (toks_list e ++ #"fi" :: rest));
    [done|by left|done|done|done|done|unfold room in *; lia|]. intros C T s1 Hn1 HC HT Hs1.
  eapply runs_at_word_eq; [done|]. change (head_is #"else" ( #"else" :: toks_list e ++ #"fi" :: rest)) with true.
  eapply (runs_bind (fun o s' => (exists El, o = Some El /\ den_body e El) /\ stream s' ( #"fi" :: rest))).
  - eapply runs_bind; [by apply (skip_token _ #"else")|]. intros ? ? ? ?. unfold streams in *. body e. apply runs_ret. split; [eauto|done].
  - intros o s2 Hn2 [(El & -> & HE) Hs2]. expect ( #"fi"). trailing. done.
Qed.

Lemma loop_words_runs ws s rest : stream s (ws ++ #";" :: rest) -> forallb loop_word_ok ws = true ->
  runs (fun Ws s' => words_are ws Ws /\ stream s' ( #";" :: rest)) (loop_words source) s.
Proof.
  intros Hs Hok. unfold loop_words, loop.
  assert (Hgen : forall ws n acc s, stream s (ws ++ #";" :: rest) -> forallb loop_word_ok ws = true -> (length ws < n)%nat ->
    runs (fun Ws s' => exists Ws', Ws = acc ++ Ws' /\ words_are ws Ws' /\ stream s' ( #";" :: rest)) (iterate n (fun words : list Word =>
      w ← at_word;
      if negb w then mret (inr words)
      else
        t ← current_text source;
        if decide (t = #"do" \/ t ∈ TERMINATOR_WORDS) then mret (inr words)
        else x ← parse_word source; mret (inl (words ++ [x]))) acc) s).
  { clear ws s Hs Hok. induction ws as [|w ws IH]; intros n acc s Hs Hok Hn; cbn [app forallb length] in *.
    - apply iterate_exit; [lia|]. eapply runs_at_word; [done|]. change (is_word_kind (cur_kind ( #";" :: rest))) with false. cbn [negb].
      apply runs_ret. eexists. split; [done|]. exists []. by rewrite app_nil_r.
    - apply andb_true_iff in Hok as [Hw Hok]. apply andb_true_iff in Hw as [Ha Ht]. apply negb_true_iff, bool_decide_eq_false in Ht.
      pose proof Ha as [Hg Hk]%andb_true_iff. apply iterate_next; [lia|]. eapply runs_at_word; [done|]. cbn [cur_kind]. rewrite Hk. cbn [negb].
      eapply runs_current_text; [done|].
      rewrite decide_False by (intros [-> |?]; [apply Ht; by vm_compute; repeat constructor|done]).
      eapply runs_bind; [by apply (arg_word_runs s w (ws ++ #";" :: rest))|]. intros x s1 Hn1 [Hx Hs1]. apply runs_ret. eexists. split; [done|].
      eapply runs_weaken; [apply (IH (n - 1)%nat (acc ++ [x]) s1); [done|done|lia]|]. intros Ws s2 (Ws' & -> & HWs & Hs2).
      exists (x :: Ws'). rewrite <-app_assoc. split; [done|]. split; [|done]. unfold words_are in *. cbn. by rewrite Hx, HWs. }
  eapply runs_weaken; [apply (Hgen ws (S (length source)) [] s); [done|done|]|].
  - pose proof (rounds _ _ Hs) as Hr. rewrite length_app in Hr. cbn in Hr. lia.
  - intros Ws s' (Ws' & -> & ? & ?). done.
Qed.

Lemma parses_for v ws b : parses_list b -> parses_cmd (CFor v ws b).
Proof.
  intros Hpb. apply parses_enter. intros fuel s rest Hs Hsep [[Hv Hws]%andb_true_iff Hwb]%andb_true_iff Hr. cbn [toks_cmd app] in Hs.
  rewrite <-!app_assoc in Hs. cbn [app] in Hs. rewrite <-app_assoc in Hs. cbn [app height pred] in *.
  pose proof Hv as [_ Hk]%andb_true_iff.
  compound (CFor v ws b) rest. unfold parse_for. apply runs_current_start. expect ( #"for"). unfold streams in *.
  eapply (runs_bind (fun r s' => r = false /\ stream s' (v :: #"in" :: ws ++ #";" :: #"do" :: toks_list b ++ #"done" :: rest))).
  { unfold is_arith_for_start. apply runs_get. rewrite decide_False; [by apply runs_ret|]. erewrite stream_kind by done. cbn [cur_kind].
    intros He. by rewrite He in Hk. }
  intros b0 s2 Hn2 [-> Hs2].
  eapply (runs_bind (fun x s' => x = v /\ stream s' ( #"in" :: ws ++ #";" :: #"do" :: toks_list b ++ #"done" :: rest))).
  { unfold loop_variable. eapply runs_at_word; [done|]. cbn [cur_kind]. rewrite Hk. cbn [negb]. eapply runs_current_text; [done|].
    eapply runs_bind; [by apply (skip_token _ v)|]. intros ? ? ? ?. by apply runs_ret. }
  intros x s3 Hn3 [-> Hs3].
  eapply (runs_bind (fun o s' => (exists Ws, o = Some Ws /\ words_are ws Ws) /\ stream s' ( #"do" :: toks_list b ++ #"done" :: rest))).
  { unfold parse_loop_words_clause. eapply runs_at_word_eq; [done|]. change (head_is #"in" ( #"in" :: ws ++ #";" :: #"do" :: toks_list b ++ #"done" :: rest)) with true. cbn [negb].
    eapply runs_bind; [by apply (skip_token _ #"in")|]. intros ? s4 Hn4 Hs4.
    eapply runs_bind; [by apply loop_words_runs|]. intros Ws s5 Hn5 [HWs Hs5]. unfold consume_optional_semi.
    eapply (runs_bind (streams source ( #"do" :: toks_list b ++ #"done" :: rest))).
    - eapply runs_at_kind; [done|]. change (bool_decide (cur_kind ( #";" :: #"do" :: toks_list b ++ #"done" :: rest) = Semi)) with true.
      eapply runs_bind; [by apply (skip_token _ #";")|]. intros ? s6 Hn6 Hs6. by apply runs_ret.
    - intros [] s6 Hn6 Hs6. apply runs_ret. split; [eauto|done]. }
  intros o s4 Hn4 [(Ws & -> & HWs) Hs4]. eapply runs_bind; [by apply no_newlines|]. intros [] s5 Hn5 Hs5.
  eapply runs_bind; [apply (do_group_runs b); [eassumption|done|done|unfold room in *; lia]|]. intros r s6 Hn6 [[Hb ->] Hs6].
  apply runs_span_from, runs_ret. done.
Qed.

(** ** Pipelines and and/or lists *)

(** What follows a pipeline. *)
Definition ends_pipeline (rest : list str) : Prop := cur_kind rest = Semi \/ cur_kind rest = AndAnd \/ cur_kind rest = OrOr.

Definition pipe_step (fuel : nat) : list Command * list bool -> px (list Command * list bool + list Command * list bool) :=
  fun '(commands, pipe_stderr) =>
    s ← get;
    match kind (current s) with
    | Pipe => _ ← advance source; _ ← skip_newlines source; c ← parse_command source fuel; mret (inl (commands ++ [c], pipe_stderr ++ [false]))
    | PipeAmp => _ ← advance source; _ ← skip_newlines source; c ← parse_command source fuel; mret (inl (commands ++ [c], pipe_stderr ++ [true]))
    | _ => mret (inr (commands, pipe_stderr))
    end.

Definition parses_cmds (cs : cmds) : Prop := forall fuel n s rest acc errs,
  stream s (toks_cmds cs ++ rest) -> ends_pipeline rest -> wf_cmds cs = true -> room (nesting_depth s) fuel (height_cmds cs) ->
  (length (toks_cmds cs) < n)%nat ->
  runs (fun r s' => (exists Cs errs', r = (acc ++ Cs, errs ++ errs') /\ den_cmds cs Cs errs') /\ stream s' rest)
    (iterate n (pipe_step fuel) (acc, errs)) s.

Lemma parses_no_cmd : parses_cmds NoCmd.
Proof.
  intros fuel n s rest acc errs Hs Hend _ _ Hn. cbn [toks_cmds app] in *. apply iterate_exit; [lia|]. apply runs_get.
  rewrite (stream_kind _ _ _ Hs). destruct Hend as [He|[He|He]]; rewrite He;
    (apply runs_ret; eexists; split; [done|]; split; [|done]; exists [], []; by rewrite !app_nil_r).
Qed.

Lemma cmds_separator cs rest : ends_pipeline rest -> is_separator (cur_kind (toks_cmds cs ++ rest)) = true.
Proof. intros Hend. destruct cs as [|[] c cs]; [|done|done]. by destruct Hend as [H|[H|H]]; cbn [toks_cmds app]; rewrite H. Qed.

Lemma parses_more_cmd err c cs : parses_cmd c -> parses_cmds cs -> parses_cmds (MoreCmd err c cs).
Proof.
  intros Hc Hcs fuel n s rest acc errs Hs Hend [Hwc Hwcs]%andb_true_iff Hr Hn. cbn [toks_cmds height_cmds app] in *.
  rewrite <-app_assoc in Hs. cbn [length] in Hn. rewrite length_app in Hn. pose proof (cmds_separator cs rest Hend) as Hsep.
  apply iterate_next; [lia|]. apply runs_get. rewrite (stream_kind _ _ _ Hs).
  assert (Hgo : runs (fun r s' => exists a', r = inl a' /\
    runs (fun r s' => (exists Cs errs', r = (acc ++ Cs, errs ++ errs') /\ den_cmds (MoreCmd err c cs) Cs errs') /\ stream s' rest)
      (iterate (n - 1) (pipe_step fuel) a') s')
    (_ ← advance source; _ ← skip_newlines source; c ← parse_command source fuel; mret (inl (acc ++ [c], errs ++ [err])) : px (list Command * list bool + list Command * list bool)) s).
  { eapply runs_bind; [by eapply skip_token|]. intros t s1 Hn1 Hs1. eapply runs_bind; [by apply no_newlines|]. intros [] s2 Hn2 Hs2.
    eapply runs_bind; [apply (Hc fuel s2 (toks_cmds cs ++ rest)); [done|done|done|rewrite Hn2, Hn1; eapply room_le; [done|lia]]|].
    intros C s3 Hn3 [HC Hs3]. apply runs_ret. eexists. split; [done|].
    eapply runs_weaken; [apply (Hcs fuel (n - 1)%nat s3 rest); [done|done|done|rewrite Hn3, Hn2, Hn1; eapply room_le; [done|lia]|lia]|].
    intros r s4 [(Cs & errs' & -> & Hden) Hs4]. split; [|done]. exists (C :: Cs), (err :: errs'). rewrite <-!app_assoc. split; [done|].
    cbn [den_cmds]. by exists C, Cs, errs'. }
  destruct err; exact Hgo.
Qed.

Definition parses_pline (p : pline) : Prop := forall fuel s rest,
  stream s (toks_pline p ++ rest) -> ends_pipeline rest -> wf_pline p = true -> room (nesting_depth s) fuel (height_pline p) ->
  runs (fun P s' => den_pline p P /\ stream s' rest) (parse_pipeline source (parse_command source fuel)) s.

(** A command does not start with [time] or [!]. *)
Lemma cmd_head c x w : wf_cmd c = true -> w = #"time" \/ w = #"!" -> head_is w (toks_cmd c ++ x) = false.
Proof.
  intros Hwf Hw. destruct c as [v ws| | | | |[] |]; cbn [toks_cmd app head_is]; try (by destruct Hw as [-> | ->]).
  cbn [wf_cmd] in Hwf. apply andb_true_iff in Hwf as [[[[_ Hk]%andb_true_iff _]%andb_true_iff _]%andb_true_iff _].
  apply negb_true_iff, bool_decide_eq_false in Hk. rewrite bool_decide_false; [by rewrite andb_false_r|].
  intros ->. apply Hk. destruct Hw as [-> | ->]; by vm_compute; repeat constructor.
Qed.

Lemma parses_pipeline neg c cs : parses_cmd c -> parses_cmds cs -> parses_pline (PLine neg c cs).
Proof.
  intros Hc Hcs fuel s rest Hs Hend [Hwc Hwcs]%andb_true_iff Hr. cbn [toks_pline height_pline] in *. rewrite <-!app_assoc in Hs.
  pose proof (cmds_separator cs rest Hend) as Hsep. set (ts := toks_cmd c ++ toks_cmds cs ++ rest) in *. unfold parse_pipeline.
  eapply runs_at_word_eq; [done|]. replace (head_is #"time" ((if neg then [ #"!"] else []) ++ ts)) with false
    by (symmetry; destruct neg; [done|]; apply cmd_head; [done|by left]).
  eapply (runs_bind (streams source ((if neg then [ #"!"] else []) ++ ts))); [by apply runs_ret|]. intros [] s1 Hn1 Hs1.
  eapply (runs_bind (fun b s' => b = false /\ stream s' ((if neg then [ #"!"] else []) ++ ts))); [by apply runs_ret|]. intros p s2 Hn2 [-> Hs2].
  eapply (runs_bind (streams source ((if neg then [ #"!"] else []) ++ ts))); [by apply runs_ret|]. intros [] s3 Hn3 Hs3.
  eapply runs_at_word_eq; [done|]. replace (head_is #"!" ((if neg then [ #"!"] else []) ++ ts)) with neg
    by (symmetry; destruct neg; [done|]; apply cmd_head; [done|by right]).
  eapply (runs_bind (streams source ts)).
  { destruct neg; [|by apply runs_ret]. eapply runs_bind; [by apply (skip_token _ #"!")|]. intros ? ? ? ?. by apply runs_ret. }
  intros [] s4 Hn4 Hs4.
  eapply runs_bind; [apply (Hc fuel s4 (toks_cmds cs ++ rest)); [done|done|done|rewrite Hn4, Hn3, Hn2, Hn1; eapply room_le; [done|lia]]|].
  intros C s5 Hn5 [HC Hs5]. pose proof (rounds _ _ Hs5) as Hrd. rewrite length_app in Hrd.
  eapply runs_bind.
  - apply (Hcs fuel (S (length source)) s5 rest [C] []); [done|done|done|rewrite Hn5, Hn4, Hn3, Hn2, Hn1; eapply room_le; [done|lia]|lia].
  - intros r s6 Hn6 [(Cs & errs & -> & Hden) Hs6]. apply runs_ret. cbn [fst snd app]. split; [|done]. cbn [den_pline].
    split_and!; [done|done|done|]. by exists C, Cs.
Qed.

Definition ao_step (fuel : nat) (rest : list (AndOrOp * Pipeline)) : px (list (AndOrOp * Pipeline) + list (AndOrOp * Pipeline)) :=
  s ← get;
  match kind (current s) with
  | AndAnd => _ ← advance source; _ ← skip_newlines source; p ← parse_pipeline source (parse_command source fuel); mret (inl (rest ++ [(And, p)]))
  | OrOr => _ ← advance source; _ ← skip_newlines source; p ← parse_pipeline source (parse_command source fuel); mret (inl (rest ++ [(Or, p)]))
  | _ => mret (inr rest)
  end.

Definition parses_aos (r : aos) : Prop := forall fuel n s rest acc,
  stream s (toks_aos r ++ rest) -> cur_kind rest = Semi -> wf_aos r = true -> room (nesting_depth s) fuel (height_aos r) ->
  (length (toks_aos r) < n)%nat ->
  runs (fun R s' => (exists R', R = acc ++ R' /\ den_aos r R') /\ stream s' rest) (iterate n (ao_step fuel) acc) s.

Lemma aos_ends r rest : cur_kind rest = Semi -> ends_pipeline (toks_aos r ++ rest).
Proof. unfold ends_pipeline. intros Hk. destruct r as [|[] p r]; cbn [toks_aos app]; [by left|by right; left|by right; right]. Qed.

Lemma parses_no_ao : parses_aos NoAO.
Proof.
  intros fuel n s rest acc Hs Hk _ _ Hn. cbn [toks_aos app] in *. apply iterate_exit; [lia|]. apply runs_get.
  rewrite (stream_kind _ _ _ Hs), Hk. apply runs_ret. eexists. split; [done|]. split; [|done]. exists []. by rewrite app_nil_r.
Qed.

Lemma parses_more_ao op p r : parses_pline p -> parses_aos r -> parses_aos (MoreAO op p r).
Proof.
  intros Hp Hr fuel n s rest acc Hs Hk [Hwp Hwr]%andb_true_iff Hroom Hn. cbn [toks_aos height_aos app] in *.
  rewrite <-app_assoc in Hs. cbn [length] in Hn. rewrite length_app in Hn. pose proof (aos_ends r rest Hk) as Hend.
  apply iterate_next; [lia|]. apply runs_get. rewrite (stream_kind _ _ _ Hs).
  assert (Hgo : runs (fun o s' => exists a', o = inl a' /\
    runs (fun R s' => (exists R', R = acc ++ R' /\ den_aos (MoreAO op p r) R') /\ stream s' rest) (iterate (n - 1) (ao_step fuel) a') s')
    (_ ← advance source; _ ← skip_newlines source; p ← parse_pipeline source (parse_command source fuel);
     mret (inl (acc ++ [(op, p)])) : px (list (AndOrOp * Pipeline) + list (AndOrOp * Pipeline))) s).
  { eapply runs_bind; [by eapply skip_token|]. intros t s1 Hn1 Hs1. eapply runs_bind; [by apply no_newlines|]. intros [] s2 Hn2 Hs2.
    eapply runs_bind; [apply (Hp fuel s2 (toks_aos r ++ rest)); [done|done|done|rewrite Hn2, Hn1; eapply room_le; [done|lia]]|].
    intros P s3 Hn3 [HP Hs3]. apply runs_ret. eexists. split; [done|].
    eapply runs_weaken; [apply (Hr fuel (n - 1)%nat s3 rest); [done|done|done|rewrite Hn3, Hn2, Hn1; eapply room_le; [done|lia]|lia]|].
    intros R s4 [(R' & -> & Hden) Hs4]. split; [|done]. exists ((op, P) :: R'). rewrite <-app_assoc. split; [done|].
    cbn [den_aos]. by exists P, R'. }
  destruct op; exact Hgo.
Qed.

Lemma parses_and_or p r : parses_pline p -> parses_aos r -> parses_aol (AO p r).
Proof.
  intros Hp Hr fuel s rest Hs Hk [Hwp Hwr]%andb_true_iff Hroom. cbn [toks_aol height_aol] in *. rewrite <-app_assoc in Hs.
  unfold parse_and_or.
  eapply runs_bind; [apply (Hp fuel s (toks_aos r ++ rest)); [done|by apply aos_ends|done|eapply room_le; [done|lia]]|].
  intros P s1 Hn1 [HP Hs1]. pose proof (rounds _ _ Hs1) as Hrd. rewrite length_app in Hrd.
  eapply runs_bind; [apply (Hr fuel (S (length source)) s1 rest []); [done|done|done|rewrite Hn1; eapply room_le; [done|lia]|lia]|].
  intros R s2 Hn2 [(R' & -> & Hden) Hs2]. by apply runs_ret.
Qed.

Lemma all_parse :
  (forall c, parses_cmd c) /\ (forall p, parses_pline p) /\ (forall cs, parses_cmds cs) /\ (forall a, parses_aol a) /\
  (forall r, parses_aos r) /\ (forall l, parses_list l).
Proof.
  apply grammar_ind; auto using parses_simple, parses_sub, parses_group, parses_if, parses_if_else, parses_while, parses_for, parses_pipeline,
    parses_no_cmd, parses_more_cmd, parses_and_or, parses_no_ao, parses_more_ao.
  - intros a Ha. unfold parses_list. cbn [items_of]. by apply Forall_singleton.
  - intros a Ha l Hl. unfold parses_list in *. cbn [items_of]. by apply Forall_cons.
Qed.
End roundtrip.

(** ** Printed programs *)

Lemma arg_good w : arg_ok w = true -> good_token w = true.
Proof. intros [H _]%andb_true_iff. unfold good_token. by rewrite H, orb_true_r. Qed.

Lemma args_good ws : forallb arg_ok ws = true -> forallb good_token ws = true.
Proof. rewrite !forallb_forall. intros H x Hx. by apply arg_good, H. Qed.

Lemma loop_words_good ws : forallb loop_word_ok ws = true -> forallb good_token ws = true.
Proof. rewrite !forallb_forall. intros H x Hx. apply arg_good. specialize (H x Hx). by apply andb_true_iff in H as [? _]. Qed.

Lemma good_app a b : forallb good_token a = true -> forallb good_token b = true -> forallb good_token (a ++ b) = true.
Proof. intros Ha Hb. by rewrite forallb_app, Ha, Hb. Qed.

Lemma good_cons t b : good_token t = true -> forallb good_token b = true -> forallb good_token (t :: b) = true.
Proof. intros Ha Hb. cbn [forallb]. by rewrite Ha, Hb. Qed.

Lemma all_good :
  (forall c, wf_cmd c = true -> forallb good_token (toks_cmd c) = true) /\
  (forall p, wf_pline p = true -> forallb good_token (toks_pline p) = true) /\
  (forall cs, wf_cmds cs = true -> forallb good_token (toks_cmds cs) = true) /\
  (forall a, wf_aol a = true -> forallb good_token (toks_aol a) = true) /\
  (forall r, wf_aos r = true -> forallb good_token (toks_aos r) = true) /\
  (forall l, wf_list l = true -> forallb good_token (toks_list l) = true).
Proof.
  apply grammar_ind; intros;
    cbn [wf_cmd wf_pline wf_cmds wf_aol wf_aos wf_list toks_cmd toks_pline toks_cmds toks_aol toks_aos toks_list] in *;
    repeat match goal with H : _ && _ = true |- _ => apply andb_true_iff in H as [? ?] end;
    repeat first [apply good_app | apply good_cons]; auto using arg_good, args_good, loop_words_good;
    try match goal with |- good_token (if ?b then _ else _) = true => by destruct b
                      | |- good_token (match ?op with And => _ | Or => _ end) = true => by destruct op
                      | |- forallb good_token (if ?b then _ else _) = true => by destruct b end.
  apply arg_good. by match goal with H : command_word_ok _ = true |- _ => apply andb_true_iff in H as [[[? _]%andb_true_iff _]%andb_true_iff _] end.
Qed.

Lemma good_token_ascii t : good_token t = true -> is_ascii t = true.
Proof.
  unfold good_token. intros [H%bool_decide_eq_true|H]%orb_true_iff; [|by apply andb_true_iff in H as [_ ?]].
  destruct H as [k Hk]. apply op_kind_cases in Hk. rewrite list_elem_of_In in Hk. repeat destruct Hk as [[= <- <-]|Hk]; done.
Qed.

Lemma spaced_ascii ts : forallb good_token ts = true -> is_ascii (spaced ts) = true.
Proof.
  intros H. apply is_ascii_concat, Forall_map, Forall_forall. intros t Ht. rewrite forallb_forall in H.
  assert (Ha : is_ascii t = true) by (apply good_token_ascii, H; by apply list_elem_of_In).
  unfold is_ascii in *. cbn [forallb]. by rewrite Ha.
Qed.

Lemma ascii_utf8 s : is_ascii s = true -> utf8_shape s.
Proof.
  intros Ha. assert (Hc : forall i c, s !! i = Some c -> is_continuation c = false).
  { intros i c Hc. unfold is_ascii in Ha. rewrite forallb_forall in Ha.
    assert (Hb : (byte_val c <? 128) = true) by (apply Ha, list_elem_of_In, list_elem_of_lookup; eauto).
    unfold is_continuation. apply Z.ltb_lt in Hb. by rewrite (proj2 (Z.leb_gt 128 _)). }
  split; [intros c; apply Hc|intros i a b _ _; apply Hc].
Qed.

(** The parser in front of a printed program. *)
Lemma parser_new_stream t ts : let source := t ++ spaced ts in
  forallb good_token (t :: ts) = true -> utf8_shape source -> Z.of_nat (length source) < 2 ^ 32 ->
  exists s, Parser_new source = Ok s /\ stream source s (t :: ts) /\ nesting_depth s = 0.
Proof.
  intros source Hg Hu Hf. destruct (good_next_token source Hu [] t ts Lexer_new) as (l & Hrun & Hl); [done|by left|done|apply new_ready|].
  eexists. unfold Parser_new. rewrite Hrun. split; [done|]. split; [|done].
  pose proof Hg as [Ht _]%andb_true_iff. constructor; cbn [current peeked lexer pending_heredocs length].
  - apply Forall2_cons. split; [|by apply Forall2_nil].
    eapply (op_tok_shows source Hu Hf [] t ts Lexer_new); [done|apply new_ready|done|by apply good_token_nonempty].
  - done.
  - subst source. rewrite length_app. pose proof (spaced_length ts). apply good_token_nonempty in Ht.
    destruct t; [done|]. cbn [length]. lia.
  - done.
  - split; [|done]. by apply (token_in_place source Hu Hf Lexer_new); [apply new_ready|].
Qed.

(** C2: a program of the core grammar, printed with one space between its tokens,
    is parsed back to itself: commands with their words, pipelines with [|], [|&]
    and [!], and/or lists, sequences, subshells, groups, [if], [while], [until]
    and [for], nested at most 24 deep. *)
Theorem parse_print_list (l : clist) : wf_list l = true -> Z.of_nat (height_list l) <= MAX_NESTING_DEPTH ->
  Z.of_nat (length (print_list l)) < 2 ^ 32 ->
  exists items sp, parse (print_list l) = Ok {| commands := [mkCompleteCommand items sp] |} /\ den_list l items.
Proof.
  intros Hwf Hh Hf. pose proof (proj2 (proj2 (proj2 (proj2 (proj2 all_good)))) l Hwf) as Hg. unfold print_list in *.
  assert (Hne : exists t ts, toks_list l = t :: ts).
  { destruct (toks_list l) as [|t ts] eqn:He; [|eauto]. destruct l; cbn [toks_list] in He; by apply app_eq_nil in He as [_ He]. }
  destruct Hne as (t & ts & Hts). rewrite Hts in *. rewrite join_spaced in *. set (source := t ++ spaced ts) in *.
  assert (Hu : utf8_shape source).
  { apply ascii_utf8. pose proof Hg as [Ht Hg']%andb_true_iff. apply is_ascii_app; [by apply good_token_ascii|by apply spaced_ascii]. }
  destruct (parser_new_stream t ts Hg Hu Hf) as (s & Hnew & Hs & Hd). rewrite <-Hts, <-(app_nil_r (toks_list l)) in Hs.
  unfold parse. fold source in Hnew. rewrite Hnew. cbn [mbind res_bind].
  assert (Hr : room (nesting_depth s) recursion_limit (height_list l)) by (unfold room, MAX_NESTING_DEPTH, recursion_limit in *; rewrite Hd; lia).
  destruct (compound_list_runs source Hu Hf l recursion_limit s [] Hs) as (cs & s1 & Hrun & _ & (items & sp & -> & Hden) & Hs1);
    [done|apply all_parse; done|done|done|].
  exists items, sp. split; [|done]. unfold parse_program. unfold parse_compound_list in Hrun. unfold mbind, comp_bind. rewrite Hrun.
  unfold get. cbn [fst snd]. rewrite decide_True; [done|]. by rewrite (stream_kind _ _ _ Hs1).
Qed.

Definition demo_program : clist :=
  LMore (AO (PLine false (CIfElse (LOne (AO (PLine true (CSimple #"test" [ #"-f"; #"x" ]) NoCmd) NoAO))
                                  (LOne (AO (PLine false (CSimple #"echo" [ #"no" ]) (MoreCmd true (CSimple #"wc" []) NoCmd)) NoAO))
                                  (LOne (AO (PLine false (CSub (LOne (AO (PLine false (CSimple #"ls" []) NoCmd) NoAO))) NoCmd) NoAO))) NoCmd) NoAO)
  (LOne (AO (PLine false (CFor #"i" [ #"a"; #"b=1" ] (LOne (AO (PLine false (CSimple #"echo" [ #"done" ]) NoCmd) NoAO))) NoCmd)
            (MoreAO And (PLine false (CGroup (LOne (AO (PLine false (CSimple #"true" []) NoCmd) NoAO))) NoCmd) NoAO))).

Lemma parse_print_list_witness : exists items sp,
  parse #"if ! test -f x ; then echo no |& wc ; else ( ls ; ) ; fi ; for i in a b=1 ; do echo done ; done && { true ; } ;"
  = Ok {| commands := [mkCompleteCommand items sp] |} /\ den_list demo_program items.
Proof. apply (parse_print_list demo_program); [reflexivity|vm_compute; discriminate|vm_compute; reflexivity]. Defined.
