(* ===== verification/Arith.v ===== *)
(** * Arithmetic (crates/wasmsh-expand/src/lib.rs, the arithmetic evaluator)

    The tokenizer and the recursive-descent evaluator of [$(( ))].  A computation
    runs over the shell state; [Err Diverges] stands for an assignment through a
    cycle of namerefs, which never returns.  A parameter reference inside an
    expression is resolved by the parameter expander, an argument here
    ([Expand] passes its own).  The functions that recurse are those that count
    the depth, and take as fuel the levels left below [MAX_ARITH_DEPTH]; a loop
    over tokens has one round per token. *)

From S2P Require Import Prelude Strings IndexMap State Lexer WordParser.

(** ** Computations on the shell state *)

Variant stop := Diverges.

Abbreviation ex := (comp ShellState stop).

Definition set_var_ex (name v : str) : ex unit := fun st =>
  match set_var st name v with
  | Some st' => (st', Ok tt)
  | None => (st, Err Diverges)
  end.

Definition get_var_ex `{Target} (clock : Z) (name : str) : ex (option str) := fun st =>
  let '(st', r) := get_var clock st name in (st', Ok r).

(** ** 64-bit integers *)

Definition wrap64 (z : Z) : Z := (z + 2 ^ 63) mod 2 ^ 64 - 2 ^ 63.

Definition is_i64 (z : Z) : bool := (I64_MIN <=? z) && (z <=? I64_MAX).

Definition wrapping_add (a b : Z) : Z := wrap64 (a + b).
Definition wrapping_sub (a b : Z) : Z := wrap64 (a - b).
Definition wrapping_mul (a b : Z) : Z := wrap64 (a * b).
Definition wrapping_neg (a : Z) : Z := wrap64 (- a).
Definition wrapping_div (a b : Z) : Z := wrap64 (Z.quot a b).
Definition wrapping_rem (a b : Z) : Z := Z.rem a b.

(** [rhs as u32], of which the shift uses the low six bits. *)
Definition shift_amount (rhs : Z) : Z := Z.land (rhs mod 2 ^ 32) 63.
Definition wrapping_shl (a rhs : Z) : Z := wrap64 (Z.shiftl a (shift_amount rhs)).
Definition wrapping_shr (a rhs : Z) : Z := Z.shiftr a (shift_amount rhs).

(** [i64::from(bool)]. *)
Definition from_bool (b : bool) : Z := if b then 1 else 0.

(** [exp] has 64 bits, so the loop ends within 64 rounds. *)
Fixpoint pow_loop (n : nat) (exp result b : Z) : Z :=
  match n with
  | O => result
  | S n' =>
      if 0 <? exp
      then pow_loop n' (Z.shiftr exp 1) (if Z.land exp 1 =? 1 then wrapping_mul result b else result) (wrapping_mul b b)
      else result
  end.

Definition wrapping_pow (base exp : Z) : Z := if exp <? 0 then 0 else pow_loop 64 exp 1 base.

(** [char::to_digit]. *)
Definition to_digit (radix : Z) (c : byte) : option Z :=
  let v := byte_val c in
  let d := if (48 <=? v) && (v <=? 57) then Some (v - 48)
           else if (97 <=? v) && (v <=? 122) then Some (v - 97 + 10)
           else if (65 <=? v) && (v <=? 90) then Some (v - 65 + 10)
           else None in
  d ≫= fun d => if d <? radix then Some d else None.

Fixpoint radix_digits (radix acc : Z) (s : str) : option Z :=
  match s with
  | [] => Some acc
  | c :: s' => d ← to_digit radix c; radix_digits radix (acc * radix + d) s'
  end.

(** [from_str_radix]: panics on a radix above 36. *)
Definition from_str_radix {E} (lo hi radix : Z) (s : str) : res E (option Z) :=
  if (2 <=? radix) && (radix <=? 36) then
    Ok (let digits s := match s with [] => None | _ => radix_digits radix 0 s end in
        match s with
        | c :: s' =>
            if decide (c = "+"%char) then digits s' ≫= in_range lo hi
            else if decide (c = "-"%char) then digits s' ≫= (fun n => in_range lo hi (- n))
            else digits s ≫= in_range lo hi
        | [] => None
        end)
  else Panic "from_str_radix_int: must lie in the range [2, 36]".

(** ** Tokens *)

Module Tok.
Inductive ArithToken :=
  | Number (n : Z) | Ident (name : str)
  | Plus | Minus | Star | Slash | Percent | StarStar | LShift | RShift | Lt | Gt | Le | Ge | EqEq | Ne
  | Amp | Caret | Pipe | AmpAmp | PipePipe | Bang | Tilde | Question | Colon | Comma | LParen | RParen
  | Eq | PlusEq | MinusEq | StarEq | SlashEq | PercentEq | LShiftEq | RShiftEq | AmpEq | CaretEq | PipeEq
  | PlusPlus | MinusMinus.

#[export] Instance ArithToken_eq_dec : EqDecision ArithToken.
Proof. solve_decision. Defined.
End Tok.
Export (hints) Tok.

Abbreviation ArithToken := Tok.ArithToken.

Definition is_ascii_whitespace (b : byte) : bool :=
  bool_decide (b ∈ [" "%char; tab; newline; carriage_return; Ascii.ascii_of_N 12]).

Definition is_ident_start (b : byte) : bool := is_ascii_alphabetic b || bool_decide (b = "_"%char).
Definition is_ident_byte (b : byte) : bool := is_ascii_alphanumeric b || bool_decide (b = "_"%char).
Definition is_ascii_hexdigit (b : byte) : bool := bool_decide (is_Some (to_digit 16 b)).

(** [chars().next()]: a byte and the continuation bytes after it. *)
Definition first_char (s : str) : option str :=
  match s with
  | [] => None
  | c :: s' => Some (c :: slice s' 0 (advance_while s' is_continuation (length s') 0))
  end.

Section tokenize.
Context `{Target} (clock : Z) (expand_parameter : list Ascii.ascii -> comp ShellState stop (list Ascii.ascii)).
Context (input : list Ascii.ascii).

Let scan (ok : byte -> bool) (p : nat) : nat := advance_while input ok (rest_from input p) p.

Definition arith_take_radix_number {E} (p digits_start prefix_len : nat) (radix : Z) (pred : byte -> bool) : res E (nat * Z) :=
  let p' := scan pred (p + prefix_len) in
  digits ← str_slice input digits_start p';
  n ← from_str_radix I64_MIN I64_MAX radix digits;
  mret (p', default 0 n).

Definition arith_tokenize_prefixed_number {E} (p start : nat) (first : byte) : res E (option (nat * Z)) :=
  if decide (first <> "0"%char) then mret None
  else match input !! S p with
       | None => mret None
       | Some next =>
           if decide (next = "x"%char \/ next = "X"%char) then
             r ← arith_take_radix_number p (start + 2) 2 16 is_ascii_hexdigit; mret (Some r)
           else if decide (next = "b"%char \/ next = "B"%char) then
             r ← arith_take_radix_number p (start + 2) 2 2 (fun b => bool_decide (b = "0"%char \/ b = "1"%char)); mret (Some r)
           else if is_ascii_digit next then
             r ← arith_take_radix_number p (start + 1) 1 8 is_ascii_digit; mret (Some r)
           else mret None
       end.

Definition arith_tokenize_base_syntax {E} (p start : nat) : res E (option (nat * Z)) :=
  if decide (input !! p <> Some "#"%char) then mret None
  else
    digits ← str_slice input start p;
    match parse_unsigned U32_MAX digits with
    | None => mret None
    | Some base =>
        if negb ((2 <=? base) && (base <=? 64)) then mret None
        else
          let p' := scan is_ident_byte (S p) in
          text ← str_slice input (S p) p';
          n ← from_str_radix I64_MIN I64_MAX base text;
          mret (Some (p', default 0 n))
    end.

Definition arith_tokenize_number {E} (p : nat) (b : byte) : res E (nat * list ArithToken) :=
  prefixed ← arith_tokenize_prefixed_number p p b;
  match prefixed with
  | Some (p', n) => mret (p', [Tok.Number n])
  | None =>
      let p1 := scan is_ascii_digit (S p) in
      based ← arith_tokenize_base_syntax p1 p;
      match based with
      | Some (p', n) => mret (p', [Tok.Number n])
      | None => text ← str_slice input p p1; mret (p1, [Tok.Number (default 0 (parse_i64 text))])
      end
  end.

Definition arith_tokenize_ident {E} (p : nat) : res E (nat * list ArithToken) :=
  let p' := scan is_ident_byte (S p) in
  text ← str_slice input p p'; mret (p', [Tok.Ident text]).

(** The scan for the closing brace of [${...}]. *)
Fixpoint dollar_brace_end (n i : nat) (depth : Z) : nat :=
  match n, input !! i with
  | S n', Some b =>
      if decide (b = "{"%char) then dollar_brace_end n' (S i) (depth + 1)
      else if decide (b = "}"%char) then if depth =? 1 then i else dollar_brace_end n' (S i) (depth - 1)
      else dollar_brace_end n' (S i) depth
  | _, _ => i
  end.

(** The name after a [$] and the position after it; [None] for the start of an
    identifier, which is left to the main loop. *)
Definition arith_dollar_name {E} (p : nat) (next : byte) : res E (option (nat * str)) :=
  if decide (next = "{"%char) then
    let i := dollar_brace_end (rest_from input (S p)) (S p) 1 in
    name ← str_slice input (S p) (Nat.min i (length input));
    mret (Some (Nat.min (S i) (length input), name))
  else if is_ascii_digit next then
    let p' := scan is_ascii_digit p in
    name ← str_slice input p p'; mret (Some (p', name))
  else if is_ident_start next then mret None
  else
    text ← str_slice input p (length input);
    let ch := default [Ascii.ascii_of_N 0] (first_char text) in
    mret (Some ((p + length ch)%nat, ch)).

Definition take_nounset_error_ex : ex (option str) := fun st =>
  let '(st', r) := take_nounset_error st in (st', Ok r).

Definition arith_tokenize_dollar (p0 : nat) : ex (nat * list ArithToken) :=
  let p := S p0 in
  match input !! p with
  | None => mret (p, [Tok.Number 0])
  | Some next =>
      name ← lift_res (arith_dollar_name p next);
      match name with
      | None => mret (p, [])
      | Some (p', name) =>
          out ← expand_parameter name;
          _ ← take_nounset_error_ex;
          mret (p', [Tok.Number (default 0 (parse_i64 (trim out)))])
      end
  end.

(** The operators: the position after the token, and the token. *)
Definition arith_push_op2 (p : nat) (next : byte) (tok2 tok1 : ArithToken) : nat * list ArithToken :=
  if decide (input !! S p = Some next) then ((p + 2)%nat, [tok2]) else (S p, [tok1]).

Definition arith_tokenize_plus_minus_star (p : nat) (b : byte) : nat * list ArithToken :=
  let next := input !! S p in
  let two t := ((p + 2)%nat, [t]) in
  if decide (b = "+"%char) then
    if decide (next = Some "+"%char) then two Tok.PlusPlus
    else if decide (next = Some "="%char) then two Tok.PlusEq else (S p, [Tok.Plus])
  else if decide (b = "-"%char) then
    if decide (next = Some "-"%char) then two Tok.MinusMinus
    else if decide (next = Some "="%char) then two Tok.MinusEq else (S p, [Tok.Minus])
  else
    if decide (next = Some "*"%char) then two Tok.StarStar
    else if decide (next = Some "="%char) then two Tok.StarEq else (S p, [Tok.Star]).

Definition arith_tokenize_left_angle (p : nat) : nat * list ArithToken :=
  if decide (input !! S p = Some "<"%char) then
    if decide (input !! S (S p) = Some "="%char) then ((p + 3)%nat, [Tok.LShiftEq]) else ((p + 2)%nat, [Tok.LShift])
  else if decide (input !! S p = Some "="%char) then ((p + 2)%nat, [Tok.Le])
  else (S p, [Tok.Lt]).

Definition arith_tokenize_right_angle (p : nat) : nat * list ArithToken :=
  if decide (input !! S p = Some ">"%char) then
    if decide (input !! S (S p) = Some "="%char) then ((p + 3)%nat, [Tok.RShiftEq]) else ((p + 2)%nat, [Tok.RShift])
  else if decide (input !! S p = Some "="%char) then ((p + 2)%nat, [Tok.Ge])
  else (S p, [Tok.Gt]).

Definition arith_tokenize_angle (p : nat) (b : byte) : nat * list ArithToken :=
  if decide (b = "<"%char) then arith_tokenize_left_angle p else arith_tokenize_right_angle p.

Definition arith_tokenize_amp_pipe (p : nat) (b : byte) : nat * list ArithToken :=
  let next := input !! S p in
  let two t := ((p + 2)%nat, [t]) in
  if decide (b = "&"%char) then
    if decide (next = Some "&"%char) then two Tok.AmpAmp
    else if decide (next = Some "="%char) then two Tok.AmpEq else (S p, [Tok.Amp])
  else
    if decide (next = Some "|"%char) then two Tok.PipePipe
    else if decide (next = Some "="%char) then two Tok.PipeEq else (S p, [Tok.Pipe]).

Definition arith_tokenize_single (p : nat) (tok : ArithToken) : nat * list ArithToken := (S p, [tok]).

Definition arith_tokenize_operator (p : nat) (b : byte) : nat * list ArithToken :=
  if decide (b ∈ #"+-*") then arith_tokenize_plus_minus_star p b
  else if decide (b = "/"%char) then arith_push_op2 p "="%char Tok.SlashEq Tok.Slash
  else if decide (b = "%"%char) then arith_push_op2 p "="%char Tok.PercentEq Tok.Percent
  else if decide (b ∈ #"<>") then arith_tokenize_angle p b
  else if decide (b = "="%char) then arith_push_op2 p "="%char Tok.EqEq Tok.Eq
  else if decide (b = "!"%char) then arith_push_op2 p "="%char Tok.Ne Tok.Bang
  else if decide (b ∈ #"&|") then arith_tokenize_amp_pipe p b
  else if decide (b = "^"%char) then arith_push_op2 p "="%char Tok.CaretEq Tok.Caret
  else if decide (b = "~"%char) then arith_tokenize_single p Tok.Tilde
  else if decide (b = "?"%char) then arith_tokenize_single p Tok.Question
  else if decide (b = ":"%char) then arith_tokenize_single p Tok.Colon
  else if decide (b = ","%char) then arith_tokenize_single p Tok.Comma
  else if decide (b = "("%char) then arith_tokenize_single p Tok.LParen
  else if decide (b = ")"%char) then arith_tokenize_single p Tok.RParen
  else (S p, []).

(** One round of the main loop at the byte [b]. *)
Definition arith_tokenize_at (p : nat) (b : byte) : ex (nat * list ArithToken) :=
  if is_ascii_whitespace b then mret (S p, [])
  else if decide (b = "$"%char) then arith_tokenize_dollar p
  else if is_ascii_digit b then lift_res (arith_tokenize_number p b)
  else if is_ident_start b then lift_res (arith_tokenize_ident p)
  else mret (arith_tokenize_operator p b).

Fixpoint arith_tokenize_loop (n p : nat) (tokens : list ArithToken) : ex (list ArithToken) :=
  match input !! p with
  | None => mret tokens
  | Some b =>
      match n with
      | O => panic "out of rounds"
      | S n' => r ← arith_tokenize_at p b; arith_tokenize_loop n' (fst r) (tokens ++ snd r)
      end
  end.

Definition arith_tokenize : ex (list ArithToken) := arith_tokenize_loop (length input) 0 [].
End tokenize.

(** ** The evaluator *)

Definition MAX_ARITH_DEPTH : Z := 64.

Record ArithParser := { ap_tokens : list ArithToken; ap_pos : nat; ap_state : ShellState; ap_depth : Z }.

Definition set_ap_pos (p : nat) (s : ArithParser) : ArithParser :=
  {| ap_tokens := ap_tokens s; ap_pos := p; ap_state := ap_state s; ap_depth := ap_depth s |}.
Definition set_ap_state (st : ShellState) (s : ArithParser) : ArithParser :=
  {| ap_tokens := ap_tokens s; ap_pos := ap_pos s; ap_state := st; ap_depth := ap_depth s |}.
Definition set_ap_depth (d : Z) (s : ArithParser) : ArithParser :=
  {| ap_tokens := ap_tokens s; ap_pos := ap_pos s; ap_state := ap_state s; ap_depth := d |}.

Definition ArithParser_new (tokens : list ArithToken) (state : ShellState) : ArithParser :=
  {| ap_tokens := tokens; ap_pos := 0; ap_state := state; ap_depth := 0 |}.

Definition is_assign_op (tok : ArithToken) : bool :=
  bool_decide (tok ∈ [Tok.Eq; Tok.PlusEq; Tok.MinusEq; Tok.StarEq; Tok.SlashEq; Tok.PercentEq; Tok.LShiftEq; Tok.RShiftEq;
                      Tok.AmpEq; Tok.CaretEq; Tok.PipeEq]).

Definition apply_compound_op (op : ArithToken) (cur rhs : Z) : Z :=
  match op with
  | Tok.PlusEq => wrapping_add cur rhs
  | Tok.MinusEq => wrapping_sub cur rhs
  | Tok.StarEq => wrapping_mul cur rhs
  | Tok.SlashEq => if rhs =? 0 then 0 else wrapping_div cur rhs
  | Tok.PercentEq => if rhs =? 0 then 0 else wrapping_rem cur rhs
  | Tok.LShiftEq => wrapping_shl cur rhs
  | Tok.RShiftEq => wrapping_shr cur rhs
  | Tok.AmpEq => Z.land cur rhs
  | Tok.CaretEq => Z.lxor cur rhs
  | Tok.PipeEq => Z.lor cur rhs
  | _ => rhs
  end.

Section parser.
Context `{Target} (clock : Z).

Abbreviation ax := (comp ArithParser stop).

Definition on_state {A} (m : ex A) : ax A := fun s => let '(st, r) := m (ap_state s) in (set_ap_state st s, r).

(** Whether the level was entered. *)
Definition enter_depth : ax bool := fun s =>
  if MAX_ARITH_DEPTH <=? ap_depth s
  then (set_ap_state (set_arith_error (ap_state s) #"expression recursion limit exceeded") s, Ok false)
  else (set_ap_depth (ap_depth s + 1) s, Ok true).

Definition exit_depth : ax unit := modify (fun s => set_ap_depth (sat_sub (ap_depth s) 1) s).

Definition arith_error (message : str) : ax Z := fun s => (set_ap_state (set_arith_error (ap_state s) message) s, Ok 0).

Definition arith_peek : ax (option ArithToken) := s ← get; mret (ap_tokens s !! ap_pos s).
Definition arith_bump : ax unit := modify (fun s => set_ap_pos (S (ap_pos s)) s).

Definition eat (expected : ArithToken) : ax bool :=
  t ← arith_peek;
  if decide (t = Some expected) then _ ← arith_bump; mret true else mret false.

Definition var_get (name : str) : ax Z :=
  v ← on_state (get_var_ex clock name); mret (default 0 (v ≫= parse_i64)).

Definition var_set (name : str) (val : Z) : ax Z := _ ← on_state (set_var_ex name (Z_to_string val)); mret val.

(** [step] continues with [inl] and leaves the loop with [inr]. *)
Fixpoint arith_iterate (n : nat) (step : Z -> ax (Z + Z)) (val : Z) : ax Z :=
  match n with
  | O => panic "out of rounds"
  | S n' => r ← step val; match r with inl val' => arith_iterate n' step val' | inr v => mret v end
  end.

Definition eat_loop (step : Z -> ax (Z + Z)) (val : Z) : ax Z :=
  s ← get; arith_iterate (S (length (ap_tokens s))) step val.

(** The functions that count the depth, one level further down. *)
Section level.
Context (parse_assign parse_exponentiation parse_unary : ax Z).

Definition parse_expr : ax Z :=
  val ← parse_assign;
  eat_loop (fun val => b ← eat Tok.Comma; if (b : bool) then v ← parse_assign; mret (inl v) else mret (inr val)) val.

Definition try_compound_assign (name : str) : ax (option Z) :=
  t ← arith_peek;
  match t with
  | None => mret None
  | Some op =>
      if negb (is_assign_op op) then mret None
      else
        _ ← arith_bump;
        rhs ← parse_assign;
        result ← (if decide (op = Tok.Eq) then mret rhs
                  else cur ← var_get name; mret (apply_compound_op op cur rhs));
        v ← var_set name result;
        mret (Some v)
  end.

Definition parse_multiplicative : ax Z :=
  val ← parse_exponentiation;
  eat_loop (fun val =>
    star ← eat Tok.Star;
    if (star : bool) then rhs ← parse_exponentiation; mret (inl (wrapping_mul val rhs))
    else slash ← eat Tok.Slash;
    if (slash : bool) then
      rhs ← parse_exponentiation;
      if rhs =? 0 then v ← arith_error #"division by 0"; mret (inl v) else mret (inl (wrapping_div val rhs))
    else percent ← eat Tok.Percent;
    if (percent : bool) then
      rhs ← parse_exponentiation;
      if rhs =? 0 then v ← arith_error #"division by 0"; mret (inl v) else mret (inl (wrapping_rem val rhs))
    else mret (inr val)) val.

Definition parse_additive : ax Z :=
  val ← parse_multiplicative;
  eat_loop (fun val =>
    plus ← eat Tok.Plus;
    if (plus : bool) then rhs ← parse_multiplicative; mret (inl (wrapping_add val rhs))
    else minus ← eat Tok.Minus;
    if (minus : bool) then rhs ← parse_multiplicative; mret (inl (wrapping_sub val rhs))
    else mret (inr val)) val.

Definition parse_shift : ax Z :=
  val ← parse_additive;
  eat_loop (fun val =>
    l ← eat Tok.LShift;
    if (l : bool) then rhs ← parse_additive; mret (inl (wrapping_shl val rhs))
    else r ← eat Tok.RShift;
    if (r : bool) then rhs ← parse_additive; mret (inl (wrapping_shr val rhs))
    else mret (inr val)) val.

Definition parse_relational : ax Z :=
  val ← parse_shift;
  eat_loop (fun val =>
    lt ← eat Tok.Lt;
    if (lt : bool) then rhs ← parse_shift; mret (inl (from_bool (val <? rhs)))
    else gt ← eat Tok.Gt;
    if (gt : bool) then rhs ← parse_shift; mret (inl (from_bool (rhs <? val)))
    else le ← eat Tok.Le;
    if (le : bool) then rhs ← parse_shift; mret (inl (from_bool (val <=? rhs)))
    else ge ← eat Tok.Ge;
    if (ge : bool) then rhs ← parse_shift; mret (inl (from_bool (rhs <=? val)))
    else mret (inr val)) val.

Definition parse_equality : ax Z :=
  val ← parse_relational;
  eat_loop (fun val =>
    eq ← eat Tok.EqEq;
    if (eq : bool) then rhs ← parse_relational; mret (inl (from_bool (val =? rhs)))
    else ne ← eat Tok.Ne;
    if (ne : bool) then rhs ← parse_relational; mret (inl (from_bool (negb (val =? rhs))))
    else mret (inr val)) val.

Definition parse_bitwise_and : ax Z :=
  val ← parse_equality;
  eat_loop (fun val => b ← eat Tok.Amp; if (b : bool) then rhs ← parse_equality; mret (inl (Z.land val rhs)) else mret (inr val)) val.

Definition parse_bitwise_xor : ax Z :=
  val ← parse_bitwise_and;
  eat_loop (fun val => b ← eat Tok.Caret; if (b : bool) then rhs ← parse_bitwise_and; mret (inl (Z.lxor val rhs)) else mret (inr val)) val.

Definition parse_bitwise_or : ax Z :=
  val ← parse_bitwise_xor;
  eat_loop (fun val => b ← eat Tok.Pipe; if (b : bool) then rhs ← parse_bitwise_xor; mret (inl (Z.lor val rhs)) else mret (inr val)) val.

Definition parse_logical_and : ax Z :=
  val ← parse_bitwise_or;
  eat_loop (fun val =>
    b ← eat Tok.AmpAmp;
    if (b : bool) then rhs ← parse_bitwise_or; mret (inl (from_bool (negb (val =? 0) && negb (rhs =? 0)))) else mret (inr val)) val.

Definition parse_logical_or : ax Z :=
  val ← parse_logical_and;
  eat_loop (fun val =>
    b ← eat Tok.PipePipe;
    if (b : bool) then rhs ← parse_logical_and; mret (inl (from_bool (negb (val =? 0) || negb (rhs =? 0)))) else mret (inr val)) val.

Definition parse_ternary : ax Z :=
  cond ← parse_logical_or;
  q ← eat Tok.Question;
  if (q : bool) then
    then_val ← parse_assign;
    _ ← eat Tok.Colon;
    else_val ← parse_assign;
    mret (if negb (cond =? 0) then then_val else else_val)
  else mret cond.

(** [parse_assign] once the level is entered. *)
Definition assign_inner : ax Z :=
  t ← arith_peek;
  match t with
  | Some (Tok.Ident name) =>
      s ← get;
      _ ← arith_bump;
      r ← try_compound_assign name;
      match r with
      | Some result => mret result
      | None => _ ← modify (set_ap_pos (ap_pos s)); parse_ternary
      end
  | _ => parse_ternary
  end.

Definition exponentiation_inner : ax Z :=
  base ← parse_unary;
  b ← eat Tok.StarStar;
  if (b : bool) then exp ← parse_exponentiation; mret (wrapping_pow base exp) else mret base.

Definition parse_pre_incdec (delta : Z) : ax Z :=
  _ ← arith_bump;
  t ← arith_peek;
  match t with
  | Some (Tok.Ident name) =>
      _ ← arith_bump; cur ← var_get name; var_set name (wrapping_add cur delta)
  | _ => mret 0
  end.

Definition parse_primary : ax Z :=
  t ← arith_peek;
  match t with
  | Some (Tok.Number n) => _ ← arith_bump; mret n
  | Some (Tok.Ident name) =>
      _ ← arith_bump;
      next ← arith_peek;
      match next with
      | Some Tok.PlusPlus => _ ← arith_bump; cur ← var_get name; _ ← var_set name (wrapping_add cur 1); mret cur
      | Some Tok.MinusMinus => _ ← arith_bump; cur ← var_get name; _ ← var_set name (wrapping_sub cur 1); mret cur
      | _ => var_get name
      end
  | Some Tok.LParen =>
      _ ← arith_bump;
      val ← parse_expr;
      _ ← eat Tok.RParen;
      mret val
  | _ =>
      s ← get;
      _ ← (if (ap_pos s <? length (ap_tokens s))%nat then arith_bump else mret tt);
      mret 0
  end.

Definition parse_postfix : ax Z := parse_primary.

Definition parse_unary_inner : ax Z :=
  t ← arith_peek;
  match t with
  | Some Tok.Bang => _ ← arith_bump; v ← parse_unary; mret (from_bool (v =? 0))
  | Some Tok.Tilde => _ ← arith_bump; v ← parse_unary; mret (Z.lnot v)
  | Some Tok.Plus => _ ← arith_bump; parse_unary
  | Some Tok.Minus => _ ← arith_bump; v ← parse_unary; mret (wrapping_neg v)
  | Some Tok.PlusPlus => parse_pre_incdec 1
  | Some Tok.MinusMinus => parse_pre_incdec (-1)
  | _ => parse_postfix
  end.
End level.

(** The depth guard around a level, [exit_depth] at each of its returns. *)
Definition guarded (body : ax Z) : ax Z :=
  ok ← enter_depth;
  if (ok : bool) then r ← body; _ ← exit_depth; mret r else mret 0.

Fixpoint parse_assign (fuel : nat) : ax Z :=
  match fuel with
  | O => panic "out of levels"
  | S f => fun s => guarded (assign_inner (parse_assign f) (parse_exponentiation f)) s
  end
with parse_exponentiation (fuel : nat) : ax Z :=
  match fuel with
  | O => panic "out of levels"
  | S f => fun s => guarded (exponentiation_inner (parse_exponentiation f) (parse_unary f)) s
  end
with parse_unary (fuel : nat) : ax Z :=
  match fuel with
  | O => panic "out of levels"
  | S f => fun s => guarded (parse_unary_inner (parse_assign f) (parse_unary f)) s
  end.

(** One level more than [MAX_ARITH_DEPTH]. *)
Definition arith_levels : nat := 65.

(** Run on a new parser over the shell state. *)
Definition with_parser (tokens : list ArithToken) (m : ax Z) : ex Z := fun st =>
  let '(s, r) := m (ArithParser_new tokens st) in (ap_state s, r).

Definition eval_arithmetic (expand_parameter : str -> ex str) (expr : str) : ex Z :=
  tokens ← arith_tokenize expand_parameter (trim expr);
  match tokens with
  | [] => mret 0
  | _ => with_parser tokens (parse_expr (parse_assign arith_levels))
  end.
End parser.
