(* ===== verification/ArithProps.v ===== *)
(** * Arithmetic: integers and totality

    The 64-bit operations, and that evaluation returns a 64-bit value on every
    expression. *)

From S2P Require Import Prelude Strings IndexMap State Lexer LexerProps WordParser WordParserProps Arith.

(** ** 64-bit integers *)

Definition i64 (z : Z) : Prop := - 2 ^ 63 <= z < 2 ^ 63.

Lemma wrap64_i64 z : i64 (wrap64 z).
Proof. unfold i64, wrap64. pose proof (Z.mod_pos_bound (z + 2 ^ 63) (2 ^ 64)). lia. Qed.

Lemma wrap64_id z : i64 z -> wrap64 z = z.
Proof. unfold i64, wrap64. intros. rewrite Z.mod_small; lia. Qed.

Lemma wrap64_eq a b : (a - b) mod 2 ^ 64 = 0 -> wrap64 a = wrap64 b.
Proof.
  intros Hd. unfold wrap64. f_equal. apply Z.mod_divide in Hd as [k Hk]; [|lia].
  replace (a + 2 ^ 63) with (b + 2 ^ 63 + k * 2 ^ 64) by lia. apply Z.mod_add. lia.
Qed.

Lemma wrap64_diff z : exists k, wrap64 z = z + k * 2 ^ 64.
Proof.
  unfold wrap64. exists (- ((z + 2 ^ 63) / 2 ^ 64)). pose proof (Z.div_mod (z + 2 ^ 63) (2 ^ 64)). lia.
Qed.

(** Multiplication of wrapped factors wraps to the product. *)
Lemma wrapping_mul_wrap a b : wrapping_mul (wrap64 a) (wrap64 b) = wrap64 (a * b).
Proof.
  unfold wrapping_mul. destruct (wrap64_diff a) as [k ->], (wrap64_diff b) as [l ->].
  apply wrap64_eq. replace ((a + k * 2 ^ 64) * (b + l * 2 ^ 64) - a * b)
    with ((k * b + l * a + k * l * 2 ^ 64) * 2 ^ 64) by lia. apply Z.mod_mul. lia.
Qed.

Lemma pow_loop_spec n exp result b : 0 <= exp < 2 ^ Z.of_nat n ->
  pow_loop n exp (wrap64 result) (wrap64 b) = wrap64 (result * b ^ exp).
Proof.
  revert exp result b. induction n as [|n IH]; intros exp result b He.
  - assert (exp = 0) as -> by (simpl in He; lia). cbn [pow_loop]. by rewrite Z.mul_1_r.
  - cbn [pow_loop]. destruct (Z.ltb_spec 0 exp) as [Hp|]; [|assert (exp = 0) as -> by lia; by rewrite Z.mul_1_r].
    rewrite !wrapping_mul_wrap. change (Z.land exp 1) with (Z.land exp (Z.ones 1)). rewrite Z.land_ones, Z.shiftr_div_pow2 by lia.
    change (2 ^ 1) with 2. rewrite Nat2Z.inj_succ, Z.pow_succ_r in He by lia.
    pose proof (Z.div_mod exp 2). pose proof (Z.mod_pos_bound exp 2).
    assert (Hsq : forall k, 0 <= k -> (b * b) ^ k = b ^ (2 * k)) by (intros; by rewrite Z.pow_mul_r, Z.pow_2_r by lia).
    destruct (Z.eqb_spec (exp mod 2) 1) as [H1|H1].
    + rewrite IH by lia. rewrite Hsq by lia. f_equal.
      assert (b ^ exp = b * b ^ (2 * (exp / 2))) as ->; [|ring].
      rewrite <-Z.pow_succ_r by lia. f_equal. lia.
    + rewrite IH by lia. rewrite Hsq by lia. do 3 f_equal. lia.
Qed.

Lemma wrapping_pow_spec b e : i64 b -> i64 e -> wrapping_pow b e = if e <? 0 then 0 else wrap64 (b ^ e).
Proof.
  intros Hb He. unfold wrapping_pow. destruct (Z.ltb_spec e 0); [done|].
  pose proof (pow_loop_spec 64 e 1 b) as Hp. rewrite (wrap64_id 1), (wrap64_id b), Z.mul_1_l in Hp; [|done|unfold i64; lia].
  apply Hp. unfold i64 in He. lia.
Qed.

(** A 64-bit integer has only copies of its sign above bit 62. *)
Lemma i64_bits z : i64 z <-> forall n, 63 <= n -> Z.testbit z n = Z.testbit z 63.
Proof.
  split.
  - intros Hz n Hn. rewrite !Z.testbit_eqb by lia.
    assert (Hdiv : forall m, 63 <= m -> z / 2 ^ m = if z <? 0 then -1 else 0).
    { intros m Hm. pose proof (Z.pow_le_mono_r 2 63 m). unfold i64 in Hz. destruct (Z.ltb_spec z 0).
      - symmetry. apply (Z.div_unique_pos _ _ _ (z + 2 ^ m)); lia.
      - apply Z.div_small. lia. }
    by rewrite !Hdiv by lia.
  - intros Hbits. unfold i64. destruct (decide (z < 0)) as [Hneg|Hpos].
    + assert (Z.testbit z 63 = true) as H63.
      { destruct (decide (z < - 2 ^ 63)) as [Hlt|].
        - specialize (Hbits (Z.log2 (- z) + 64)). rewrite <-Hbits by (pose proof (Z.log2_nonneg (- z)); lia).
          apply Z.bits_above_log2_neg; [lia|]. pose proof (Z.log2_le_mono (Z.pred (- z)) (- z)). lia.
        - rewrite Z.testbit_eqb by lia. replace (z / 2 ^ 63) with (-1); [done|].
          apply (Z.div_unique_pos _ _ _ (z + 2 ^ 63)); lia. }
      split; [|lia]. assert (0 <= Z.lnot z < 2 ^ 63); [|unfold Z.lnot in *; lia].
      split; [unfold Z.lnot; lia|]. destruct (decide (Z.lnot z = 0)) as [->|]; [lia|].
      apply Z.log2_lt_pow2; [unfold Z.lnot in *; lia|]. destruct (decide (63 <= Z.log2 (Z.lnot z))) as [Hl|]; [|lia].
      pose proof (Z.bit_log2 (Z.lnot z) ltac:(unfold Z.lnot in *; lia)) as Hb. rewrite Z.lnot_spec in Hb by lia.
      rewrite Hbits in Hb by done. by rewrite H63 in Hb.
    + split; [lia|]. destruct (decide (z = 0)) as [->|]; [lia|]. apply Z.log2_lt_pow2; [lia|].
      destruct (decide (63 <= Z.log2 z)) as [Hl|]; [|lia]. pose proof (Z.bit_log2 z ltac:(lia)) as Hb.
      rewrite Hbits, <-(Hbits (Z.succ (Z.log2 z))) in Hb by lia. rewrite Z.bits_above_log2 in Hb by lia. done.
Qed.

Lemma i64_bitwise (f : Z -> Z -> Z) (g : bool -> bool -> bool) a b :
  (forall n, 0 <= n -> Z.testbit (f a b) n = g (Z.testbit a n) (Z.testbit b n)) -> i64 a -> i64 b -> i64 (f a b).
Proof.
  intros Hf Ha Hb. rewrite i64_bits in *. intros n Hn. rewrite !Hf, Ha, Hb by lia. done.
Qed.

Lemma i64_land a b : i64 a -> i64 b -> i64 (Z.land a b).
Proof. apply (i64_bitwise _ andb). intros. apply Z.land_spec. Qed.
Lemma i64_lor a b : i64 a -> i64 b -> i64 (Z.lor a b).
Proof. apply (i64_bitwise _ orb). intros. apply Z.lor_spec. Qed.
Lemma i64_lxor a b : i64 a -> i64 b -> i64 (Z.lxor a b).
Proof. apply (i64_bitwise _ xorb). intros. apply Z.lxor_spec. Qed.
Lemma i64_lnot a : i64 a -> i64 (Z.lnot a).
Proof. unfold i64, Z.lnot. lia. Qed.
Lemma i64_from_bool b : i64 (from_bool b).
Proof. unfold i64. destruct b; cbn; lia. Qed.
Lemma i64_0 : i64 0.
Proof. unfold i64. lia. Qed.

Lemma i64_rem a b : i64 a -> b <> 0 -> i64 (wrapping_rem a b).
Proof.
  unfold i64, wrapping_rem. intros Ha Hb. pose proof (Z.rem_abs a b Hb) as Hr.
  pose proof (Z.rem_le (Z.abs a) (Z.abs b) ltac:(lia) ltac:(lia)). rewrite Hr in *.
  destruct (decide (0 <= a)); [lia|]. pose proof (Z.rem_nonpos a b Hb ltac:(lia)). lia.
Qed.

Lemma shift_amount_range r : 0 <= shift_amount r < 64.
Proof.
  unfold shift_amount. change 63 with (Z.ones 6). rewrite Z.land_ones by lia. change 64 with (2 ^ 6).
  apply Z.mod_pos_bound. lia.
Qed.

Lemma i64_shr a r : i64 a -> i64 (wrapping_shr a r).
Proof.
  intros Ha. unfold wrapping_shr. pose proof (shift_amount_range r). rewrite i64_bits in *. intros n Hn.
  rewrite !Z.shiftr_spec by lia. rewrite (Ha (n + _)) by lia. symmetry. apply Ha. lia.
Qed.

Lemma i64_pow_loop n e r b : i64 r -> i64 (pow_loop n e r b).
Proof.
  revert e r b. induction n as [|n IH]; intros e r b Hr; cbn [pow_loop]; [done|].
  destruct (0 <? e); [|done]. apply IH. destruct (_ =? 1); [apply wrap64_i64|done].
Qed.

Lemma i64_pow b e : i64 (wrapping_pow b e).
Proof. unfold wrapping_pow. destruct (e <? 0); [apply i64_0|]. apply i64_pow_loop. unfold i64. lia. Qed.

Create HintDb i64.
#[export] Hint Resolve wrap64_i64 i64_land i64_lor i64_lxor i64_lnot i64_from_bool i64_0 i64_rem i64_shr i64_pow : i64.

Lemma i64_compound op cur rhs : i64 cur -> i64 rhs -> i64 (apply_compound_op op cur rhs).
Proof.
  intros Hc Hr. unfold apply_compound_op, wrapping_add, wrapping_sub, wrapping_mul, wrapping_div, wrapping_shl.
  destruct op; auto with i64; destruct (Z.eqb_spec rhs 0); auto with i64.
Qed.

Lemma i64_parse s n : parse_i64 s = Some n -> i64 n.
Proof.
  assert (Hr : forall m n, in_range I64_MIN I64_MAX m = Some n -> i64 n).
  { intros m k. unfold in_range. case_split; [|done]. intros [= <-]. bool_to_prop. unfold I64_MIN, I64_MAX, i64 in *. lia. }
  unfold parse_i64, parse_signed. destruct s as [|c s]; [done|].
  destruct (decide (c = "+"%char)), (decide (c = "-"%char));
    (destruct (parse_digits _) eqn:?; cbn; [|done]); apply Hr.
Qed.

Lemma i64_default_parse s : i64 (default 0 (parse_i64 s)).
Proof. destruct (parse_i64 s) eqn:E; cbn; [by eapply i64_parse|apply i64_0]. Qed.
#[export] Hint Resolve i64_compound i64_default_parse : i64.

(** ** Runs of the evaluator *)

Section runs.
Context `{Target} (clock : Z).

Abbreviation ax := (comp ArithParser stop).

(** [m] does not panic on [s], and if it returns then with [Q]. *)
Definition aw {A} (m : ax A) (s : ArithParser) (Q : ArithParser -> A -> Prop) : Prop :=
  match m s with
  | (s', Ok a) => Q s' a
  | (_, Err _) => True
  | (_, Panic _) => False
  end.

Lemma aw_bind {A B} (m : ax A) (k : A -> ax B) s Q : aw m s (fun s' a => aw (k a) s' Q) -> aw (m ≫= k) s Q.
Proof. unfold aw, mbind, comp_bind. by destruct (m s) as [s' [a|e|w]]. Qed.

Lemma aw_ret {A} (a : A) s (Q : ArithParser -> A -> Prop) : Q s a -> aw (mret a) s Q.
Proof. done. Qed.

Lemma aw_weaken {A} (m : ax A) s (Q Q' : ArithParser -> A -> Prop) : aw m s Q -> (forall s' a, Q s' a -> Q' s' a) -> aw m s Q'.
Proof. unfold aw. destruct (m s) as [s' [a|e|w]]; eauto. Qed.

(** The parser later: same tokens and depth, not further back. *)
Definition later (s s' : ArithParser) : Prop :=
  ap_tokens s' = ap_tokens s /\ ap_depth s' = ap_depth s /\ (ap_pos s <= ap_pos s')%nat.

Definition numbers_ok (ts : list ArithToken) : Prop := forall n, Tok.Number n ∈ ts -> i64 n.

Definition ap_ok (s : ArithParser) : Prop := (ap_pos s <= length (ap_tokens s))%nat /\ numbers_ok (ap_tokens s).

Definition value_from (s : ArithParser) (s' : ArithParser) (v : Z) : Prop := later s s' /\ ap_ok s' /\ i64 v.

Lemma later_refl s : later s s.
Proof. by repeat split. Qed.

Lemma later_trans s s1 s2 : later s s1 -> later s1 s2 -> later s s2.
Proof. unfold later. intros (? & ? & ?) (? & ? & ?). repeat split; [congruence..|lia]. Qed.

Lemma arith_peek_aw s (Q : ArithParser -> option ArithToken -> Prop) : Q s (ap_tokens s !! ap_pos s) -> aw arith_peek s Q.
Proof. done. Qed.

Definition bumped (s : ArithParser) : ArithParser := set_ap_pos (S (ap_pos s)) s.

Lemma bumped_ok s t : ap_tokens s !! ap_pos s = Some t -> ap_ok s -> ap_ok (bumped s) /\ later s (bumped s).
Proof.
  intros Ht%lookup_lt_Some [_ Hn]. split; [split; [cbn; lia|done]|]. repeat split. cbn. lia.
Qed.

Lemma arith_bump_aw s (Q : ArithParser -> unit -> Prop) : Q (bumped s) tt -> aw arith_bump s Q.
Proof. done. Qed.

Lemma eat_aw t s (Q : ArithParser -> bool -> Prop) :
  (ap_tokens s !! ap_pos s = Some t -> Q (bumped s) true) -> (ap_tokens s !! ap_pos s <> Some t -> Q s false) -> aw (eat t) s Q.
Proof.
  intros Ht Hf. unfold eat. apply aw_bind, arith_peek_aw. case_decide as Hd; [|by apply aw_ret, Hf].
  apply aw_bind, arith_bump_aw, aw_ret. by apply Ht.
Qed.

Lemma on_state_aw {A} (m : ex A) s (Q : ArithParser -> A -> Prop) :
  (forall w, snd (m (ap_state s)) <> Panic w) ->
  (forall st a, Q (set_ap_state st s) a) -> aw (on_state m) s Q.
Proof. intros Hp HQ. unfold aw, on_state. destruct (m (ap_state s)) as [st [a|e|w]] eqn:E; [apply HQ|done|by destruct (Hp w)]. Qed.

Lemma var_get_aw name s (Q : ArithParser -> Z -> Prop) : (forall st v, i64 v -> Q (set_ap_state st s) v) -> aw (var_get clock name) s Q.
Proof.
  intros HQ. apply aw_bind, on_state_aw.
  - intros w. unfold get_var_ex. by destruct (get_var _ _ _).
  - intros st v. apply aw_ret, HQ. destruct v; cbn; auto with i64.
Qed.

Lemma var_set_aw name v s (Q : ArithParser -> Z -> Prop) : (forall st, Q (set_ap_state st s) v) -> aw (var_set name v) s Q.
Proof.
  intros HQ. apply aw_bind, on_state_aw.
  - intros w. unfold set_var_ex. by destruct (set_var _ _ _).
  - intros st v'. by apply aw_ret.
Qed.

(** A loop whose rounds consume a token. *)
Lemma arith_iterate_aw n step val s0 s :
  (forall val s, later s0 s -> ap_ok s -> i64 val ->
     aw (step val) s (fun s' r => later s s' /\ ap_ok s' /\
       match r with inl v => i64 v /\ (ap_pos s < ap_pos s')%nat | inr v => i64 v end)) ->
  later s0 s -> ap_ok s -> i64 val -> (length (ap_tokens s) < ap_pos s + n)%nat ->
  aw (arith_iterate n step val) s (value_from s0).
Proof.
  intros Hstep. revert val s. induction n as [|n IH]; intros val s Hl Hok Hv Hn; [destruct Hok; lia|].
  cbn [arith_iterate]. apply aw_bind. eapply aw_weaken; [by apply Hstep|]. intros s' [v|v] (Hl' & Hok' & Hr); cbn beta iota.
  - destruct Hr as [Hi Hlt]. apply IH; [by eapply later_trans|done|done|]. destruct Hl' as (-> & _ & _). lia.
  - apply aw_ret. split; [by eapply later_trans|done].
Qed.

Lemma eat_loop_aw step val s0 s :
  (forall val s, later s0 s -> ap_ok s -> i64 val ->
     aw (step val) s (fun s' r => later s s' /\ ap_ok s' /\
       match r with inl v => i64 v /\ (ap_pos s < ap_pos s')%nat | inr v => i64 v end)) ->
  later s0 s -> ap_ok s -> i64 val -> aw (eat_loop step val) s (value_from s0).
Proof. intros Hs Hl Hok Hv. unfold eat_loop. apply aw_bind. unfold aw, get. apply arith_iterate_aw; try done. lia. Qed.

(** ** Levels of binary operators *)

(** The operators of one level: their tokens and what is done with both values. *)
Abbreviation binops := (list (ArithToken * (Z -> Z -> comp ArithParser stop (Z + Z)))).

Fixpoint bin_step (ops : binops) (next : ax Z) (val : Z) : ax (Z + Z) :=
  match ops with
  | [] => mret (inr val)
  | (t, f) :: ops' => b ← eat t; if (b : bool) then rhs ← next; f val rhs else bin_step ops' next val
  end.

Definition bin_level (ops : binops) (next : ax Z) : ax Z := val ← next; eat_loop (bin_step ops next) val.

Definition pure_op (f : Z -> Z -> Z) : Z -> Z -> ax (Z + Z) := fun a b => mret (inl (f a b)).

Definition div_op (f : Z -> Z -> Z) : Z -> Z -> ax (Z + Z) := fun a b =>
  if b =? 0 then v ← arith_error #"division by 0"; mret (inl v) else mret (inl (f a b)).

Definition mul_ops : binops :=
  [(Tok.Star, pure_op wrapping_mul); (Tok.Slash, div_op wrapping_div); (Tok.Percent, div_op wrapping_rem)].
Definition add_ops : binops := [(Tok.Plus, pure_op wrapping_add); (Tok.Minus, pure_op wrapping_sub)].
Definition shift_ops : binops := [(Tok.LShift, pure_op wrapping_shl); (Tok.RShift, pure_op wrapping_shr)].
Definition rel_ops : binops :=
  [(Tok.Lt, pure_op (fun a b => from_bool (a <? b))); (Tok.Gt, pure_op (fun a b => from_bool (b <? a)));
   (Tok.Le, pure_op (fun a b => from_bool (a <=? b))); (Tok.Ge, pure_op (fun a b => from_bool (b <=? a)))].
Definition eq_ops : binops :=
  [(Tok.EqEq, pure_op (fun a b => from_bool (a =? b))); (Tok.Ne, pure_op (fun a b => from_bool (negb (a =? b))))].
Definition band_ops : binops := [(Tok.Amp, pure_op Z.land)].
Definition xor_ops : binops := [(Tok.Caret, pure_op Z.lxor)].
Definition bor_ops : binops := [(Tok.Pipe, pure_op Z.lor)].
Definition land_ops : binops := [(Tok.AmpAmp, pure_op (fun a b => from_bool (negb (a =? 0) && negb (b =? 0))))].
Definition lor_ops : binops := [(Tok.PipePipe, pure_op (fun a b => from_bool (negb (a =? 0) || negb (b =? 0))))].

(** The tower of binary levels, from the loosest. *)
Definition bin_tower : list binops :=
  [lor_ops; land_ops; bor_ops; xor_ops; band_ops; eq_ops; rel_ops; shift_ops; add_ops; mul_ops].

Definition tower (levels : list binops) (pe : ax Z) : ax Z := foldr bin_level pe levels.

(** The source spells the ten levels out. *)
Lemma parse_logical_or_tower pe : parse_logical_or pe = tower bin_tower pe.
Proof. reflexivity. Qed.

(** Operators return 64-bit values and leave the cursor. *)
Definition op_ok (f : Z -> Z -> ax (Z + Z)) : Prop := forall a b s, i64 a -> i64 b ->
  aw (f a b) s (fun s' r => ap_pos s' = ap_pos s /\ ap_tokens s' = ap_tokens s /\ ap_depth s' = ap_depth s /\
    match r with inl v => i64 v | inr _ => False end).

Lemma pure_op_ok f : (forall a b, i64 a -> i64 b -> i64 (f a b)) -> op_ok (pure_op f).
Proof. intros Hf a b s Ha Hb. apply aw_ret. eauto. Qed.

Lemma div_op_ok f : (forall a b, i64 a -> b <> 0 -> i64 (f a b)) -> op_ok (div_op f).
Proof.
  intros Hf a b s Ha Hb. unfold div_op. destruct (Z.eqb_spec b 0) as [->|Hz]; apply aw_ret; split_and!; auto with i64.
Qed.

Lemma bin_tower_ok : Forall (Forall (fun tf => op_ok (snd tf))) bin_tower.
Proof.
  unfold bin_tower, lor_ops, land_ops, bor_ops, xor_ops, band_ops, eq_ops, rel_ops, shift_ops, add_ops, mul_ops.
  repeat apply Forall_cons_2; try apply Forall_nil_2; cbn [snd];
    (apply pure_op_ok + apply div_op_ok); unfold wrapping_add, wrapping_sub, wrapping_mul, wrapping_div, wrapping_shl; auto with i64.
Qed.

(** A parsing function at depth [d]. *)
Definition good (d : Z) (m : ax Z) : Prop := forall s, ap_ok s -> ap_depth s = d -> aw m s (value_from s).

Lemma bin_step_aw d ops next val s : good d next -> Forall (fun tf => op_ok (snd tf)) ops -> ap_ok s -> ap_depth s = d -> i64 val ->
  aw (bin_step ops next val) s (fun s' r => later s s' /\ ap_ok s' /\
    match r with inl v => i64 v /\ (ap_pos s < ap_pos s')%nat | inr v => i64 v end).
Proof.
  intros Hnext Hops Hok Hd Hv. induction Hops as [|[t f] ops Hf Hops IH]; cbn [bin_step].
  - apply aw_ret. split; [apply later_refl|done].
  - apply aw_bind, eat_aw; [|by intros _]. intros Ht. destruct (bumped_ok s t Ht Hok) as [Hok1 Hl1].
    apply aw_bind. eapply aw_weaken; [by apply Hnext|]. intros s2 rhs (Hl2 & Hok2 & Hr).
    eapply aw_weaken; [by apply Hf|]. intros s3 r (Hp & Hts & Hdep & Hres). destruct r as [v|v]; [|done].
    destruct Hl2 as (Ht2 & Hd2 & Hp2). cbn in Hp2, Ht2, Hd2. unfold later, ap_ok in *. rewrite Hts, Hp, Hdep.
    split_and!; [congruence..|lia|apply Hok2|apply Hok2|done|lia].
Qed.

Lemma bin_level_good d ops next : good d next -> Forall (fun tf => op_ok (snd tf)) ops -> good d (bin_level ops next).
Proof.
  intros Hnext Hops s Hok Hd. apply aw_bind. eapply aw_weaken; [by apply Hnext|]. intros s1 v (Hl & Hok1 & Hv).
  apply eat_loop_aw; try done. intros val s2 Hl2 Hok2 Hval. apply (bin_step_aw d); try done. destruct Hl2 as (_ & -> & _). done.
Qed.

Lemma tower_good d pe levels : good d pe -> Forall (Forall (fun tf => op_ok (snd tf))) levels -> good d (tower levels pe).
Proof. intros Hpe Hl. induction Hl as [|ops levels Ho Hl IH]; cbn; [done|]. by apply bin_level_good. Qed.

(** ** The recursive levels *)

(** [body] runs one level further down. *)
Lemma guarded_good d body : 0 <= d -> (d < MAX_ARITH_DEPTH -> good (d + 1) body) -> good d (guarded body).
Proof.
  intros Hd0 Hbody s Hok Hd. unfold guarded, aw, mbind, comp_bind, enter_depth. rewrite Hd.
  destruct (Z.leb_spec MAX_ARITH_DEPTH d) as [|Hlt]; [split_and!; [done..|apply i64_0]|].
  specialize (Hbody Hlt (set_ap_depth (d + 1) s) Hok eq_refl). unfold aw in Hbody.
  destruct (body _) as [s' [v|e|w]]; [|done..]. destruct Hbody as ((Ht & Hd' & Hp) & Hok' & Hv).
  cbn in *. split_and!; [|done..]. repeat split; cbn; [done| |done]. rewrite Hd'. unfold sat_sub. lia.
Qed.

Lemma value_from_later s s1 s' v : later s s1 -> value_from s1 s' v -> value_from s s' v.
Proof. intros Hl (Hl' & Hok & Hv). split; [by eapply later_trans|done]. Qed.

Lemma aw_value s s1 (m : ax Z) : later s s1 -> aw m s1 (value_from s1) -> aw m s (value_from s) \/ aw m s1 (value_from s).
Proof. intros Hl Hm. right. eapply aw_weaken; [done|]. intros. by eapply value_from_later. Qed.

(** Continue with [m] from a later parser, then with the value. *)
Lemma good_then {B} d (m : ax Z) (k : Z -> ax B) s s1 (Q : ArithParser -> B -> Prop) :
  good d m -> later s s1 -> ap_ok s1 -> ap_depth s = d ->
  (forall s2 v, later s s2 -> ap_ok s2 -> i64 v -> aw (k v) s2 Q) -> aw (m ≫= k) s1 Q.
Proof.
  intros Hm Hl Hok Hd Hk. apply aw_bind. eapply aw_weaken; [apply Hm; [done|]|].
  - destruct Hl as (_ & -> & _). done.
  - intros s2 v (Hl2 & Hok2 & Hv). apply Hk; [by eapply later_trans|done..].
Qed.

Lemma good_last d m s s1 : good d m -> later s s1 -> ap_ok s1 -> ap_depth s = d -> aw m s1 (value_from s).
Proof.
  intros Hm Hl Hok Hd. eapply aw_weaken; [apply Hm; [done|by destruct Hl as (_ & -> & _)]|]. intros. by eapply value_from_later.
Qed.

Lemma ret_value (v : Z) s s1 : later s s1 -> ap_ok s1 -> i64 v -> aw (mret v) s1 (value_from s).
Proof. done. Qed.

Lemma eat_then {B} t (k : bool -> ax B) s s1 (Q : ArithParser -> B -> Prop) : later s s1 -> ap_ok s1 ->
  (forall b s2, later s s2 -> ap_ok s2 -> aw (k b) s2 Q) -> aw (eat t ≫= k) s1 Q.
Proof.
  intros Hl Hok Hk. apply aw_bind, eat_aw; [|intros _; by apply Hk]. intros Ht. destruct (bumped_ok s1 t Ht Hok).
  apply Hk; [by eapply later_trans|done].
Qed.

(** Consume the token that was seen. *)
Lemma bump_then {B} t (k : unit -> ax B) s s1 (Q : ArithParser -> B -> Prop) : ap_tokens s1 !! ap_pos s1 = Some t ->
  later s s1 -> ap_ok s1 -> (forall s2, later s s2 -> ap_ok s2 -> aw (k tt) s2 Q) -> aw (arith_bump ≫= k) s1 Q.
Proof.
  intros Ht Hl Hok Hk. apply aw_bind, arith_bump_aw. destruct (bumped_ok s1 t Ht Hok). apply Hk; [by eapply later_trans|done].
Qed.

Lemma peek_then {B} (k : option ArithToken -> ax B) s (Q : ArithParser -> B -> Prop) :
  (forall t, ap_tokens s !! ap_pos s = t -> aw (k t) s Q) -> aw (arith_peek ≫= k) s Q.
Proof. intros Hk. by apply aw_bind, arith_peek_aw, Hk. Qed.

Lemma var_get_then {B} name (k : Z -> ax B) s s1 (Q : ArithParser -> B -> Prop) : later s s1 -> ap_ok s1 ->
  (forall s2 v, later s s2 -> ap_ok s2 -> i64 v -> aw (k v) s2 Q) -> aw (var_get clock name ≫= k) s1 Q.
Proof. intros Hl Hok Hk. apply aw_bind, var_get_aw. intros st v Hv. by apply Hk. Qed.

Lemma var_set_then {B} name v (k : Z -> ax B) s s1 (Q : ArithParser -> B -> Prop) : later s s1 -> ap_ok s1 ->
  (forall s2, later s s2 -> ap_ok s2 -> aw (k v) s2 Q) -> aw (var_set name v ≫= k) s1 Q.
Proof. intros Hl Hok Hk. apply aw_bind, var_set_aw. intros st. by apply Hk. Qed.

Lemma var_get_last name s s1 : later s s1 -> ap_ok s1 -> aw (var_get clock name) s1 (value_from s).
Proof. intros Hl Hok. apply var_get_aw. intros st v Hv. done. Qed.

Lemma var_set_last name v s s1 : later s s1 -> ap_ok s1 -> i64 v -> aw (var_set name v) s1 (value_from s).
Proof. intros Hl Hok Hv. apply var_set_aw. intros st. done. Qed.

Section levels.
Context (d : Z) (pa pe pu : ax Z) (Hpa : good d pa) (Hpe : good d pe) (Hpu : good d pu).

Lemma parse_expr_good : good d (parse_expr pa).
Proof.
  intros s Hok Hd. eapply good_then; [done|apply later_refl|done..|]. intros s1 v Hl1 Hok1 Hv.
  apply eat_loop_aw; try done. intros val s2 Hl2 Hok2 Hval. apply aw_bind, eat_aw; [|by intros _].
  intros Ht. destruct (bumped_ok s2 _ Ht Hok2) as [Hok3 Hl3]. apply aw_bind.
  eapply aw_weaken; [apply Hpa; [done|]|].
  - cbn. by destruct Hl2 as (_ & -> & _).
  - intros s4 v4 ((Ht4 & Hd4 & Hp4) & Hok4 & Hv4). apply aw_ret. cbn in *. split; [split_and!; [done..|lia]|]. split; [done|]. split; [done|lia].
Qed.

Lemma parse_ternary_good : good d (parse_ternary pa pe).
Proof.
  intros s Hok Hd. unfold parse_ternary. rewrite parse_logical_or_tower.
  eapply (good_then d); [apply tower_good, bin_tower_ok; done|apply later_refl|done..|]. intros s1 c Hl1 Hok1 Hc.
  eapply eat_then; [done..|]. intros b s2 Hl2 Hok2. destruct b; [|by apply ret_value].
  eapply good_then; [done..|]. intros s3 v Hl3 Hok3 Hv. eapply eat_then; [done..|]. intros _ s4 Hl4 Hok4.
  eapply good_then; [done..|]. intros s5 w Hl5 Hok5 Hw. apply ret_value; [done..|]. by destruct (negb _).
Qed.

Lemma compound_aw name s s1 (Q : ArithParser -> option Z -> Prop) : ap_depth s = d -> later s s1 -> ap_ok s1 ->
  (forall s2 v, later s s2 -> ap_ok s2 -> i64 v -> Q s2 (Some v)) -> Q s1 None ->
  aw (try_compound_assign clock pa name) s1 Q.
Proof.
  intros Hd Hl1 Hok1 HSome HNone. apply peek_then. intros [op|] Hop; [|done]. destruct (is_assign_op op); cbn [negb]; [|done].
  eapply bump_then; [done..|]. intros s2 Hl2 Hok2. eapply good_then; [done..|]. intros s3 rhs Hl3 Hok3 Hrhs.
  assert (Hset : forall s4 result, later s s4 -> ap_ok s4 -> i64 result ->
    aw (v ← var_set name result; mret (Some v)) s4 Q).
  { intros s4 result Hl4 Hok4 Hres. eapply var_set_then; [done..|]. intros s5 Hl5 Hok5. by apply aw_ret, HSome. }
  apply aw_bind. case_decide; [by apply aw_ret, Hset|]. eapply var_get_then; [done..|]. intros s4 cur Hl4 Hok4 Hcur.
  apply aw_ret, Hset; auto with i64.
Qed.

Lemma assign_inner_good : good d (assign_inner clock pa pe).
Proof.
  intros s Hok Hd. apply peek_then. intros t Ht. destruct t as [[]|]; try by apply parse_ternary_good.
  apply aw_bind. unfold aw, get. eapply bump_then; [done|apply later_refl|done|]. intros s1 Hl1 Hok1.
  apply aw_bind. eapply compound_aw; [done..| |].
  - intros s2 v Hl2 Hok2 Hv. by apply ret_value.
  - apply aw_bind. unfold aw, modify. destruct Hl1 as (Ht1 & Hd1 & _).
    eapply good_last; [apply parse_ternary_good| | |done]; [by repeat split; cbn|].
    split; cbn; [rewrite Ht1; apply Hok|rewrite Ht1; apply Hok].
Qed.

Lemma exponentiation_inner_good : good d (exponentiation_inner pe pu).
Proof.
  intros s Hok Hd. eapply good_then; [apply Hpu|apply later_refl|done..|]. intros s1 b Hl1 Hok1 Hb.
  eapply eat_then; [done..|]. intros c s2 Hl2 Hok2. destruct c; [|by apply ret_value].
  eapply good_then; [done..|]. intros s3 v Hl3 Hok3 Hv. apply ret_value; auto with i64.
Qed.

Lemma parse_primary_good : good d (parse_primary clock pa).
Proof.
  intros s Hok Hd. apply peek_then. intros t Ht.
  assert (Hother : aw (s' ← get; _ ← (if (ap_pos s' <? length (ap_tokens s'))%nat then arith_bump else mret tt); mret 0 : ax Z) s (value_from s)).
  { apply aw_bind. unfold aw, get. apply aw_bind. destruct (Nat.ltb_spec (ap_pos s) (length (ap_tokens s))) as [Hlt|].
    - apply lookup_lt_is_Some_2 in Hlt as [t' Ht']. destruct (bumped_ok s t' Ht' Hok). apply arith_bump_aw, ret_value; auto with i64.
    - apply aw_ret, ret_value; auto using later_refl with i64. }
  destruct t as [[]|]; try exact Hother.
  - eapply bump_then; [done|apply later_refl|done|]. intros s1 Hl1 Hok1. apply ret_value; [done..|].
    apply (proj2 Hok). by eapply list_elem_of_lookup_2.
  - eapply bump_then; [done|apply later_refl|done|]. intros s1 Hl1 Hok1. apply peek_then. intros t1 Ht1.
    destruct t1 as [[]|]; try (by apply var_get_last);
      (eapply bump_then; [done..|]; intros s2 Hl2 Hok2; eapply var_get_then; [done..|]; intros s3 v Hl3 Hok3 Hv;
       eapply var_set_then; [done..|]; intros s4 Hl4 Hok4; by apply ret_value).
  - eapply bump_then; [done|apply later_refl|done|]. intros s1 Hl1 Hok1. eapply good_then; [apply parse_expr_good|done..|].
    intros s2 v Hl2 Hok2 Hv. eapply eat_then; [done..|]. intros _ s3 Hl3 Hok3. by apply ret_value.
Qed.

Lemma parse_pre_incdec_good delta t s : ap_tokens s !! ap_pos s = Some t -> ap_ok s ->
  aw (parse_pre_incdec clock delta) s (value_from s).
Proof.
  intros Ht Hok. eapply bump_then; [done|apply later_refl|done|]. intros s1 Hl1 Hok1. apply peek_then. intros t1 Ht1.
  destruct t1 as [[]|]; try (by apply ret_value; auto with i64).
  eapply bump_then; [done..|]. intros s2 Hl2 Hok2. eapply var_get_then; [done..|]. intros s3 v Hl3 Hok3 Hv.
  apply var_set_last; [done..|apply wrap64_i64].
Qed.

Lemma parse_unary_inner_good : good d (parse_unary_inner clock pa pu).
Proof.
  intros s Hok Hd. apply peek_then. intros t Ht.
  destruct t as [[]|]; try (by apply parse_primary_good); try (by eapply parse_pre_incdec_good);
    (eapply bump_then; [done|apply later_refl|done|]; intros s1 Hl1 Hok1).
  - by eapply good_last.
  - eapply good_then; [done..|]. intros. apply ret_value; [done..|apply wrap64_i64].
  - eapply good_then; [done..|]. intros. apply ret_value; auto with i64.
  - eapply good_then; [done..|]. intros. apply ret_value; auto with i64.
Qed.
End levels.

(** With a level of fuel for each level of depth that is left, and one more. *)
Lemma parse_good fuel : forall d, 0 <= d -> MAX_ARITH_DEPTH < d + Z.of_nat fuel -> d <= MAX_ARITH_DEPTH ->
  good d (parse_assign clock fuel) /\ good d (parse_exponentiation clock fuel) /\ good d (parse_unary clock fuel).
Proof.
  induction fuel as [|f IH]; intros d Hd0 Hf Hd; [unfold MAX_ARITH_DEPTH in *; lia|].
  assert (Hrec : d < MAX_ARITH_DEPTH -> good (d + 1) (parse_assign clock f) /\ good (d + 1) (parse_exponentiation clock f) /\
    good (d + 1) (parse_unary clock f)) by (intros; apply IH; lia).
  split_and!; (apply guarded_good; [done|]); intros Hlt; destruct (Hrec Hlt) as (? & ? & ?).
  - by apply assign_inner_good.
  - by apply exponentiation_inner_good.
  - by apply parse_unary_inner_good.
Qed.

(** The evaluator on any tokens. *)
Lemma parse_expr_total tokens st : numbers_ok tokens ->
  aw (parse_expr (parse_assign clock arith_levels)) (ArithParser_new tokens st) (fun _ v => i64 v).
Proof.
  intros Hn. destruct (parse_good arith_levels 0) as [Hg _]; [done..|].
  eapply aw_weaken; [apply (parse_expr_good 0 _ Hg); [split; [cbn; lia|done]|done]|]. by intros s' v (_ & _ & ?).
Qed.
End runs.

(** ** Tokenizing *)

(** [r] panics only for the reasons [P], and an [Ok] has [Q]. *)
Definition rw {E A} (P : string -> Prop) (r : res E A) (Q : A -> Prop) : Prop :=
  match r with Ok a => Q a | Err _ => True | Panic w => P w end.

Definition ew {A} (P : string -> Prop) (m : ex A) (st : ShellState) (Q : ShellState -> A -> Prop) : Prop :=
  let '(st', r) := m st in rw P r (Q st').

Lemma rw_bind {E A B} P (m : res E A) (k : A -> res E B) Q : rw P m (fun a => rw P (k a) Q) -> rw P (m ≫= k) Q.
Proof. by destruct m. Qed.

Lemma rw_weaken {E A} (P : string -> Prop) (m : res E A) (Q Q' : A -> Prop) : rw P m Q -> (forall a, Q a -> Q' a) -> rw P m Q'.
Proof. destruct m; cbn; eauto. Qed.

Lemma ew_bind {A B} P (m : ex A) (k : A -> ex B) st Q : ew P m st (fun st' a => ew P (k a) st' Q) -> ew P (m ≫= k) st Q.
Proof. unfold ew, mbind, comp_bind. by destruct (m st) as [st' [a|e|w]]. Qed.

Lemma ew_ret {A} P (a : A) st (Q : ShellState -> A -> Prop) : Q st a -> ew P (mret a) st Q.
Proof. done. Qed.

Lemma ew_lift {A} P (r : res stop A) st (Q : ShellState -> A -> Prop) : rw P r (Q st) -> ew P (lift_res r) st Q.
Proof. done. Qed.

Lemma ew_weaken {A} P (m : ex A) st (Q Q' : ShellState -> A -> Prop) : ew P m st Q -> (forall st a, Q st a -> Q' st a) -> ew P m st Q'.
Proof. unfold ew. destruct (m st) as [st' [a|e|w]]; cbn; eauto. Qed.

Definition boundary_panic : string := "byte index is not a char boundary".
Definition radix_panic : string := "from_str_radix_int: must lie in the range [2, 36]".

Section tokenizing.
Context (P : string -> Prop) (expand_parameter : list Ascii.ascii -> ex (list Ascii.ascii)).
Context (Hparam : forall name st, ew P (expand_parameter name) st (fun _ _ => True)).
Context (input : list Ascii.ascii).
Context (Hslice : utf8_shape input \/ P boundary_panic).
Context (Hradix : "#"%char ∉ input \/ P radix_panic).

Lemma slice_rw {E} a b (Q : str -> Prop) :
  (utf8_shape input -> (a <= b)%nat /\ boundary input a /\ boundary input b) -> Q (slice input a b) ->
  rw P (str_slice input a b : res E str) Q.
Proof.
  intros Hb HQ. unfold str_slice, rw. destruct (_ && _) eqn:Hg; [done|]. destruct Hslice as [Hu|HP]; [|exact HP].
  destruct (Hb Hu) as (Hle & Ha & Hb'). apply Nat.leb_le in Hle. unfold boundary in *. by rewrite Hle, Ha, Hb' in Hg.
Qed.

Abbreviation scan ok p := (advance_while input ok (rest_from input p) p).

Lemma scan_bounds ok p : (p <= length input)%nat -> (p <= scan ok p <= length input)%nat.
Proof. intros Hp. apply advance_while_stops. unfold rest_from. lia. Qed.

(** A scan over ASCII bytes that starts at a boundary ends at one. *)
Lemma scan_boundary ok p : utf8_shape input -> (forall b, ok b = true -> byte_val b < 128) -> boundary input p ->
  (p <= length input)%nat -> boundary input (scan ok p).
Proof.
  intros Hu Hok Hb Hp. pose proof (scan_bounds ok p Hp) as Hle. destruct (decide (scan ok p = p)) as [->|Hne]; [done|].
  destruct (advance_while_all input ok (rest_from input p) p (scan ok p - 1)) as (b & Hlk & Hbt); [lia|].
  replace (scan ok p) with (S (scan ok p - 1)) by lia. eapply boundary_after; [done..|]. by apply Hok.
Qed.

Lemma digit_ascii b : is_ascii_digit b = true -> byte_val b < 128.
Proof. unfold is_ascii_digit. lia. Qed.

Lemma ident_ascii b : is_ident_byte b = true -> byte_val b < 128.
Proof. apply is_ascii_byte_alnum. Qed.

Lemma ident_start_ascii b : is_ident_start b = true -> byte_val b < 128.
Proof.
  unfold is_ident_start, is_ascii_alphabetic. intros [H|H%bool_decide_eq_true]%orb_true_iff; [lia|by subst].
Qed.

Lemma hexdigit_ascii b : is_ascii_hexdigit b = true -> byte_val b < 128.
Proof.
  unfold is_ascii_hexdigit. intros [d Hd]%bool_decide_eq_true. unfold to_digit in Hd.
  destruct ((48 <=? byte_val b) && _) eqn:H1; [lia|]. destruct ((97 <=? byte_val b) && _) eqn:H2; [lia|].
  destruct ((65 <=? byte_val b) && _) eqn:H3; [lia|done].
Qed.

(** A token: the cursor has moved on and numbers have 64 bits. *)
Definition tok_ok (p : nat) (r : nat * list ArithToken) : Prop := (p < fst r)%nat /\ numbers_ok (snd r).

Lemma numbers_ok_nil : numbers_ok [].
Proof. intros n Hn%elem_of_nil. done. Qed.

Lemma numbers_ok_one n : i64 n -> numbers_ok [Tok.Number n].
Proof. by intros Hn m [= ->]%list_elem_of_singleton. Qed.

Lemma numbers_ok_op t : (forall n, t <> Tok.Number n) -> numbers_ok [t].
Proof. intros Ht n Hn%list_elem_of_singleton. by destruct (Ht n). Qed.

Lemma in_range_i64 m n : in_range I64_MIN I64_MAX m = Some n -> i64 n.
Proof. unfold in_range. case_split; [|done]. intros [= <-]. bool_to_prop. unfold I64_MIN, I64_MAX, i64 in *. lia. Qed.

Lemma radix_rw {E} radix s (Q : option Z -> Prop) : (2 <= radix <= 36 \/ P radix_panic) ->
  (forall r, (forall n, r = Some n -> i64 n) -> Q r) -> rw P (from_str_radix I64_MIN I64_MAX radix s : res E (option Z)) Q.
Proof.
  intros Hr HQ. unfold from_str_radix, rw. destruct (_ && _) eqn:Hg; [|destruct Hr as [Hr|]; [lia|done]].
  apply HQ. intros n Hn. destruct s as [|c s]; [done|].
  assert (Hb : forall (x : option Z) f, x ≫= (fun m => in_range I64_MIN I64_MAX (f m)) = Some n -> i64 n).
  { intros [m|] f; cbn; [|done]. apply in_range_i64. }
  case_decide; [|case_decide]; by eapply (Hb _ (fun m => m)) + eapply (Hb _ Z.opp).
Qed.

Lemma take_radix_rw {E} p ds pl radix pred first : (2 <= radix <= 36) -> (1 <= pl)%nat -> ds = (p + pl)%nat ->
  (forall b, pred b = true -> byte_val b < 128) -> input !! (p + pl - 1)%nat = Some first -> byte_val first < 128 ->
  rw P (arith_take_radix_number input p ds pl radix pred : res E (nat * Z)) (fun r => (p < fst r)%nat /\ i64 (snd r)).
Proof.
  intros Hr Hpl -> Hpred Hf Ha. unfold arith_take_radix_number. pose proof (lookup_lt_Some _ _ _ Hf).
  pose proof (scan_bounds pred (p + pl) ltac:(lia)). apply rw_bind, slice_rw.
  - intros Hu. assert (boundary input (p + pl)).
    { replace (p + pl)%nat with (S (p + pl - 1)) by lia. by eapply boundary_after. }
    split_and!; [lia|done|]. apply scan_boundary; [done..|lia].
  - apply rw_bind, radix_rw; [by left|]. intros r Hi. cbn. split; [lia|]. destruct r as [n|]; cbn; [by apply Hi|apply i64_0].
Qed.

Lemma prefixed_rw {E} p b : input !! p = Some b ->
  rw P (arith_tokenize_prefixed_number input p p b : res E _) (fun r => forall p' n, r = Some (p', n) -> (p < p')%nat /\ i64 n).
Proof.
  intros Hb. unfold arith_tokenize_prefixed_number. destruct (decide (b <> "0"%char)) as [|Hz]; [done|].
  destruct (input !! S p) as [next|] eqn:Hn; [|done]. apply dec_stable in Hz as ->.
  assert (Hwrap : forall m : res E (nat * Z), rw P m (fun r => (p < fst r)%nat /\ i64 (snd r)) ->
    rw P (r ← m; mret (Some r)) (fun r => forall p' n, r = Some (p', n) -> (p < p')%nat /\ i64 n)).
  { intros m Hm. apply rw_bind. eapply rw_weaken; [done|]. by intros [p1 n1] Hp p' n [= <- <-]. }
  case_decide as Hx; [|case_decide as Hbin; [|destruct (is_ascii_digit next) eqn:Hd; [|done]]]; apply Hwrap.
  - apply (take_radix_rw _ _ _ _ _ next); [lia..|apply hexdigit_ascii|by replace (p + 2 - 1)%nat with (S p) by lia|].
    by destruct Hx as [-> | ->].
  - apply (take_radix_rw _ _ _ _ _ next); [lia..| |by replace (p + 2 - 1)%nat with (S p) by lia|by destruct Hbin as [-> | ->]].
    intros c [-> | ->]%bool_decide_eq_true; done.
  - apply (take_radix_rw _ _ _ _ _ "0"%char); [lia..|apply digit_ascii|by replace (p + 1 - 1)%nat with p by lia|done].
Qed.

Lemma base_rw {E} p start : (start < p)%nat -> (p <= length input)%nat ->
  (utf8_shape input -> boundary input start /\ boundary input p) ->
  rw P (arith_tokenize_base_syntax input p start : res E _) (fun r => forall p' n, r = Some (p', n) -> (start < p')%nat /\ i64 n).
Proof.
  intros Hlt Hp Hb. unfold arith_tokenize_base_syntax. destruct (decide (input !! p <> Some _)) as [|Hh%dec_stable]; [done|].
  pose proof (lookup_lt_Some _ _ _ Hh). pose proof (scan_bounds is_ident_byte (S p) ltac:(lia)).
  assert (HP : P radix_panic). { destruct Hradix as [Hn|]; [|done]. destruct Hn. by eapply list_elem_of_lookup_2. }
  apply rw_bind, slice_rw; [intros Hu; destruct (Hb Hu); split_and!; [lia|done..]|].
  destruct (parse_unsigned _ _) as [base|]; [|done]. destruct (negb _); [done|].
  apply rw_bind, slice_rw.
  - intros Hu. assert (boundary input (S p)) by by eapply boundary_after. split_and!; [lia|done|].
    apply scan_boundary; [done|apply ident_ascii|done|lia].
  - apply rw_bind, radix_rw; [by right|]. intros r Hi p' n [= <- <-]. split; [lia|]. destruct r as [m|]; cbn; [by apply Hi|apply i64_0].
Qed.

Lemma number_rw {E} p b : input !! p = Some b -> is_ascii_digit b = true ->
  rw P (arith_tokenize_number input p b : res E _) (tok_ok p).
Proof.
  intros Hb Hd. pose proof (lookup_lt_Some _ _ _ Hb). apply rw_bind. eapply rw_weaken; [by apply prefixed_rw|].
  intros [[p' n]|] Hr; [destruct (Hr p' n eq_refl) as [? ?]; split; [done|by apply numbers_ok_one]|].
  pose proof (scan_bounds is_ascii_digit (S p) ltac:(lia)) as Hle.
  assert (Hbd : utf8_shape input -> boundary input p /\ boundary input (scan is_ascii_digit (S p))).
  { intros Hu. split; [eapply boundary_at; [done|by apply digit_ascii]|]. apply scan_boundary; [done|apply digit_ascii| |lia].
    eapply boundary_after; [done..|]. by apply digit_ascii. }
  apply rw_bind. eapply rw_weaken; [apply base_rw; [lia|lia|done]|]. intros [[p' n]|] Hr'.
  - destruct (Hr' p' n eq_refl). split; [done|by apply numbers_ok_one].
  - apply rw_bind, slice_rw; [intros Hu; destruct (Hbd Hu); split_and!; [lia|done..]|].
    split; [cbn; lia|]. apply numbers_ok_one, i64_default_parse.
Qed.

Lemma ident_rw {E} p b : input !! p = Some b -> is_ident_start b = true -> rw P (arith_tokenize_ident input p : res E _) (tok_ok p).
Proof.
  intros Hb Hs%ident_start_ascii. pose proof (lookup_lt_Some _ _ _ Hb). pose proof (scan_bounds is_ident_byte (S p) ltac:(lia)).
  apply rw_bind, slice_rw; [|split; [cbn; lia|by apply numbers_ok_op]].
  intros Hu. split_and!; [lia|by eapply boundary_at|]. apply scan_boundary; [done|apply ident_ascii|by eapply boundary_after|lia].
Qed.

Lemma brace_end_stops n i depth : (i <= length input <= i + n)%nat -> stops input i (dollar_brace_end input n i depth).
Proof.
  revert i depth. induction n as [|n IH]; intros i depth Hi; cbn [dollar_brace_end].
  - apply stops_end; [lia..|]. apply lookup_ge_None. lia.
  - destruct (input !! i) as [b|] eqn:Hb; [|apply stops_end; [lia..|done]]. pose proof (lookup_lt_Some _ _ _ Hb).
    assert (Hnext : forall d, stops input i (dollar_brace_end input n (S i) d)) by (intros; eapply stops_le, IH; lia).
    case_decide; [apply Hnext|]. case_decide as Hc; [|apply Hnext]. destruct (depth =? 1); [|apply Hnext].
    subst b. by eapply stops_at; [lia|done|].
Qed.

Lemma first_char_nonempty s ch : first_char s = Some ch -> (0 < length ch)%nat.
Proof. destruct s as [|c s]; [done|]. intros [= <-]. cbn. lia. Qed.

Lemma dollar_name_rw {E} p next : input !! S p = Some next -> input !! p = Some "$"%char ->
  rw P (arith_dollar_name input (S p) next : res E _) (fun r => forall p' name, r = Some (p', name) -> (p < p')%nat).
Proof.
  intros Hn Hd. pose proof (lookup_lt_Some _ _ _ Hn). unfold arith_dollar_name. case_decide as Hbr.
  - subst next. destruct (brace_end_stops (rest_from input (S (S p))) (S (S p)) 1) as [Hle Hb]; [unfold rest_from; lia|].
    set (i := dollar_brace_end _ _ _ _) in *. rewrite (Nat.min_l i) by lia.
    apply rw_bind, slice_rw; [|intros p' name [= <- <-]; destruct (length input); lia]. intros Hu. split_and!; [lia|by eapply boundary_after|done].
  - assert (Hb : utf8_shape input -> boundary input (S p)) by (intros; by eapply boundary_after).
    destruct (is_ascii_digit next) eqn:Hdig; [|destruct (is_ident_start next); [done|]].
    + pose proof (scan_bounds is_ascii_digit (S p) ltac:(lia)). apply rw_bind, slice_rw; [|intros p' name [= <- <-]; lia].
      intros Hu. split_and!; [lia|by apply Hb|]. apply scan_boundary; [done|apply digit_ascii|by apply Hb|lia].
    + apply rw_bind, slice_rw; [intros Hu; split_and!; [lia|by apply Hb|apply boundary_end]|].
      intros p' name [= <- <-]. lia.
Qed.

Lemma dollar_ew p st : input !! p = Some "$"%char -> ew P (arith_tokenize_dollar expand_parameter input p) st (fun _ => tok_ok p).
Proof.
  intros Hd. unfold arith_tokenize_dollar. destruct (input !! S p) as [next|] eqn:Hn.
  - apply ew_bind, ew_lift. eapply rw_weaken; [by apply dollar_name_rw|]. intros [[p' name]|] Hp.
    + apply ew_bind. eapply ew_weaken; [apply Hparam|]. intros st1 out _. apply ew_bind. unfold ew, take_nounset_error_ex.
      destruct (take_nounset_error st1) as [st2 r]. cbn. split; [by eapply Hp|]. apply numbers_ok_one, i64_default_parse.
    + split; [cbn; lia|apply numbers_ok_nil].
  - split; [cbn; lia|]. apply numbers_ok_one, i64_0.
Qed.

Lemma operator_ok p b : tok_ok p (arith_tokenize_operator input p b).
Proof.
  assert (Hop : forall k t, (forall n, t <> Tok.Number n) -> (0 < k)%nat -> tok_ok p ((p + k)%nat, [t]))
    by (intros k t Ht Hk; split; [cbn; lia|by apply numbers_ok_op]).
  assert (Hop1 : forall t, (forall n, t <> Tok.Number n) -> tok_ok p (S p, [t]))
    by (intros t Ht; split; [cbn; lia|by apply numbers_ok_op]).
  unfold arith_tokenize_operator, arith_tokenize_plus_minus_star, arith_tokenize_angle, arith_tokenize_left_angle,
    arith_tokenize_right_angle, arith_tokenize_amp_pipe, arith_push_op2, arith_tokenize_single.
  repeat match goal with |- context [if decide ?c then _ else _] => destruct (decide c) end;
    first [by apply Hop1|apply Hop; [done|lia]|split; [cbn; lia|apply numbers_ok_nil]].
Qed.

Lemma tokenize_at_ew p b st : input !! p = Some b -> ew P (arith_tokenize_at expand_parameter input p b) st (fun _ => tok_ok p).
Proof.
  intros Hb. unfold arith_tokenize_at. destruct (is_ascii_whitespace b); [by split; [cbn; lia|apply numbers_ok_nil]|].
  case_decide; [subst; by apply dollar_ew|]. destruct (is_ascii_digit b) eqn:Hd; [by apply ew_lift, number_rw|].
  destruct (is_ident_start b) eqn:Hi; [by eapply ew_lift, ident_rw|]. apply ew_ret, operator_ok.
Qed.

Lemma tokenize_ew n p tokens st : (length input <= p + n)%nat -> numbers_ok tokens ->
  ew P (arith_tokenize_loop expand_parameter input n p tokens) st (fun _ => numbers_ok).
Proof.
  revert p tokens st. induction n as [|n IH]; intros p tokens st Hn Ht; cbn [arith_tokenize_loop];
    (destruct (input !! p) as [b|] eqn:Hb; [|by apply ew_ret]).
  - apply lookup_lt_Some in Hb. lia.
  - apply ew_bind. eapply ew_weaken; [by apply tokenize_at_ew|]. intros st1 [p' ts] [Hp Hts]. cbn in Hp. apply IH; [cbn; lia|].
    intros m [Hm|Hm]%elem_of_app; [by apply Ht|by apply Hts].
Qed.
End tokenizing.

Lemma with_parser_ew P tokens m st (Q : Z -> Prop) : aw m (ArithParser_new tokens st) (fun _ v => Q v) ->
  ew P (with_parser tokens m) st (fun _ => Q).
Proof. unfold aw, ew, with_parser. by destruct (m _) as [s' [v|e|w]]. Qed.

(** Evaluation returns a 64-bit value on every expression; it panics at most with
    the radix error of [base#number], in the parameter expander, or on a string
    that is not UTF-8. *)
Lemma eval_arithmetic_ew `{Target} clock P expand_parameter expr st :
  (forall name st, ew P (expand_parameter name) st (fun _ _ => True)) ->
  (utf8_shape (trim expr) \/ P boundary_panic) -> ("#"%char ∉ trim expr \/ P radix_panic) ->
  ew P (eval_arithmetic clock expand_parameter expr) st (fun _ => i64).
Proof.
  intros Hp Hs Hr. apply ew_bind. eapply ew_weaken; [apply (tokenize_ew P expand_parameter Hp (trim expr) Hs Hr); [lia|apply numbers_ok_nil]|].
  intros st1 [|t ts] Hn; [apply ew_ret, i64_0|]. by apply with_parser_ew, parse_expr_total.
Qed.
