(* ===== verification/ArithSpec.v ===== *)
(** * Arithmetic: the meaning of an expression

    Expressions of the C-like grammar of [$(( ))] with their meaning: 64-bit
    wrapping arithmetic, left-to-right evaluation, short-circuit [&&], [||] and
    [?:].  An expression printed with the parentheses its operators need is
    evaluated to its meaning.  The source evaluates every operand, so the operands
    that a short circuit may skip are required to be without effect. *)

From S2P Require Import Prelude Strings IndexMap State Lexer LexerProps WordParser WordParserProps Arith ArithProps.

(** ** Expressions *)

Inductive unop := UNot | UCompl | UPlus | UMinus.

Inductive binop :=
  | BComma | BLor | BLand | BBor | BXor | BBand | BEq | BNe | BLt | BGt | BLe | BGe
  | BShl | BShr | BAdd | BSub | BMul | BDiv | BMod.

(** The operators with a compound assignment, and plain assignment. *)
Inductive asgop := AsgEq | AsgAdd | AsgSub | AsgMul | AsgDiv | AsgMod | AsgShl | AsgShr | AsgAnd | AsgXor | AsgOr.

Inductive aexp :=
  | ANum (n : Z)
  | AVar (x : str)
  | APre (inc : bool) (x : str)
  | APost (inc : bool) (x : str)
  | AUn (op : unop) (e : aexp)
  | APow (a b : aexp)
  | ABin (op : binop) (a b : aexp)
  | ATern (c t e : aexp)
  | AAsg (op : asgop) (x : str) (e : aexp).

#[export] Instance binop_eq_dec : EqDecision binop.
Proof. solve_decision. Defined.

(** ** Meaning *)

Section meaning.
Context `{Target} (clock : Z).

Definition read_var (x : str) : ex Z := v ← get_var_ex clock x; mret (default 0 (v ≫= parse_i64)).
Definition write_var (x : str) (v : Z) : ex Z := _ ← set_var_ex x (Z_to_string v); mret v.

Definition division (f : Z -> Z -> Z) (a b : Z) : ex Z :=
  if b =? 0 then fun st => (set_arith_error st #"division by 0", Ok 0) else mret (f a b).

Definition unop_value (op : unop) (v : Z) : Z :=
  match op with UNot => from_bool (v =? 0) | UCompl => Z.lnot v | UPlus => v | UMinus => wrapping_neg v end.

(** A strict operator on its values. *)
Definition binop_value (op : binop) (a b : Z) : ex Z :=
  match op with
  | BComma => mret b
  | BLor => mret (from_bool (negb (a =? 0) || negb (b =? 0)))
  | BLand => mret (from_bool (negb (a =? 0) && negb (b =? 0)))
  | BBor => mret (Z.lor a b) | BXor => mret (Z.lxor a b) | BBand => mret (Z.land a b)
  | BEq => mret (from_bool (a =? b)) | BNe => mret (from_bool (negb (a =? b)))
  | BLt => mret (from_bool (a <? b)) | BGt => mret (from_bool (b <? a))
  | BLe => mret (from_bool (a <=? b)) | BGe => mret (from_bool (b <=? a))
  | BShl => mret (wrapping_shl a b) | BShr => mret (wrapping_shr a b)
  | BAdd => mret (wrap64 (a + b)) | BSub => mret (wrap64 (a - b)) | BMul => mret (wrap64 (a * b))
  | BDiv => division (fun a b => wrap64 (Z.quot a b)) a b
  | BMod => division Z.rem a b
  end.

(** The value assigned; a compound division by zero gives zero. *)
Definition asgop_value (op : asgop) (cur v : Z) : Z :=
  match op with
  | AsgEq => v
  | AsgAdd => wrap64 (cur + v) | AsgSub => wrap64 (cur - v) | AsgMul => wrap64 (cur * v)
  | AsgDiv => if v =? 0 then 0 else wrap64 (Z.quot cur v)
  | AsgMod => if v =? 0 then 0 else Z.rem cur v
  | AsgShl => wrapping_shl cur v | AsgShr => wrapping_shr cur v
  | AsgAnd => Z.land cur v | AsgXor => Z.lxor cur v | AsgOr => Z.lor cur v
  end.

Fixpoint aeval (e : aexp) : ex Z :=
  match e with
  | ANum n => mret n
  | AVar x => read_var x
  | APre inc x => cur ← read_var x; write_var x (if inc then wrap64 (cur + 1) else wrap64 (cur - 1))
  | APost inc x => cur ← read_var x; _ ← write_var x (if inc then wrap64 (cur + 1) else wrap64 (cur - 1)); mret cur
  | AUn op e => v ← aeval e; mret (unop_value op v)
  | APow a b => va ← aeval a; vb ← aeval b; mret (if vb <? 0 then 0 else wrap64 (va ^ vb))
  | ABin BLand a b => va ← aeval a; if va =? 0 then mret 0 else vb ← aeval b; mret (from_bool (negb (vb =? 0)))
  | ABin BLor a b => va ← aeval a; if negb (va =? 0) then mret 1 else vb ← aeval b; mret (from_bool (negb (vb =? 0)))
  | ABin op a b => va ← aeval a; vb ← aeval b; binop_value op va vb
  | ATern c t e => vc ← aeval c; if negb (vc =? 0) then aeval t else aeval e
  | AAsg AsgEq x e => v ← aeval e; write_var x v
  | AAsg op x e => v ← aeval e; cur ← read_var x; write_var x (asgop_value op cur v)
  end.

(** Without effect: no assignment, no division and no [RANDOM]. *)
Fixpoint quiet (e : aexp) : bool :=
  match e with
  | ANum _ => true
  | AVar x => negb (bool_decide (x = #"RANDOM"))
  | APre _ _ | APost _ _ | AAsg _ _ _ => false
  | AUn _ e => quiet e
  | APow a b => quiet a && quiet b
  | ABin op a b => negb (bool_decide (op = BDiv \/ op = BMod)) && quiet a && quiet b
  | ATern c t e => quiet c && quiet t && quiet e
  end.

(** The operands a short circuit may skip are quiet. *)
Fixpoint calm (e : aexp) : bool :=
  match e with
  | ANum _ | AVar _ | APre _ _ | APost _ _ => true
  | AUn _ e | AAsg _ _ e => calm e
  | APow a b => calm a && calm b
  | ABin op a b => calm a && calm b && (negb (bool_decide (op = BLand \/ op = BLor)) || quiet b)
  | ATern c t e => calm c && calm t && calm e && quiet t && quiet e
  end.

(** ** Effects of quiet expressions *)

Lemma bind_okc {S E A B} (m : comp S E A) (k : A -> comp S E B) s s1 s2 a b :
  m s = (s1, Ok a) -> k a s1 = (s2, Ok b) -> (m ≫= k) s = (s2, Ok b).
Proof. intros Hm Hk. unfold mbind, comp_bind. by rewrite Hm. Qed.

Lemma bind_inv {S E A B} (m : comp S E A) (k : A -> comp S E B) s s2 b :
  (m ≫= k) s = (s2, Ok b) -> exists s1 a, m s = (s1, Ok a) /\ k a s1 = (s2, Ok b).
Proof. unfold mbind, comp_bind. destruct (m s) as [s1 [a|e|w]]; [eauto|done..]. Qed.

Lemma get_var_quiet x st : x <> #"RANDOM" -> exists v, get_var clock st x = (st, v).
Proof.
  intros Hx. unfold get_var.
  repeat match goal with |- context [if decide ?c then _ else _] => destruct (decide c); [eauto; try done|] end; eauto.
Qed.

Lemma read_var_quiet x st : x <> #"RANDOM" -> exists v, read_var x st = (st, Ok v).
Proof. intros Hx. destruct (get_var_quiet x st Hx) as [v Hv]. eexists. eapply bind_okc; [unfold get_var_ex; by rewrite Hv|done]. Qed.

Lemma binop_quiet op va vb st : op <> BDiv -> op <> BMod -> exists v, binop_value op va vb st = (st, Ok v).
Proof. intros. destruct op; try done; by eexists. Qed.

Lemma quiet_eval e st : quiet e = true -> exists v, aeval e st = (st, Ok v).
Proof.
  revert st. induction e as [n|x|inc x|inc x|op e IH|a IHa b IHb|op a IHa b IHb|c IHc t IHt e IHe|op x e IH]; intros st Hq; cbn [quiet] in Hq.
  - eauto.
  - bool_to_prop. by apply read_var_quiet.
  - done.
  - done.
  - destruct (IH st Hq) as [v Hv]. eexists. by eapply bind_okc.
  - bool_to_prop. destruct (IHa st) as [va Hva], (IHb st) as [vb Hvb]; [done..|]. eexists. eapply bind_okc, bind_okc; done.
  - bool_to_prop. destruct (IHa st) as [va Hva], (IHb st) as [vb Hvb]; [done..|]. assert (op <> BDiv /\ op <> BMod) as [Hd Hm] by tauto.
    destruct op; try done; try (destruct (binop_quiet _ va vb st Hd Hm) as [v Hv]; eexists; eapply bind_okc, bind_okc; done).
    + destruct (negb (va =? 0)) eqn:E; eexists; (eapply bind_okc; [done|]); cbn beta; rewrite E; [done|by eapply bind_okc].
    + destruct (va =? 0) eqn:E; eexists; (eapply bind_okc; [done|]); cbn beta; rewrite E; [done|by eapply bind_okc].
  - bool_to_prop. destruct (IHc st) as [vc Hvc], (IHt st) as [vt Hvt], (IHe st) as [ve Hve]; [done..|].
    destruct (negb (vc =? 0)) eqn:E; eexists; (eapply bind_okc; [done|]); cbn beta; by rewrite E.
  - done.
Qed.
(** ** Values have 64 bits *)

Fixpoint nums_ok (e : aexp) : bool :=
  match e with
  | ANum n => (0 <=? n) && (n <=? I64_MAX)
  | AVar _ | APre _ _ | APost _ _ => true
  | AUn _ e | AAsg _ _ e => nums_ok e
  | APow a b | ABin _ a b => nums_ok a && nums_ok b
  | ATern c t e => nums_ok c && nums_ok t && nums_ok e
  end.

Lemma read_var_i64 x st st' v : read_var x st = (st', Ok v) -> i64 v.
Proof. intros (st1 & r & _ & [= <- <-])%bind_inv. destruct r as [r|]; cbn; [apply i64_default_parse|apply i64_0]. Qed.

Lemma write_var_i64 x w st st' v : write_var x w st = (st', Ok v) -> v = w.
Proof. by intros (st1 & r & _ & [= <- <-])%bind_inv. Qed.

Lemma binop_value_i64 op a b st st' v : i64 a -> i64 b -> binop_value op a b st = (st', Ok v) -> i64 v.
Proof.
  intros Ha Hb. destruct op; cbn [binop_value]; unfold division;
    try (destruct (Z.eqb_spec b 0)); intros [= <- <-]; auto with i64;
    first [by apply i64_shr|by apply i64_rem|apply wrap64_i64].
Qed.

Lemma aeval_i64 e : forall st st' v, nums_ok e = true -> aeval e st = (st', Ok v) -> i64 v.
Proof.
  induction e as [n|x|inc x|inc x|op e IH|a IHa b IHb|op a IHa b IHb|c IHc t IHt e IHe|op x e IH]; intros st st' v Hn He; cbn [nums_ok] in Hn.
  - injection He as <- <-. unfold I64_MAX, i64 in *. lia.
  - by eapply read_var_i64.
  - apply bind_inv in He as (st1 & cur & _ & Hw). apply write_var_i64 in Hw as ->. destruct inc; apply wrap64_i64.
  - apply bind_inv in He as (st1 & cur & Hr & Hw). apply bind_inv in Hw as (st2 & r & _ & [= <- <-]). by eapply read_var_i64.
  - apply bind_inv in He as (st1 & w & Hw & [= <- <-]). specialize (IH _ _ _ Hn Hw). destruct op; cbn [unop_value]; auto with i64. apply wrap64_i64.
  - apply bind_inv in He as (st1 & va & Ha & (st2 & vb & Hb & [= <- <-])%bind_inv). destruct (vb <? 0); [apply i64_0|apply wrap64_i64].
  - bool_to_prop.
    assert (Hstrict : forall k, (va ← aeval a; vb ← aeval b; k va vb) st = (st', Ok v) ->
      (forall va vb st1, i64 va -> i64 vb -> k va vb st1 = (st', Ok v) -> i64 v) -> i64 v).
    { intros k (st1 & va & Ha & (st2 & vb & Hb & Hk)%bind_inv)%bind_inv Hi. eapply Hi; [..|done]; eauto. }
    destruct op; try (eapply (Hstrict _ He); intros va vb st2 Ha Hb; by apply binop_value_i64).
    + apply bind_inv in He as (st1 & va & Ha & Hk). destruct (negb _); [injection Hk as <- <-; apply (i64_from_bool true)|].
      apply bind_inv in Hk as (st2 & vb & Hb & [= <- <-]). apply i64_from_bool.
    + apply bind_inv in He as (st1 & va & Ha & Hk). destruct (_ =? _); [injection Hk as <- <-; apply i64_0|].
      apply bind_inv in Hk as (st2 & vb & Hb & [= <- <-]). apply i64_from_bool.
  - bool_to_prop. apply bind_inv in He as (st1 & vc & Hc & Hk). destruct (negb _); eauto.
  - destruct op; apply bind_inv in He as (st1 & w & Hw & Hk); specialize (IH _ _ _ Hn Hw);
      try (apply bind_inv in Hk as (st2 & cur & Hcur%read_var_i64 & Hk)); apply write_var_i64 in Hk as ->; cbn [asgop_value];
      try destruct (Z.eqb_spec w 0); auto with i64; first [by apply i64_rem|by apply i64_shr|apply wrap64_i64].
Qed.
End meaning.

(** ** Printing *)

Definition binop_tok (op : binop) : ArithToken :=
  match op with
  | BComma => Tok.Comma | BLor => Tok.PipePipe | BLand => Tok.AmpAmp | BBor => Tok.Pipe | BXor => Tok.Caret | BBand => Tok.Amp
  | BEq => Tok.EqEq | BNe => Tok.Ne | BLt => Tok.Lt | BGt => Tok.Gt | BLe => Tok.Le | BGe => Tok.Ge
  | BShl => Tok.LShift | BShr => Tok.RShift | BAdd => Tok.Plus | BSub => Tok.Minus
  | BMul => Tok.Star | BDiv => Tok.Slash | BMod => Tok.Percent
  end.

Definition asgop_tok (op : asgop) : ArithToken :=
  match op with
  | AsgEq => Tok.Eq | AsgAdd => Tok.PlusEq | AsgSub => Tok.MinusEq | AsgMul => Tok.StarEq | AsgDiv => Tok.SlashEq
  | AsgMod => Tok.PercentEq | AsgShl => Tok.LShiftEq | AsgShr => Tok.RShiftEq | AsgAnd => Tok.AmpEq | AsgXor => Tok.CaretEq
  | AsgOr => Tok.PipeEq
  end.

Definition unop_tok (op : unop) : ArithToken :=
  match op with UNot => Tok.Bang | UCompl => Tok.Tilde | UPlus => Tok.Plus | UMinus => Tok.Minus end.

Definition incdec_tok (inc : bool) : ArithToken := if inc then Tok.PlusPlus else Tok.MinusMinus.

(** Precedence levels: 0 comma, 1 assignment and [?:], 2 to 11 the binary
    operators, 12 [**], 13 unary, 14 primary. *)
Definition binop_level (op : binop) : nat :=
  match op with
  | BComma => 0 | BLor => 2 | BLand => 3 | BBor => 4 | BXor => 5 | BBand => 6 | BEq | BNe => 7
  | BLt | BGt | BLe | BGe => 8 | BShl | BShr => 9 | BAdd | BSub => 10 | BMul | BDiv | BMod => 11
  end.

Definition prec (e : aexp) : nat :=
  match e with
  | ANum _ | AVar _ | APost _ _ => 14
  | APre _ _ | AUn _ _ => 13
  | APow _ _ => 12
  | ABin op _ _ => binop_level op
  | ATern _ _ _ | AAsg _ _ _ => 1
  end.

(** In parentheses when [e] binds weaker than its place needs. *)
Definition wrap (k : nat) (e : aexp) (ts : list ArithToken) : list ArithToken :=
  if (k <=? prec e)%nat then ts else Tok.LParen :: ts ++ [Tok.RParen].

Fixpoint atoks (e : aexp) : list ArithToken :=
  match e with
  | ANum n => [Tok.Number n]
  | AVar x => [Tok.Ident x]
  | APre inc x => [incdec_tok inc; Tok.Ident x]
  | APost inc x => [Tok.Ident x; incdec_tok inc]
  | AUn op e => unop_tok op :: wrap 13 e (atoks e)
  | APow a b => wrap 13 a (atoks a) ++ Tok.StarStar :: wrap 12 b (atoks b)
  | ABin op a b => wrap (binop_level op) a (atoks a) ++ binop_tok op :: wrap (S (binop_level op)) b (atoks b)
  | ATern c t e => wrap 2 c (atoks c) ++ Tok.Question :: wrap 1 t (atoks t) ++ Tok.Colon :: wrap 1 e (atoks e)
  | AAsg op x e => Tok.Ident x :: asgop_tok op :: wrap 1 e (atoks e)
  end.

Definition toks (k : nat) (e : aexp) : list ArithToken := wrap k e (atoks e).

(** ** Depth *)

(** The levels at which the source counts the depth. *)
Definition guard (k : nat) : nat := if decide (k = 1 \/ k = 12 \/ k = 13)%nat then 1 else 0.

(** The count of the levels from [k] to below [p]. *)
Definition descent (k p : nat) : nat := sum_list_with guard (seq k (p - k)).

Definition cost_at (k : nat) (e : aexp) (own : nat) : nat :=
  if (k <=? prec e)%nat then (descent k (prec e) + own)%nat else (descent k 14 + (descent 0 (prec e) + own))%nat.

Fixpoint acost (e : aexp) : nat :=
  match e with
  | ANum _ | AVar _ | APost _ _ => 0
  | APre _ _ => 1
  | AUn _ e => S (cost_at 13 e (acost e))
  | APow a b => S (Nat.max (cost_at 13 a (acost a)) (cost_at 12 b (acost b)))
  | ABin op a b => Nat.max (cost_at (binop_level op) a (acost a)) (cost_at (S (binop_level op)) b (acost b))
  | ATern c t e => S (Nat.max (cost_at 2 c (acost c)) (Nat.max (cost_at 1 t (acost t)) (cost_at 1 e (acost e))))
  | AAsg _ _ e => S (cost_at 1 e (acost e))
  end.

Definition cost (k : nat) (e : aexp) : nat := cost_at k e (acost e).

(** ** The levels of the evaluator *)

Section levels.
Context `{Target} (clock : Z).

Abbreviation ax := (comp ArithParser stop).

Abbreviation binops := (list (ArithToken * (Z -> Z -> comp ArithParser stop (Z + Z)))).

Definition comma_ops : binops := [(Tok.Comma, fun _ b => mret (inl b))].

Definition ops_at (k : nat) : binops :=
  match k with O | S O => comma_ops | S (S j) => nth j bin_tower [] end.

Definition level (k f : nat) : ax Z :=
  match k with
  | O => bin_level comma_ops (parse_assign clock f)
  | S O => parse_assign clock f
  | S (S j) =>
      if (j <=? 10)%nat then tower (drop j bin_tower) (parse_exponentiation clock f)
      else if (j =? 11)%nat then parse_unary clock f else parse_primary clock (parse_assign clock f)
  end.

Definition loop_level (k : nat) : Prop := k = 0%nat \/ (2 <= k <= 11)%nat.

Lemma level_loop k f : loop_level k -> level k f = bin_level (ops_at k) (level (S k) f).
Proof.
  intros [->|Hk]; [done|].
  do 12 (destruct k as [|k]; [try lia; reflexivity|]). lia.
Qed.
End levels.
