(* ===== verification/ArithRun.v ===== *)
(** * Arithmetic: evaluation of printed expressions

    The evaluator on the tokens of an expression: every level reads the operand
    it is given and stops before a token it cannot continue with, so a printed
    expression is evaluated to its meaning. *)

From S2P Require Import Prelude Strings IndexMap State Lexer LexerProps WordParser WordParserProps Arith ArithProps ArithSpec.

Abbreviation ax := (comp ArithParser stop).

(** ** Moving over tokens *)

Definition remaining (s : ArithParser) : list ArithToken := drop (ap_pos s) (ap_tokens s).

Definition moved (s : ArithParser) (n : nat) (st : ShellState) : ArithParser :=
  {| ap_tokens := ap_tokens s; ap_pos := n + ap_pos s; ap_state := st; ap_depth := ap_depth s |}.

Lemma moved_0 s : moved s 0 (ap_state s) = s.
Proof. by destruct s. Qed.

Lemma moved_moved s n m st st' : moved (moved s n st) m st' = moved s (n + m) st'.
Proof. unfold moved; cbn. f_equal. lia. Qed.

Lemma moved_remaining s ts rest st : remaining s = ts ++ rest -> remaining (moved s (length ts) st) = rest.
Proof.
  unfold remaining; cbn. intros Hr. by rewrite Nat.add_comm, <-drop_drop, Hr, drop_app_length.
Qed.

Lemma moved_remaining1 s t rest st : remaining s = t :: rest -> remaining (moved s 1 st) = rest.
Proof. apply (moved_remaining s [t] rest). Qed.

Lemma lookup_remaining s : ap_tokens s !! ap_pos s = head (remaining s).
Proof. unfold remaining. rewrite head_lookup, lookup_drop. by rewrite Nat.add_0_r. Qed.

Lemma peek_bind {B} (k : option ArithToken -> ax B) s : (arith_peek ≫= k) s = k (head (remaining s)) s.
Proof. unfold arith_peek, mbind, comp_bind, get. cbn. by rewrite lookup_remaining. Qed.

Lemma bump_bind {B} (k : unit -> ax B) s : (arith_bump ≫= k) s = k tt (moved s 1 (ap_state s)).
Proof. done. Qed.

Lemma eat_hit {B} t (k : bool -> ax B) s rest : remaining s = t :: rest -> (eat t ≫= k) s = k true (moved s 1 (ap_state s)).
Proof.
  intros Hr. unfold eat. assert (Hp := lookup_remaining s). rewrite Hr in Hp. cbn in Hp.
  unfold arith_peek, mbind, comp_bind, get. cbn. rewrite Hp. by rewrite decide_True.
Qed.

Lemma eat_miss {B} t (k : bool -> ax B) s : head (remaining s) <> Some t -> (eat t ≫= k) s = k false s.
Proof.
  intros Hr. unfold eat. rewrite <-lookup_remaining in Hr.
  unfold arith_peek, mbind, comp_bind, get. cbn. by rewrite decide_False.
Qed.

(** ** Operators *)

Definition op_fun (op : binop) : Z -> Z -> ax (Z + Z) :=
  match op with
  | BComma => fun _ b => mret (inl b)
  | BLor => pure_op (fun a b => from_bool (negb (a =? 0) || negb (b =? 0)))
  | BLand => pure_op (fun a b => from_bool (negb (a =? 0) && negb (b =? 0)))
  | BBor => pure_op Z.lor | BXor => pure_op Z.lxor | BBand => pure_op Z.land
  | BEq => pure_op (fun a b => from_bool (a =? b)) | BNe => pure_op (fun a b => from_bool (negb (a =? b)))
  | BLt => pure_op (fun a b => from_bool (a <? b)) | BGt => pure_op (fun a b => from_bool (b <? a))
  | BLe => pure_op (fun a b => from_bool (a <=? b)) | BGe => pure_op (fun a b => from_bool (b <=? a))
  | BShl => pure_op wrapping_shl | BShr => pure_op wrapping_shr
  | BAdd => pure_op wrapping_add | BSub => pure_op wrapping_sub
  | BMul => pure_op wrapping_mul | BDiv => div_op wrapping_div | BMod => div_op wrapping_rem
  end.

Lemma op_fun_value op a b s st v : binop_value op a b (ap_state s) = (st, Ok v) -> op_fun op a b s = (moved s 0 st, Ok (inl v)).
Proof.
  destruct op; cbn [op_fun binop_value]; try (intros [= <- <-]; by rewrite moved_0);
    unfold division, div_op; destruct (b =? 0); intros [= <- <-]; try done; by rewrite moved_0.
Qed.

Definition tok_level (t : ArithToken) : option nat :=
  match t with
  | Tok.Comma => Some 0%nat
  | Tok.Eq | Tok.PlusEq | Tok.MinusEq | Tok.StarEq | Tok.SlashEq | Tok.PercentEq | Tok.LShiftEq | Tok.RShiftEq
  | Tok.AmpEq | Tok.CaretEq | Tok.PipeEq | Tok.Question => Some 1%nat
  | Tok.PipePipe => Some 2%nat | Tok.AmpAmp => Some 3%nat | Tok.Pipe => Some 4%nat | Tok.Caret => Some 5%nat
  | Tok.Amp => Some 6%nat | Tok.EqEq | Tok.Ne => Some 7%nat | Tok.Lt | Tok.Gt | Tok.Le | Tok.Ge => Some 8%nat
  | Tok.LShift | Tok.RShift => Some 9%nat | Tok.Plus | Tok.Minus => Some 10%nat
  | Tok.Star | Tok.Slash | Tok.Percent => Some 11%nat | Tok.StarStar => Some 12%nat
  | Tok.PlusPlus | Tok.MinusMinus => Some 14%nat
  | _ => None
  end.

(** No token of level [k] or tighter comes next. *)
Definition follow (k : nat) (rest : list ArithToken) : Prop :=
  forall t j, head rest = Some t -> tok_level t = Some j -> (j < k)%nat.

Lemma follow_le k k' rest : (k <= k')%nat -> follow k rest -> follow k' rest.
Proof. intros Hk Hf t j Ht Hj. specialize (Hf t j Ht Hj). lia. Qed.

Lemma follow_nil k : follow k [].
Proof. by intros t j Ht. Qed.

Lemma follow_cons k t rest : (forall j, tok_level t = Some j -> (j < k)%nat) -> follow k (t :: rest).
Proof. intros Hk t' j [= <-]. apply Hk. Qed.

Lemma follow_op k t j rest : tok_level t = Some j -> (j < k)%nat -> follow k (t :: rest).
Proof. intros Ht Hj. apply follow_cons. intros j' Hj'. rewrite Ht in Hj'. by injection Hj' as <-. Qed.

Lemma follow_miss k t rest : tok_level t = Some k -> follow k rest -> head rest <> Some t.
Proof. intros Ht Hf Hh. specialize (Hf t k Hh Ht). lia. Qed.

Lemma ops_at_level k : loop_level k -> Forall (fun tf => tok_level (fst tf) = Some k) (ops_at k).
Proof.
  intros [->|Hk]; [repeat constructor|]. do 12 (destruct k as [|k]; [try lia; repeat constructor|]). lia.
Qed.

Lemma bin_step_miss ops next val s : Forall (fun tf => head (remaining s) <> Some (fst tf)) ops ->
  bin_step ops next val s = (s, Ok (inr val)).
Proof. induction 1 as [|[t f] ops Ht _ IH]; cbn [bin_step]; [done|]. by rewrite eat_miss. Qed.

Lemma bin_step_hit op next val s rest : remaining s = binop_tok op :: rest ->
  bin_step (ops_at (binop_level op)) next val s = (rhs ← next; op_fun op val rhs) (moved s 1 (ap_state s)).
Proof.
  intros Hr. destruct op; cbn [binop_tok] in Hr; cbn [binop_level ops_at];
    unfold comma_ops, bin_tower, lor_ops, land_ops, bor_ops, xor_ops, band_ops, eq_ops, rel_ops, shift_ops, add_ops, mul_ops;
    cbn [nth bin_step];
    repeat (rewrite eat_miss by (rewrite Hr; done)); by rewrite (eat_hit _ _ _ rest).
Qed.

(** ** Runs at a level *)

Section runs.
Context `{Target} (clock : Z).

(** [level k] reads [ts], which evaluates to [v] and the state [st'], and stops
    before [rest]; it goes [c] levels of depth down. *)
Definition runs_at (k : nat) (ts rest : list ArithToken) (c : nat) (st st' : ShellState) (v : Z) : Prop :=
  forall f s, remaining s = ts ++ rest -> ap_state s = st -> 0 <= ap_depth s ->
    ap_depth s + Z.of_nat c <= MAX_ARITH_DEPTH -> MAX_ARITH_DEPTH < ap_depth s + Z.of_nat f ->
    level clock k f s = (moved s (length ts) st', Ok v).

(** A level with a depth guard, from its body one level down. *)
Lemma guarded_run (body : ax Z) n s st' v : 0 <= ap_depth s < MAX_ARITH_DEPTH ->
  body (set_ap_depth (ap_depth s + 1) s) = (moved (set_ap_depth (ap_depth s + 1) s) n st', Ok v) ->
  guarded body s = (moved s n st', Ok v).
Proof.
  intros Hd Hb. unfold guarded, mbind, comp_bind, enter_depth. rewrite (proj2 (Z.leb_gt _ _)) by lia.
  rewrite Hb. unfold exit_depth, modify, moved, set_ap_depth; cbn. unfold sat_sub. rewrite Z.max_r by lia.
  by replace (ap_depth s + 1 - 1) with (ap_depth s) by lia.
Qed.

(** A loop that has nothing to continue with. *)
Lemma eat_loop_stops step val s : step val s = (s, Ok (inr val)) -> eat_loop step val s = (s, Ok val).
Proof.
  intros Hs. unfold eat_loop, mbind, comp_bind, get. cbn [arith_iterate]. unfold mbind, comp_bind. by rewrite Hs.
Qed.

Lemma ops_stop k next val s rest : loop_level k -> remaining s = rest -> follow k rest ->
  bin_step (ops_at k) next val s = (s, Ok (inr val)).
Proof.
  intros Hk Hr Hf. apply bin_step_miss. eapply Forall_impl; [by apply ops_at_level|]. intros [t f] Ht.
  rewrite Hr. by eapply follow_miss.
Qed.

Lemma lift_loop k ts rest c st st' v : loop_level k -> follow k rest ->
  runs_at (S k) ts rest c st st' v -> runs_at k ts rest c st st' v.
Proof.
  intros Hk Hf Hrun f s Hr Hst Hd0 Hd Hfuel. rewrite level_loop by done. unfold bin_level.
  eapply bind_okc; [by apply Hrun|]. apply eat_loop_stops. eapply ops_stop; [done|by apply moved_remaining|done].
Qed.

(** Not an identifier with an assignment operator. *)
Definition no_assign (ts : list ArithToken) : Prop :=
  match ts with Tok.Ident _ :: t :: _ => is_assign_op t = false | _ => True end.

Lemma assign_inner_other pa pe s : no_assign (remaining s) -> assign_inner clock pa pe s = parse_ternary pa pe s.
Proof.
  intros Hn. unfold assign_inner. rewrite peek_bind. destruct (remaining s) as [|t ts] eqn:Hr; cbn [head]; [done|].
  destruct t; try done. unfold get at 1. unfold mbind at 1, comp_bind at 1. rewrite bump_bind.
  assert (Hr1 := moved_remaining1 s _ _ (ap_state s) Hr).
  assert (Ht : try_compound_assign clock pa name (moved s 1 (ap_state s)) = (moved s 1 (ap_state s), Ok None)).
  { unfold try_compound_assign. rewrite peek_bind, Hr1. destruct ts as [|t ts]; cbn [head]; [done|]. cbn in Hn. by rewrite Hn. }
  unfold mbind at 1, comp_bind at 1. rewrite Ht. unfold mbind, comp_bind, modify. cbn [fst snd].
  f_equal. by destruct s.
Qed.

Lemma level_S f : level clock 1 (S f) = (fun s => guarded (assign_inner clock (level clock 1 f) (level clock 12 f)) s) /\
  level clock 12 (S f) = (fun s => guarded (exponentiation_inner (level clock 12 f) (level clock 13 f)) s) /\
  level clock 13 (S f) = (fun s => guarded (parse_unary_inner clock (level clock 1 f) (level clock 13 f)) s).
Proof. done. Qed.

Lemma lift_assign ts rest c st st' v : no_assign (ts ++ rest) -> follow 1 rest ->
  runs_at 2 ts rest c st st' v -> runs_at 1 ts rest (S c) st st' v.
Proof.
  intros Hn Hf Hrun f s Hr Hst Hd0 Hd Hfuel. destruct f as [|f]; [lia|]. rewrite (proj1 (level_S f)).
  apply guarded_run; [lia|]. rewrite assign_inner_other by (unfold remaining in *; cbn; by rewrite Hr).
  set (s1 := set_ap_depth _ s). unfold parse_ternary. rewrite parse_logical_or_tower.
  eapply bind_okc; [apply (Hrun f s1); unfold s1; cbn; [done|done|lia..]|].
  assert (Hr1 : remaining (moved s1 (length ts) st') = rest) by by apply moved_remaining.
  rewrite eat_miss; [done|]. rewrite Hr1. by eapply follow_miss.
Qed.

Lemma lift_pow ts rest c st st' v : follow 12 rest -> runs_at 13 ts rest c st st' v -> runs_at 12 ts rest (S c) st st' v.
Proof.
  intros Hf Hrun f s Hr Hst Hd0 Hd Hfuel. destruct f as [|f]; [lia|]. rewrite (proj1 (proj2 (level_S f))).
  apply guarded_run; [lia|]. set (s1 := set_ap_depth _ s). unfold exponentiation_inner.
  eapply bind_okc; [apply (Hrun f s1); unfold s1; cbn; [done|done|lia..]|].
  assert (Hr1 : remaining (moved s1 (length ts) st') = rest) by by apply moved_remaining.
  rewrite eat_miss; [done|]. rewrite Hr1. by eapply follow_miss.
Qed.

(** The start of a primary expression. *)
Definition primary_start (ts : list ArithToken) : Prop :=
  match ts with (Tok.Number _ | Tok.Ident _ | Tok.LParen) :: _ => True | _ => False end.

Lemma lift_unary ts rest c st st' v : primary_start ts -> runs_at 14 ts rest c st st' v -> runs_at 13 ts rest (S c) st st' v.
Proof.
  intros Hp Hrun f s Hr Hst Hd0 Hd Hfuel. destruct f as [|f]; [lia|]. rewrite (proj2 (proj2 (level_S f))).
  apply guarded_run; [lia|]. set (s1 := set_ap_depth _ s). unfold parse_unary_inner. rewrite peek_bind.
  assert (Hh : head (remaining s1) = head ts). { replace (remaining s1) with (ts ++ rest) by done. by destruct ts. }
  assert (Hx : parse_postfix clock (level clock 1 f) s1 = (moved s1 (length ts) st', Ok v))
    by (apply (Hrun f s1); unfold s1; cbn; [done|done|lia..]).
  rewrite Hh. destruct ts as [|[] ts]; done.
Qed.

(** ** Lifting through the levels *)

Lemma descent_S k p : (k < p)%nat -> descent k p = (guard k + descent (S k) p)%nat.
Proof. intros Hk. unfold descent. replace (p - k)%nat with (S (p - S k)) by lia. done. Qed.

Lemma descent_refl k : descent k k = 0%nat.
Proof. unfold descent. by rewrite Nat.sub_diag. Qed.

Lemma guard_loop k : loop_level k -> guard k = 0%nat.
Proof. intros Hk. unfold guard. rewrite decide_False; [done|]. destruct Hk; lia. Qed.

Lemma lift k ts rest c st st' v : (k < 14)%nat -> follow k rest -> (k = 1%nat -> no_assign (ts ++ rest)) ->
  (k = 13%nat -> primary_start ts) -> runs_at (S k) ts rest c st st' v -> runs_at k ts rest (guard k + c) st st' v.
Proof.
  intros Hk Hf Hn Hp Hrun. destruct (decide (k = 1%nat)) as [->|]; [by apply lift_assign; [apply Hn|..]|].
  destruct (decide (k = 12%nat)) as [->|]; [by apply lift_pow|]. destruct (decide (k = 13%nat)) as [->|]; [by apply lift_unary; [apply Hp|]|].
  assert (loop_level k) by (unfold loop_level; lia). rewrite guard_loop by done. by apply lift_loop.
Qed.

Lemma lift_to p k ts rest c st st' v : (k <= p <= 14)%nat -> follow k rest -> ((k <= 1 < p)%nat -> no_assign (ts ++ rest)) ->
  ((k <= 13 < p)%nat -> primary_start ts) -> runs_at p ts rest c st st' v -> runs_at k ts rest (descent k p + c) st st' v.
Proof.
  intros Hkp Hf Hn Hp Hrun. remember (p - k)%nat as d eqn:Hd. revert k Hkp Hf Hn Hp Hd. induction d as [|d IH]; intros k Hkp Hf Hn Hp Hd.
  - assert (k = p) as -> by lia. by rewrite descent_refl.
  - rewrite descent_S, <-Nat.add_assoc by lia. apply lift; [lia|done|intros; apply Hn; lia|intros; apply Hp; lia|].
    apply IH; [lia|by eapply follow_le, Hf; lia|intros; apply Hn; lia|intros; apply Hp; lia|lia].
Qed.

Lemma paren_run ts rest c st st' v : runs_at 0 ts (Tok.RParen :: rest) c st st' v ->
  runs_at 14 (Tok.LParen :: ts ++ [Tok.RParen]) rest c st st' v.
Proof.
  intros Hrun f s Hr Hst Hd0 Hd Hfuel. change (level clock 14 f) with (parse_primary clock (level clock 1 f)).
  unfold parse_primary. rewrite peek_bind, Hr. cbn [head app]. rewrite bump_bind.
  assert (Hr1 : remaining (moved s 1 (ap_state s)) = ts ++ Tok.RParen :: rest).
  { eapply moved_remaining1. rewrite Hr. cbn. by rewrite <-app_assoc. }
  eapply bind_okc; [by apply (Hrun f)|]. rewrite (eat_hit _ _ _ rest); [|by apply moved_remaining].
  rewrite !moved_moved. cbn. rewrite length_app. cbn. repeat f_equal; lia.
Qed.

(** ** Shapes of printed expressions *)

Definition head_not_assign (rest : list ArithToken) : Prop :=
  match rest with t :: _ => is_assign_op t = false | [] => True end.

Lemma assign_level t : is_assign_op t = true -> tok_level t = Some 1%nat.
Proof.
  unfold is_assign_op. rewrite bool_decide_eq_true, list_elem_of_In. intros Ht.
  cbn in Ht. repeat destruct Ht as [<-|Ht]; done.
Qed.

Lemma level_not_assign t rest j : tok_level t = Some j -> j <> 1%nat -> head_not_assign (t :: rest).
Proof. intros Ht Hj. cbn. destruct (is_assign_op t) eqn:E; [|done]. apply assign_level in E. congruence. Qed.

Lemma follow_not_assign rest : follow 1 rest -> head_not_assign rest.
Proof.
  intros Hf. destruct rest as [|t rest]; [done|]. cbn. destruct (is_assign_op t) eqn:E; [|done].
  apply assign_level in E. specialize (Hf t 1%nat eq_refl E). lia.
Qed.

Lemma binop_tok_level op : tok_level (binop_tok op) = Some (binop_level op).
Proof. by destruct op. Qed.

Lemma binop_level_loop op : loop_level (binop_level op).
Proof. unfold loop_level. destruct op; cbn; lia. Qed.

Lemma prec_bound e : (prec e <= 14)%nat.
Proof. destruct e as [| | | | | |[]| |]; cbn; lia. Qed.

Lemma atoks_no_assign e rest : (2 <= prec e)%nat -> head_not_assign rest -> no_assign (atoks e ++ rest).
Proof.
  revert rest. induction e as [n|x|inc x|inc x|op e IH|a IHa b IHb|op a IHa b IHb|c IHc t IHt e IHe|op x e IH]; intros rest Hp Hr;
    cbn [atoks prec] in *; try lia; try done.
  - by destruct inc.
  - by destruct inc.
  - by destruct op.
  - rewrite <-app_assoc. unfold wrap. destruct (Nat.leb_spec 13 (prec a)); [|done]. by apply IHa; [lia|].
  - rewrite <-app_assoc. unfold wrap. destruct (Nat.leb_spec (binop_level op) (prec a)); [|done]. apply IHa; [lia|].
    eapply level_not_assign; [apply binop_tok_level|lia].
Qed.

Lemma toks_no_assign k e rest : (2 <= k)%nat -> head_not_assign rest -> no_assign (toks k e ++ rest).
Proof.
  intros Hk Hr. unfold toks, wrap. destruct (Nat.leb_spec k (prec e)); [|done]. by apply atoks_no_assign; [lia|].
Qed.

Lemma atoks_primary e : prec e = 14%nat -> primary_start (atoks e).
Proof. destruct e as [| | | | | |[]| |]; by intros. Qed.

(** ** From the own level to every level *)

Definition own_run (e : aexp) : Prop := forall rest st st' v, follow (prec e) rest -> aeval clock e st = (st', Ok v) ->
  runs_at (prec e) (atoks e) rest (acost e) st st' v.

Definition level_run (e : aexp) : Prop := forall k rest st st' v, (k <= 14)%nat -> follow k rest -> aeval clock e st = (st', Ok v) ->
  runs_at k (toks k e) rest (cost k e) st st' v.

Lemma own_level e : own_run e -> level_run e.
Proof.
  intros Ho k rest st st' v Hk Hf He. pose proof (prec_bound e). unfold toks, wrap, cost, cost_at.
  destruct (Nat.leb_spec k (prec e)).
  - apply lift_to; [lia|done| | |apply Ho; [by eapply follow_le, Hf|done]].
    + intros Hp. apply atoks_no_assign; [lia|]. apply follow_not_assign. by eapply follow_le, Hf; lia.
    + intros Hp. apply atoks_primary. lia.
  - apply lift_to; [lia|done|done|done|]. apply paren_run.
    assert (Hf' : forall j, follow j (Tok.RParen :: rest)) by (intros j; by apply follow_cons).
    apply lift_to; [lia|apply Hf'| | |by apply Ho].
    + intros Hp. apply atoks_no_assign; [lia|done].
    + intros Hp. apply atoks_primary. lia.
Qed.

(** ** Variables *)

Lemma var_get_run x s st v : read_var clock x (ap_state s) = (st, Ok v) -> var_get clock x s = (moved s 0 st, Ok v).
Proof.
  intros (st1 & r & Hr & Hv)%bind_inv. eapply bind_okc; [unfold on_state; by rewrite Hr|].
  injection Hv as <- <-. done.
Qed.

Lemma var_set_run x v s st r : write_var x v (ap_state s) = (st, Ok r) -> var_set x v s = (moved s 0 st, Ok r).
Proof.
  intros (st1 & u & Hr & Hv)%bind_inv. eapply bind_okc; [unfold on_state; by rewrite Hr|].
  injection Hv as <- <-. done.
Qed.

(** ** Primary and unary expressions *)

Lemma num_run n : own_run (ANum n).
Proof.
  intros rest st st' v Hf [= <- <-] f s Hr Hst Hd0 Hd Hfuel. cbn [prec] in *. change (level clock 14 f) with (parse_primary clock (level clock 1 f)).
  unfold parse_primary. rewrite peek_bind, Hr. cbn [head app atoks]. by rewrite bump_bind, Hst.
Qed.

(** After an identifier that is not followed by [++] or [--]. *)
Lemma ident_next {B} (m m' : ax B) (k : ax B) rest s : follow 14 rest -> remaining s = rest ->
  (next ← arith_peek; match next with Some Tok.PlusPlus => m | Some Tok.MinusMinus => m' | _ => k end) s = k s.
Proof.
  intros Hf Hr. rewrite peek_bind, Hr. assert (Hpp := follow_miss 14 Tok.PlusPlus rest eq_refl Hf).
  assert (Hmm := follow_miss 14 Tok.MinusMinus rest eq_refl Hf). destruct rest as [|t rest]; [done|].
  cbn [head] in *. by destruct t.
Qed.

Lemma var_run x : own_run (AVar x).
Proof.
  intros rest st st' v Hf He f s Hr Hst Hd0 Hd Hfuel. cbn [prec] in *. change (level clock 14 f) with (parse_primary clock (level clock 1 f)).
  unfold parse_primary. rewrite peek_bind, Hr. cbn [head app atoks]. rewrite bump_bind.
  rewrite (ident_next _ _ _ rest) by (exact Hf || exact (moved_remaining1 _ _ _ _ Hr)). erewrite var_get_run; [|by rewrite <-Hst in He]. by rewrite moved_moved.
Qed.

Lemma post_run inc x : own_run (APost inc x).
Proof.
  intros rest st st' v Hf (st1 & cur & Hc & (st2 & r & Hw & [= <- <-])%bind_inv)%bind_inv f s Hr Hst Hd0 Hd Hfuel.
  cbn [prec] in *. change (level clock 14 f) with (parse_primary clock (level clock 1 f)).
  unfold parse_primary. rewrite peek_bind, Hr. cbn [head app atoks]. rewrite bump_bind, peek_bind.
  rewrite (moved_remaining1 _ _ _ _ Hr). cbn [head]. destruct inc; cbn [incdec_tok]; rewrite bump_bind;
    (eapply bind_okc; [apply var_get_run; cbn; rewrite Hst; apply Hc|]); (eapply bind_okc; [by apply var_set_run|]);
    by rewrite !moved_moved.
Qed.

Lemma pre_run inc x : own_run (APre inc x).
Proof.
  intros rest st st' v Hf (st1 & cur & Hc & Hw)%bind_inv f s Hr Hst Hd0 Hd Hfuel. cbn [acost] in Hd. destruct f as [|f]; [lia|].
  cbn [prec]. rewrite (proj2 (proj2 (level_S f))). apply guarded_run; [lia|]. set (s1 := set_ap_depth _ s).
  assert (Hr1 : remaining s1 = incdec_tok inc :: Tok.Ident x :: rest) by done.
  unfold parse_unary_inner. rewrite peek_bind, Hr1.
  assert (Hpre : forall d, write_var x (wrapping_add cur d) st1 = (st', Ok v) ->
    parse_pre_incdec clock d s1 = (moved s1 (length (atoks (APre inc x))) st', Ok v)).
  { intros d Hd'. unfold parse_pre_incdec. rewrite bump_bind, peek_bind, (moved_remaining1 _ _ _ _ Hr1). cbn [head]. rewrite bump_bind.
    eapply bind_okc; [apply var_get_run; cbn; rewrite Hst; apply Hc|]. erewrite var_set_run; [|done]. by rewrite !moved_moved. }
  destruct inc; cbn [head incdec_tok]; by apply Hpre.
Qed.

(** Continue with what is left after [level k] has read [toks k e]. *)
Lemma level_bind {B} e k (m : Z -> ax B) f s rest st' v : level_run e -> (k <= 14)%nat -> follow k rest ->
  aeval clock e (ap_state s) = (st', Ok v) -> remaining s = toks k e ++ rest -> 0 <= ap_depth s ->
  ap_depth s + Z.of_nat (cost k e) <= MAX_ARITH_DEPTH -> MAX_ARITH_DEPTH < ap_depth s + Z.of_nat f ->
  (level clock k f ≫= m) s = m v (moved s (length (toks k e)) st').
Proof.
  intros Hl Hk Hf He Hr Hd0 Hd Hfuel. unfold mbind, comp_bind. by erewrite (Hl k rest); [|done..].
Qed.

Lemma un_run op e : level_run e -> own_run (AUn op e).
Proof.
  intros IH rest st st' v Hf (st1 & w & He & [= <- <-])%bind_inv f s Hr Hst Hd0 Hd Hfuel.
  cbn [acost] in Hd. destruct f as [|f]; [lia|]. cbn [prec] in *. rewrite (proj2 (proj2 (level_S f))).
  apply guarded_run; [lia|]. set (s1 := set_ap_depth _ s). assert (Hr1 : remaining s1 = unop_tok op :: toks 13 e ++ rest) by done.
  unfold parse_unary_inner. rewrite peek_bind, Hr1. cbn [head].
  assert (Hgo : forall B (m : Z -> ax B), (level clock 13 f ≫= m) (moved s1 1 (ap_state s1)) =
    m w (moved s1 (length (atoks (AUn op e))) st1)).
  { intros B m. erewrite level_bind; [by rewrite moved_moved|done|lia|done|cbn; by rewrite Hst|exact (moved_remaining1 _ _ _ _ Hr1)|cbn; unfold cost; lia..]. }
  assert (Hlast : level clock 13 f (moved s1 1 (ap_state s1)) = (moved s1 (length (atoks (AUn op e))) st1, Ok w)).
  { specialize (Hgo Z mret). unfold mbind, comp_bind in Hgo. destruct (level clock 13 f _) as [s2 [a|d|p]]; by injection Hgo as -> ->. }
  destruct op; cbn [unop_tok]; rewrite bump_bind; [by rewrite Hgo..|by rewrite Hlast|by rewrite Hgo].
Qed.

Lemma pow_run a b : nums_ok a = true -> nums_ok b = true -> level_run a -> level_run b -> own_run (APow a b).
Proof.
  intros Hna Hnb IHa IHb rest st st' v Hf (st1 & va & Ha & (st2 & vb & Hb & [= <- <-])%bind_inv)%bind_inv f s Hr Hst Hd0 Hd Hfuel.
  cbn [acost] in Hd. destruct f as [|f]; [lia|]. cbn [prec] in *. rewrite (proj1 (proj2 (level_S f))).
  apply guarded_run; [lia|]. set (s1 := set_ap_depth _ s).
  assert (Hr1 : remaining s1 = toks 13 a ++ Tok.StarStar :: toks 12 b ++ rest).
  { unfold s1, remaining in *; cbn in *. rewrite Hr. by rewrite <-app_assoc. }
  unfold exponentiation_inner. erewrite (level_bind a 13 _ f s1 (Tok.StarStar :: toks 12 b ++ rest)); [|done|lia|by eapply follow_op; [done|lia]|cbn; by rewrite Hst|done|cbn; unfold cost; lia..].
  rewrite (eat_hit _ _ _ (toks 12 b ++ rest)) by by apply moved_remaining.
  erewrite (level_bind b 12 _ f _ rest); [|done|lia|done|done|eapply moved_remaining1; by apply moved_remaining|cbn; unfold cost; lia..].
  rewrite !moved_moved. cbn [atoks]. rewrite length_app. cbn [length]. rewrite wrapping_pow_spec; [|exact (aeval_i64 _ _ _ _ _ Hna Ha)|exact (aeval_i64 _ _ _ _ _ Hnb Hb)].
  unfold mret, comp_ret, toks. f_equal; f_equal; lia.
Qed.

(** ** Conditional and assignment expressions *)

Lemma aeval_tern c t e st st' v : quiet t = true -> quiet e = true -> aeval clock (ATern c t e) st = (st', Ok v) ->
  exists vc vt ve, aeval clock c st = (st', Ok vc) /\ aeval clock t st' = (st', Ok vt) /\ aeval clock e st' = (st', Ok ve) /\
    v = if negb (vc =? 0) then vt else ve.
Proof.
  intros Ht He Hk. cbn [aeval] in Hk. apply bind_inv in Hk as (st1 & vc & Hc & Hk). destruct (quiet_eval clock t st1 Ht) as [vt Hvt], (quiet_eval clock e st1 He) as [ve Hve].
  exists vc, vt, ve. cbn beta in Hk. destruct (negb (vc =? 0)); [rewrite Hvt in Hk|rewrite Hve in Hk]; by injection Hk as <- <-.
Qed.

Lemma tern_run c t e : quiet t = true -> quiet e = true -> level_run c -> level_run t -> level_run e -> own_run (ATern c t e).
Proof.
  intros Hqt Hqe IHc IHt IHe rest st st' v Hf He f s Hr Hst Hd0 Hd Hfuel.
  apply aeval_tern in He as (vc & vt & ve & Hc & Ht & He & ->); [|done..].
  cbn [acost] in Hd. destruct f as [|f]; [lia|]. cbn [prec] in *. rewrite (proj1 (level_S f)).
  apply guarded_run; [lia|]. set (s1 := set_ap_depth _ s).
  assert (Hr1 : remaining s1 = toks 2 c ++ Tok.Question :: toks 1 t ++ Tok.Colon :: toks 1 e ++ rest).
  { unfold s1, remaining in *; cbn in *. rewrite Hr. by rewrite <-app_assoc; cbn; rewrite <-app_assoc. }
  rewrite assign_inner_other by (rewrite Hr1; by apply toks_no_assign; [lia|]).
  unfold parse_ternary. rewrite parse_logical_or_tower. change (tower bin_tower (level clock 12 f)) with (level clock 2 f).
  erewrite (level_bind c 2 _ f s1 (Tok.Question :: _)); [|done|lia|by eapply follow_op; [done|lia]|cbn; by rewrite Hst|done|cbn; unfold cost; lia..].
  rewrite (eat_hit _ _ _ (toks 1 t ++ Tok.Colon :: toks 1 e ++ rest)) by by apply moved_remaining. rewrite moved_moved.
  set (s2 := moved s1 _ _). assert (Hr2 : remaining s2 = toks 1 t ++ Tok.Colon :: toks 1 e ++ rest).
  { unfold s2. rewrite <-moved_moved with (st := st'). eapply moved_remaining1. by apply moved_remaining. }
  erewrite (level_bind t 1 _ f s2 (Tok.Colon :: _)); [|done|lia|by apply follow_cons|done|done|cbn; unfold cost; lia..].
  rewrite (eat_hit _ _ _ (toks 1 e ++ rest)) by by apply moved_remaining. rewrite moved_moved.
  set (s3 := moved s2 _ _). assert (Hr3 : remaining s3 = toks 1 e ++ rest).
  { unfold s3. rewrite <-moved_moved with (st := st'). eapply moved_remaining1. by apply moved_remaining. }
  erewrite (level_bind e 1 _ f s3 rest); [|done|lia|done|done|done|cbn; unfold cost; lia..].
  unfold s3, s2. rewrite !moved_moved. cbn [atoks]. rewrite !length_app. cbn [length]. rewrite length_app. cbn [length].
  unfold mret, comp_ret, toks. f_equal; f_equal; lia.
Qed.

Lemma asgop_tok_assign op : is_assign_op (asgop_tok op) = true.
Proof. by destruct op. Qed.

Lemma asg_value op x st st' w v : (match op with AsgEq => write_var x w | _ => cur ← read_var clock x; write_var x (asgop_value op cur w) end) st = (st', Ok v) ->
  forall s, ap_state s = st -> (result ← (if decide (asgop_tok op = Tok.Eq) then mret w
     else cur ← var_get clock x; mret (apply_compound_op (asgop_tok op) cur w)); v ← var_set x result; mret (Some v)) s = (moved s 0 st', Ok (Some v)).
Proof.
  intros He s Hst. destruct op; cbn [asgop_tok];
    [rewrite decide_True by done; eapply bind_okc; [done|]; eapply bind_okc; [apply var_set_run; by rewrite Hst|done]|
     rewrite decide_False by done; apply bind_inv in He as (st2 & cur & Hc & Hw);
     (eapply bind_okc; [eapply bind_okc; [apply var_get_run; rewrite Hst; exact Hc|done]|]);
     (eapply bind_okc; [apply var_set_run; exact Hw|by rewrite moved_moved])..].
Qed.

Lemma asg_run op x e : level_run e -> own_run (AAsg op x e).
Proof.
  intros IH rest st st' v Hf He f s Hr Hst Hd0 Hd Hfuel. cbn [acost] in Hd. destruct f as [|f]; [lia|]. cbn [prec] in *.
  assert (exists st1 w, aeval clock e st = (st1, Ok w) /\
    (match op with AsgEq => write_var x w | _ => cur ← read_var clock x; write_var x (asgop_value op cur w) end) st1 = (st', Ok v))
    as (st1 & w & Hw & Hv) by (destruct op; by apply bind_inv in He).
  rewrite (proj1 (level_S f)). apply guarded_run; [lia|]. set (s1 := set_ap_depth _ s).
  assert (Hr1 : remaining s1 = Tok.Ident x :: asgop_tok op :: toks 1 e ++ rest) by done.
  unfold assign_inner. rewrite peek_bind, Hr1. cbn [head]. unfold get at 1. unfold mbind at 1, comp_bind at 1. rewrite bump_bind.
  assert (Hc : try_compound_assign clock (level clock 1 f) x (moved s1 1 (ap_state s1)) =
    (moved s1 (length (atoks (AAsg op x e))) st', Ok (Some v))); [|by eapply bind_okc].
  unfold try_compound_assign. rewrite peek_bind, (moved_remaining1 _ _ _ _ Hr1). cbn [head].
  rewrite asgop_tok_assign. cbn [negb]. rewrite bump_bind, moved_moved. set (s2 := moved s1 _ _).
  assert (Hr2 : remaining s2 = toks 1 e ++ rest) by exact (moved_remaining s1 [Tok.Ident x; asgop_tok op] _ _ Hr1).
  erewrite (level_bind e 1 _ f s2 rest); [|done|lia|done|cbn; by rewrite Hst|done|cbn; unfold cost; lia..].
  erewrite (asg_value op x st1 st' w v Hv); [|done]. unfold s2. rewrite !moved_moved. unfold toks. cbn [atoks length]. f_equal; f_equal; lia.
Qed.

(** ** Chains of binary operators *)

(** The operators of level [k] on the left spine of [e]. *)
Fixpoint spine (k : nat) (e : aexp) : nat :=
  match e with ABin op a _ => if decide (binop_level op = k) then S (spine k a) else 0 | _ => 0 end.

(** The first operand of the chain is read by the next level, the rest by the
    loop, in as many rounds as there are operators. *)
Definition spine_run (e : aexp) : Prop := forall k rest f s st' v, loop_level k -> follow (S k) rest ->
  aeval clock e (ap_state s) = (st', Ok v) -> remaining s = toks k e ++ rest -> 0 <= ap_depth s ->
  ap_depth s + Z.of_nat (cost k e) <= MAX_ARITH_DEPTH -> MAX_ARITH_DEPTH < ap_depth s + Z.of_nat f ->
  exists s1 a, level clock (S k) f s = (s1, Ok a) /\ ap_tokens s1 = ap_tokens s /\
    forall n, arith_iterate (spine k e + n) (bin_step (ops_at k) (level clock (S k) f)) a s1 =
      arith_iterate n (bin_step (ops_at k) (level clock (S k) f)) v (moved s (length (toks k e)) st').

Lemma loop_level_bound k : loop_level k -> (k <= 11)%nat.
Proof. intros [->|Hk]; lia. Qed.

Lemma toks_loop k e : loop_level k -> prec e <> k -> toks k e = toks (S k) e /\ cost k e = cost (S k) e.
Proof.
  intros Hk Hp. pose proof (loop_level_bound k Hk). unfold toks, wrap, cost, cost_at.
  destruct (Nat.leb_spec k (prec e)), (Nat.leb_spec (S k) (prec e)); try lia; split; try done;
    rewrite (descent_S k) by lia; by rewrite guard_loop.
Qed.

Lemma spine_other e : level_run e -> (forall k, prec e <> k -> spine k e = 0%nat) ->
  forall k, prec e <> k -> loop_level k -> forall rest f s st' v, follow (S k) rest ->
  aeval clock e (ap_state s) = (st', Ok v) -> remaining s = toks k e ++ rest -> 0 <= ap_depth s ->
  ap_depth s + Z.of_nat (cost k e) <= MAX_ARITH_DEPTH -> MAX_ARITH_DEPTH < ap_depth s + Z.of_nat f ->
  exists s1 a, level clock (S k) f s = (s1, Ok a) /\ ap_tokens s1 = ap_tokens s /\
    forall n, arith_iterate (spine k e + n) (bin_step (ops_at k) (level clock (S k) f)) a s1 =
      arith_iterate n (bin_step (ops_at k) (level clock (S k) f)) v (moved s (length (toks k e)) st').
Proof.
  intros Hl Hs k Hp Hk rest f s st' v Hf He Hr Hd0 Hd Hfuel. pose proof (loop_level_bound k Hk).
  destruct (toks_loop k e Hk Hp) as [Ht Hc]. rewrite Ht, Hc in *. eexists _, v. split; [exact (Hl (S k) rest _ _ _ ltac:(lia) Hf He f s Hr eq_refl Hd0 Hd Hfuel)|].
  split; [done|]. intros n. by rewrite Hs.
Qed.

Lemma aeval_bin op a b st st' v : aeval clock (ABin op a b) st = (st', Ok v) ->
  (negb (bool_decide (op = BLand \/ op = BLor)) || quiet b) = true ->
  exists st1 va st2 vb, aeval clock a st = (st1, Ok va) /\ aeval clock b st1 = (st2, Ok vb) /\ binop_value op va vb st2 = (st', Ok v).
Proof.
  intros He Hq.
  assert (Hstrict : (va ← aeval clock a; vb ← aeval clock b; binop_value op va vb) st = (st', Ok v) ->
    exists st1 va st2 vb, aeval clock a st = (st1, Ok va) /\ aeval clock b st1 = (st2, Ok vb) /\ binop_value op va vb st2 = (st', Ok v)).
  { intros (st1 & va & Ha & (st2 & vb & Hb & Hv)%bind_inv)%bind_inv. by exists st1, va, st2, vb. }
  destruct op; try exact (Hstrict He); cbn [aeval] in He; apply bind_inv in He as (st1 & va & Ha & Hk); cbn beta in Hk;
    destruct (quiet_eval clock b st1 Hq) as [vb Hvb]; exists st1, va, st1, vb; (split; [done|]; split; [done|]); cbn [binop_value].
  - destruct (va =? 0); cbn [negb orb] in *; [|by injection Hk as <- <-].
    apply bind_inv in Hk as (st2 & vb' & Hb & Hk). rewrite Hvb in Hb. injection Hb as <- <-. done.
  - destruct (va =? 0); cbn [negb andb] in *; [by injection Hk as <- <-|].
    apply bind_inv in Hk as (st2 & vb' & Hb & Hk). rewrite Hvb in Hb. injection Hb as <- <-. done.
Qed.

Lemma bin_spine op a b : level_run b -> spine_run a -> (negb (bool_decide (op = BLand \/ op = BLor)) || quiet b) = true ->
  forall rest f s st' v, follow (S (binop_level op)) rest ->
  aeval clock (ABin op a b) (ap_state s) = (st', Ok v) -> remaining s = atoks (ABin op a b) ++ rest -> 0 <= ap_depth s ->
  ap_depth s + Z.of_nat (acost (ABin op a b)) <= MAX_ARITH_DEPTH -> MAX_ARITH_DEPTH < ap_depth s + Z.of_nat f ->
  exists s1 x, level clock (S (binop_level op)) f s = (s1, Ok x) /\ ap_tokens s1 = ap_tokens s /\
    forall n, arith_iterate (S (spine (binop_level op) a) + n) (bin_step (ops_at (binop_level op)) (level clock (S (binop_level op)) f)) x s1 =
      arith_iterate n (bin_step (ops_at (binop_level op)) (level clock (S (binop_level op)) f)) v (moved s (length (atoks (ABin op a b))) st').
Proof.
  intros Hb Hsa Hq rest f s st' v Hf He Hr Hd0 Hd Hfuel. set (p := binop_level op) in *.
  pose proof (binop_level_loop op) as Hk. fold p in Hk. pose proof (loop_level_bound p Hk).
  apply aeval_bin in He as (st1 & va & st2 & vb & Hva & Hvb & Hv); [|done]. cbn [acost] in Hd. fold p in Hd.
  assert (Hr1 : remaining s = toks p a ++ binop_tok op :: toks (S p) b ++ rest).
  { rewrite Hr. cbn [atoks]. fold p. by rewrite <-app_assoc. }
  destruct (Hsa p (binop_tok op :: toks (S p) b ++ rest) f s st1 va) as (s1 & x & Hx & Hts & Hit); try done; [|unfold cost; lia|].
  { eapply follow_op; [apply binop_tok_level|fold p; lia]. }
  exists s1, x. split; [done|]. split; [done|]. intros n. replace (S (spine p a) + n)%nat with (spine p a + S n)%nat by lia.
  rewrite Hit. cbn [arith_iterate]. set (s2 := moved s _ st1).
  assert (Hr2 : remaining s2 = binop_tok op :: toks (S p) b ++ rest) by by apply moved_remaining.
  assert (Hstep : bin_step (ops_at p) (level clock (S p) f) va s2 = (moved s (length (atoks (ABin op a b))) st', Ok (inl v))).
  { unfold p. erewrite bin_step_hit by done. fold p.
    erewrite (level_bind b (S p) _ f _ rest); [|done|lia|done|done|by eapply moved_remaining1|done|cbn; unfold cost; lia|done].
    erewrite op_fun_value; [|done]. unfold s2. rewrite !moved_moved. cbn [atoks]. fold p. rewrite length_app. cbn [length]. unfold toks.
    f_equal; f_equal; lia. }
  unfold mbind at 1, comp_bind at 1. by rewrite Hstep.
Qed.

Lemma spine_length k e : (spine k e <= length (toks k e))%nat.
Proof.
  induction e as [| | | | | |op a IHa b _| |]; cbn [spine]; try lia. case_decide as Hk; [|lia]. subst k.
  unfold toks, wrap at 1. cbn [prec]. rewrite Nat.leb_refl. cbn [atoks]. rewrite length_app. cbn [length].
  unfold toks in IHa. lia.
Qed.

(** The own level of a chain: the loop ends when the spine is read. *)
Lemma bin_run op a b : level_run b -> spine_run a -> (negb (bool_decide (op = BLand \/ op = BLor)) || quiet b) = true ->
  own_run (ABin op a b).
Proof.
  intros Hb Hsa Hq rest st st' v Hf He f s Hr Hst Hd0 Hd Hfuel. cbn [prec] in *. rewrite level_loop by apply binop_level_loop.
  destruct (bin_spine op a b Hb Hsa Hq rest f s st' v) as (s1 & x & Hx & Hts & Hit); try done; [|by rewrite Hst|].
  { eapply follow_le, Hf. lia. }
  eapply bind_okc; [done|]. unfold eat_loop, mbind, comp_bind, get. rewrite Hts.
  assert (Hlen : (S (spine (binop_level op) a) <= length (ap_tokens s))%nat).
  { pose proof (spine_length (binop_level op) (ABin op a b)) as Hsp. cbn [spine] in Hsp. rewrite decide_True in Hsp by done.
    assert (length (remaining s) <= length (ap_tokens s))%nat by (unfold remaining; rewrite length_drop; lia).
    rewrite Hr, length_app in *. unfold toks, wrap in Hsp. cbn [prec] in Hsp. rewrite Nat.leb_refl in Hsp. lia. }
  set (m := (length (ap_tokens s) - S (spine (binop_level op) a))%nat).
  replace (S (length (ap_tokens s))) with (S (spine (binop_level op) a) + S m)%nat by lia. rewrite Hit.
  cbn [arith_iterate]. unfold mbind, comp_bind. erewrite ops_stop; [done|apply binop_level_loop|by apply moved_remaining|done].
Qed.

(** Every calm expression is read by every level up to the depth it costs. *)
Lemma all_run e : calm e = true -> nums_ok e = true -> level_run e /\ spine_run e.
Proof.
  revert e.
  assert (Hother : forall e, own_run e -> (forall k, spine k e = 0%nat) -> (forall k, loop_level k -> prec e <> k) -> level_run e /\ spine_run e).
  { intros e Ho Hs Hp. apply own_level in Ho. split; [done|]. intros k rest f s st' v Hk. eapply spine_other; eauto. }
  assert (Hprec : forall p, (p = 1 \/ 12 <= p)%nat -> forall k, loop_level k -> p <> k) by (unfold loop_level; lia).
  intros e. induction e as [n|x|inc x|inc x|op e IH|a IHa b IHb|op a IHa b IHb|c IHc t IHt e IHe|op x e IH]; cbn [calm nums_ok]; intros Hc Hn; bool_to_prop.
  - apply Hother; [apply num_run|done|apply Hprec; cbn; lia].
  - apply Hother; [apply var_run|done|apply Hprec; cbn; lia].
  - apply Hother; [apply pre_run|done|apply Hprec; cbn; lia].
  - apply Hother; [apply post_run|done|apply Hprec; cbn; lia].
  - apply Hother; [by apply un_run, IH|done|apply Hprec; cbn; lia].
  - apply Hother; [apply pow_run; [done..|by apply IHa|by apply IHb]|done|apply Hprec; cbn; lia].
  - destruct IHa as [IHa Hsa], IHb as [IHb Hsb]; [done..|].
    assert (Hl : level_run (ABin op a b)) by (by apply own_level, bin_run). split; [done|].
    intros k rest f s st' v Hk Hf He Hr Hd0 Hd Hfuel. destruct (decide (binop_level op = k)) as [<-|Hne].
    + assert (Hw : toks (binop_level op) (ABin op a b) = atoks (ABin op a b) /\ cost (binop_level op) (ABin op a b) = acost (ABin op a b)).
      { unfold toks, wrap, cost, cost_at. cbn [prec]. rewrite Nat.leb_refl, descent_refl. done. }
      destruct Hw as [Hw Hcst]. rewrite Hw, Hcst in *. cbn [spine]. rewrite decide_True by done. by eapply bin_spine.
    + eapply spine_other; try done. intros k' Hk'. cbn [spine]. by rewrite decide_False.
  - apply Hother; [by apply tern_run; [..|apply IHc|apply IHt|apply IHe]|done|apply Hprec; cbn; lia].
  - apply Hother; [by apply asg_run, IH|done|apply Hprec; cbn; lia].
Qed.
End runs.
