(* ===== verification/ArithText.v ===== *)
(** * Arithmetic: the text of an expression

    The tokenizer reads back the tokens of an expression printed with one space
    between them, so [eval_arithmetic] gives a printed expression its meaning. *)

From S2P Require Import Prelude Strings IndexMap State Lexer LexerProps WordParser WordParserProps Arith ArithProps ArithSpec ArithRun.

(** ** Printed tokens *)

Definition show_tok (t : ArithToken) : str :=
  match t with
  | Tok.Number n => Z_to_string n
  | Tok.Ident x => x
  | Tok.Plus => #"+" | Tok.Minus => #"-" | Tok.Star => #"*" | Tok.Slash => #"/" | Tok.Percent => #"%" | Tok.StarStar => #"**"
  | Tok.LShift => #"<<" | Tok.RShift => #">>" | Tok.Lt => #"<" | Tok.Gt => #">" | Tok.Le => #"<=" | Tok.Ge => #">="
  | Tok.EqEq => #"==" | Tok.Ne => #"!=" | Tok.Amp => #"&" | Tok.Caret => #"^" | Tok.Pipe => #"|" | Tok.AmpAmp => #"&&"
  | Tok.PipePipe => #"||" | Tok.Bang => #"!" | Tok.Tilde => #"~" | Tok.Question => #"?" | Tok.Colon => #":" | Tok.Comma => #","
  | Tok.LParen => #"(" | Tok.RParen => #")" | Tok.Eq => #"=" | Tok.PlusEq => #"+=" | Tok.MinusEq => #"-=" | Tok.StarEq => #"*="
  | Tok.SlashEq => #"/=" | Tok.PercentEq => #"%=" | Tok.LShiftEq => #"<<=" | Tok.RShiftEq => #">>=" | Tok.AmpEq => #"&="
  | Tok.CaretEq => #"^=" | Tok.PipeEq => #"|=" | Tok.PlusPlus => #"++" | Tok.MinusMinus => #"--"
  end.

Definition print_tokens (ts : list ArithToken) : str := join #" " (map show_tok ts).

Definition aprint (e : aexp) : str := print_tokens (atoks e).

Definition ident_ok (x : str) : bool :=
  match x with c :: x' => is_ident_start c && forallb is_ident_byte x' | [] => false end.

Definition tok_good (t : ArithToken) : bool :=
  match t with Tok.Number n => (0 <=? n) && (n <=? I64_MAX) | Tok.Ident x => ident_ok x | _ => true end.

(** ** Reading a token *)

Section read.
Context `{Target} (expand_parameter : list Ascii.ascii -> ex (list Ascii.ascii)).
Context (input : list Ascii.ascii) (Hascii : is_ascii input = true).

(** The end of the text, or a space. *)
Definition gap (tail : str) : Prop := tail = [] \/ exists tail', tail = " "%char :: tail'.

Lemma lookup_at p l i : drop p input = l -> input !! (p + i)%nat = l !! i.
Proof. intros <-. by rewrite lookup_drop. Qed.

Lemma slice_at p w tail : drop p input = w ++ tail -> w <> [] -> str_slice input p (p + length w) = (Ok w : res stop str).
Proof.
  intros Hd Hw. assert (Hlen := f_equal length Hd). rewrite length_drop, length_app in Hlen.
  assert (0 < length w)%nat by (destruct w; cbn; [done|lia]).
  unfold str_slice. rewrite (proj2 (Nat.leb_le _ _)), !is_ascii_boundary by (done || lia). cbn [andb]. f_equal.
  unfold slice. rewrite Hd. replace (p + length w - p)%nat with (length w) by lia. by rewrite take_app_length.
Qed.

(** A scan reads exactly the bytes before the first that stops it. *)
Lemma scan_at ok p w tail : drop p input = w ++ tail -> forallb ok w = true -> (forall c, head tail = Some c -> ok c = false) ->
  advance_while input ok (rest_from input p) p = (p + length w)%nat.
Proof.
  intros Hd Hw Ht. assert (Hlen := f_equal length Hd). rewrite length_drop, length_app in Hlen. unfold rest_from.
  assert (Hgo : forall n p w, drop p input = w ++ tail -> forallb ok w = true -> (length w + length tail <= n)%nat ->
    advance_while input ok n p = (p + length w)%nat).
  { clear Hlen Hd Hw p w. induction n as [|n IH]; intros p w Hd Hw Hn.
    - destruct w; cbn in *; [lia|lia].
    - cbn [advance_while]. assert (Hp := lookup_at p (w ++ tail) 0 Hd). rewrite Nat.add_0_r in Hp. rewrite Hp.
      destruct w as [|c w]; cbn [app length] in *.
      + destruct tail as [|c tail]; cbn; [lia|]. rewrite (Ht c eq_refl). lia.
      + cbn in Hw. apply andb_true_iff in Hw as [Hc Hw]. cbn. rewrite Hc. rewrite (IH (S p) w); [lia| |done|lia].
        rewrite <-Nat.add_1_r, <-drop_drop, Hd. done. }
  apply (Hgo _ _ _ Hd Hw). lia.
Qed.

Lemma gap_stops (ok : byte -> bool) tail : gap tail -> ok " "%char = false -> forall c, head tail = Some c -> ok c = false.
Proof. intros [->|[t ->]] Hok c; [done|]. by intros [= <-]. Qed.

Lemma drop_S p (c : byte) l : drop p input = c :: l -> drop (S p) input = l.
Proof. intros Hd. by rewrite <-Nat.add_1_r, <-drop_drop, Hd. Qed.

Lemma number_read p n tail : 0 <= n <= I64_MAX -> drop p input = Z_to_string n ++ tail -> gap tail ->
  forall b, input !! p = Some b -> arith_tokenize_number input p b = (Ok ((p + length (Z_to_string n))%nat, [Tok.Number n]) : res stop _).
Proof.
  intros Hn Hd Hg b Hb. destruct (number_text n) as (c & s & Hz & Hc & Hs & Hzero); [lia|]. rewrite Hz in *.
  assert (Hp := lookup_at p _ 0 Hd). rewrite Nat.add_0_r, Hb in Hp. cbn in Hp. injection Hp as ->.
  assert (Hd1 := drop_S _ _ _ Hd). cbn [app] in Hd1.
  assert (Hnext := lookup_at p _ 1 Hd). rewrite Nat.add_1_r in Hnext.
  assert (Hpre : arith_tokenize_prefixed_number input p p c = (Ok None : res stop _)).
  { unfold arith_tokenize_prefixed_number. destruct (decide (c <> "0"%char)) as [|Heq]; [done|]. apply dec_stable in Heq as ->.
    destruct (Hzero eq_refl) as [-> ->]. rewrite Hnext. by destruct Hg as [->|[t ->]]. }
  unfold arith_tokenize_number. rewrite Hpre. cbn [mbind res_bind].
  rewrite (scan_at _ _ s tail Hd1 Hs) by by apply gap_stops.
  assert (Hend : input !! (S p + length s)%nat <> Some "#"%char).
  { rewrite (lookup_at (S p) (s ++ tail)) by done. rewrite lookup_app_r, Nat.sub_diag by done. by destruct Hg as [->|[t ->]]. }
  unfold arith_tokenize_base_syntax. rewrite decide_True by done. unfold mbind at 1, mret at 1, res_bind at 1, res_ret at 1.
  replace (S p + length s)%nat with (p + length (c :: s))%nat by (cbn; lia). rewrite (slice_at p (c :: s) tail) by done.
  rewrite <-Hz. unfold mbind, mret, res_bind, res_ret, parse_i64. by rewrite parse_signed_to_string by (unfold I64_MIN, I64_MAX in *; lia).
Qed.

Lemma ident_read p x tail : ident_ok x = true -> drop p input = x ++ tail -> gap tail ->
  arith_tokenize_ident input p = (Ok ((p + length x)%nat, [Tok.Ident x]) : res stop _).
Proof.
  intros Hx Hd Hg. destruct x as [|c x]; [done|]. cbn in Hx. apply andb_true_iff in Hx as [Hc Hx].
  unfold arith_tokenize_ident. rewrite (scan_at _ _ x tail (drop_S _ _ _ Hd) Hx) by by apply gap_stops.
  replace (S p + length x)%nat with (p + length (c :: x))%nat by (cbn; lia). by rewrite (slice_at p (c :: x) tail).
Qed.

Lemma digit_byte b : is_ascii_digit b = true -> is_ascii_whitespace b = false /\ b <> "$"%char.
Proof.
  unfold is_ascii_digit, is_ascii_whitespace. intros Hb. split; [|by intros ->].
  apply bool_decide_eq_false. rewrite list_elem_of_In. intros Hin. cbn in Hin. repeat destruct Hin as [<-|Hin]; done.
Qed.

Lemma ident_byte b : is_ident_start b = true -> is_ascii_whitespace b = false /\ b <> "$"%char /\ is_ascii_digit b = false.
Proof.
  intros Hb. split_and!.
  - apply bool_decide_eq_false. rewrite list_elem_of_In. intros Hin. cbn in Hin. repeat destruct Hin as [<-|Hin]; done.
  - by intros ->.
  - unfold is_ident_start, is_ascii_alphabetic, is_ascii_digit in *. apply orb_true_iff in Hb as [Hb|Hb%bool_decide_eq_true]; [|by subst].
    apply not_true_is_false. intros Hd. lia.
Qed.

Definition arith_op_token (t : ArithToken) : bool := match t with Tok.Number _ | Tok.Ident _ => false | _ => true end.

Lemma operator_read p t tail b : arith_op_token t = true -> drop p input = show_tok t ++ tail -> gap tail -> input !! p = Some b ->
  is_ascii_whitespace b = false /\ b <> "$"%char /\ is_ascii_digit b = false /\ is_ident_start b = false /\
  arith_tokenize_operator input p b = ((p + length (show_tok t))%nat, [t]).
Proof.
  intros Ht Hd Hg Hb. assert (H0 := lookup_at p _ 0 Hd). assert (H1 := lookup_at p _ 1 Hd). assert (H2 := lookup_at p _ 2 Hd).
  rewrite Nat.add_0_r, Hb in H0. rewrite Nat.add_1_r in H1. replace (p + 2)%nat with (S (S p)) in H2 by lia.
  unfold arith_tokenize_operator, arith_tokenize_plus_minus_star, arith_tokenize_angle, arith_tokenize_left_angle,
    arith_tokenize_right_angle, arith_tokenize_amp_pipe, arith_push_op2, arith_tokenize_single.
  clear Hd Hb. destruct t; try done; destruct Hg as [->|[t ->]]; cbn in H0, H1, H2; injection H0 as ->; rewrite ?H1, ?H2;
    (split_and!; [reflexivity|discriminate|reflexivity|reflexivity|]); cbn [show_tok]; rewrite <-?(Nat.add_1_r p); reflexivity.
Qed.

Lemma tok_good_nonempty t : tok_good t = true -> show_tok t <> [].
Proof.
  destruct t; try done; cbn; intros Hg.
  - destruct (number_text n) as (c & s & -> & _); [lia|done].
  - by destruct name.
Qed.

Lemma token_read t p tail st : tok_good t = true -> drop p input = show_tok t ++ tail -> gap tail ->
  exists b, input !! p = Some b /\ arith_tokenize_at expand_parameter input p b st = (st, Ok ((p + length (show_tok t))%nat, [t])).
Proof.
  intros Ht Hd Hg. pose proof (tok_good_nonempty t Ht) as Hne. assert (Hp := lookup_at p _ 0 Hd). rewrite Nat.add_0_r in Hp.
  destruct (show_tok t) as [|b w] eqn:Hw; [done|]. exists b. cbn in Hp. split; [done|]. rewrite <-Hw in Hd, Hne |- *. unfold arith_tokenize_at.
  destruct (arith_op_token t) eqn:Hop.
  - destruct (operator_read p t tail b Hop Hd Hg Hp) as (-> & Hdol & -> & -> & Hr). rewrite decide_False by done. by rewrite Hr.
  - destruct t; try done; cbn [show_tok tok_good] in *.
    + destruct (number_text n) as (c & s & Hz & Hc & _); [lia|]. assert (b = c) as -> by congruence.
      destruct (digit_byte c Hc) as [-> Hdol]. rewrite decide_False, Hc by done. unfold lift_res.
      by rewrite (number_read p n tail) by (done || lia).
    + assert (Hi : is_ident_start b = true) by (rewrite Hw in Ht; cbn in Ht; by apply andb_true_iff in Ht as [? _]).
      destruct (ident_byte b Hi) as (-> & Hdol & ->). rewrite decide_False, Hi by done. unfold lift_res. by rewrite (ident_read p name tail).
Qed.

Lemma tokens_read ts : forall n p acc st, forallb tok_good ts = true -> drop p input = print_tokens ts -> (length input <= p + n)%nat ->
  arith_tokenize_loop expand_parameter input n p acc st = (st, Ok (acc ++ ts)).
Proof.
  induction ts as [|t ts IH]; intros n p acc st Hg Hd Hn.
  - assert (Hp := lookup_at p _ 0 Hd). rewrite Nat.add_0_r in Hp. cbn in Hp.
    rewrite app_nil_r. destruct n; cbn [arith_tokenize_loop]; by rewrite Hp.
  - cbn [forallb] in Hg. apply andb_true_iff in Hg as [Ht Hts]. pose proof (tok_good_nonempty t Ht) as Hne.
    assert (Hlen := f_equal length Hd). rewrite length_drop in Hlen.
    set (tail := match ts with [] => [] | _ => " "%char :: print_tokens ts end).
    assert (Hdt : drop p input = show_tok t ++ tail) by (rewrite Hd; destruct ts; cbn; by rewrite ?app_nil_r).
    assert (Hgap : gap tail) by (destruct ts; [by left|right; eauto]).
    destruct (token_read t p tail st Ht Hdt Hgap) as (b & Hb & Hread). pose proof (lookup_lt_Some _ _ _ Hb).
    destruct n as [|n]; [lia|]. cbn [arith_tokenize_loop]. rewrite Hb. unfold mbind at 1, comp_bind at 1. rewrite Hread. cbn [fst snd].
    assert (Hdrop : drop (p + length (show_tok t)) input = tail) by by rewrite <-drop_drop, Hdt, drop_app_length.
    assert (0 < length (show_tok t))%nat by (destruct (show_tok t); cbn; [done|lia]).
    destruct ts as [|t' ts'].
    + rewrite (IH n _ (acc ++ [t])) by (done || lia). by rewrite app_nil_r.
    + assert (Hsp := lookup_at _ _ 0 Hdrop). rewrite Nat.add_0_r in Hsp. cbn in Hsp. pose proof (lookup_lt_Some _ _ _ Hsp).
      destruct n as [|n]; [lia|]. cbn [arith_tokenize_loop]. rewrite Hsp. unfold mbind at 1, comp_bind at 1.
      unfold arith_tokenize_at at 1. change (is_ascii_whitespace " "%char) with true. cbn [fst snd mret comp_ret].
      rewrite app_nil_r, IH; [by rewrite <-app_assoc|done|by apply drop_S in Hdrop|lia].
Qed.
End read.

(** ** Trimming *)

(** A printable byte, which no white space character contains at its ends. *)
Definition inner (c : byte) : bool := (33 <=? byte_val c) && (byte_val c <? 127).

Lemma strip_ws_id fuel ws s : (forall w, w ∈ ws -> match w with x :: _ => inner x = false | [] => False end) ->
  match s with c :: _ => inner c = true | [] => True end -> strip_ws fuel ws s = s.
Proof.
  intros Hws Hs. destruct fuel; cbn [strip_ws]; [done|]. replace (find_map _ ws) with (@None str); [done|]. symmetry.
  apply find_map_None. intros w Hw. specialize (Hws w Hw). destruct w as [|x w], s as [|c s]; cbn; try done.
  rewrite decide_False; [done|]. congruence.
Qed.

Lemma trim_id s : (forall c, head s = Some c -> inner c = true) -> (forall c, last s = Some c -> inner c = true) -> trim s = s.
Proof.
  intros Hh Hl. unfold trim, trim_start. rewrite strip_ws_id.
  - unfold trim_end. rewrite strip_ws_id; [apply reverse_involutive| |].
    + intros w Hw. assert (Hall : forallb (fun w => match w with x :: _ => negb (inner x) | [] => false end) (map reverse white_space) = true) by (vm_compute; reflexivity).
      rewrite forallb_forall in Hall. specialize (Hall w). rewrite <-list_elem_of_In in Hall. specialize (Hall Hw).
      destruct w; [done|]. by apply negb_true_iff.
    + destruct (reverse s) as [|c r] eqn:Hr; [done|]. apply Hl.
      apply (f_equal reverse) in Hr. rewrite reverse_involutive, reverse_cons in Hr. by rewrite Hr, last_snoc.
  - intros w Hw. assert (Hall : forallb (fun w => match w with x :: _ => negb (inner x) | [] => false end) white_space = true) by (vm_compute; reflexivity).
    rewrite forallb_forall in Hall. specialize (Hall w). rewrite <-list_elem_of_In in Hall. specialize (Hall Hw).
    destruct w; [done|]. by apply negb_true_iff.
  - destruct s; [done|]. by apply Hh.
Qed.

Lemma tok_inner t : tok_good t = true -> forallb inner (show_tok t) = true.
Proof.
  assert (Hdig : forall b, is_ascii_digit b = true -> inner b = true) by (unfold is_ascii_digit, inner; lia).
  assert (Hid : forall b, is_ident_byte b = true -> inner b = true).
  { unfold is_ident_byte, is_ascii_alphanumeric, is_ascii_alphabetic, is_ascii_digit, inner. intros b [Hb|Hb%bool_decide_eq_true]%orb_true_iff; [lia|by subst]. }
  assert (Hall : forall (f g : byte -> bool) s, (forall b, f b = true -> g b = true) -> forallb f s = true -> forallb g s = true).
  { intros f g s Hfg. rewrite !forallb_forall. eauto. }
  destruct t; try done; cbn [tok_good show_tok]; intros Hg.
  - destruct (number_text n) as (c & s & -> & Hc & Hs & _); [lia|]. cbn [forallb]. rewrite (Hdig c Hc). by eapply Hall, Hs.
  - destruct name as [|c x]; [done|]. cbn in Hg |- *. apply andb_true_iff in Hg as [Hc Hx]. rewrite (Hid c); [by eapply Hall, Hx|].
    unfold is_ident_start, is_ident_byte, is_ascii_alphanumeric in *. by destruct (is_ascii_alphabetic c), (is_ascii_digit c).
Qed.

Lemma print_tokens_text ts : forallb tok_good ts = true ->
  is_ascii (print_tokens ts) = true /\ (forall c, head (print_tokens ts) = Some c -> inner c = true) /\
  (forall c, last (print_tokens ts) = Some c -> inner c = true).
Proof.
  assert (Hascii : forall s, forallb inner s = true -> is_ascii s = true).
  { intros s. unfold is_ascii. rewrite !forallb_forall. intros Hs c Hc%Hs. unfold inner in Hc. lia. }
  assert (Hlast : forall s c, forallb inner s = true -> last s = Some c -> inner c = true).
  { intros s c. rewrite forallb_forall. intros Hs (l & ->)%last_Some. apply Hs. apply in_app_iff. right. by left. }
  induction ts as [|t ts IH]; intros Hg; [done|]. cbn [forallb] in Hg. apply andb_true_iff in Hg as [Ht Hts].
  specialize (IH Hts) as (Ha & _ & Hl). pose proof (tok_inner t Ht) as Hi. pose proof (tok_good_nonempty t Ht) as Hne.
  destruct ts as [|t' ts]; [cbn; split_and!; [by apply Hascii| |intros c Hc; by eapply Hlast]|].
  - intros c Hc. destruct (show_tok t); [done|]. cbn in *. apply andb_true_iff in Hi as [? _]. congruence.
  - change (print_tokens (t :: t' :: ts)) with (show_tok t ++ " "%char :: print_tokens (t' :: ts)). split_and!.
    + unfold is_ascii in *. rewrite forallb_app. cbn [forallb]. rewrite Ha, andb_true_r. by apply Hascii.
    + intros c Hc. destruct (show_tok t); [done|]. cbn in *. apply andb_true_iff in Hi as [? _]. congruence.
    + intros c. destruct (print_tokens (t' :: ts)) as [|x l] eqn:Hp.
      * exfalso. cbn [forallb] in Hts. apply andb_true_iff in Hts as [Ht' _]. apply tok_good_nonempty in Ht'.
        unfold print_tokens in Hp. cbn [map join] in Hp. destruct ts; cbn in Hp; [done|]. by apply app_eq_nil in Hp as [? _].
      * rewrite last_app, last_cons. destruct (last (x :: l)) as [y|] eqn:Hy; [intros [= <-]; by apply Hl|].
        by apply last_None in Hy.
Qed.

(** Printed expressions have well-formed tokens when numbers fit and names are
    identifiers; conditional operands are without effect. *)
Definition printable (e : aexp) : bool := calm e && forallb tok_good (atoks e).

Lemma wrap_good k e ts : forallb tok_good (wrap k e ts) = forallb tok_good ts.
Proof. unfold wrap. destruct (_ <=? _)%nat; [done|]. cbn [forallb]. rewrite forallb_app. cbn. by rewrite andb_true_r. Qed.

Lemma tokens_nums e : forallb tok_good (atoks e) = true -> nums_ok e = true.
Proof.
  induction e as [n|x|inc x|inc x|op e IH|a IHa b IHb|op a IHa b IHb|c IHc t IHt e IHe|op x e IH]; cbn [atoks nums_ok]; try done;
    repeat (rewrite ?forallb_app; cbn [forallb]; rewrite ?wrap_good); intros Hg; bool_to_prop; rewrite ?andb_true_iff; split_and?; auto; cbn in *; lia.
Qed.

Lemma atoks_nonempty e : atoks e <> [].
Proof. destruct e; cbn [atoks]; intros Hn; try done; by apply app_eq_nil in Hn as [_ Hn]. Qed.

Lemma run_tokens `{Target} clock e st st' v f : level_run clock e -> Z.of_nat (cost 0 e) <= MAX_ARITH_DEPTH -> MAX_ARITH_DEPTH < Z.of_nat f ->
  aeval clock e st = (st', Ok v) -> with_parser (atoks e) (parse_expr (parse_assign clock f)) st = (st', Ok v).
Proof.
  intros Hrun Hc Hf He. unfold with_parser. change (parse_expr (parse_assign clock f)) with (level clock 0 f).
  erewrite (Hrun 0%nat [] st st' v); [done|lia|apply follow_nil|done|by rewrite app_nil_r|done|done|cbn [ap_depth ArithParser_new]; lia|done].
Qed.


Definition demo_arith : aexp :=
  ABin BComma (AAsg AsgEq #"x" (ABin BAdd (ANum 3) (ABin BMul (ANum 4) (APow (ABin BSub (APost true #"y") (ANum 1)) (ANum 2)))))
    (ATern (ABin BLand (ABin BGt (AVar #"x") (ANum 10)) (AUn UNot (ANum 0))) (ABin BShl (AVar #"x") (ANum 2)) (AUn UMinus (AVar #"y"))).

Definition demo_state : ShellState := assign_scalar (new_state (H := native64) 1) #"y" #"4".


(** ** Observations *)

(** What the expression returns, the value of [x] and the recorded error. *)
Definition outcome (text : str) : res stop Z * option str * option str :=
  let '(st, r) := eval_arithmetic (H := native64) 0 (fun _ => mret []) text (new_state (H := native64) 1) in
  (r, get_env_var st #"x", snd (take_arith_error st)).

(** Both sides of a short circuit and both branches of [?:] are evaluated. *)
Example short_circuit_evaluates : outcome #"0 && (x = 3)" = (Ok 0, Some #"3", None) /\
  outcome #"1 ? 5 : (x = 7)" = (Ok 5, Some #"7", None) /\ outcome #"0 && 1 / 0" = (Ok 0, None, Some #"division by 0").
Proof. split_and!; vm_compute; reflexivity. Qed.

(** A base above 36 is let through to [from_str_radix], which panics. *)
Example large_base_panics : outcome #"40#5" = (Panic radix_panic, None, None) /\ outcome #"36#z" = (Ok 35, None, None).
Proof. split; vm_compute; reflexivity. Qed.

(** A compound division by zero stores zero and reports nothing. *)
Example compound_division_silent : outcome #"x = 5, x /= 0" = (Ok 0, Some #"0", None) /\
  outcome #"x = 5 / 0" = (Ok 0, Some #"0", Some #"division by 0").
Proof. split; vm_compute; reflexivity. Qed.

(** Syntax errors are not reported. *)
Example syntax_error_silent : outcome #"(1 + 2" = (Ok 3, None, None) /\ outcome #"1 + + * 2" = (Ok 1, None, None).
Proof. split; vm_compute; reflexivity. Qed.

(** Twenty pairs of parentheses are within the depth limit, twenty-one are not. *)
Example depth_limit : outcome (concat (repeat #"(" 20) ++ #"7" ++ concat (repeat #")" 20)) = (Ok 7, None, None) /\
  outcome (concat (repeat #"(" 21) ++ #"7" ++ concat (repeat #")" 21)) = (Ok 0, None, Some #"expression recursion limit exceeded").
Proof. split; vm_compute; reflexivity. Qed.
