(* ===== verification/ExpandGlob.v ===== *)
(** * Patterns of parameter expansion (crates/wasmsh-expand/src/lib.rs)

    The matcher of [${v#pat}], [${v%pat}] and [${v/pat/rep}], and the search and
    replacement on top of it.  The callers slice the value at every byte offset,
    which is a [Panic] inside a multi-byte character. *)

From S2P Require Import Prelude Strings WordParser.

(** ** The matcher *)

Inductive ClassOutcome := Matched (next : nat) | NoMatch | Invalid.

(** The loop over the members of a class; every round advances. *)
Fixpoint members_loop (n : nat) (p : str) (c : byte) (negated : bool) (i : nat) (matched : bool) (members : nat) : ClassOutcome :=
  match n, p !! i with
  | S n', Some ch =>
      if decide (ch = "]"%char) then
        if (members =? 0)%nat then Invalid
        else if (if negated then negb matched else matched) then Matched (S i) else NoMatch
      else
        match (if decide (p !! S i = Some "-"%char) then p !! (i + 2)%nat else None) with
        | Some hi =>
            if decide (hi <> "]"%char)
            then members_loop n' p c negated (i + 3)
                   (if (byte_val ch <=? byte_val c) && (byte_val c <=? byte_val hi) then true else matched) (S members)
            else members_loop n' p c negated (S i) (if decide (ch = c) then true else matched) (S members)
        | None => members_loop n' p c negated (S i) (if decide (ch = c) then true else matched) (S members)
        end
  | _, _ => Invalid
  end.

Definition bracket_class_matches (p : str) (pi : nat) (c : byte) : ClassOutcome :=
  let i := S pi in
  let negated := bool_decide (p !! i = Some "!"%char \/ p !! i = Some "^"%char) in
  let i := if negated then S i else i in
  if decide (p !! i = Some "]"%char)
  then members_loop (length p) p c negated (S i) (bool_decide (c = "]"%char)) 1
  else members_loop (length p) p c negated i false 0.

Definition match_single (p : str) (pi : nat) (c : byte) : option nat :=
  match p !! pi with
  | None => None
  | Some cur =>
      if decide (cur = "?"%char) then Some (S pi)
      else if decide (cur = "["%char) then
        match bracket_class_matches p pi c with
        | Matched next => Some next
        | NoMatch => None
        | Invalid => if decide (cur = c) then Some (S pi) else None
        end
      else if decide (cur = c) then Some (S pi) else None
  end.

(** The trailing stars. *)
Fixpoint skip_trailing (n : nat) (p : str) (pi : nat) : nat :=
  match n with
  | O => pi
  | S n' => if decide (p !! pi = Some "*"%char) then skip_trailing n' p (S pi) else pi
  end.

(** [star] is [star_p] with [star_n]. *)
Fixpoint simple_glob_loop (fuel : nat) (p n : str) (pi ni : nat) (star : option (nat * nat)) : option bool :=
  match fuel with
  | O => None
  | S fuel' =>
      match n !! ni with
      | None => Some (bool_decide (skip_trailing (length p) p pi = length p))
      | Some c =>
          if decide (p !! pi = Some "*"%char) then simple_glob_loop fuel' p n (S pi) ni (Some (pi, ni))
          else match match_single p pi c with
               | Some next => simple_glob_loop fuel' p n next (S ni) star
               | None => match star with
                         | Some (sp, star_n) => simple_glob_loop fuel' p n (S sp) (S star_n) (Some (sp, S star_n))
                         | None => Some false
                         end
               end
      end
  end.

Definition simple_glob_fuel (p n : str) : nat := S (length p + 1 + length n * S (length n) + length n).

Definition simple_glob_match (pattern text : str) : bool :=
  default false (simple_glob_loop (simple_glob_fuel pattern text) pattern text 0 0 None).

Definition is_glob_pattern (pattern : str) : bool :=
  bool_decide ("*"%char ∈ pattern) || bool_decide ("?"%char ∈ pattern) || bool_decide ("["%char ∈ pattern).

(** ** Loops over offsets *)

Section offsets.
Context {E : Type}.

Abbreviation rs := (res E).

(** [for i in idx { if f(i) { return Some(i) } }]. *)
Fixpoint find_offset (f : nat -> rs bool) (idx : list nat) : rs (option nat) :=
  match idx with
  | [] => mret None
  | i :: idx' => b ← f i; if (b : bool) then mret (Some i) else find_offset f idx'
  end.

(** [for i in idx { if f(i) && better(best, i) { best = Some(i) } }]. *)
Fixpoint best_offset (f : nat -> rs bool) (better : nat -> nat -> bool) (idx : list nat) (best : option nat) : rs (option nat) :=
  match idx with
  | [] => mret best
  | i :: idx' =>
      b ← f i;
      best_offset f better idx'
        (if b : bool then match best with Some j => if better i j then Some i else best | None => Some i end else best)
  end.

(** [0..=n] and [a..=b]. *)
Definition upto (n : nat) : list nat := seq 0 (S n).
Definition between (a b : nat) : list nat := seq a (S b - a).

Definition matches_slice (pattern text : str) (a b : nat) : rs bool :=
  s ← str_slice text a b; mret (simple_glob_match pattern s).

(** The loop over the start positions. *)
Fixpoint find_from (text pattern : str) (starts : list nat) : rs (option (nat * nat)) :=
  match starts with
  | [] => mret None
  | start :: starts' =>
      r ← find_offset (matches_slice pattern text start) (between start (length text));
      match r with Some e => mret (Some (start, e)) | None => find_from text pattern starts' end
  end.

Definition glob_find_first (text pattern : str) : rs (option (nat * nat)) :=
  match pattern with
  | [] => mret (Some (0%nat, 0%nat))
  | _ => find_from text pattern (upto (length text))
  end.

(** ** [str::replace] *)

(** The characters of a string. *)
Fixpoint chars (s : str) : list str :=
  match s with
  | [] => []
  | c :: s' => match chars s' with
               | [] => [[c]]
               | g :: gs => if match s' with d :: _ => is_continuation d | [] => false end then (c :: g) :: gs else [c] :: g :: gs
               end
  end.

(** [text.replacen(pattern, rep, count)]; an empty pattern matches before every
    character and at the end. *)
Fixpoint replace_sub (n : nat) (text pattern rep : str) : str :=
  match n with
  | O => text
  | S n' => match find_sub pattern text with
            | Some i => take i text ++ rep ++ replace_sub n' (drop (i + length pattern) text) pattern rep
            | None => text
            end
  end.

Definition replacen_one (text pattern rep : str) : str :=
  match pattern with [] => rep ++ text | _ => replace_sub 1 text pattern rep end.

Definition replace_all (text pattern rep : str) : str :=
  match pattern with
  | [] => rep ++ concat (map (fun ch => ch ++ rep) (chars text))
  | _ => replace_sub (length text) text pattern rep
  end.

(** ** Replacement *)

Definition glob_replace_first (text pattern rep : str) : rs str :=
  if negb (is_glob_pattern pattern) then mret (replacen_one text pattern rep)
  else
    r ← glob_find_first text pattern;
    match r with
    | Some (start, e) => a ← str_slice text 0 start; b ← str_slice text e (length text); mret (a ++ rep ++ b)
    | None => mret text
    end.

(** Every round advances, and [pos] goes up to one past the end. *)
Fixpoint replace_loop (n : nat) (text pattern rep : str) (pos : nat) (result : str) : rs str :=
  if (pos <=? length text)%nat then
    match n with
    | O => Panic "out of rounds"
    | S n' =>
        matched ← find_offset (matches_slice pattern text pos) (between pos (length text));
        match matched with
        | Some e => replace_loop n' text pattern rep (if (e =? pos)%nat then S e else e) (result ++ rep)
        | None => replace_loop n' text pattern rep (S pos)
                    (match text !! pos with Some b => result ++ push_byte b | None => result end)
        end
    end
  else mret result.

Definition glob_replace_all (text pattern rep : str) : rs str :=
  if negb (is_glob_pattern pattern) then mret (replace_all text pattern rep)
  else replace_loop (S (length text)) text pattern rep 0 [].

Definition glob_match_at_start (text pattern : str) : rs (option nat) :=
  best_offset (matches_slice pattern text 0) (fun _ _ => true) (upto (length text)) None.

Definition glob_match_at_end (text pattern : str) : rs (option nat) :=
  best_offset (fun start => matches_slice pattern text start (length text)) (fun _ _ => true) (rev (upto (length text))) None.

Definition strip_prefix_glob (val pattern : str) (greedy : bool) : rs (option str) :=
  chosen ← best_offset (matches_slice pattern val 0) (fun e best => if greedy then (best <? e)%nat else (e <? best)%nat)
             (upto (length val)) None;
  match chosen with Some e => s ← str_slice val e (length val); mret (Some s) | None => mret None end.

Definition strip_suffix_glob (val pattern : str) (greedy : bool) : rs (option str) :=
  chosen ← best_offset (fun start => matches_slice pattern val start (length val))
             (fun start best => if greedy then (start <? best)%nat else (best <? start)%nat)
             (upto (length val)) None;
  match chosen with Some start => s ← str_slice val 0 start; mret (Some s) | None => mret None end.
End offsets.
