(* ===== verification/ExpandGlobProps.v ===== *)
(** * Patterns of parameter expansion: correctness

    The matcher decides a declarative relation; the strip operators remove the
    shortest or longest match, the anchored ones find the longest, and an
    unanchored search finds the leftmost and shortest. *)

From S2P Require Import Prelude Strings WordParser ExpandGlob.

(** ** The relation *)

(** The text from here is matched by the pattern from position [i]. *)
Inductive pat_match (p : str) : nat -> str -> Prop :=
  | pm_end : pat_match p (length p) []
  | pm_skip i n : p !! i = Some "*"%char -> pat_match p (S i) n -> pat_match p i n
  | pm_eat i c n : p !! i = Some "*"%char -> pat_match p i n -> pat_match p i (c :: n)
  | pm_one i c n next : p !! i <> Some "*"%char -> match_single p i c = Some next -> pat_match p next n -> pat_match p i (c :: n).

(** ** Single elements *)

(** Where a class ends does not depend on the character. *)
Fixpoint members_end (n : nat) (p : str) (i members : nat) : option nat :=
  match n, p !! i with
  | S n', Some ch =>
      if decide (ch = "]"%char) then if (members =? 0)%nat then None else Some (S i)
      else match (if decide (p !! S i = Some "-"%char) then p !! (i + 2)%nat else None) with
           | Some hi => if decide (hi <> "]"%char) then members_end n' p (i + 3) (S members) else members_end n' p (S i) (S members)
           | None => members_end n' p (S i) (S members)
           end
  | _, _ => None
  end.

Lemma members_loop_end n p c neg i m k :
  match members_end n p i k with
  | None => members_loop n p c neg i m k = Invalid
  | Some e => members_loop n p c neg i m k = Matched e \/ members_loop n p c neg i m k = NoMatch
  end.
Proof.
  revert i m k. induction n as [|n IH]; intros i m k; cbn [members_end members_loop]; [done|].
  destruct (p !! i) as [ch|]; [|done]. destruct (decide (ch = "]"%char)) as [_|_].
  - destruct (k =? 0)%nat; [done|]. destruct (if neg then _ else _); [by left|by right].
  - destruct (if decide (p !! S i = _) then _ else _) as [hi|]; [destruct (decide (hi <> _))|]; apply IH.
Qed.

Lemma members_end_bounds n p i k e : members_end n p i k = Some e -> (i < e <= length p)%nat.
Proof.
  revert i k. induction n as [|n IH]; intros i k; cbn [members_end]; [done|].
  destruct (p !! i) as [ch|] eqn:Hi; [|done]. apply lookup_lt_Some in Hi. destruct (decide _) as [_|_].
  - destruct (k =? 0)%nat; [done|]. intros [= <-]. lia.
  - destruct (if decide (p !! S i = _) then _ else _) as [hi|]; [destruct (decide (hi <> _))|]; intros He%IH; lia.
Qed.

Definition class_end (p : str) (pi : nat) : option nat :=
  let i := S pi in
  let i := if bool_decide (p !! i = Some "!"%char \/ p !! i = Some "^"%char) then S i else i in
  if decide (p !! i = Some "]"%char) then members_end (length p) p (S i) 1 else members_end (length p) p i 0.

Lemma class_matches_end p pi c :
  match class_end p pi with
  | None => bracket_class_matches p pi c = Invalid
  | Some e => bracket_class_matches p pi c = Matched e \/ bracket_class_matches p pi c = NoMatch
  end.
Proof. unfold class_end, bracket_class_matches. destruct (decide _); apply members_loop_end. Qed.

Lemma class_end_bounds p pi e : class_end p pi = Some e -> (pi < e <= length p)%nat.
Proof.
  unfold class_end. destruct (bool_decide _); case_decide; intros He%members_end_bounds; lia.
Qed.

Lemma match_single_bounds p pi c next : match_single p pi c = Some next -> (pi < next <= length p)%nat.
Proof.
  unfold match_single. destruct (p !! pi) as [cur|] eqn:Hc; [|done]. apply lookup_lt_Some in Hc.
  destruct (decide _); [intros [= <-]; lia|]. destruct (decide _).
  - pose proof (class_matches_end p pi c) as He. destruct (class_end p pi) as [fin|] eqn:Hend.
    + apply class_end_bounds in Hend. destruct He as [-> | ->]; [|done]. intros [= <-]. lia.
    + rewrite He. destruct (decide _); [|done]. intros [= <-]. lia.
  - destruct (decide _); [|done]. intros [= <-]. lia.
Qed.

(** All characters an element matches lead to the same place. *)
Lemma match_single_next p pi c c' next next' : match_single p pi c = Some next -> match_single p pi c' = Some next' -> next = next'.
Proof.
  unfold match_single. destruct (p !! pi) as [cur|]; [|done]. destruct (decide _); [congruence|]. destruct (decide _).
  - pose proof (class_matches_end p pi c) as He. pose proof (class_matches_end p pi c') as He'.
    destruct (class_end p pi) as [fin|].
    + destruct He as [-> | ->], He' as [-> | ->]; congruence.
    + rewrite He, He'. destruct (decide _), (decide _); congruence.
  - destruct (decide _), (decide _); congruence.
Qed.

(** ** Inversion of the relation *)

Lemma pat_match_star p i n : p !! i = Some "*"%char ->
  pat_match p i n <-> exists k, (k <= length n)%nat /\ pat_match p (S i) (drop k n).
Proof.
  intros Hi. split.
  - intros Hm. revert Hi. induction Hm as [|i n Hi' Hm _|i c n Hi' Hm IH|i c n next Hi' Hs Hm _]; intros Hi; [|exists 0%nat; rewrite drop_0; split; [lia|done]| |done].
    + apply lookup_lt_Some in Hi. lia.
    + destruct (IH Hi) as (k & ? & ?). exists (S k). cbn. split; [lia|done].
  - intros (k & Hk & Hm). revert n Hk Hm. induction k as [|k IH]; intros n Hk Hm; [rewrite drop_0 in Hm; by apply pm_skip|].
    destruct n as [|c n]; cbn in *; [lia|]. apply pm_eat; [done|]. apply IH; [lia|done].
Qed.

Lemma pat_match_one p i n : p !! i <> Some "*"%char -> (i < length p)%nat ->
  pat_match p i n <-> exists c n' next, n = c :: n' /\ match_single p i c = Some next /\ pat_match p next n'.
Proof.
  intros Hi Hlt. split.
  - inversion 1; subst; [lia|done|done|eauto 10].
  - intros (c & n' & next & -> & Hs & Hm). by eapply pm_one.
Qed.

Lemma pat_match_end p n : pat_match p (length p) n <-> n = [].
Proof.
  split; [|intros ->; constructor]. remember (length p) as i eqn:Hi.
  inversion 1 as [|? ? Hs|? ? ? Hs|? ? ? ? ? Hs]; subst; [done|apply lookup_lt_Some in Hs; lia..|].
  apply match_single_bounds in Hs. lia.
Qed.

Lemma skip_trailing_spec k p i : (length p - i <= k)%nat -> (i <= length p)%nat ->
  skip_trailing k p i = length p <-> pat_match p i [].
Proof.
  revert i. induction k as [|k IH]; intros i Hk Hi; cbn [skip_trailing].
  - assert (i = length p) as -> by lia. split; [constructor|done].
  - case_decide as Hs.
    + pose proof (lookup_lt_Some _ _ _ Hs). rewrite IH by lia. rewrite (pat_match_star p i) by done. split.
      * intros Hm. by exists 0%nat.
      * intros (j & _ & Hm). by rewrite drop_nil in Hm.
    + split; [intros ->; constructor|]. inversion 1; subst; [done|done].
Qed.

(** ** The loop *)

(** [m] elements other than stars lead from one position to another. *)
Inductive elements (p : str) : nat -> nat -> nat -> Prop :=
  | el_nil i : elements p 0 i i
  | el_snoc m i j c next : elements p m i j -> p !! j <> Some "*"%char -> match_single p j c = Some next -> elements p (S m) i next.

Lemma elements_match p m i j n : elements p m i j -> pat_match p i n -> (m <= length n)%nat /\ pat_match p j (drop m n).
Proof.
  intros He Hm. induction He as [i|m i j c next He IH Hj Hs]; [rewrite drop_0; split; [lia|done]|].
  destruct (IH Hm) as [Hl Hq]. rewrite pat_match_one in Hq; [|done|by apply match_single_bounds in Hs; lia].
  destruct Hq as (c' & n' & next' & Hd & Hs' & Hq). rewrite (match_single_next _ _ _ _ _ _ Hs Hs').
  assert (Hlen : length (drop m n) = S (length n')) by (by rewrite Hd). rewrite length_drop in Hlen. split; [lia|].
  replace (S m) with (m + 1)%nat by lia. by rewrite <-drop_drop, Hd.
Qed.

(** A match from the current state or from the last star with more consumed. *)
Definition open_answer (p n : str) (pi ni : nat) (star : option (nat * nat)) : Prop :=
  pat_match p pi (drop ni n) \/
  exists sp sn k, star = Some (sp, sn) /\ (sn < k <= length n)%nat /\ pat_match p (S sp) (drop k n).

Definition state_ok (p n : str) (pi ni : nat) (star : option (nat * nat)) : Prop :=
  (pi <= length p)%nat /\ (ni <= length n)%nat /\
  match star with
  | None => True
  | Some (sp, sn) => (sn <= ni)%nat /\ (sp < pi)%nat /\ elements p (ni - sn) (S sp) pi
  end.

Definition rounds_left (p n : str) (ni : nat) (star : option (nat * nat)) : nat :=
  match star with
  | None => length p + 1 + length n * S (length n) + (length n - ni)
  | Some (sp, sn) => (length p - sp) + (length n - sn) * S (length n) + (length n - ni)
  end.

Lemma from_star p n pi ni sp sn k : state_ok p n pi ni (Some (sp, sn)) -> (sn < k <= length n)%nat ->
  pat_match p (S sp) (drop k n) -> exists j, (ni < j <= length n)%nat /\ pat_match p pi (drop j n).
Proof.
  intros (_ & Hni & Hsn & _ & He) Hk Hm. destruct (elements_match _ _ _ _ _ He Hm) as [Hl Hq].
  rewrite length_drop in Hl. rewrite drop_drop in Hq. exists (k + (ni - sn))%nat. split; [lia|done].
Qed.

Lemma simple_glob_loop_spec fuel p n pi ni star : state_ok p n pi ni star -> (rounds_left p n ni star < fuel)%nat ->
  exists b, simple_glob_loop fuel p n pi ni star = Some b /\ (b = true <-> open_answer p n pi ni star).
Proof.
  revert pi ni star. induction fuel as [|fuel IH]; intros pi ni star Hok Hf; [lia|]. cbn [simple_glob_loop].
  pose proof Hok as (Hpi & Hni & Hst). destruct (n !! ni) as [c|] eqn:Hc.
  2:{ apply lookup_ge_None in Hc. eexists. split; [done|]. rewrite bool_decide_eq_true, skip_trailing_spec by lia.
      unfold open_answer. rewrite (drop_ge n ni) by lia. split; [by left|]. intros [?|(sp & sn & k & -> & Hk & Hm)]; [done|].
      destruct (from_star _ _ _ _ _ _ _ Hok Hk Hm) as (j & Hj & _). lia. }
  pose proof (lookup_lt_Some _ _ _ Hc) as Hlt. assert (Hd : drop ni n = c :: drop (S ni) n) by by apply drop_S.
  destruct (decide (p !! pi = Some "*"%char)) as [Hs|Hs].
  - pose proof (lookup_lt_Some _ _ _ Hs). destruct (IH (S pi) ni (Some (pi, ni))) as (b & Hb & Hans).
    { split; [lia|]. split; [lia|]. split; [lia|]. split; [lia|]. rewrite Nat.sub_diag. constructor. }
    { unfold rounds_left in *. destruct star as [[sp sn]|]; [destruct Hst as (? & ? & _)|]; nia. }
    exists b. split; [done|]. rewrite Hans. unfold open_answer.
    assert (Hall : forall j, (ni <= j <= length n)%nat -> pat_match p pi (drop j n) ->
      pat_match p (S pi) (drop ni n) \/ exists sp sn k, Some (pi, ni) = Some (sp, sn) /\ (sn < k <= length n)%nat /\ pat_match p (S sp) (drop k n)).
    { intros j Hj Hm. rewrite (pat_match_star _ _ _ Hs) in Hm. destruct Hm as (k & Hk & Hm). rewrite length_drop in Hk. rewrite drop_drop in Hm.
      destruct (decide (j + k = ni)%nat) as [<-|]; [by left|]. right. exists pi, ni, (j + k)%nat. split; [done|]. split; [lia|done]. }
    split.
    + intros [Hm|(sp & sn & k & [= <- <-] & Hk & Hm)]; left; rewrite (pat_match_star _ _ _ Hs).
      * exists 0%nat. rewrite drop_0. split; [lia|done].
      * exists (k - ni)%nat. rewrite drop_drop, length_drop. replace (ni + (k - ni))%nat with k by lia. split; [lia|done].
    + intros [Hm|(sp & sn & k & -> & Hk & Hm)]; [by apply (Hall ni)|].
      destruct (from_star _ _ _ _ _ _ _ Hok Hk Hm) as (j & Hj & Hm'). apply (Hall j); [lia|done].
  - destruct (match_single p pi c) as [next|] eqn:Hm1.
    + pose proof (match_single_bounds _ _ _ _ Hm1). destruct (IH next (S ni) star) as (b & Hb & Hans).
      { split; [lia|]. split; [lia|]. destruct star as [[sp sn]|]; [|done]. destruct Hst as (? & ? & He). split; [lia|]. split; [lia|].
        replace (S ni - sn)%nat with (S (ni - sn)) by lia. by eapply el_snoc. }
      { unfold rounds_left in *. destruct star as [[sp sn]|]; lia. }
      exists b. split; [done|]. rewrite Hans. unfold open_answer. rewrite (pat_match_one p pi (drop ni n)) by (done || lia). rewrite Hd.
      assert ((exists c' n' next', c :: drop (S ni) n = c' :: n' /\ match_single p pi c' = Some next' /\ pat_match p next' n') <->
        pat_match p next (drop (S ni) n)) as ->; [|done].
      split; [intros (c' & n' & next' & [= <- <-] & Hm' & ?); congruence|eauto 10].
    + assert (Hno : ~ pat_match p pi (drop ni n)).
      { rewrite Hd. inversion 1; subst; congruence. }
      destruct star as [[sp sn]|].
      * destruct Hst as (? & ? & _). destruct (IH (S sp) (S sn) (Some (sp, S sn))) as (b & Hb & Hans).
        { split; [lia|]. split; [lia|]. split; [lia|]. split; [lia|]. rewrite Nat.sub_diag. constructor. }
        { unfold rounds_left in *. nia. }
        exists b. split; [done|]. rewrite Hans. unfold open_answer. split.
        -- intros [Hm|(? & ? & k & [= <- <-] & Hk & Hm)]; right; exists sp, sn;
             [exists (S sn)|exists k]; (split; [done|]; split; [lia|done]).
        -- intros [?|(? & ? & k & [= <- <-] & Hk & Hm)]; [done|]. destruct (decide (k = S sn)) as [->|]; [by left|].
           right. exists sp, (S sn), k. split; [done|]. split; [lia|done].
      * exists false. split; [done|]. split; [done|]. intros [?|(? & ? & ? & ? & _)]; done.
Qed.

(** The matcher terminates and decides the relation. *)
Lemma simple_glob_match_correct pattern text : simple_glob_match pattern text = true <-> pat_match pattern 0 text.
Proof.
  destruct (simple_glob_loop_spec (simple_glob_fuel pattern text) pattern text 0 0 None) as (b & Hb & Hans).
  - split; [lia|]. split; [lia|done].
  - unfold rounds_left, simple_glob_fuel. lia.
  - unfold simple_glob_match. rewrite Hb. cbn. rewrite Hans. unfold open_answer. rewrite drop_0.
    split; [|by left]. intros [?|(? & ? & ? & ? & _)]; done.
Qed.

(** ** Offsets of ASCII text *)

Lemma ascii_slice {E} s a b : is_ascii s = true -> (a <= b)%nat -> (b <= length s)%nat -> str_slice s a b = (Ok (slice s a b) : res E str).
Proof. intros Ha Hab Hb. unfold str_slice. by rewrite (proj2 (Nat.leb_le _ _)), !is_ascii_boundary by (done || lia). Qed.

Lemma matches_slice_ascii {E} pattern text a b : is_ascii text = true -> (a <= b)%nat -> (b <= length text)%nat ->
  matches_slice pattern text a b = (Ok (simple_glob_match pattern (slice text a b)) : res E bool).
Proof. intros. unfold matches_slice. by rewrite ascii_slice. Qed.

Lemma elem_of_upto i n : i ∈ upto n <-> (i <= n)%nat.
Proof. unfold upto. rewrite list_elem_of_In, in_seq. lia. Qed.

Lemma elem_of_between i a b : (a <= b)%nat -> i ∈ between a b <-> (a <= i <= b)%nat.
Proof. intros. unfold between. rewrite list_elem_of_In, in_seq. lia. Qed.

(** A prefix as a slice, and a suffix. *)
Lemma slice_prefix {A} (pre suf : list A) : slice (pre ++ suf) 0 (length pre) = pre.
Proof. unfold slice. rewrite drop_0, Nat.sub_0_r. apply take_app_length. Qed.

Lemma slice_suffix {A} (pre suf : list A) : slice (pre ++ suf) (length pre) (length (pre ++ suf)) = suf.
Proof. unfold slice. rewrite drop_app_length, length_app. apply take_ge. lia. Qed.

Lemma slice_cut {A} (l : list A) i : (i <= length l)%nat -> l = slice l 0 i ++ slice l i (length l).
Proof.
  intros Hi. unfold slice. rewrite drop_0, Nat.sub_0_r. rewrite (take_ge (drop i l)) by (rewrite length_drop; lia).
  by rewrite take_drop.
Qed.

Lemma slice_0_length {A} (l : list A) i : (i <= length l)%nat -> length (slice l 0 i) = i.
Proof. intros. rewrite slice_length by lia. lia. Qed.

(** ** The best offset *)

Definition farther (up : bool) (i j : nat) : bool := if up then (j <? i)%nat else (i <? j)%nat.

Definition candidate (g : nat -> bool) (idx : list nat) (best : option nat) (i : nat) : Prop := best = Some i \/ (i ∈ idx /\ g i = true).

Lemma best_offset_spec {E} up (f : nat -> res E bool) g idx best : (forall i, i ∈ idx -> f i = Ok (g i)) ->
  exists r, best_offset f (farther up) idx best = Ok r /\
    match r with
    | None => forall i, ~ candidate g idx best i
    | Some j => candidate g idx best j /\ forall i, candidate g idx best i -> if up then (i <= j)%nat else (j <= i)%nat
    end.
Proof.
  revert best. induction idx as [|x idx IH]; intros best Hf; cbn [best_offset].
  - exists best. split; [done|]. destruct best as [j|].
    + split; [by left|]. intros i [[= ->]|[Hi _]]; [by destruct up|by apply elem_of_nil in Hi].
    + intros i [?|[Hi _]]; [done|by apply elem_of_nil in Hi].
  - rewrite Hf by left. cbn [mbind res_bind].
    set (best' := if g x then match best with Some j => if farther up x j then Some x else best | None => Some x end else best).
    destruct (IH best') as (r & Hr & Hspec); [intros i Hi; apply Hf; by right|]. exists r. split; [done|].
    assert (Hstep : forall i, candidate g idx best' i -> candidate g (x :: idx) best i).
    { intros i [Hi|[Hi Hg]]; [|right; split; [by right|done]]. unfold best' in Hi. destruct (g x) eqn:Hx; [|by left].
      destruct best as [j|]; [destruct (farther up x j)|]; [|by left|]; injection Hi as <-; right; (split; [by left|done]). }
    assert (Hback : forall i, candidate g (x :: idx) best i -> exists j, candidate g idx best' j /\ if up then (i <= j)%nat else (j <= i)%nat).
    { assert (Hrefl : forall i : nat, if up then (i <= i)%nat else (i <= i)%nat) by (by destruct up).
      intros i [Hi|[[->|Hi]%elem_of_cons Hg]]; [| |exists i; split; [by right|apply Hrefl]].
      - subst best. unfold best', farther. destruct (g x); [|exists i; split; [by left|apply Hrefl]]. destruct up.
        + destruct (Nat.ltb_spec i x); [exists x; split; [by left|lia]|exists i; split; [by left|lia]].
        + destruct (Nat.ltb_spec x i); [exists x; split; [by left|lia]|exists i; split; [by left|lia]].
      - unfold best', farther. rewrite Hg. destruct best as [j|]; [|exists x; split; [by left|apply Hrefl]]. destruct up.
        + destruct (Nat.ltb_spec j x); [exists x; split; [by left|lia]|exists j; split; [by left|lia]].
        + destruct (Nat.ltb_spec x j); [exists x; split; [by left|lia]|exists j; split; [by left|lia]]. }
    destruct r as [j|].
    + destruct Hspec as [Hj Hall]. split; [by apply Hstep|]. intros i Hi. destruct (Hback i Hi) as (k & Hk & Hle).
      specialize (Hall k Hk). destruct up; lia.
    + intros i Hi. destruct (Hback i Hi) as (k & Hk & _). by apply (Hspec k).
Qed.

(** [r] is what is left of [val] without its shortest or longest prefix that the
    pattern matches, or [None] when there is none. *)
Definition without_prefix (val pattern : str) (longest : bool) (r : option str) : Prop :=
  match r with
  | None => forall pre suf, val = pre ++ suf -> ~ pat_match pattern 0 pre
  | Some suf => exists pre, val = pre ++ suf /\ pat_match pattern 0 pre /\
      forall pre' suf', val = pre' ++ suf' -> pat_match pattern 0 pre' ->
        if longest then (length pre' <= length pre)%nat else (length pre <= length pre')%nat
  end.

Definition without_suffix (val pattern : str) (longest : bool) (r : option str) : Prop :=
  match r with
  | None => forall pre suf, val = pre ++ suf -> ~ pat_match pattern 0 suf
  | Some pre => exists suf, val = pre ++ suf /\ pat_match pattern 0 suf /\
      forall pre' suf', val = pre' ++ suf' -> pat_match pattern 0 suf' ->
        if longest then (length suf' <= length suf)%nat else (length suf <= length suf')%nat
  end.

Lemma prefix_spec {E} (val pattern : str) (greedy : bool) : is_ascii val = true ->
  exists r, strip_prefix_glob val pattern greedy = (Ok r : res E _) /\ without_prefix val pattern greedy r.
Proof.
  intros Ha. unfold strip_prefix_glob.
  destruct (best_offset_spec greedy (matches_slice pattern val 0 : nat -> res E bool) (fun e => simple_glob_match pattern (slice val 0 e)) (upto (length val)) None)
    as (r & Hr & Hspec).
  { intros i Hi%elem_of_upto. by apply matches_slice_ascii; [|lia|]. }
  assert (Hcand : forall pre suf, val = pre ++ suf -> pat_match pattern 0 pre ->
    candidate (fun e => simple_glob_match pattern (slice val 0 e)) (upto (length val)) None (length pre)).
  { intros pre suf -> Hm. right. rewrite elem_of_upto, length_app, slice_prefix. split; [lia|by apply simple_glob_match_correct]. }
  unfold farther in Hr. rewrite Hr. cbn [mbind res_bind]. destruct r as [j|].
  - destruct Hspec as [[?|[Hj%elem_of_upto Hg%simple_glob_match_correct]] Hall]; [done|].
    rewrite ascii_slice by (done || lia). eexists. split; [done|]. exists (slice val 0 j). split; [by apply slice_cut|]. split; [done|].
    intros pre' suf' Hv Hm. rewrite slice_0_length by done. by apply Hall, (Hcand _ suf').
  - exists None. split; [done|]. intros pre suf Hv Hm. by apply (Hspec (length pre)), (Hcand _ suf).
Qed.

Lemma suffix_spec {E} (val pattern : str) (greedy : bool) : is_ascii val = true ->
  exists r, strip_suffix_glob val pattern greedy = (Ok r : res E _) /\ without_suffix val pattern greedy r.
Proof.
  intros Ha. unfold strip_suffix_glob.
  destruct (best_offset_spec (negb greedy) (fun start => matches_slice pattern val start (length val) : res E bool)
    (fun start => simple_glob_match pattern (slice val start (length val))) (upto (length val)) None) as (r & Hr & Hspec).
  { intros i Hi%elem_of_upto. by apply matches_slice_ascii. }
  assert (Hcand : forall pre suf, val = pre ++ suf -> pat_match pattern 0 suf ->
    candidate (fun start => simple_glob_match pattern (slice val start (length val))) (upto (length val)) None (length pre)).
  { intros pre suf -> Hm. right. rewrite elem_of_upto, slice_suffix, length_app. split; [lia|by apply simple_glob_match_correct]. }
  replace (best_offset _ _ _ None) with (Ok r : res E (option nat)) by (rewrite <-Hr; unfold farther; by destruct greedy). cbn [mbind res_bind].
  destruct r as [j|].
  - destruct Hspec as [[?|[Hj%elem_of_upto Hg%simple_glob_match_correct]] Hall]; [done|].
    rewrite ascii_slice by (done || lia). eexists. split; [done|]. exists (slice val j (length val)). split; [by apply slice_cut|]. split; [done|].
    intros pre' suf' Hv Hm. specialize (Hall (length pre') (Hcand _ _ Hv Hm)). rewrite slice_length by lia.
    assert (length val = length pre' + length suf')%nat by (rewrite Hv at 1; apply length_app). destruct greedy; cbn [negb] in Hall; lia.
  - exists None. split; [done|]. intros pre suf Hv Hm. by apply (Hspec (length pre)), (Hcand _ suf).
Qed.

(** C5: the strip operators: on an ASCII value, [${v#pat}] and [${v##pat}] remove the
    shortest and the longest prefix the pattern matches, [${v%pat}] and [${v%%pat}]
    the shortest and the longest suffix, and nothing when no prefix or suffix
    matches. *)
Theorem strip_operators_correct (val pattern : str) (longest : bool) : is_ascii val = true ->
  (exists r, strip_prefix_glob val pattern longest = (Ok r : res unit _) /\ without_prefix val pattern longest r) /\
  (exists r, strip_suffix_glob val pattern longest = (Ok r : res unit _) /\ without_suffix val pattern longest r).
Proof. intros Ha. split; [by apply prefix_spec|by apply suffix_spec]. Qed.

Lemma strip_operators_correct_witness :
  strip_prefix_glob #"src/lib/a.rs" #"*/" true = (Ok (Some #"a.rs") : res unit _) /\
  (exists r, strip_suffix_glob #"src/lib/a.rs" #"/*" true = (Ok r : res unit _) /\ without_suffix #"src/lib/a.rs" #"/*" true r).
Proof. split; [reflexivity|]. apply (strip_operators_correct #"src/lib/a.rs" #"/*" true). reflexivity. Defined.

(** ** Searching *)

Lemma find_offset_spec {E} (f : nat -> res E bool) g idx : (forall i, i ∈ idx -> f i = Ok (g i)) -> StronglySorted lt idx ->
  exists r, find_offset f idx = Ok r /\
    match r with
    | None => forall i, i ∈ idx -> g i = false
    | Some j => j ∈ idx /\ g j = true /\ forall i, i ∈ idx -> g i = true -> (j <= i)%nat
    end.
Proof.
  intros Hf Hs. induction Hs as [|x idx Hs IH Hx]; cbn [find_offset].
  - exists None. split; [done|]. by intros i Hi%elem_of_nil.
  - rewrite Hf by left. cbn [mbind res_bind]. destruct (g x) eqn:Hg.
    + exists (Some x). split; [done|]. split; [left|]. split; [done|]. intros i [->|Hi]%elem_of_cons _; [done|].
      rewrite Forall_forall in Hx. specialize (Hx i Hi). lia.
    + destruct IH as (r & Hr & Hspec); [intros i Hi; apply Hf; by right|]. exists r. split; [done|]. destruct r as [j|].
      * destruct Hspec as (Hj & Hgj & Hall). split; [by right|]. split; [done|]. intros i [->|Hi]%elem_of_cons Hgi; [congruence|by apply Hall].
      * intros i [->|Hi]%elem_of_cons; [done|by apply Hspec].
Qed.

Lemma seq_sorted a n : StronglySorted lt (seq a n).
Proof.
  revert a. induction n as [|n IH]; intros a; cbn; constructor; [apply IH|]. apply Forall_forall. intros x.
  rewrite list_elem_of_In, in_seq. lia.
Qed.

(** A match of the pattern within the text: before it, itself and after it. *)
Definition occurs (text pattern : str) (x m y : str) : Prop := text = x ++ m ++ y /\ pat_match pattern 0 m.

(** The leftmost match, and among those the shortest. *)
Definition first_match (text pattern : str) (x m y : str) : Prop :=
  occurs text pattern x m y /\ forall x' m' y', occurs text pattern x' m' y' ->
    (length x < length x')%nat \/ (length x = length x' /\ (length m <= length m')%nat).

Lemma slice_three {A} (l : list A) a b : (a <= b)%nat -> (b <= length l)%nat ->
  l = slice l 0 a ++ slice l a b ++ slice l b (length l).
Proof.
  intros Hab Hb. rewrite (slice_cut l a) at 1 by lia. f_equal. unfold slice.
  rewrite (take_ge (drop a l)), (take_ge (drop b l)) by (rewrite length_drop; lia). rewrite <-(take_drop (b - a) (drop a l)) at 1. f_equal.
  rewrite drop_drop. f_equal. lia.
Qed.

Lemma slice_middle {A} (x m y : list A) : slice (x ++ m ++ y) (length x) (length x + length m) = m.
Proof. unfold slice. rewrite drop_app_length. replace (length x + length m - length x)%nat with (length m) by lia. apply take_app_length. Qed.

Lemma find_from_spec {E} text pattern starts : is_ascii text = true -> StronglySorted lt starts ->
  (forall i, i ∈ starts -> (i <= length text)%nat) ->
  exists r, find_from text pattern starts = (Ok r : res E _) /\
    match r with
    | None => forall x m y, length x ∈ starts -> ~ occurs text pattern x m y
    | Some (a, b) => a ∈ starts /\ (a <= b <= length text)%nat /\ pat_match pattern 0 (slice text a b) /\
        forall x m y, length x ∈ starts -> occurs text pattern x m y ->
          (a < length x)%nat \/ (a = length x /\ (b - a <= length m)%nat)
    end.
Proof.
  intros Ha Hs Hin. induction Hs as [|a starts Hs IH Hlt]; cbn [find_from].
  - exists None. split; [done|]. by intros x m y Hx%elem_of_nil.
  - assert (Hal : (a <= length text)%nat) by (apply Hin; left).
    destruct (find_offset_spec (matches_slice pattern text a : nat -> res E bool) (fun e => simple_glob_match pattern (slice text a e)) (between a (length text)))
      as (r & Hr & Hspec); [|apply seq_sorted|].
    { intros i Hi%elem_of_between; [|done]. apply matches_slice_ascii; [done|lia..]. }
    assert (Hocc : forall x m y, length x = a -> occurs text pattern x m y ->
      (a + length m)%nat ∈ between a (length text) /\ simple_glob_match pattern (slice text a (a + length m)) = true).
    { intros x m y <- [-> Hm]. rewrite elem_of_between by done. rewrite slice_middle, !length_app. split; [lia|by apply simple_glob_match_correct]. }
    rewrite Hr. cbn [mbind res_bind]. destruct r as [b|].
    + destruct Hspec as (Hb & Hg & Hall). rewrite elem_of_between in Hb by done. exists (Some (a, b)). split; [done|]. split; [left|]. split; [lia|].
      split; [by apply simple_glob_match_correct|]. intros x m y [Hx|Hx]%elem_of_cons Ho.
      * right. split; [done|]. destruct (Hocc x m y Hx Ho) as [Hi Hgi]. specialize (Hall _ Hi Hgi). lia.
      * left. rewrite Forall_forall in Hlt. by apply Hlt.
    + destruct IH as (r & Hr' & Hspec'); [intros i Hi; apply Hin; by right|]. rewrite Hr'. exists r. split; [done|].
      assert (Hno : forall x m y, length x = a -> ~ occurs text pattern x m y).
      { intros x m y Hx Ho. destruct (Hocc x m y Hx Ho) as [Hi Hgi]. rewrite (Hspec _ Hi) in Hgi. done. }
      destruct r as [[a' b']|].
      * destruct Hspec' as (Ha' & Hb' & Hm & Hall). split; [by right|]. split; [done|]. split; [done|].
        intros x m y [Hx|Hx]%elem_of_cons Ho; [by destruct (Hno x m y Hx Ho)|by apply (Hall x m y)].
      * intros x m y [Hx|Hx]%elem_of_cons; [by apply Hno|by apply Hspec'].
Qed.

Lemma occurs_bound text pattern x m y : occurs text pattern x m y -> length x ∈ upto (length text).
Proof. intros [-> _]. rewrite elem_of_upto, length_app. lia. Qed.

Lemma glob_find_first_spec {E} text pattern : is_ascii text = true ->
  exists r, glob_find_first text pattern = (Ok r : res E _) /\
    match r with
    | None => forall x m y, ~ occurs text pattern x m y
    | Some (a, b) => (a <= b <= length text)%nat /\ first_match text pattern (slice text 0 a) (slice text a b) (slice text b (length text))
    end.
Proof.
  intros Ha. unfold glob_find_first. destruct pattern as [|c pattern].
  - exists (Some (0%nat, 0%nat)). split; [done|]. split; [lia|]. split.
    + split; [by apply slice_three; lia|]. unfold slice. rewrite take_0. constructor.
    + intros x' m' y' [_ Hm]. apply (pat_match_end []) in Hm as ->. unfold slice. rewrite take_0. cbn. destruct (length x'); [right|left]; lia.
  - destruct (find_from_spec (E := E) text (c :: pattern) (upto (length text)) Ha) as (r & Hr & Hspec); [apply seq_sorted|by intros i Hi%elem_of_upto|].
    exists r. split; [done|]. destruct r as [[a b]|].
    + destruct Hspec as (_ & Hab & Hm & Hall). split; [done|]. split; [split; [apply slice_three; lia|done]|].
      intros x' m' y' Ho. rewrite slice_0_length, slice_length by lia. apply (Hall x' m' y'); [by eapply occurs_bound|done].
    + intros x m y Ho. by apply (Hspec x m y); [eapply occurs_bound|].
Qed.

(** ** Replacing the first match *)

(** A pattern without metacharacters matches only itself. *)
Lemma plain_pattern pattern n : is_glob_pattern pattern = false -> pat_match pattern 0 n <-> n = pattern.
Proof.
  unfold is_glob_pattern. rewrite !orb_false_iff, !bool_decide_eq_false. intros [[Hs Hq] Hb].
  assert (Hchar : forall i c, pattern !! i = Some c -> c <> "*"%char /\ forall c', match_single pattern i c' = if decide (c = c') then Some (S i) else None).
  { intros i c Hc. assert (c ∈ pattern) by by eapply list_elem_of_lookup_2. split; [congruence|]. intros c'. unfold match_single. rewrite Hc.
    by rewrite (decide_False (P := c = "?"%char)), (decide_False (P := c = "["%char)) by congruence. }
  assert (Hgo : forall k i n, (length pattern - i = k)%nat -> (i <= length pattern)%nat -> pat_match pattern i n <-> n = drop i pattern).
  { clear n. induction k as [|k IH]; intros i n Hk Hi.
    - assert (i = length pattern) as -> by lia. by rewrite pat_match_end, drop_all.
    - destruct (lookup_lt_is_Some_2 pattern i) as [c Hc]; [lia|]. destruct (Hchar i c Hc) as [Hns Hm].
      rewrite pat_match_one by (congruence || lia). rewrite (drop_S _ _ _ Hc). split.
      + intros (c' & n' & next & -> & Hsingle & Hrest). rewrite Hm in Hsingle. case_decide; [|done]. injection Hsingle as <-. subst c'.
        f_equal. by apply (IH (S i)); [lia..|].
      + intros ->. exists c, (drop (S i) pattern), (S i). split; [done|]. rewrite Hm, decide_True by done. split; [done|]. by apply (IH (S i)); [lia..|]. }
  rewrite (Hgo (length pattern) 0%nat n) by lia. by rewrite drop_0.
Qed.

Lemma find_sub_None needle s : find_sub needle s = None -> forall x y, s <> x ++ needle ++ y.
Proof.
  induction s as [|c s IH]; cbn [find_sub]; intros Hf x y Heq.
  - symmetry in Heq. apply app_eq_nil in Heq as [-> Heq]. apply app_eq_nil in Heq as [-> ->]. done.
  - destruct (starts_with needle (c :: s)) eqn:Hs; [done|]. destruct (find_sub needle s) eqn:Hsub; [done|].
    destruct x as [|d x]; cbn in Heq.
    + rewrite Heq, starts_with_app in Hs. done.
    + injection Heq as -> Heq. by destruct (IH eq_refl x y).
Qed.

Lemma find_sub_first needle s i : find_sub needle s = Some i -> forall x y, s = x ++ needle ++ y -> (i <= length x)%nat.
Proof.
  revert i. induction s as [|c s IH]; intros i; cbn [find_sub].
  - destruct (starts_with needle []) eqn:Hs; [intros [= <-]; lia|done].
  - destruct (starts_with needle (c :: s)) eqn:Hs; [intros [= <-]; lia|]. destruct (find_sub needle s) as [j|] eqn:Hsub; [|done].
    intros [= <-] x y Heq. destruct x as [|d x]; cbn in Heq; [rewrite Heq, starts_with_app in Hs; done|].
    injection Heq as -> Heq. specialize (IH j eq_refl x y Heq). cbn. lia.
Qed.

(** C6: [${v/pat/rep}]: on an ASCII value the leftmost match of the pattern, and the
    shortest one there, is replaced; without a match the value is unchanged. This
    holds for patterns with metacharacters and for literal ones. *)
Theorem replace_first_correct (text pattern rep : str) : is_ascii text = true ->
  exists r, glob_replace_first text pattern rep = (Ok r : res unit _) /\
    ((exists x m y, first_match text pattern x m y /\ r = x ++ rep ++ y) \/
     ((forall x m y, ~ occurs text pattern x m y) /\ r = text)).
Proof.
  intros Ha. unfold glob_replace_first. destruct (is_glob_pattern pattern) eqn:Hp; cbn [negb].
  - destruct (glob_find_first_spec (E := unit) text pattern Ha) as (r & Hr & Hspec). rewrite Hr. cbn [mbind res_bind].
    destruct r as [[a b]|].
    + destruct Hspec as [Hab Hf]. rewrite !ascii_slice by (done || lia). eexists. split; [done|]. left. eauto 10.
    + exists text. split; [done|]. by right.
  - assert (Hocc : forall x m y, occurs text pattern x m y <-> text = x ++ pattern ++ y /\ m = pattern).
    { intros x m y. unfold occurs. rewrite plain_pattern by done. split; [by intros [-> ->]|by intros [-> ->]]. }
    eexists. split; [done|]. destruct pattern as [|c pattern].
    + left. exists [], [], text. split; [|done]. split; [by apply Hocc|]. intros x' m' y' [_ ->]%Hocc. cbn. destruct (length x'); [right|left]; lia.
    + cbn [replacen_one replace_sub]. destruct (find_sub (c :: pattern) text) as [i|] eqn:Hf.
      * pose proof (find_sub_Some _ _ _ Hf) as [Hl Hs]. left. exists (take i text), (c :: pattern), (drop (i + length (c :: pattern)) text).
        assert (Ht : text = take i text ++ (c :: pattern) ++ drop (i + length (c :: pattern)) text).
        { rewrite <-Hs at 1. unfold slice. rewrite (app_assoc _ (take _ _)). rewrite <-(take_drop i text) at 1. rewrite <-app_assoc. f_equal.
          replace (i + length (c :: pattern) - i)%nat with (length (c :: pattern)) by lia. rewrite <-drop_drop. by rewrite take_drop. }
        split; [|done]. split; [by apply Hocc|]. intros x' m' y' [Hx ->]%Hocc. pose proof (find_sub_first _ _ _ Hf x' y' Hx) as Hle.
        rewrite length_take. lia.
      * right. split; [|done]. intros x m y [Hx _]%Hocc. by apply (find_sub_None _ _ Hf x y).
Qed.

Lemma replace_first_correct_witness : glob_replace_first #"hello" #"[k-m]?" #"--" = (Ok #"he--o" : res unit _) /\
  exists r, glob_replace_first #"hello" #"[k-m]?" #"--" = (Ok r : res unit _) /\
    ((exists x m y, first_match #"hello" #"[k-m]?" x m y /\ r = x ++ #"--" ++ y) \/
     ((forall x m y, ~ occurs #"hello" #"[k-m]?" x m y) /\ r = #"hello")).
Proof. split; [reflexivity|]. apply (replace_first_correct #"hello" #"[k-m]?" #"--"). reflexivity. Defined.

(** ** Observations *)

(** The value [é.txt]. *)
Definition accented : str := [Ascii.ascii_of_N 195; Ascii.ascii_of_N 169] ++ #".txt".

(** On a value with a multi-byte character the strip operators panic. *)
Example strip_panics_on_utf8 :
  strip_suffix_glob accented #".txt" false = (Panic "byte index is not a char boundary" : res unit _) /\
  glob_replace_first accented #"?" #"x" = (Panic "byte index is not a char boundary" : res unit _).
Proof. split; vm_compute; reflexivity. Qed.

(** An empty pattern matches at every position. *)
Example empty_pattern_everywhere : glob_replace_all #"abc" [] #"-" = (Ok #"-a-b-c-" : res unit _).
Proof. vm_compute. reflexivity. Qed.

(** Replacement takes the shortest match at the leftmost position, and after an
    empty match the byte behind it is dropped. *)
Example replace_takes_shortest : glob_replace_first #"aaab" #"a*" #"x" = (Ok #"xaab" : res unit _) /\
  glob_replace_all #"abc" #"*" #"x" = (Ok #"xxxx" : res unit _).
Proof. split; vm_compute; reflexivity. Qed.
