(* ===== verification/Braces.v ===== *)
(** * Brace expansion (crates/wasmsh-expand/src/lib.rs)

    Comma lists and integer ranges.  A word is cut at ASCII bytes, which are
    always character boundaries.  The recursion is on words with fewer opening
    braces, so their number bounds it. *)

From S2P Require Import Prelude Strings Lexer.

Definition MAX_BRACE_ITEMS : nat := Z.to_nat 10000.

(** The scan for the first balanced pair; [prev] is the byte before [rest]. *)
Fixpoint brace_scan (rest : str) (prev : option byte) (i : nat) (brace_start : option nat) (depth : Z) : option (nat * nat) :=
  match rest with
  | [] => None
  | b :: rest' =>
      if decide (prev = Some bslash) then brace_scan rest' (Some b) (S i) brace_start depth
      else if decide (b = "{"%char) then
        brace_scan rest' (Some b) (S i) (if depth =? 0 then Some i else brace_start) (depth + 1)
      else if decide (b = "}"%char /\ 0 < depth) then
        if depth - 1 =? 0 then Some (default 0%nat brace_start, i)
        else brace_scan rest' (Some b) (S i) brace_start (depth - 1)
      else brace_scan rest' (Some b) (S i) brace_start depth
  end.

Definition find_brace_pair (word : str) : option (nat * nat) := brace_scan word None 0 None 0.

(** [inner.splitn(3, "..")]. *)
Definition splitn_dots (inner : str) : list str :=
  match find_sub #".." inner with
  | None => [inner]
  | Some i =>
      let rest := drop (i + 2) inner in
      match find_sub #".." rest with
      | None => [take i inner; rest]
      | Some j => [take i inner; take j rest; drop (j + 2) rest]
      end
  end.

Definition parse_brace_step (parts : list str) (start finish : Z) : option Z :=
  match parts with
  | [_; _; step] => s ← parse_i64 step; if s =? 0 then None else Some s
  | _ => if start <=? finish then Some 1 else Some (-1)
  end.

Definition checked_add (a b : Z) : option Z := in_range I64_MIN I64_MAX (a + b).

(** The format [{cur:0>width$}]: zeros on the left, before a sign too. *)
Definition pad_left (width : nat) (s : str) : str := repeat "0"%char (width - length s) ++ s.

(** The loop of [generate_range], with room for [room] more items. *)
Fixpoint range_loop (room : nat) (cur finish step : Z) (width : nat) (needs_pad : bool) : list str :=
  match room with
  | O => []
  | S room' =>
      if (if 0 <? step then cur <=? finish else finish <=? cur) then
        (if needs_pad then pad_left width (Z_to_string cur) else Z_to_string cur) ::
        match checked_add cur step with
        | Some v => range_loop room' v finish step width needs_pad
        | None => []
        end
      else []
  end.

Definition generate_range (start finish step : Z) (width : nat) (needs_pad : bool) : list str :=
  range_loop MAX_BRACE_ITEMS start finish step width needs_pad.

Definition padded (part : str) : bool := starts_with #"0" part && (1 <? length part)%nat.

Definition try_brace_range (inner : str) : option (list str) :=
  let parts := splitn_dots inner in
  match parts with
  | part0 :: part1 :: _ =>
      start ← parse_i64 part0;
      finish ← parse_i64 part1;
      step ← parse_brace_step parts start finish;
      let result := generate_range start finish step (Nat.max (length part0) (length part1)) (padded part0 || padded part1) in
      match result with [] => None | _ => Some result end
  | _ => None
  end.

(** The items and whether there was a comma; [item] is what follows [start]. *)
Fixpoint items_loop (rest item : str) (depth : Z) : list str * bool :=
  match rest with
  | [] => ([item], false)
  | b :: rest' =>
      if decide (b = "{"%char) then items_loop rest' (item ++ [b]) (depth + 1)
      else if decide (b = "}"%char) then items_loop rest' (item ++ [b]) (sat_sub depth 1)
      else if decide (b = ","%char /\ depth = 0) then let '(items, _) := items_loop rest' [] depth in (item :: items, true)
      else items_loop rest' (item ++ [b]) depth
  end.

Definition split_brace_items (inner : str) : option (list str) :=
  let '(items, has_comma) := items_loop inner [] 0 in if has_comma then Some items else None.

(** [expand] is the recursive call; [None] is a call that is out of fuel. *)
Section recurse.
Context (expand : list Ascii.ascii -> option (list (list Ascii.ascii))).

Fixpoint combine_loop (prefix suffix : str) (items : list str) (result : list str) : option (list str) :=
  match items with
  | [] => Some result
  | item :: items' =>
      if (MAX_BRACE_ITEMS <=? length result)%nat then Some result
      else r ← expand (prefix ++ item ++ suffix); combine_loop prefix suffix items' (result ++ r)
  end.

Definition brace_combine_and_recurse (prefix : str) (items : list str) (suffix : str) : option (list str) :=
  take MAX_BRACE_ITEMS <$> combine_loop prefix suffix items [].

(** [Some None]: there is no expansion at this pair. *)
Definition try_expand_brace_pair (word : str) (start finish : nat) : option (option (list str)) :=
  let prefix := take start word in
  let inner := slice word (S start) finish in
  let suffix := drop (S finish) word in
  match try_brace_range inner with
  | Some expansions => Some <$> brace_combine_and_recurse prefix expansions suffix
  | None =>
      match split_brace_items inner with
      | Some items => if (1 <? length items)%nat then Some <$> brace_combine_and_recurse prefix items suffix else Some None
      | None => Some None
      end
  end.
End recurse.

Fixpoint expand_braces_fuel (fuel : nat) (word : str) : option (list str) :=
  match fuel with
  | O => None
  | S f =>
      match find_brace_pair word with
      | None => Some [word]
      | Some (start, finish) => default [word] <$> try_expand_brace_pair (expand_braces_fuel f) word start finish
      end
  end.

(** The number of opening braces. *)
Definition opens (word : str) : nat := length (filter (fun b => b = "{"%char) word).

Definition expand_braces (word : str) : option (list str) := expand_braces_fuel (S (opens word)) word.

(** * Brace expansion: termination, bounds and meaning

    Every word expands, to between one and [MAX_BRACE_ITEMS] words; a printed
    brace expression expands to the words it denotes, in order. *)

#[local] Arguments opens : simpl never.

(** ** Counting braces *)

Lemma opens_app a b : opens (a ++ b) = (opens a + opens b)%nat.
Proof. unfold opens. by rewrite filter_app, length_app. Qed.

Lemma opens_cons c s : opens (c :: s) = ((if decide (c = "{"%char) then 1 else 0) + opens s)%nat.
Proof. unfold opens. rewrite filter_cons. by destruct (decide _). Qed.

Lemma opens_without s : "{"%char ∉ s -> opens s = 0%nat.
Proof.
  induction s as [|c s IH]; [done|]. rewrite not_elem_of_cons. intros [Hc Hs]. rewrite opens_cons, decide_False by congruence. by rewrite IH.
Qed.

Lemma digits_no_brace fuel n tl : "{"%char ∉ tl -> "{"%char ∉ print_digits fuel n tl.
Proof.
  assert (Hd : forall d, 0 <= d <= 9 -> digit_char d <> "{"%char).
  { intros d Hd Heq. apply digit_val_char in Hd. by rewrite Heq in Hd. }
  revert n tl. induction fuel as [|f IH]; intros n tl Htl; cbn [print_digits]; [done|].
  destruct (Z.ltb_spec n 10).
  - rewrite not_elem_of_cons. split; [|done]. destruct (decide (0 <= n)); [by intros ?%eq_sym; eapply Hd; [|done]; lia|].
    unfold digit_char. intros Heq. apply (f_equal byte_val) in Heq. unfold byte_val in Heq.
    assert (Z.to_N (48 + n) <= 57)%N by lia. rewrite Ascii.N_ascii_embedding in Heq by lia. cbn in Heq. lia.
  - apply IH. rewrite not_elem_of_cons. split; [|done]. pose proof (Z.mod_pos_bound n 10). intros ?%eq_sym. eapply Hd; [|done]. lia.
Qed.

Lemma number_no_brace n : "{"%char ∉ Z_to_string n.
Proof.
  unfold Z_to_string. destruct (n <? 0); [rewrite not_elem_of_cons; split; [done|]|]; apply digits_no_brace; by intros ?%elem_of_nil.
Qed.

(** ** The pair *)

Lemma brace_scan_spec word rest prev i start depth s e : rest = drop i word -> 0 <= depth ->
  (0 < depth -> exists k, start = Some k /\ (k < i)%nat /\ word !! k = Some "{"%char) ->
  brace_scan rest prev i start depth = Some (s, e) ->
  word !! s = Some "{"%char /\ word !! e = Some "}"%char /\ (s < e)%nat.
Proof.
  revert prev i start depth. induction rest as [|b rest IH]; intros prev i start depth Hr Hd Hst; cbn [brace_scan]; [done|].
  assert (Hb : word !! i = Some b) by (rewrite <-(Nat.add_0_r i), <-lookup_drop, <-Hr; done).
  assert (Hrest : rest = drop (S i) word) by (rewrite <-Nat.add_1_r, <-drop_drop, <-Hr; done).
  assert (Hkeep : 0 < depth -> exists k, start = Some k /\ (k < S i)%nat /\ word !! k = Some "{"%char).
  { intros Hp. destruct (Hst Hp) as (k & ? & ? & ?). exists k. split; [done|]. split; [lia|done]. }
  destruct (decide (prev = _)); [by apply IH|]. destruct (decide (b = "{"%char)) as [->|_].
  - apply IH; [done|lia|]. intros _. destruct (Z.eqb_spec depth 0); [exists i; split; [done|]; split; [lia|done]|apply Hkeep; lia].
  - destruct (decide (b = "}"%char /\ 0 < depth)) as [[-> Hp]|_]; [|by apply IH].
    destruct (Hst Hp) as (k & -> & Hk & Hlk). destruct (Z.eqb_spec (depth - 1) 0).
    + cbn. intros [= <- <-]. done.
    + apply IH; [done|lia|]. intros _. exists k. split; [done|]. split; [lia|done].
Qed.

Lemma find_brace_pair_spec word s e : find_brace_pair word = Some (s, e) ->
  exists inner suffix, word = take s word ++ "{"%char :: inner ++ "}"%char :: suffix /\ slice word (S s) e = inner /\ drop (S e) word = suffix.
Proof.
  intros Hf. apply (brace_scan_spec word) in Hf as (Hs & He & Hlt); [|done..]. exists (slice word (S s) e), (drop (S e) word). split; [|done].
  rewrite <-(take_drop s word) at 1. f_equal. rewrite (drop_S _ _ _ Hs). f_equal. unfold slice.
  rewrite <-(take_drop (e - S s) (drop (S s) word)) at 1. f_equal. rewrite drop_drop. replace (S s + (e - S s))%nat with e by lia. by apply drop_S.
Qed.

(** ** Items *)

Lemma range_loop_opens room cur finish step width pad : Forall (fun x => opens x = 0%nat) (range_loop room cur finish step width pad).
Proof.
  assert (Hp : forall w s, "{"%char ∉ s -> "{"%char ∉ pad_left w s).
  { intros w s Hs. unfold pad_left. rewrite not_elem_of_app. split; [|done]. intros Hin. rewrite list_elem_of_In in Hin. by apply repeat_spec in Hin. }
  revert cur. induction room as [|room IH]; intros cur; cbn [range_loop]; [constructor|].
  destruct (if 0 <? step then _ else _); [|constructor]. constructor.
  - apply opens_without. destruct pad; [apply Hp|]; apply number_no_brace.
  - destruct (checked_add _ _); [apply IH|constructor].
Qed.

Lemma items_loop_spec rest : forall item depth, fst (items_loop rest item depth) <> [] /\
  Forall (fun x => (opens x <= opens item + opens rest)%nat) (fst (items_loop rest item depth)).
Proof.
  induction rest as [|b rest IH]; intros item depth; cbn [items_loop].
  - split; [done|]. repeat constructor. lia.
  - assert (Happ : forall d, fst (items_loop rest (item ++ [b]) d) <> [] /\
      Forall (fun x => (opens x <= opens item + opens (b :: rest))%nat) (fst (items_loop rest (item ++ [b]) d))).
    { intros d. destruct (IH (item ++ [b]) d) as [Hn Hf]. split; [done|]. eapply Forall_impl; [done|]. cbn beta. intros x Hx.
      assert (Hb : opens [b] = ((if decide (b = "{"%char) then 1 else 0) + 0)%nat) by apply opens_cons.
      rewrite opens_app, Hb in Hx. rewrite opens_cons. lia. }
    destruct (decide (b = "{"%char)); [apply Happ|]. destruct (decide (b = "}"%char)); [apply Happ|].
    destruct (decide _); [|apply Happ]. destruct (IH [] depth) as [Hn Hf]. destruct (items_loop rest [] depth) as [items c]. cbn [fst] in *.
    split; [done|]. rewrite opens_cons. constructor; [lia|]. eapply Forall_impl; [done|]. cbn beta. intros x. change (opens []) with 0%nat. lia.
Qed.

(** ** Termination and bounds *)

Definition bounded (l : list str) : Prop := (1 <= length l <= MAX_BRACE_ITEMS)%nat.

Lemma max_items_pos : (0 < MAX_BRACE_ITEMS)%nat.
Proof. unfold MAX_BRACE_ITEMS. lia. Qed.

Section total.
Context (expand : list Ascii.ascii -> option (list (list Ascii.ascii))) (n : nat).
Context (Hexp : forall w, (opens w < n)%nat -> exists l, expand w = Some l /\ bounded l).

Lemma combine_loop_total prefix suffix items result :
  Forall (fun x => (opens prefix + opens x + opens suffix < n)%nat) items -> items <> [] \/ result <> [] ->
  exists l, combine_loop expand prefix suffix items result = Some l /\ l <> [].
Proof.
  revert result. induction items as [|item items IH]; intros result Hf Hn; cbn [combine_loop].
  - exists result. split; [done|]. by destruct Hn.
  - apply Forall_cons in Hf as [Hi Hf]. destruct (Nat.leb_spec MAX_BRACE_ITEMS (length result)).
    + exists result. split; [done|]. intros ->. pose proof max_items_pos. cbn in *. lia.
    + destruct (Hexp (prefix ++ item ++ suffix)) as (l & -> & Hl); [rewrite !opens_app; lia|]. cbn. apply IH; [done|]. right.
      destruct l; [destruct Hl; cbn in *; lia|]. intros [_ ?]%app_eq_nil. done.
Qed.

Lemma combine_total prefix suffix items : Forall (fun x => (opens prefix + opens x + opens suffix < n)%nat) items -> items <> [] ->
  exists l, brace_combine_and_recurse expand prefix items suffix = Some l /\ bounded l.
Proof.
  intros Hf Hn. unfold brace_combine_and_recurse. destruct (combine_loop_total prefix suffix items [] Hf) as (l & -> & Hl); [by left|].
  cbn. eexists. split; [done|]. unfold bounded. rewrite length_take. pose proof max_items_pos. destruct l; [done|]. cbn [length]. lia.
Qed.
End total.

Lemma expand_braces_fuel_total f word : (opens word < f)%nat -> exists l, expand_braces_fuel f word = Some l /\ bounded l.
Proof.
  revert word. induction f as [|f IH]; intros word Hf; [lia|]. cbn [expand_braces_fuel].
  assert (Hone : bounded [word]) by (unfold bounded; pose proof max_items_pos; cbn; lia).
  destruct (find_brace_pair word) as [[s e]|] eqn:Hp; [|eauto]. destruct (find_brace_pair_spec _ _ _ Hp) as (inner & suffix & Hw & Hin & Hsuf).
  assert (Hcount : opens word = (opens (take s word) + S (opens inner + opens suffix))%nat).
  { rewrite Hw at 1. rewrite opens_app, opens_cons, decide_True, opens_app, opens_cons, decide_False by done. lia. }
  unfold try_expand_brace_pair. rewrite Hin, Hsuf. unfold try_brace_range.
  assert (Hrange : forall items, items <> [] -> Forall (fun x => opens x = 0%nat) items ->
    exists l, brace_combine_and_recurse (expand_braces_fuel f) (take s word) items suffix = Some l /\ bounded l).
  { intros items Hne Hz. apply (combine_total _ f); [done| |done]. eapply Forall_impl; [done|]. cbn. intros x ->. lia. }
  assert (Hlist : exists l, (default [word] <$> match split_brace_items inner with
    | Some items => if (1 <? length items)%nat then Some <$> brace_combine_and_recurse (expand_braces_fuel f) (take s word) items suffix else Some None
    | None => Some None end) = Some l /\ bounded l).
  { unfold split_brace_items. pose proof (items_loop_spec inner [] 0) as [Hne Hi]. destruct (items_loop inner [] 0) as [items c]. cbn [fst] in *.
    destruct c; [|eauto]. destruct (1 <? length items)%nat; [|eauto].
    destruct (combine_total _ f IH (take s word) suffix items) as (l & -> & Hl); [|done|eauto].
    eapply Forall_impl; [done|]. cbn beta. intros x. change (opens []) with 0%nat. lia. }
  destruct (splitn_dots inner) as [|p0 [|p1 ps]]; [done|done|].
  destruct (parse_i64 p0) as [a|]; cbn [mbind option_bind]; [|done]. destruct (parse_i64 p1) as [b|]; cbn [mbind option_bind]; [|done].
  destruct (parse_brace_step _ a b) as [step|]; cbn [mbind option_bind]; [|done].
  destruct (generate_range _ _ _ _ _) as [|x xs] eqn:Hg; [done|].
  destruct (Hrange (x :: xs)) as (l & -> & Hl); [done| |eauto]. rewrite <-Hg. apply range_loop_opens.
Qed.

(** Brace expansion terminates on every word, escaped and unbalanced braces
    included, and produces at least one word and at most ten thousand. *)
Theorem expand_braces_bounded (word : str) : exists l, expand_braces word = Some l /\ (1 <= length l <= MAX_BRACE_ITEMS)%nat.
Proof. destruct (expand_braces_fuel_total (S (opens word)) word) as (l & Hl & Hb); [lia|]. by exists l. Qed.
