(* ===== verification/BracesSpec.v ===== *)
(** * Brace expansion: meaning

    Brace expressions of literals, comma lists (nested) and integer ranges, with
    the words they denote in order: the first difference varies slowest.  The
    printed expression expands to them, cut off at [MAX_BRACE_ITEMS]. *)

From S2P Require Import Prelude Strings Lexer Braces.

(** ** Brace expressions *)

#[warnings="-register-all"]
Inductive belem :=
  | BLit (s : str)
  | BAlt (items : list (list belem))
  | BRange (a b : Z).

Abbreviation bword := (list belem).

(** [a], [a+1], ..., [b], or downwards. *)
Definition zrange (a b : Z) : list Z :=
  if a <=? b then map (fun i => a + Z.of_nat i) (seq 0 (Z.to_nat (b - a + 1)))
  else map (fun i => a - Z.of_nat i) (seq 0 (Z.to_nat (a - b + 1))).

Definition prod_words (xs ys : list str) : list str := concat (map (fun x => map (app x) ys) xs).

Fixpoint elem_words (e : belem) : list str :=
  match e with
  | BLit s => [s]
  | BAlt items =>
      concat (map (fix words (w : bword) := match w with [] => [[]] | e :: w' => prod_words (elem_words e) (words w') end) items)
  | BRange a b => map Z_to_string (zrange a b)
  end.

Fixpoint words (w : bword) : list str :=
  match w with [] => [[]] | e :: w' => prod_words (elem_words e) (words w') end.

Fixpoint print_elem (e : belem) : str :=
  match e with
  | BLit s => s
  | BAlt items =>
      "{"%char :: join #"," (map (fix print (w : bword) := match w with [] => [] | e :: w' => print_elem e ++ print w' end) items) ++ #"}"
  | BRange a b => "{"%char :: Z_to_string a ++ #".." ++ Z_to_string b ++ #"}"
  end.

Fixpoint print_word (w : bword) : str :=
  match w with [] => [] | e :: w' => print_elem e ++ print_word w' end.

(** Literals without special bytes, lists of at least two items, bounds of 64 bits. *)
Definition literal_ok (s : str) : bool := forallb (fun c => negb (bool_decide (c ∈ #"{},\"))) s.

Fixpoint elem_ok (e : belem) : bool :=
  match e with
  | BLit s => literal_ok s
  | BAlt items =>
      (1 <? length items)%nat &&
      forallb (fix ok (w : bword) := match w with [] => true | e :: w' => elem_ok e && ok w' end) items
  | BRange a b => (I64_MIN <=? a) && (a <=? I64_MAX) && (I64_MIN <=? b) && (b <=? I64_MAX)
  end.

Definition word_ok (w : bword) : bool := forallb elem_ok w.

Lemma elem_words_alt items : elem_words (BAlt items) = concat (map words items).
Proof. reflexivity. Qed.

Lemma print_elem_alt items : print_elem (BAlt items) = "{"%char :: join #"," (map print_word items) ++ #"}".
Proof. reflexivity. Qed.

Lemma elem_ok_alt items : elem_ok (BAlt items) = (1 <? length items)%nat && forallb word_ok items.
Proof. reflexivity. Qed.

Lemma print_word_app v w : print_word (v ++ w) = print_word v ++ print_word w.
Proof. induction v as [|e v IH]; cbn; [done|]. by rewrite IH, app_assoc. Qed.

(** ** Products *)

Lemma take_concat {A} (n : nat) (l : list (list A)) : Forall (fun x => x <> []) l -> take n (concat (take n l)) = take n (concat l).
Proof.
  intros Hf. revert n. induction Hf as [|x l Hx Hl IH]; intros n; [by rewrite firstn_nil|]. destruct n as [|n]; [done|]. cbn [take concat].
  rewrite !take_app. f_equal. destruct x as [|y x]; [done|]. cbn [length]. replace (S n - S (length x))%nat with (n - length x)%nat by lia.
  replace (n - length x)%nat with ((n - length x) `min` n)%nat by lia. by rewrite <-!take_take, IH.
Qed.

Lemma prod_words_nil_r xs : prod_words xs [[]] = xs.
Proof.
  induction xs as [|x xs IH]; [done|]. change (prod_words (x :: xs) [[]]) with ((x ++ []) :: prod_words xs [[]]). by rewrite IH, app_nil_r.
Qed.

Lemma prod_words_nil_l ys : prod_words [[]] ys = ys.
Proof. unfold prod_words. cbn. rewrite app_nil_r. by apply map_id. Qed.

Lemma prod_words_app xs xs' ys : prod_words (xs ++ xs') ys = prod_words xs ys ++ prod_words xs' ys.
Proof. unfold prod_words. by rewrite map_app, concat_app. Qed.

Lemma prod_words_map x ys zs : prod_words (map (app x) ys) zs = map (app x) (prod_words ys zs).
Proof.
  unfold prod_words. rewrite concat_map, !map_map. f_equal. apply map_ext. intros y. rewrite map_map. apply map_ext. intros z.
  by rewrite app_assoc.
Qed.

Lemma prod_words_assoc xs ys zs : prod_words (prod_words xs ys) zs = prod_words xs (prod_words ys zs).
Proof.
  induction xs as [|x xs IH]; [done|]. change (x :: xs) with ([x] ++ xs). rewrite !prod_words_app, IH. f_equal.
  unfold prod_words at 2 3. cbn. rewrite !app_nil_r. apply prod_words_map.
Qed.

Lemma words_app v w : words (v ++ w) = prod_words (words v) (words w).
Proof. induction v as [|e v IH]; cbn [app words]; [by rewrite prod_words_nil_l|]. by rewrite IH, prod_words_assoc. Qed.

Lemma prod_words_concat x xss zs : prod_words [x] (prod_words (concat xss) zs) = concat (map (fun ys => prod_words [x] (prod_words ys zs)) xss).
Proof.
  induction xss as [|xs xss IH]; [done|]. cbn [concat map]. rewrite prod_words_app. rewrite <-IH.
  unfold prod_words at 1 3 5. cbn. by rewrite !app_nil_r, map_app.
Qed.

Lemma prod_words_nonempty xs ys : xs <> [] -> ys <> [] -> prod_words xs ys <> [].
Proof. intros Hx Hy. destruct xs as [|x xs], ys as [|y ys]; done. Qed.

Lemma zrange_nonempty a b : zrange a b <> [].
Proof.
  unfold zrange. destruct (Z.leb_spec a b).
  - replace (Z.to_nat (b - a + 1)) with (S (Z.to_nat (b - a))) by lia. done.
  - replace (Z.to_nat (a - b + 1)) with (S (Z.to_nat (a - b))) by lia. done.
Qed.

(** Enough of the first factor is enough. *)
Lemma prod_words_take {A} x (g : A -> str) l ys n : ys <> [] ->
  take n (prod_words [x] (prod_words (map g (take n l)) ys)) = take n (prod_words [x] (prod_words (map g l) ys)).
Proof.
  intros Hy. unfold prod_words. cbn [map concat]. rewrite !app_nil_r, !firstn_map, !map_map. f_equal. rewrite <-firstn_map.
  apply take_concat, Forall_map, Forall_forall. intros z _. by destruct ys.
Qed.

(** Induction on words: the items of a list are words again. *)
Fixpoint size_elem (e : belem) : nat :=
  match e with
  | BAlt items => S (sum_list (map (fix size (w : bword) := match w with [] => 0%nat | e :: w' => (size_elem e + size w')%nat end) items))
  | _ => 1
  end.

Definition size (w : bword) : nat := sum_list_with size_elem w.

Lemma size_alt items : size_elem (BAlt items) = S (sum_list (map size items)).
Proof. reflexivity. Qed.

Lemma size_item items w : w ∈ items -> (size w < size_elem (BAlt items))%nat.
Proof.
  rewrite size_alt. induction items as [|v items IH]; [by intros ?%elem_of_nil|]. cbn.
  intros [->|Hin]%elem_of_cons; [lia|]. specialize (IH Hin). lia.
Qed.

Lemma words_nonempty_aux n : forall w, (size w <= n)%nat -> word_ok w = true -> words w <> [].
Proof.
  induction n as [n IHn] using lt_wf_ind. intros w. induction w as [|e w IH]; intros Hs Hok; [done|].
  cbn [words word_ok forallb] in *. apply andb_true_iff in Hok as [He Hw]. cbn in Hs. apply prod_words_nonempty; [|apply IH; [unfold size; lia|done]].
  destruct e as [s|items|a b]; [done| |].
  - rewrite elem_ok_alt in He. apply andb_true_iff in He as [Hl%Nat.ltb_lt Hall]. destruct items as [|v items]; [cbn in Hl; lia|].
    rewrite elem_words_alt. cbn [map concat forallb] in *. apply andb_true_iff in Hall as [Hv _].
    intros [Hv0 _]%app_eq_nil. revert Hv0. pose proof (size_item (v :: items) v ltac:(left)). apply (IHn (size v)); [lia|lia|done].
  - cbn. intros ?%map_eq_nil. by apply (zrange_nonempty a b).
Qed.

Lemma words_nonempty w : word_ok w = true -> words w <> [].
Proof. by apply (words_nonempty_aux (size w)). Qed.

(** ** Balanced text

    Text whose braces nest; [true] lets commas stand outside the braces. *)

#[warnings="-register-all"]
Inductive balanced : bool -> str -> Prop :=
  | bal_nil b : balanced b []
  | bal_char b c s : c ∉ #"{},\" -> balanced b s -> balanced b (c :: s)
  | bal_comma s : balanced true s -> balanced true (","%char :: s)
  | bal_group b t s : balanced true t -> balanced b s -> balanced b ("{"%char :: t ++ "}"%char :: s).

#[local] Hint Constructors balanced : core.

Lemma balanced_weaken b s : balanced b s -> balanced true s.
Proof. induction 1; auto. Qed.

Lemma balanced_app b s t : balanced b s -> balanced b t -> balanced b (s ++ t).
Proof.
  intros Hs Ht. induction Hs; cbn [app]; auto. rewrite <-app_assoc. cbn [app]. auto.
Qed.

Lemma balanced_literal b s : literal_ok s = true -> balanced b s.
Proof.
  unfold literal_ok. rewrite forallb_forall. induction s as [|c s IH]; intros H; [done|]. apply bal_char.
  - specialize (H c (or_introl eq_refl)). by apply negb_true_iff, bool_decide_eq_false in H.
  - apply IH. intros x Hx. apply H. by right.
Qed.

Lemma balanced_join l : Forall (balanced true) l -> balanced true (join #"," l).
Proof.
  induction 1 as [|s l Hs Hl IH]; [done|]. destruct l as [|t l]; [done|]. rewrite join_cons. apply balanced_app; [done|].
  apply (bal_comma _ IH).
Qed.

Lemma integer_literal n : literal_ok (Z_to_string n) = true.
Proof.
  unfold literal_ok. apply forallb_forall. intros c Hc. apply negb_true_iff, bool_decide_eq_false. intros Hin.
  apply list_elem_of_In, integer_bytes in Hc. rewrite list_elem_of_In in Hin. cbn in Hin.
  repeat destruct Hin as [<-|Hin]; try done; by destruct Hc.
Qed.

Lemma dots_literal : literal_ok #".." = true.
Proof. done. Qed.

Lemma literal_ok_app s t : literal_ok (s ++ t) = literal_ok s && literal_ok t.
Proof. apply forallb_app. Qed.

Lemma balanced_print_aux n : forall w, (size w <= n)%nat -> word_ok w = true -> balanced false (print_word w).
Proof.
  induction n as [n IHn] using lt_wf_ind. intros w. induction w as [|e w IH]; intros Hs Hok; [done|].
  cbn [print_word word_ok forallb] in *. apply andb_true_iff in Hok as [He Hw]. cbn in Hs. apply balanced_app; [|apply IH; [unfold size; lia|done]].
  destruct e as [s|items|a b].
  - by apply balanced_literal.
  - rewrite elem_ok_alt in He. apply andb_true_iff in He as [_ Hall]. rewrite print_elem_alt. apply bal_group; [|done].
    apply balanced_join, Forall_map, Forall_forall. intros v Hv. apply (balanced_weaken false). rewrite forallb_forall in Hall.
    pose proof (size_item items v Hv). apply (IHn (size v)); [lia|lia|]. by apply Hall, list_elem_of_In.
  - cbn [print_elem]. rewrite !app_assoc. apply bal_group; [|done]. apply balanced_literal.
    by rewrite !literal_ok_app, !integer_literal, dots_literal.
Qed.

Lemma balanced_print w : word_ok w = true -> balanced false (print_word w).
Proof. by apply (balanced_print_aux (size w)). Qed.

(** ** The scans *)

Lemma special_bytes c : c ∉ #"{},\" -> c <> "{"%char /\ c <> "}"%char /\ c <> ","%char /\ c <> bslash.
Proof. intros Hc. split_and!; intros ->; apply Hc; rewrite list_elem_of_In; cbn; tauto. Qed.

Lemma scan_balanced b s : balanced b s -> forall rest prev i start depth, 0 < depth -> prev <> Some bslash ->
  exists prev', prev' <> Some bslash /\ brace_scan (s ++ rest) prev i start depth = brace_scan rest prev' (i + length s) start depth.
Proof.
  induction 1 as [b|b c s Hc Hs IH|s Hs IH|b t s Ht IHt Hs IHs]; intros rest prev i start depth Hd Hp.
  - exists prev. split; [done|]. f_equal. cbn. lia.
  - apply special_bytes in Hc as (? & ? & ? & ?). cbn [app brace_scan length].
    rewrite !decide_False by (try intros [? _]; congruence).
    destruct (IH rest (Some c) (S i) start depth Hd) as (p & Hp' & ->); [congruence|]. exists p. split; [done|]. f_equal. lia.
  - cbn [app brace_scan length]. rewrite (decide_False (P := prev = _)) by done. cbn.
    destruct (IH rest (Some ","%char) (S i) start depth Hd) as (p & Hp' & ->); [done|]. exists p. split; [done|]. f_equal. lia.
  - cbn [app brace_scan length]. rewrite (decide_False (P := prev = _)) by done. cbn [decide]. rewrite (decide_True (P := "{"%char = _)) by done.
    rewrite (proj2 (Z.eqb_neq depth 0)) by lia. rewrite <-app_assoc. cbn [app].
    destruct (IHt ("}"%char :: s ++ rest) (Some "{"%char) (S i) start (depth + 1)) as (p & Hp' & ->); [lia|done|].
    cbn [brace_scan]. rewrite (decide_False (P := p = _)) by done. rewrite (decide_False (P := "}"%char = "{"%char)) by done.
    rewrite decide_True by (split; [done|lia]). rewrite (proj2 (Z.eqb_neq (depth + 1 - 1) 0)) by lia.
    replace (depth + 1 - 1) with depth by lia.
    destruct (IHs rest (Some "}"%char) (S (S i + length t)) start depth Hd) as (q & Hq & ->); [done|]. exists q. split; [done|].
    f_equal. rewrite length_app. cbn. lia.
Qed.

Lemma scan_literal s : literal_ok s = true -> forall rest prev i start, prev <> Some bslash ->
  exists prev', prev' <> Some bslash /\ brace_scan (s ++ rest) prev i start 0 = brace_scan rest prev' (i + length s) start 0.
Proof.
  induction s as [|c s IH]; intros Hok rest prev i start Hp.
  - exists prev. split; [done|]. f_equal. cbn. lia.
  - cbn [literal_ok forallb] in Hok. apply andb_true_iff in Hok as [Hc%negb_true_iff%bool_decide_eq_false Hok].
    apply special_bytes in Hc as (? & ? & ? & ?). cbn [app brace_scan length].
    rewrite !decide_False by (try intros [? _]; congruence).
    destruct (IH Hok rest (Some c) (S i) start) as (p & Hp' & ->); [congruence|]. exists p. split; [done|]. f_equal. lia.
Qed.

Lemma find_pair p t s : literal_ok p = true -> balanced true t ->
  find_brace_pair (p ++ "{"%char :: t ++ "}"%char :: s) = Some (length p, S (length p + length t)).
Proof.
  intros Hp Ht. unfold find_brace_pair. destruct (scan_literal p Hp ("{"%char :: t ++ "}"%char :: s) None 0 None) as (q & Hq & ->); [done|].
  cbn [brace_scan Nat.add]. rewrite decide_False, decide_True by done. cbn. change (0 + 1) with 1.
  destruct (scan_balanced true t Ht ("}"%char :: s) (Some "{"%char) (S (length p)) (Some (length p)) 1) as (r & Hr & ->); [lia|done|].
  cbn [brace_scan]. rewrite decide_False by done. done.
Qed.

Lemma find_pair_literal p : literal_ok p = true -> find_brace_pair p = None.
Proof.
  intros Hp. unfold find_brace_pair. rewrite <-(app_nil_r p). by destruct (scan_literal p Hp [] None 0 None) as (q & Hq & ->).
Qed.

Lemma items_balanced b s : balanced b s -> forall rest item depth, 0 <= depth -> (b = true -> 0 < depth) ->
  items_loop (s ++ rest) item depth = items_loop rest (item ++ s) depth.
Proof.
  induction 1 as [b|b c s Hc Hs IH|s Hs IH|b t s Ht IHt Hs IHs]; intros rest item depth Hd Hb.
  - by rewrite app_nil_r.
  - apply special_bytes in Hc as (? & ? & ? & ?). cbn [app items_loop].
    rewrite !decide_False by (try intros [? _]; congruence). rewrite IH by done. by rewrite <-app_assoc.
  - cbn [app items_loop]. specialize (Hb eq_refl). rewrite !decide_False by (try intros [_ ?]; try done; lia). rewrite IH by done. by rewrite <-app_assoc.
  - cbn [app items_loop]. rewrite decide_True by done. rewrite <-app_assoc. cbn [app]. rewrite IHt by lia. cbn [items_loop].
    rewrite (decide_False (P := "}"%char = "{"%char)), decide_True by done. unfold sat_sub. replace (Z.max 0 (depth + 1 - 1)) with depth by lia.
    rewrite IHs by done. f_equal. by rewrite <-!app_assoc.
Qed.

Lemma split_items l : (1 < length l)%nat -> Forall (balanced false) l -> split_brace_items (join #"," l) = Some l.
Proof.
  intros Hl Hf. unfold split_brace_items. enough (items_loop (join #"," l) [] 0 = (l, (1 <? length l)%nat)) as ->.
  { by rewrite (proj2 (Nat.ltb_lt _ _) Hl). }
  assert (Hne : l <> []) by (destruct l; [cbn in Hl; lia|done]). clear Hl. induction Hf as [|s l Hs Hf IH]; [done|].
  destruct l as [|t l].
  - cbn [join]. rewrite <-(app_nil_r s) at 1. by rewrite (items_balanced false) by done.
  - rewrite join_cons, (items_balanced false) by done. change ( #"," ++ ?x) with (","%char :: x). cbn [items_loop].
    rewrite (decide_False (P := ","%char = "{"%char)), (decide_False (P := ","%char = "}"%char)), decide_True by done. by rewrite IH.
Qed.

(** ** Ranges *)

Lemma range_up room cur n finish : finish = cur + Z.of_nat n - 1 -> I64_MIN <= cur -> finish <= I64_MAX ->
  forall width, range_loop room cur finish 1 width false = map Z_to_string (take room (map (fun i => cur + Z.of_nat i) (seq 0 n))).
Proof.
  intros Hf Hlo Hhi width. revert cur n Hf Hlo. induction room as [|room IH]; intros cur n Hf Hlo; [done|]. cbn [range_loop Z.ltb Z.compare].
  destruct n as [|n].
  - by rewrite (proj2 (Z.leb_gt cur finish)) by lia.
  - rewrite (proj2 (Z.leb_le cur finish)) by lia. cbn [seq map take]. replace (cur + Z.of_nat 0) with cur by lia. f_equal.
    rewrite <-seq_shift, map_map. replace (map _ (seq 0 n)) with (map (fun i => (cur + 1) + Z.of_nat i) (seq 0 n)) by (apply map_ext; lia).
    unfold checked_add, in_range. destruct (Z.leb_spec (cur + 1) I64_MAX); [|destruct n; [rewrite andb_false_r; cbn; by rewrite firstn_nil|lia]].
    rewrite (proj2 (Z.leb_le I64_MIN _)) by lia. apply IH; lia.
Qed.

Lemma range_down room cur n finish : finish = cur - Z.of_nat n + 1 -> cur <= I64_MAX -> I64_MIN <= finish ->
  forall width, range_loop room cur finish (-1) width false = map Z_to_string (take room (map (fun i => cur - Z.of_nat i) (seq 0 n))).
Proof.
  intros Hf Hlo Hhi width. revert cur n Hf Hlo. induction room as [|room IH]; intros cur n Hf Hlo; [done|]. cbn [range_loop Z.ltb Z.compare].
  destruct n as [|n].
  - by rewrite (proj2 (Z.leb_gt finish cur)) by lia.
  - rewrite (proj2 (Z.leb_le finish cur)) by lia. cbn [seq map take]. replace (cur - Z.of_nat 0) with cur by lia. f_equal.
    rewrite <-seq_shift, map_map. replace (map _ (seq 0 n)) with (map (fun i => (cur - 1) - Z.of_nat i) (seq 0 n)) by (apply map_ext; lia).
    unfold checked_add, in_range. destruct (Z.leb_spec I64_MIN (cur + -1)); [|destruct n; [rewrite andb_false_l; cbn; by rewrite firstn_nil|lia]].
    rewrite (proj2 (Z.leb_le _ I64_MAX)) by lia. apply IH; lia.
Qed.

Lemma integer_no_dot n : "."%char ∉ Z_to_string n.
Proof. intros Hin. by apply integer_bytes in Hin as [?|?]. Qed.

Lemma starts_with_other p x c s : head p = Some x -> x <> c -> starts_with p (c :: s) = false.
Proof.
  intros Hp Hx. destruct p as [|y p]; [done|]. injection Hp as ->. apply not_true_iff_false. intros [r Hr]%starts_with_true. by injection Hr.
Qed.

Lemma find_dots_none s : "."%char ∉ s -> find_sub #".." s = None.
Proof.
  induction s as [|c s IH]; [done|]. rewrite not_elem_of_cons. intros [Hc Hs]. cbn [find_sub].
  rewrite (starts_with_other ( #"..") "."%char c s) by done. by rewrite IH.
Qed.

Lemma find_dots s t : "."%char ∉ s -> find_sub #".." (s ++ #".." ++ t) = Some (length s).
Proof.
  induction s as [|c s IH]; [done|]. rewrite not_elem_of_cons. intros [Hc Hs]. cbn [app find_sub].
  rewrite (starts_with_other ( #"..") "."%char) by done. by rewrite IH.
Qed.

Lemma splitn_integers a b : splitn_dots (Z_to_string a ++ #".." ++ Z_to_string b) = [Z_to_string a; Z_to_string b].
Proof.
  unfold splitn_dots. rewrite find_dots by apply integer_no_dot. rewrite take_app_length, <-drop_drop, drop_app_length. cbn [drop app].
  by rewrite find_dots_none by apply integer_no_dot.
Qed.

Lemma integer_not_padded n : padded (Z_to_string n) = false.
Proof.
  unfold padded. destruct (integer_text n) as (sign & c & s & -> & [-> | ->] & Hc & Hs & Hz); [|done]. cbn [app length].
  destruct (decide ("0"%char = c)) as [<-|H0]; [by rewrite Hz|]. by rewrite (starts_with_other ( #"0") "0"%char) by done.
Qed.

Lemma brace_range a b : I64_MIN <= a <= I64_MAX -> I64_MIN <= b <= I64_MAX ->
  try_brace_range (Z_to_string a ++ #".." ++ Z_to_string b) = Some (map Z_to_string (take MAX_BRACE_ITEMS (zrange a b))).
Proof.
  intros Ha Hb. unfold try_brace_range. rewrite splitn_integers. unfold parse_i64. rewrite !parse_signed_to_string by done.
  cbn [mbind option_bind]. rewrite !integer_not_padded. unfold parse_brace_step, generate_range.
  assert (Hne : map Z_to_string (take MAX_BRACE_ITEMS (zrange a b)) <> []).
  { intros Hnil%map_eq_nil. pose proof (zrange_nonempty a b). pose proof max_items_pos. destruct (zrange a b), MAX_BRACE_ITEMS; done || lia. }
  revert Hne. unfold zrange. destruct (Z.leb_spec a b); cbn [mbind option_bind orb].
  - rewrite (range_up _ a (Z.to_nat (b - a + 1))) by lia. by destruct (map _ _).
  - rewrite (range_down _ a (Z.to_nat (a - b + 1))) by lia. by destruct (map _ _).
Qed.

(** Text with a comma is not a range. *)
Lemma parse_digits_comma s : forall acc, ","%char ∈ s -> parse_digits_from acc s = None.
Proof.
  induction s as [|c s IH]; intros acc; [by intros ?%elem_of_nil|]. cbn. intros [<-|Hin]%elem_of_cons; [done|].
  destruct (digit_val c); cbn; [by apply IH|done].
Qed.

Lemma parse_comma s : ","%char ∈ s -> parse_i64 s = None.
Proof.
  intros Hin. unfold parse_i64, parse_signed. destruct s as [|c s]; [done|].
  assert (Ht : c <> ","%char -> parse_digits s = None).
  { intros Hc. apply elem_of_cons in Hin as [?|Hin]; [done|]. destruct s; [done|]. by apply (parse_digits_comma _ 0). }
  destruct (decide (c = "+"%char)) as [->|_]; [by rewrite Ht|]. destruct (decide (c = "-"%char)) as [->|_]; [by rewrite Ht|].
  unfold parse_digits. by rewrite parse_digits_comma.
Qed.

Lemma split_comma i (inner : str) : ","%char ∈ inner -> slice inner i (i + 2) = #".." -> ","%char ∈ take i inner \/ ","%char ∈ drop (i + 2) inner.
Proof.
  intros Hin Hs. rewrite <-(take_drop i inner), <-(take_drop 2 (drop i inner)), drop_drop, !elem_of_app in Hin.
  destruct Hin as [?|[Hin|?]]; [by left| |by right]. unfold slice in Hs. replace (i + 2 - i)%nat with 2%nat in Hs by lia. rewrite Hs in Hin.
  rewrite list_elem_of_In in Hin. cbn in Hin. by destruct Hin as [?|[?|?]].
Qed.

Lemma comma_no_range inner : ","%char ∈ inner -> try_brace_range inner = None.
Proof.
  intros Hin. unfold try_brace_range, splitn_dots. destruct (find_sub _ inner) as [i|] eqn:Hi; [|done].
  apply find_sub_Some in Hi as [_ Hi]. cbn [length] in Hi. set (rest := drop (i + 2) inner). destruct (split_comma i inner Hin Hi) as [H|H]; fold rest in H.
  - destruct (find_sub _ rest); by rewrite (parse_comma _ H).
  - destruct (find_sub _ rest) as [j|] eqn:Hj.
    + apply find_sub_Some in Hj as [_ Hj]. cbn [length] in Hj. destruct (parse_i64 (take i inner)); [cbn|done].
      destruct (split_comma j rest H Hj) as [H'|H']; [by rewrite (parse_comma _ H')|]. rewrite (parse_comma _ H'). by destruct (parse_i64 _).
    + rewrite (parse_comma _ H). by destruct (parse_i64 _).
Qed.

(** ** Combining *)

Lemma take_app_mid {A} n (x y z : list A) : take n (x ++ take n y ++ z) = take n (x ++ y ++ z).
Proof.
  rewrite !take_app. destruct (Nat.le_gt_cases n (length x)).
  - replace (n - length x)%nat with 0%nat by lia. done.
  - f_equal. rewrite take_take, length_take. f_equal; [f_equal; lia|]. f_equal. lia.
Qed.

Lemma combine_meaning {B} expand prefix suffix (alts : list B) (item : B -> str) (mean : B -> list str) : forall result,
  Forall (fun v => expand (prefix ++ item v ++ suffix) = Some (take MAX_BRACE_ITEMS (mean v))) alts ->
  exists l, combine_loop expand prefix suffix (map item alts) result = Some l /\
    take MAX_BRACE_ITEMS l = take MAX_BRACE_ITEMS (result ++ concat (map mean alts)).
Proof.
  induction alts as [|v alts IH]; intros result Hf; cbn [map combine_loop concat].
  - exists result. by rewrite app_nil_r.
  - apply Forall_cons in Hf as [Hv Hf]. destruct (Nat.leb_spec MAX_BRACE_ITEMS (length result)).
    + exists result. split; [done|]. by rewrite take_app_le.
    + rewrite Hv. cbn. destruct (IH (result ++ take MAX_BRACE_ITEMS (mean v)) Hf) as (l & -> & Hl). exists l. split; [done|].
      rewrite Hl, <-app_assoc. apply take_app_mid.
Qed.

Lemma recurse_meaning {B} expand prefix suffix (alts : list B) (item : B -> str) (mean : B -> list str) :
  Forall (fun v => expand (prefix ++ item v ++ suffix) = Some (take MAX_BRACE_ITEMS (mean v))) alts ->
  brace_combine_and_recurse expand prefix (map item alts) suffix = Some (take MAX_BRACE_ITEMS (concat (map mean alts))).
Proof.
  intros Hf. unfold brace_combine_and_recurse. destruct (combine_meaning expand prefix suffix alts item mean [] Hf) as (l & -> & Hl).
  cbn. by rewrite Hl.
Qed.

(** ** The first element that is not a literal *)

Inductive view : bword -> Type :=
  | view_lits w : literal_ok (print_word w) = true -> words w = [print_word w] -> view w
  | view_elem ls e w : literal_ok (print_word ls) = true -> words ls = [print_word ls] -> word_ok ls = true ->
      match e with BLit _ => False | _ => True end -> view (ls ++ e :: w).

Lemma word_view w : word_ok w = true -> view w.
Proof.
  induction w as [|e w IH]; intros Hok; [by constructor|]. cbn in Hok. apply andb_true_iff in Hok as [He Hw].
  destruct e as [s|items|a b]; [|by apply (view_elem [])..]. destruct (IH Hw) as [w Hl Hws|ls e w Hl Hws Hls Hne].
  - apply view_lits; cbn [print_word print_elem words elem_words]; [by rewrite literal_ok_app, Hl, andb_true_r|]. by rewrite Hws.
  - apply (view_elem (BLit s :: ls)); cbn [print_word print_elem words elem_words]; [by rewrite literal_ok_app, Hl, andb_true_r|by rewrite Hws| |done].
    change (elem_ok (BLit s) && word_ok ls = true). by rewrite He, Hls.
Qed.

(** ** The meaning of a printed word *)

Section meaning.
Context (f : nat) (IH : forall w, word_ok w = true -> (opens (print_word w) < f)%nat ->
  expand_braces_fuel f (print_word w) = Some (take MAX_BRACE_ITEMS (words w))).
Context (ls w : bword) (Hlit : literal_ok (print_word ls) = true) (Hls : words ls = [print_word ls]).
Context (Hlsok : word_ok ls = true) (Hw : word_ok w = true).

(** A pair whose alternatives are the words [alts]. *)
Lemma alternatives_meaning (alts : list bword) bound :
  Forall (fun v => word_ok v = true /\ (opens (print_word v) < bound)%nat) alts ->
  (opens (print_word ls) + bound + opens (print_word w) <= f)%nat ->
  brace_combine_and_recurse (expand_braces_fuel f) (print_word ls) (map print_word alts) (print_word w) =
  Some (take MAX_BRACE_ITEMS (prod_words [print_word ls] (prod_words (concat (map words alts)) (words w)))).
Proof.
  intros Halts Hf. rewrite prod_words_concat, map_map.
  apply (recurse_meaning _ _ _ alts print_word (fun v => prod_words [print_word ls] (prod_words (words v) (words w)))).
  eapply Forall_impl; [done|]. intros v [Hv Hlt]. cbn beta. rewrite <-!print_word_app, IH.
  - by rewrite !words_app, Hls.
  - unfold word_ok in *. by rewrite !forallb_app, Hlsok, Hv, Hw.
  - rewrite !print_word_app, !opens_app. lia.
Qed.
End meaning.

Lemma opens_join l x : x ∈ l -> (opens x <= opens (join #"," l))%nat.
Proof.
  induction l as [|y l IH]; [by intros ?%elem_of_nil|]. destruct l as [|z l].
  - intros ->%list_elem_of_singleton. done.
  - rewrite join_cons, !opens_app. intros [->|Hin]%elem_of_cons; [lia|]. specialize (IH Hin). lia.
Qed.

Lemma join_comma l : (1 < length l)%nat -> ","%char ∈ join #"," l.
Proof.
  destruct l as [|x [|y l]]; cbn [length]; [lia..|]. intros _. rewrite join_cons, !elem_of_app. right. left. by apply list_elem_of_singleton.
Qed.

Lemma opens_literal s : literal_ok s = true -> opens s = 0%nat.
Proof.
  intros Hs. apply opens_without. intros Hin. unfold literal_ok in Hs. rewrite forallb_forall in Hs.
  by apply list_elem_of_In, Hs in Hin.
Qed.

Lemma pair_slices (p t s : str) : take (length p) (p ++ "{"%char :: t ++ "}"%char :: s) = p /\
  slice (p ++ "{"%char :: t ++ "}"%char :: s) (S (length p)) (S (length p + length t)) = t /\
  drop (S (S (length p + length t))) (p ++ "{"%char :: t ++ "}"%char :: s) = s.
Proof.
  split_and!.
  - by rewrite take_app_length.
  - unfold slice. replace (S (length p)) with (length p + 1)%nat by lia. rewrite <-drop_drop, drop_app_length. cbn [drop].
    replace (S (length p + length t) - (length p + 1))%nat with (length t) by lia. by rewrite drop_0, take_app_length.
  - replace (p ++ "{"%char :: t ++ "}"%char :: s) with ((p ++ "{"%char :: t ++ #"}") ++ s) by (rewrite <-app_assoc; cbn; by rewrite <-app_assoc).
    apply drop_app_length'. rewrite length_app. cbn. rewrite length_app. cbn. lia.
Qed.

Lemma map_singletons l : map words (map (fun z => [BLit (Z_to_string z)]) l) = map (fun z => [Z_to_string z]) l.
Proof. rewrite map_map. apply map_ext. intros z. cbn [words elem_words]. apply prod_words_nil_r. Qed.

Lemma concat_singletons {A} (g : Z -> A) l : concat (map (fun z => [g z]) l) = map g l.
Proof. induction l as [|z l IH]; [done|]. cbn. by rewrite IH. Qed.

Lemma expand_print f w : word_ok w = true -> (opens (print_word w) < f)%nat ->
  expand_braces_fuel f (print_word w) = Some (take MAX_BRACE_ITEMS (words w)).
Proof.
  revert w. induction f as [|f IH]; intros w Hok Hf; [lia|]. cbn [expand_braces_fuel]. pose proof max_items_pos as Hmax.
  destruct (word_view w Hok) as [w Hl Hws|ls e w Hl Hws Hls Hne].
  { rewrite find_pair_literal, Hws by done. by rewrite take_ge by (cbn; lia). }
  unfold word_ok in Hok. rewrite forallb_app in Hok. cbn [forallb] in Hok. apply andb_true_iff in Hok as [_ [He Hw]%andb_true_iff].
  rewrite words_app, Hws. cbn [words]. rewrite print_word_app in Hf |- *. cbn [print_word] in Hf |- *. rewrite !opens_app in Hf.
  (* the text between the braces *)
  set (t := match e with BLit s => s | BAlt items => join #"," (map print_word items) | BRange a b => Z_to_string a ++ #".." ++ Z_to_string b end).
  assert (Ht : print_elem e = "{"%char :: t ++ #"}") by (subst t; destruct e; [done|done|]; cbn [print_elem]; by rewrite <-!app_assoc).
  rewrite Ht in Hf. rewrite opens_cons, decide_True, opens_app in Hf by done.
  replace (print_elem e ++ print_word w) with ("{"%char :: t ++ "}"%char :: print_word w) by (rewrite Ht; cbn; by rewrite <-app_assoc).
  destruct e as [s|items|a b]; [done| |].
  - rewrite elem_ok_alt in He. apply andb_true_iff in He as [Hlen%Nat.ltb_lt Hall]. rewrite forallb_forall in Hall.
    assert (Hbal : Forall (balanced false) (map print_word items)).
    { apply Forall_map, Forall_forall. intros v Hv. apply balanced_print, Hall. by apply list_elem_of_In. }
    assert (Hlen' : (1 < length (map print_word items))%nat) by by rewrite length_map.
    rewrite find_pair; [|done|by apply balanced_join; eapply Forall_impl; [done|apply balanced_weaken]].
    unfold try_expand_brace_pair. destruct (pair_slices (print_word ls) t (print_word w)) as (-> & -> & ->).
    rewrite comma_no_range by by apply join_comma. rewrite (split_items _ Hlen' Hbal : split_brace_items t = _). rewrite (proj2 (Nat.ltb_lt _ _) Hlen').
    rewrite (alternatives_meaning f IH ls w Hws Hls Hw items (S (opens t))); [done| |lia].
    apply Forall_forall. intros v Hv. split; [by apply Hall, list_elem_of_In|]. apply Nat.lt_succ_r, opens_join, list_elem_of_fmap. by exists v.
  - rewrite find_pair; [|done|by apply balanced_literal; subst t; rewrite !literal_ok_app, !integer_literal, dots_literal].
    unfold try_expand_brace_pair. destruct (pair_slices (print_word ls) t (print_word w)) as (-> & -> & ->).
    cbn [elem_ok] in He. repeat rewrite andb_true_iff in He. rewrite !Z.leb_le in He.
    subst t. rewrite brace_range by lia.
    set (zs := take MAX_BRACE_ITEMS (zrange a b)).
    replace (map Z_to_string zs) with (map print_word (map (fun z => [BLit (Z_to_string z)]) zs))
      by (rewrite map_map; apply map_ext; intros z; apply app_nil_r).
    rewrite (alternatives_meaning f IH ls w Hws Hls Hw _ 1); [| |lia].
    + cbn [default fmap option_fmap option_map]. unfold default. rewrite map_singletons, concat_singletons. f_equal. apply prod_words_take. by apply words_nonempty.
    + apply Forall_map, Forall_forall. intros z _. cbn [word_ok forallb elem_ok print_word print_elem]. rewrite integer_literal, app_nil_r, opens_literal by apply integer_literal. split; [done|lia].
Qed.

(** C4: brace expansion produces, in order, the words a brace expression
    denotes: for every word built of literals, comma lists of at least two
    items (nested to any depth) and integer ranges, the printed word expands to
    the product of its parts, the first part varying slowest, an ascending or
    descending range giving each integer once; the list is cut off after ten
    thousand words and no recursion of the code runs out. *)
Theorem expand_braces_meaning (w : bword) : word_ok w = true -> expand_braces (print_word w) = Some (take MAX_BRACE_ITEMS (words w)).
Proof. intros Hok. apply expand_print; [done|lia]. Qed.

Definition brace_sample : bword := [BLit #"a"; BAlt [[BLit #"x"]; [BRange 9 11; BLit #"y"]; []]; BAlt [[BLit #"1"]; [BLit #"2"]]].

Lemma expand_braces_meaning_witness : word_ok brace_sample = true /\ print_word brace_sample = #"a{x,{9..11}y,}{1,2}" /\
  expand_braces (print_word brace_sample) =
    Some [ #"ax1"; #"ax2"; #"a9y1"; #"a9y2"; #"a10y1"; #"a10y2"; #"a11y1"; #"a11y2"; #"a1"; #"a2"].
Proof. split_and!; [reflexivity|reflexivity|exact (expand_braces_meaning brace_sample eq_refl)]. Defined.

(** ** Behaviours worth knowing *)

(** Only the first pair of a word is looked at: if it does not expand, nothing does. *)
Example first_pair_only : expand_braces #"{a}{b,c}" = Some [ #"{a}{b,c}"] /\ expand_braces #"{{a,b}}" = Some [ #"{{a,b}}"].
Proof. by vm_compute. Qed.

(** The padding of a range is put before the sign. *)
Example padding_before_sign : expand_braces #"{-9..-08}" = Some [ #"-9"; #"-8"] /\
  (expand_braces #"{-9..010}" ≫= head) = Some ( #"0-9").
Proof. split; by vm_compute. Qed.
