(* ===== verification/Utf8.v ===== *)
(** * UTF-8

    The standard library's decoder, as far as the code relies on it: [chars] and
    [encode_utf8] of a [str], the error positions of [str::from_utf8], and
    [String::from_utf8_lossy].  A [char] is its code point. *)

From S2P Require Import Prelude Strings.

Definition REPLACEMENT : Z := 65533.

(** A Unicode is_scalar value: no surrogates. *)
Definition is_scalar (c : Z) : bool := ((0 <=? c) && (c <? 55296)) || ((57344 <=? c) && (c <=? 1114111)).

Definition byte_of (n : Z) : byte := Ascii.ascii_of_N (Z.to_N n).

Definition encode (c : Z) : str :=
  if c <? 128 then [byte_of c]
  else if c <? 2048 then [byte_of (192 + c / 64); byte_of (128 + c mod 64)]
  else if c <? 65536 then [byte_of (224 + c / 4096); byte_of (128 + (c / 64) mod 64); byte_of (128 + c mod 64)]
  else [byte_of (240 + c / 262144); byte_of (128 + (c / 4096) mod 64); byte_of (128 + (c / 64) mod 64); byte_of (128 + c mod 64)].

Definition encode_all (cs : list Z) : str := concat (map encode cs).

(** The Unicode tables of the standard library are not modelled: what uses
    [str::to_lowercase], [str::to_uppercase] or [char::is_alphanumeric] takes them
    as an argument. *)
Class Unicode := {
  to_lowercase : list Ascii.ascii -> list Ascii.ascii;
  to_uppercase : list Ascii.ascii -> list Ascii.ascii;
  is_alphanumeric : Z -> bool;
}.

Definition ascii_alphanumeric (c : Z) : bool :=
  ((48 <=? c) && (c <=? 57)) || ((65 <=? c) && (c <=? 90)) || ((97 <=? c) && (c <=? 122)).

(** The tables restricted to ASCII. *)
Definition ascii_unicode : Unicode :=
  {| to_lowercase := to_ascii_lowercase; to_uppercase := to_ascii_uppercase; is_alphanumeric := ascii_alphanumeric |}.

(** The first character of a byte string: a character and what follows it, an
    invalid sequence with its [error_len], or a sequence the end cuts off. *)
Inductive utf8_step :=
  | Uchar (c : Z) (rest : list Ascii.ascii)
  | Uinvalid (n : nat)
  | Uincomplete.

Definition low6 (b : byte) : Z := byte_val b - 128.

(** The second bytes that may follow the first byte [a] of three or four. *)
Definition second_ok (a : Z) (b : byte) : bool :=
  let v := byte_val b in
  let lo := if a =? 224 then 160 else if a =? 240 then 144 else 128 in
  let hi := if a =? 237 then 159 else if a =? 244 then 143 else 191 in
  (lo <=? v) && (v <=? hi).

Definition decode2 (a : Z) (s : str) : utf8_step :=
  match s with
  | [] => Uincomplete
  | b :: s' => if is_continuation b then Uchar ((a - 192) * 64 + low6 b) s' else Uinvalid 1
  end.

Definition decode3 (a : Z) (s : str) : utf8_step :=
  match s with
  | [] => Uincomplete
  | [b] => if second_ok a b then Uincomplete else Uinvalid 1
  | b :: c :: s' =>
      if second_ok a b then
        if is_continuation c then Uchar (((a - 224) * 64 + low6 b) * 64 + low6 c) s' else Uinvalid 2
      else Uinvalid 1
  end.

Definition decode4 (a : Z) (s : str) : utf8_step :=
  match s with
  | [] => Uincomplete
  | [b] => if second_ok a b then Uincomplete else Uinvalid 1
  | [b; c] => if second_ok a b then if is_continuation c then Uincomplete else Uinvalid 2 else Uinvalid 1
  | b :: c :: d :: s' =>
      if second_ok a b then
        if is_continuation c then
          if is_continuation d then Uchar ((((a - 240) * 64 + low6 b) * 64 + low6 c) * 64 + low6 d) s' else Uinvalid 3
        else Uinvalid 2
      else Uinvalid 1
  end.

Definition decode_first (s : str) : utf8_step :=
  match s with
  | [] => Uincomplete
  | b :: s' =>
      let a := byte_val b in
      if a <? 128 then Uchar a s'
      else if (194 <=? a) && (a <=? 223) then decode2 a s'
      else if (224 <=? a) && (a <=? 239) then decode3 a s'
      else if (240 <=? a) && (a <=? 244) then decode4 a s'
      else Uinvalid 1
  end.

(** The characters of [from_utf8_lossy s]; of a valid string, its [chars]. *)
Fixpoint lossy_loop (fuel : nat) (s : str) : list Z :=
  match fuel, s with
  | S f, _ :: _ =>
      match decode_first s with
      | Uchar c rest => c :: lossy_loop f rest
      | Uinvalid n => REPLACEMENT :: lossy_loop f (drop n s)
      | Uincomplete => [REPLACEMENT]
      end
  | _, _ => []
  end.

Definition lossy_chars (s : str) : list Z := lossy_loop (length s) s.
Definition from_utf8_lossy (s : str) : str := encode_all (lossy_chars s).

(** A [str]: the encoding of some characters. *)
Definition valid_utf8 (s : str) : Prop := exists cs, forallb is_scalar cs = true /\ s = encode_all cs.

Definition valid_utf8b (s : str) : bool := bool_decide (from_utf8_lossy s = s).

(** ** Decoding and encoding are inverse *)

Lemma byte_val_of n : 0 <= n < 256 -> byte_val (byte_of n) = n.
Proof. intros Hn. unfold byte_val, byte_of. rewrite Ascii.N_ascii_embedding by lia. lia. Qed.

Lemma byte_of_val b : byte_of (byte_val b) = b.
Proof. apply byte_val_inj, byte_val_of, byte_val_range. Qed.

Lemma byte_of_eq b n : byte_val b = n -> b = byte_of n.
Proof. intros <-. by rewrite byte_of_val. Qed.

Ltac reflect_guards :=
  repeat match goal with
  | |- context [?a <? ?b] => destruct (Z.ltb_spec a b)
  | |- context [?a <=? ?b] => destruct (Z.leb_spec a b)
  | |- context [?a =? ?b] => destruct (Z.eqb_spec a b)
  end.

Lemma is_continuation_of n : 0 <= n < 64 -> is_continuation (byte_of (128 + n)) = true.
Proof. intros Hn. unfold is_continuation. rewrite byte_val_of by lia. by rewrite (proj2 (Z.leb_le _ _)), (proj2 (Z.ltb_lt _ _)) by lia. Qed.

Lemma low6_of n : 0 <= n < 64 -> low6 (byte_of (128 + n)) = n.
Proof. intros Hn. unfold low6. rewrite byte_val_of by lia. lia. Qed.

Lemma scalar_spec c : is_scalar c = true <-> (0 <= c < 55296 \/ 57344 <= c <= 1114111).
Proof. unfold is_scalar. rewrite orb_true_iff, !andb_true_iff, !Z.leb_le, Z.ltb_lt. lia. Qed.

Ltac divide := Z.to_euclidean_division_equations; lia.

Lemma decode2_encode a x s : 0 <= x < 64 -> decode2 a (byte_of (128 + x) :: s) = Uchar ((a - 192) * 64 + x) s.
Proof. intros Hx. cbn [decode2]. by rewrite is_continuation_of, low6_of. Qed.

Lemma second_ok_of a x : 224 <= a <= 244 -> 0 <= x < 64 -> (a = 224 -> 32 <= x) -> (a = 237 -> x < 32) -> (a = 240 -> 16 <= x) -> (a = 244 -> x < 16) ->
  second_ok a (byte_of (128 + x)) = true.
Proof.
  intros Ha Hx H1 H2 H3 H4. unfold second_ok. rewrite byte_val_of by lia. apply andb_true_iff. rewrite !Z.leb_le.
  split; repeat case_split; bool_to_prop; lia.
Qed.

Lemma decode_encode c s : is_scalar c = true -> decode_first (encode c ++ s) = Uchar c s.
Proof.
  rewrite scalar_spec. intros Hc. unfold encode. destruct (Z.ltb_spec c 128).
  { cbn [app decode_first]. rewrite byte_val_of by lia. by rewrite (proj2 (Z.ltb_lt _ _)) by lia. }
  destruct (Z.ltb_spec c 2048).
  { cbn [app decode_first]. rewrite byte_val_of by divide.
    rewrite (proj2 (Z.ltb_ge _ 128)), (proj2 (Z.leb_le 194 _)), (proj2 (Z.leb_le _ 223)) by divide. cbn [andb].
    rewrite decode2_encode by divide. f_equal. divide. }
  destruct (Z.ltb_spec c 65536).
  { cbn [app decode_first]. rewrite byte_val_of by divide.
    rewrite (proj2 (Z.ltb_ge _ 128)), (proj2 (Z.leb_gt _ 223)), (proj2 (Z.leb_le 224 _)), (proj2 (Z.leb_le _ 239)) by divide.
    rewrite andb_false_r. cbn [andb decode3]. rewrite second_ok_of by divide.
    rewrite is_continuation_of, !low6_of by divide. f_equal. divide. }
  cbn [app decode_first]. rewrite byte_val_of by divide.
  rewrite (proj2 (Z.ltb_ge _ 128)), (proj2 (Z.leb_gt _ 223)), (proj2 (Z.leb_gt _ 239)), (proj2 (Z.leb_le 240 _)), (proj2 (Z.leb_le _ 244)) by divide.
  rewrite !andb_false_r. cbn [andb decode4]. rewrite second_ok_of by divide.
  rewrite !is_continuation_of, !low6_of by divide. f_equal. divide.
Qed.

Lemma encode_nonempty c : exists b s, encode c = b :: s.
Proof. unfold encode. repeat case_split; eauto. Qed.

Lemma lossy_loop_encode cs : forall f, forallb is_scalar cs = true -> (length (encode_all cs) <= f)%nat -> lossy_loop f (encode_all cs) = cs.
Proof.
  induction cs as [|c cs IH]; intros f Hcs Hf; cbn [encode_all map concat] in *; [by destruct f|].
  apply andb_true_iff in Hcs as [Hc Hcs]. pose proof (decode_encode c (encode_all cs) Hc) as Hd.
  destruct (encode_nonempty c) as (b & s & Hb). rewrite Hb in *. cbn [app length] in *. destruct f as [|f]; [lia|].
  cbn [lossy_loop]. fold (encode_all cs) in *. rewrite Hd. rewrite length_app in Hf. rewrite IH; [done|done|lia].
Qed.

Lemma lossy_chars_encode cs : forallb is_scalar cs = true -> lossy_chars (encode_all cs) = cs.
Proof. intros. by apply lossy_loop_encode. Qed.

(** A valid string is its own lossy decoding. *)
Lemma from_utf8_lossy_valid s : valid_utf8 s -> from_utf8_lossy s = s.
Proof. intros (cs & Hcs & ->). unfold from_utf8_lossy. by rewrite lossy_chars_encode. Qed.

(** ** What the decoder accepts *)

Lemma is_continuation_inv b : is_continuation b = true -> exists x, 0 <= x < 64 /\ b = byte_of (128 + x) /\ low6 b = x.
Proof.
  unfold is_continuation. rewrite andb_true_iff, Z.leb_le, Z.ltb_lt. intros Hb. exists (low6 b). unfold low6.
  split; [lia|]. split; [|done]. replace (128 + (byte_val b - 128)) with (byte_val b) by lia. by rewrite byte_of_val.
Qed.

Lemma second_ok_inv a b : second_ok a b = true -> exists x, 0 <= x < 64 /\ b = byte_of (128 + x) /\ low6 b = x /\
  (a = 224 -> 32 <= x) /\ (a = 237 -> x < 32) /\ (a = 240 -> 16 <= x) /\ (a = 244 -> x < 16).
Proof.
  unfold second_ok. rewrite andb_true_iff, !Z.leb_le. intros Hb. exists (low6 b). unfold low6.
  replace (128 + (byte_val b - 128)) with (byte_val b) by lia. rewrite byte_of_val.
  revert Hb. reflect_guards; intros; split_and!; try done; lia.
Qed.

Lemma decode_first_spec s : match decode_first s with
  | Uchar c rest => is_scalar c = true /\ s = encode c ++ rest
  | Uinvalid n => (1 <= n <= length s)%nat
  | Uincomplete => True
  end.
Proof.
  destruct s as [|a s]; [done|]. cbn [decode_first]. pose proof (byte_val_range a) as Ha.
  destruct (Z.ltb_spec (byte_val a) 128).
  { rewrite scalar_spec. split; [lia|]. unfold encode. rewrite (proj2 (Z.ltb_lt _ _)) by lia. by rewrite byte_of_val. }
  case_split; [|case_split; [|case_split; [|cbn; lia]]]; bool_to_prop.
  - destruct s as [|b s]; [done|]. cbn [decode2]. destruct (is_continuation b) eqn:Eb; [|cbn; lia]. apply is_continuation_inv in Eb as (x & Hx & -> & ->).
    rewrite scalar_spec. split; [lia|]. unfold encode. rewrite (proj2 (Z.ltb_ge _ 128)), (proj2 (Z.ltb_lt _ 2048)) by lia.
    cbn. f_equal; [apply byte_of_eq; divide|]. do 2 f_equal. divide.
  - destruct s as [|b [|c s]]; cbn [decode3]; [done|by case_split; [|cbn; lia]|].
    destruct (second_ok _ b) eqn:Eb; [|cbn; lia]. destruct (is_continuation c) eqn:Ec; [|cbn; lia].
    apply second_ok_inv in Eb as (x & Hx & -> & -> & Hb1 & Hb2 & Hb3 & Hb4). apply is_continuation_inv in Ec as (y & Hy & -> & ->).
    rewrite scalar_spec. split; [lia|]. unfold encode. rewrite (proj2 (Z.ltb_ge _ 128)), (proj2 (Z.ltb_ge _ 2048)), (proj2 (Z.ltb_lt _ 65536)) by lia.
    cbn. f_equal; [apply byte_of_eq; divide|]. do 3 f_equal; divide.
  - destruct s as [|b [|c [|d s]]]; cbn [decode4]; [done|by case_split; [|cbn; lia]| |].
    + case_split; [|cbn; lia]. by case_split; [|cbn; lia].
    + destruct (second_ok _ b) eqn:Eb; [|cbn; lia]. destruct (is_continuation c) eqn:Ec; [|cbn; lia]. destruct (is_continuation d) eqn:Ed; [|cbn; lia].
      apply second_ok_inv in Eb as (x & Hx & -> & -> & Hb1 & Hb2 & Hb3 & Hb4). apply is_continuation_inv in Ec as (y & Hy & -> & ->).
      apply is_continuation_inv in Ed as (z & Hz & -> & ->).
      rewrite scalar_spec. split; [lia|]. unfold encode.
      rewrite (proj2 (Z.ltb_ge _ 128)), (proj2 (Z.ltb_ge _ 2048)), (proj2 (Z.ltb_ge _ 65536)) by lia.
      cbn. f_equal; [apply byte_of_eq; divide|]. do 4 f_equal; divide.
Qed.

(** More input does not change a decision. *)
Lemma decode_first_app s t : match decode_first s with
  | Uchar c rest => decode_first (s ++ t) = Uchar c (rest ++ t)
  | Uinvalid n => decode_first (s ++ t) = Uinvalid n
  | Uincomplete => True
  end.
Proof.
  destruct s as [|a s]; [done|]. cbn [decode_first app]. destruct (byte_val a <? 128); [done|].
  destruct (_ && _); [|destruct (_ && _); [|destruct (_ && _); [|done]]].
  - destruct s as [|b s]; [done|]. cbn. by destruct (is_continuation b).
  - destruct s as [|b [|c s]]; cbn; [done|destruct (second_ok _ b) eqn:Hb|destruct (second_ok _ b); [destruct (is_continuation c)|]]; try done.
    destruct t; by rewrite ?Hb.
  - destruct s as [|b [|c [|d s]]]; cbn; [done|destruct (second_ok _ b) eqn:Hb|destruct (second_ok _ b) eqn:Hb; [destruct (is_continuation c) eqn:Hc|]|]; try done.
    + destruct t as [|? [|? ?]]; by rewrite ?Hb.
    + destruct t; by rewrite ?Hc.
    + destruct t; by rewrite ?Hb.
    + destruct (second_ok _ b); [destruct (is_continuation c); [destruct (is_continuation d)|]|]; done.
Qed.

Lemma decode_first_shorter s c rest : decode_first s = Uchar c rest -> (length rest < length s)%nat.
Proof.
  intros Hd. pose proof (decode_first_spec s) as Hs. rewrite Hd in Hs. destruct Hs as [_ ->].
  destruct (encode_nonempty c) as (b & t & ->). rewrite length_app. cbn. lia.
Qed.

(** The fuel of [lossy_loop] is enough. *)
Lemma lossy_loop_mono f g s : (length s <= f)%nat -> (length s <= g)%nat -> lossy_loop f s = lossy_loop g s.
Proof.
  revert g s. induction f as [|f IH]; intros g s Hf Hg.
  { destruct s; [|cbn in Hf; lia]. by destruct g. }
  destruct s as [|b s]; [by destruct g|]. destruct g as [|g]; [cbn in Hg; lia|]. cbn [lossy_loop].
  destruct (decode_first (b :: s)) as [c rest|n|] eqn:Hd; [|f_equal|done].
  - apply decode_first_shorter in Hd. cbn in *. f_equal. apply IH; lia.
  - pose proof (decode_first_spec (b :: s)) as Hs. rewrite Hd in Hs. apply IH; rewrite length_drop; cbn in *; lia.
Qed.

Lemma lossy_chars_step b s : lossy_chars (b :: s) = match decode_first (b :: s) with
  | Uchar c rest => c :: lossy_chars rest
  | Uinvalid n => REPLACEMENT :: lossy_chars (drop n (b :: s))
  | Uincomplete => [REPLACEMENT]
  end.
Proof.
  unfold lossy_chars. cbn [length lossy_loop]. destruct (decode_first (b :: s)) as [c rest|n|] eqn:Hd; [|f_equal|done].
  - apply decode_first_shorter in Hd. cbn in Hd. f_equal. apply lossy_loop_mono; lia.
  - pose proof (decode_first_spec (b :: s)) as Hs. rewrite Hd in Hs. apply lossy_loop_mono; rewrite length_drop; cbn in *; lia.
Qed.

(** Induction along the decoder. *)
Lemma decode_ind (P : str -> Prop) :
  P [] -> (forall s, s <> [] -> (forall c rest, decode_first s = Uchar c rest -> P rest) ->
    (forall n, decode_first s = Uinvalid n -> P (drop n s)) -> P s) -> forall s, P s.
Proof.
  intros Hnil Hstep s. remember (length s) as n eqn:Hn. revert s Hn. induction n as [n IH] using lt_wf_ind. intros s ->.
  destruct s as [|b s]; [done|]. apply Hstep; [done| |].
  - intros c rest Hd. apply decode_first_shorter in Hd. by apply (IH (length rest)).
  - intros k Hd. pose proof (decode_first_spec (b :: s)) as Hs. rewrite Hd in Hs.
    apply (IH (length (drop k (b :: s)))); [rewrite length_drop; lia|done].
Qed.

Lemma lossy_chars_scalar s : forallb is_scalar (lossy_chars s) = true.
Proof.
  induction s as [|s Hne IHc IHi] using decode_ind; [done|]. destruct s as [|b s]; [done|]. rewrite lossy_chars_step.
  pose proof (decode_first_spec (b :: s)) as Hs. destruct (decode_first (b :: s)) as [c rest|n|]; cbn [forallb]; [|by rewrite IHi|done].
  destruct Hs as [-> _]. by rewrite (IHc _ _ eq_refl).
Qed.

Lemma from_utf8_lossy_is_valid s : valid_utf8 (from_utf8_lossy s).
Proof. exists (lossy_chars s). split; [apply lossy_chars_scalar|done]. Qed.

Lemma valid_utf8_spec s : valid_utf8b s = true <-> valid_utf8 s.
Proof.
  unfold valid_utf8b. rewrite bool_decide_eq_true. split; [|apply from_utf8_lossy_valid]. intros <-. apply from_utf8_lossy_is_valid.
Qed.

Lemma encode_all_app a b : encode_all (a ++ b) = encode_all a ++ encode_all b.
Proof. unfold encode_all. by rewrite map_app, concat_app. Qed.

Lemma valid_utf8_nil : valid_utf8 [].
Proof. by exists []. Qed.

Lemma valid_utf8_app a b : valid_utf8 a -> valid_utf8 b -> valid_utf8 (a ++ b).
Proof. intros (x & Hx & ->) (y & Hy & ->). exists (x ++ y). rewrite encode_all_app, forallb_app, Hx, Hy. done. Qed.

Lemma ascii_encode c : 0 <= c < 128 -> encode c = [byte_of c].
Proof. intros Hc. unfold encode. by rewrite (proj2 (Z.ltb_lt _ _)) by lia. Qed.

Lemma lossy_chars_ascii s : is_ascii s = true -> lossy_chars s = map byte_val s.
Proof.
  induction s as [|b s IH]; [done|]. cbn [is_ascii forallb]. intros [Hb Hs]%andb_true_iff. rewrite lossy_chars_step. cbn [decode_first].
  rewrite Hb. cbn [map]. by rewrite IH.
Qed.

Lemma ascii_valid s : is_ascii s = true -> valid_utf8 s.
Proof.
  intros Hs. apply valid_utf8_spec. unfold valid_utf8b. apply bool_decide_eq_true. unfold from_utf8_lossy. rewrite lossy_chars_ascii by done.
  induction s as [|b s IH]; [done|]. cbn [is_ascii forallb] in Hs. apply andb_true_iff in Hs as [Hb Hs]. apply Z.ltb_lt in Hb.
  cbn [map encode_all concat]. pose proof (byte_val_range b). rewrite ascii_encode, byte_of_val by lia. cbn [app]. f_equal. by apply IH.
Qed.
