(* ===== verification/Stream.v ===== *)
(** * Streaming readers (crates/wasmsh-runtime/src/lib.rs)

    A stage of a streaming pipeline reads from the stage before it.  This file
    has the [Read] interface between stages, the two helpers all of them use
    ([take_pending_output] and [streaming_read_next_line]), the state every
    buffering reader has, and the two sources that read nothing: [yes] and the
    limited standard input of an external command.

    A stage may loop over its inner reader for as long as that one delivers, so
    [read] takes fuel and [OutOfFuel] is the call that has not returned yet. *)

From S2P Require Import Prelude Strings Utf8.

(** The kinds of [std::io::Error] the stages tell apart. *)
Inductive ErrorKind :=
  | WouldBlock
  | InvalidData
  | OtherKind (code : Z).

#[export] Instance ErrorKind_eq_dec : EqDecision ErrorKind.
Proof. solve_decision. Defined.

Inductive io_stop :=
  | IoError (kind : ErrorKind)
  | OutOfFuel.

(** [std::io::Read]: [read fuel n] fills a buffer of [n] bytes; the bytes it
    returns are the part of the buffer that was filled. *)
Class Reader (R : Type) := read : nat -> nat -> comp R io_stop (list Ascii.ascii).

(** Run a computation on a part of the state. *)
Definition zoom {A B E X} (view : A -> B) (update : B -> A -> A) (m : comp B E X) : comp A E X :=
  fun a => let '(b, r) := m (view a) in (update b a, r).

(** ** The shared helpers *)

(** The pending bytes, the offset and the bytes copied to a buffer of [n]. *)
Definition take_pending_output (pending : str) (pending_offset n : nat) : str * nat * str :=
  if (length pending <=? pending_offset)%nat then ([], 0%nat, [])
  else
    let remaining := drop pending_offset pending in
    let to_copy := Nat.min (length remaining) n in
    let pending_offset := (pending_offset + to_copy)%nat in
    if (pending_offset =? length pending)%nat then ([], 0%nat, take to_copy remaining)
    else (pending, pending_offset, take to_copy remaining).

Definition newline : byte := "010"%char.

(** The line before the first newline, and what follows it. *)
Fixpoint break_line (s : str) : option (str * str) :=
  match s with
  | [] => None
  | c :: s' => if decide (c = newline) then Some ([], s') else '(l, rest) ← break_line s'; Some (c :: l, rest)
  end.

Definition SCRATCH : nat := Z.to_nat 4096.

Section stream.
Context {R : Type} `{Reader R}.

(** The state is the reader and the [pending] buffer. *)
Fixpoint streaming_read_next_line (fuel : nat) : comp (R * str) io_stop (option (str * bool)) :=
  match fuel with
  | O => throw OutOfFuel
  | S f => fun '(reader, pending) =>
      match break_line pending with
      | Some (line, rest) => ((reader, rest), Ok (Some (from_utf8_lossy line, true)))
      | None =>
          match read f SCRATCH reader with
          | (reader', Ok []) =>
              match pending with
              | [] => ((reader', pending), Ok None)
              | _ => ((reader', []), Ok (Some (from_utf8_lossy pending, false)))
              end
          | (reader', Ok c) => streaming_read_next_line f (reader', pending ++ c)
          | (reader', Err e) => ((reader', pending), Err e)
          | (reader', Panic w) => ((reader', pending), Panic w)
          end
      end
  end.
End stream.

(** ** A buffering stage

    [CutStreamReader], [UniqStreamReader] and the others have an inner reader, an
    input buffer, an output buffer with its offset, a [finished] (or [finalized])
    flag and fields of their own; [Core] is the part besides the inner reader and
    the input buffer. *)
Record Core (Own : Type) := {
  own : Own;
  output_pending : list Ascii.ascii;
  output_offset : nat;
  finished : bool;
}.
Arguments own {Own} _.
Arguments output_pending {Own} _.
Arguments output_offset {Own} _.
Arguments finished {Own} _.

Record Filter (R Own : Type) := {
  inner : R;
  input_pending : list Ascii.ascii;
  core : Core Own;
}.
Arguments inner {R Own} _.
Arguments input_pending {R Own} _.
Arguments core {R Own} _.

Definition Core_new {Own} (o : Own) : Core Own :=
  {| own := o; output_pending := []; output_offset := 0; finished := false |}.

Definition Filter_new {R Own} (r : R) (o : Own) : Filter R Own :=
  {| inner := r; input_pending := []; core := Core_new o |}.

Definition set_own {Own} (o : Own) (c : Core Own) : Core Own :=
  {| own := o; output_pending := output_pending c; output_offset := output_offset c; finished := finished c |}.
Definition set_output {Own} (p : str) (i : nat) (c : Core Own) : Core Own :=
  {| own := own c; output_pending := p; output_offset := i; finished := finished c |}.
Definition set_finished {Own} (c : Core Own) : Core Own :=
  {| own := own c; output_pending := output_pending c; output_offset := output_offset c; finished := true |}.
(** [self.output_pending.extend_from_slice(..)]. *)
Definition emit {Own} (bs : str) (c : Core Own) : Core Own :=
  set_output (output_pending c ++ bs) (output_offset c) c.

Definition set_inner {R Own} (r : R) (s : Filter R Own) : Filter R Own :=
  {| inner := r; input_pending := input_pending s; core := core s |}.
Definition set_input {R Own} (rp : R * str) (s : Filter R Own) : Filter R Own :=
  {| inner := fst rp; input_pending := snd rp; core := core s |}.
Definition set_core {R Own} (c : Core Own) (s : Filter R Own) : Filter R Own :=
  {| inner := inner s; input_pending := input_pending s; core := c |}.

Section stage.
Context {R Own : Type} `{Reader R}.

(** A computation on everything but the inner reader, which does not fail. *)
Definition on_core (h : Core Own -> Core Own) : comp (Filter R Own) io_stop unit :=
  modify (fun s => set_core (h (core s)) s).

Definition take_output (n : nat) : comp (Filter R Own) io_stop str := fun s =>
  let '(p, i, c) := take_pending_output (output_pending (core s)) (output_offset (core s)) n in
  (set_core (set_output p i (core s)) s, Ok c).

Definition next_line (fuel : nat) : comp (Filter R Own) io_stop (option (str * bool)) :=
  zoom (fun s => (inner s, input_pending s)) set_input (streaming_read_next_line fuel).

Definition read_inner (fuel n : nat) : comp (Filter R Own) io_stop str :=
  zoom inner set_inner (read fuel n).

(** The loop of the [read] methods: deliver pending output, stop when finished,
    otherwise do one [step]. *)
Fixpoint read_loop (step : nat -> comp (Filter R Own) io_stop unit) (fuel n : nat) : comp (Filter R Own) io_stop str :=
  match fuel with
  | O => throw OutOfFuel
  | S f =>
      copied ← take_output n;
      match copied with
      | _ :: _ => mret copied
      | [] =>
          s ← get;
          if finished (core s) then mret [] else _ ← step f; read_loop step f n
      end
  end.

Definition read_with (step : nat -> comp (Filter R Own) io_stop unit) (fuel n : nat) : comp (Filter R Own) io_stop str :=
  if (n =? 0)%nat then mret [] else read_loop step fuel n.

(** The step of the stages that work line by line: [on_line] for the next line,
    [on_eof] at the end of the input. *)
Definition pump_line (on_line : str -> Core Own -> Core Own) (on_eof : Core Own -> Core Own) (fuel : nat) : comp (Filter R Own) io_stop unit :=
  l ← next_line fuel;
  match l with
  | Some (line, _) => on_core (on_line line)
  | None => on_core on_eof
  end.
End stage.

(** ** Sources *)

Record YesStreamReader := {
  yes_line : list Ascii.ascii;
  yes_offset : nat;
  remaining_lines : Z;
}.

Definition YesStreamReader_new (line : str) (remaining_lines : Z) : YesStreamReader :=
  {| yes_line := line; yes_offset := 0; remaining_lines := remaining_lines |}.

(** Every round writes at least a byte into the buffer of [n]. *)
Fixpoint yes_loop (rounds n : nat) (line : str) (offset : nat) (lines : Z) (written : str) : str * nat * Z :=
  match rounds with
  | O => (written, offset, lines)
  | S k =>
      if (length written <? n)%nat && (0 <? lines) then
        let remaining_line := drop offset line in
        let to_copy := Nat.min (length remaining_line) (n - length written) in
        let written := written ++ take to_copy remaining_line in
        let offset := (offset + to_copy)%nat in
        if (offset =? length line)%nat then yes_loop k n line 0 (sat_sub lines 1) written
        else yes_loop k n line offset lines written
      else (written, offset, lines)
  end.

#[export] Instance Yes_reader : Reader YesStreamReader := fun _ n s =>
  match yes_line s with
  | [] => (s, Ok [])
  | line =>
      if (n =? 0)%nat || (remaining_lines s =? 0) then (s, Ok [])
      else
        let '(written, offset, lines) := yes_loop n n line (yes_offset s) (remaining_lines s) [] in
        ({| yes_line := line; yes_offset := offset; remaining_lines := lines |}, Ok written)
  end.

(** [LimitedReader]: an external command may read [remaining] bytes; one more is
    an error. *)
Record LimitedReader (R : Type) := {
  limited_reader : R;
  limited_remaining : Z;
}.
Arguments limited_reader {R} _.
Arguments limited_remaining {R} _.

(** [self.remaining as usize]. *)
Definition as_usize `{Target} (n : Z) : Z := n mod (usize_max + 1).

#[export] Instance Limited_reader `{Target} {R} `{Reader R} : Reader (LimitedReader R) := fun fuel n s =>
  if (n =? 0)%nat then (s, Ok [])
  else if limited_remaining s =? 0 then
    match read fuel 1 (limited_reader s) with
    | (r, Ok []) => ({| limited_reader := r; limited_remaining := 0 |}, Ok [])
    | (r, Ok _) => ({| limited_reader := r; limited_remaining := 0 |}, Err (IoError InvalidData))
    | (r, Err e) => ({| limited_reader := r; limited_remaining := 0 |}, Err e)
    | (r, Panic w) => ({| limited_reader := r; limited_remaining := 0 |}, Panic w)
    end
  else
    let read_len := Z.to_nat (Z.min (Z.of_nat n) (as_usize (limited_remaining s))) in
    match read fuel read_len (limited_reader s) with
    | (r, Ok c) => ({| limited_reader := r; limited_remaining := sat_sub (limited_remaining s) (len c) |}, Ok c)
    | (r, Err e) => ({| limited_reader := r; limited_remaining := limited_remaining s |}, Err e)
    | (r, Panic w) => ({| limited_reader := r; limited_remaining := limited_remaining s |}, Panic w)
    end.
