(* ===== verification/StreamProps.v ===== *)
(** * Streaming readers: what a stage promises

    [serves r bs e]: the reader [r] delivers exactly the bytes [bs], in pieces
    that depend on the buffers it is given, may answer [WouldBlock] at any point
    without losing anything, and ends with [e].  [serves] is the greatest
    relation closed under one call of [read].  A stage is correct when it
    serves a function of what its inner reader serves; the lemmas here reduce
    that to a statement about one step of the stage. *)

From S2P Require Import Prelude Strings Utf8 Stream.

(** ** Enough fuel *)

Definition eventually {A} (m : nat -> A) (x : A) : Prop := exists f0, forall f, (f0 <= f)%nat -> m f = x.

Lemma eventually_now {A} (m : nat -> A) (x : A) : (forall f, m f = x) -> eventually m x.
Proof. intros Hm. by exists 0%nat. Qed.

Lemma eventually_S {A} (m : nat -> A) x : eventually (fun f => m (S f)) x -> eventually m x.
Proof. intros [f0 Hf]. exists (S f0). intros [|f] Hle; [lia|]. apply Hf. lia. Qed.

(** The result of one part is known from some fuel on. *)
Lemma eventually_bind {A B} (m : nat -> A) (k : nat -> A -> B) x y : eventually m x -> eventually (fun f => k f x) y ->
  eventually (fun f => k f (m f)) y.
Proof. intros [f0 Hf] [g0 Hg]. exists (Nat.max f0 g0). intros f Hle. rewrite Hf by lia. apply Hg. lia. Qed.

Lemma eventually_map {A B} (m : nat -> A) (k : A -> B) x : eventually m x -> eventually (fun f => k (m f)) (k x).
Proof. intros Hm. apply (eventually_bind m (fun _ => k) x); [done|]. by apply eventually_now. Qed.

Lemma eventually_from {A} f0 (m m' : nat -> A) x : (forall f, (f0 <= f)%nat -> m (S f) = m' f) -> eventually m' x -> eventually m x.
Proof.
  intros Hm [g0 Hg]. exists (S (Nat.max f0 g0)). intros [|f] Hle; [lia|]. rewrite Hm by lia. apply Hg. lia.
Qed.

(** Unfold one call whose inner reads are known from fuel [f0] on. *)
Ltac one_call f0 tac :=
  eapply (eventually_from f0); [let f := fresh "f" in let Hf := fresh in intros f Hf; tac tt; reflexivity|].

Lemma eventually_unique {A} (m : nat -> A) x y : eventually m x -> eventually m y -> x = y.
Proof. intros [f0 Hf] [g0 Hg]. rewrite <-(Hf (Nat.max f0 g0)), <-(Hg (Nat.max f0 g0)); [done|lia..]. Qed.

(** ** Running a computation with enough fuel *)

Definition runs_to {S E A} (m : nat -> comp S E A) (s : S) (Q : S -> res E A -> Prop) : Prop :=
  exists s' x, eventually (fun f => m f s) (s', x) /\ Q s' x.

Section runs_to.
Context {S E : Type}.
Implicit Types s : S.

Lemma runs_to_bind {A B} (m : nat -> comp S E A) (k : nat -> A -> comp S E B) s Q :
  runs_to m s (fun s' x => match x with Ok a => runs_to (fun f => k f a) s' Q | Err e => Q s' (Err e) | Panic w => Q s' (Panic w) end) ->
  runs_to (fun f => a ← m f; k f a) s Q.
Proof.
  intros (s' & x & Hm & Hx).
  assert (Hgo : forall y, eventually (fun f => match x with Ok a => k f a s' | Err e => (s', Err e) | Panic w => (s', Panic w) end) y ->
    eventually (fun f => (a ← m f; k f a) s) y).
  { intros y Hy. unfold mbind, comp_bind. eapply (eventually_bind (fun f => m f s) (fun f '(s', x) => match x with Ok a => k f a s' | Err e => (s', Err e) | Panic w => (s', Panic w) end)); done. }
  destruct x as [a|e|w].
  - destruct Hx as (s2 & y & Hy & HQ). exists s2, y. split; [by apply Hgo|done].
  - exists s', (Err e). split; [by apply Hgo, eventually_now|done].
  - exists s', (Panic w). split; [by apply Hgo, eventually_now|done].
Qed.

(** A computation that uses no fuel. *)
Lemma runs_to_pure {A} (m : comp S E A) s (Q : S -> res E A -> Prop) : Q (fst (m s)) (snd (m s)) -> runs_to (fun _ => m) s Q.
Proof. intros HQ. exists (fst (m s)), (snd (m s)). split; [|done]. apply eventually_now. intros _. by destruct (m s). Qed.

Lemma runs_to_mono {A} (m : nat -> comp S E A) s (P Q : S -> res E A -> Prop) : runs_to m s P -> (forall s' x, P s' x -> Q s' x) -> runs_to m s Q.
Proof. intros (s' & x & Hm & HP) Hm'. exists s', x. split; [done|]. by apply Hm'. Qed.
End runs_to.

(** ** The contract *)

Inductive ending :=
  | Eof
  | Fails (k : ErrorKind).

#[export] Instance ending_eq_dec : EqDecision ending.
Proof. solve_decision. Defined.

Section contract.
Context {R : Type} `{Reader R}.

(** One answer to a request for [n] bytes, when [bs] and then [e] are still to
    come; [S] holds of what is left, and [B] of a reader that answers
    [WouldBlock]. *)
Definition reply (S : R -> str -> ending -> Prop) (B : R -> Prop) (bs : str) (e : ending) (n : nat) (r' : R) (out : res io_stop str) : Prop :=
  match out with
  | Ok [] => bs = [] /\ e = Eof /\ S r' [] Eof
  | Ok c => (length c <= n)%nat /\ exists rest, bs = c ++ rest /\ S r' rest e
  | Err (IoError WouldBlock) => S r' bs e /\ B r'
  | Err (IoError k) => bs = [] /\ e = Fails k /\ S r' [] e
  | _ => False
  end.

Definition closed (S : R -> str -> ending -> Prop) (B : R -> Prop) : Prop := forall r bs e n, S r bs e -> (0 < n)%nat ->
  exists r' out, eventually (fun f => read f n r) (r', out) /\ reply S B bs e n r' out.

Definition anywhere (r : R) : Prop := True.

Definition serves (r : R) (bs : str) (e : ending) : Prop := exists S, closed S anywhere /\ S r bs e.

Lemma reply_mono (S T : R -> str -> ending -> Prop) (B C : R -> Prop) bs e n r' out : (forall r bs e, S r bs e -> T r bs e) -> (forall r, B r -> C r) ->
  reply S B bs e n r' out -> reply T C bs e n r' out.
Proof.
  intros Hm Hb. destruct out as [[|c cs]|[[| |code]|]|]; cbn; [|intros (? & rest & ? & ?)|intros [? ?]|..]; try (by intros (? & ? & ?); auto); eauto 10.
Qed.

Lemma serves_closed : closed serves anywhere.
Proof.
  intros r bs e n (S & HS & Hr) Hn. destruct (HS r bs e n Hr Hn) as (r' & out & Hev & Hrep). exists r', out. split; [done|].
  eapply reply_mono; [| |done]; [|done]. intros r0 bs0 e0 H0. by exists S.
Qed.

Lemma serves_intro (S : R -> str -> ending -> Prop) (B : R -> Prop) r bs e : closed S B -> S r bs e -> serves r bs e.
Proof.
  intros HS Hr. exists S. split; [|done]. intros r0 bs0 e0 n H0 Hn. destruct (HS _ _ _ _ H0 Hn) as (r' & out & Hev & Hrep). exists r', out.
  split; [done|]. by eapply reply_mono; [| |done].
Qed.
End contract.

(** ** Stages

    A stage of type [T] has an inner reader.  [keeps] is its contract: a relation
    [Hold S] for each contract [S] of the inner reader, closed when [S] is, that
    blocks only when the inner reader does, and that says nothing else of the inner
    reader, which others may change between two calls as long as it still keeps
    [S].  [Start] gives what a fresh stage serves. *)
Section stage_contract.
Context {R T : Type} `{Reader R} `{Reader T} (get : T -> R) (put : R -> T -> T).

Definition family : Type := (R -> str -> ending -> Prop) -> T -> str -> ending -> Prop.

Definition family_closed (Hold : family) : Prop := forall S B, closed S B -> closed (Hold S) (fun s => B (get s)).

Definition family_stable (Hold : family) : Prop := forall S S' s r' bs e, Hold S s bs e ->
  (forall b e', S (get s) b e' -> S' r' b e') -> Hold S' (put r' s) bs e.

Definition keeps (new : R -> T) (f : str -> ending -> option (str * ending)) : Prop := exists Hold, family_closed Hold /\ family_stable Hold /\
  forall S r inp e out e', S r inp e -> f inp e = Some (out, e') -> Hold S (new r) out e'.

Lemma keeps_serves new f r inp e out e' : keeps new f -> serves r inp e -> f inp e = Some (out, e') -> serves (new r) out e'.
Proof.
  intros (Hold & Hclosed & _ & Hstart) Hr Hf. eapply (serves_intro (Hold serves)); [by apply Hclosed, serves_closed|]. by apply (Hstart _ _ inp e).
Qed.

(** A stage whose first call is that of another state of it. *)
Lemma first_call_closed (Hold : family) (Fresh : T -> Prop) (start : T -> T) : family_closed Hold ->
  (forall s, Fresh s -> forall n f, (0 < n)%nat -> read (S f) n s = read (S f) n (start s)) ->
  family_closed (fun S s bs e => Hold S s bs e \/ (Fresh s /\ Hold S (start s) bs e)).
Proof.
  intros Hclosed Hread S B HS s bs e n Hs Hn.
  assert (exists s' out, eventually (fun f => read f n s) (s', out) /\ reply (Hold S) (fun s => B (get s)) bs e n s' out) as (s' & out & Hev & Hrep).
  { destruct Hs as [Hs|[Hfr Hs]]; [by apply (Hclosed S B HS)|]. destruct (Hclosed S B HS _ _ _ _ Hs Hn) as (s' & out & [f0 Hev] & Hrep).
    exists s', out. split; [|done]. exists (Datatypes.S f0). intros [|f] Hle; [lia|]. rewrite Hread by done. apply Hev. lia. }
  exists s', out. split; [done|]. eapply reply_mono; [| |exact Hrep]; [by left|done].
Qed.
End stage_contract.

(** ** A consumer

    Buffers of any sizes, one after the other; [reads] returns the bytes received
    and the last answer if it was not data. *)
Section consumer.
Context {R : Type} `{Reader R}.

Definition after_read (k : R -> R * str * option (res io_stop unit)) (p : R * res io_stop str) : R * str * option (res io_stop unit) :=
  match p with
  | (r, Ok []) => (r, [], Some (Ok tt))
  | (r, Ok c) => let '(r', bs, x) := k r in (r', c ++ bs, x)
  | (r, Err (IoError WouldBlock)) => k r
  | (r, Err x) => (r, [], Some (Err x))
  | (r, Panic w) => (r, [], Some (Panic w))
  end.

Fixpoint reads (fuel : nat) (ns : list nat) (r : R) : R * str * option (res io_stop unit) :=
  match ns with
  | [] => (r, [], None)
  | n :: ns' => after_read (reads fuel ns') (read fuel n r)
  end.

Definition last_answer (e : ending) : res io_stop unit :=
  match e with Eof => Ok tt | Fails k => Err (IoError k) end.

(** Whatever the buffers are, the consumer gets a prefix of the bytes served; it
    is told the end only after it got all of them, and the right one. *)
Lemma reads_served r bs e ns : serves r bs e -> Forall (fun n => 0 < n)%nat ns ->
  exists r' got rest x, eventually (fun f => reads f ns r) (r', got, x) /\ bs = got ++ rest /\ serves r' rest e /\
    (forall o, x = Some o -> rest = [] /\ o = last_answer e).
Proof.
  intros Hs Hns. revert r bs Hs. induction Hns as [|n ns Hn Hns IH]; intros r bs Hs.
  { exists r, [], bs, None. split_and!; [by apply eventually_now|done..]. }
  destruct (serves_closed _ _ _ _ Hs Hn) as (r' & out & Hev & Hrep).
  assert (Hgo : forall x, eventually (fun f => after_read (reads f ns) (r', out)) x -> eventually (fun f => reads f (n :: ns) r) x).
  { intros x. apply (eventually_bind _ (fun f => after_read (reads f ns)) _ _ Hev). }
  destruct out as [[|c cs]|[[| |code]|]|]; cbn [reply] in Hrep; try done.
  - destruct Hrep as (-> & -> & Hr'). exists r', [], [], (Some (Ok tt)). split_and!; [by apply Hgo, eventually_now|done..|]. by intros o [= <-].
  - destruct Hrep as (_ & rest & -> & Hr'). destruct (IH _ _ Hr') as (r2 & got & rest' & x & Hev' & -> & Hr2 & Hx).
    exists r2, ((c :: cs) ++ got), rest', x. split_and!; [|by rewrite app_assoc|done..].
    apply Hgo. by apply (eventually_map _ (fun p => let '(r', bs, x) := p in (r', (c :: cs) ++ bs, x)) _ Hev').
  - destruct (IH _ _ (proj1 Hrep)) as (r2 & got & rest' & x & Hev' & -> & Hr2 & Hx). exists r2, got, rest', x. by split_and!; [apply Hgo|..].
  - destruct Hrep as (-> & -> & Hr'). exists r', [], [], (Some (Err (IoError InvalidData))). split_and!; [by apply Hgo, eventually_now|done..|]. by intros o [= <-].
  - destruct Hrep as (-> & -> & Hr'). eexists r', [], [], (Some (Err (IoError _))). split_and!; [by apply Hgo, eventually_now|done..|]. by intros o [= <-].
Qed.
End consumer.

(** ** A scripted source

    Chunks and [WouldBlock] answers in a given order: the readers of the
    witnesses. *)
Inductive event :=
  | Chunk (bs : list Ascii.ascii)
  | Block.

Record Script := {
  events : list event;
  at_end : ending;
}.

Fixpoint script_read (n : nat) (l : list event) (e : ending) : list event * res io_stop str :=
  match l with
  | [] => ([], match e with Eof => Ok [] | Fails k => Err (IoError k) end)
  | Chunk [] :: l' => script_read n l' e
  | Chunk c :: l' => (Chunk (drop n c) :: l', Ok (take n c))
  | Block :: l' => (l', Err (IoError WouldBlock))
  end.

#[export] Instance Script_reader : Reader Script := fun _ n s =>
  let '(l, r) := script_read n (events s) (at_end s) in ({| events := l; at_end := at_end s |}, r).

Definition script_bytes (l : list event) : str := concat (map (fun ev => match ev with Chunk c => c | Block => [] end) l).

Lemma script_serves l e : e <> Fails WouldBlock -> serves {| events := l; at_end := e |} (script_bytes l) e.
Proof.
  intros He. apply (serves_intro (fun s bs e' => bs = script_bytes (events s) /\ e' = at_end s /\ at_end s = e) anywhere); [|done].
  clear l. intros [l e0] bs e' n (-> & -> & He0) Hn. cbn [events at_end] in *. subst e0.
  unfold read, Script_reader. cbn [events at_end]. destruct (script_read n l e) as [l' r] eqn:Hr. eexists _, r. split; [by apply eventually_now|].
  induction l as [|[[|c cs]|] l IH]; cbn [script_read] in Hr.
  - injection Hr as <- <-. destruct e as [|[| |code]]; cbn; naive_solver.
  - by apply IH.
  - destruct n as [|n]; [lia|]. injection Hr as <- <-. cbn. split; [rewrite length_take; lia|]. exists (script_bytes (Chunk (drop n cs) :: l)).
    split; [|done]. unfold script_bytes. cbn. by rewrite app_assoc, take_drop.
  - injection Hr as <- <-. done.
Qed.

(** ** Lines *)

(** The lines of an input and whether a newline ended them. *)
Fixpoint raw_lines (s : str) : list (str * bool) :=
  match s with
  | [] => []
  | c :: s' =>
      if decide (c = newline) then ([], true) :: raw_lines s'
      else match raw_lines s' with
           | [] => [([c], false)]
           | (l, t) :: ls => (c :: l, t) :: ls
           end
  end.

(** The lines a stage gets to see: an unterminated last line only at the end of
    the input, not when reading fails. *)
Definition lines (e : ending) (s : str) : list str :=
  map (fun l => from_utf8_lossy (fst l)) (filter (fun l => snd l = true \/ e = Eof) (raw_lines s)).

Lemma raw_lines_cons l s : newline ∉ l -> raw_lines (l ++ newline :: s) = (l, true) :: raw_lines s.
Proof.
  induction l as [|c l IH]; [by cbn|]. rewrite not_elem_of_cons. intros [Hc Hl]. cbn [app raw_lines].
  rewrite decide_False by congruence. by rewrite IH.
Qed.

Lemma raw_lines_last s : newline ∉ s -> s <> [] -> raw_lines s = [(s, false)].
Proof.
  induction s as [|c s IH]; [done|]. rewrite not_elem_of_cons. intros [Hc Hs] _. cbn [raw_lines].
  rewrite decide_False by congruence. destruct s as [|d s]; [done|]. by rewrite IH.
Qed.

Lemma lines_nil e : lines e [] = [].
Proof. done. Qed.

Lemma lines_cons e l s : newline ∉ l -> lines e (l ++ newline :: s) = from_utf8_lossy l :: lines e s.
Proof. intros Hl. unfold lines. rewrite raw_lines_cons by done. rewrite filter_cons_True by by left. done. Qed.

Lemma lines_last e s : newline ∉ s -> s <> [] -> lines e s = if decide (e = Eof) then [from_utf8_lossy s] else [].
Proof.
  intros Hs Hne. unfold lines. rewrite raw_lines_last by done. destruct (decide (e = Eof)) as [->|He].
  - by rewrite filter_cons_True by by right.
  - rewrite filter_cons_False; [done|]. by intros [?|?].
Qed.

Lemma lines_open k s : newline ∉ s -> lines (Fails k) s = [].
Proof. intros Hs. destruct s as [|c s]; [done|]. by rewrite lines_last. Qed.

Lemma break_line_spec s : match break_line s with
  | Some (l, rest) => (newline ∉ l) /\ s = l ++ newline :: rest
  | None => newline ∉ s
  end.
Proof.
  induction s as [|c s IH]; cbn [break_line]; [by intros ?%elem_of_nil|]. destruct (decide (c = newline)) as [->|Hc].
  - split; [by intros ?%elem_of_nil|done].
  - destruct (break_line s) as [[l rest]|]; cbn.
    + destruct IH as [Hl ->]. split; [|done]. rewrite not_elem_of_cons. by split; [congruence|].
    + rewrite not_elem_of_cons. by split; [congruence|].
Qed.

#[global] Arguments lines : simpl never.

Section next_line.
Context {R : Type} `{Reader R}.
(** The contract of the inner reader. *)
Context (Sin : R -> list Ascii.ascii -> ending -> Prop) (B : R -> Prop) (Hin : closed Sin B).

Definition line_read (p rest : str) (e : ending) (rp : R * str) (x : res io_stop (option (str * bool))) : Prop :=
  exists rest', Sin (fst rp) rest' e /\
  match x with
  | Ok (Some (line, true)) => exists l, (newline ∉ l) /\ p ++ rest = l ++ newline :: snd rp ++ rest' /\ line = from_utf8_lossy l
  | Ok (Some (line, false)) => (newline ∉ (p ++ rest)) /\ p ++ rest <> [] /\ line = from_utf8_lossy (p ++ rest) /\ snd rp = [] /\ rest' = [] /\ e = Eof
  | Ok None => p ++ rest = [] /\ snd rp = [] /\ rest' = [] /\ e = Eof
  | Err (IoError WouldBlock) => snd rp ++ rest' = p ++ rest /\ B (fst rp)
  | Err (IoError k) => (newline ∉ (p ++ rest)) /\ snd rp ++ rest' = p ++ rest /\ rest' = [] /\ e = Fails k
  | _ => False
  end.

(** One line, of the bytes already buffered and those still to be read. *)
Lemma next_line_spec r p rest e : Sin r rest e ->
  exists rp x, eventually (fun f => streaming_read_next_line f (r, p)) (rp, x) /\ line_read p rest e rp x.
Proof.
  remember (length rest) as n eqn:Hn. revert r p rest Hn. induction n as [n IH] using lt_wf_ind. intros r p rest -> Hs.
  pose proof (break_line_spec p) as Hp. destruct (break_line p) as [[l p']|] eqn:Hb.
  { destruct Hp as [Hl Hp]. exists (r, p'), (Ok (Some (from_utf8_lossy l, true))). split.
    - apply eventually_S, eventually_now. intros f. cbn. by rewrite Hb.
    - exists rest. split; [done|]. exists l. split_and!; [done| |done]. rewrite Hp. cbn. by rewrite <-app_assoc. }
  pose proof (Hin r rest e SCRATCH Hs ltac:(unfold SCRATCH; lia)) as (r' & out & [f0 Hev] & Hrep).
  destruct out as [[|c cs]|[[| |code]|]|]; cbn [reply] in Hrep; try done.
  - destruct Hrep as (-> & -> & Hr'). destruct p as [|b p].
    + exists (r', []), (Ok None). split; [|exists []; by rewrite ?app_nil_r].
      one_call f0 ltac:(fun _ => cbn [streaming_read_next_line]; rewrite Hb, Hev by done). by apply eventually_now.
    + exists (r', []), (Ok (Some (from_utf8_lossy (b :: p), false))). split; [|exists []; by rewrite ?app_nil_r].
      one_call f0 ltac:(fun _ => cbn [streaming_read_next_line]; rewrite Hb, Hev by done). by apply eventually_now.
  - destruct Hrep as (_ & rest' & -> & Hr').
    destruct (IH (length rest')) with (r := r') (p := p ++ c :: cs) (rest := rest') as (rp & x & Hx & Hline); [rewrite length_app; cbn; lia|done|done|].
    exists rp, x. split; [|unfold line_read in *; rewrite <-(app_assoc p) in Hline; exact Hline].
    one_call f0 ltac:(fun _ => cbn [streaming_read_next_line]; rewrite Hb, Hev by done). done.
  - exists (r', p), (Err (IoError WouldBlock)). split; [|by destruct Hrep; exists rest].
    one_call f0 ltac:(fun _ => cbn [streaming_read_next_line]; rewrite Hb, Hev by done). by apply eventually_now.
  - destruct Hrep as (-> & -> & Hr'). exists (r', p), (Err (IoError InvalidData)). split; [|exists []; cbn; rewrite !app_nil_r; by split_and!].
    one_call f0 ltac:(fun _ => cbn [streaming_read_next_line]; rewrite Hb, Hev by done). by apply eventually_now.
  - destruct Hrep as (-> & -> & Hr'). exists (r', p), (Err (IoError (OtherKind code))). split; [|exists []; cbn; rewrite !app_nil_r; by split_and!].
    one_call f0 ltac:(fun _ => cbn [streaming_read_next_line]; rewrite Hb, Hev by done). by apply eventually_now.
Qed.
End next_line.

(** ** Pending output *)

(** The bytes a stage has produced and not delivered. *)
Definition visible {Own} (c : Core Own) : str := drop (output_offset c) (output_pending c).

#[global] Arguments visible : simpl never.

Lemma take_pending_spec p i n : (0 < n)%nat -> let '(p', i', c) := take_pending_output p i n in
  drop i p = c ++ drop i' p' /\ (length c <= n)%nat /\ (c = [] -> drop i p = []) /\ (i' <= length p')%nat.
Proof.
  intros Hn. unfold take_pending_output. destruct (Nat.leb_spec (length p) i) as [Hl|Hl].
  { rewrite drop_ge by done. cbn. split_and!; [done|lia|done|lia]. }
  assert (Hd : length (drop i p) = (length p - i)%nat) by apply length_drop. rewrite Hd.
  assert (Hc : take (Nat.min (length p - i) n) (drop i p) = [] -> drop i p = []).
  { intros Ht%(f_equal length). rewrite length_take, Hd in Ht. cbn in Ht. lia. }
  destruct (Nat.eqb_spec (i + Nat.min (length p - i) n) (length p)) as [He|He].
  - split_and!; [|rewrite length_take; lia|done|done]. rewrite take_ge by lia. by rewrite drop_nil, app_nil_r.
  - split_and!; [|rewrite length_take; lia|done|lia]. by rewrite <-drop_drop, take_drop.
Qed.

Section stage.
Context {R Own : Type} `{Reader R}.

(** The offset stays within the buffer. *)
Definition core_ok (c : Core Own) : Prop := (output_offset c <= length (output_pending c))%nat.

(** The same state apart from what waits in the output buffer. *)
Definition same_work (c c' : Core Own) : Prop := own c = own c' /\ finished c = finished c' /\ core_ok c'.

Lemma take_output_spec n (s : Filter R Own) : (0 < n)%nat -> exists c' c,
  take_output n s = (set_core c' s, Ok c) /\ same_work (core s) c' /\ visible (core s) = c ++ visible c' /\ (length c <= n)%nat /\
  (c = [] -> visible (core s) = []).
Proof.
  intros Hn. unfold take_output. pose proof (take_pending_spec (output_pending (core s)) (output_offset (core s)) n Hn) as Ht.
  destruct (take_pending_output _ _ _) as [[p i] c]. eexists _, c. split; [done|]. destruct Ht as (? & ? & ? & ?). by split_and!.
Qed.

Lemma take_output_empty n (s : Filter R Own) : visible (core s) = [] -> take_output n s = (set_core (set_output [] 0 (core s)) s, Ok []).
Proof.
  unfold visible, take_output, take_pending_output. intros Hv%(f_equal length). rewrite length_drop in Hv. cbn in Hv.
  by rewrite (proj2 (Nat.leb_le _ _)) by lia.
Qed.

Lemma take_output_idle n (s : Filter R Own) : output_pending (core s) = [] -> output_offset (core s) = 0%nat -> take_output n s = (s, Ok []).
Proof.
  destruct s as [r p [o op oo fin]]. cbn. intros -> ->. done.
Qed.

(** *** A stage is correct when each of its steps is

    [Inv k s out e]: what the stage [s] has still to produce, besides the output
    already buffered, is [out] and then [e]; [k] bounds the work until the next
    output or the end. *)
Context (step : nat -> comp (Filter R Own) io_stop unit).
Context (Inv : nat -> Filter R Own -> str -> ending -> Prop) (B : R -> Prop).

Definition steps_to (k : nat) (s : Filter R Own) (out : str) (e : ending) (x : res io_stop unit) : Prop :=
  match x with
  | Ok _ => exists k' rest, out = visible (core s) ++ rest /\ Inv k' s rest e /\ (visible (core s) = [] -> finished (core s) = false -> (k' < k)%nat)
  | Err (IoError WouldBlock) => exists k' rest, out = visible (core s) ++ rest /\ Inv k' s rest e /\ B (inner s)
  | Err (IoError kind) => out = [] /\ visible (core s) = [] /\ e = Fails kind /\ exists k', Inv k' s [] e
  | _ => False
  end.

Context (Inv_output : forall k s out e c, Inv k s out e -> same_work (core s) c -> Inv k (set_core c s) out e).
Context (Inv_done : forall k s out e, Inv k s out e -> finished (core s) = true -> out = [] /\ e = Eof).
Context (Inv_step : forall k s out e, Inv k s out e -> finished (core s) = false -> visible (core s) = [] ->
  exists s' x, eventually (fun f => step f s) (s', x) /\ steps_to k s' out e x).

Definition holds (s : Filter R Own) (bs : str) (e : ending) : Prop := exists k out, bs = visible (core s) ++ out /\ Inv k s out e.

(** Pending output is delivered, and a finished stage stops, without a step. *)
Lemma read_loop_now k s out e n : Inv k s out e -> (0 < n)%nat -> visible (core s) <> [] \/ finished (core s) = true ->
  exists s' x, eventually (fun f => read_loop step f n s) (s', x) /\ reply holds (fun s => B (inner s)) (visible (core s) ++ out) e n s' x.
Proof.
  intros Hs Hn Hnow. destruct (take_output_spec n s Hn) as (c' & c & Ht & Hw & Hv & Hlen & Hnil).
  pose proof (Inv_output _ _ _ _ _ Hs Hw) as Hs'. destruct c as [|b c].
  - specialize (Hnil eq_refl). destruct Hnow as [?|Hfin]; [done|]. destruct (Inv_done _ _ _ _ Hs Hfin) as [-> ->].
    exists (set_core c' s), (Ok []). split.
    + apply eventually_S, eventually_now. intros f. cbn [read_loop]. unfold mbind, comp_bind, get. rewrite Ht. cbn. destruct Hw as (_ & <- & _). by rewrite Hfin.
    + rewrite Hnil in Hv |- *. cbn [app] in Hv. cbn. split_and!; [done|done|]. exists k, []. cbn. by rewrite <-Hv.
  - exists (set_core c' s), (Ok (b :: c)). split.
    + apply eventually_S, eventually_now. intros f. cbn [read_loop]. unfold mbind, comp_bind. by rewrite Ht.
    + cbn. split; [done|]. exists (visible c' ++ out). split; [by rewrite Hv, <-app_assoc|]. by exists k, out.
Qed.

Lemma read_loop_step n s : (0 < n)%nat -> visible (core s) = [] -> finished (core s) = false ->
  exists c', same_work (core s) c' /\ visible c' = [] /\ forall f, read_loop step (S f) n s = match step f (set_core c' s) with
    | (s2, Ok _) => read_loop step f n s2 | (s2, Err e) => (s2, Err e) | (s2, Panic w) => (s2, Panic w) end.
Proof.
  intros Hn Hv Hfin. destruct (take_output_spec n s Hn) as (c' & c & Ht & Hw & Hv' & _ & _). rewrite Hv in Hv'.
  symmetry in Hv'. apply app_eq_nil in Hv' as [-> Hv']. exists c'. split_and!; [done..|]. intros f. cbn [read_loop].
  unfold mbind, comp_bind, get. rewrite Ht. cbn. destruct Hw as (_ & <- & _). by rewrite Hfin.
Qed.

Lemma read_loop_spec k s out e n : Inv k s out e -> (0 < n)%nat ->
  exists s' x, eventually (fun f => read_loop step f n s) (s', x) /\ reply holds (fun s => B (inner s)) (visible (core s) ++ out) e n s' x.
Proof.
  intros Hs Hn. revert s out Hs. induction k as [k IH] using lt_wf_ind. intros s out Hs.
  destruct (decide (visible (core s) = [])) as [Hv|Hv]; [|apply (read_loop_now k); auto].
  destruct (finished (core s)) eqn:Hfin; [apply (read_loop_now k); auto|].
  destruct (read_loop_step n s Hn Hv Hfin) as (c' & Hw & Hv' & Hunfold). pose proof (Inv_output _ _ _ _ _ Hs Hw) as Hs'.
  destruct (Inv_step _ _ _ _ Hs') as (s2 & x & [f0 Hstep] & Hst); [cbn; by destruct Hw as (_ & <- & _)|done|].
  assert (Hgo : forall y, eventually (fun f => match x with Ok _ => read_loop step f n s2 | Err e => (s2, Err e) | Panic w => (s2, Panic w) end) y ->
    eventually (fun f => read_loop step f n s) y).
  { intros y Hy. one_call f0 ltac:(fun _ => rewrite Hunfold, Hstep by done). done. }
  rewrite Hv. cbn [app]. destruct x as [u|[kind|]|w]; cbn [steps_to] in Hst; try done.
  - destruct Hst as (k' & rest & -> & Hinv & Hlt).
    assert (exists s' x, eventually (fun f => read_loop step f n s2) (s', x) /\ reply holds (fun s => B (inner s)) (visible (core s2) ++ rest) e n s' x) as (s' & x & Hev & Hrep).
    { destruct (decide (visible (core s2) = [])) as [Hv2|Hv2]; [|apply (read_loop_now k'); auto].
      destruct (finished (core s2)) eqn:Hf2; [apply (read_loop_now k'); auto|]. apply (IH k'); auto. }
    exists s', x. split; [by apply Hgo|done].
  - exists s2, (Err (IoError kind)). split; [by apply Hgo, eventually_now|]. destruct kind as [| |code].
    + destruct Hst as (k' & rest & -> & Hinv & Hb). split; [by exists k', rest|done].
    + destruct Hst as (-> & Hv2 & -> & k' & Hinv). cbn. split_and!; [done|done|]. exists k', []. by rewrite Hv2.
    + destruct Hst as (-> & Hv2 & -> & k' & Hinv). cbn. split_and!; [done|done|]. exists k', []. by rewrite Hv2.
Qed.

Lemma read_with_spec k s out e n : Inv k s out e -> (0 < n)%nat ->
  exists s' x, eventually (fun f => read_with step f n s) (s', x) /\ reply holds (fun s => B (inner s)) (visible (core s) ++ out) e n s' x.
Proof. intros Hs Hn. unfold read_with. rewrite (proj2 (Nat.eqb_neq n 0)) by lia. by apply (read_loop_spec k). Qed.
End stage.

(** ** Stages that work line by line *)

(** What a stage makes of one line (its new state, its output, whether it stops)
    and of the end of the input. *)
Record transducer (Own : Type) := {
  t_line : list Ascii.ascii -> Own -> Own * list Ascii.ascii * bool;
  t_eof : Own -> list Ascii.ascii;
}.
Arguments t_line {Own} _.
Arguments t_eof {Own} _.

(** The output over the lines of an input, and how it ends. *)
Fixpoint run {Own} (t : transducer Own) (o : Own) (ls : list str) (e : ending) : str * ending :=
  match ls with
  | [] => (match e with Eof => t_eof t o | Fails _ => [] end, e)
  | l :: ls' =>
      let '(o', add, stop) := t_line t l o in
      if stop then (add, Eof) else let '(out, e') := run t o' ls' e in (add ++ out, e')
  end.

Section line_stage.
Context {R Own : Type} `{Reader R}.
Context (on_line : list Ascii.ascii -> Core Own -> Core Own) (on_eof : Core Own -> Core Own) (t : transducer Own).

(** What stays true of the stage's own fields, and the contract of the inner
    reader. *)
Context (P : Own -> Prop) (Sin : R -> list Ascii.ascii -> ending -> Prop) (B : R -> Prop) (Hin : closed Sin B).

(** The step is the generic one while that holds. *)
Context (step : nat -> comp (Filter R Own) io_stop unit).
Context (Hstep : forall f s, P (own (core s)) -> step f s = pump_line on_line on_eof f s).

(** The handlers do what the transducer says, and only add to the output. *)
Definition line_handler : Prop := forall l c, finished c = false -> P (own c) -> (P (fst (fst (t_line t l (own c))))) /\ on_line l c =
  let '(o, add, stop) := t_line t l (own c) in
  {| own := o; output_pending := output_pending c ++ add; output_offset := output_offset c; finished := stop |}.
Definition eof_handler : Prop := forall c, P (own c) -> exists o, P o /\ on_eof c =
  {| own := o; output_pending := output_pending c ++ t_eof t (own c); output_offset := output_offset c; finished := true |}.
Context (Hline : line_handler) (Heof : eof_handler).

Definition line_inv (k : nat) (s : Filter R Own) (out : str) (e' : ending) : Prop := core_ok (core s) /\ P (own (core s)) /\
  if finished (core s) then out = [] /\ e' = Eof
  else exists rest e, Sin (inner s) rest e /\ (out, e') = run t (own (core s)) (lines e (input_pending s ++ rest)) e /\
    (length (input_pending s ++ rest) < k)%nat.

Lemma visible_emit (o : Own) (c : Core Own) add fin : core_ok c ->
  visible {| own := o; output_pending := output_pending c ++ add; output_offset := output_offset c; finished := fin |} = visible c ++ add.
Proof. intros Hc. unfold visible. cbn. by rewrite drop_app_le. Qed.

Lemma core_ok_emit (o : Own) (c : Core Own) add fin : core_ok c ->
  core_ok {| own := o; output_pending := output_pending c ++ add; output_offset := output_offset c; finished := fin |}.
Proof. unfold core_ok. cbn. rewrite length_app. lia. Qed.

Lemma zoom_next_line rp x (s : Filter R Own) : eventually (fun f => streaming_read_next_line f (inner s, input_pending s)) (rp, x) ->
  eventually (fun f => next_line f s) (set_input rp s, x).
Proof. intros Hev. by apply (eventually_map _ (fun '(b, r) => (set_input b s, r)) _ Hev). Qed.

(** The stage after it has handled a line. *)
Lemma line_steps (s : Filter R Own) r' p' rest rest' e0 line out e : core_ok (core s) -> P (own (core s)) -> finished (core s) = false -> visible (core s) = [] ->
  Sin r' rest' e0 -> (out, e) = run t (own (core s)) (line :: lines e0 (p' ++ rest')) e0 ->
  (length (p' ++ rest') < length (input_pending s ++ rest))%nat -> forall k, (length (input_pending s ++ rest) < k)%nat ->
  steps_to line_inv B k (set_core (on_line line (core s)) (set_input (r', p') s)) out e (Ok tt).
Proof.
  intros Hok HP Hfin Hv Hs Hr Hl k Hk. cbn [steps_to]. cbn [run] in Hr. cbn. destruct (Hline line (core s) Hfin HP) as [HP' ->].
  destruct (t_line t line (own (core s))) as [[o' add] stop] eqn:Ht. cbn [fst] in HP'. rewrite visible_emit, Hv by done. destruct stop.
  - injection Hr as -> ->. exists 0%nat, []. split; [by rewrite app_nil_r|]. split; [split; [by apply core_ok_emit|by split]|done].
  - destruct (run t o' (lines e0 (p' ++ rest')) e0) as [out2 e2] eqn:Hr2. injection Hr as -> ->.
    exists (length (input_pending s ++ rest)), out2. split; [done|]. split; [|intros _ _; lia].
    split; [by apply core_ok_emit|]. split; [done|]. cbn. exists rest', e0. by split_and!.
Qed.

Lemma line_step k s out e : line_inv k s out e -> finished (core s) = false -> visible (core s) = [] ->
  exists s' x, eventually (fun f => step f s) (s', x) /\ steps_to line_inv B k s' out e x.
Proof.
  intros (Hok & HP & Hinv) Hfin Hv. rewrite Hfin in Hinv. destruct Hinv as (rest & e0 & Hs & Hrun & Hk).
  destruct (next_line_spec Sin B Hin (inner s) (input_pending s) rest e0 Hs) as ([r' p'] & x & Hev & rest' & Hs' & Hx).
  apply zoom_next_line in Hev. cbn [fst snd] in *.
  exists (match x with Ok (Some (line, _)) => set_core (on_line line (core s)) (set_input (r', p') s)
    | Ok None => set_core (on_eof (core s)) (set_input (r', p') s) | _ => set_input (r', p') s end),
    (match x with Ok _ => Ok tt | Err e => Err e | Panic w => Panic w end). split.
  { destruct Hev as [f0 Hev]. exists f0. intros f Hle. rewrite Hstep by done. unfold pump_line, mbind, comp_bind. rewrite Hev by lia. by destruct x as [[[line b]|]|e1|w]. }
  destruct x as [[[line [|]]|]|[[| |code]|]|w]; try done.
  - destruct Hx as (l & Hl & Ht & ->). rewrite Ht, lines_cons in Hrun by done. apply (line_steps s r' p' rest rest' e0); try done.
    rewrite Ht. rewrite (length_app l). cbn. lia.
  - destruct Hx as (Hl & Hne & -> & -> & -> & ->). rewrite lines_last, decide_True in Hrun by done.
    apply (line_steps s r' [] rest [] Eof); try done. cbn. destruct (input_pending s ++ rest); [done|cbn; lia].
  - destruct Hx as (Ht & -> & -> & ->). rewrite Ht, lines_nil in Hrun. injection Hrun as -> ->. destruct (Heof (core s) HP) as (o & HP' & ->).
    cbn [steps_to]. cbn. rewrite visible_emit, Hv by done. exists 0%nat, []. split; [by rewrite app_nil_r|]. split; [split; [by apply core_ok_emit|by split]|done].
  - destruct Hx as [Hx Hb]. exists k, out. cbn. rewrite Hv. split; [done|]. split; [|done]. split; [done|]. split; [done|]. cbn. rewrite Hfin. exists rest', e0. by rewrite Hx.
  - destruct Hx as (Hl & Ht & -> & ->). rewrite lines_open in Hrun by done. injection Hrun as -> ->. cbn [steps_to]. cbn.
    split_and!; [done..|]. exists k. split; [done|]. split; [done|]. cbn. rewrite Hfin. exists [], (Fails InvalidData). rewrite app_nil_r in *. subst p'.
    rewrite lines_open by done. by split_and!.
  - destruct Hx as (Hl & Ht & -> & ->). rewrite lines_open in Hrun by done. injection Hrun as -> ->. cbn [steps_to]. cbn.
    split_and!; [done..|]. exists k. split; [done|]. split; [done|]. cbn. rewrite Hfin. exists [], (Fails (OtherKind code)). rewrite app_nil_r in *. subst p'.
    rewrite lines_open by done. by split_and!.
Qed.

(** What the stage serves: its [read] answers as the loop does. *)
Context `{HF : Reader (Filter R Own)}.
Context (Hread : forall s n x, core_ok (core s) -> P (own (core s)) ->
  eventually (fun f => read_with step f n s) x -> eventually (fun f => read f n s) x).

Lemma line_stage_closed : closed (holds line_inv) (fun s => B (inner s)).
Proof.
  intros s bs e n (k & out & -> & Hinv) Hn.
  destruct (read_with_spec step line_inv B) with (k := k) (s := s) (out := out) (e := e) (n := n)
    as (s' & x & Hev & Hrep); [| | |done|done|].
  - intros k1 s1 out1 e1 c (Hok & HP & Hi) (Ho & Hf & Hok'). split; [done|]. cbn. by rewrite <-Ho, <-Hf.
  - intros k1 s1 out1 e1 (_ & _ & Hi) Hf. by rewrite Hf in Hi.
  - apply line_step.
  - exists s', x. split; [|done]. by apply Hread; [apply Hinv..|].
Qed.
End line_stage.

Section line_family.
Context {R Own : Type} (t : transducer Own) (P : Own -> Prop).

Definition line_hold (S : R -> str -> ending -> Prop) : Filter R Own -> str -> ending -> Prop := holds (line_inv t P S).

Lemma line_hold_stable (S S' : R -> str -> ending -> Prop) s r' bs e : line_hold S s bs e ->
  (forall b e', S (inner s) b e' -> S' r' b e') -> line_hold S' (set_inner r' s) bs e.
Proof.
  intros (k & out & -> & Hok & HP & Hi) Hr. exists k, out. split; [done|]. split; [done|]. split; [done|]. cbn.
  destruct (finished (core s)); [done|]. destruct Hi as (rest & e0 & Hs & Hi). exists rest, e0. split; [by apply Hr|done].
Qed.

Lemma line_stage_starts (S : R -> str -> ending -> Prop) s rest e : core_ok (core s) -> P (own (core s)) -> finished (core s) = false -> S (inner s) rest e ->
  input_pending s = [] -> line_hold S s (visible (core s) ++ fst (run t (own (core s)) (lines e rest) e)) (snd (run t (own (core s)) (lines e rest) e)).
Proof.
  intros Hok HP Hfin Hs Hp. exists (Datatypes.S (length rest)), (fst (run t (own (core s)) (lines e rest) e)). split; [done|].
  split; [done|]. split; [done|]. rewrite Hfin, Hp. exists rest, e. cbn. split_and!; [done|by destruct (run _ _ _ _)|lia].
Qed.

Lemma line_hold_new (S : R -> str -> ending -> Prop) r o inp e : P o -> S r inp e ->
  line_hold S (Filter_new r o) (fst (run t o (lines e inp) e)) (snd (run t o (lines e inp) e)).
Proof. intros HP Hs. apply (line_stage_starts S (Filter_new r o)); try done. unfold core_ok. cbn. lia. Qed.

(** The contract of a line stage. *)
Lemma line_stage_keeps `{Reader R} `{Reader (Filter R Own)} on_line on_eof step o : (forall f s, P (own (core s)) -> step f s = pump_line on_line on_eof f s) ->
  line_handler on_line t P -> eof_handler on_eof t P ->
  (forall s n x, core_ok (core s) -> P (own (core s)) -> eventually (fun f => read_with step f n s) x -> eventually (fun f => read f n s) x) ->
  P o -> keeps inner set_inner (fun r => Filter_new r o) (fun inp e => Some (run t o (lines e inp) e)).
Proof.
  intros Hstep Hline Heof Hread HP. exists line_hold. split; [|split].
  - intros S B HS. by apply (line_stage_closed on_line on_eof t P S B HS step).
  - intros S S' s r' bs e. apply line_hold_stable.
  - intros S r inp e out e' Hs [= Hrun]. pose proof (line_hold_new S r o inp e HP Hs) as Hnew. by rewrite Hrun in Hnew.
Qed.
End line_family.
