(* ===== verification/StreamLines.v ===== *)
(** * Line stages: cut, uniq, rev, bat

    crates/wasmsh-runtime/src/streaming_cut.rs, streaming_uniq.rs and the [rev]
    and [bat] readers of lib.rs.  The fields a reader has besides its buffers are
    its [own] state.  Line numbers and counts are unbounded integers: a stream
    cannot have [usize::MAX] lines. *)

From S2P Require Import Prelude Strings Utf8 Stream.

(** ** Characters of a [str] *)

(** [str::split] with a non-empty separator; [skip] bytes of it are still to be
    passed over. *)
Fixpoint split_sub (sep s : str) (skip : nat) : list str :=
  match s with
  | [] => [[]]
  | c :: s' =>
      match skip with
      | S k => split_sub sep s' k
      | O =>
          if starts_with sep s then [] :: split_sub sep s' (length sep - 1)
          else match split_sub sep s' 0 with
               | h :: t => (c :: h) :: t
               | [] => [[c]]
               end
      end
  end.

Definition split_char (c : Z) (s : str) : list str := split_sub (encode c) s 0.
Definition contains_char (c : Z) (s : str) : bool := bool_decide (is_Some (find_sub (encode c) s)).

(** [iter().enumerate().filter(..)] on the index, counted from [idx]. *)
Fixpoint select {A} (keep : Z -> bool) (idx : Z) (l : list A) : list A :=
  match l with
  | [] => []
  | x :: l' => if keep idx then x :: select keep (idx + 1) l' else select keep (idx + 1) l'
  end.

(** [format!("{n:>width$}")]. *)
Definition pad_left_spaces (width : nat) (s : str) : str := repeat " "%char (width - length s) ++ s.

(** ** cut *)

Record StreamingCutRange := {
  range_start : option Z;
  range_end : option Z;
}.

Inductive StreamingCutMode :=
  | Fields (ranges : list StreamingCutRange)
  | Chars (ranges : list StreamingCutRange)
  | Bytes (ranges : list StreamingCutRange).

Record StreamingCutStage := {
  mode : StreamingCutMode;
  delim : Z;
  complement : bool;
  only_delimited : bool;
  output_delim : list Ascii.ascii;
}.

Section cut.
Context `{Target}.

Definition streaming_cut_range_includes (ranges : list StreamingCutRange) (idx : Z) : bool :=
  existsb (fun range => (default 1 (range_start range) <=? idx) && (idx <=? default usize_max (range_end range))) ranges.

Definition cut_keeps (stage : StreamingCutStage) (ranges : list StreamingCutRange) (idx : Z) : bool :=
  let included := streaming_cut_range_includes ranges (idx + 1) in
  if complement stage then negb included else included.

Definition apply_streaming_cut (line : str) (stage : StreamingCutStage) : option str :=
  match mode stage with
  | Fields ranges =>
      if only_delimited stage && negb (contains_char (delim stage) line) then None
      else Some (join (output_delim stage) (select (cut_keeps stage ranges) 0 (split_char (delim stage) line)))
  | Chars ranges | Bytes ranges => Some (encode_all (select (cut_keeps stage ranges) 0 (lossy_chars line)))
  end.

Definition CutStreamReader (R : Type) : Type := Filter R StreamingCutStage.
Definition CutStreamReader_new {R} (r : R) (stage : StreamingCutStage) : CutStreamReader R := Filter_new r stage.

Definition cut_line (line : str) (c : Core StreamingCutStage) : Core StreamingCutStage :=
  match apply_streaming_cut line (own c) with
  | Some out => emit (out ++ [newline]) c
  | None => c
  end.

Definition cut_read {R} `{Reader R} : nat -> nat -> comp (CutStreamReader R) io_stop str := read_with (pump_line cut_line set_finished).

#[export] Instance cut_reader {R} `{Reader R} : Reader (CutStreamReader R) := cut_read.
End cut.

(** ** uniq *)

Record StreamingUniqFlags := {
  count_lines : bool;
  duplicates_only : bool;
  unique_only : bool;
  ignore_case : bool;
  skip_fields : Z;
  skip_chars : Z;
  compare_chars : option Z;
}.

Record UniqState := {
  flags : StreamingUniqFlags;
  prev : option (list Ascii.ascii * list Ascii.ascii);
  count : Z;
}.

(** [find(char::is_whitespace)]. *)
Fixpoint find_whitespace (s : str) : option nat :=
  if existsb (fun w => starts_with w s) white_space then Some 0%nat
  else match s with [] => None | _ :: s' => S <$> find_whitespace s' end.

Section uniq.
Context `{Unicode}.

Fixpoint skip_fields_loop (n : nat) (slice : str) : str :=
  match n with
  | O => slice
  | S k =>
      let slice := trim_start slice in
      match find_whitespace slice with
      | Some pos => skip_fields_loop k (drop pos slice)
      | None => []
      end
  end.

Definition skip_chars_of (n : Z) (slice : str) : str :=
  if 0 <? n then
    let chars := lossy_chars slice in
    if n <? len chars then drop (length (encode_all (take (Z.to_nat n) chars))) slice else []
  else slice.

Definition streaming_uniq_compare_key (line : str) (fl : StreamingUniqFlags) : str :=
  let slice := skip_fields_loop (Z.to_nat (skip_fields fl)) line in
  let key := skip_chars_of (skip_chars fl) slice in
  let key := match compare_chars fl with
             | Some limit => encode_all (take (Z.to_nat limit) (lossy_chars key))
             | None => key
             end in
  if ignore_case fl then to_lowercase key else key.

(** What [emit_streaming_uniq_line] appends. *)
Definition emit_streaming_uniq_line (line : str) (count : Z) (fl : StreamingUniqFlags) : str :=
  if duplicates_only fl && (count <? 2) then []
  else if unique_only fl && (1 <? count) then []
  else if count_lines fl then pad_left_spaces 7 (Z_to_string count) ++ #" " ++ line ++ [newline]
  else line ++ [newline].

Definition UniqStreamReader (R : Type) : Type := Filter R UniqState.
Definition UniqStreamReader_new {R} (r : R) (fl : StreamingUniqFlags) : UniqStreamReader R :=
  Filter_new r {| flags := fl; prev := None; count := 0 |}.

Definition flush_uniq_prev (c : Core UniqState) : Core UniqState :=
  let o := own c in
  match prev o with
  | Some (prev_line, _) =>
      emit (emit_streaming_uniq_line prev_line (count o) (flags o)) (set_own {| flags := flags o; prev := None; count := count o |} c)
  | None => c
  end.

Definition handle_uniq_line (line : str) (c : Core UniqState) : Core UniqState :=
  let key := streaming_uniq_compare_key line (flags (own c)) in
  if match prev (own c) with Some (_, prev_key) => bool_decide (prev_key = key) | None => false end then
    set_own {| flags := flags (own c); prev := prev (own c); count := count (own c) + 1 |} c
  else
    let c := flush_uniq_prev c in
    set_own {| flags := flags (own c); prev := Some (line, key); count := 1 |} c.

Definition pump_next_uniq_line {R} `{Reader R} : nat -> comp (UniqStreamReader R) io_stop unit :=
  pump_line handle_uniq_line (fun c => set_finished (flush_uniq_prev c)).

Definition uniq_read {R} `{Reader R} : nat -> nat -> comp (UniqStreamReader R) io_stop str := read_with pump_next_uniq_line.

#[export] Instance uniq_reader {R} `{Reader R} : Reader (UniqStreamReader R) := uniq_read.
End uniq.

(** ** rev *)

Definition RevStreamReader (R : Type) : Type := Filter R unit.
Definition RevStreamReader_new {R} (r : R) : RevStreamReader R := Filter_new r tt.

Definition reverse_line (line : str) : str := encode_all (reverse (lossy_chars line)).

Definition rev_read {R} `{Reader R} (fuel n : nat) : comp (RevStreamReader R) io_stop str :=
  if (n =? 0)%nat then mret []
  else
    copied ← take_output n;
    match copied with
    | _ :: _ => mret copied
    | [] =>
        s ← get;
        if finished (core s) then mret []
        else
          l ← next_line fuel;
          match l with
          | Some (line, _) => _ ← on_core (emit (reverse_line line ++ [newline])); take_output n
          | None => _ ← on_core set_finished; mret []
          end
    end.

#[export] Instance rev_reader {R} `{Reader R} : Reader (RevStreamReader R) := rev_read.

(** ** bat *)

Record StreamingBatStage := {
  show_numbers : bool;
  show_header : bool;
  line_range : option (option Z * option Z);
  show_all : bool;
}.

Record BatState := {
  bat_stage : StreamingBatStage;
  header_emitted : bool;
  footer_emitted : bool;
  line_num : Z;
}.

Definition streaming_bat_in_range (line_num : Z) (range : option (option Z * option Z)) : bool :=
  match range with
  | None => true
  | Some (start, stop) =>
      if match start with Some s => line_num <? s | None => false end then false
      else match stop with Some e => line_num <=? e | None => true end
  end.

(** [char::is_control]: the general category Cc. *)
Definition is_control (c : Z) : bool := ((0 <=? c) && (c <? 32)) || ((127 <=? c) && (c <? 160)).

(** [{:02x}] of a code point below 256. *)
Definition hex_digit_char (n : Z) : byte := byte_of (if n <? 10 then 48 + n else 87 + n).
Definition hex2 (n : Z) : str := [hex_digit_char (n / 16); hex_digit_char (n mod 16)].

Definition streaming_make_visible (s : str) : str :=
  concat (map (fun ch =>
    if ch =? 9 then #"\t" else if ch =? 13 then #"\r"
    else if is_control ch then #"\x" ++ hex2 ch else encode ch) (lossy_chars s)).

Definition BatStreamReader (R : Type) : Type := Filter R BatState.
Definition BatStreamReader_new {R} (r : R) (stage : StreamingBatStage) : BatStreamReader R :=
  Filter_new r {| bat_stage := stage; header_emitted := false; footer_emitted := false; line_num := 0 |}.

(** A horizontal rule of seven and twenty dashes around [corner]. *)
Definition bat_rule (corner : Z) : str :=
  concat (repeat (encode 9472) 7) ++ encode corner ++ concat (repeat (encode 9472) 20) ++ [newline].

Definition bat_header : str := bat_rule 9516 ++ bat_rule 9532.
Definition bat_footer : str := bat_rule 9524.

Definition emit_header (c : Core BatState) : Core BatState :=
  let o := own c in
  if negb (show_header (bat_stage o)) || header_emitted o then c
  else emit bat_header (set_own {| bat_stage := bat_stage o; header_emitted := true; footer_emitted := footer_emitted o; line_num := line_num o |} c).

Definition emit_footer (c : Core BatState) : Core BatState :=
  let o := own c in
  if negb (show_header (bat_stage o)) || footer_emitted o then c
  else emit bat_footer (set_own {| bat_stage := bat_stage o; header_emitted := header_emitted o; footer_emitted := true; line_num := line_num o |} c).

(** What [emit_bat_line] appends. *)
Definition bat_line_text (stage : StreamingBatStage) (line_num : Z) (line : str) : str :=
  let display_line := if show_all stage then streaming_make_visible line else line in
  if show_numbers stage then pad_left_spaces 5 (Z_to_string line_num) ++ #"   " ++ encode 9474 ++ #" " ++ display_line ++ [newline]
  else display_line ++ [newline].

Definition emit_bat_line (line : str) (c : Core BatState) : Core BatState :=
  emit (bat_line_text (bat_stage (own c)) (line_num (own c)) line) c.

Definition bat_line (line : str) (c : Core BatState) : Core BatState :=
  let o := own c in
  let c := set_own {| bat_stage := bat_stage o; header_emitted := header_emitted o; footer_emitted := footer_emitted o; line_num := line_num o + 1 |} c in
  if streaming_bat_in_range (line_num (own c)) (line_range (bat_stage o)) then emit_bat_line line c else c.

Definition pump_next_bat_line {R} `{Reader R} : nat -> comp (BatStreamReader R) io_stop unit :=
  pump_line bat_line (fun c => set_finished (emit_footer c)).

Fixpoint bat_loop {R} `{Reader R} (fuel n : nat) : comp (BatStreamReader R) io_stop str :=
  match fuel with
  | O => throw OutOfFuel
  | S f =>
      copied ← take_output n;
      match copied with
      | _ :: _ => mret copied
      | [] =>
          s ← get;
          if finished (core s) then mret []
          else
            _ ← on_core emit_header;
            copied ← take_output n;
            match copied with
            | _ :: _ => mret copied
            | [] => _ ← pump_next_bat_line f; bat_loop f n
            end
      end
  end.

Definition bat_read {R} `{Reader R} (fuel n : nat) : comp (BatStreamReader R) io_stop str :=
  if (n =? 0)%nat then mret [] else bat_loop fuel n.

#[export] Instance bat_reader {R} `{Reader R} : Reader (BatStreamReader R) := bat_read.
