(* ===== verification/StreamLinesProps.v ===== *)
(** * Line stages: what they deliver

    Each stage serves a function of the lines of its input, however the input is
    cut into chunks and whatever buffers the consumer offers. *)

From S2P Require Import Prelude Strings Utf8 Stream StreamProps StreamLines.

(** A stage that only maps lines. *)
Lemma run_map {Own} (t : transducer Own) (g : str -> str) o ls e : (forall l, t_line t l o = (o, g l, false)) -> t_eof t o = [] ->
  run t o ls e = (concat (map g ls), e).
Proof.
  intros Hl He. induction ls as [|l ls IH]; cbn [run map concat]; [destruct e; by rewrite ?He|]. by rewrite Hl, IH.
Qed.

(** The contract of a line stage, with what its transducer delivers. *)
Lemma keeps_eq {R T} `{Reader R} `{Reader T} (get : T -> R) put new (f g : str -> ending -> option (str * ending)) :
  keeps get put new f -> (forall inp e, g inp e = f inp e) -> keeps get put new g.
Proof. intros (Hold & Hc & Hs & Hn) Hfg. exists Hold. split_and!; [done..|]. intros S r inp e out e' Hr Hg. rewrite Hfg in Hg. by eapply Hn. Qed.

(** ** cut *)

Section cut.
Context `{Target} {R : Type} `{Reader R}.

Definition cut_transducer : transducer StreamingCutStage :=
  {| t_line l o := (o, match apply_streaming_cut l o with Some out => out ++ [newline] | None => [] end, false); t_eof _ := [] |}.

Definition cut_lines (stage : StreamingCutStage) (ls : list str) : str :=
  concat (map (fun l => match apply_streaming_cut l stage with Some out => out ++ [newline] | None => [] end) ls).

Lemma cut_contract stage : keeps inner set_inner (fun r : R => CutStreamReader_new r stage) (fun inp e => Some (cut_lines stage (lines e inp), e)).
Proof.
  eapply keeps_eq; [apply (line_stage_keeps cut_transducer (fun _ => True) cut_line set_finished (pump_line cut_line set_finished)); [done| | |done|done]|].
  - intros l c Hf _. split; [done|]. cbn. unfold cut_line. destruct c as [o p i fin]. cbn in *. subst fin.
    destruct (apply_streaming_cut l o); [done|]. by rewrite app_nil_r.
  - intros c _. exists (own c). split; [done|]. cbn. rewrite app_nil_r. by destruct c.
  - intros inp e. cbn beta. f_equal. symmetry. by apply run_map.
Qed.
End cut.

(** ** uniq *)

Section uniq.
Context `{Unicode} {R : Type} `{Reader R}.

(** Adjacent lines with equal keys, as the first of them and their number. *)
Fixpoint groups_from (key : str -> str) (first : str) (n : Z) (ls : list str) : list (str * Z) :=
  match ls with
  | [] => [(first, n)]
  | l :: ls' => if decide (key first = key l) then groups_from key first (n + 1) ls' else (first, n) :: groups_from key l 1 ls'
  end.

Definition groups (key : str -> str) (ls : list str) : list (str * Z) :=
  match ls with [] => [] | l :: ls' => groups_from key l 1 ls' end.

Definition uniq_key (fl : StreamingUniqFlags) (l : str) : str := streaming_uniq_compare_key l fl.

(** The last group is complete at the end of the input only. *)
Definition uniq_lines (fl : StreamingUniqFlags) (e : ending) (ls : list str) : str :=
  let gs := groups (uniq_key fl) ls in
  concat (map (fun g => emit_streaming_uniq_line (fst g) (snd g) fl) (match e with Eof => gs | Fails _ => removelast gs end)).

Definition uniq_flush (o : UniqState) : str :=
  match prev o with Some (l, _) => emit_streaming_uniq_line l (count o) (flags o) | None => [] end.

Definition uniq_transducer : transducer UniqState :=
  {| t_line l o :=
       let key := uniq_key (flags o) l in
       if match prev o with Some (_, k) => bool_decide (k = key) | None => false end
       then ({| flags := flags o; prev := prev o; count := count o + 1 |}, [], false)
       else ({| flags := flags o; prev := Some (l, key); count := 1 |}, uniq_flush o, false);
     t_eof := uniq_flush |}.

Lemma groups_from_nonempty key first n ls : groups_from key first n ls <> [].
Proof. revert first n. induction ls as [|l ls IH]; intros first n; cbn; [done|]. by destruct (decide _). Qed.

Lemma run_uniq_from fl first n ls e : run uniq_transducer {| flags := fl; prev := Some (first, uniq_key fl first); count := n |} ls e =
  (concat (map (fun g => emit_streaming_uniq_line (fst g) (snd g) fl)
    (match e with Eof => groups_from (uniq_key fl) first n ls | Fails _ => removelast (groups_from (uniq_key fl) first n ls) end)), e).
Proof.
  revert first n. induction ls as [|l ls IH]; intros first n.
  { destruct e; cbn [groups_from map concat fst snd run]; [by rewrite app_nil_r|done]. }
  cbn [run t_line uniq_transducer prev flags count groups_from]. destruct (decide (uniq_key fl first = uniq_key fl l)) as [Hk|Hk].
  - rewrite bool_decide_eq_true_2 by done. by rewrite IH.
  - rewrite bool_decide_eq_false_2 by done. rewrite IH. destruct e; [done|]. pose proof (groups_from_nonempty (uniq_key fl) l 1 ls) as Hne.
    destruct (groups_from (uniq_key fl) l 1 ls) eqn:Hg; done.
Qed.

Lemma run_uniq fl ls e : run uniq_transducer {| flags := fl; prev := None; count := 0 |} ls e = (uniq_lines fl e ls, e).
Proof.
  destruct ls as [|l ls]; [by destruct e|]. cbn [run t_line uniq_transducer prev flags count]. by rewrite run_uniq_from.
Qed.

Lemma uniq_contract fl : keeps inner set_inner (fun r : R => UniqStreamReader_new r fl) (fun inp e => Some (uniq_lines fl e (lines e inp), e)).
Proof.
  eapply keeps_eq; [apply (line_stage_keeps uniq_transducer (fun _ => True) handle_uniq_line (fun c => set_finished (flush_uniq_prev c)) pump_next_uniq_line); [done| | |done|done]|].
  - intros l [o p i fin] Hf _. cbn in Hf. subst fin. split; [done|]. unfold handle_uniq_line. cbn. fold (uniq_key (flags o) l).
    unfold flush_uniq_prev, uniq_flush. cbn. destruct (prev o) as [[pl pk]|]; [|by rewrite app_nil_r].
    destruct (bool_decide (pk = _)); [by rewrite app_nil_r|done].
  - intros [o p i fin] _. unfold flush_uniq_prev. cbn. unfold uniq_flush. destruct (prev o) as [[pl pk]|].
    + by exists {| flags := flags o; prev := None; count := count o |}.
    + exists o. by rewrite app_nil_r.
  - intros inp e. cbn beta. f_equal. symmetry. by apply run_uniq.
Qed.
End uniq.

(** ** rev *)

Section rev.
Context {R : Type} `{Reader R}.

Definition rev_transducer : transducer unit := {| t_line l o := (o, reverse_line l ++ [newline], false); t_eof _ := [] |}.

Definition rev_lines (ls : list str) : str := concat (map (fun l => reverse_line l ++ [newline]) ls).

Definition rev_line (line : str) : Core unit -> Core unit := emit (reverse_line line ++ [newline]).

Lemma next_line_core f (s s' : Filter R unit) x : next_line f s = (s', x) -> core s' = core s.
Proof. unfold next_line, zoom. destruct (streaming_read_next_line _ _). by intros [= <- _]. Qed.

(** [rev] has no loop: every line gives output. *)
Lemma rev_read_loop f n (s : RevStreamReader R) : rev_read (S f) n s = read_with (pump_line rev_line set_finished) (S (S f)) n s.
Proof.
  unfold rev_read, read_with. destruct (Nat.eqb_spec n 0) as [|Hn]; [done|]. cbn [read_loop]. unfold mbind, comp_bind, get.
  destruct (decide (visible (core s) = [])) as [Hv|Hv].
  2: { destruct (take_output_spec n s) as (c' & c & -> & _ & _ & _ & Hnil); [lia|]. destruct c; [by destruct Hv; apply Hnil|done]. }
  rewrite take_output_empty by done. set (s1 := set_core _ s). destruct (finished (core s1)) eqn:Hfin; [done|].
  unfold pump_line, mbind, comp_bind. destruct (next_line (S f) s1) as [s2 [[[line t]|]|e|w]] eqn:Hnext; try done; apply next_line_core in Hnext.
  - unfold on_core, modify. set (s3 := set_core _ s2).
    destruct (take_output_spec n s3) as (c3 & c & Ht & _ & Hv3 & _ & Hn3); [lia|]. fold (rev_line line (core s2)). fold s3. rewrite Ht.
    destruct c; [|done]. specialize (Hn3 eq_refl). subst s3. revert Hn3. unfold visible, rev_line. cbn. rewrite Hnext. cbn.
    intros Hx. by apply app_nil in Hx as [_ ?].
  - unfold on_core, modify. cbn [read_loop]. unfold mbind, comp_bind, get. set (s3 := set_core _ s2).
    rewrite take_output_idle; [done|unfold s3; cbn; by rewrite Hnext..].
Qed.

Lemma rev_contract : keeps inner set_inner (fun r : R => RevStreamReader_new r) (fun inp e => Some (rev_lines (lines e inp), e)).
Proof.
  eapply keeps_eq; [apply (line_stage_keeps rev_transducer (fun _ => True) rev_line set_finished (pump_line rev_line set_finished)); [done| | | |done]|].
  - by intros l [o p i fin] Hf _; cbn in Hf; subst fin.
  - intros [o p i fin] _. exists o. split; [done|]. cbn. by rewrite app_nil_r.
  - intros s n x _ _ [f0 Hev]. exists (S f0). intros [|f] Hle; [lia|]. unfold read, rev_reader. rewrite rev_read_loop. apply Hev. lia.
  - intros inp e. cbn beta. f_equal. symmetry. by apply run_map.
Qed.
End rev.

(** ** bat *)

Section bat.
Context {R : Type} `{Reader R}.

Definition next_number (o : BatState) : BatState :=
  {| bat_stage := bat_stage o; header_emitted := header_emitted o; footer_emitted := footer_emitted o; line_num := line_num o + 1 |}.

(** The text of line [n], if it is in the range. *)
Definition bat_text (stage : StreamingBatStage) (n : Z) (line : str) : str :=
  if streaming_bat_in_range n (line_range stage) then bat_line_text stage n line else [].

Definition bat_transducer : transducer BatState :=
  {| t_line l o := (next_number o, bat_text (bat_stage o) (line_num o + 1) l, false);
     t_eof o := if show_header (bat_stage o) && negb (footer_emitted o) then bat_footer else [] |}.

(** The numbered lines between the two rules. *)
Fixpoint bat_body (stage : StreamingBatStage) (n : Z) (ls : list str) : str :=
  match ls with [] => [] | l :: ls' => bat_text stage (n + 1) l ++ bat_body stage (n + 1) ls' end.

Definition bat_lines (stage : StreamingBatStage) (e : ending) (ls : list str) : str :=
  (if show_header stage then bat_header else []) ++ bat_body stage 0 ls ++
  match e with Eof => if show_header stage then bat_footer else [] | Fails _ => [] end.

Lemma run_bat o ls e : run bat_transducer o ls e =
  (bat_body (bat_stage o) (line_num o) ls ++ match e with Eof => t_eof bat_transducer o | Fails _ => [] end, e).
Proof.
  revert o. induction ls as [|l ls IH]; intros o; [done|]. cbn [run bat_transducer t_line bat_body].
  change {| t_line := _; t_eof := _ |} with bat_transducer. rewrite IH. cbn [next_number bat_stage line_num]. rewrite <-app_assoc. by destruct e.
Qed.

(** The header has been written, or there is none. *)
Definition header_done (o : BatState) : Prop := negb (show_header (bat_stage o)) || header_emitted o = true.

Lemma emit_header_done (c : Core BatState) : header_done (own c) -> emit_header c = c.
Proof. unfold header_done, emit_header. by intros ->. Qed.

Lemma bat_loop_done f n (s : BatStreamReader R) : header_done (own (core s)) -> (0 < n)%nat ->
  bat_loop f n s = read_loop pump_next_bat_line f n s.
Proof.
  intros HP Hn. revert s HP. induction f as [|f IH]; intros s HP; [done|]. cbn [bat_loop read_loop]. unfold mbind, comp_bind, get.
  destruct (decide (visible (core s) = [])) as [Hv|Hv].
  2: { destruct (take_output_spec n s) as (c' & c & -> & _ & _ & _ & Hnil); [lia|]. destruct c; [by destruct Hv; apply Hnil|done]. }
  rewrite take_output_empty by done. set (s1 := set_core _ s). destruct (finished (core s1)) eqn:Hfin; [done|].
  unfold on_core, modify. rewrite emit_header_done by done. change (set_core (core s1) s1) with s1. rewrite take_output_idle by done.
  destruct (pump_next_bat_line f s1) as [s2 [[]|e|w]] eqn:Hp; [|done..]. apply IH.
  revert Hp. unfold pump_next_bat_line, pump_line, mbind, comp_bind, next_line, zoom.
  destruct (streaming_read_next_line f (inner s1, input_pending s1)) as [b [[[line t]|]|e|w]]; [| |done..]; unfold on_core, modify; intros [= <-].
  - cbn. unfold bat_line. by case_split.
  - cbn. unfold emit_footer. by case_split.
Qed.

Lemma bat_handlers : line_handler bat_line bat_transducer header_done /\ eof_handler (fun c => set_finished (emit_footer c)) bat_transducer header_done.
Proof.
  split.
  - intros l [o p i fin] Hf HP. cbn in Hf. subst fin. split; [done|]. unfold bat_line, bat_transducer, bat_text. cbn.
    destruct (streaming_bat_in_range _ _); [done|]. by rewrite app_nil_r.
  - intros [o p i fin] HP. unfold emit_footer. cbn. destruct (show_header (bat_stage o)) eqn:Hs, (footer_emitted o) eqn:Hf; cbn.
    1, 3, 4: exists o; by rewrite app_nil_r.
    by eexists {| bat_stage := _; header_emitted := _; footer_emitted := true; line_num := _ |}.
Qed.

Lemma bat_closed : family_closed inner (line_hold (R := R) bat_transducer header_done).
Proof.
  intros S B HS. apply (line_stage_closed bat_line (fun c => set_finished (emit_footer c)) bat_transducer header_done S B HS pump_next_bat_line); [done|apply bat_handlers..|].
  intros s n x _ HP [f0 Hev]. exists f0. intros f Hle. rewrite <-(Hev f Hle). unfold read, bat_reader, bat_read, read_with.
  destruct (Nat.eqb_spec n 0); [done|]. apply bat_loop_done; [done|lia].
Qed.

(** A stage that has to write the header, and what it is then. *)
Definition bat_fresh (s : BatStreamReader R) : Prop := exists stage, core s = core (BatStreamReader_new (inner s) stage) /\ show_header stage = true /\ input_pending s = [].
Definition bat_start (s : BatStreamReader R) : BatStreamReader R := set_core (emit_header (core s)) s.

(** The first call writes the header before it reads a line. *)
Lemma bat_first_read s f n : bat_fresh s -> (0 < n)%nat -> read (S f) n s = read (S f) n (bat_start s).
Proof.
  destruct s as [r p c]. intros (stage & Hc & Hs & Hp) Hn. cbn in Hc, Hp. subst p c. unfold bat_start. set (s := {| inner := r |}).
  unfold read, bat_reader, bat_read. rewrite (proj2 (Nat.eqb_neq n 0)) by lia. cbn [bat_loop]. unfold mbind, comp_bind, get.
  rewrite (take_output_idle n s) by done. cbn [core s BatStreamReader_new Filter_new Core_new finished]. unfold on_core, modify.
  set (s1 := set_core _ _). destruct (take_output_spec n s1) as (c' & c & -> & _ & _ & _ & Hnil); [lia|].
  destruct c as [|b c]; [|done]. specialize (Hnil eq_refl). subst s1 s. revert Hnil. unfold emit_header. cbn. by rewrite Hs.
Qed.

Lemma bat_contract stage : keeps inner set_inner (fun r : R => BatStreamReader_new r stage) (fun inp e => Some (bat_lines stage e (lines e inp), e)).
Proof.
  exists (fun S s bs e => line_hold bat_transducer header_done S s bs e \/ (bat_fresh s /\ line_hold bat_transducer header_done S (bat_start s) bs e)). split; [|split].
  - apply (first_call_closed inner _ bat_fresh bat_start); [apply bat_closed|]. intros s Hs n f Hn. by apply bat_first_read.
  - intros S S' s r' bs e [Hs|[(st & Hc & Hsh & Hp) Hs]] Hr; [left; by apply (line_hold_stable _ _ S)|]. right. split; [by exists st|].
    by apply (line_hold_stable _ _ S S' (bat_start s)).
  - intros S r inp e out e' Hs [= <- <-]. set (s := BatStreamReader_new r stage). set (s1 := bat_start s).
    assert (HP : header_done (own (core s1))) by (subst s1 s; unfold header_done, bat_start, emit_header; cbn; by destruct (show_header stage) eqn:Hh; cbn; rewrite ?Hh).
    pose proof (line_stage_starts bat_transducer header_done S s1 inp e) as Hst. rewrite run_bat in Hst. cbn [fst snd] in Hst.
    assert (Hs1 : line_hold bat_transducer header_done S s1 (bat_lines stage e (lines e inp)) e).
    { replace (bat_lines stage e (lines e inp)) with (visible (core s1) ++ bat_body (bat_stage (own (core s1))) (line_num (own (core s1))) (lines e inp) ++
        match e with Eof => t_eof bat_transducer (own (core s1)) | Fails _ => [] end).
      - apply Hst; try done; subst s1 s; unfold bat_start, emit_header; cbn; destruct (show_header stage); cbn; try done; unfold core_ok; cbn; lia.
      - unfold bat_lines. subst s1 s. unfold bat_start, emit_header, bat_transducer. cbn. by destruct (show_header stage) eqn:Hh; cbn; rewrite ?Hh. }
    destruct (show_header stage) eqn:Hh; [right; split; [by exists stage|done]|]. left. replace s with s1; [done|]. subst s1 s. unfold bat_start, emit_header. cbn. by rewrite Hh.
Qed.
End bat.
