(* ===== verification/StreamBytes.v ===== *)
(** * Byte stages: tr, head, tail, wc, paste, column

    crates/wasmsh-runtime/src/streaming_tr.rs and the other readers of lib.rs.
    The stages that have an output buffer share the record [Filter]; those
    without an input buffer leave [input_pending] empty. *)

From S2P Require Import Prelude Strings Utf8 Stream.

(** ** tr *)

Record StreamingTrStage := {
  tr_delete : bool;
  squeeze : bool;
  tr_complement : bool;
  from_chars : list Z;
  to_chars : list Z;
}.

Record TrState := {
  tr_stage : StreamingTrStage;
  tr_prev : option Z;
}.

(** [str::from_utf8]: the characters of the longest valid prefix, and the rest. *)
Fixpoint valid_prefix_loop (fuel : nat) (s : str) : list Z * str :=
  match fuel with
  | O => ([], s)
  | S f =>
      match s, decode_first s with
      | _ :: _, Uchar c rest => let '(cs, r) := valid_prefix_loop f rest in (c :: cs, r)
      | _, _ => ([], s)
      end
  end.

Definition valid_prefix (s : str) : list Z * str := valid_prefix_loop (length s) s.

(** What is left pending, the characters passed on, and whether to go on. *)
Definition streaming_tr_consume_invalid_prefix (pending : str) (cs : list Z) (rest : str) : str * list Z * bool :=
  match cs with
  | _ :: _ => (rest, cs, true)
  | [] =>
      match decode_first pending with
      | Uinvalid _ => (drop 1 pending, lossy_chars (take 1 pending), true)
      | _ => (pending, [], false)
      end
  end.

Definition streaming_tr_drain_once (pending : str) : str * list Z * bool :=
  let '(cs, rest) := valid_prefix pending in
  match rest with
  | [] => ([], cs, false)
  | _ => streaming_tr_consume_invalid_prefix pending cs rest
  end.

Fixpoint drain_loop (fuel : nat) (pending : str) (chars : list Z) : str * list Z :=
  match fuel with
  | O => (pending, chars)
  | S f =>
      let '(pending, cs, more) := streaming_tr_drain_once pending in
      if (more : bool) then drain_loop f pending (chars ++ cs) else (pending, chars ++ cs)
  end.

(** Every round that goes on takes a byte or more. *)
Definition streaming_tr_process_utf8_chunk (pending chunk : str) : str * list Z :=
  let pending := pending ++ chunk in drain_loop (S (length pending)) pending [].

Definition streaming_tr_flush_pending_lossy (pending : str) : list Z := lossy_chars pending.

Definition TrStreamReader (R : Type) : Type := Filter R TrState.
Definition TrStreamReader_new {R} (r : R) (stage : StreamingTrStage) : TrStreamReader R :=
  Filter_new r {| tr_stage := stage; tr_prev := None |}.

Definition char_in (c : Z) (cs : list Z) : bool := existsb (Z.eqb c) cs.
Definition is_prev (o : TrState) (c : Z) : bool := match tr_prev o with Some p => p =? c | None => false end.

Definition emit_char (ch : Z) (c : Core TrState) : Core TrState :=
  emit (encode ch) (set_own {| tr_stage := tr_stage (own c); tr_prev := Some ch |} c).

Definition is_in_from_set (stage : StreamingTrStage) (ch : Z) : bool :=
  let in_set := char_in ch (from_chars stage) in if tr_complement stage then negb in_set else in_set.

Definition process_char_delete (ch : Z) (c : Core TrState) : Core TrState :=
  let stage := tr_stage (own c) in
  if is_in_from_set stage ch then c
  else if squeeze stage && char_in ch (to_chars stage) && is_prev (own c) ch then c
  else emit_char ch c.

(** [iter().position(..)]. *)
Fixpoint position (c : Z) (cs : list Z) : option nat :=
  match cs with
  | [] => None
  | d :: cs' => if d =? c then Some 0%nat else S <$> position c cs'
  end.

Definition ascii_codes : list Z := map Z.of_nat (seq 0 128).

Definition translate (stage : StreamingTrStage) (ch : Z) : Z :=
  let from_set := if tr_complement stage then List.filter (fun c => negb (char_in c (from_chars stage))) ascii_codes else from_chars stage in
  default ch (pos ← position ch from_set; match to_chars stage !! pos with Some c => Some c | None => last (to_chars stage) end).

Definition process_char_translate (ch : Z) (c : Core TrState) : Core TrState :=
  let stage := tr_stage (own c) in
  let translated := translate stage ch in
  if squeeze stage && char_in translated (to_chars stage) && is_prev (own c) translated then c
  else emit_char translated c.

Definition process_char (c : Core TrState) (ch : Z) : Core TrState :=
  let stage := tr_stage (own c) in
  if tr_delete stage then process_char_delete ch c
  else if squeeze stage && (match to_chars stage with [] => true | _ => false end) then
    if char_in ch (from_chars stage) && is_prev (own c) ch then c else emit_char ch c
  else process_char_translate ch c.

Section tr.
Context {R : Type} `{Reader R}.

Definition tr_step (fuel : nat) : comp (TrStreamReader R) io_stop unit :=
  scratch ← read_inner fuel SCRATCH;
  s ← get;
  match scratch with
  | [] =>
      let chars := streaming_tr_flush_pending_lossy (input_pending s) in
      _ ← modify (set_input (inner s, []));
      on_core (fun c => set_finished (fold_left process_char chars c))
  | _ =>
      let '(pending, chars) := streaming_tr_process_utf8_chunk (input_pending s) scratch in
      _ ← modify (set_input (inner s, pending));
      on_core (fun c => fold_left process_char chars c)
  end.

Definition tr_read : nat -> nat -> comp (TrStreamReader R) io_stop str := read_with tr_step.
End tr.

#[export] Instance tr_reader {R} `{Reader R} : Reader (TrStreamReader R) := tr_read.

(** *** Character sets *)

Fixpoint code_range (n : nat) (c : Z) : list Z :=
  match n with
  | O => []
  | S k => if is_scalar c then c :: code_range k (c + 1) else code_range k (c + 1)
  end.

(** [a..=b] on characters. *)
Definition char_range (a b : Z) : list Z := code_range (Z.to_nat (b - a + 1)) a.

Definition code (c : byte) : Z := byte_val c.

Definition streaming_tr_expand_posix_class (class_name : list Z) : list Z :=
  let named s := bool_decide (class_name = lossy_chars s) in
  if named #"upper" then char_range (code "A") (code "Z")
  else if named #"lower" then char_range (code "a") (code "z")
  else if named #"digit" then char_range (code "0") (code "9")
  else if named #"alpha" then char_range (code "A") (code "Z") ++ char_range (code "a") (code "z")
  else if named #"alnum" then char_range (code "0") (code "9") ++ char_range (code "A") (code "Z") ++ char_range (code "a") (code "z")
  else if named #"space" then [32; 9; 10; 13; 11; 12]
  else if named #"blank" then [32; 9]
  else if named #"punct" then char_range 33 47 ++ char_range 58 64 ++ char_range 91 96 ++ char_range 123 126
  else [].

(** [take_while(|c| c != ':')] also consumes the colon it stops at. *)
Fixpoint take_until_colon (cs : list Z) : list Z * list Z :=
  match cs with
  | [] => ([], [])
  | c :: cs' => if c =? code ":" then ([], cs') else let '(a, b) := take_until_colon cs' in (c :: a, b)
  end.

Definition streaming_tr_unescape (iter : list Z) : Z * list Z :=
  match iter with
  | [] => (code "\", [])
  | c :: iter' =>
      (if c =? code "n" then 10 else if c =? code "t" then 9 else if c =? code "r" then 13 else c, iter')
  end.

(** [iter] starts at the dash. *)
Definition streaming_tr_expand_range (ch : Z) (iter : list Z) : list Z * list Z :=
  match tl iter with
  | end_ch :: iter' => if ch <? end_ch then (char_range ch end_ch, iter') else ([ch; code "-"], end_ch :: iter')
  | [] => ([ch; code "-"], [])
  end.

Fixpoint expand_set_loop (fuel : nat) (iter : list Z) : list Z :=
  match fuel, iter with
  | S f, ch :: iter =>
      match iter with
      | c :: iter' =>
          if (ch =? code "[") && (c =? code ":") then
            let '(class_name, rest) := take_until_colon iter' in
            streaming_tr_expand_posix_class class_name ++ expand_set_loop f (tl rest)
          else if c =? code "-" then
            let '(chars, rest) := streaming_tr_expand_range ch iter in chars ++ expand_set_loop f rest
          else if ch =? code "\" then let '(c', rest) := streaming_tr_unescape iter in c' :: expand_set_loop f rest
          else ch :: expand_set_loop f iter
      | [] => if ch =? code "\" then let '(c', rest) := streaming_tr_unescape iter in c' :: expand_set_loop f rest else [ch]
      end
  | _, _ => []
  end.

Definition streaming_tr_expand_set (s : str) : list Z := let cs := lossy_chars s in expand_set_loop (length cs) cs.

(** ** head *)

Inductive StreamingHeadMode :=
  | HeadLines (limit : Z)
  | HeadBytes (limit : Z).

(** The buffer of the struct stays empty: bytes go straight to the caller. *)
Record HeadStreamReader (R : Type) := {
  head_inner : R;
  head_mode : StreamingHeadMode;
  head_finished : bool;
  head_pending : list Ascii.ascii;
  head_pending_offset : nat;
  lines_seen : Z;
}.
Arguments head_inner {R} _.
Arguments head_mode {R} _.
Arguments head_finished {R} _.
Arguments head_pending {R} _.
Arguments head_pending_offset {R} _.
Arguments lines_seen {R} _.

Definition HeadStreamReader_new {R} (r : R) (mode : StreamingHeadMode) : HeadStreamReader R :=
  {| head_inner := r; head_mode := mode; head_finished := false; head_pending := []; head_pending_offset := 0; lines_seen := 0 |}.

Definition set_head {R} (s : HeadStreamReader R) (r : R) (mode : StreamingHeadMode) (fin : bool) (seen : Z) : HeadStreamReader R :=
  {| head_inner := r; head_mode := mode; head_finished := fin; head_pending := head_pending s;
     head_pending_offset := head_pending_offset s; lines_seen := seen |}.

Inductive HeadLinesStep :=
  | Produced (b : Ascii.ascii)
  | EofBreak
  | WouldBlockYield.

Section head.
Context {R : Type} `{Reader R}.

Definition take_from_pending (n : nat) : comp (HeadStreamReader R) io_stop str := fun s =>
  let '(p, i, c) := take_pending_output (head_pending s) (head_pending_offset s) n in
  ({| head_inner := head_inner s; head_mode := head_mode s; head_finished := head_finished s; head_pending := p;
      head_pending_offset := i; lines_seen := lines_seen s |}, Ok c).

Definition read_bytes_mode (fuel n : nat) (remaining : Z) : comp (HeadStreamReader R) io_stop str := fun s =>
  if remaining =? 0 then (set_head s (head_inner s) (head_mode s) true (lines_seen s), Ok [])
  else
    let to_read := Z.to_nat (Z.min remaining (Z.of_nat n)) in
    match read fuel to_read (head_inner s) with
    | (r, Ok c) =>
        let remaining := sat_sub remaining (len c) in
        let fin := (match c with [] => true | _ => false end) || (remaining =? 0) in
        (set_head s r (HeadBytes remaining) (head_finished s || fin) (lines_seen s), Ok c)
    | (r, Err e) => (set_head s r (head_mode s) (head_finished s) (lines_seen s), Err e)
    | (r, Panic w) => (set_head s r (head_mode s) (head_finished s) (lines_seen s), Panic w)
    end.

Definition read_one_line_byte (fuel : nat) (produced : bool) : comp (HeadStreamReader R) io_stop HeadLinesStep := fun s =>
  match read fuel 1 (head_inner s) with
  | (r, Ok (b :: _)) =>
      (set_head s r (head_mode s) (head_finished s) (if decide (b = newline) then lines_seen s + 1 else lines_seen s), Ok (Produced b))
  | (r, Ok []) => (set_head s r (head_mode s) true (lines_seen s), Ok EofBreak)
  | (r, Err (IoError WouldBlock)) =>
      (set_head s r (head_mode s) (head_finished s) (lines_seen s), if produced then Ok WouldBlockYield else Err (IoError WouldBlock))
  | (r, Err e) => (set_head s r (head_mode s) (head_finished s) (lines_seen s), Err e)
  | (r, Panic w) => (set_head s r (head_mode s) (head_finished s) (lines_seen s), Panic w)
  end.

Definition finish_if_seen (limit : Z) : comp (HeadStreamReader R) io_stop unit :=
  modify (fun s => if limit <=? lines_seen s then set_head s (head_inner s) (head_mode s) true (lines_seen s) else s).

(** The loop of [read_lines_mode] with room for [room] more bytes. *)
Fixpoint head_lines_loop (fuel room : nat) (limit : Z) (out : str) : comp (HeadStreamReader R) io_stop str :=
  match room with
  | O => _ ← finish_if_seen limit; mret out
  | S k =>
      s ← get;
      if lines_seen s <? limit then
        x ← read_one_line_byte fuel (match out with [] => false | _ => true end);
        match x with
        | Produced b => head_lines_loop fuel k limit (out ++ [b])
        | EofBreak => _ ← finish_if_seen limit; mret out
        | WouldBlockYield => mret out
        end
      else _ ← finish_if_seen limit; mret out
  end.

Definition read_lines_mode (fuel n : nat) (limit : Z) : comp (HeadStreamReader R) io_stop str :=
  s ← get;
  if limit <=? lines_seen s then _ ← put (set_head s (head_inner s) (head_mode s) true (lines_seen s)); mret []
  else head_lines_loop fuel n limit [].

Definition head_read (fuel n : nat) : comp (HeadStreamReader R) io_stop str :=
  if (n =? 0)%nat then mret []
  else
    copied ← take_from_pending n;
    match copied with
    | _ :: _ => mret copied
    | [] =>
        s ← get;
        if head_finished s then mret []
        else match head_mode s with
             | HeadBytes remaining => read_bytes_mode fuel n remaining
             | HeadLines limit => read_lines_mode fuel n limit
             end
    end.
End head.

#[export] Instance head_reader {R} `{Reader R} : Reader (HeadStreamReader R) := head_read.

(** ** tail *)

Inductive StreamingTailMode :=
  | TailLines (limit : Z)
  | TailBytes (limit : Z).

Record TailState := {
  tail_mode : StreamingTailMode;
  byte_ring : list Ascii.ascii;
  line_ring : list (list Ascii.ascii);
  current_line : list Ascii.ascii;
}.

Definition TailStreamReader (R : Type) : Type := Filter R TailState.
Definition TailStreamReader_new {R} (r : R) (mode : StreamingTailMode) : TailStreamReader R :=
  Filter_new r {| tail_mode := mode; byte_ring := []; line_ring := []; current_line := [] |}.

(** [VecDeque]: drop the oldest entry when the ring is full. *)
Definition push_ring {A} (limit : Z) (x : A) (ring : list A) : list A :=
  if limit =? 0 then ring else (if len ring =? limit then tl ring else ring) ++ [x].

Definition push_tail_byte (b : byte) (o : TailState) : TailState :=
  match tail_mode o with
  | TailBytes limit => {| tail_mode := tail_mode o; byte_ring := push_ring limit b (byte_ring o); line_ring := line_ring o; current_line := current_line o |}
  | TailLines _ => o
  end.

Definition push_tail_line (line : str) (o : TailState) : TailState :=
  match tail_mode o with
  | TailLines limit => {| tail_mode := tail_mode o; byte_ring := byte_ring o; line_ring := push_ring limit line (line_ring o); current_line := current_line o |}
  | TailBytes _ => o
  end.

Definition set_current_line (l : str) (o : TailState) : TailState :=
  {| tail_mode := tail_mode o; byte_ring := byte_ring o; line_ring := line_ring o; current_line := l |}.

Definition tail_byte (o : TailState) (b : byte) : TailState :=
  match tail_mode o with
  | TailBytes _ => push_tail_byte b o
  | TailLines _ =>
      if decide (b = newline) then push_tail_line (current_line o) (set_current_line [] o)
      else set_current_line (current_line o ++ [b]) o
  end.

Definition tail_process_chunk (chunk : str) (o : TailState) : TailState := fold_left tail_byte chunk o.

Definition finalize_output (c : Core TailState) : Core TailState :=
  if finished c then c
  else
    let o := own c in
    set_finished (match tail_mode o with
      | TailBytes _ =>
          emit (byte_ring o) (set_own {| tail_mode := tail_mode o; byte_ring := []; line_ring := line_ring o; current_line := current_line o |} c)
      | TailLines _ =>
          let o := match current_line o with [] => o | l => push_tail_line l (set_current_line [] o) end in
          emit (concat (map (fun l => l ++ [newline]) (line_ring o)))
            (set_own {| tail_mode := tail_mode o; byte_ring := byte_ring o; line_ring := []; current_line := current_line o |} c)
      end).

Section tail.
Context {R : Type} `{Reader R}.

Fixpoint tail_loop (fuel n : nat) : comp (TailStreamReader R) io_stop str :=
  match fuel with
  | O => throw OutOfFuel
  | S f =>
      scratch ← read_inner f SCRATCH;
      match scratch with
      | [] => _ ← on_core finalize_output; take_output n
      | _ => _ ← on_core (fun c => set_own (tail_process_chunk scratch (own c)) c); tail_loop f n
      end
  end.

Definition tail_read (fuel n : nat) : comp (TailStreamReader R) io_stop str :=
  if (n =? 0)%nat then mret []
  else
    copied ← take_output n;
    match copied with
    | _ :: _ => mret copied
    | [] => s ← get; if finished (core s) then mret [] else tail_loop fuel n
    end.
End tail.

#[export] Instance tail_reader {R} `{Reader R} : Reader (TailStreamReader R) := tail_read.

(** ** wc *)

Record StreamingWcFlags := {
  wc_lines : bool;
  wc_words : bool;
  wc_bytes : bool;
  wc_max_line_length : bool;
}.

Record WcCounts := {
  n_lines : Z;
  n_words : Z;
  n_bytes : Z;
  max_line_length : Z;
  current_line_length : Z;
  in_word : bool;
  saw_input : bool;
  wc_ended_with_newline : bool;
}.

Record WcStreamReader (R : Type) := {
  wc_inner : R;
  wc_flags : StreamingWcFlags;
  summary : list Ascii.ascii;
  summary_offset : nat;
  wc_finalized : bool;
  counts : WcCounts;
}.
Arguments wc_inner {R} _.
Arguments wc_flags {R} _.
Arguments summary {R} _.
Arguments summary_offset {R} _.
Arguments wc_finalized {R} _.
Arguments counts {R} _.

Definition no_counts : WcCounts :=
  {| n_lines := 0; n_words := 0; n_bytes := 0; max_line_length := 0; current_line_length := 0; in_word := false;
     saw_input := false; wc_ended_with_newline := false |}.

Definition WcStreamReader_new {R} (r : R) (fl : StreamingWcFlags) : WcStreamReader R :=
  {| wc_inner := r; wc_flags := fl; summary := []; summary_offset := 0; wc_finalized := false; counts := no_counts |}.

(** [u8::is_ascii_whitespace]: no vertical tab. *)
Definition is_ascii_whitespace (b : byte) : bool :=
  let v := byte_val b in (v =? 32) || (v =? 9) || (v =? 10) || (v =? 12) || (v =? 13).

Section wc.
Context `{Target}.

Definition wc_byte (c : WcCounts) (b : byte) : WcCounts :=
  let ws := is_ascii_whitespace b in
  let words := if negb ws && negb (in_word c) then wrap_add usize_max (n_words c) 1 else n_words c in
  if decide (b = newline) then
    {| n_lines := wrap_add usize_max (n_lines c) 1; n_words := words; n_bytes := n_bytes c;
       max_line_length := Z.max (max_line_length c) (current_line_length c); current_line_length := 0; in_word := negb ws;
       saw_input := saw_input c; wc_ended_with_newline := true |}
  else
    {| n_lines := n_lines c; n_words := words; n_bytes := n_bytes c; max_line_length := max_line_length c;
       current_line_length := wrap_add usize_max (current_line_length c) 1; in_word := negb ws;
       saw_input := saw_input c; wc_ended_with_newline := false |}.

Definition wc_process_chunk (chunk : str) (c : WcCounts) : WcCounts :=
  match chunk with
  | [] => c
  | _ =>
      fold_left wc_byte chunk
        {| n_lines := n_lines c; n_words := n_words c; n_bytes := wrap_add usize_max (n_bytes c) (len chunk);
           max_line_length := max_line_length c; current_line_length := current_line_length c; in_word := in_word c;
           saw_input := true; wc_ended_with_newline := wc_ended_with_newline c |}
  end.
End wc.

(** The digits of [v], counted by dividing: [n] digits so far. *)
Fixpoint count_digits (fuel : nat) (value n : Z) : Z :=
  match fuel with
  | O => n
  | S f => if 10 <=? value then count_digits f (value / 10) (n + 1) else n
  end.

Definition wc_digits (v : Z) : Z := count_digits (S (Z.to_nat (Z.log2 v))) v 1.

(** The selected columns in order. *)
Definition wc_columns (fl : StreamingWcFlags) (c : WcCounts) : list Z :=
  (if wc_lines fl then [n_lines c] else []) ++ (if wc_words fl then [n_words c] else []) ++
  (if wc_bytes fl then [n_bytes c] else []) ++ (if wc_max_line_length fl then [max_line_length c] else []).

Definition wc_width (columns : list Z) : Z :=
  if (1 <? length columns)%nat then Z.max (fold_left (fun d v => Z.max d (wc_digits v)) columns 1) 7 else 1.

Definition wc_summary (fl : StreamingWcFlags) (c : WcCounts) : str :=
  let columns := wc_columns fl c in
  let width := wc_width columns in
  join #" " (map (fun n => repeat " "%char (Z.to_nat width - length (Z_to_string n)) ++ Z_to_string n) columns) ++ [newline].

(** An unterminated last line counts for the maximal length, not as a line. *)
Definition wc_close (c : WcCounts) : WcCounts :=
  if saw_input c && negb (wc_ended_with_newline c) then
    {| n_lines := n_lines c; n_words := n_words c; n_bytes := n_bytes c;
       max_line_length := Z.max (max_line_length c) (current_line_length c); current_line_length := current_line_length c;
       in_word := in_word c; saw_input := saw_input c; wc_ended_with_newline := wc_ended_with_newline c |}
  else c.

Section wc_read.
Context `{Target} {R : Type} `{Reader R}.

Definition set_counts (c : WcCounts) (s : WcStreamReader R) : WcStreamReader R :=
  {| wc_inner := wc_inner s; wc_flags := wc_flags s; summary := summary s; summary_offset := summary_offset s;
     wc_finalized := wc_finalized s; counts := c |}.
Definition set_wc_inner (r : R) (s : WcStreamReader R) : WcStreamReader R :=
  {| wc_inner := r; wc_flags := wc_flags s; summary := summary s; summary_offset := summary_offset s;
     wc_finalized := wc_finalized s; counts := counts s |}.

Definition take_summary (n : nat) : comp (WcStreamReader R) io_stop str := fun s =>
  if (length (summary s) <=? summary_offset s)%nat then (s, Ok [])
  else
    let remaining := drop (summary_offset s) (summary s) in
    let to_copy := Nat.min (length remaining) n in
    ({| wc_inner := wc_inner s; wc_flags := wc_flags s; summary := summary s; summary_offset := summary_offset s + to_copy;
        wc_finalized := wc_finalized s; counts := counts s |}, Ok (take to_copy remaining)).

Definition finalize_summary (s : WcStreamReader R) : WcStreamReader R :=
  if wc_finalized s then s
  else
    let c := wc_close (counts s) in
    {| wc_inner := wc_inner s; wc_flags := wc_flags s; summary := wc_summary (wc_flags s) c; summary_offset := summary_offset s;
       wc_finalized := true; counts := c |}.

Fixpoint wc_loop (fuel n : nat) : comp (WcStreamReader R) io_stop str :=
  match fuel with
  | O => throw OutOfFuel
  | S f =>
      scratch ← zoom wc_inner set_wc_inner (read f SCRATCH);
      match scratch with
      | [] => _ ← modify finalize_summary; take_summary n
      | _ => _ ← modify (fun s => set_counts (wc_process_chunk scratch (counts s)) s); wc_loop f n
      end
  end.

Definition wc_read (fuel n : nat) : comp (WcStreamReader R) io_stop str :=
  if (n =? 0)%nat then mret []
  else
    copied ← take_summary n;
    match copied with
    | _ :: _ => mret copied
    | [] => s ← get; if wc_finalized s then mret [] else wc_loop fuel n
    end.
End wc_read.

#[export] Instance wc_reader `{Target} {R} `{Reader R} : Reader (WcStreamReader R) := wc_read.

(** ** paste and column *)

Record StreamingPasteStage := {
  delimiter : list Ascii.ascii;
  serial : bool;
}.

Record PasteState := {
  paste_stage : StreamingPasteStage;
  ended_with_newline : bool;
  serial_first : bool;
}.

Definition PasteStreamReader (R : Type) : Type := Filter R PasteState.
Definition PasteStreamReader_new {R} (r : R) (stage : StreamingPasteStage) : PasteStreamReader R :=
  Filter_new r {| paste_stage := stage; ended_with_newline := true; serial_first := true |}.

Definition ends_in_newline (s : str) : bool := match last s with Some b => bool_decide (b = newline) | None => false end.

(** One line of the loop of [finalize_serial]. *)
Definition paste_line (line : str) (c : Core PasteState) : Core PasteState :=
  let o := own c in
  let c := if serial_first o then c else emit (delimiter (paste_stage o)) c in
  set_own {| paste_stage := paste_stage o; ended_with_newline := ended_with_newline o; serial_first := false |} (emit line c).

Section paste.
Context {R : Type} `{Reader R}.

Fixpoint finalize_serial (fuel : nat) : comp (PasteStreamReader R) io_stop unit :=
  match fuel with
  | O => throw OutOfFuel
  | S f =>
      l ← next_line f;
      match l with
      | Some (line, _) => _ ← on_core (paste_line line); finalize_serial f
      | None => on_core (emit [newline])
      end
  end.

Definition paste_step (fuel : nat) : comp (PasteStreamReader R) io_stop unit :=
  s ← get;
  if serial (paste_stage (own (core s))) then _ ← finalize_serial fuel; on_core set_finished
  else
    scratch ← read_inner fuel SCRATCH;
    match scratch with
    | [] => on_core (fun c => set_finished (if ended_with_newline (own c) then c else emit [newline] c))
    | _ => on_core (fun c =>
        let o := own c in
        emit scratch (set_own {| paste_stage := paste_stage o; ended_with_newline := ends_in_newline scratch; serial_first := serial_first o |} c))
    end.

Definition paste_read : nat -> nat -> comp (PasteStreamReader R) io_stop str := read_with paste_step.
End paste.

#[export] Instance paste_reader {R} `{Reader R} : Reader (PasteStreamReader R) := paste_read.

(** The only field of its own is [ended_with_newline]. *)
Definition ColumnStreamReader (R : Type) : Type := Filter R bool.
Definition ColumnStreamReader_new {R} (r : R) : ColumnStreamReader R := Filter_new r true.

Section column.
Context {R : Type} `{Reader R}.

Definition column_step (fuel : nat) : comp (ColumnStreamReader R) io_stop unit :=
  scratch ← read_inner fuel SCRATCH;
  match scratch with
  | [] => on_core (fun c : Core bool => set_finished (if own c then c else emit [newline] c))
  | _ => on_core (fun c : Core bool => emit scratch (set_own (ends_in_newline scratch) c))
  end.

Definition column_read : nat -> nat -> comp (ColumnStreamReader R) io_stop str := read_with column_step.
End column.

#[export] Instance column_reader {R} `{Reader R} : Reader (ColumnStreamReader R) := column_read.
