(* ===== verification/StreamBytesProps.v ===== *)
(** * Byte stages: what they deliver

    As for the line stages: each serves a function of its whole input, the same
    for every way the input is cut into chunks. *)

From S2P Require Import Prelude Strings Utf8 Stream StreamProps StreamBytes.

(** ** Stages that handle one chunk at a time *)

Section chunk_stage.
Context {R Own : Type} `{Reader R}.
Context (step : nat -> comp (Filter R Own) io_stop unit).
(** What the stage does with a chunk, the empty one being the end. *)
Context (handle : list Ascii.ascii -> Filter R Own -> Filter R Own).
(** What is still to come from a state, an input buffer and the rest of the input. *)
Context (future : Own -> list Ascii.ascii -> list Ascii.ascii -> ending -> list Ascii.ascii).
Context (P : Own -> list Ascii.ascii -> Prop).

Context (Hstep : forall f s, P (own (core s)) (input_pending s) -> step f s = match read_inner f SCRATCH s with
  | (s', Ok c) => (handle c s', Ok tt) | (s', Err e) => (s', Err e) | (s', Panic w) => (s', Panic w) end).

(** The stage after adding [add] to its output. *)
Definition moved (s : Filter R Own) (o : Own) (p add : str) (fin : bool) : Filter R Own :=
  {| inner := inner s; input_pending := p;
     core := {| own := o; output_pending := output_pending (core s) ++ add; output_offset := output_offset (core s); finished := fin |} |}.

Context (Hchunk : forall c s, c <> [] -> P (own (core s)) (input_pending s) -> finished (core s) = false -> exists o p add, P o p /\ handle c s = moved s o p add false /\
  forall rest e, future (own (core s)) (input_pending s) (c ++ rest) e = add ++ future o p rest e).
Context (Hend : forall s, P (own (core s)) (input_pending s) -> finished (core s) = false -> exists o p, P o p /\
  handle [] s = moved s o p (future (own (core s)) (input_pending s) [] Eof) true).
Context (Hfail : forall o p k, P o p -> future o p [] (Fails k) = []).
Context (Sin : R -> list Ascii.ascii -> ending -> Prop) (B : R -> Prop) (Hin : closed Sin B).

Definition chunk_inv (k : nat) (s : Filter R Own) (out : str) (e : ending) : Prop := core_ok (core s) /\ P (own (core s)) (input_pending s) /\
  if finished (core s) then out = [] /\ e = Eof
  else exists rest, Sin (inner s) rest e /\ out = future (own (core s)) (input_pending s) rest e /\ (length rest < k)%nat.

Lemma moved_visible s o p add fin : core_ok (core s) -> visible (core (moved s o p add fin)) = visible (core s) ++ add.
Proof. apply visible_emit. Qed.

Lemma moved_ok s o p add fin : core_ok (core s) -> core_ok (core (moved s o p add fin)).
Proof. apply core_ok_emit. Qed.

Lemma chunk_step k s out e : chunk_inv k s out e -> finished (core s) = false -> visible (core s) = [] ->
  exists s' x, eventually (fun f => step f s) (s', x) /\ steps_to chunk_inv B k s' out e x.
Proof.
  intros (Hok & HP & Hinv) Hfin Hv. rewrite Hfin in Hinv. destruct Hinv as (rest & Hs & -> & Hk).
  destruct (Hin _ _ _ SCRATCH Hs ltac:(unfold SCRATCH; lia)) as (r' & out & [f0 Hev] & Hrep).
  assert (Hgo : eventually (fun f => step f s) (match out with Ok c => (handle c (set_inner r' s), Ok tt) | Err e => (set_inner r' s, Err e) | Panic w => (set_inner r' s, Panic w) end)).
  { exists f0. intros f Hle. rewrite Hstep by done. unfold read_inner, zoom. rewrite Hev by done. by destruct out. }
  destruct out as [[|b c]|[[| |code]|]|]; cbn [reply] in Hrep; try done.
  - destruct Hrep as (-> & -> & Hr'). destruct (Hend (set_inner r' s)) as (o & p & Ho & Hh); [done..|]. eexists _, _. split; [exact Hgo|].
    rewrite Hh. cbn [steps_to]. exists 0%nat, []. rewrite moved_visible, app_nil_r by done. cbn [core set_inner]. rewrite Hv. split; [done|].
    split; [|done]. split; [by apply moved_ok|done].
  - destruct Hrep as (_ & rest' & -> & Hr'). destruct (Hchunk (b :: c) (set_inner r' s)) as (o & p & add & Ho & Hh & Hfut); [done..|].
    eexists _, _. split; [exact Hgo|]. rewrite Hh. cbn [steps_to]. exists (length ((b :: c) ++ rest')), (future o p rest' e).
    rewrite moved_visible by done. cbn [core set_inner]. rewrite Hv. split; [apply Hfut|]. split; [|done].
    split; [by apply moved_ok|]. split; [done|]. cbn [moved core finished]. exists rest'. split_and!; [done|done|]. rewrite length_app. cbn. lia.
  - eexists _, _. split; [exact Hgo|]. cbn [steps_to]. exists k, (future (own (core s)) (input_pending s) rest e). cbn. rewrite Hv.
    destruct Hrep as [Hrep Hb]. split; [done|]. split; [|done]. split; [done|]. split; [done|]. cbn. rewrite Hfin. by exists rest.
  - destruct Hrep as (-> & -> & Hr'). eexists _, _. split; [exact Hgo|]. cbn [steps_to]. rewrite Hfail by done. split_and!; [done..|]. exists k.
    split; [done|]. split; [done|]. cbn. rewrite Hfin. exists []. by rewrite Hfail.
  - destruct Hrep as (-> & -> & Hr'). eexists _, _. split; [exact Hgo|]. cbn [steps_to]. rewrite Hfail by done. split_and!; [done..|]. exists k.
    split; [done|]. split; [done|]. cbn. rewrite Hfin. exists []. by rewrite Hfail.
Qed.

Lemma chunk_stage_closed `{HF : Reader (Filter R Own)} : (forall f n s, read f n s = read_with step f n s) -> closed (holds chunk_inv) (fun s => B (inner s)).
Proof.
  intros Hread s bs e0 n (k & out & -> & Hinv) Hn.
  destruct (read_with_spec step chunk_inv B) with (k := k) (s := s) (out := out) (e := e0) (n := n) as (s' & x & [f0 Hev] & Hrep); [| | |done|done|].
  - intros k1 s1 out1 e1 c (Hok & Hp & Hi) (Ho & Hf & Hok'). split; [done|]. cbn. by rewrite <-Ho, <-Hf.
  - intros k1 s1 out1 e1 (_ & _ & Hi) Hf. by rewrite Hf in Hi.
  - apply chunk_step.
  - exists s', x. split; [|done]. exists f0. intros f Hle. by rewrite Hread, Hev.
Qed.
End chunk_stage.

Lemma chunk_stage_keeps {R Own} `{Reader R} `{Reader (Filter R Own)} step handle (future : Own -> str -> str -> ending -> str) (P : Own -> str -> Prop) o :
  (forall f s, P (own (core s)) (input_pending s) -> step f s = match read_inner f SCRATCH s with
    | (s', Ok c) => (handle c s', Ok tt) | (s', Err e) => (s', Err e) | (s', Panic w) => (s', Panic w) end) ->
  (forall c (s : Filter R Own), c <> [] -> P (own (core s)) (input_pending s) -> finished (core s) = false -> exists o p add, P o p /\ handle c s = moved s o p add false /\
    forall rest e, future (own (core s)) (input_pending s) (c ++ rest) e = add ++ future o p rest e) ->
  (forall s, P (own (core s)) (input_pending s) -> finished (core s) = false -> exists o p, P o p /\
    handle [] s = moved s o p (future (own (core s)) (input_pending s) [] Eof) true) ->
  (forall o p k, P o p -> future o p [] (Fails k) = []) ->
  (forall f n s, read f n s = read_with step f n s) -> P o [] ->
  keeps inner set_inner (fun r => Filter_new r o) (fun inp e => Some (future o [] inp e, e)).
Proof.
  intros Hstep Hchunk Hend Hfail Hread HP. exists (fun S => holds (chunk_inv future P S)). split; [|split].
  - intros S B HS. by apply (chunk_stage_closed step handle future P Hstep Hchunk Hend Hfail S B HS).
  - intros S S' s r' bs e (k & out & -> & Hok & Hp & Hi) Hr. exists k, out. split; [done|]. split; [done|]. split; [done|]. cbn.
    destruct (finished (core s)); [done|]. destruct Hi as (rest & Hs & Hi). exists rest. split; [by apply Hr|done].
  - intros S r inp e out e' Hs [= <- <-]. exists (Datatypes.S (length inp)), (future o [] inp e). split; [done|].
    split; [unfold core_ok; cbn; lia|]. split; [done|]. cbn. exists inp. split_and!; [done|done|lia].
Qed.

(** ** paste (parallel) and column: the input, ended by a newline *)

(** [ended]: the bytes passed on so far end in a newline (or there are none). *)
Definition completed (ended : bool) (s : str) (e : ending) : str :=
  s ++ match e with
       | Eof => if (match s with [] => ended | _ => ends_in_newline s end) then [] else [newline]
       | Fails _ => []
       end.

Lemma ends_in_newline_app c s : s <> [] -> ends_in_newline (c ++ s) = ends_in_newline s.
Proof. intros Hs. unfold ends_in_newline. by rewrite last_app; destruct (last s) eqn:Hl; [|apply last_None in Hl]. Qed.

Lemma completed_app ended c s e : c <> [] -> completed ended (c ++ s) e = c ++ completed (ends_in_newline c) s e.
Proof.
  intros Hc. unfold completed. rewrite <-app_assoc. do 2 f_equal. destruct e; [|done]. destruct s as [|b s].
  - rewrite app_nil_r. by destruct c.
  - rewrite ends_in_newline_app by done. by destruct c.
Qed.

Section copies.
Context {R : Type} `{Reader R}.

Lemma column_contract : keeps inner set_inner (fun r : R => ColumnStreamReader_new r) (fun inp e => Some (completed true inp e, e)).
Proof.
  apply (chunk_stage_keeps column_step (fun c s => match c with
    | [] => set_core (set_finished (if own (core s) then core s else emit [newline] (core s))) s
    | _ => set_core (emit c (set_own (ends_in_newline c) (core s))) s end) (fun o _ rest e => completed o rest e) (fun _ _ => True)); [| | | |done|done].
  - intros f s _. unfold column_step, mbind, comp_bind. destruct (read_inner f SCRATCH s) as [s' [[|b c]|e1|w]]; done.
  - intros c [ri p [o op i fin]] Hc _ Hf. cbn in Hf. subst fin. exists (ends_in_newline c), p, c. split_and!; [done|by destruct c|].
    intros rest e1. by apply completed_app.
  - intros [ri p [o op i fin]] _ Hf. cbn in Hf. subst fin. exists o, p. split; [done|]. destruct o; [|done]. cbn. unfold moved, completed. cbn.
    by rewrite app_nil_r.
  - done.
Qed.

Lemma paste_contract delim :
  keeps inner set_inner (fun r : R => PasteStreamReader_new r {| delimiter := delim; serial := false |}) (fun inp e => Some (completed true inp e, e)).
Proof.
  apply (chunk_stage_keeps paste_step (fun c s => let o := own (core s) in match c with
    | [] => set_core (set_finished (if ended_with_newline o then core s else emit [newline] (core s))) s
    | _ => set_core (emit c (set_own {| paste_stage := paste_stage o; ended_with_newline := ends_in_newline c; serial_first := serial_first o |} (core s))) s end)
    (fun o _ rest e => completed (ended_with_newline o) rest e) (fun o _ => serial (paste_stage o) = false)); [| | | |done|done].
  - intros f s HP. unfold paste_step, mbind, comp_bind, get. rewrite HP. destruct (read_inner f SCRATCH s) as [s' [[|b c]|e1|w]]; done.
  - intros c [ri p [o op i fin]] Hc HP Hf. cbn in Hf. subst fin.
    exists {| paste_stage := paste_stage o; ended_with_newline := ends_in_newline c; serial_first := serial_first o |}, p, c.
    split_and!; [done|by destruct c|]. intros rest e1. by apply completed_app.
  - intros [ri p [o op i fin]] HP Hf. cbn in Hf. subst fin. exists o, p. split; [done|]. cbn. unfold moved, completed. cbn.
    destruct (ended_with_newline o); [by rewrite app_nil_r|done].
  - done.
Qed.
End copies.

(** ** Stages that read all of their input first *)

Section absorb.
Context {R T : Type} `{Reader R}.
Context (view : T -> R) (update : R -> T -> T) (process : list Ascii.ascii -> T -> T) (finish : nat -> comp T io_stop (list Ascii.ascii)).

Fixpoint absorb (fuel n : nat) : comp T io_stop str :=
  match fuel with
  | O => throw OutOfFuel
  | S f =>
      scratch ← zoom view update (read f SCRATCH);
      match scratch with
      | [] => finish n
      | _ => _ ← modify (process scratch); absorb f n
      end
  end.

Context (Hview : forall r s, view (update r s) = r) (Hview' : forall c s, view (process c s) = view s).
Context (Hupdate : forall r r' s, update r (update r' s) = update r s).
Context (Hcomm : forall c r s, process c (update r s) = update r (process c s)).
Context (Hself : forall s, update (view s) s = s).
Context (Hnil : forall s, process [] s = s) (Happ : forall a b s, process (a ++ b) s = process b (process a s)).

(** The contract of the inner reader. *)
Context (Sin : R -> list Ascii.ascii -> ending -> Prop) (B : R -> Prop) (Hin : closed Sin B).

Definition absorbed (rest : str) (e : ending) (n : nat) (s s' : T) (x : res io_stop str) : Prop :=
  exists r', match x with
  | Err (IoError WouldBlock) => exists done_ rest', rest = done_ ++ rest' /\ Sin r' rest' e /\ s' = update r' (process done_ s) /\ B r'
  | Err (IoError k) => e = Fails k /\ Sin r' [] e /\ s' = update r' (process rest s)
  | _ => e = Eof /\ Sin r' [] Eof /\ (s', x) = finish n (update r' (process rest s))
  end.

Lemma absorb_spec rest e n s : (forall s', match snd (finish n s') with Ok _ => True | _ => False end) -> Sin (view s) rest e ->
  exists s' x, eventually (fun f => absorb f n s) (s', x) /\ absorbed rest e n s s' x.
Proof.
  intros Hfin. remember (length rest) as l eqn:Hl. revert rest s Hl. induction l as [l IH] using lt_wf_ind. intros rest s -> Hs.
  destruct (Hin _ _ _ SCRATCH Hs ltac:(unfold SCRATCH; lia)) as (r' & out & [f0 Hev] & Hrep).
  destruct out as [[|b c]|[[| |code]|]|]; cbn [reply] in Hrep; try done.
  - destruct Hrep as (-> & -> & Hr'). specialize (Hfin (update r' s)). destruct (finish n (update r' s)) as [s' x] eqn:Hx. exists s', x. split.
    + one_call f0 ltac:(fun _ => cbn [absorb]; unfold mbind, comp_bind, zoom; rewrite Hev by done). by apply eventually_now.
    + exists r'. cbn [snd] in Hfin. rewrite Hnil. by destruct x.
  - destruct Hrep as (_ & rest' & -> & Hr').
    destruct (IH (length rest')) with (rest := rest') (s := process (b :: c) (update r' s)) as (s' & x & Hx & (r2 & Hab)); [rewrite length_app; cbn; lia|done|by rewrite Hview', Hview|].
    exists s', x. split.
    + one_call f0 ltac:(fun _ => cbn [absorb]; unfold mbind, comp_bind, zoom; rewrite Hev by done; cbn beta iota; unfold modify). done.
    + exists r2. assert (Hp : forall d, update r2 (process d (process (b :: c) (update r' s))) = update r2 (process ((b :: c) ++ d) s)).
      { intros d. by rewrite Happ, !Hcomm, Hupdate. }
      destruct x as [?|[[| |code]|]|?]; rewrite ?Hp in Hab; try done.
      destruct Hab as (d & rest2 & -> & Hs2 & -> & Hb). exists ((b :: c) ++ d), rest2. by rewrite Hp, app_assoc.
  - exists (update r' s), (Err (IoError WouldBlock)). split.
    + one_call f0 ltac:(fun _ => cbn [absorb]; unfold mbind, comp_bind, zoom; rewrite Hev by done). by apply eventually_now.
    + destruct Hrep as [Hrep Hb]. exists r', [], rest. by rewrite Hnil.
  - destruct Hrep as (-> & -> & Hr'). exists (update r' s), (Err (IoError InvalidData)). split.
    + one_call f0 ltac:(fun _ => cbn [absorb]; unfold mbind, comp_bind, zoom; rewrite Hev by done). by apply eventually_now.
    + exists r'. by rewrite Hnil.
  - destruct Hrep as (-> & -> & Hr'). exists (update r' s), (Err (IoError (OtherKind code))). split.
    + one_call f0 ltac:(fun _ => cbn [absorb]; unfold mbind, comp_bind, zoom; rewrite Hev by done). by apply eventually_now.
    + exists r'. by rewrite Hnil.
Qed.

(** [Seen s seen]: the stage has absorbed [seen]; [Done s bs]: it delivers [bs]
    and nothing else; [out] is what it makes of its input. *)
Context `{HT : Reader T} (Seen Done : T -> list Ascii.ascii -> Prop) (out : list Ascii.ascii -> list Ascii.ascii).

Definition piece (n : nat) (bs : str) (s' : T) (c : str) : Prop :=
  exists bs', bs = c ++ bs' /\ (length c <= n)%nat /\ (c = [] -> bs = []) /\ Done s' bs'.

Context (Hdone : forall s bs n, Done s bs -> (0 < n)%nat -> exists s' c, (forall f, read f n s = (s', Ok c)) /\ piece n bs s' c).
Context (Hread : forall s seen n, Seen s seen -> (0 < n)%nat -> exists s1, view s1 = view s /\ Seen s1 seen /\ forall f, read f n s = absorb f n s1).
Context (Hfinish : forall s seen n, Seen s seen -> (0 < n)%nat -> exists s' c, finish n s = (s', Ok c) /\ piece n (out seen) s' c).
Context (Hok : forall n s, match snd (finish n s) with Ok _ => True | _ => False end).
Context (Hseen : forall s seen c, Seen s seen -> Seen (process c s) (seen ++ c)) (Hseen' : forall s seen r, Seen s seen -> Seen (update r s) seen).

Definition absorbing (s : T) (bs : str) (e : ending) : Prop := (Done s bs /\ e = Eof) \/
  exists seen rest, Seen s seen /\ Sin (view s) rest e /\ bs = match e with Eof => out (seen ++ rest) | Fails _ => [] end.

Lemma piece_reply n bs s' c : piece n bs s' c -> reply absorbing (fun s => B (view s)) bs Eof n s' (Ok c).
Proof.
  intros (bs' & -> & Hl & Hnil' & Hd). destruct c as [|b c]; cbn [reply app].
  - specialize (Hnil' eq_refl). cbn in Hnil'. subst bs'. split_and!; [done..|]. by left.
  - split; [done|]. exists bs'. split; [done|]. by left.
Qed.

Lemma absorbing_closed : closed absorbing (fun s => B (view s)).
Proof.
  intros s bs e n Hinv Hn. destruct Hinv as [[Hd ->]|(seen & rest & Hse & Hs & ->)].
  { destruct (Hdone s bs n Hd Hn) as (s' & c & Hr & Hp). exists s', (Ok c). split; [by apply eventually_now|]. by apply piece_reply. }
  destruct (Hread s seen n Hse Hn) as (s1 & Hv1 & Hse1 & Hr). rewrite <-Hv1 in Hs.
  destruct (absorb_spec rest e n s1) as (s' & x & [f0 Hev] & r' & Hab); [apply Hok|done|].
  exists s', x. split; [exists f0; intros f Hle; by rewrite Hr, Hev|].
  assert (Hto : forall d r, Seen (update r (process d s1)) (seen ++ d)) by (intros; by apply Hseen', Hseen).
  destruct x as [c|[[| |code]|]|w].
  2: { destruct Hab as (d & rest' & -> & Hs' & -> & Hb). split; [|by rewrite Hview]. right. exists (seen ++ d), rest'. rewrite Hview. split_and!; [done|done|by rewrite <-app_assoc]. }
  2, 3: destruct Hab as (-> & Hs' & ->); split_and!; [done..|]; right; exists (seen ++ rest), []; by rewrite Hview.
  all: destruct Hab as (-> & Hs' & Heq); destruct (Hfinish _ _ n (Hto rest r') Hn) as (s2 & c2 & Hf & Hp); rewrite Hf in Heq; try done.
  injection Heq as -> ->. by apply piece_reply.
Qed.
End absorb.

(** ** tail *)

Definition last_n {A} (n : nat) (l : list A) : list A := drop (length l - n) l.

Lemma push_ring_last_n {A} (limit : Z) (x : A) l : 0 <= limit -> push_ring limit x (last_n (Z.to_nat limit) l) = last_n (Z.to_nat limit) (l ++ [x]).
Proof.
  intros Hl. unfold push_ring, last_n. set (n := Z.to_nat limit) in *. unfold len. rewrite length_app, length_drop. cbn [length].
  destruct (Z.eqb_spec limit 0).
  - rewrite !drop_ge; [done|rewrite length_app; cbn; lia|lia].
  - destruct (Z.eqb_spec (Z.of_nat (length l - (length l - n))) limit).
    + replace (length l + 1 - n)%nat with (S (length l - n)) by lia. rewrite drop_app_le by lia. f_equal.
      rewrite <-(Nat.add_1_r (length l - n)), <-drop_drop. by destruct (drop (length l - n) l).
    + replace (length l + 1 - n)%nat with 0%nat by lia. replace (length l - n)%nat with 0%nat by lia. done.
Qed.

(** The complete lines of an input and the bytes after the last newline. *)
Fixpoint complete_lines (s : str) : list str * str :=
  match s with
  | [] => ([], [])
  | c :: s' =>
      let '(ls, r) := complete_lines s' in
      if decide (c = newline) then ([] :: ls, r)
      else match ls with [] => ([], c :: r) | l :: ls' => ((c :: l) :: ls', r) end
  end.

Lemma complete_lines_snoc s b : complete_lines (s ++ [b]) = let '(ls, r) := complete_lines s in
  if decide (b = newline) then (ls ++ [r], []) else (ls, r ++ [b]).
Proof.
  induction s as [|c s IH]; cbn [app complete_lines]; [by destruct (decide (b = newline))|].
  rewrite IH. destruct (complete_lines s) as [ls r]. destruct (decide (b = newline)), (decide (c = newline)); try done; by destruct ls.
Qed.

Lemma raw_lines_complete s : raw_lines s = let '(ls, r) := complete_lines s in
  map (fun l => (l, true)) ls ++ match r with [] => [] | _ => [(r, false)] end.
Proof.
  induction s as [|c s IH]; [done|]. cbn [raw_lines complete_lines]. rewrite IH. destruct (complete_lines s) as [ls r].
  destruct (decide (c = newline)); [done|]. destruct ls as [|l ls]; [by destruct r|done].
Qed.

(** What [tail] remembers of the input so far. *)
Definition tail_state (mode : StreamingTailMode) (s : str) : TailState :=
  match mode with
  | TailBytes limit => {| tail_mode := mode; byte_ring := last_n (Z.to_nat limit) s; line_ring := []; current_line := [] |}
  | TailLines limit =>
      {| tail_mode := mode; byte_ring := []; line_ring := last_n (Z.to_nat limit) (fst (complete_lines s));
         current_line := snd (complete_lines s) |}
  end.

(** The last lines, each ended by a newline, or the last bytes. *)
Definition tail_output (mode : StreamingTailMode) (s : str) : str :=
  match mode with
  | TailBytes limit => last_n (Z.to_nat limit) s
  | TailLines limit => concat (map (fun l => l ++ [newline]) (last_n (Z.to_nat limit) (map fst (raw_lines s))))
  end.

Definition mode_ok (mode : StreamingTailMode) : Prop := match mode with TailBytes limit | TailLines limit => 0 <= limit end.

Lemma tail_state_snoc mode s b : mode_ok mode -> tail_byte (tail_state mode s) b = tail_state mode (s ++ [b]).
Proof.
  intros Hm. destruct mode as [limit|limit]; cbn in Hm; unfold tail_byte, tail_state; cbn [tail_mode].
  - rewrite complete_lines_snoc. destruct (complete_lines s) as [ls r]. cbn [fst snd]. destruct (decide (b = newline)); [|done].
    unfold push_tail_line. cbn. by rewrite push_ring_last_n.
  - unfold push_tail_byte. cbn. by rewrite push_ring_last_n.
Qed.

Lemma tail_process_state mode s t : mode_ok mode -> tail_process_chunk t (tail_state mode s) = tail_state mode (s ++ t).
Proof.
  intros Hm. unfold tail_process_chunk. revert s. induction t as [|b t IH]; intros s; cbn [fold_left]; [by rewrite app_nil_r|].
  rewrite tail_state_snoc, IH by done. by rewrite <-app_assoc.
Qed.

Lemma tail_finalize mode s (c : Core TailState) : mode_ok mode -> own c = tail_state mode s -> finished c = false ->
  exists o, finalize_output c = {| own := o; output_pending := output_pending c ++ tail_output mode s; output_offset := output_offset c; finished := true |}.
Proof.
  intros Hm Ho Hf. unfold finalize_output. rewrite Hf, Ho. destruct mode as [limit|limit]; cbn in Hm; cbn [tail_state tail_mode]; [|by eexists].
  unfold tail_output. rewrite raw_lines_complete. destruct (complete_lines s) as [ls r]. cbn [fst snd current_line].
  rewrite map_app, map_map. cbn [fst]. rewrite map_id. destruct r as [|b r].
  - rewrite app_nil_r. by eexists.
  - unfold push_tail_line. cbn. rewrite push_ring_last_n by done. by eexists.
Qed.

Lemma take_output_piece {R Own} (Done : Filter R Own -> list Ascii.ascii -> Prop) n (s : Filter R Own) : (0 < n)%nat ->
  (forall c', same_work (core s) c' -> Done (set_core c' s) (visible c')) ->
  exists s' c, take_output n s = (s', Ok c) /\ piece Done n (visible (core s)) s' c.
Proof.
  intros Hn HD. destruct (take_output_spec n s Hn) as (c' & c & -> & Hw & Hv & Hl & Hnil). exists (set_core c' s), c. split; [done|].
  exists (visible c'). split_and!; [done|done|done|by apply HD].
Qed.

Section tail.
Context {R : Type} `{Reader R} (md : StreamingTailMode) (Hmd : mode_ok md).

Definition tail_absorb (c : list Ascii.ascii) (s : TailStreamReader R) : TailStreamReader R :=
  set_core (set_own (tail_process_chunk c (own (core s))) (core s)) s.
Definition tail_finish (n : nat) : comp (TailStreamReader R) io_stop str := _ ← on_core finalize_output; take_output n.

Lemma tail_loop_absorb f n (s : TailStreamReader R) : tail_loop f n s = absorb inner set_inner tail_absorb tail_finish f n s.
Proof.
  revert s. induction f as [|f IH]; intros s; [done|]. cbn [tail_loop absorb]. unfold mbind, comp_bind, read_inner.
  destruct (zoom inner set_inner (read f SCRATCH) s) as [s' [[|b c]|e|w]]; [done| |done..]. apply IH.
Qed.

Definition tail_done (s : TailStreamReader R) (bs : str) : Prop := finished (core s) = true /\ bs = visible (core s).
Definition tail_seen (s : TailStreamReader R) (seen : str) : Prop :=
  finished (core s) = false /\ core_ok (core s) /\ visible (core s) = [] /\ own (core s) = tail_state md seen.

Lemma tail_finish_piece s seen n : tail_seen s seen -> (0 < n)%nat ->
  exists s' c, tail_finish n s = (s', Ok c) /\ piece tail_done n (tail_output md seen) s' c.
Proof.
  intros (Hf & Hok & Hv & Ho) Hn. unfold tail_finish, mbind, comp_bind, on_core, modify.
  destruct (tail_finalize md seen (core s) Hmd Ho Hf) as [o ->].
  destruct (take_output_piece tail_done n (set_core {| own := o; output_pending := output_pending (core s) ++ tail_output md seen;
    output_offset := output_offset (core s); finished := true |} s) Hn) as (s' & c & Ht & Hp).
  - intros c' (_ & Hf' & _). split; [cbn; by rewrite <-Hf'|done].
  - exists s', c. split; [done|]. cbn [core set_core] in Hp. by rewrite visible_emit, Hv in Hp.
Qed.

Lemma tail_contract : keeps inner set_inner (fun r : R => TailStreamReader_new r md)
  (fun inp e => Some (match e with Eof => tail_output md inp | Fails _ => [] end, e)).
Proof.
  exists (fun S => absorbing inner S tail_seen tail_done (tail_output md)). split; [|split].
  - intros S B HS. apply (absorbing_closed inner set_inner tail_absorb tail_finish) with (Sin := S) (B := B); try done.
    + by intros [? ? []].
    + intros a b s0. unfold tail_absorb, tail_process_chunk. cbn. by rewrite fold_left_app.
    + intros s bs n [Hf ->] Hn. destruct (take_output_piece tail_done n s Hn) as (s' & c & Ht & Hp).
      { intros c' (_ & Hf' & _). split; [cbn; by rewrite <-Hf'|done]. }
      exists s', c. split; [|done]. intros f. unfold read, tail_reader, tail_read. rewrite (proj2 (Nat.eqb_neq n 0)) by lia.
      unfold mbind, comp_bind, get. rewrite Ht. destruct Hp as (bs' & _ & _ & _ & [Hf' _]). destruct c; [by rewrite Hf'|done].
    + intros s seen n (Hf & Hok & Hv & Ho) Hn. exists (set_core (set_output [] 0 (core s)) s). split; [done|]. split.
      * split_and!; [done|unfold core_ok; cbn; lia|done|done].
      * intros f. unfold read, tail_reader, tail_read. rewrite (proj2 (Nat.eqb_neq n 0)) by lia.
        unfold mbind, comp_bind, get. rewrite take_output_empty by done. cbn [core set_core set_output finished]. rewrite Hf. apply tail_loop_absorb.
    + apply tail_finish_piece.
    + intros n s. unfold tail_finish, mbind, comp_bind, on_core, modify, take_output. by destruct (take_pending_output _ _ _) as [[? ?] ?].
    + intros s seen c (Hf & Hok & Hv & Ho). split_and!; [done..|]. cbn. by rewrite Ho, tail_process_state.
  - intros S S' s r' bs e [[Hd ->]|(seen & rest & Hse & Hs & ->)] Hr; [by left|]. right. exists seen, rest. split_and!; [done|by apply Hr|done].
  - intros S r inp e out e' Hs [= <- <-]. right. exists [], inp. split; [|done]. split_and!; [done|unfold core_ok; cbn; lia|done|]. by destruct md.
Qed.
End tail.

(** ** wc *)

Section wc.
Context `{Target}.

Lemma wrap_add_assoc m a b c : 0 < m + 1 -> wrap_add m (wrap_add m a b) c = wrap_add m a (b + c).
Proof. intros Hm. unfold wrap_add. rewrite Zplus_mod_idemp_l. f_equal. lia. Qed.

(** The counters with [n_bytes] and [saw_input] put in. *)
Definition with_bytes (n : Z) (c : WcCounts) : WcCounts :=
  {| n_lines := n_lines c; n_words := n_words c; n_bytes := n; max_line_length := max_line_length c;
     current_line_length := current_line_length c; in_word := in_word c; saw_input := true; wc_ended_with_newline := wc_ended_with_newline c |}.

Lemma wc_byte_with n c b : wc_byte (with_bytes n c) b = with_bytes n (wc_byte c b).
Proof. unfold wc_byte. cbn. by destruct (decide (b = newline)). Qed.

Lemma wc_fold_with n s c : fold_left wc_byte s (with_bytes n c) = with_bytes n (fold_left wc_byte s c).
Proof. revert c. induction s as [|b s IH]; intros c; [done|]. cbn [fold_left]. by rewrite wc_byte_with, IH. Qed.

Lemma wc_fold_bytes s c : n_bytes (fold_left wc_byte s c) = n_bytes c.
Proof. revert c. induction s as [|b s IH]; intros c; [done|]. cbn [fold_left]. rewrite IH. unfold wc_byte. by destruct (decide (b = newline)). Qed.

Lemma wc_process_with chunk c : chunk <> [] -> wc_process_chunk chunk c = with_bytes (wrap_add usize_max (n_bytes c) (len chunk)) (fold_left wc_byte chunk c).
Proof. intros Hc. destruct chunk as [|b chunk]; [done|]. unfold wc_process_chunk. by rewrite <-wc_fold_with. Qed.

Lemma wc_process_app a b c : wc_process_chunk (a ++ b) c = wc_process_chunk b (wc_process_chunk a c).
Proof.
  destruct (decide (a = [])) as [->|Ha]; [done|]. destruct (decide (b = [])) as [->|Hb]; [by rewrite app_nil_r|].
  rewrite !wc_process_with by (done || by intros [? ?]%app_eq_nil). rewrite fold_left_app, wc_fold_with. cbn [with_bytes n_bytes].
  rewrite wrap_add_assoc, len_app by (pose proof usize_max_ge; lia). done.
Qed.

(** *** What it counts *)

Definition newlines (s : str) : Z := len (filter (fun b => b = newline) s).

(** Bytes that start a word: not white space, after white space or nothing. *)
Fixpoint word_starts (inside : bool) (s : str) : Z :=
  match s with
  | [] => 0
  | b :: s' => (if negb (is_ascii_whitespace b) && negb inside then 1 else 0) + word_starts (negb (is_ascii_whitespace b)) s'
  end.

Definition longest (ls : list str) : Z := fold_right (fun l m => Z.max (len l) m) 0 ls.

(** The reference result. *)
Definition wc_counts_of (s : str) : WcCounts :=
  {| n_lines := newlines s; n_words := word_starts false s; n_bytes := len s; max_line_length := longest (map fst (raw_lines s));
     current_line_length := 0; in_word := false; saw_input := false; wc_ended_with_newline := false |}.

Definition ends_inside (s : str) (inside : bool) : bool := match last s with Some b => negb (is_ascii_whitespace b) | None => inside end.

Lemma word_starts_snoc i s b : word_starts i (s ++ [b]) = word_starts i s + (if negb (is_ascii_whitespace b) && negb (ends_inside s i) then 1 else 0).
Proof.
  revert i. induction s as [|a s IH]; intros i; cbn [app word_starts]; [cbn; lia|]. rewrite IH. unfold ends_inside. rewrite last_cons.
  destruct (last s); lia.
Qed.

Lemma word_starts_bounds i s : 0 <= word_starts i s <= len s.
Proof. revert i. induction s as [|a s IH]; intros i; cbn [word_starts]; [done|]. specialize (IH (negb (is_ascii_whitespace a))). rewrite len_cons. destruct (_ && _); lia. Qed.

Lemma newlines_snoc s b : newlines (s ++ [b]) = newlines s + (if decide (b = newline) then 1 else 0).
Proof. unfold newlines. rewrite filter_app, len_app, filter_cons. by destruct (decide (b = newline)). Qed.

Lemma newlines_bounds s : 0 <= newlines s <= len s.
Proof. unfold newlines, len. pose proof (length_filter (fun b => b = newline) s). lia. Qed.

Lemma rest_bounds s : 0 <= len (snd (complete_lines s)) <= len s.
Proof.
  induction s as [|b s IH]; [done|]. cbn [complete_lines]. destruct (complete_lines s) as [ls r]. cbn [snd] in IH. rewrite len_cons.
  destruct (decide _); cbn [snd]; [lia|]. destruct ls; cbn [snd]; rewrite ?len_cons; lia.
Qed.

Lemma longest_app a b : longest (a ++ b) = Z.max (longest a) (longest b).
Proof.
  unfold longest. induction a as [|x a IH]; cbn; [|by rewrite IH, Z.max_assoc]. rewrite Z.max_r; [done|].
  induction b as [|y b IH]; cbn; [done|]. pose proof (len_nonneg y). lia.
Qed.

(** The counters after [s], byte by byte. *)
Definition wc_after (s : str) : WcCounts :=
  {| n_lines := newlines s; n_words := word_starts false s; n_bytes := 0; max_line_length := longest (fst (complete_lines s));
     current_line_length := len (snd (complete_lines s)); in_word := ends_inside s false; saw_input := false;
     wc_ended_with_newline := ends_in_newline s |}.

Lemma wc_after_snoc s b : len s < usize_max -> wc_byte (wc_after s) b = wc_after (s ++ [b]).
Proof.
  intros Hs. assert (Hw : forall a, 0 <= a <= len s -> wrap_add usize_max a 1 = a + 1) by (intros a Ha; unfold wrap_add; apply Z.mod_small; lia).
  unfold wc_byte, wc_after. cbn [n_lines n_words n_bytes max_line_length current_line_length in_word saw_input wc_ended_with_newline].
  rewrite !Hw by (apply newlines_bounds || apply word_starts_bounds || apply rest_bounds).
  rewrite newlines_snoc, word_starts_snoc, complete_lines_snoc. unfold ends_inside at 3 4, ends_in_newline. rewrite last_snoc.
  pose proof (rest_bounds s) as Hr. destruct (complete_lines s) as [ls r]. cbn [fst snd] in *.
  destruct (decide (b = newline)) as [->|Hb]; cbn [fst snd].
  - rewrite longest_app. cbn [longest fold_right]. rewrite (Z.max_l (len r) 0), bool_decide_eq_true_2 by (lia || done).
    change (is_ascii_whitespace newline) with true. cbn [negb andb]. f_equal. lia.
  - rewrite len_app, bool_decide_eq_false_2 by done. unfold ends_inside. destruct (negb (is_ascii_whitespace b) && negb _); f_equal; lia.
Qed.

Lemma wc_fold_after s t : len (s ++ t) <= usize_max -> fold_left wc_byte t (wc_after s) = wc_after (s ++ t).
Proof.
  revert s. induction t as [|b t IH]; intros s Hl; cbn [fold_left]; [by rewrite app_nil_r|]. rewrite len_app, len_cons in Hl.
  pose proof (len_nonneg t). rewrite wc_after_snoc, IH by (rewrite ?len_app, ?len_cons, ?len_nil; lia). by rewrite <-app_assoc.
Qed.

Lemma longest_nonneg ls : 0 <= longest ls.
Proof. unfold longest. induction ls as [|l ls IH]; cbn; [done|]. pose proof (len_nonneg l). lia. Qed.

Lemma ends_in_newline_rest s : ends_in_newline s = true -> snd (complete_lines s) = [].
Proof.
  destruct s as [|b s _] using rev_ind; [done|]. unfold ends_in_newline. rewrite last_snoc, complete_lines_snoc. intros ->%bool_decide_eq_true.
  destruct (complete_lines s) as [ls r]. by rewrite decide_True.
Qed.

(** The text [wc] prints, by its counters and by the reference. *)
Definition wc_text (fl : StreamingWcFlags) (s : str) : str := wc_summary fl (wc_close (wc_process_chunk s no_counts)).
Definition wc_report (fl : StreamingWcFlags) (s : str) : str := wc_summary fl (wc_counts_of s).

Lemma wc_text_report fl s : len s <= usize_max -> wc_text fl s = wc_report fl s.
Proof.
  intros Hl. unfold wc_text, wc_report. destruct (decide (s = [])) as [->|Hs]; [done|]. rewrite wc_process_with by done.
  replace (fold_left wc_byte s no_counts) with (wc_after s) by (symmetry; by apply (wc_fold_after [])). cbn [n_bytes no_counts].
  unfold wrap_add. rewrite Z.mod_small by (pose proof (len_nonneg s); lia). unfold wc_summary. enough (wc_columns fl (wc_close (with_bytes (0 + len s) (wc_after s))) = wc_columns fl (wc_counts_of s)) as -> by done.
  unfold wc_columns, wc_close, wc_counts_of. cbn [with_bytes saw_input wc_ended_with_newline n_lines n_words n_bytes max_line_length current_line_length wc_after andb].
  assert (Hmax : longest (map fst (raw_lines s)) = Z.max (longest (fst (complete_lines s))) (len (snd (complete_lines s)))).
  { rewrite raw_lines_complete. destruct (complete_lines s) as [ls r]. cbn [fst snd]. rewrite map_app, map_map, longest_app. cbn [fst]. rewrite map_id.
    f_equal. destruct r as [|b r]; [done|]. cbn. pose proof (len_nonneg (b :: r)). unfold len in *. cbn in *. lia. }
  rewrite Hmax. destruct (ends_in_newline s) eqn:He; cbn [negb]; [|done].
  rewrite (ends_in_newline_rest s He). by rewrite (Z.max_l _ (len [])) by apply longest_nonneg.
Qed.

Context {R : Type} `{Reader R}.

Definition wc_absorb (c : list Ascii.ascii) (s : WcStreamReader R) : WcStreamReader R := set_counts (wc_process_chunk c (counts s)) s.
Definition wc_finish (n : nat) : comp (WcStreamReader R) io_stop str := _ ← modify finalize_summary; take_summary n.

Lemma wc_loop_absorb f n (s : WcStreamReader R) : wc_loop f n s = absorb wc_inner set_wc_inner wc_absorb wc_finish f n s.
Proof.
  revert s. induction f as [|f IH]; intros s; [done|]. cbn [wc_loop absorb]. unfold mbind, comp_bind.
  destruct (zoom wc_inner set_wc_inner (read f SCRATCH) s) as [s' [[|b c]|e|w]]; [done| |done..]. apply IH.
Qed.

Definition wc_done (s : WcStreamReader R) (bs : str) : Prop := wc_finalized s = true /\ bs = drop (summary_offset s) (summary s).
Definition wc_seen (fl : StreamingWcFlags) (s : WcStreamReader R) (seen : str) : Prop :=
  wc_finalized s = false /\ wc_flags s = fl /\ summary s = [] /\ summary_offset s = 0%nat /\ counts s = wc_process_chunk seen no_counts.

Lemma take_summary_piece n s : (0 < n)%nat -> wc_finalized s = true ->
  exists s' c, take_summary n s = (s', Ok c) /\ piece wc_done n (drop (summary_offset s) (summary s)) s' c.
Proof.
  intros Hn Hf. unfold take_summary. destruct (Nat.leb_spec (length (summary s)) (summary_offset s)) as [Hl|Hl].
  - rewrite drop_ge by done. exists s, []. split; [done|]. exists []. split_and!; [done|cbn; lia|done|]. split; [done|]. by rewrite drop_ge.
  - eexists _, _. split; [done|]. set (rem := drop (summary_offset s) (summary s)). exists (drop (Nat.min (length rem) n) rem). split_and!.
    + by rewrite take_drop.
    + rewrite length_take. lia.
    + intros Ht%(f_equal length). rewrite length_take in Ht. cbn in Ht. subst rem. rewrite length_drop in Ht. lia.
    + split; [done|]. cbn. subst rem. by rewrite drop_drop.
Qed.

Lemma wc_contract fl : keeps wc_inner set_wc_inner (fun r : R => WcStreamReader_new r fl)
  (fun inp e => Some (match e with Eof => wc_text fl inp | Fails _ => [] end, e)).
Proof.
  exists (fun S => absorbing wc_inner S (wc_seen fl) wc_done (wc_text fl)). split; [|split].
  - intros S B HS. apply (absorbing_closed wc_inner set_wc_inner wc_absorb wc_finish) with (Sin := S) (B := B); try done.
    + by intros [].
    + intros a b s0. unfold wc_absorb. cbn. by rewrite wc_process_app.
    + intros s bs n [Hf ->] Hn. destruct (take_summary_piece n s Hn Hf) as (s' & c & Ht & Hp). exists s', c. split; [|done].
      intros f. unfold read, wc_reader, wc_read. rewrite (proj2 (Nat.eqb_neq n 0)) by lia. unfold mbind, comp_bind, get. rewrite Ht.
      destruct Hp as (bs' & _ & _ & _ & [Hf' _]). destruct c; [by rewrite Hf'|done].
    + intros s seen n (Hf & Hfl & Hsum & Hoff & Hc) Hn. exists s. split; [done|]. split; [by split_and!|].
      intros f. unfold read, wc_reader, wc_read. rewrite (proj2 (Nat.eqb_neq n 0)) by lia. unfold mbind, comp_bind, get, take_summary.
      rewrite Hsum, Hoff. cbn [length Nat.leb]. rewrite Hf. apply wc_loop_absorb.
    + intros s seen n (Hf & Hfl & Hsum & Hoff & Hc) Hn. unfold wc_finish, mbind, comp_bind, modify, finalize_summary. rewrite Hf.
      set (s1 := {| wc_inner := _ |}). destruct (take_summary_piece n s1 Hn eq_refl) as (s' & c & Ht & Hp). exists s', c. split; [done|].
      subst s1. cbn [summary_offset summary] in Hp. rewrite Hoff, Hfl, Hc in Hp. exact Hp.
    + intros n s. unfold wc_finish, mbind, comp_bind, modify, take_summary. by case_split.
    + intros s seen c (Hf & Hfl & Hsum & Hoff & Hc). split_and!; [done..|]. cbn. by rewrite Hc, wc_process_app.
  - intros S S' s r' bs e [[Hd ->]|(seen & rest & Hse & Hs & ->)] Hr; [by left|]. right. exists seen, rest. split_and!; [done|by apply Hr|done].
  - intros S r inp e out e' Hs [= <- <-]. right. exists [], inp. split; [by split_and!|done].
Qed.
End wc.

(** ** head *)

(** The first [k] lines, as bytes. *)
Fixpoint take_lines (k : Z) (s : str) : str :=
  match s with
  | [] => []
  | b :: s' => if k <=? 0 then [] else b :: take_lines (if decide (b = newline) then k - 1 else k) s'
  end.

Definition line_bytes (l : str * bool) : str := fst l ++ if snd l then [newline] else [].

Lemma take_lines_spec k s : take_lines k s = concat (map line_bytes (take (Z.to_nat k) (raw_lines s))).
Proof.
  revert k. induction s as [|b s IH]; intros k; cbn [take_lines raw_lines]; [by rewrite take_nil|].
  destruct (Z.leb_spec k 0); [by replace (Z.to_nat k) with 0%nat by lia|]. rewrite IH.
  destruct (decide (b = newline)) as [->|Hb].
  - replace (Z.to_nat k) with (S (Z.to_nat (k - 1))) by lia. done.
  - destruct (Z.to_nat k) as [|n] eqn:Hn; [lia|]. destruct (raw_lines s) as [|[l t] ls]; cbn; by rewrite ?firstn_nil.
Qed.

Section head.
Context {R : Type} `{Reader R}.

(** The contract of the inner reader. *)
Context (Sin : R -> list Ascii.ascii -> ending -> Prop) (B : R -> Prop).

Definition head_idle (s : HeadStreamReader R) : Prop := head_pending s = [] /\ head_pending_offset s = 0%nat.

(** The output for a mode and the rest of the input.  With a failing input,
    [head -n] may lose bytes it has read in the failing call. *)
Definition head_future (s : HeadStreamReader R) (bs : str) (e : ending) : Prop :=
  match head_mode s with
  | HeadBytes k => 0 <= k /\ exists rest e0, Sin (head_inner s) rest e0 /\ bs = take (Z.to_nat k) rest /\ e = if k <=? len rest then Eof else e0
  | HeadLines limit => exists rest, Sin (head_inner s) rest Eof /\ bs = take_lines (limit - lines_seen s) rest /\ e = Eof
  end.

Definition head_inv (s : HeadStreamReader R) (bs : str) (e : ending) : Prop := head_idle s /\
  if head_finished s then bs = [] /\ e = Eof else head_future s bs e.

Context (Hin : closed Sin B).

Lemma head_bytes_read s k rest e0 n : head_idle s -> head_finished s = false -> head_mode s = HeadBytes k -> 0 <= k -> Sin (head_inner s) rest e0 -> (0 < n)%nat ->
  exists s' x, eventually (fun f => read_bytes_mode f n k s) (s', x) /\
    reply head_inv (fun s => B (head_inner s)) (take (Z.to_nat k) rest) (if k <=? len rest then Eof else e0) n s' x.
Proof.
  intros Hi Hf Hm Hk Hs Hn. unfold read_bytes_mode. destruct (Z.eqb_spec k 0) as [->|Hk0].
  { exists (set_head s (head_inner s) (head_mode s) true (lines_seen s)), (Ok []). split; [by apply eventually_now|].
    rewrite (proj2 (Z.leb_le 0 _)) by apply len_nonneg. done. }
  destruct (Hin _ _ _ (Z.to_nat (Z.min k (Z.of_nat n))) Hs ltac:(lia)) as (r' & out & [f0 Hev] & Hrep).
  destruct out as [[|b c]|[[| |code]|]|]; cbn [reply] in Hrep; try done; eexists _, _.
  - destruct Hrep as (-> & -> & Hr'). split; [exists f0; intros f Hle; by rewrite Hev|]. cbn. rewrite take_nil. split_and!; [done|by case_split|].
    split; [done|]. cbn. by rewrite Hf.
  - destruct Hrep as (Hl & rest' & -> & Hr'). split; [exists f0; intros f Hle; by rewrite Hev|]. set (c' := b :: c) in *.
    cbn [reply c']. fold c'. split; [lia|]. exists (take (Z.to_nat (k - len c')) rest'). rewrite take_app, (take_ge c') by (unfold len in *; lia).
    split; [do 2 f_equal; unfold len; lia|]. split; [done|]. cbn [set_head head_finished]. rewrite Hf. cbn [orb c']. fold c'. rewrite len_app.
    unfold sat_sub. rewrite Z.max_r by (unfold len in *; lia). pose proof (len_nonneg rest'). destruct (Z.eqb_spec (k - len c') 0).
    + replace (Z.to_nat (k - len c')) with 0%nat by lia. split; [done|]. by rewrite (proj2 (Z.leb_le k _)) by lia.
    + unfold head_future. cbn [set_head head_mode head_inner]. split; [unfold len in *; lia|]. exists rest', e0. split_and!; [done|done|].
      destruct (Z.leb_spec k (len c' + len rest')), (Z.leb_spec (k - len c') (len rest')); done || lia.
  - destruct Hrep as [Hrep Hb]. split; [exists f0; intros f Hle; by rewrite Hev|]. cbn. split; [|done]. split; [done|]. cbn. rewrite Hf. unfold head_future. cbn. rewrite Hm. split; [done|]. by exists rest, e0.
  - destruct Hrep as (-> & -> & Hr'). split; [exists f0; intros f Hle; by rewrite Hev|]. rewrite (proj2 (Z.leb_gt k _)) by (rewrite len_nil; lia).
    cbn. rewrite take_nil. split_and!; [done|done|]. split; [done|]. cbn. rewrite Hf. unfold head_future. cbn. rewrite Hm. split; [done|].
    exists [], (Fails InvalidData). rewrite take_nil, (proj2 (Z.leb_gt k _)) by (rewrite len_nil; lia). done.
  - destruct Hrep as (-> & -> & Hr'). split; [exists f0; intros f Hle; by rewrite Hev|]. rewrite (proj2 (Z.leb_gt k _)) by (rewrite len_nil; lia).
    cbn. rewrite take_nil. split_and!; [done|done|]. split; [done|]. cbn. rewrite Hf. unfold head_future. cbn. rewrite Hm. split; [done|].
    exists [], (Fails (OtherKind code)). rewrite take_nil, (proj2 (Z.leb_gt k _)) by (rewrite len_nil; lia). done.
Qed.

(** A stage that is still reading lines. *)
Definition head_reading (limit : Z) (s : HeadStreamReader R) : Prop := head_idle s /\ head_finished s = false /\ head_mode s = HeadLines limit.

Lemma finish_if_seen_inv limit s rest : head_reading limit s -> Sin (head_inner s) rest Eof ->
  exists s', finish_if_seen limit s = (s', Ok tt) /\ head_inv s' (take_lines (limit - lines_seen s) rest) Eof.
Proof.
  intros (Hi & Hf & Hm) Hs. unfold finish_if_seen, modify. destruct (Z.leb_spec limit (lines_seen s)) as [Hl|Hl]; eexists; (split; [done|]); split; [done| |done|].
  - cbn. split; [|done]. destruct rest; [done|]. cbn. by rewrite (proj2 (Z.leb_le _ _)) by lia.
  - rewrite Hf. unfold head_future. rewrite Hm. by exists rest.
Qed.

(** What the loop adds to [out], with room for [room] bytes. *)
Definition lines_added (limit : Z) (room : nat) (out rest : str) (s s' : HeadStreamReader R) (x : res io_stop str) : Prop :=
  match x with
  | Ok o => exists c more, o = out ++ c /\ take_lines (limit - lines_seen s) rest = c ++ more /\ (length c <= room)%nat /\
      (out ++ c = [] -> (0 < room)%nat -> more = []) /\ head_inv s' more Eof
  | Err (IoError WouldBlock) => out = [] /\ head_inv s' (take_lines (limit - lines_seen s) rest) Eof /\ B (head_inner s')
  | _ => False
  end.

Lemma head_lines_loop_spec limit room : forall s out rest, head_reading limit s -> Sin (head_inner s) rest Eof ->
  exists s' x, eventually (fun f => head_lines_loop f room limit out s) (s', x) /\ lines_added limit room out rest s s' x.
Proof.
  induction room as [|room IH]; intros s out rest Hr Hs; destruct (finish_if_seen_inv limit s rest Hr Hs) as (s1 & Hfin & Hinv).
  { exists s1, (Ok out). split.
    - apply eventually_now. intros f. cbn [head_lines_loop]. unfold mbind, comp_bind. by rewrite Hfin.
    - exists [], (take_lines (limit - lines_seen s) rest). split_and!; [by rewrite app_nil_r|done|done|lia|done]. }
  destruct (Z.ltb_spec (lines_seen s) limit) as [Hl|Hl].
  2: { exists s1, (Ok out). split.
       - apply eventually_now. intros f. cbn [head_lines_loop]. unfold mbind, comp_bind, get. rewrite (proj2 (Z.ltb_ge _ _)) by done. by rewrite Hfin.
       - assert (take_lines (limit - lines_seen s) rest = []) as Hnil by (destruct rest; [done|]; cbn; by rewrite (proj2 (Z.leb_le _ _)) by lia).
         rewrite Hnil in Hinv. exists [], []. rewrite Hnil. split_and!; [by rewrite app_nil_r|done|cbn; lia|done|done]. }
  destruct Hr as (Hi & Hf & Hm). destruct (Hin _ _ _ 1%nat Hs ltac:(lia)) as (r' & o & [f0 Hev] & Hrep).
  assert (Hunfold : forall f, head_lines_loop f (S room) limit out s = match read_one_line_byte f (match out with [] => false | _ => true end) s with
    | (s', Ok (Produced b)) => head_lines_loop f room limit (out ++ [b]) s'
    | (s', Ok EofBreak) => match finish_if_seen limit s' with (s2, Ok _) => (s2, Ok out) | (s2, Err e) => (s2, Err e) | (s2, Panic w) => (s2, Panic w) end
    | (s', Ok WouldBlockYield) => (s', Ok out) | (s', Err e) => (s', Err e) | (s', Panic w) => (s', Panic w) end).
  { intros f. cbn [head_lines_loop]. unfold mbind, comp_bind, get. rewrite (proj2 (Z.ltb_lt _ _)) by done.
    by destruct (read_one_line_byte f _ s) as [s' [[b| |]|e|w]]. }
  destruct o as [[|b c]|[[| |code]|]|]; cbn [reply] in Hrep; try (by destruct Hrep); try (by destruct Hrep as (_ & ? & _)).
  - destruct Hrep as (-> & _ & Hr'). exists (set_head s r' (head_mode s) true (lines_seen s)), (Ok out). split.
    + exists f0. intros f Hle. rewrite Hunfold. unfold read_one_line_byte. rewrite Hev by done. unfold finish_if_seen, modify. by case_split.
    + exists [], []. split_and!; [by rewrite app_nil_r|done|cbn; lia|done|]. by split.
  - destruct Hrep as (Hlen & rest' & -> & Hr'). destruct c; [|cbn in Hlen; lia].
    set (s2 := set_head s r' (head_mode s) (head_finished s) (if decide (b = newline) then lines_seen s + 1 else lines_seen s)).
    destruct (IH s2 (out ++ [b]) rest') as (s' & x & [g0 Hgo] & Hadd); [done|done|]. exists s', x. split.
    + exists (Nat.max f0 g0). intros f Hle. rewrite Hunfold. unfold read_one_line_byte. rewrite Hev by lia. apply Hgo. lia.
    + assert (Ht : take_lines (limit - lines_seen s) ([b] ++ rest') = b :: take_lines (limit - lines_seen s2) rest').
      { cbn. rewrite (proj2 (Z.leb_gt _ _)) by lia. f_equal. f_equal. destruct (decide (b = newline)); lia. }
      unfold lines_added in *. rewrite Ht. destruct x as [o|[[| |code]|]|w]; try done.
      * destruct Hadd as (c & more & -> & Hc & Hlc & Hnil & Hinv'). exists (b :: c), more. split_and!; [by rewrite <-app_assoc|by rewrite Hc|cbn; lia| |done].
        by intros [_ ?]%app_eq_nil.
      * destruct Hadd as [[_ ?]%app_eq_nil _]. done.
  - destruct out as [|b out].
    + exists (set_head s r' (head_mode s) (head_finished s) (lines_seen s)), (Err (IoError WouldBlock)). split.
      * exists f0. intros f Hle. rewrite Hunfold. unfold read_one_line_byte. by rewrite Hev.
      * destruct Hrep as [Hrep Hb]. split; [done|]. split; [|done]. split; [done|]. cbn. rewrite Hf. unfold head_future. cbn. rewrite Hm. by exists rest.
    + exists (set_head s r' (head_mode s) (head_finished s) (lines_seen s)), (Ok (b :: out)). split.
      * exists f0. intros f Hle. rewrite Hunfold. unfold read_one_line_byte. by rewrite Hev.
      * exists [], (take_lines (limit - lines_seen s) rest). split_and!; [by rewrite app_nil_r|done|cbn; lia|by rewrite app_nil_r|].
        destruct Hrep as [Hrep _]. split; [done|]. cbn. rewrite Hf. unfold head_future. cbn. rewrite Hm. by exists rest.
Qed.

Lemma head_read_mode s f n : head_idle s -> head_finished s = false -> (0 < n)%nat ->
  head_read f n s = match head_mode s with HeadBytes k => read_bytes_mode f n k s | HeadLines limit => read_lines_mode f n limit s end.
Proof.
  intros [Hp Ho] Hf Hn. unfold head_read. rewrite (proj2 (Nat.eqb_neq n 0)) by lia. unfold mbind, comp_bind, get, take_from_pending.
  rewrite Hp, Ho. cbn [take_pending_output length Nat.leb]. destruct s. cbn in *. subst. by destruct head_mode.
Qed.

Lemma head_closed : closed head_inv (fun s => B (head_inner s)).
Proof.
  intros s bs e n [Hi Hinv] Hn. destruct (head_finished s) eqn:Hf.
  { destruct Hinv as [-> ->]. exists s, (Ok []). split; [|split_and!; [done..|]; split; [done|by rewrite Hf]].
    apply eventually_now. intros f. unfold read, head_reader, head_read. rewrite (proj2 (Nat.eqb_neq n 0)) by lia.
    unfold mbind, comp_bind, get, take_from_pending. destruct Hi as [Hp Ho]. rewrite Hp, Ho. destruct s. cbn in *. by subst. }
  unfold read, head_reader. assert (Hread := fun f => head_read_mode s f n Hi Hf Hn).
  unfold head_future in Hinv. destruct (head_mode s) as [limit|k] eqn:Hm.
  - destruct Hinv as (rest & Hs & -> & ->). destruct (Z.leb_spec limit (lines_seen s)) as [Hl|Hl].
    { exists (set_head s (head_inner s) (head_mode s) true (lines_seen s)), (Ok []). split.
      - apply eventually_now. intros f. rewrite Hread. unfold read_lines_mode, mbind, comp_bind, get. by rewrite (proj2 (Z.leb_le _ _)) by done.
      - split_and!; [|done|by split]. destruct rest; [done|]. cbn. by rewrite (proj2 (Z.leb_le _ _)) by lia. }
    destruct (head_lines_loop_spec limit n s [] rest) as (s' & x & [f0 Hev] & Hadd); [done|done|]. exists s', x. split.
    + exists f0. intros f Hle. rewrite Hread. unfold read_lines_mode, mbind, comp_bind, get. rewrite (proj2 (Z.leb_gt _ _)) by done. by apply Hev.
    + destruct x as [o|[[| |code]|]|w]; try done; [|by destruct Hadd as (_ & ? & ?)]. destruct Hadd as (c & more & -> & Hc & Hlc & Hnil & Hinv').
      rewrite Hc. cbn [app]. destruct c as [|b c]; cbn [reply].
      * specialize (Hnil eq_refl Hn) as ->. done.
      * split; [done|]. by exists more.
  - destruct Hinv as (Hk & rest & e0 & Hs & -> & ->). destruct (head_bytes_read s k rest e0 n) as (s' & x & [f0 Hev] & Hrep); [done..|].
    exists s', x. split; [|done]. exists f0. intros f Hle. rewrite Hread. by apply Hev.
Qed.

End head.

Section head_contract.
Context {R : Type} `{Reader R}.

Definition set_head_inner (r : R) (s : HeadStreamReader R) : HeadStreamReader R := set_head s r (head_mode s) (head_finished s) (lines_seen s).

Lemma head_inv_stable (S S' : R -> str -> ending -> Prop) s r' bs e : head_inv S s bs e ->
  (forall b e', S (head_inner s) b e' -> S' r' b e') -> head_inv S' (set_head_inner r' s) bs e.
Proof.
  intros [Hi Hs] Hr. split; [done|]. cbn. destruct (head_finished s); [done|]. unfold head_future in *. cbn. destruct (head_mode s).
  - destruct Hs as (rest & Hs & Hx). exists rest. split; [by apply Hr|done].
  - destruct Hs as (Hk & rest & e0 & Hs & Hx). split; [done|]. exists rest, e0. split; [by apply Hr|done].
Qed.

Lemma head_bytes_contract k : 0 <= k -> keeps head_inner set_head_inner (fun r : R => HeadStreamReader_new r (HeadBytes k))
  (fun inp e => Some (take (Z.to_nat k) inp, if k <=? len inp then Eof else e)).
Proof.
  intros Hk. exists head_inv. split_and!; [intros S B HS; by apply head_closed|exact head_inv_stable|].
  intros S r inp e out e' Hs [= <- <-]. split; [done|]. cbn. split; [done|]. by exists inp, e.
Qed.

Lemma head_lines_contract limit : keeps head_inner set_head_inner (fun r : R => HeadStreamReader_new r (HeadLines limit))
  (fun inp e => match e with Eof => Some (take_lines limit inp, Eof) | Fails _ => None end).
Proof.
  exists head_inv. split_and!; [intros S B HS; by apply head_closed|exact head_inv_stable|].
  intros S r inp [|k] out e' Hs [= <- <-]. split; [done|]. cbn. exists inp. split_and!; [done|by rewrite Z.sub_0_r|done].
Qed.
End head_contract.

(** ** tr *)

(** The characters the byte scanner hands on, and the incomplete sequence it
    keeps: an invalid sequence is passed over byte by byte. *)
Fixpoint tr_scan_loop (fuel : nat) (s : str) : list Z * str :=
  match fuel with
  | O => ([], s)
  | S f =>
      match decode_first s with
      | Uchar c rest => let '(cs, p) := tr_scan_loop f rest in (c :: cs, p)
      | Uinvalid _ => let '(cs, p) := tr_scan_loop f (drop 1 s) in (REPLACEMENT :: cs, p)
      | Uincomplete => ([], s)
      end
  end.

Definition tr_scan (s : str) : list Z * str := tr_scan_loop (length s) s.

Lemma decode_nonempty s c rest : decode_first s = Uchar c rest -> s <> [].
Proof. by intros Hd ->. Qed.

Lemma decode_invalid_nonempty s n : decode_first s = Uinvalid n -> s <> [].
Proof. by intros Hd ->. Qed.

Lemma tr_scan_loop_mono f g s : (length s <= f)%nat -> (length s <= g)%nat -> tr_scan_loop f s = tr_scan_loop g s.
Proof.
  revert g s. induction f as [|f IH]; intros g s Hf Hg.
  { destruct s; [|cbn in Hf; lia]. by destruct g. }
  destruct g as [|g]; [destruct s; [done|cbn in Hg; lia]|]. cbn [tr_scan_loop].
  destruct (decode_first s) as [c rest|n|] eqn:Hd; [| |done].
  - apply decode_first_shorter in Hd. rewrite (IH g rest) by lia. done.
  - assert (s <> []) by by eapply decode_invalid_nonempty. rewrite (IH g (drop 1 s)); [done|rewrite length_drop; destruct s; [done|cbn in *; lia]..].
Qed.

Lemma tr_scan_step s : tr_scan s = match decode_first s with
  | Uchar c rest => let '(cs, p) := tr_scan rest in (c :: cs, p)
  | Uinvalid _ => let '(cs, p) := tr_scan (drop 1 s) in (REPLACEMENT :: cs, p)
  | Uincomplete => ([], s)
  end.
Proof.
  unfold tr_scan. destruct s as [|b s]; [done|]. cbn [length tr_scan_loop]. destruct (decode_first (b :: s)) as [c rest|n|] eqn:Hd; [| |done].
  - apply decode_first_shorter in Hd. cbn in Hd. by rewrite (tr_scan_loop_mono (length s) (length rest)) by lia.
  - cbn [drop]. by rewrite drop_0.
Qed.

(** Induction along the scanner. *)
Lemma scan_ind (P : str -> Prop) : (forall s, (forall c rest, decode_first s = Uchar c rest -> P rest) ->
  (forall n, decode_first s = Uinvalid n -> P (drop 1 s)) -> P s) -> forall s, P s.
Proof.
  intros Hstep s. remember (length s) as n eqn:Hn. revert s Hn. induction n as [n IH] using lt_wf_ind. intros s ->. apply Hstep.
  - intros c rest Hd. apply decode_first_shorter in Hd. by apply (IH (length rest)).
  - intros k Hd. apply decode_invalid_nonempty in Hd. destruct s as [|b s]; [done|]. apply (IH (length s)); [cbn; lia|]. cbn. by rewrite drop_0.
Qed.

Lemma tr_scan_app a b : tr_scan (a ++ b) = (fst (tr_scan a) ++ fst (tr_scan (snd (tr_scan a) ++ b)), snd (tr_scan (snd (tr_scan a) ++ b))).
Proof.
  induction a as [a IHc IHi] using scan_ind. rewrite (tr_scan_step a), (tr_scan_step (a ++ b)). pose proof (decode_first_app a b) as Happ.
  destruct (decode_first a) as [c rest|n|] eqn:Hd.
  - rewrite Happ, (IHc _ _ eq_refl). by destruct (tr_scan rest).
  - rewrite Happ. assert (a <> []) by by eapply decode_invalid_nonempty. rewrite drop_app_le by (destruct a; [done|cbn; lia]).
    rewrite (IHi _ eq_refl). by destruct (tr_scan (drop 1 a)).
  - cbn [fst snd app]. by rewrite <-tr_scan_step, <-surjective_pairing.
Qed.

(** What stays pending is an incomplete sequence. *)
Lemma tr_scan_stuck s : tr_scan (snd (tr_scan s)) = ([], snd (tr_scan s)).
Proof.
  induction s as [s IHc IHi] using scan_ind. rewrite (tr_scan_step s). destruct (decode_first s) as [c rest|n|] eqn:Hd.
  - specialize (IHc _ _ eq_refl). by destruct (tr_scan rest).
  - specialize (IHi _ eq_refl). by destruct (tr_scan (drop 1 s)).
  - cbn [snd]. by rewrite tr_scan_step, Hd.
Qed.

(** The code's scanner, which takes the longest valid prefix first, is this one. *)
Lemma valid_prefix_scan f s : (length s <= f)%nat -> let '(cs, rest) := valid_prefix_loop f s in
  tr_scan s = (cs ++ fst (tr_scan rest), snd (tr_scan rest)) /\ (length rest <= length s)%nat /\ (cs <> [] -> (length rest < length s)%nat) /\
  (cs = [] -> rest = s) /\ match decode_first rest with Uchar _ _ => False | _ => True end.
Proof.
  revert s. induction f as [|f IH]; intros s Hf; cbn [valid_prefix_loop].
  { destruct s; [done|cbn in Hf; lia]. }
  destruct s as [|b s]; [done|]. destruct (decode_first (b :: s)) as [c rest|n|] eqn:Hd.
  - pose proof (decode_first_shorter _ _ _ Hd) as Hl. specialize (IH rest). rewrite tr_scan_step, Hd.
    destruct (valid_prefix_loop f rest) as [cs r]. destruct IH as (-> & Hr & _ & _ & Hstuck); [cbn in *; lia|]. split_and!; [done|lia|lia|done|done].
  - rewrite Hd. cbn [app]. rewrite <-surjective_pairing. by split_and!.
  - rewrite Hd. cbn [app]. rewrite <-surjective_pairing. by split_and!.
Qed.

Lemma lossy_one b s n : decode_first (b :: s) = Uinvalid n -> lossy_chars [b] = [REPLACEMENT].
Proof.
  intros Hd. rewrite lossy_chars_step. pose proof (decode_first_spec [b]) as Hs. destruct (decode_first [b]) as [c rest|k|] eqn:Hb; [| |done].
  - pose proof (decode_first_app [b] s) as Happ. rewrite Hb in Happ. cbn [app] in Happ. congruence.
  - f_equal. rewrite drop_ge by (cbn in *; lia). done.
Qed.

Lemma drain_loop_scan f s chars : (length s < f)%nat -> drain_loop f s chars = (snd (tr_scan s), chars ++ fst (tr_scan s)).
Proof.
  revert s chars. induction f as [|f IH]; intros s chars Hf; [lia|]. cbn [drain_loop]. unfold streaming_tr_drain_once, valid_prefix.
  pose proof (valid_prefix_scan (length s) s (le_n _)) as Hv. destruct (valid_prefix_loop (length s) s) as [cs rest].
  destruct Hv as (Hs & Hle & Hlt & Hid & Hstuck). destruct rest as [|b rest]; [by rewrite Hs, app_nil_r|].
  unfold streaming_tr_consume_invalid_prefix. destruct cs as [|c cs].
  - rewrite <-(Hid eq_refl) in *. destruct (decode_first (b :: rest)) as [c r|n|] eqn:Hd; [done| |].
    + cbn [take drop]. rewrite firstn_O, drop_0, (lossy_one _ _ _ Hd), IH by (cbn in *; lia). rewrite (tr_scan_step (b :: rest)), Hd. cbn [drop]. rewrite drop_0.
      destruct (tr_scan rest). cbn [fst snd]. by rewrite <-app_assoc.
    + rewrite (tr_scan_step (b :: rest)), Hd. done.
  - rewrite Hs, IH by (specialize (Hlt ltac:(done)); lia). cbn [fst snd]. by rewrite <-app_assoc.
Qed.

Lemma process_chunk_scan p c : streaming_tr_process_utf8_chunk p c = (snd (tr_scan (p ++ c)), fst (tr_scan (p ++ c))).
Proof. unfold streaming_tr_process_utf8_chunk. by rewrite drain_loop_scan by lia. Qed.

(** One character: the new state and the output. *)
Definition tr_char (o : TrState) (ch : Z) : TrState * str :=
  let c := process_char (Core_new o) ch in (own c, output_pending c).

Fixpoint tr_run (o : TrState) (cs : list Z) : TrState * str :=
  match cs with
  | [] => (o, [])
  | ch :: cs' => let '(o1, a) := tr_char o ch in let '(o2, b) := tr_run o1 cs' in (o2, a ++ b)
  end.

Lemma tr_run_app o a b : tr_run o (a ++ b) = (fst (tr_run (fst (tr_run o a)) b), snd (tr_run o a) ++ snd (tr_run (fst (tr_run o a)) b)).
Proof.
  revert o. induction a as [|ch a IH]; intros o; cbn [app tr_run]; [by rewrite <-surjective_pairing|].
  destruct (tr_char o ch) as [o1 x]. rewrite IH. destruct (tr_run o1 a). cbn [fst snd]. by rewrite <-app_assoc.
Qed.

Lemma process_char_run (c : Core TrState) ch : process_char c ch =
  {| own := fst (tr_char (own c) ch); output_pending := output_pending c ++ snd (tr_char (own c) ch); output_offset := output_offset c; finished := finished c |}.
Proof.
  assert (Hkeep : c = {| own := own c; output_pending := output_pending c ++ []; output_offset := output_offset c; finished := finished c |}) by (rewrite app_nil_r; by destruct c).
  unfold tr_char, process_char, process_char_delete, process_char_translate. cbn [own Core_new].
  repeat (case_split; try exact Hkeep; try done).
Qed.

Lemma process_chars_run (cs : list Z) (c : Core TrState) : fold_left process_char cs c =
  {| own := fst (tr_run (own c) cs); output_pending := output_pending c ++ snd (tr_run (own c) cs); output_offset := output_offset c; finished := finished c |}.
Proof.
  revert c. induction cs as [|ch cs IH]; intros c; cbn [fold_left tr_run]; [rewrite app_nil_r; by destruct c|].
  rewrite IH, process_char_run. cbn [own output_pending output_offset finished]. destruct (tr_char (own c) ch) as [o1 a]. cbn [fst snd].
  destruct (tr_run o1 cs). cbn [fst snd]. by rewrite <-app_assoc.
Qed.

(** The characters of an input; at its end an incomplete sequence counts as one. *)
Definition tr_chars (e : ending) (s : str) : list Z :=
  fst (tr_scan s) ++ match e with Eof => lossy_chars (snd (tr_scan s)) | Fails _ => [] end.

Definition tr_text (stage : StreamingTrStage) (e : ending) (s : str) : str :=
  snd (tr_run {| tr_stage := stage; tr_prev := None |} (tr_chars e s)).

Lemma tr_chars_app e a b : tr_chars e (a ++ b) = fst (tr_scan a) ++ tr_chars e (snd (tr_scan a) ++ b).
Proof. unfold tr_chars. rewrite tr_scan_app. cbn [fst snd]. by rewrite <-app_assoc. Qed.

Section tr.
Context {R : Type} `{Reader R}.

Definition tr_handle (c : list Ascii.ascii) (s : TrStreamReader R) : TrStreamReader R :=
  match c with
  | [] => {| inner := inner s; input_pending := []; core := set_finished (fold_left process_char (lossy_chars (input_pending s)) (core s)) |}
  | _ => {| inner := inner s; input_pending := snd (tr_scan (input_pending s ++ c));
            core := fold_left process_char (fst (tr_scan (input_pending s ++ c))) (core s) |}
  end.

Lemma tr_contract stage : keeps inner set_inner (fun r : R => TrStreamReader_new r stage) (fun inp e => Some (tr_text stage e inp, e)).
Proof.
  apply (chunk_stage_keeps tr_step tr_handle (fun o p rest e => snd (tr_run o (tr_chars e (p ++ rest)))) (fun _ p => tr_scan p = ([], p)));
    [| | | |done|done].
  - intros f s _. unfold tr_step, mbind, comp_bind, get. destruct (read_inner f SCRATCH s) as [s' [[|b c]|e1|w]]; try done.
    rewrite process_chunk_scan. done.
  - intros c [ri p [o op i fin]] Hc Hp Hf. cbn in Hf. subst fin. exists (fst (tr_run o (fst (tr_scan (p ++ c))))), (snd (tr_scan (p ++ c))), (snd (tr_run o (fst (tr_scan (p ++ c))))).
    split_and!; [apply tr_scan_stuck| |].
    + destruct c as [|b c]; [done|]. unfold tr_handle, moved. cbn [core inner input_pending]. by rewrite process_chars_run.
    + intros rest e1. cbn [core own input_pending]. rewrite app_assoc, tr_chars_app, tr_run_app. done.
  - intros [ri p [o op i fin]] Hp Hf. cbn in Hf. cbn [input_pending core own] in Hp. subst fin. exists (fst (tr_run o (lossy_chars p))), []. split; [done|].
    unfold tr_handle, moved. cbn [core inner input_pending]. rewrite process_chars_run. cbn [own output_pending output_offset].
    rewrite app_nil_r. unfold tr_chars. by rewrite Hp.
  - intros o p k Hp. rewrite app_nil_r. unfold tr_chars. by rewrite Hp.
Qed.
End tr.

(** On ASCII text without deletion and squeezing, [tr] maps the characters. *)
Lemma tr_scan_ascii s : is_ascii s = true -> tr_scan s = (map byte_val s, []).
Proof.
  induction s as [|b s IH]; [done|]. cbn [is_ascii forallb]. intros [Hb Hs]%andb_true_iff. rewrite tr_scan_step. cbn [decode_first].
  rewrite Hb, (IH Hs). done.
Qed.

Lemma tr_translate_text stage s : is_ascii s = true -> tr_delete stage = false -> squeeze stage = false ->
  tr_text stage Eof s = concat (map (fun b => encode (translate stage (byte_val b))) s).
Proof.
  intros Ha Hd Hsq. unfold tr_text, tr_chars. rewrite tr_scan_ascii by done. cbn [fst snd]. change (lossy_chars []) with (@nil Z). rewrite app_nil_r. clear Ha.
  generalize (@None Z). induction s as [|b s IH]; intros prev; [done|]. cbn [map tr_run concat].
  unfold tr_char, process_char, process_char_translate, emit_char. cbn [Core_new own tr_stage]. rewrite Hd, Hsq. cbn.
  specialize (IH (Some (translate stage (byte_val b)))). destruct (tr_run _ (map byte_val s)) as [o2 x]. cbn [snd] in *. by rewrite IH.
Qed.

(** ** paste -s: the lines joined *)

(** The lines still to come; the first one of all has no delimiter. *)
Definition joined (delim : str) (first : bool) (ls : list str) : str :=
  (if first then join delim ls else concat (map (app delim) ls)) ++ [newline].

Lemma joined_cons delim first l ls : joined delim first (l :: ls) = (if first then [] else delim) ++ l ++ joined delim false ls.
Proof.
  unfold joined. destruct first; cbn [map concat]; [|by rewrite <-!app_assoc]. cbn [app]. rewrite app_assoc. f_equal.
  clear. revert l. induction ls as [|m ls IH]; intros l; [by rewrite app_nil_r|]. rewrite join_cons, IH. cbn [map concat]. by rewrite <-app_assoc.
Qed.

Section paste_serial.
Context {R : Type} `{Reader R} (delim : list Ascii.ascii).

(** The contract of the inner reader. *)
Context (Sin : R -> list Ascii.ascii -> ending -> Prop) (B : R -> Prop).

Definition serial_own (first : bool) : PasteState :=
  {| paste_stage := {| delimiter := delim; serial := true |}; ended_with_newline := true; serial_first := first |}.

Definition paste_inv (k : nat) (s : PasteStreamReader R) (out : str) (e : ending) : Prop := e = Eof /\ core_ok (core s) /\
  if finished (core s) then out = []
  else exists first rest, own (core s) = serial_own first /\ Sin (inner s) rest Eof /\ out = joined delim first (lines Eof (input_pending s ++ rest)).

(** The stage when [finalize_serial] returns or has to wait. *)
Definition serial_steps (s' : PasteStreamReader R) (out : str) (x : res io_stop unit) : Prop := core_ok (core s') /\
  match x with
  | Ok _ => visible (core s') = out
  | Err (IoError WouldBlock) => exists rest, out = visible (core s') ++ rest /\ paste_inv 0 s' rest Eof /\ B (inner s')
  | _ => False
  end.

Lemma paste_line_core line p i first : paste_line line {| own := serial_own first; output_pending := p; output_offset := i; finished := false |} =
  {| own := serial_own false; output_pending := p ++ (if first then [] else delim) ++ line; output_offset := i; finished := false |}.
Proof. unfold paste_line, emit, set_output, set_own. destruct first; cbn; by rewrite ?app_assoc. Qed.

Context (Hin : closed Sin B).

Lemma finalize_serial_spec rest : forall (s : PasteStreamReader R) first, own (core s) = serial_own first -> finished (core s) = false -> core_ok (core s) ->
  Sin (inner s) rest Eof ->
  exists s' x, eventually (fun f => finalize_serial f s) (s', x) /\
    serial_steps s' (visible (core s) ++ joined delim first (lines Eof (input_pending s ++ rest))) x.
Proof.
  intros s first. remember (length (input_pending s ++ rest)) as n eqn:Hn. revert s rest first Hn.
  induction n as [n IH] using lt_wf_ind. intros s rest first -> Ho Hf Hok Hs.
  destruct (next_line_spec Sin B Hin (inner s) (input_pending s) rest Eof Hs) as ([r' p'] & x & Hev & rest' & Hs' & Hx).
  apply zoom_next_line in Hev. cbn [fst snd] in *. destruct Hev as [f0 Hev].
  assert (Hline : forall line b, x = Ok (Some (line, b)) -> lines Eof (input_pending s ++ rest) = line :: lines Eof (p' ++ rest') ->
    (length (p' ++ rest') < length (input_pending s ++ rest))%nat ->
    exists s' y, eventually (fun f => finalize_serial f s) (s', y) /\
      serial_steps s' (visible (core s) ++ joined delim first (lines Eof (input_pending s ++ rest))) y).
  { intros line b -> Hl Hlt. set (s1 := set_core (paste_line line (core s)) (set_input (r', p') s)).
    assert (Hc : core s1 = {| own := serial_own false; output_pending := output_pending (core s) ++ (if first then [] else delim) ++ line;
      output_offset := output_offset (core s); finished := false |}).
    { subst s1. cbn. destruct (core s) as [o op i fin]. cbn in *. subst. apply paste_line_core. }
    destruct (IH _ Hlt s1 rest' false) as (s' & y & Hy & Hst); [done|by rewrite Hc|by rewrite Hc|rewrite Hc; by apply core_ok_emit|done|].
    exists s', y. split.
    - one_call f0 ltac:(fun _ => cbn [finalize_serial]; unfold mbind, comp_bind; rewrite Hev by done). done.
    - rewrite Hl, joined_cons. rewrite Hc, visible_emit in Hst by done. by rewrite <-!app_assoc in Hst. }
  destruct x as [[[line [|]]|]|[[| |code]|]|w]; try done; try (by destruct Hx as (_ & _ & _ & ?)).
  - destruct Hx as (l & Hl & Ht & ->). apply (Hline _ _ eq_refl).
    + by rewrite Ht, lines_cons.
    + rewrite Ht, (length_app l). cbn. lia.
  - destruct Hx as (Hl & Hne & -> & -> & -> & _). apply (Hline _ _ eq_refl).
    + by rewrite lines_last.
    + cbn. destruct (input_pending s ++ rest); [done|cbn; lia].
  - destruct Hx as (Ht & -> & -> & _). exists (set_core (emit [newline] (core s)) (set_input (r', []) s)), (Ok tt). split.
    + one_call f0 ltac:(fun _ => cbn [finalize_serial]; unfold mbind, comp_bind; rewrite Hev by done). by apply eventually_now.
    + rewrite Ht, lines_nil. split; [by apply core_ok_emit|]. cbn [core set_core].
      replace (visible (emit [newline] (core s))) with (visible (core s) ++ [newline]) by (symmetry; by apply visible_emit). by destruct first.
  - exists (set_input (r', p') s), (Err (IoError WouldBlock)). split.
    + one_call f0 ltac:(fun _ => cbn [finalize_serial]; unfold mbind, comp_bind; rewrite Hev by done). by apply eventually_now.
    + split; [done|]. exists (joined delim first (lines Eof (input_pending s ++ rest))). destruct Hx as [Hx Hb]. split; [done|]. split; [|done]. split; [done|]. split; [done|]. cbn. rewrite Hf.
      exists first, rest'. by rewrite Hx.
Qed.

Lemma paste_serial_step k s out e : paste_inv k s out e -> finished (core s) = false -> visible (core s) = [] ->
  exists s' x, eventually (fun f => paste_step f s) (s', x) /\ steps_to paste_inv B k s' out e x.
Proof.
  intros (-> & Hok & Hinv) Hf Hv. rewrite Hf in Hinv. destruct Hinv as (first & rest & Ho & Hs & ->).
  destruct (finalize_serial_spec rest s first Ho Hf Hok Hs) as (s' & x & [f0 Hev] & Hok' & Hst). rewrite Hv in Hst. cbn [app] in Hst.
  assert (Hstep : forall f, (f0 <= f)%nat -> paste_step f s = match x with Ok _ => (set_core (set_finished (core s')) s', Ok tt) | Err e => (s', Err e) | Panic w => (s', Panic w) end).
  { intros f Hle. unfold paste_step, mbind, comp_bind, get. rewrite Ho. cbn [serial_own paste_stage serial]. rewrite Hev by done. by destruct x. }
  destruct x as [u|[[| |code]|]|w]; try done; eexists _, _; (split; [exists f0; exact Hstep|]); cbn [steps_to].
  - exists 0%nat, []. cbn. change (visible (set_finished (core s'))) with (visible (core s')). rewrite Hst, app_nil_r. split; [done|].
    split; [|done]. split; [done|]. split; [done|]. done.
  - destruct Hst as (rest' & -> & Hinv & Hb). by exists 0%nat, rest'.
Qed.

Lemma paste_serial_closed : closed (holds paste_inv) (fun s => B (inner s)).
Proof.
  intros s bs e0 n (k & out & -> & Hinv) Hn. apply (read_with_spec paste_step paste_inv B) with (k := k); [| | |done|done].
  - intros k1 s1 out1 e1 c (-> & Hok & Hi) (Ho & Hf & Hok'). split; [done|]. split; [done|]. cbn. by rewrite <-Ho, <-Hf.
  - intros k1 s1 out1 e1 (-> & _ & Hi) Hf. by rewrite Hf in Hi.
  - apply paste_serial_step.
Qed.
End paste_serial.

Lemma paste_serial_contract {R} `{Reader R} delim : keeps inner set_inner (fun r : R => PasteStreamReader_new r {| delimiter := delim; serial := true |})
  (fun inp e => match e with Eof => Some (join delim (lines Eof inp) ++ [newline], Eof) | Fails _ => None end).
Proof.
  exists (fun S => holds (paste_inv delim S)). split_and!.
  - intros S B HS. by apply paste_serial_closed.
  - intros S S' s r' bs e (k & out & -> & -> & Hok & Hi) Hr. exists k, out. split; [done|]. split; [done|]. split; [done|]. cbn.
    destruct (finished (core s)); [done|]. destruct Hi as (first & rest & Ho & Hs & Hi). exists first, rest. split_and!; [done|by apply Hr|done].
  - intros S r inp [|k] out e' Hs [= <- <-]. exists 0%nat, (joined delim true (lines Eof inp)). split; [done|]. split; [done|].
    split; [unfold core_ok; cbn; lia|]. cbn. by exists true, inp.
Qed.
