(* ===== verification/StreamGrep.v ===== *)
(** * The grep stage (crates/wasmsh-runtime/src/streaming_grep.rs)

    The regular expressions are those of the posix-regex crate, which is an
    argument: compiling a pattern and the matches of a compiled one.  The exit
    status is a cell that only this reader writes; it is a field of its state. *)

From S2P Require Import Prelude Strings Utf8 Stream StreamLines.

(** The interface of posix-regex that the code uses: [compile] of a builder with
    the default classes, and [matches(text, Some(1))] with the ranges of the whole
    match and of the groups. *)
Class PosixRegex := {
  regex : Type;
  compile : list Ascii.ascii -> option regex;
  re_matches : regex -> list Ascii.ascii -> list (list (option (nat * nat)));
}.

Record StreamingGrepFlags := {
  grep_ignore_case : bool;
  invert : bool;
  count_only : bool;
  show_line_numbers : bool;
  files_only : bool;
  word_match : bool;
  only_matching : bool;
  quiet : bool;
  extended : bool;
  fixed : bool;
  after_context : Z;
  before_context : Z;
  max_count : option Z;
  show_filename : option bool;
}.

Record StreamingGrepStage := {
  grep_flags : StreamingGrepFlags;
  patterns : list (list Ascii.ascii);
}.

Record GrepState := {
  grep_stage : StreamingGrepStage;
  status : Z;
  match_count : Z;
  found : bool;
  remaining_after : Z;
  printed_separator : bool;
  before_buf : list (Z * list Ascii.ascii);
  grep_line_num : Z;
  emitted_count_summary : bool;
}.

(** [contains] with a string pattern. *)
Definition contains_sub (line pattern : str) : bool := bool_decide (is_Some (find_sub pattern line)).

(** [split] with a predicate on characters. *)
Fixpoint split_chars (sep : Z -> bool) (cs : list Z) : list (list Z) :=
  match cs with
  | [] => [[]]
  | c :: cs' =>
      if sep c then [] :: split_chars sep cs'
      else match split_chars sep cs' with h :: t => (c :: h) :: t | [] => [[c]] end
  end.

(** [u8::is_ascii_alphanumeric]. *)
Definition is_ascii_alphanumeric (b : byte) : bool := ascii_alphanumeric (byte_val b).

Section grep.
Context `{Unicode} `{PosixRegex}.

Definition streaming_grep_match_single (line pattern : str) (fl : StreamingGrepFlags) : bool :=
  if word_match fl then
    existsb (fun word => bool_decide (encode_all word = pattern))
      (split_chars (fun c => negb (is_alphanumeric c) && negb (c =? 95)) (lossy_chars line))
  else if fixed fl then contains_sub line pattern
  else match compile pattern with
       | Some re => match re_matches re line with [] => false | _ => true end
       | None => contains_sub line pattern
       end.

Definition streaming_grep_match_pattern (line pattern : str) (fl : StreamingGrepFlags) : bool :=
  let '(line_cmp, pattern_cmp) := if grep_ignore_case fl then (to_lowercase line, to_lowercase pattern) else (line, pattern) in
  if extended fl && bool_decide ("|"%char ∈ pattern_cmp) then
    existsb (fun alt => streaming_grep_match_single line_cmp (trim alt) fl) (split_on "|"%char pattern_cmp)
  else streaming_grep_match_single line_cmp pattern_cmp fl.

(** The positions are those of the lower-cased line; a cut inside a character of
    the line itself panics. *)
Definition streaming_grep_find_match (line pattern : str) (fl : StreamingGrepFlags) : res io_stop (option str) :=
  let '(line_cmp, pattern_cmp) := if grep_ignore_case fl then (to_lowercase line, to_lowercase pattern) else (line, pattern) in
  match find_sub pattern_cmp line_cmp with
  | None => mret None
  | Some start =>
      let stop := (start + length pattern_cmp)%nat in
      let alnum_at i := match line_cmp !! i with Some b => is_ascii_alphanumeric b | None => false end in
      if word_match fl && ((0 <? start)%nat && alnum_at (start - 1)%nat) then mret None
      else if word_match fl && ((stop <? length line_cmp)%nat && alnum_at stop) then mret None
      else m ← str_slice line start stop; mret (Some m)
  end.

Definition streaming_grep_line_matches (line : str) (fl : StreamingGrepFlags) (pats : list str) : bool :=
  xorb (existsb (fun pattern => streaming_grep_match_pattern line pattern fl) pats) (invert fl).

Definition grep_prefix (line_num : Z) (fl : StreamingGrepFlags) : str :=
  (match show_filename fl with Some true => #"(standard input):" | _ => [] end) ++
  (if show_line_numbers fl then Z_to_string line_num ++ #":" else []).

(** The loop over the patterns. *)
Fixpoint only_matching_loop (line prefix : str) (fl : StreamingGrepFlags) (pats : list str) : res io_stop str :=
  match pats with
  | [] => mret []
  | pattern :: pats' =>
      m ← streaming_grep_find_match line pattern fl;
      rest ← only_matching_loop line prefix fl pats';
      mret (match m with Some matched => prefix ++ matched ++ [newline] ++ rest | None => rest end)
  end.

(** What [emit_streaming_grep_one] appends. *)
Definition emit_streaming_grep_one (line : str) (line_num : Z) (fl : StreamingGrepFlags) (pats : list str) : res io_stop str :=
  let prefix := grep_prefix line_num fl in
  if only_matching fl then only_matching_loop line prefix fl pats
  else mret (prefix ++ line ++ [newline]).

Definition GrepStreamReader (R : Type) : Type := Filter R GrepState.
Definition GrepStreamReader_new {R} (r : R) (stage : StreamingGrepStage) (status : Z) : GrepStreamReader R :=
  Filter_new r {| grep_stage := stage; status := status; match_count := 0; found := false; remaining_after := 0;
                  printed_separator := false; before_buf := []; grep_line_num := 0; emitted_count_summary := false |}.

Definition flags_of (o : GrepState) : StreamingGrepFlags := grep_flags (grep_stage o).

Definition emit_count_summary (c : Core GrepState) : Core GrepState :=
  let o := own c in
  if count_only (flags_of o) && negb (quiet (flags_of o)) && negb (emitted_count_summary o) then
    emit ((match show_filename (flags_of o) with Some true => #"(standard input):" | _ => [] end) ++ Z_to_string (match_count o) ++ [newline])
      (set_own {| grep_stage := grep_stage o; status := status o; match_count := match_count o; found := found o;
                  remaining_after := remaining_after o; printed_separator := printed_separator o; before_buf := before_buf o;
                  grep_line_num := grep_line_num o; emitted_count_summary := true |} c)
  else c.

Definition should_stop_for_max_count (o : GrepState) : bool :=
  match max_count (flags_of o) with Some m => m <=? match_count o | None => false end.

Definition check_max_count (c : Core GrepState) : Core GrepState :=
  if should_stop_for_max_count (own c) then set_finished c else c.

(** The loop over the buffered lines. *)
Fixpoint emit_each (stage : StreamingGrepStage) (buf : list (Z * str)) : res io_stop str :=
  match buf with
  | [] => mret []
  | (n, line) :: buf' =>
      a ← emit_streaming_grep_one line n (grep_flags stage) (patterns stage);
      b ← emit_each stage buf'; mret (a ++ b)
  end.

Definition set_before_buf (buf : list (Z * str)) (o : GrepState) : GrepState :=
  {| grep_stage := grep_stage o; status := status o; match_count := match_count o; found := found o; remaining_after := remaining_after o;
     printed_separator := printed_separator o; before_buf := buf; grep_line_num := grep_line_num o; emitted_count_summary := emitted_count_summary o |}.

Definition set_after (n : Z) (sep : bool) (o : GrepState) : GrepState :=
  {| grep_stage := grep_stage o; status := status o; match_count := match_count o; found := found o; remaining_after := n;
     printed_separator := sep; before_buf := before_buf o; grep_line_num := grep_line_num o; emitted_count_summary := emitted_count_summary o |}.

Definition flush_before_context (c : Core GrepState) : res io_stop (Core GrepState) :=
  let o := own c in
  if (before_context (flags_of o) =? 0) || (match before_buf o with [] => true | _ => false end) then mret (set_own (set_before_buf [] o) c)
  else
    text ← emit_each (grep_stage o) (before_buf o);
    mret (emit ((if printed_separator o then #"--" ++ [newline] else []) ++ text) (set_own (set_before_buf [] o) c)).

Definition on_match (line : str) (c : Core GrepState) : res io_stop (Core GrepState) :=
  let o := own c in
  let o := {| grep_stage := grep_stage o; status := 0; match_count := match_count o + 1; found := true; remaining_after := remaining_after o;
              printed_separator := printed_separator o; before_buf := before_buf o; grep_line_num := grep_line_num o;
              emitted_count_summary := emitted_count_summary o |} in
  let c := set_own o c in
  let fl := flags_of o in
  if quiet fl || files_only fl then mret (check_max_count c)
  else
    c ← (if count_only fl then mret c
         else
           c ← flush_before_context c;
           text ← emit_streaming_grep_one line (grep_line_num o) fl (patterns (grep_stage o));
           mret (set_own (set_after (after_context fl) true (own c)) (emit text c)));
    mret (if should_stop_for_max_count (own c) then set_finished (emit_count_summary c) else c).

Definition on_nonmatch (line : str) (c : Core GrepState) : res io_stop (Core GrepState) :=
  let o := own c in
  let fl := flags_of o in
  if (0 <? remaining_after o) && negb (count_only fl) then
    text ← emit_streaming_grep_one line (grep_line_num o) fl (patterns (grep_stage o));
    mret (emit text (set_own (set_after (remaining_after o - 1) (printed_separator o) o) c))
  else if 0 <? before_context fl then
    let buf := before_buf o ++ [(grep_line_num o, line)] in
    mret (set_own (set_before_buf (if before_context fl <? len buf then tl buf else buf) o) c)
  else mret c.

Definition grep_line (line : str) (c : Core GrepState) : res io_stop (Core GrepState) :=
  let o := own c in
  let o := {| grep_stage := grep_stage o; status := status o; match_count := match_count o; found := found o; remaining_after := remaining_after o;
              printed_separator := printed_separator o; before_buf := before_buf o; grep_line_num := grep_line_num o + 1;
              emitted_count_summary := emitted_count_summary o |} in
  let c := set_own o c in
  if streaming_grep_line_matches line (flags_of o) (patterns (grep_stage o)) then on_match line c else on_nonmatch line c.

Definition grep_eof (c : Core GrepState) : Core GrepState :=
  let c := emit_count_summary c in
  let o := own c in
  set_finished (if found o then c
    else set_own {| grep_stage := grep_stage o; status := 1; match_count := match_count o; found := found o; remaining_after := remaining_after o;
                    printed_separator := printed_separator o; before_buf := before_buf o; grep_line_num := grep_line_num o;
                    emitted_count_summary := emitted_count_summary o |} c).

Section read.
Context {R : Type} `{Reader R}.

Definition pump_one_line (fuel : nat) : comp (GrepStreamReader R) io_stop unit :=
  l ← next_line fuel;
  match l with
  | Some (line, _) => s ← get; c ← lift_res (grep_line line (core s)); modify (set_core c)
  | None => on_core grep_eof
  end.

Definition grep_read : nat -> nat -> comp (GrepStreamReader R) io_stop str := read_with pump_one_line.
#[export] Instance grep_reader : Reader (GrepStreamReader R) := grep_read.
End read.
End grep.
