(* ===== verification/StreamGrepProps.v ===== *)
(** * The grep stage: what it delivers

    The stage keeps the last lines it has not printed in a buffer, for the lines
    before a match.  The reference looks ahead instead of buffering, and the stage
    serves the reference's text of the lines of its input.  The printing options
    are covered except [-o], which may panic when lower-casing changes lengths. *)

From S2P Require Import Prelude Strings Utf8 Stream StreamProps StreamLines StreamGrep.

Section grep.
Context `{Unicode} `{PosixRegex}.

(** ** The handlers only append *)

Definition prints_lines (o : GrepState) : Prop := only_matching (flags_of o) = false.

Definition grep_text (fl : StreamingGrepFlags) (nl : Z * str) : str := grep_prefix (fst nl) fl ++ snd nl ++ [newline].

Lemma emit_one line n fl pats : only_matching fl = false -> emit_streaming_grep_one line n fl pats = Ok (grep_text fl (n, line)).
Proof. unfold emit_streaming_grep_one. by intros ->. Qed.

Definition grep_texts (fl : StreamingGrepFlags) (buf : list (Z * str)) : str := concat (map (grep_text fl) buf).

Lemma emit_each_lines stage buf : only_matching (grep_flags stage) = false -> emit_each stage buf = Ok (grep_texts (grep_flags stage) buf).
Proof.
  intros Hp. induction buf as [|[n line] buf IH]; [done|]. cbn [emit_each]. rewrite emit_one by done. cbn. by rewrite IH.
Qed.

Definition matched (o : GrepState) (line : str) : bool := streaming_grep_line_matches line (flags_of o) (patterns (grep_stage o)).

Definition separator (before : Z) (seen : bool) (buf : list (Z * str)) : str :=
  if (before =? 0) || (match buf with [] => true | _ => false end) then [] else if seen then #"--" ++ [newline] else [].

Definition count_summary (fl : StreamingGrepFlags) (n : Z) : str :=
  (match show_filename fl with Some true => #"(standard input):" | _ => [] end) ++ Z_to_string n ++ [newline].

Definition set_line_num (n : Z) (o : GrepState) : GrepState :=
  {| grep_stage := grep_stage o; status := status o; match_count := match_count o; found := found o; remaining_after := remaining_after o;
     printed_separator := printed_separator o; before_buf := before_buf o; grep_line_num := n; emitted_count_summary := emitted_count_summary o |}.
Definition set_found (o : GrepState) : GrepState :=
  {| grep_stage := grep_stage o; status := 0; match_count := match_count o + 1; found := true; remaining_after := remaining_after o;
     printed_separator := printed_separator o; before_buf := before_buf o; grep_line_num := grep_line_num o; emitted_count_summary := emitted_count_summary o |}.
Definition set_summarised (o : GrepState) : GrepState :=
  {| grep_stage := grep_stage o; status := status o; match_count := match_count o; found := found o; remaining_after := remaining_after o;
     printed_separator := printed_separator o; before_buf := before_buf o; grep_line_num := grep_line_num o; emitted_count_summary := true |}.

Definition summarises (o : GrepState) : bool := count_only (flags_of o) && negb (quiet (flags_of o)) && negb (emitted_count_summary o).

(** The lines kept for the next match, and the output for a line that matches. *)
Definition flushed (o : GrepState) : str :=
  if (before_context (flags_of o) =? 0) || (match before_buf o with [] => true | _ => false end) then []
  else separator (before_context (flags_of o)) (printed_separator o) (before_buf o) ++ grep_texts (flags_of o) (before_buf o).

Definition t_match (line : str) (o : GrepState) : GrepState * str * bool :=
  let o := set_found o in
  if quiet (flags_of o) || files_only (flags_of o) then (o, [], should_stop_for_max_count o)
  else if count_only (flags_of o) then
    if should_stop_for_max_count o && summarises o then (set_summarised o, count_summary (flags_of o) (match_count o), true)
    else (o, [], should_stop_for_max_count o)
  else (set_after (after_context (flags_of o)) true (set_before_buf [] o), flushed o ++ grep_text (flags_of o) (grep_line_num o, line), should_stop_for_max_count o).

Definition t_nonmatch (line : str) (o : GrepState) : GrepState * str * bool :=
  if (0 <? remaining_after o) && negb (count_only (flags_of o)) then
    (set_after (remaining_after o - 1) (printed_separator o) o, grep_text (flags_of o) (grep_line_num o, line), false)
  else if 0 <? before_context (flags_of o) then
    let buf := before_buf o ++ [(grep_line_num o, line)] in
    (set_before_buf (if before_context (flags_of o) <? len buf then tl buf else buf) o, [], false)
  else (o, [], false).

Definition grep_t_line (line : str) (o : GrepState) : GrepState * str * bool :=
  let o := set_line_num (grep_line_num o + 1) o in if matched o line then t_match line o else t_nonmatch line o.

Definition grep_t_eof (o : GrepState) : str := if summarises o then count_summary (flags_of o) (match_count o) else [].

Definition grep_transducer : transducer GrepState := {| t_line := grep_t_line; t_eof := grep_t_eof |}.

Definition put (c : Core GrepState) (x : GrepState * str * bool) : Core GrepState :=
  let '(o, add, stop) := x in
  {| own := o; output_pending := output_pending c ++ add; output_offset := output_offset c; finished := finished c || stop |}.

Lemma put_nothing c o : put c (o, [], false) = set_own o c.
Proof. unfold put. by rewrite app_nil_r, orb_false_r. Qed.

Lemma flush_put c : prints_lines (own c) -> flush_before_context c = Ok (put c (set_before_buf [] (own c), flushed (own c), false)).
Proof.
  intros Hp. unfold flush_before_context, flushed. destruct (_ || _) eqn:Hb; [by rewrite put_nothing|].
  unfold flags_of. rewrite emit_each_lines by done. cbn. unfold put, emit, set_own, set_output, separator. fold (flags_of (own c)). rewrite Hb. cbn. by rewrite orb_false_r.
Qed.

Lemma nonmatch_put line c : prints_lines (own c) -> on_nonmatch line c = Ok (put c (t_nonmatch line (own c))).
Proof.
  intros Hp. unfold on_nonmatch, t_nonmatch. destruct (_ && _).
  - rewrite emit_one by done. cbn. unfold put, emit, set_own, set_output. cbn. by rewrite orb_false_r.
  - destruct (0 <? _); rewrite put_nothing; [done|by destruct c].
Qed.

Lemma no_summary c : count_only (flags_of (own c)) = false -> emit_count_summary c = c.
Proof. unfold emit_count_summary. by intros ->. Qed.

Lemma match_put line c : prints_lines (own c) -> on_match line c = Ok (put c (t_match line (own c))).
Proof.
  intros Hp. unfold on_match, t_match. fold (set_found (own c)). set (o := set_found (own c)). cbn [set_own own].
  assert (Ho : prints_lines o) by done. clearbody o. destruct (quiet (flags_of o) || files_only (flags_of o)) eqn:Hq.
  { unfold check_max_count. cbn [own set_own]. destruct (should_stop_for_max_count o); [|by rewrite put_nothing]. cbn. unfold set_finished, set_own. cbn. by rewrite app_nil_r, orb_true_r. }
  destruct (count_only (flags_of o)) eqn:Hc.
  - cbn [mbind res_bind mret res_ret own set_own]. destruct (should_stop_for_max_count o); cbn [andb]; [|by rewrite put_nothing].
    unfold emit_count_summary. cbn [set_own own]. unfold summarises. destruct (_ && _); cbn; rewrite orb_true_r; [done|by rewrite app_nil_r].
  - rewrite flush_put by done. cbn [mbind res_bind set_own own put]. rewrite emit_one by done. cbn [mbind res_bind mret res_ret].
    rewrite no_summary by done. unfold put, emit, set_own, set_output. cbn [own output_pending output_offset finished].
    replace (should_stop_for_max_count _) with (should_stop_for_max_count o) by done. rewrite app_assoc, orb_false_r.
    destruct (should_stop_for_max_count o); [by rewrite orb_true_r|by rewrite orb_false_r].
Qed.

Lemma grep_line_put line c : prints_lines (own c) -> grep_line line c = Ok (put c (grep_t_line line (own c))).
Proof.
  intros Hp. unfold grep_line, grep_t_line. fold (set_line_num (grep_line_num (own c) + 1) (own c)).
  set (o := set_line_num _ _). assert (Ho : prints_lines o) by done. clearbody o. cbn [set_own own]. fold (matched o line).
  destruct (matched o line); [rewrite match_put by done|rewrite nonmatch_put by done]; done.
Qed.

Lemma t_line_stage line o : grep_stage (fst (fst (grep_t_line line o))) = grep_stage o.
Proof.
  unfold grep_t_line. destruct (matched _ _); [unfold t_match|unfold t_nonmatch]; repeat case_match; simplify_eq/=; done.
Qed.

Definition grep_start (stage : StreamingGrepStage) (st : Z) : GrepState := own (core (GrepStreamReader_new (R := unit) tt stage st)).

Lemma grep_run_contract {R} `{Reader R} stage st : only_matching (grep_flags stage) = false ->
  keeps inner set_inner (fun r : R => GrepStreamReader_new r stage st) (fun inp e => Some (run grep_transducer (grep_start stage st) (lines e inp) e)).
Proof.
  intros Ho. apply (line_stage_keeps grep_transducer prints_lines (fun l c => put c (grep_t_line l (own c))) grep_eof pump_one_line); [| | |done|done].
  - intros f s Hp. unfold pump_one_line, pump_line, mbind, comp_bind. destruct (next_line f s) as [s' [[[l b]|]|e'|w]] eqn:Hn; [|done..].
    assert (core s' = core s) as Hc by (revert Hn; unfold next_line, zoom; destruct (streaming_read_next_line _ _); by intros [= <- _]).
    unfold get, lift_res. rewrite grep_line_put by (by rewrite Hc). done.
  - intros l c Hf Hp. split.
    + unfold prints_lines, flags_of. cbn. by rewrite t_line_stage.
    + cbn. destruct (grep_t_line l (own c)) as [[o add] stop]. cbn. by rewrite Hf.
  - intros c Hp. unfold grep_eof, emit_count_summary. cbn. unfold grep_t_eof. fold (summarises (own c)). destruct (summarises (own c)).
    + cbn [own emit set_output set_own found]. destruct (found (own c)); eexists; (split; cycle 1; [reflexivity|done]).
    + rewrite app_nil_r. destruct (found (own c)); eexists; (split; cycle 1; [reflexivity|done]).
Qed.

(** ** The reference

    The lines of a file with their numbers; the lines up to the one that reaches
    the maximal count; and the text printed for them.  A line before a match is
    found by looking ahead. *)
Fixpoint number (n : Z) (ls : list str) : list (Z * str) :=
  match ls with [] => [] | l :: ls' => (n + 1, l) :: number (n + 1) ls' end.

Section reference.
Context (stage : StreamingGrepStage).
Definition sel (l : str) : bool := streaming_grep_line_matches l (grep_flags stage) (patterns stage).

Definition reached (k : Z) : bool := match max_count (grep_flags stage) with Some m => m <=? k | None => false end.

Fixpoint up_to_max (k : Z) (ls : list str) : list str :=
  match ls with
  | [] => []
  | l :: ls' => l :: (if sel l then if reached (k + 1) then [] else up_to_max (k + 1) ls' else up_to_max k ls')
  end.

Fixpoint stops (k : Z) (ls : list str) : bool :=
  match ls with
  | [] => false
  | l :: ls' => if sel l then reached (k + 1) || stops (k + 1) ls' else stops k ls'
  end.

(** A match among the next lines of context. *)
Definition soon (ls : list (Z * str)) : bool := existsb (fun nl => sel (snd nl)) (take (Z.to_nat (before_context (grep_flags stage))) ls).

(** [left] lines after a match are still to be printed, [seen] says that a match
    was printed, [leading] that the line before is printed for a later match. *)
Fixpoint context_from (left : Z) (seen leading : bool) (ls : list (Z * str)) : str :=
  match ls with
  | [] => []
  | nl :: ls' =>
      if sel (snd nl) then grep_text (grep_flags stage) nl ++ context_from (after_context (grep_flags stage)) true false ls'
      else if 0 <? left then grep_text (grep_flags stage) nl ++ context_from (left - 1) seen false ls'
      else if soon ls' then (if seen && negb leading then #"--" ++ [newline] else []) ++ grep_text (grep_flags stage) nl ++ context_from 0 seen true ls'
      else context_from 0 seen false ls'
  end.

Definition matches_of (ls : list str) : Z := len (filter (fun l => sel l = true) ls).

(** What the stage serves for the lines [ls], and how that ends. *)
Definition grep_lines (e : ending) (ls : list str) : str * ending :=
  let e' := if stops 0 ls then Eof else e in
  (if quiet (grep_flags stage) then []
   else if count_only (grep_flags stage) then
     if stops 0 ls && files_only (grep_flags stage) then []
     else match e' with Eof => count_summary (grep_flags stage) (matches_of (up_to_max 0 ls)) | Fails _ => [] end
   else if files_only (grep_flags stage) then []
   else context_from 0 false false (number 0 (up_to_max 0 ls)), e').

(** *** The buffer is the lookahead *)

Definition idle (buf : list (Z * str)) : Prop := Forall (fun nl => sel (snd nl) = false) buf.

Lemma soon_app buf nl ls : sel (snd nl) = true -> (S (length buf) <= Z.to_nat (before_context (grep_flags stage)))%nat -> soon (buf ++ nl :: ls) = true.
Proof.
  intros Hs Hl. unfold soon. apply existsb_exists. exists nl. split; [|done]. apply list_elem_of_In, list_elem_of_lookup.
  exists (length buf). rewrite lookup_take_lt by lia. by apply list_lookup_middle.
Qed.

Lemma context_flush seen leading buf nl ls : idle buf -> (length buf <= Z.to_nat (before_context (grep_flags stage)))%nat -> sel (snd nl) = true ->
  context_from 0 seen leading (buf ++ nl :: ls) =
  (match buf with [] => [] | _ => if seen && negb leading then #"--" ++ [newline] else [] end) ++ grep_texts (grep_flags stage) buf ++
  grep_text (grep_flags stage) nl ++ context_from (after_context (grep_flags stage)) true false ls.
Proof.
  intros Hi Hl Hs. revert leading. induction Hi as [|x buf Hx Hi IH]; intros leading; cbn [app context_from]; [by rewrite Hs|].
  cbn [length] in Hl. rewrite Hx, soon_app by (done || lia). cbn [Z.ltb Z.compare]. rewrite IH by lia. cbn [negb]. rewrite andb_false_r.
  unfold grep_texts. cbn [map concat]. rewrite <-!app_assoc. by destruct buf.
Qed.

Lemma not_soon buf ls : idle buf -> length buf = Z.to_nat (before_context (grep_flags stage)) -> soon (buf ++ ls) = false.
Proof.
  intros Hi Hl. unfold soon. rewrite take_app_le by lia. rewrite take_ge by lia. clear Hl.
  induction Hi as [|x b Hx Hi IH]; [done|]. cbn. by rewrite Hx.
Qed.

Lemma context_idle left seen buf : idle buf -> left <= 0 -> context_from left seen false buf = [].
Proof.
  intros Hi Hleft. induction Hi as [|x buf Hx Hi IH] in left, Hleft |- *; [done|]. cbn [context_from]. rewrite Hx.
  rewrite (proj2 (Z.ltb_ge 0 left)) by done. replace (soon buf) with false; [by apply IH|]. symmetry. unfold soon. apply not_true_is_false.
  rewrite existsb_exists. intros (y & Hy & Hys). apply list_elem_of_In, elem_of_take in Hy as (i & Hy & _). apply list_elem_of_lookup_2 in Hy.
  unfold idle in Hi. rewrite Forall_forall in Hi. by rewrite (Hi y Hy) in Hys.
Qed.

(** *** The stage runs the reference *)

Definition modes_off : Prop := quiet (grep_flags stage) = false /\ files_only (grep_flags stage) = false /\ count_only (grep_flags stage) = false.

Lemma context_nonpos left seen leading ls : left <= 0 -> context_from left seen leading ls = context_from 0 seen leading ls.
Proof. intros Hl. destruct ls as [|nl ls]; [done|]. cbn [context_from]. by rewrite (proj2 (Z.ltb_ge 0 left)). Qed.

Definition counted (o : GrepState) : GrepState := set_found (set_line_num (grep_line_num o + 1) o).

Lemma line_match o l : modes_off -> grep_stage o = stage -> sel l = true -> grep_t_line l o =
  (set_after (after_context (grep_flags stage)) true (set_before_buf [] (counted o)),
   flushed o ++ grep_text (grep_flags stage) (grep_line_num o + 1, l), reached (match_count o + 1)).
Proof.
  intros (Hq & Hf & Hc) Hst Hs. unfold grep_t_line, matched, flags_of. cbn [grep_stage set_line_num]. rewrite Hst. fold (sel l). rewrite Hs.
  unfold t_match, flags_of. cbn [grep_stage set_line_num set_found]. rewrite Hst, Hq, Hf, Hc. cbn [orb]. unfold should_stop_for_max_count, flags_of.
  cbn [grep_stage set_line_num set_found]. by rewrite Hst.
Qed.

Lemma line_nonmatch o l : grep_stage o = stage -> sel l = false -> grep_t_line l o = t_nonmatch l (set_line_num (grep_line_num o + 1) o).
Proof. intros Hst Hs. unfold grep_t_line, matched, flags_of. cbn [grep_stage set_line_num]. rewrite Hst. fold (sel l). by rewrite Hs. Qed.

(** The state of a stage that prints lines. *)
Definition context_state (o : GrepState) : Prop := grep_stage o = stage /\ idle (before_buf o) /\
  (length (before_buf o) <= Z.to_nat (before_context (grep_flags stage)))%nat /\ (0 < remaining_after o -> before_buf o = []).

Lemma context_match o l ls : context_state o -> sel l = true ->
  context_from (remaining_after o) (printed_separator o) false (before_buf o ++ (grep_line_num o + 1, l) :: ls) =
  (flushed o ++ grep_text (grep_flags stage) (grep_line_num o + 1, l)) ++ context_from (after_context (grep_flags stage)) true false ls.
Proof.
  intros (Hst & Hi & Hl & Ha) Hs. destruct (before_buf o) as [|x b] eqn:Hb.
  - cbn [app context_from snd]. rewrite Hs. unfold flushed. by rewrite Hb, orb_true_r.
  - rewrite context_nonpos, context_flush by (done || (destruct (Z.ltb_spec 0 (remaining_after o)); [by discriminate Ha|done])).
    unfold flushed, separator, flags_of. rewrite Hst, Hb. cbn [length] in Hl. rewrite (proj2 (Z.eqb_neq _ 0)) by lia. cbn [orb negb].
    rewrite andb_true_r, <-!app_assoc. done.
Qed.

Lemma run_context o ls e : modes_off -> context_state o ->
  run grep_transducer o ls e =
  (context_from (remaining_after o) (printed_separator o) false (before_buf o ++ number (grep_line_num o) (up_to_max (match_count o) ls)),
   if stops (match_count o) ls then Eof else e).
Proof.
  intros (Hq & Hf & Hc). revert o. induction ls as [|l ls IH]; intros o (Hst & Hi & Hl & Ha).
  - cbn [run up_to_max number stops grep_transducer t_eof]. rewrite app_nil_r. unfold grep_t_eof, summarises, flags_of. rewrite Hst, Hc. cbn [andb].
    assert (context_from (remaining_after o) (printed_separator o) false (before_buf o) = []) as ->; [|by destruct e].
    destruct (Z.ltb_spec 0 (remaining_after o)) as [Hlt|Hlt]; [by rewrite Ha|by apply context_idle].
  - cbn [run up_to_max number stops]. change (t_line grep_transducer l o) with (grep_t_line l o). destruct (sel l) eqn:Hs.
    + rewrite line_match by done. rewrite context_match by done. destruct (reached (match_count o + 1)); cbn [orb number context_from]; [by rewrite app_nil_r|].
      rewrite IH by (split_and!; cbn; [done|constructor|lia|done]). cbn. by rewrite <-!app_assoc.
    + rewrite line_nonmatch by done. unfold t_nonmatch, flags_of. cbn [grep_stage set_line_num remaining_after before_buf printed_separator grep_line_num].
      rewrite Hst, Hc. cbn [negb]. rewrite andb_true_r. destruct (Z.ltb_spec 0 (remaining_after o)) as [Hlt|Hlt].
      * rewrite IH. 2: { split_and!; cbn; rewrite ?(Ha Hlt); [done|constructor|cbn; lia|done]. }
        cbn. rewrite Ha by done. cbn [app context_from snd]. rewrite Hs. by rewrite (proj2 (Z.ltb_lt 0 _)).
      * rewrite context_nonpos by done. destruct (Z.ltb_spec 0 (before_context (grep_flags stage))) as [Hb|Hb].
        -- set (buf := before_buf o ++ [(grep_line_num o + 1, l)]). assert (Hbuf : idle buf) by (by apply Forall_app; split; [|constructor]).
           replace (before_buf o ++ _ :: _) with (buf ++ number (grep_line_num o + 1) (up_to_max (match_count o) ls)) by (subst buf; by rewrite <-app_assoc).
           assert (Hlen : length buf = S (length (before_buf o))) by (subst buf; rewrite length_app; cbn; lia). rewrite IH.
           ++ cbn. rewrite context_nonpos by done. destruct (Z.ltb_spec (before_context (grep_flags stage)) (len buf)) as [Hfull|Hfull]; [|done].
              destruct buf as [|x rest]; [done|]. cbn [tl app context_from]. inversion Hbuf as [|? ? Hx Hrest]; subst. rewrite Hx. cbn [Z.ltb Z.compare].
              rewrite not_soon; [done..|]. unfold len in Hfull. cbn in Hfull, Hlen. lia.
           ++ unfold len. split_and!; cbn; [done| | |intros; lia]; destruct (Z.ltb_spec (before_context (grep_flags stage)) (Z.of_nat (length buf))).
              ** destruct buf; [done|]. by inversion Hbuf.
              ** done.
              ** destruct buf; cbn in *; lia.
              ** lia.
        -- rewrite IH by done. cbn. rewrite context_nonpos by done. destruct (before_buf o) as [|x b]; [|cbn in Hl; lia].
           cbn [app context_from snd]. rewrite Hs. cbn [Z.ltb Z.compare]. unfold soon. by replace (Z.to_nat (before_context (grep_flags stage))) with 0%nat by lia.
Qed.

(** The other modes: what counts is the number of matches, or nothing. *)
Definition quiet_state (o : GrepState) : Prop := grep_stage o = stage /\ emitted_count_summary o = false /\ remaining_after o = 0.

Definition summary_text (k : Z) (e' : ending) (ls : list str) : str :=
  if quiet (grep_flags stage) then []
  else if count_only (grep_flags stage) then
    if stops k ls && files_only (grep_flags stage) then []
    else match e' with Eof => count_summary (grep_flags stage) (k + matches_of (up_to_max k ls)) | Fails _ => [] end
  else [].

Lemma matches_cons l ls : matches_of (l :: ls) = (if sel l then 1 else 0) + matches_of ls.
Proof. unfold matches_of, len. rewrite filter_cons. destruct (sel l); case_decide; try done; cbn [length]; lia. Qed.

Lemma summary_cons k e' l ls : summary_text k e' (l :: ls) =
  if sel l then if reached (k + 1) then (if quiet (grep_flags stage) || files_only (grep_flags stage) || negb (count_only (grep_flags stage)) then []
      else match e' with Eof => count_summary (grep_flags stage) (k + 1) | Fails _ => [] end)
    else summary_text (k + 1) e' ls
  else summary_text k e' ls.
Proof.
  unfold summary_text. cbn [stops up_to_max]. rewrite matches_cons. destruct (sel l); [|done]. destruct (reached (k + 1)); cbn [orb andb].
  - change (matches_of []) with 0. rewrite !Z.add_0_r. by destruct (quiet (grep_flags stage)), (files_only (grep_flags stage)), (count_only (grep_flags stage)), e'.
  - by replace (k + (1 + matches_of (up_to_max (k + 1) ls))) with (k + 1 + matches_of (up_to_max (k + 1) ls)) by lia.
Qed.

Definition no_lines : Prop := quiet (grep_flags stage) || files_only (grep_flags stage) || count_only (grep_flags stage) = true.

Lemma silent_match o l : no_lines -> quiet_state o -> sel l = true -> exists o', quiet_state o' /\ match_count o' = match_count o + 1 /\
  grep_t_line l o = if reached (match_count o + 1) && count_only (grep_flags stage) && negb (quiet (grep_flags stage) || files_only (grep_flags stage))
    then (set_summarised (counted o), count_summary (grep_flags stage) (match_count o + 1), true) else (o', [], reached (match_count o + 1)).
Proof.
  intros Hn (Hst & He & Ha) Hs. exists (counted o). split; [by split_and!|]. split; [done|]. unfold grep_t_line, matched, flags_of.
  cbn [grep_stage set_line_num]. rewrite Hst. fold (sel l). rewrite Hs. unfold t_match, summarises, flags_of. fold (counted o).
  replace (should_stop_for_max_count (counted o)) with (reached (match_count o + 1)) by (unfold should_stop_for_max_count, flags_of; cbn; by rewrite Hst).
  cbn [grep_stage counted set_found set_line_num emitted_count_summary match_count]. rewrite Hst, He. unfold no_lines in Hn.
  destruct (quiet (grep_flags stage)), (files_only (grep_flags stage)), (count_only (grep_flags stage)), (reached (match_count o + 1)); done.
Qed.

Lemma silent_nonmatch o l : quiet_state o -> sel l = false -> exists o', quiet_state o' /\ match_count o' = match_count o /\ grep_t_line l o = (o', [], false).
Proof.
  intros (Hst & He & Ha) Hs. rewrite line_nonmatch by done. unfold t_nonmatch. cbn [set_line_num remaining_after]. rewrite Ha. cbn [Z.ltb Z.compare andb].
  destruct (0 <? _); eexists; (split; cycle 1; [split; [|reflexivity]; done|by split_and!]).
Qed.

Lemma run_silent o ls e : no_lines -> quiet_state o -> run grep_transducer o ls e =
  (summary_text (match_count o) (if stops (match_count o) ls then Eof else e) ls, if stops (match_count o) ls then Eof else e).
Proof.
  intros Hn. revert o. induction ls as [|l ls IH]; intros o Hq.
  - destruct Hq as (Hst & He & Ha). cbn [run stops grep_transducer t_eof]. unfold grep_t_eof, summarises, flags_of, summary_text. rewrite Hst, He. unfold no_lines in Hn.
    cbn. rewrite Z.add_0_r. by destruct e, (quiet (grep_flags stage)), (count_only (grep_flags stage)).
  - cbn [run stops]. change (t_line grep_transducer l o) with (grep_t_line l o). rewrite summary_cons. destruct (sel l) eqn:Hs.
    + destruct (silent_match o l Hn Hq Hs) as (o' & Ho' & Hk & ->). rewrite <-Hk. destruct (reached (match_count o')); cbn [andb orb].
      * unfold no_lines in Hn. by destruct (quiet (grep_flags stage)), (files_only (grep_flags stage)), (count_only (grep_flags stage)).
      * by rewrite IH.
    + destruct (silent_nonmatch o l Hq Hs) as (o' & Ho' & Hk & ->). rewrite <-Hk. by rewrite IH.
Qed.

Lemma run_grep st ls e : run grep_transducer (grep_start stage st) ls e = grep_lines e ls.
Proof.
  unfold grep_lines. destruct (quiet (grep_flags stage) || files_only (grep_flags stage) || count_only (grep_flags stage)) eqn:Hm.
  - rewrite run_silent by done. cbn [grep_start match_count own core GrepStreamReader_new Filter_new Core_new]. unfold summary_text.
    by destruct (quiet (grep_flags stage)), (files_only (grep_flags stage)), (count_only (grep_flags stage)).
  - apply orb_false_iff in Hm as [[Hq Hf]%orb_false_iff Hc]. rewrite run_context.
    + cbn. by rewrite Hq, Hf, Hc.
    + done.
    + split_and!; [done|constructor|cbn; lia|done].
Qed.

Lemma grep_contract {R} `{Reader R} st : only_matching (grep_flags stage) = false ->
  keeps inner set_inner (fun r : R => GrepStreamReader_new r stage st) (fun inp e => Some (grep_lines e (lines e inp))).
Proof.
  intros Ho. destruct (grep_run_contract (R := R) stage st Ho) as (Hold & Hc & Hs & Hn). exists Hold. split_and!; [done..|].
  intros S r inp e out e' Hr He. apply (Hn S r inp e); [done|]. by rewrite run_grep.
Qed.

(** *** Without context *)

Lemma context_none ls seen leading : before_context (grep_flags stage) <= 0 -> after_context (grep_flags stage) <= 0 ->
  context_from 0 seen leading ls = grep_texts (grep_flags stage) (filter (fun nl => sel (snd nl) = true) ls).
Proof.
  intros Hb Ha. revert seen leading. induction ls as [|nl ls IH]; intros seen leading; [done|]. cbn [context_from]. rewrite filter_cons.
  destruct (sel (snd nl)) eqn:Hs; case_decide; try done.
  - rewrite context_nonpos, IH by done. done.
  - cbn [Z.ltb Z.compare]. unfold soon. replace (Z.to_nat (before_context (grep_flags stage))) with 0%nat by lia. cbn. apply IH.
Qed.

(** *** The exit status *)

(** The status cell after the stage has handled the lines and, unless it stopped
    before, the end of the input. *)
Fixpoint final_status (o : GrepState) (ls : list str) : Z :=
  match ls with
  | [] => status (own (grep_eof (Core_new o)))
  | l :: ls' => let '(o', _, stop) := grep_t_line l o in if stop then status o' else final_status o' ls'
  end.

Lemma final_status_spec o ls : grep_stage o = stage -> (found o = true -> status o = 0) ->
  final_status o ls = if found o || existsb sel ls then 0 else 1.
Proof.
  intros Hst. revert o Hst. induction ls as [|l ls IH]; intros o Hst Hf.
  - cbn [final_status existsb]. rewrite orb_false_r. unfold grep_eof, emit_count_summary. destruct (_ && _); cbn; destruct (found o) eqn:Hfo; cbn; rewrite ?Hfo; auto.
  - cbn [final_status existsb]. pose proof (t_line_stage l o) as Hkeep. destruct (sel l) eqn:Hs.
    + rewrite orb_true_r. assert (status (fst (fst (grep_t_line l o))) = 0 /\ found (fst (fst (grep_t_line l o))) = true) as [H1 H2].
      { unfold grep_t_line, matched, flags_of. cbn [grep_stage set_line_num]. rewrite Hst. fold (sel l). rewrite Hs. unfold t_match. repeat case_match; done. }
      destruct (grep_t_line l o) as [[o' add] stop]. cbn in *. destruct stop; [done|]. rewrite IH; [by rewrite H2|congruence|done].
    + cbn [orb]. rewrite line_nonmatch in * by done.
      assert (status (fst (fst (t_nonmatch l (set_line_num (grep_line_num o + 1) o)))) = status o /\
        found (fst (fst (t_nonmatch l (set_line_num (grep_line_num o + 1) o)))) = found o /\ snd (t_nonmatch l (set_line_num (grep_line_num o + 1) o)) = false) as (H1 & H2 & H3).
      { unfold t_nonmatch. repeat case_match; done. }
      destruct (t_nonmatch _ _) as [[o' add] stop]. cbn in *. subst stop. rewrite IH, H2; [done|congruence|]. rewrite H1, H2. done.
Qed.
End reference.
End grep.
