(* ===== verification/StreamSed.v ===== *)
(** * The sed stage (crates/wasmsh-runtime/src/streaming_sed.rs)

    Scripts, addresses, substitution and the reader, which looks one line ahead to
    know the last one.  The regular expressions are those of the posix-regex crate
    (see StreamGrep.v); its ranges are byte ranges, so cutting the line at them may
    panic. *)

From S2P Require Import Prelude Strings Lexer Utf8 Stream StreamLines StreamBytes StreamGrep.

(** ** Scripts *)

Record StreamingSedSubstitute := {
  sub_pattern : list Ascii.ascii;
  sub_replacement : list Ascii.ascii;
  sub_global : bool;
}.

Inductive StreamingSedAddr :=
  | AddrNone
  | AddrLine (n : Z)
  | AddrLast
  | AddrRegex (pat : list Ascii.ascii)
  | AddrRange (start stop : StreamingSedAddr).

Inductive StreamingSedCmd :=
  | Substitute (s : StreamingSedSubstitute)
  | Delete
  | Print
  | Transliterate (from to : list Z)
  | AppendText (text : list Ascii.ascii)
  | InsertText (text : list Ascii.ascii)
  | ChangeText (text : list Ascii.ascii)
  | Quit.

Record StreamingSedInstruction := {
  sed_addr : StreamingSedAddr;
  sed_cmd : StreamingSedCmd;
}.

Record StreamingSedStage := {
  suppress_print : bool;
  instructions : list StreamingSedInstruction;
}.

Inductive StreamingSedLineResult :=
  | LineContinue
  | LineDelete
  | LineQuit.

(** [expr.as_bytes()[1] as char] is one character for every byte; the cut after a
    byte that starts a longer character panics. *)
Definition parse_streaming_sed_substitute {E} (expr : str) : res E (option StreamingSedSubstitute) :=
  if negb (starts_with #"s" expr) || (length expr <? 4)%nat then mret None
  else
    let delim := match expr !! 1%nat with Some b => byte_val b | None => 0 end in
    rest ← str_slice expr 2 (length expr);
    mret (match split_char delim rest with
          | pattern :: replacement :: more =>
              Some {| sub_pattern := pattern; sub_replacement := replacement;
                      sub_global := match more with flags :: _ => bool_decide ("g"%char ∈ flags) | [] => false end |}
          | _ => None
          end).

(** [find('/')] and the text on both sides. *)
Fixpoint split_slash (s : str) : option (str * str) :=
  match s with
  | [] => None
  | c :: s' => if decide (c = "/"%char) then Some ([], s') else '(a, b) ← split_slash s'; Some (c :: a, b)
  end.

(** The digits at the start. *)
Fixpoint split_digits (s : str) : str * str :=
  match s with
  | c :: s' => if is_ascii_digit c then let '(a, b) := split_digits s' in (c :: a, b) else ([], s)
  | [] => ([], [])
  end.

Section script.
Context `{Target}.

(** An address may be followed by a comma and another one. *)
Fixpoint parse_addr_fuel (fuel : nat) (s : str) : StreamingSedAddr * str :=
  let range_from addr rest :=
    match fuel, strip_prefix #"," rest with
    | S f, Some after_comma => let '(addr2, rest2) := parse_addr_fuel f after_comma in (AddrRange addr addr2, rest2)
    | _, _ => (addr, rest)
    end in
  match (stripped ← strip_prefix #"/" s; split_slash stripped) with
  | Some (pat, rest) => range_from (AddrRegex pat) rest
  | None =>
      match strip_prefix #"$" s with
      | Some rest => range_from AddrLast rest
      | None =>
          let '(digits, rest) := split_digits s in
          match (match digits with [] => None | _ => parse_usize digits end) with
          | Some n => range_from (AddrLine n) rest
          | None => (AddrNone, s)
          end
      end
  end.

Definition parse_streaming_sed_addr (s : str) : StreamingSedAddr * str := parse_addr_fuel (length s) s.

Definition parse_streaming_sed_cmd {E} (rest : str) : res E (option StreamingSedCmd) :=
  if starts_with #"s" rest then s ← (parse_streaming_sed_substitute rest : res E (option StreamingSedSubstitute)); mret (fmap (M:=option) Substitute s)
  else if bool_decide (rest = #"d") then Ok (Some Delete)
  else if bool_decide (rest = #"p") then Ok (Some Print)
  else if bool_decide (rest = #"q") then Ok (Some Quit)
  else if starts_with #"y/" rest || starts_with #"y|" rest then
    Ok (match split_char (match rest !! 1%nat with Some b => byte_val b | None => 0 end) (drop 2 rest) with
          | from :: to :: _ => Some (Transliterate (lossy_chars from) (lossy_chars to))
          | _ => None
          end)
  else Ok (match strip_prefix #"a\" rest, strip_prefix #"i\" rest, strip_prefix #"c\" rest with
             | Some text, _, _ => Some (AppendText (trim_start text))
             | None, Some text, _ => Some (InsertText (trim_start text))
             | None, None, Some text => Some (ChangeText (trim_start text))
             | None, None, None => None
             end).

Fixpoint script_loop {E} (parts : list str) : res E (list StreamingSedInstruction) :=
  match parts with
  | [] => mret []
  | part :: parts' =>
      match trim part with
      | [] => script_loop parts'
      | part =>
          let '(addr, rest) := parse_streaming_sed_addr part in
          cmd ← parse_streaming_sed_cmd (trim rest);
          more ← script_loop parts';
          mret (match cmd with Some cmd => {| sed_addr := addr; sed_cmd := cmd |} :: more | None => more end)
      end
  end.

Definition parse_streaming_sed_script {E} (script : str) : res E (list StreamingSedInstruction) :=
  script_loop (split_on ";"%char script).
End script.

Definition strip_suffix (p s : str) : option str := reverse <$> strip_prefix (reverse p) (reverse s).

Definition streaming_simple_grep_match (line pattern : str) : bool :=
  match strip_prefix #"^" pattern with
  | Some rest => match strip_suffix #"$" rest with Some mid => bool_decide (line = mid) | None => starts_with rest line end
  | None => match strip_suffix #"$" pattern with Some rest => ends_with rest line | None => contains_sub line pattern end
  end.

(** The anchors of a pattern and what is between them. *)
Fixpoint count_backslashes (s : str) : nat :=
  match s with c :: s' => if decide (c = "\"%char) then S (count_backslashes s') else 0%nat | [] => 0%nat end.

Definition streaming_sed_has_trailing_anchor (pattern : str) : bool :=
  ends_with #"$" pattern && Nat.even (count_backslashes (tail (reverse pattern))).

Definition streaming_sed_split_anchors (pattern : str) : str * bool * bool :=
  let anchored_start := starts_with #"^" pattern in
  let pat := if anchored_start then drop 1 pattern else pattern in
  let anchored_end := streaming_sed_has_trailing_anchor pat in
  (if anchored_end then take (length pat - 1) pat else pat, anchored_start, anchored_end).

(** ** Replacement text *)

Definition groups_of : Type := list (option (nat * nat)).

(** [text.get(s..e).unwrap_or("")]. *)
Definition str_get (text : str) (s e : nat) : str :=
  match str_slice (E := unit) text s e with Ok t => t | _ => [] end.

Definition group_text (text : str) (groups : groups_of) (i : nat) : str :=
  match groups !! i with Some (Some (s, e)) => str_get text s e | _ => [] end.

(** [next] is the character after the backslash. *)
Definition streaming_sed_expand_escape (next : Z) (text : str) (groups : groups_of) : str :=
  if (48 <=? next) && (next <=? 57) then group_text text groups (Z.to_nat (next - 48))
  else if next =? code "n" then [newline]
  else if next =? code "t" then [byte_of 9]
  else encode next.

Definition streaming_sed_expand_whole_match (text : str) (groups : groups_of) : str := group_text text groups 0.

Fixpoint expand_loop (cs : list Z) (text : str) (groups : groups_of) : str :=
  match cs with
  | [] => []
  | c :: cs' =>
      if c =? code "\" then
        match cs' with
        | [] => [("\"%char : Ascii.ascii)]
        | next :: cs'' => streaming_sed_expand_escape next text groups ++ expand_loop cs'' text groups
        end
      else if c =? code "&" then streaming_sed_expand_whole_match text groups ++ expand_loop cs' text groups
      else encode c ++ expand_loop cs' text groups
  end.

Definition streaming_sed_expand_replacement (template text : str) (groups : groups_of) : str :=
  expand_loop (lossy_chars template) text groups.

Definition streaming_sed_transliterate (text : str) (from to : list Z) : str :=
  encode_all (map (fun c => match position c from with
                            | Some p => match to !! p with Some d => d | None => default c (last to) end
                            | None => c
                            end) (lossy_chars text)).

(** ** Substitution *)

Record SedMatch := {
  match_start : nat;
  match_end : nat;
  match_groups : list (option (nat * nat));
}.

(** [chars().next()] of what is left at a position, or a default. *)
Definition next_char (s : str) (d : Z) : Z := match lossy_chars s with c :: _ => c | [] => d end.

Section substitute.
Context `{PosixRegex}.

Definition shift (pos : nat) (g : option (nat * nat)) : option (nat * nat) :=
  '(s, e) ← g; Some ((pos + s)%nat, (pos + e)%nat).

Fixpoint find_match_loop (fuel pos : nat) (text : str) (re : regex) (anchored_start anchored_end : bool) : res io_stop (option SedMatch) :=
  match fuel with
  | O => Err OutOfFuel
  | S f =>
      if (length text <? pos)%nat then mret None
      else
        remaining ← str_slice text pos (length text);
        let found :=
          caps ← head (re_matches re remaining);
          '(rs, re_end) ← (g ← head caps; g);
          let start := (pos + rs)%nat in
          let stop := (pos + re_end)%nat in
          if (negb anchored_start || (start =? 0)%nat) && (negb anchored_end || (stop =? length text)%nat)
          then Some {| match_start := start; match_end := stop; match_groups := map (shift pos) caps |} else None in
        match found with
        | Some m => mret (Some m)
        | None =>
            if anchored_start || (pos =? length text)%nat then mret None
            else find_match_loop f (pos + length (encode (next_char remaining 0))) text re anchored_start anchored_end
        end
  end.

Definition streaming_sed_find_match (text : str) (from : nat) (re : regex) (anchored_start anchored_end : bool) : res io_stop (option SedMatch) :=
  find_match_loop (S (S (length text))) (if anchored_start then 0%nat else from) text re anchored_start anchored_end.

(** The text after the loop, from [cursor] on. *)
Definition text_from (text : str) (cursor : nat) : res io_stop str :=
  if (cursor <=? length text)%nat then str_slice text cursor (length text) else mret [].

Fixpoint substitute_loop (fuel : nat) (text : str) (re : regex) (replacement : str) (global anchored_start anchored_end : bool)
    (cursor : nat) (suppress_empty_here : bool) : res io_stop str :=
  match fuel with
  | O => Err OutOfFuel
  | S f =>
      found ← streaming_sed_find_match text cursor re anchored_start anchored_end;
      match found with
      | None => text_from text cursor
      | Some m =>
          if (match_start m =? match_end m)%nat && suppress_empty_here && (match_start m =? cursor)%nat then
            if (length text <=? cursor)%nat then text_from text cursor
            else
              tail ← str_slice text cursor (length text);
              let ch := encode (next_char tail 0) in
              more ← substitute_loop f text re replacement global anchored_start anchored_end (cursor + length ch) false;
              mret (ch ++ more)
          else
            before ← str_slice text cursor (match_start m);
            let new := streaming_sed_expand_replacement replacement text (match_groups m) in
            let continue_at cursor suppress :=
              if global then substitute_loop f text re replacement global anchored_start anchored_end cursor suppress
              else text_from text cursor in
            if (match_start m <? match_end m)%nat then more ← continue_at (match_end m) true; mret (before ++ new ++ more)
            else if (length text <=? match_start m)%nat then more ← text_from text (match_end m); mret (before ++ new ++ more)
            else
              tail ← str_slice text (match_start m) (length text);
              let ch := encode (next_char tail 0) in
              more ← continue_at (match_start m + length ch)%nat false;
              mret (before ++ new ++ ch ++ more)
      end
  end.

Definition streaming_sed_substitute_regex (text : str) (re : regex) (replacement : str) (global anchored_start anchored_end : bool) : res io_stop str :=
  substitute_loop (S (S (length text))) text re replacement global anchored_start anchored_end 0 false.

Definition streaming_sed_substitute_empty (text replacement : str) (anchored_start anchored_end : bool) : str :=
  if anchored_start && anchored_end then match text with [] => replacement | _ => text end
  else
    let at_ := if anchored_end then length text else 0%nat in
    take at_ text ++ replacement ++ drop at_ text.

(** [replacen(.., 1)]. *)
Definition replace_first (pattern replacement text : str) : str :=
  match find_sub pattern text with
  | Some i => take i text ++ replacement ++ drop (i + length pattern) text
  | None => text
  end.

Definition streaming_sed_substitute (text pattern replacement : str) (global : bool) : res io_stop str :=
  let '(bare_pattern, anchored_start, anchored_end) := streaming_sed_split_anchors pattern in
  match bare_pattern with
  | [] => mret (streaming_sed_substitute_empty text replacement anchored_start anchored_end)
  | _ =>
      match compile bare_pattern with
      | Some re => streaming_sed_substitute_regex text re replacement global anchored_start anchored_end
      | None => mret (if global then join replacement (split_sub bare_pattern text 0) else replace_first bare_pattern replacement text)
      end
  end.

(** ** One line *)

(** The answer and the new value of [in_range]. *)
Fixpoint streaming_sed_addr_matches (addr : StreamingSedAddr) (line_num : Z) (is_last : bool) (line : str) (in_range : bool) : bool * bool :=
  match addr with
  | AddrNone => (true, in_range)
  | AddrLine n => (line_num =? n, in_range)
  | AddrLast => (is_last, in_range)
  | AddrRegex pat =>
      (match compile pat with
       | Some re => match re_matches re line with [] => false | _ => true end
       | None => streaming_simple_grep_match line pat
       end, in_range)
  | AddrRange start stop =>
      if in_range then (true, negb (fst (streaming_sed_addr_matches stop line_num is_last line false)))
      else if fst (streaming_sed_addr_matches start line_num is_last line false) then (true, true)
      else (false, false)
  end.

(** The text being edited, whether it was printed, and the output so far. *)
Record SedWork := {
  current_text : list Ascii.ascii;
  printed : bool;
  sed_out : list Ascii.ascii;
}.

Definition streaming_sed_emit_line (output line : str) : str := output ++ line ++ [newline].

Definition apply_sed_instruction (suppress : bool) (cmd : StreamingSedCmd) (w : SedWork) : res io_stop (SedWork * option StreamingSedLineResult) :=
  match cmd with
  | Substitute sub =>
      text ← streaming_sed_substitute (current_text w) (sub_pattern sub) (sub_replacement sub) (sub_global sub);
      mret ({| current_text := text; printed := printed w; sed_out := sed_out w |}, None)
  | Delete => mret (w, Some LineDelete)
  | Print => mret ({| current_text := current_text w; printed := true; sed_out := streaming_sed_emit_line (sed_out w) (current_text w) |}, None)
  | Transliterate from to =>
      mret ({| current_text := streaming_sed_transliterate (current_text w) from to; printed := printed w; sed_out := sed_out w |}, None)
  | AppendText text =>
      let w := if negb suppress && negb (printed w)
               then {| current_text := current_text w; printed := true; sed_out := streaming_sed_emit_line (sed_out w) (current_text w) |} else w in
      mret ({| current_text := current_text w; printed := printed w; sed_out := streaming_sed_emit_line (sed_out w) text |}, None)
  | InsertText text => mret ({| current_text := current_text w; printed := printed w; sed_out := streaming_sed_emit_line (sed_out w) text |}, None)
  | ChangeText text =>
      mret ({| current_text := current_text w; printed := printed w; sed_out := streaming_sed_emit_line (sed_out w) text |}, Some LineDelete)
  | Quit =>
      mret (if negb suppress && negb (printed w)
            then {| current_text := current_text w; printed := printed w; sed_out := streaming_sed_emit_line (sed_out w) (current_text w) |} else w, Some LineQuit)
  end.

(** The loop over the instructions with their range states. *)
Fixpoint instructions_loop (suppress : bool) (line_num : Z) (is_last : bool) (ins : list StreamingSedInstruction) (rs : list bool) (w : SedWork) :
    res io_stop (list bool * SedWork * option StreamingSedLineResult) :=
  match ins, rs with
  | i :: ins', r :: rs' =>
      let '(matches, r') := streaming_sed_addr_matches (sed_addr i) line_num is_last (current_text w) r in
      '(w', result) ← (if matches then apply_sed_instruction suppress (sed_cmd i) w else mret (w, None));
      match result with
      | Some _ => mret (r' :: rs', w', result)
      | None => '(rs'', w'', result) ← instructions_loop suppress line_num is_last ins' rs' w'; mret (r' :: rs'', w'', result)
      end
  | _, _ => mret (rs, w, None)
  end.

(** The new range states, the output and the result. *)
Definition apply_instructions (stage : StreamingSedStage) (line_num : Z) (rs : list bool) (line : str) (is_last : bool) :
    res io_stop (list bool * str * StreamingSedLineResult) :=
  '(rs', w, result) ← instructions_loop (suppress_print stage) line_num is_last (instructions stage) rs
                        {| current_text := line; printed := false; sed_out := [] |};
  match result with
  | Some r => mret (rs', sed_out w, r)
  | None => mret (rs', if negb (suppress_print stage) && negb (printed w) then streaming_sed_emit_line (sed_out w) (current_text w) else sed_out w, LineContinue)
  end.

(** ** The reader *)

Record SedState := {
  sed_stage : StreamingSedStage;
  initialized : bool;
  sed_current : option (list Ascii.ascii * bool);
  sed_next : option (list Ascii.ascii * bool);
  sed_line_num : Z;
  range_states : list bool;
  input_eof : bool;
}.

Definition SedStreamReader (R : Type) : Type := Filter R SedState.
Definition SedStreamReader_new {R} (r : R) (stage : StreamingSedStage) : SedStreamReader R :=
  Filter_new r {| sed_stage := stage; initialized := false; sed_current := None; sed_next := None; sed_line_num := 1;
                  range_states := repeat false (length (instructions stage)); input_eof := false |}.

Definition set_lookahead (init : bool) (cur nxt : option (str * bool)) (eof : bool) (o : SedState) : SedState :=
  {| sed_stage := sed_stage o; initialized := init; sed_current := cur; sed_next := nxt; sed_line_num := sed_line_num o;
     range_states := range_states o; input_eof := eof |}.
Definition set_progress (n : Z) (rs : list bool) (o : SedState) : SedState :=
  {| sed_stage := sed_stage o; initialized := initialized o; sed_current := sed_current o; sed_next := sed_next o; sed_line_num := n;
     range_states := rs; input_eof := input_eof o |}.

Section read.
Context {R : Type} `{Reader R}.

Definition on_own (f : SedState -> SedState) : comp (SedStreamReader R) io_stop unit := on_core (fun c => set_own (f (own c)) c).

Definition get_own : comp (SedStreamReader R) io_stop SedState := fun s => (s, Ok (own (core s))).

Definition fill_lookahead (fuel : nat) : comp (SedStreamReader R) io_stop unit :=
  o ← get_own;
  _ ← (match sed_current o with
       | None => l ← next_line fuel; on_own (fun o => set_lookahead (initialized o) l (sed_next o) (input_eof o) o)
       | Some _ => mret tt
       end);
  o ← get_own;
  match sed_current o, sed_next o, input_eof o with
  | Some _, None, false =>
      l ← next_line fuel;
      on_own (fun o => set_lookahead (initialized o) (sed_current o) l (match l with Some _ => input_eof o | None => true end) o)
  | _, _, _ => mret tt
  end.

Definition initialize (fuel : nat) : comp (SedStreamReader R) io_stop unit :=
  o ← get_own;
  if initialized o then mret tt
  else _ ← fill_lookahead fuel; on_own (fun o => set_lookahead true (sed_current o) (sed_next o) (input_eof o) o).

Definition look_ahead (fuel : nat) : comp (SedStreamReader R) io_stop unit := _ ← initialize fuel; fill_lookahead fuel.

(** The round of the loop of [read], once the lookahead is there. *)
Definition handle_current (fuel : nat) : comp (SedStreamReader R) io_stop unit :=
  o ← get_own;
  match sed_current o with
  | None => on_core set_finished
  | Some (line, _) =>
      _ ← on_own (fun o => set_lookahead (initialized o) None (sed_next o) (input_eof o) o);
      let is_last := input_eof o && (match sed_next o with None => true | _ => false end) in
      '(rs, out, result) ← lift_res (apply_instructions (sed_stage o) (sed_line_num o) (range_states o) line is_last);
      _ ← on_own (set_progress (sed_line_num o) rs);
      _ ← on_core (emit out);
      match result with
      | LineQuit => on_core set_finished
      | LineDelete | LineContinue =>
          _ ← on_own (fun o => set_lookahead (initialized o) (sed_next o) None (input_eof o) o);
          match sed_next o with
          | Some _ => _ ← on_own (fun o => set_progress (sed_line_num o + 1) (range_states o) o); fill_lookahead fuel
          | None => on_core set_finished
          end
      end
  end.

Definition sed_step (fuel : nat) : comp (SedStreamReader R) io_stop unit := _ ← look_ahead fuel; handle_current fuel.

Definition sed_read : nat -> nat -> comp (SedStreamReader R) io_stop str := read_with sed_step.
#[export] Instance sed_reader : Reader (SedStreamReader R) := sed_read.
End read.
End substitute.
