(* ===== verification/StreamSedProps.v ===== *)
(** * The sed stage: what it delivers

    The reader holds one line back to know the last one.  It serves the fold of the
    script over the lines of its input, with the last-line address decided by the
    list itself, however the input arrives in chunks. *)

From S2P Require Import Prelude Strings Utf8 Stream StreamProps StreamLines StreamBytes StreamGrep StreamSed.

Section sed.
Context `{PosixRegex} {R : Type} `{Reader R}.

(** The script over the lines from the [n]th on. *)
Fixpoint sed_lines (stage : StreamingSedStage) (n : Z) (rs : list bool) (ls : list str) : res io_stop str :=
  match ls with
  | [] => mret []
  | l :: ls' =>
      '(rs', out, result) ← apply_instructions stage n rs l (bool_decide (ls' = []));
      match result with
      | LineQuit => mret out
      | LineDelete | LineContinue => rest ← sed_lines stage (n + 1) rs' ls'; mret (out ++ rest)
      end
  end.

(** ** The lines held back *)

Section held.
(** The contract of the inner reader. *)
Context (Sin : R -> list Ascii.ascii -> ending -> Prop) (B : R -> Prop).

Definition held (x : option (str * bool)) : list str := match x with Some (l, _) => [l] | None => [] end.

Definition feeds (s : SedStreamReader R) (ls : list str) : Prop := exists rest, Sin (inner s) rest Eof /\ ls = lines Eof (input_pending s ++ rest).

(** The lines the stage has still to handle. *)
Definition at_lines (s : SedStreamReader R) (ls : list str) : Prop := exists fs, feeds s fs /\
  ls = held (sed_current (own (core s))) ++ held (sed_next (own (core s))) ++ fs /\
  (sed_current (own (core s)) = None -> sed_next (own (core s)) = None) /\ (input_eof (own (core s)) = true -> fs = []).

(** Nothing but the lookahead differs. *)
Definition kept (c c' : Core SedState) : Prop := output_pending c' = output_pending c /\ output_offset c' = output_offset c /\ finished c' = finished c /\
  sed_stage (own c') = sed_stage (own c) /\ sed_line_num (own c') = sed_line_num (own c) /\ range_states (own c') = range_states (own c).

(** The lookahead is complete. *)
Definition ready (o : SedState) (ls : list str) : Prop :=
  match sed_current o with
  | None => ls = []
  | Some (l, _) => exists tl, ls = l :: tl /\ match sed_next o with None => input_eof o = true /\ tl = [] | Some _ => tl <> [] end
  end.

Context (Hin : closed Sin B).

Lemma next_line_feeds s ls : feeds s ls -> runs_to next_line s (fun s' x => core s' = core s /\
  match x with
  | Ok (Some (l, _)) => exists ls', ls = l :: ls' /\ feeds s' ls'
  | Ok None => ls = [] /\ feeds s' []
  | Err (IoError WouldBlock) => feeds s' ls /\ B (inner s')
  | _ => False
  end).
Proof.
  intros (rest & Hs & ->). destruct (next_line_spec Sin B Hin (inner s) (input_pending s) rest Eof Hs) as (rp & x & Hev & rest' & Hs' & Hx).
  exists (set_input rp s), x. split; [by apply zoom_next_line|]. split; [done|].
  destruct x as [[[line [|]]|]|[[| |code]|]|w]; try done.
  - destruct Hx as (l & Hl & Ht & ->). rewrite Ht, lines_cons by done. eexists. split; [done|]. by exists rest'.
  - destruct Hx as (Hl & Hne & -> & Hp & -> & _). rewrite lines_last, decide_True by done. exists []. split; [done|]. exists []. cbn. by rewrite Hp.
  - destruct Hx as (-> & Hp & -> & _). split; [done|]. exists []. cbn. by rewrite Hp.
  - destruct Hx as [Hx Hb]. split; [|done]. exists rest'. cbn. by rewrite Hx.
  - by destruct Hx as (_ & _ & _ & ?).
  - by destruct Hx as (_ & _ & _ & ?).
Qed.

Lemma fill_spec s ls : at_lines s ls -> runs_to fill_lookahead s (fun s' x => at_lines s' ls /\ kept (core s) (core s') /\
  initialized (own (core s')) = initialized (own (core s)) /\
  match x with Ok _ => ready (own (core s')) ls | Err (IoError WouldBlock) => B (inner s') | _ => False end).
Proof.
  intros (fs & Hf & Hls & Hcn & Heof). unfold fill_lookahead.
  eapply (runs_to_bind (fun _ => get_own)), runs_to_pure. cbn [get_own fst snd].
  set (Mid := fun (s' : SedStreamReader R) (x : res io_stop unit) => at_lines s' ls /\ kept (core s) (core s') /\
    initialized (own (core s')) = initialized (own (core s)) /\
    match x with Ok _ => sed_current (own (core s')) = None -> ls = [] | Err (IoError WouldBlock) => B (inner s') | _ => False end).
  eapply (runs_to_bind (fun fuel => match sed_current (own (core s)) with None => l ← next_line fuel; on_own (fun o => set_lookahead (initialized o) l (sed_next o) (input_eof o) o) | Some _ => mret tt end)).
  apply (runs_to_mono _ _ Mid).
  { destruct (sed_current (own (core s))) as [[l b]|] eqn:Hc.
    - eapply (runs_to_pure (mret tt)). unfold Mid. cbn. rewrite Hc. split_and!; try done. exists fs. by rewrite Hc.
    - eapply runs_to_bind, runs_to_mono; [by apply next_line_feeds|]. intros s' x (Hcore & Hx). rewrite Hcn in Hls by done. cbn in Hls. subst ls.
      destruct x as [[[l b]|]|[[| |code]|]|w]; try done.
      + destruct Hx as (fs' & -> & Hf'). apply runs_to_pure. cbn. unfold Mid. cbn. rewrite Hcore. split_and!; try done.
        exists fs'. cbn. rewrite ?Hcore, Hcn by done. split_and!; try done. intros He. by specialize (Heof He).
      + destruct Hx as (-> & Hf'). apply runs_to_pure. cbn. unfold Mid. cbn. rewrite Hcore. split_and!; try done.
        exists []. cbn. by rewrite ?Hcore, Hcn by done.
      + destruct Hx as [Hx Hb]. unfold Mid. rewrite Hcore. split_and!; try done. exists fs. rewrite Hcore, Hc, Hcn by done. by split_and!. }
  intros s1 x (Hat & Hk & Hi & Hx). destruct x as [[]|[[| |code]|]|w]; try done.
  eapply (runs_to_bind (fun _ => get_own)), runs_to_pure. cbn [get_own fst snd]. clear Hls Hf Hcn Heof fs.
  destruct Hat as (fs & Hf & Hls & Hcn & Heof). unfold ready.
  destruct (sed_current (own (core s1))) as [[l b]|] eqn:Hc.
  2: { apply (runs_to_pure (mret tt)). cbn. rewrite Hc. split_and!; try done; [|by apply Hx]. exists fs. by rewrite Hc. }
  destruct (sed_next (own (core s1))) as [[l2 b2]|] eqn:Hn.
  { apply (runs_to_pure (mret tt)). cbn. rewrite Hc, Hn. split_and!; try done; [by exists fs; rewrite Hc, Hn|]. by exists (l2 :: fs). }
  destruct (input_eof (own (core s1))) eqn:He.
  { apply (runs_to_pure (mret tt)). cbn. rewrite Hc, Hn, He. split_and!; try done; [by exists fs; rewrite Hc, Hn, He|]. exists []. by rewrite Heof in Hls. }
  eapply runs_to_bind, runs_to_mono; [by apply next_line_feeds|]. intros s' x (Hcore & Hx'). destruct x as [[[l2 b2]|]|[[| |code]|]|w]; try done.
  - destruct Hx' as (fs' & -> & Hf'). apply runs_to_pure. cbn. rewrite Hcore. cbn. rewrite Hc, He. split_and!; try done.
    + exists fs'. by cbn; rewrite ?Hcore, ?Hc, ?He.
    + by exists (l2 :: fs').
  - destruct Hx' as (-> & Hf'). apply runs_to_pure. cbn. rewrite Hcore. cbn. rewrite Hc. split_and!; try done.
    + exists []. by cbn; rewrite ?Hcore, ?Hc.
    + by exists [].
  - destruct Hx' as [Hx' Hb]. rewrite Hcore. split_and!; try done. exists fs. by rewrite Hcore, Hc, Hn, He.
Qed.

(** ** One round *)

Lemma ahead_spec s ls : at_lines s ls -> runs_to look_ahead s (fun s' x => at_lines s' ls /\ kept (core s) (core s') /\
  match x with Ok _ => ready (own (core s')) ls | Err (IoError WouldBlock) => B (inner s') | _ => False end).
Proof.
  intros Hat. apply (runs_to_bind initialize). apply (runs_to_mono _ _ (fun s1 x => at_lines s1 ls /\ kept (core s) (core s1) /\
    match x with Ok _ => True | Err (IoError WouldBlock) => B (inner s1) | _ => False end)).
  - unfold initialize. eapply (runs_to_bind (fun _ => get_own)), runs_to_pure. cbn [get_own fst snd]. destruct (initialized (own (core s))).
    { apply (runs_to_pure (mret tt)). cbn. by split_and!. }
    eapply (runs_to_bind fill_lookahead), runs_to_mono; [by apply fill_spec|]. intros s1 x (Hat1 & Hk & _ & Hx).
    destruct x as [[]|[[| |code]|]|w]; try done. apply (runs_to_pure (on_own _)). cbn. by split_and!.
  - intros s1 x (Hat1 & Hk1 & Hx). destruct x as [[]|[[| |code]|]|w]; try done. eapply runs_to_mono; [by apply fill_spec|].
    intros s2 y (Hat2 & Hk2 & _ & Hy). split; [done|]. split; [|done]. unfold kept in *. intuition congruence.
Qed.

Section stage.
Context (stage : StreamingSedStage).

Definition sed_inv (k : nat) (s : SedStreamReader R) (out : str) (e : ending) : Prop := core_ok (core s) /\ e = Eof /\
  if finished (core s) then out = []
  else sed_stage (own (core s)) = stage /\ exists ls, at_lines s ls /\ (length ls < k)%nat /\
    sed_lines stage (sed_line_num (own (core s))) (range_states (own (core s))) ls = Ok out.

Lemma kept_ok c c' : kept c c' -> core_ok c -> core_ok c' /\ visible c' = visible c /\ finished c' = finished c.
Proof. unfold core_ok, visible. intros (-> & -> & -> & _). done. Qed.

(** The stage after a line, with the output [out] for it. *)
Definition line_done (s : SedStreamReader R) (out : str) (rs : list bool) (n : Z) (fin : bool) : SedStreamReader R :=
  let o := own (core s) in
  {| inner := inner s; input_pending := input_pending s;
     core := {| own := {| sed_stage := sed_stage o; initialized := initialized o; sed_current := if fin then None else sed_next o;
                          sed_next := if fin then sed_next o else None; sed_line_num := n; range_states := rs; input_eof := input_eof o |};
                output_pending := output_pending (core s) ++ out; output_offset := output_offset (core s); finished := fin |} |}.

Lemma at_rest s l tl out rs n : at_lines s (l :: tl) -> tl <> [] -> (exists b, sed_current (own (core s)) = Some (l, b)) ->
  at_lines (line_done s out rs n false) tl.
Proof.
  intros (fs & Hf & Hls & Hcn & Heof) Htl [b Hc]. exists fs. split; [done|]. rewrite Hc in Hls. cbn in *. injection Hls as ->. split_and!; try done.
Qed.

Lemma handle_line fuel s l b rs o1 r :
  sed_current (own (core s)) = Some (l, b) -> finished (core s) = false ->
  apply_instructions (sed_stage (own (core s))) (sed_line_num (own (core s))) (range_states (own (core s))) l
    (input_eof (own (core s)) && (match sed_next (own (core s)) with None => true | _ => false end)) = Ok (rs, o1, r) ->
  handle_current fuel s = match r, sed_next (own (core s)) with
    | LineQuit, _ | _, None => (line_done s o1 rs (sed_line_num (own (core s))) true, Ok tt)
    | _, Some _ => fill_lookahead fuel (line_done s o1 rs (sed_line_num (own (core s)) + 1) false)
    end.
Proof.
  intros Hc Hfin Ha. destruct s as [ri p [o op i fin]]. cbn in *. subst fin. unfold handle_current, get_own, on_own, on_core, modify, lift_res, mbind, comp_bind.
  cbn. rewrite Hc, Ha. cbn. destruct r; [| |done]; destruct (sed_next o) eqn:Hn; unfold line_done; cbn; by rewrite ?Hn.
Qed.

Lemma steps_finished k s out : core_ok (core s) -> finished (core s) = true -> visible (core s) = out -> steps_to sed_inv B k s out Eof (Ok tt).
Proof. intros Hok Hf <-. exists 0%nat, []. split; [by rewrite app_nil_r|]. split; [|congruence]. split; [done|]. by rewrite Hf. Qed.

Lemma is_last_ready o l b tl : sed_current o = Some (l, b) -> ready o (l :: tl) ->
  input_eof o && (match sed_next o with None => true | _ => false end) = bool_decide (tl = []).
Proof.
  unfold ready. intros -> (tl' & [= <-] & Hn). destruct (sed_next o).
  - by rewrite andb_false_r, bool_decide_eq_false_2.
  - destruct Hn as [-> ->]. by rewrite bool_decide_eq_true_2.
Qed.

Lemma handle_spec s ls k out : core_ok (core s) -> finished (core s) = false -> visible (core s) = [] -> sed_stage (own (core s)) = stage ->
  at_lines s ls -> ready (own (core s)) ls -> (length ls < k)%nat ->
  sed_lines stage (sed_line_num (own (core s))) (range_states (own (core s))) ls = Ok out ->
  runs_to handle_current s (fun s' x => steps_to sed_inv B k s' out Eof x).
Proof.
  intros Hok Hfin Hv Hst Hat Hr Hk Hout. pose proof Hr as Hr'. unfold ready in Hr. destruct (sed_current (own (core s))) as [[l b]|] eqn:Hc.
  2: { subst ls. injection Hout as <-. exists (set_core (set_finished (core s)) s), (Ok tt). split; [|by apply steps_finished].
    apply eventually_now. intros f. unfold handle_current, get_own, mbind, comp_bind. by rewrite Hc. }
  destruct Hr as (tl & -> & Hnext). cbn [sed_lines] in Hout. rewrite <-(is_last_ready _ l b tl Hc Hr') in Hout.
  destruct (apply_instructions _ _ _ _ _) as [[[rs o1] r]|e1|w] eqn:Ha; [|done..]. cbn [mbind res_bind] in Hout. rewrite <-Hst in Ha.
  pose proof (fun f => handle_line f s l b rs o1 r Hc Hfin Ha) as Hgo.
  assert (Hfinish : (forall f, handle_current f s = (line_done s o1 rs (sed_line_num (own (core s))) true, Ok tt)) -> out = o1 ->
    runs_to handle_current s (fun s' x => steps_to sed_inv B k s' out Eof x)).
  { intros Hnow ->. eexists _, (Ok tt). split; [by apply eventually_now|]. apply steps_finished; [by apply core_ok_emit|done|].
    unfold line_done. cbn [core]. by rewrite visible_emit, Hv. }
  destruct r as [| |]; [| |by injection Hout as <-; apply Hfinish].
  all: destruct (sed_lines _ _ rs tl) as [rest|e1|w] eqn:Hrest; [|done..]; injection Hout as <-.
  all: destruct (sed_next (own (core s))) as [nx|] eqn:Hn; [|destruct Hnext as [_ ->]; injection Hrest as <-; rewrite app_nil_r in *; by apply Hfinish].
  all: set (s1 := line_done s o1 rs (sed_line_num (own (core s)) + 1) false) in *;
    destruct (fill_spec s1 tl) as (s2 & x & [f0 Hev] & Hat2 & Hkept & _ & Hx); [by apply (at_rest s l tl); eauto|];
    destruct (kept_ok (core s1) (core s2) Hkept) as (Hok2 & Hv2 & Hf2); [by apply core_ok_emit|];
    destruct Hkept as (_ & _ & _ & Hst2 & Hn2 & Hr2);
    exists s2, x; (split; [exists f0; intros f Hle; rewrite Hgo; by apply Hev|]);
    (assert (Hvis : visible (core s2) = o1) by (rewrite Hv2; unfold s1, line_done; cbn [core]; by rewrite visible_emit, Hv));
    (assert (Hinv : sed_inv (S (length tl)) s2 rest Eof) by
      (split; [done|]; split; [done|]; rewrite Hf2; split; [by rewrite Hst2|]; exists tl; rewrite Hn2, Hr2; split_and!; [done|lia|done]));
    destruct x as [u|[[| |code]|]|w]; try done; exists (S (length tl)), rest; rewrite Hvis; (split; [done|]); first [split; [exact Hinv|]|exact Hinv].
  all: first [exact Hx|cbn in Hk; intros; lia].
Qed.

Lemma sed_step_inv k s out e : sed_inv k s out e -> finished (core s) = false -> visible (core s) = [] ->
  exists s' x, eventually (fun f => sed_step f s) (s', x) /\ steps_to sed_inv B k s' out e x.
Proof.
  intros (Hok & -> & Hinv) Hfin Hv. rewrite Hfin in Hinv. destruct Hinv as (Hst & ls & Hat & Hk & Hout).
  change (runs_to sed_step s (fun s' x => steps_to sed_inv B k s' out Eof x)). unfold sed_step.
  eapply (runs_to_bind look_ahead), runs_to_mono; [by apply ahead_spec|]. intros s1 x (Hat1 & Hkept & Hx).
  destruct (kept_ok _ _ Hkept Hok) as (Hok1 & Hv1 & Hf1). destruct Hkept as (_ & _ & _ & Hs1 & Hn1 & Hr1).
  destruct x as [[]|[[| |code]|]|w]; try done.
  - apply (handle_spec s1 ls); congruence.
  - exists k, out. rewrite Hv1, Hv. split; [done|]. split; [|done]. split; [done|]. split; [done|]. rewrite Hf1, Hfin. split; [congruence|]. exists ls.
    split_and!; [done|done|by rewrite Hn1, Hr1].
Qed.

Lemma sed_closed : closed (holds sed_inv) (fun s => B (inner s)).
Proof.
  intros s bs e n (k & o & -> & Hinv) Hn.
  destruct (read_with_spec sed_step sed_inv B) with (k := k) (s := s) (out := o) (e := e) (n := n) as (s' & x & Hev & Hrep); [| | |done|done|].
  - intros k1 s1 out1 e1 c (Hok & He & Hi) (Ho & Hf & Hok'). split; [done|]. split; [done|]. cbn. rewrite <-Hf. destruct (finished (core s1)); [done|].
    destruct Hi as (Hst & ls & Hat & Hi). rewrite <-Ho. split; [done|]. exists ls. split; [|done]. destruct Hat as (fs & Hfs & Hat). exists fs. split; [done|].
    cbn. by rewrite <-Ho.
  - intros k1 s1 out1 e1 (_ & -> & Hi) Hf. by rewrite Hf in Hi.
  - apply sed_step_inv.
  - by exists s', x.
Qed.
End stage.
End held.

(** What the script makes of a whole input. *)
Definition run_sed (stage : StreamingSedStage) (inp : str) : res io_stop str :=
  sed_lines stage 1 (repeat false (length (instructions stage))) (lines Eof inp).

Lemma sed_contract stage : keeps inner set_inner (fun r : R => SedStreamReader_new r stage)
  (fun inp e => match e, run_sed stage inp with Eof, Ok out => Some (out, Eof) | _, _ => None end).
Proof.
  exists (fun S => holds (sed_inv S stage)). split_and!.
  - intros S B HS. by apply sed_closed.
  - intros S S' s r' bs e (k & out & -> & Hok & -> & Hi) Hr. exists k, out. split; [done|]. split; [done|]. split; [done|]. cbn.
    destruct (finished (core s)); [done|]. destruct Hi as (Hst & ls & (fs & (rest & Hs & Hfs) & Hat) & Hi). split; [done|]. exists ls.
    split; [|done]. exists fs. split; [|done]. exists rest. split; [by apply Hr|done].
  - intros S r inp e out e' Hs Hf. destruct e; [|done]. destruct (run_sed stage inp) as [o| |] eqn:Hrun; try done. injection Hf as <- <-.
    exists (Datatypes.S (length (lines Eof inp))), o. split; [done|]. split; [unfold core_ok; cbn; lia|]. split; [done|]. cbn. split; [done|].
    exists (lines Eof inp). split; [|split; [lia|done]]. exists (lines Eof inp). split; [by exists inp|]. by cbn.
Qed.

(** ** Scripts that do not substitute *)

Definition plain (cmd : StreamingSedCmd) : Prop := match cmd with Substitute _ => False | _ => True end.

Lemma instructions_plain suppress n is_last ins rs w : Forall (fun i => plain (sed_cmd i)) ins ->
  exists x, instructions_loop suppress n is_last ins rs w = Ok x.
Proof.
  intros Hp. induction Hp as [|i ins Hi Hp IH] in rs, w |- *; [by eexists|]. destruct rs as [|r rs]; [by eexists|]. cbn [instructions_loop].
  destruct (streaming_sed_addr_matches _ _ _ _ _) as [[|] r'].
  - assert (exists w' res, apply_sed_instruction suppress (sed_cmd i) w = Ok (w', res)) as (w' & result & ->) by (destruct (sed_cmd i); [done|by eexists _, _..]).
    cbn. destruct result; [by eexists|]. destruct (IH rs w') as [[[rs2 w2] r2] ->]. by eexists.
  - cbn. destruct (IH rs w) as [[[rs2 w2] r2] ->]. by eexists.
Qed.

Lemma sed_plain_total stage n rs ls : Forall (fun i => plain (sed_cmd i)) (instructions stage) -> exists out, sed_lines stage n rs ls = Ok out.
Proof.
  intros Hp. induction ls as [|l ls IH] in n, rs |- *; [by eexists|]. cbn [sed_lines]. unfold apply_instructions.
  destruct (instructions_plain (suppress_print stage) n (bool_decide (ls = [])) (instructions stage) rs {| current_text := l; printed := false; sed_out := [] |} Hp) as [[[rs' w] result] ->].
  cbn. destruct (IH (n + 1) rs') as [rest Hrest]. destruct result as [[| |]|]; cbn; rewrite ?Hrest; by eexists.
Qed.

Definition print_lines (ls : list str) : str := concat (map (fun l => l ++ [newline]) ls).

Definition one_instruction (suppress : bool) (addr : StreamingSedAddr) (cmd : StreamingSedCmd) : StreamingSedStage :=
  {| suppress_print := suppress; instructions := [{| sed_addr := addr; sed_cmd := cmd |}] |}.

(** [sed 'Nq'] is the first N lines. *)
Lemma sed_quit n k rs ls : length rs = 1%nat -> (n <= k)%Z ->
  sed_lines (one_instruction false (AddrLine k) Quit) n rs ls = Ok (print_lines (take (Z.to_nat (k - n + 1)) ls)).
Proof.
  intros Hrs. destruct rs as [|r [|]]; try done. induction ls as [|l ls IH] in n, r |- *; intros Hn; [by rewrite take_nil|]. cbn [sed_lines].
  unfold apply_instructions. cbn. destruct (Z.eqb_spec n k) as [->|Hne]; cbn.
  - replace (Z.to_nat (k - k + 1)) with 1%nat by lia. unfold print_lines. cbn. by rewrite take_0, app_nil_r.
  - rewrite IH by lia. cbn. replace (Z.to_nat (k - n + 1)) with (S (Z.to_nat (k - (n + 1) + 1))) by lia. done.
Qed.

(** [sed -n 'A,Bp']: the lines A to B.  The end of the range is looked for after
    line A only, so a range with B at most A runs to the end of the input. *)
Definition range_stage (a b : Z) : StreamingSedStage := one_instruction true (AddrRange (AddrLine a) (AddrLine b)) Print.

Lemma range_closed a b n ls : (a < n)%Z -> sed_lines (range_stage a b) n [false] ls = Ok [].
Proof.
  induction ls as [|l ls IH] in n |- *; intros Hn; [done|]. cbn [sed_lines]. unfold apply_instructions. cbn. rewrite (proj2 (Z.eqb_neq n a)) by lia. cbn.
  by rewrite IH by lia.
Qed.

Lemma range_open a b n ls : (a < n)%Z ->
  sed_lines (range_stage a b) n [true] ls = Ok (print_lines (if n <=? b then take (Z.to_nat (b - n + 1)) ls else ls)).
Proof.
  induction ls as [|l ls IH] in n |- *; intros Hn; [destruct (n <=? b); by rewrite ?take_nil|]. cbn [sed_lines]. unfold apply_instructions. cbn.
  destruct (Z.leb_spec n b) as [Hb|Hb].
  - destruct (Z.eqb_spec n b) as [->|Hne]; cbn.
    + rewrite range_closed by lia. cbn. replace (Z.to_nat (b - b + 1)) with 1%nat by lia. unfold print_lines. cbn. by rewrite take_0.
    + rewrite IH by lia. rewrite (proj2 (Z.leb_le _ _)) by lia. cbn.
      by replace (Z.to_nat (b - n + 1)) with (S (Z.to_nat (b - (n + 1) + 1))) by lia.
  - rewrite (proj2 (Z.eqb_neq n b)) by lia. cbn. rewrite IH by lia. by rewrite (proj2 (Z.leb_gt _ _)) by lia.
Qed.

Lemma sed_range a b n ls : (n <= a)%Z -> sed_lines (range_stage a b) n [false] ls =
  Ok (print_lines (if a <? b then take (Z.to_nat (b - a + 1)) (drop (Z.to_nat (a - n)) ls) else drop (Z.to_nat (a - n)) ls)).
Proof.
  induction ls as [|l ls IH] in n |- *; intros Hn; [rewrite drop_nil; destruct (a <? b); by rewrite ?take_nil|]. cbn [sed_lines]. unfold apply_instructions. cbn.
  destruct (Z.eqb_spec n a) as [->|Hne]; cbn.
  - rewrite range_open by lia. cbn. replace (Z.to_nat (a - a)) with 0%nat by lia. rewrite drop_0.
    destruct (Z.ltb_spec a b) as [Hab|Hab].
    + rewrite (proj2 (Z.leb_le _ _)) by lia. by replace (Z.to_nat (b - a + 1)) with (S (Z.to_nat (b - (a + 1) + 1))) by lia.
    + by rewrite (proj2 (Z.leb_gt _ _)) by lia.
  - rewrite IH by lia. cbn. by replace (Z.to_nat (a - n)) with (S (Z.to_nat (a - (n + 1)))) by lia.
Qed.
End sed.

(** * Substitution in the sed stage

    With a matcher whose ranges lie on character boundaries, a substitution returns
    on every text and its result is valid UTF-8, unless the pattern is anchored at
    the start and the flag is [g]: then every match panics. *)

(** ** Boundaries of encoded text *)

Lemma encode_tail c i : is_scalar c = true -> (0 < i < length (encode c))%nat -> exists b, encode c !! i = Some b /\ is_continuation b = true.
Proof.
  rewrite scalar_spec. intros Hc. pose proof (Z.mod_pos_bound c 64 ltac:(lia)). pose proof (Z.mod_pos_bound (c / 64) 64 ltac:(lia)).
  pose proof (Z.mod_pos_bound (c / 4096) 64 ltac:(lia)).
  unfold encode. repeat case_split; cbn; intros Hi; do 4 (destruct i as [|i]; [first [lia|cbn; eexists; split; [done|by apply is_continuation_of]]|]); lia.
Qed.

Lemma encode_head c : is_scalar c = true -> exists b s, encode c = b :: s /\ is_continuation b = false.
Proof.
  rewrite scalar_spec. intros Hc. pose proof (Z.div_pos c 64 ltac:(lia) ltac:(lia)). pose proof (Z.div_pos c 4096 ltac:(lia) ltac:(lia)).
  pose proof (Z.div_pos c 262144 ltac:(lia) ltac:(lia)).
  assert (c < 2048 -> c / 64 < 32) by (intros; apply Z.div_lt_upper_bound; lia). assert (c < 65536 -> c / 4096 < 16) by (intros; apply Z.div_lt_upper_bound; lia).
  assert (c / 262144 < 5) by (apply Z.div_lt_upper_bound; lia).
  unfold encode, is_continuation. repeat case_split; eexists _, _; (split; [done|]); rewrite byte_val_of by lia.
  all: rewrite andb_false_iff, Z.leb_gt, Z.ltb_ge; lia.
Qed.

Lemma boundary_split cs i : forallb is_scalar cs = true -> is_char_boundary (encode_all cs) i = true ->
  exists cs1 cs2, cs = cs1 ++ cs2 /\ i = length (encode_all cs1).
Proof.
  induction cs as [|c cs IH] in i |- *; intros Hcs Hb.
  { unfold is_char_boundary in Hb. destruct (Nat.eqb_spec i 0) as [->|]; [by exists [], []|]. cbn in Hb. by rewrite (proj2 (Nat.eqb_neq i 0)) in Hb. }
  cbn in Hcs. apply andb_true_iff in Hcs as [Hc Hcs]. destruct (decide (i = 0%nat)) as [->|Hi]; [by exists [], (c :: cs)|].
  unfold encode_all in *. cbn [map concat] in *. destruct (decide (i < length (encode c))%nat) as [Hlt|Hge].
  - destruct (encode_tail c i Hc) as (b & Hl & Hcont); [lia|]. unfold is_char_boundary in Hb. rewrite (proj2 (Nat.eqb_neq i 0)) in Hb by done.
    rewrite (lookup_app_l_Some _ _ _ _ Hl), Hcont, length_app in Hb. destruct (Nat.eqb_spec i (length (encode c) + length (concat (map encode cs)))); [lia|done].
  - destruct (IH (i - length (encode c))%nat Hcs) as (cs1 & cs2 & -> & Hlen).
    + unfold is_char_boundary in *. rewrite (proj2 (Nat.eqb_neq i 0)), length_app, lookup_app_r in Hb by lia.
      destruct (Nat.eqb_spec (i - length (encode c)) 0); [done|]. destruct (Nat.eqb_spec i (length (encode c) + length (concat (map encode cs)))) as [He|He].
      * by rewrite (proj2 (Nat.eqb_eq _ _)) by lia.
      * by rewrite (proj2 (Nat.eqb_neq (i - _) (length _))) by lia.
    + exists (c :: cs1), cs2. split; [done|]. cbn. rewrite length_app. lia.
Qed.

Lemma prefix_is_boundary cs1 cs2 : forallb is_scalar cs2 = true -> is_char_boundary (encode_all (cs1 ++ cs2)) (length (encode_all cs1)) = true.
Proof.
  intros Hcs. unfold is_char_boundary. destruct (Nat.eqb_spec (length (encode_all cs1)) 0); [done|]. rewrite encode_all_app, length_app.
  destruct (Nat.eqb_spec (length (encode_all cs1)) (length (encode_all cs1) + length (encode_all cs2))) as [|Hne]; [done|].
  rewrite lookup_app_r, Nat.sub_diag by lia. destruct cs2 as [|c cs2]; [cbn in Hne; lia|]. cbn in Hcs. apply andb_true_iff in Hcs as [Hc _].
  destruct (encode_head c Hc) as (b & s & Hb & Hcont). unfold encode_all. cbn. by rewrite Hb; cbn; rewrite Hcont.
Qed.

Lemma slice_encoded {E} cs1 cs2 cs3 : forallb is_scalar (cs2 ++ cs3) = true ->
  str_slice (E := E) (encode_all (cs1 ++ cs2 ++ cs3)) (length (encode_all cs1)) (length (encode_all (cs1 ++ cs2))) = Ok (encode_all cs2).
Proof.
  intros Hcs. unfold str_slice. rewrite prefix_is_boundary by done. rewrite (app_assoc cs1 cs2 cs3), prefix_is_boundary by (rewrite forallb_app in Hcs; by apply andb_true_iff in Hcs as [_ ?]).
  rewrite !encode_all_app, length_app, (proj2 (Nat.leb_le _ _)) by lia. cbn [andb]. unfold slice.
  rewrite <-app_assoc, drop_app_length. replace (length (encode_all cs1) + _ - _)%nat with (length (encode_all cs2)) by lia. by rewrite take_app_length.
Qed.

Lemma prefix_boundary {b1 r1 c1 c2} : b1 ++ r1 = c1 ++ c2 -> (length (encode_all b1) <= length (encode_all c1))%nat -> exists b2, c1 = b1 ++ b2 /\ r1 = b2 ++ c2.
Proof.
  intros He Hl. apply app_eq_inv in He as [(k & -> & ->)|(k & -> & ->)]; [|by exists k].
  rewrite encode_all_app, length_app in Hl. destruct k as [|c k]; [by exists []; rewrite !app_nil_r|]. destruct (encode_nonempty c) as (b & s & Hb).
  unfold encode_all in Hl. cbn in Hl. rewrite Hb in Hl. cbn in Hl. lia.
Qed.

Lemma slice_valid {E} text i j t : valid_utf8 text -> str_slice (E := E) text i j = Ok t -> valid_utf8 t.
Proof.
  intros (cs & Hcs & ->) Hs. pose proof Hs as Hs'. unfold str_slice in Hs. destruct (Nat.leb_spec i j) as [Hij|]; [|done].
  destruct (is_char_boundary _ i) eqn:Hi; [|done]. destruct (is_char_boundary _ j) eqn:Hj; [|done]. clear Hs.
  destruct (boundary_split _ _ Hcs Hi) as (a1 & a2 & -> & ->). destruct (boundary_split _ _ Hcs Hj) as (c1 & c2 & He & ->).
  destruct (prefix_boundary He Hij) as (b & -> & ->). rewrite !forallb_app, !andb_true_iff in Hcs.
  rewrite slice_encoded in Hs' by (rewrite forallb_app; by apply andb_true_iff; naive_solver). injection Hs' as <-. exists b. naive_solver.
Qed.

Lemma chars_le_bytes cs : (length cs <= length (encode_all cs))%nat.
Proof.
  induction cs as [|c cs IH]; [done|]. unfold encode_all in *. cbn. rewrite length_app. destruct (encode_nonempty c) as (b & s & ->). cbn. lia.
Qed.

(** ** The text put in *)

Lemma encode_valid c : is_scalar c = true -> valid_utf8 (encode c).
Proof. intros Hc. exists [c]. cbn. rewrite Hc, app_nil_r. done. Qed.

Lemma group_valid text groups i : valid_utf8 text -> valid_utf8 (group_text text groups i).
Proof.
  intros Ht. unfold group_text, str_get. destruct (groups !! i) as [[[s e]|]|]; [|apply valid_utf8_nil..].
  destruct (str_slice (E := ()) text s e) eqn:Hs; [by apply (slice_valid text s e (E := ()))|apply valid_utf8_nil..].
Qed.

Lemma expand_valid template text groups : valid_utf8 text -> valid_utf8 (streaming_sed_expand_replacement template text groups).
Proof.
  intros Ht. unfold streaming_sed_expand_replacement. pose proof (lossy_chars_scalar template) as Hcs. remember (length (lossy_chars template)) as n eqn:Hn.
  revert Hn Hcs. generalize (lossy_chars template) as cs. induction n as [n IH] using lt_wf_ind. intros cs -> Hcs.
  destruct cs as [|c cs]; [apply valid_utf8_nil|]. cbn in Hcs. apply andb_true_iff in Hcs as [Hc Hcs]. cbn [expand_loop]. destruct (c =? code "\").
  - destruct cs as [|d cs]; [by apply ascii_valid|]. cbn in Hcs. apply andb_true_iff in Hcs as [Hd Hcs].
    apply valid_utf8_app; [|apply (IH (length cs)); [cbn; lia|done..]]. unfold streaming_sed_expand_escape.
    repeat case_split; [by apply group_valid|by apply ascii_valid..|by apply encode_valid].
  - destruct (c =? code "&"); (apply valid_utf8_app; [|apply (IH (length cs)); [cbn; lia|done..]]); [by apply group_valid|by apply encode_valid].
Qed.

(** ** The search *)

Section substitute.
Context `{PosixRegex} (re : regex) (anchored_start anchored_end : bool).

(** The whole match lies between two character boundaries of the text. *)
Definition on_boundaries : Prop := forall text caps s e, valid_utf8 text -> head (re_matches re text) = Some caps -> head caps = Some (Some (s, e)) ->
  (s <= e)%nat /\ is_char_boundary text s = true /\ is_char_boundary text e = true.

Context (Hre : on_boundaries).

Lemma slice_rest {E} a b : forallb is_scalar b = true -> str_slice (E := E) (encode_all (a ++ b)) (length (encode_all a)) (length (encode_all (a ++ b))) = Ok (encode_all b).
Proof. intros Hb. pose proof (slice_encoded (E := E) a b []) as Hs. rewrite !app_nil_r in Hs. by apply Hs. Qed.

Lemma find_spec fuel a b : (length b < fuel)%nat -> forallb is_scalar (a ++ b) = true ->
  let r := find_match_loop fuel (length (encode_all a)) (encode_all (a ++ b)) re anchored_start anchored_end in
  r = Ok None \/ exists m b1 b2 b3, r = Ok (Some m) /\ b = b1 ++ b2 ++ b3 /\ match_start m = length (encode_all (a ++ b1)) /\ match_end m = length (encode_all (a ++ b1 ++ b2)).
Proof.
  induction fuel as [|fuel IH] in a, b |- *; intros Hf Hcs r; [lia|]. subst r. cbn [find_match_loop]. pose proof Hcs as Hcs'.
  rewrite forallb_app, andb_true_iff in Hcs'. destruct Hcs' as [Ha Hb].
  rewrite (proj2 (Nat.ltb_ge _ _)) by (rewrite encode_all_app, length_app; lia). rewrite slice_rest by done. cbn [mbind res_bind].
  match goal with |- context [match ?x with Some m => mret (Some m) | None => _ end] => destruct x as [m|] eqn:Hfound end.
  - right. exists m. destruct (head (re_matches re (encode_all b))) as [caps|] eqn:Hcaps; [|done]. cbn in Hfound.
    destruct (head caps) as [[[s e]|]|] eqn:Hhead; [|done..]. cbn [mbind option_bind] in Hfound.
    destruct ((negb anchored_start || _) && _) in Hfound; [|done]. injection Hfound as <-.
    destruct (Hre (encode_all b) caps s e) as (Hse & Hs & He); [by exists b|done..|].
    destruct (boundary_split _ _ Hb Hs) as (b1 & r1 & -> & ->). destruct (boundary_split _ _ Hb He) as (c1 & c2 & Heq & ->).
    destruct (prefix_boundary Heq Hse) as (b2 & -> & ->). exists b1, b2, c2. split_and!; [done|done|cbn; by rewrite encode_all_app, length_app|].
    cbn. by rewrite !encode_all_app, !length_app.
  - destruct (anchored_start || _) eqn:Hstop; [by left|]. apply orb_false_iff in Hstop as [_ Hne]. apply Nat.eqb_neq in Hne.
    destruct b as [|c b]; [by rewrite app_nil_r in Hne|]. unfold next_char. rewrite lossy_chars_encode by done.
    replace (length (encode_all a) + length (encode c))%nat with (length (encode_all (a ++ [c]))) by (rewrite encode_all_app, length_app; unfold encode_all at 2; cbn; by rewrite app_nil_r).
    replace (a ++ c :: b) with ((a ++ [c]) ++ b) in * by by rewrite <-app_assoc.
    destruct (IH (a ++ [c]) b) as [->|(m & b1 & b2 & b3 & -> & -> & Hs & He)]; [cbn in Hf; lia|done|by left|]. right. exists m, (c :: b1), b2, b3.
    rewrite <-app_assoc in Hs, He. by split_and!.
Qed.

(** ** The replacement *)

Lemma rest_spec a b : forallb is_scalar b = true -> text_from (encode_all (a ++ b)) (length (encode_all a)) = Ok (encode_all b).
Proof. intros Hb. unfold text_from. rewrite (proj2 (Nat.leb_le _ _)) by (rewrite encode_all_app, length_app; lia). by apply slice_rest. Qed.

Lemma encode_one (a : list Z) c : (length (encode_all a) + length (encode c))%nat = length (encode_all (a ++ [c])).
Proof. rewrite encode_all_app, length_app. unfold encode_all at 3. cbn. by rewrite app_nil_r. Qed.

Lemma next_first c b d : forallb is_scalar (c :: b) = true -> next_char (encode_all (c :: b)) d = c.
Proof. intros Hc. unfold next_char. by rewrite lossy_chars_encode. Qed.

Definition restarts (global : bool) (a : list Z) (suppress : bool) : Prop := anchored_start = true -> a = [] /\ global = false /\ suppress = false.

Lemma substitute_spec fuel replacement global a b suppress : (length b < fuel)%nat -> forallb is_scalar (a ++ b) = true -> restarts global a suppress ->
  exists out, substitute_loop fuel (encode_all (a ++ b)) re replacement global anchored_start anchored_end (length (encode_all a)) suppress = Ok out /\ valid_utf8 out.
Proof.
  induction fuel as [|fuel IH] in a, b, suppress |- *; intros Hf Hcs Hr; [lia|]. cbn [substitute_loop]. unfold streaming_sed_find_match. set (text := encode_all (a ++ b)).
  assert (Htext : valid_utf8 text) by (by exists (a ++ b)). pose proof Hcs as Hcs'. rewrite forallb_app, andb_true_iff in Hcs'. destruct Hcs' as [Ha Hb].
  assert (Hrest : valid_utf8 (encode_all b)) by by exists b.
  replace (if anchored_start then 0%nat else length (encode_all a)) with (length (encode_all a)) by (destruct anchored_start eqn:Has; [by destruct (Hr Has) as [-> _]|done]).
  destruct (find_spec (S (S (length text))) a b) as [Hnone|(m & b1 & b2 & b3 & Hsome & -> & Hs & He)].
  { unfold text. rewrite encode_all_app, length_app. pose proof (chars_le_bytes b). lia. }
  { done. }
  { fold text in Hnone. rewrite Hnone. cbn. unfold text. rewrite rest_spec by done. by eexists. }
  fold text in Hsome. rewrite Hsome. cbn [mbind res_bind].
  assert (Hcont : forall a' b' sup, a' ++ b' = a ++ b1 ++ b2 ++ b3 -> (length b' < length (b1 ++ b2 ++ b3))%nat -> exists out,
    (if global then substitute_loop fuel text re replacement global anchored_start anchored_end (length (encode_all a')) sup
     else text_from text (length (encode_all a'))) = Ok out /\ valid_utf8 out).
  { intros a' b' sup Hab Hlt. unfold text. rewrite <-Hab in *. destruct global eqn:Hg.
    - apply IH; [lia|done|]. intros Has. by destruct (Hr Has) as (_ & ? & _).
    - rewrite forallb_app, andb_true_iff in Hcs. rewrite rest_spec by apply Hcs. eexists. split; [done|]. exists b'. split; [apply Hcs|done]. }
  assert (Hmore : forall x y, a ++ x ++ y = a ++ b1 ++ b2 ++ b3 -> (length (encode_all (a ++ x)) < length text)%nat -> exists c y', y = c :: y').
  { intros x y Hxy Hlt. destruct y as [|c y]; [|by eexists _, _]. unfold text in Hlt. rewrite <-Hxy, app_nil_r in Hlt. lia. }
  assert (Hchars : forallb is_scalar b1 = true /\ forallb is_scalar b2 = true /\ forallb is_scalar b3 = true) by (by rewrite !forallb_app, !andb_true_iff in Hb).
  destruct Hchars as (Hb1 & Hb2 & Hb3). assert (Hv1 : valid_utf8 (encode_all b1)) by by exists b1.
  pose proof (expand_valid replacement text (match_groups m) Htext) as Hnew. rewrite Hs, He.
  destruct ((_ =? _)%nat && suppress && _) eqn:Hsup.
  - apply andb_true_iff in Hsup as [[_ ->]%andb_true_iff _]. destruct (Nat.leb_spec (length text) (length (encode_all a))) as [|Hlt].
    { unfold text. rewrite rest_spec by done. by eexists. }
    destruct (Hmore [] (b1 ++ b2 ++ b3)) as (c & b' & Hb'); [done|by rewrite app_nil_r|]. subst text. rewrite Hb' in *. rewrite slice_rest by done.
    cbn [mbind res_bind]. rewrite next_first, encode_one by done. cbn in Hb. apply andb_true_iff in Hb as [Hc _].
    replace (a ++ c :: b') with ((a ++ [c]) ++ b') in * by by rewrite <-app_assoc.
    destruct (IH (a ++ [c]) b' false) as (out & -> & Hout); [cbn in Hf; lia|done|by intros Has; destruct (Hr Has) as (_ & _ & ?)|].
    eexists. split; [done|]. apply valid_utf8_app; [by apply encode_valid|done].
  - subst text. rewrite slice_encoded by by rewrite !forallb_app, Hb1, Hb2. cbn [mbind res_bind]. destruct (Nat.ltb_spec (length (encode_all (a ++ b1))) (length (encode_all (a ++ b1 ++ b2)))) as [Hlt|Hge].
    + destruct (Hcont (a ++ b1 ++ b2) b3 true) as (out & -> & Hout); [by rewrite <-!app_assoc| |].
      { rewrite !length_app. rewrite !encode_all_app, !length_app in Hlt. destruct b2; [cbn in Hlt; lia|cbn; lia]. }
      eexists. split; [done|]. by repeat apply valid_utf8_app.
    + destruct (Nat.leb_spec (length (encode_all (a ++ b1 ++ b2 ++ b3))) (length (encode_all (a ++ b1)))) as [|Hlt].
      * pose proof (rest_spec (a ++ b1 ++ b2) b3 Hb3) as Hlast. rewrite <-!app_assoc in Hlast. rewrite Hlast.
        eexists. split; [done|]. repeat apply valid_utf8_app; try done. by exists b3.
      * destruct (Hmore b1 (b2 ++ b3)) as (c & b' & Hb'); [done|done|].
        pose proof (slice_rest (E := io_stop) (a ++ b1) (b2 ++ b3)) as Htail. rewrite <-!app_assoc in Htail. rewrite Htail by by rewrite forallb_app, Hb2.
        cbn [mbind res_bind]. rewrite Hb' in *. assert (Hcb : forallb is_scalar (c :: b') = true) by (by rewrite <-Hb', forallb_app, Hb2, Hb3).
        rewrite next_first, encode_one by done. cbn in Hcb. apply andb_true_iff in Hcb as [Hc _].
        destruct (Hcont ((a ++ b1) ++ [c]) b' false) as (out & -> & Hout); [by rewrite <-!app_assoc|rewrite length_app; cbn; lia|].
        eexists. split; [done|]. repeat apply valid_utf8_app; try done. by apply encode_valid.
Qed.
End substitute.

(** ** Scripts *)

Section scripts.
Context `{PosixRegex}.

(** A substitution that cannot panic. *)
Definition tame_substitute (s : StreamingSedSubstitute) : Prop := valid_utf8 (sub_replacement s) /\
  let '(bare, anchored_start, _) := streaming_sed_split_anchors (sub_pattern s) in
  bare = [] \/ exists re, compile bare = Some re /\ on_boundaries re /\ (anchored_start = true -> sub_global s = false).

Definition tame (cmd : StreamingSedCmd) : Prop :=
  match cmd with
  | Substitute s => tame_substitute s
  | Transliterate _ to => forallb is_scalar to = true
  | _ => True
  end.

Lemma substitute_total text s : valid_utf8 text -> tame_substitute s ->
  exists out, streaming_sed_substitute text (sub_pattern s) (sub_replacement s) (sub_global s) = Ok out /\ valid_utf8 out.
Proof.
  intros Ht [Hr Hs]. unfold streaming_sed_substitute. destruct (streaming_sed_split_anchors _) as [[bare st] en].
  assert (Hempty : valid_utf8 (streaming_sed_substitute_empty text (sub_replacement s) st en)).
  { unfold streaming_sed_substitute_empty. destruct (st && en); [by destruct text|]. destruct en; [rewrite take_ge, drop_ge by done|];
      repeat apply valid_utf8_app; try done; apply valid_utf8_nil. }
  destruct bare as [|b bare]; [by eexists|]. destruct Hs as [?|(re & -> & Hre & Hg)]; [done|]. destruct Ht as (cs & Hcs & ->).
  apply (substitute_spec re st en Hre (S (S (length (encode_all cs)))) (sub_replacement s) (sub_global s) [] cs false); [|done|].
  - pose proof (chars_le_bytes cs). lia.
  - intros Hst. split_and!; auto.
Qed.

Lemma transliterate_valid text from to : forallb is_scalar to = true -> valid_utf8 (streaming_sed_transliterate text from to).
Proof.
  intros Hto. eexists. split; [|reflexivity]. pose proof (lossy_chars_scalar text) as Hcs. induction (lossy_chars text) as [|c cs IH]; [done|].
  cbn in Hcs |- *. apply andb_true_iff in Hcs as [Hc Hcs]. rewrite IH, andb_true_r by done. rewrite forallb_forall in Hto.
  destruct (position c from) as [p|]; [|done]. destruct (to !! p) as [d|] eqn:Hd.
  - apply Hto, list_elem_of_In. by eapply list_elem_of_lookup_2.
  - destruct (last to) as [d|] eqn:Hl; [|done]. apply Hto, list_elem_of_In. by apply last_Some_elem_of.
Qed.

Lemma instruction_total suppress cmd w : tame cmd -> valid_utf8 (current_text w) -> exists w' r, apply_sed_instruction suppress cmd w = Ok (w', r) /\ valid_utf8 (current_text w').
Proof.
  intros Hc Hw. destruct cmd as [s| | |from to| | | |]; cbn [apply_sed_instruction].
  - destruct (substitute_total (current_text w) s Hw Hc) as (out & -> & Hout). cbn. by eexists _, _.
  - by eexists _, _.
  - by eexists _, _.
  - eexists _, _. split; [done|]. by apply transliterate_valid.
  - eexists _, _. split; [done|]. by destruct (negb suppress && negb (printed w)).
  - by eexists _, _.
  - by eexists _, _.
  - eexists _, _. split; [done|]. by destruct (negb suppress && negb (printed w)).
Qed.

Lemma instructions_total suppress n is_last ins rs w : Forall (fun i => tame (sed_cmd i)) ins -> valid_utf8 (current_text w) ->
  exists x, instructions_loop suppress n is_last ins rs w = Ok x.
Proof.
  intros Hp. induction Hp as [|i ins Hi Hp IH] in rs, w |- *; intros Hw; [by eexists|]. destruct rs as [|r rs]; [by eexists|]. cbn [instructions_loop].
  destruct (streaming_sed_addr_matches _ _ _ _ _) as [[|] r'].
  - destruct (instruction_total suppress (sed_cmd i) w Hi Hw) as (w' & result & -> & Hw'). cbn [mbind res_bind]. destruct result; [by eexists|].
    destruct (IH rs w' Hw') as [[[rs2 w2] r2] ->]. by eexists.
  - cbn [mbind res_bind mret res_ret]. destruct (IH rs w Hw) as [[[rs2 w2] r2] ->]. by eexists.
Qed.

Lemma sed_total stage n rs ls : Forall (fun i => tame (sed_cmd i)) (instructions stage) -> Forall valid_utf8 ls -> exists out, sed_lines stage n rs ls = Ok out.
Proof.
  intros Hp Hls. induction Hls as [|l ls Hl Hls IH] in n, rs |- *; [by eexists|]. cbn [sed_lines]. unfold apply_instructions.
  destruct (instructions_total (suppress_print stage) n (bool_decide (ls = [])) (instructions stage) rs {| current_text := l; printed := false; sed_out := [] |} Hp Hl)
    as [[[rs' w] result] ->].
  cbn [mbind res_bind]. destruct (IH (n + 1) rs') as [rest Hrest]. destruct result as [[| |]|]; cbn; rewrite ?Hrest; by eexists.
Qed.

Lemma lines_valid e s : Forall valid_utf8 (lines e s).
Proof. unfold lines. apply Forall_map, Forall_forall. intros l _. apply from_utf8_lossy_is_valid. Qed.
End scripts.

(** A matcher for literal patterns. *)
Definition literal_regex : PosixRegex := {|
  regex := list Ascii.ascii;
  compile p := Some p;
  re_matches p t := match find_sub p t with Some i => [[Some (i, (i + length p)%nat)]] | None => [] end;
|}.

(** After the first match of an anchored pattern the search starts over at the
    start of the line, before the cursor. *)
Example anchored_global_panics : exists why, streaming_sed_substitute (H := literal_regex) ( #"aab") ( #"^a") ( #"X") true = Panic why.
Proof. eexists. vm_compute. reflexivity. Qed.
