(* ===== verification/StreamArgs.v ===== *)
(** * From arguments to streaming stages (crates/wasmsh-runtime/src/lib.rs)

    The parsers that decide whether a command of a pipeline can run as a streaming
    stage, and with which options.  A parser that answers [None] hands the command
    to the ordinary executor; here that is the error [NotStreaming], so that [?] is
    the bind.  A loop over the arguments with an index is a loop over the arguments
    that are left. *)

From S2P Require Import Prelude Strings Hir Utf8 Stream StreamLines StreamBytes StreamGrep StreamSed.

Inductive no_stage := NotStreaming.

Definition reject {A} : res no_stage A := Err NotStreaming.

(** [.ok()?]. *)
Definition want {A} (o : option A) : res no_stage A := match o with Some a => mret a | None => reject end.

(** ** Stages *)

Record StreamingTeeStage := {
  tee_append : bool;
  tee_paths : list (list Ascii.ascii);
}.

Inductive BufferedPipelineCommand :=
  | BufferedArgv (argv : list (list Ascii.ascii))
  | BufferedHir (cmd : HirCommand).

Inductive StreamingPipelineStage :=
  | Literal (bytes : list Ascii.ascii)
  | File (path : list Ascii.ascii)
  | Yes (line : list Ascii.ascii)
  | External (argv : list (list Ascii.ascii))
  | BufferedCommand (cmd : BufferedPipelineCommand)
  | Cat
  | Head (mode : StreamingHeadMode)
  | Tail (mode : StreamingTailMode)
  | Bat (stage : StreamingBatStage)
  | Sed (stage : StreamingSedStage)
  | Tee (stage : StreamingTeeStage)
  | Paste (stage : StreamingPasteStage)
  | Column
  | Grep (stage : StreamingGrepStage)
  | Uniq (flags : StreamingUniqFlags)
  | Rev
  | Cut (stage : StreamingCutStage)
  | Tr (stage : StreamingTrStage)
  | Wc (flags : StreamingWcFlags).

(** ** Loops over arguments

    [apply arg rest s]: how many arguments are used up, and the new options. *)
Fixpoint args_loop {S} (apply : str -> list str -> S -> res no_stage (nat * S)) (fuel : nat) (args : list str) (s : S) : res no_stage S :=
  match fuel, args with
  | O, _ | _, [] => mret s
  | Datatypes.S f, arg :: rest => '(n, s') ← apply arg rest s; args_loop apply f (drop n args) s'
  end.

Definition parse_args {S} (apply : str -> list str -> S -> res no_stage (nat * S)) (args : list str) (s : S) : res no_stage S :=
  args_loop apply (length args) args s.

(** [for ch in flags.chars()] with a rejecting default. *)
Fixpoint chars_loop {S} (apply : Z -> S -> res no_stage S) (cs : list Z) (s : S) : res no_stage S :=
  match cs with [] => mret s | c :: cs' => s' ← apply c s; chars_loop apply cs' s' end.

Definition cluster {S} (apply : Z -> S -> res no_stage S) (flags : str) (s : S) : res no_stage S := chars_loop apply (lossy_chars flags) s.

(** [arg.starts_with('-') && arg.len() > 1]. *)
Definition is_option (arg : str) : bool := starts_with #"-" arg && (1 <? length arg)%nat.

Definition arg_is (arg : str) (s : str) : bool := bool_decide (arg = s).

(** [split_once(c)] with an ASCII character. *)
Fixpoint split_once (c : byte) (s : str) : option (str * str) :=
  match s with
  | [] => None
  | d :: s' => if decide (d = c) then Some ([], s') else '(a, b) ← split_once c s'; Some (d :: a, b)
  end.

(** ** echo and yes *)

Definition echo_flag_ok (arg : str) : bool :=
  match arg with
  | c :: (_ :: _) as flags => bool_decide (c = "-"%char) && forallb (fun b => bool_decide (b = "n"%char) || bool_decide (b = "e"%char)) (tail flags)
  | _ => false
  end.

(** The flags and the other arguments. *)
Fixpoint echo_flags (args : list str) (suppress_newline interpret_escapes : bool) : bool * bool * list str :=
  match args with
  | arg :: args' =>
      if echo_flag_ok arg then
        echo_flags args' (suppress_newline || bool_decide ("n"%char ∈ arg)) (interpret_escapes || bool_decide ("e"%char ∈ arg))
      else (suppress_newline, interpret_escapes, args)
  | [] => (suppress_newline, interpret_escapes, [])
  end.

(** A byte pushed as a [char] is that character's encoding. *)
Fixpoint process_streaming_echo_escapes (bytes : str) : str :=
  match bytes with
  | [] => []
  | b :: bs =>
      if bool_decide (b = "\"%char) then
        match bs with
        | [] => encode (byte_val b)
        | e :: bs' =>
            (if bool_decide (e = "n"%char) then [newline]
             else if bool_decide (e = "t"%char) then [byte_of 9]
             else if bool_decide (e = "r"%char) then [byte_of 13]
             else if bool_decide (e = "\"%char) then #"\"
             else #"\" ++ encode (byte_val e)) ++ process_streaming_echo_escapes bs'
        end
      else encode (byte_val b) ++ process_streaming_echo_escapes bs
  end.

Definition streaming_echo_bytes (args : list str) : str :=
  let '(suppress_newline, interpret_escapes, words) := echo_flags args false false in
  let text := join #" " words in
  (if interpret_escapes then process_streaming_echo_escapes text else text) ++ (if suppress_newline then [] else [newline]).

Definition parse_streaming_first_stage (cmd_name : str) (args : list str) (is_first : bool) : res no_stage StreamingPipelineStage :=
  if negb is_first then reject
  else if arg_is cmd_name #"echo" then mret (Literal (streaming_echo_bytes args))
  else if arg_is cmd_name #"yes" then mret (Yes ((match args with [] => #"y" | _ => join #" " args end) ++ [newline]))
  else reject.

(** ** cat, rev, column *)

Definition parse_streaming_cat_stage (args : list str) (is_first : bool) : res no_stage StreamingPipelineStage :=
  let non_separator := List.filter (fun arg => negb (arg_is arg #"--")) args in
  if existsb (starts_with #"-") non_separator then reject
  else if is_first then match non_separator with [path] => mret (File path) | _ => reject end
  else mret Cat.

Definition parse_streaming_rev_stage (args : list str) : res no_stage StreamingPipelineStage :=
  if forallb (fun arg => arg_is arg #"--") args then mret Rev else reject.

Definition apply_streaming_column_arg (arg : str) (rest : list str) (s : unit) : res no_stage (nat * unit) :=
  if arg_is arg #"-t" then reject
  else if arg_is arg #"-s" && (match rest with [] => false | _ => true end) then reject
  else if is_option arg then mret (1%nat, tt)
  else reject.

Definition parse_streaming_column_stage (args : list str) : res no_stage StreamingPipelineStage :=
  _ ← parse_args apply_streaming_column_arg args tt; mret Column.

Section parsers.
Context `{Target}.

(** ** head and tail *)

Definition apply_streaming_head_arg (arg : str) (rest : list str) (s : StreamingHeadMode * list str) : res no_stage (nat * (StreamingHeadMode * list str)) :=
  let '(mode, files) := s in
  match arg_is arg #"--", arg_is arg #"-c", arg_is arg #"-n", rest with
  | true, _, _, _ => mret (1%nat, (mode, files))
  | _, true, _, next :: _ => n ← want (parse_usize next); mret (2%nat, (HeadBytes n, files))
  | _, _, true, next :: _ => n ← want (parse_usize next); mret (2%nat, (HeadLines n, files))
  | _, _, _, _ =>
      if is_option arg then n ← want (parse_usize (drop 1 arg)); mret (1%nat, (HeadLines n, files))
      else mret (1%nat, (mode, files ++ [arg]))
  end.

Definition parse_streaming_head_stage (args : list str) : res no_stage StreamingPipelineStage :=
  '(mode, files) ← parse_args apply_streaming_head_arg args (HeadLines 10, []);
  match files with [] => mret (Head mode) | _ => reject end.

Definition parse_streaming_tail_lines_value (value : str) : res no_stage StreamingTailMode :=
  if starts_with #"+" value then reject else n ← want (parse_usize value); mret (TailLines n).

Definition apply_streaming_tail_arg (arg : str) (rest : list str) (s : StreamingTailMode * list str) : res no_stage (nat * (StreamingTailMode * list str)) :=
  let '(mode, files) := s in
  if arg_is arg #"-f" then reject
  else match arg_is arg #"--", arg_is arg #"-c", arg_is arg #"-n", rest with
  | true, _, _, _ => mret (1%nat, (mode, files))
  | _, true, _, next :: _ => n ← want (parse_usize next); mret (2%nat, (TailBytes n, files))
  | _, _, true, next :: _ => mode ← parse_streaming_tail_lines_value next; mret (2%nat, (mode, files))
  | _, _, _, _ =>
      if is_option arg then n ← want (parse_usize (drop 1 arg)); mret (1%nat, (TailLines n, files))
      else mret (1%nat, (mode, files ++ [arg]))
  end.

Definition parse_streaming_tail_stage (args : list str) : res no_stage StreamingPipelineStage :=
  '(mode, files) ← parse_args apply_streaming_tail_arg args (TailLines 10, []);
  match files with [] => mret (Tail mode) | _ => reject end.

(** ** bat *)

Definition set_bat (numbers header : bool) (range : option (option Z * option Z)) (all : bool) : StreamingBatStage :=
  {| show_numbers := numbers; show_header := header; line_range := range; show_all := all |}.

(** An empty bound and one that is no number are both open. *)
Definition parse_streaming_bat_range (s : str) : option (option Z * option Z) :=
  match split_once ":"%char s with
  | Some (start, stop) =>
      Some (match start with [] => None | _ => parse_usize start end, match stop with [] => None | _ => parse_usize stop end)
  | None => n ← parse_usize s; Some (Some n, Some n)
  end.

Definition apply_streaming_bat_short_cluster (ch : Z) (st : StreamingBatStage) : res no_stage StreamingBatStage :=
  if ch =? code "n" then mret (set_bat true (show_header st) (line_range st) (show_all st))
  else if ch =? code "p" then mret (set_bat false false (line_range st) (show_all st))
  else if ch =? code "A" then mret (set_bat (show_numbers st) (show_header st) (line_range st) true)
  else reject.

Definition apply_streaming_bat_long_or_short (value : str) (st : StreamingBatStage) : res no_stage (nat * StreamingBatStage) :=
  if starts_with #"--style=" value then mret (1%nat, set_bat true true (line_range st) (show_all st))
  else match strip_prefix #"--line-range=" value with
  | Some range_spec => mret (1%nat, set_bat (show_numbers st) (show_header st) (parse_streaming_bat_range range_spec) (show_all st))
  | None =>
      if starts_with #"--paging=" value || starts_with #"--language=" value then mret (1%nat, st)
      else if is_option value && negb (starts_with #"--" value) then
        st ← cluster apply_streaming_bat_short_cluster (drop 1 value) st; mret (1%nat, st)
      else reject
  end.

Definition apply_streaming_bat_arg (arg : str) (rest : list str) (st : StreamingBatStage) : res no_stage (nat * StreamingBatStage) :=
  if arg_is arg #"-n" || arg_is arg #"--number" then mret (1%nat, set_bat true (show_header st) (line_range st) (show_all st))
  else if arg_is arg #"-p" || arg_is arg #"--plain" || arg_is arg #"--style=plain" then mret (1%nat, set_bat false false (line_range st) (show_all st))
  else if arg_is arg #"-A" || arg_is arg #"--show-all" then mret (1%nat, set_bat (show_numbers st) (show_header st) (line_range st) true)
  else match (if arg_is arg #"-r" || arg_is arg #"--line-range" then head rest else None) with
  | Some next => mret (2%nat, set_bat (show_numbers st) (show_header st) (parse_streaming_bat_range next) (show_all st))
  | None =>
      if (arg_is arg #"-l" || arg_is arg #"--language" || arg_is arg #"--paging") && (match rest with [] => false | _ => true end) then mret (2%nat, st)
      else if arg_is arg #"--style=numbers" then mret (1%nat, set_bat true false (line_range st) (show_all st))
      else if arg_is arg #"--style=header" then mret (1%nat, set_bat false true (line_range st) (show_all st))
      else if arg_is arg #"--" then match rest with [] => mret (1%nat, st) | _ => reject end
      else apply_streaming_bat_long_or_short arg st
  end.

Definition parse_streaming_bat_stage (args : list str) : res no_stage StreamingPipelineStage :=
  st ← parse_args apply_streaming_bat_arg args (set_bat true true None false); mret (Bat st).

(** ** sed *)

Definition streaming_sed_arg_rejected (arg : str) : bool :=
  arg_is arg #"-f" || arg_is arg #"-i" || starts_with #"-i" arg || (is_option arg && negb (arg_is arg #"--")).

(** A break uses up all that is left. *)
Definition streaming_sed_handle_doubledash (rest : list str) (suppress : bool) (expressions : list str) : res no_stage (nat * (bool * list str)) :=
  match rest, expressions with
  | [], _ => mret (1%nat, (suppress, expressions))
  | next :: _, [] => mret (2%nat, (suppress, [next]))
  | _, _ => reject
  end.

Definition apply_streaming_sed_arg (arg : str) (rest : list str) (s : bool * list str) : res no_stage (nat * (bool * list str)) :=
  let '(suppress, expressions) := s in
  if arg_is arg #"-n" then mret (1%nat, (true, expressions))
  else match (if arg_is arg #"-e" then head rest else None) with
  | Some next => mret (2%nat, (suppress, expressions ++ [next]))
  | None =>
      if arg_is arg #"-E" || arg_is arg #"-r" then mret (1%nat, (suppress, expressions))
      else if streaming_sed_arg_rejected arg then reject
      else if arg_is arg #"--" then streaming_sed_handle_doubledash rest suppress expressions
      else match expressions with [] => mret (1%nat, (suppress, [arg])) | _ => reject end
  end.

Definition parse_streaming_sed_stage (args : list str) : res no_stage StreamingPipelineStage :=
  '(suppress, expressions) ← parse_args apply_streaming_sed_arg args (false, []);
  match expressions with
  | [] => reject
  | _ =>
      ins ← parse_streaming_sed_script (join #";" expressions);
      match ins with [] => reject | _ => mret (Sed {| suppress_print := suppress; instructions := ins |}) end
  end.

(** ** paste and tee *)

Definition apply_streaming_paste_short_cluster (rest : list str) (ch : Z) (s : str * bool * nat) : res no_stage (str * bool * nat) :=
  let '(delimiter, serial, extra) := s in
  if ch =? code "s" then mret (delimiter, true, extra)
  else if ch =? code "d" then match rest with next :: _ => mret (next, serial, 1%nat) | [] => reject end
  else reject.

Definition apply_streaming_paste_arg (arg : str) (rest : list str) (s : str * bool) : res no_stage (nat * (str * bool)) :=
  let '(delimiter, serial) := s in
  match (if arg_is arg #"-d" then head rest else None) with
  | Some next => mret (2%nat, (next, serial))
  | None =>
      if arg_is arg #"-s" then mret (1%nat, (delimiter, true))
      else if arg_is arg #"--" then match rest with [] => mret (1%nat, s) | _ => reject end
      else if is_option arg then
        '(delimiter, serial, extra) ← cluster (apply_streaming_paste_short_cluster rest) (drop 1 arg) (delimiter, serial, 0%nat);
        mret (S extra, (delimiter, serial))
      else reject
  end.

Definition parse_streaming_paste_stage (args : list str) : res no_stage StreamingPipelineStage :=
  '(delimiter, serial) ← parse_args apply_streaming_paste_arg args ([byte_of 9], false);
  mret (Paste {| delimiter := delimiter; serial := serial |}).

Definition apply_tee_char (ch : Z) (append : bool) : res no_stage bool :=
  if ch =? code "a" then mret true else if ch =? code "i" then mret append else reject.

Definition apply_tee_arg (arg : str) (rest : list str) (s : bool * list str) : res no_stage (nat * (bool * list str)) :=
  let '(append, paths) := s in
  if arg_is arg #"-a" then mret (1%nat, (true, paths))
  else if arg_is arg #"-i" then mret (1%nat, (append, paths))
  else if arg_is arg #"--" then mret (S (length rest), (append, paths ++ rest))
  else if is_option arg then append ← cluster apply_tee_char (drop 1 arg) append; mret (1%nat, (append, paths))
  else mret (1%nat, (append, paths ++ [arg])).

Definition parse_streaming_tee_stage (args : list str) : res no_stage StreamingPipelineStage :=
  '(append, paths) ← parse_args apply_tee_arg args (false, []);
  mret (Tee {| tee_append := append; tee_paths := paths |}).
End parsers.

(** ** grep *)

Record GrepArgs := {
  ga_flags : StreamingGrepFlags;
  ga_patterns : list (list Ascii.ascii);
  ga_rest : list (list Ascii.ascii);
}.

Definition no_grep_flags : StreamingGrepFlags :=
  {| grep_ignore_case := false; invert := false; count_only := false; show_line_numbers := false; files_only := false; word_match := false;
     only_matching := false; quiet := false; extended := false; fixed := false; after_context := 0; before_context := 0;
     max_count := None; show_filename := None |}.

Definition set_context (after before : Z) (max : option Z) (fl : StreamingGrepFlags) : StreamingGrepFlags :=
  {| grep_ignore_case := grep_ignore_case fl; invert := invert fl; count_only := count_only fl; show_line_numbers := show_line_numbers fl;
     files_only := files_only fl; word_match := word_match fl; only_matching := only_matching fl; quiet := quiet fl; extended := extended fl;
     fixed := fixed fl; after_context := after; before_context := before; max_count := max; show_filename := show_filename fl |}.

(** One short flag. *)
Definition apply_streaming_grep_short_flags (ch : Z) (fl : StreamingGrepFlags) : res no_stage StreamingGrepFlags :=
  let set (i v c n l w o q e f : bool) (name : option bool) :=
    mret {| grep_ignore_case := grep_ignore_case fl || i; invert := invert fl || v; count_only := count_only fl || c;
            show_line_numbers := show_line_numbers fl || n; files_only := files_only fl || l; word_match := word_match fl || w;
            only_matching := only_matching fl || o; quiet := quiet fl || q; extended := extended fl || e; fixed := fixed fl || f;
            after_context := after_context fl; before_context := before_context fl; max_count := max_count fl; show_filename := name |} in
  let keep := show_filename fl in
  if ch =? code "i" then set true false false false false false false false false false keep
  else if ch =? code "v" then set false true false false false false false false false false keep
  else if ch =? code "c" then set false false true false false false false false false false keep
  else if ch =? code "n" then set false false false true false false false false false false keep
  else if ch =? code "l" then set false false false false true false false false false false keep
  else if (ch =? code "E") || (ch =? code "P") then set false false false false false false false false true false keep
  else if ch =? code "F" then set false false false false false false false false false true keep
  else if ch =? code "w" then set false false false false false true false false false false keep
  else if ch =? code "o" then set false false false false false false true false false false keep
  else if ch =? code "q" then set false false false false false false false true false false keep
  else if ch =? code "h" then set false false false false false false false false false false (Some false)
  else if ch =? code "H" then set false false false false false false false false false false (Some true)
  else if ch =? code "z" then mret fl
  else reject.

Definition streaming_grep_arg_rejected (arg : str) : bool :=
  starts_with #"--include=" arg || starts_with #"--exclude=" arg || arg_is arg #"--color" || starts_with #"--color=" arg ||
  arg_is arg #"-r" || arg_is arg #"-R" || arg_is arg #"--recursive".

Inductive StreamingGrepStep :=
  | Advance (n : nat)
  | NotMatched.

Section grep.
Context `{Target}.

(** The glued values [-A2], [-m5]: [split_at(2)] panics inside a character. *)
Definition glued_value (arg : str) (fl : StreamingGrepFlags) : res no_stage (option StreamingGrepFlags) :=
  if (2 <? length arg)%nat then
    letter ← str_slice arg 0 2;
    let rest := drop 2 arg in
    if arg_is letter #"-A" then n ← want (parse_usize rest); mret (Some (set_context n (before_context fl) (max_count fl) fl))
    else if arg_is letter #"-B" then n ← want (parse_usize rest); mret (Some (set_context (after_context fl) n (max_count fl) fl))
    else if arg_is letter #"-C" then n ← want (parse_usize rest); mret (Some (set_context n n (max_count fl) fl))
    else if arg_is letter #"-m" then n ← want (parse_usize rest); mret (Some (set_context (after_context fl) (before_context fl) (Some n) fl))
    else mret None
  else mret None.

Definition parse_streaming_grep_value_flag (arg : str) (rest : list str) (fl : StreamingGrepFlags) (pats : list str) :
    res no_stage (StreamingGrepStep * StreamingGrepFlags * list str) :=
  glued ← glued_value arg fl;
  match glued, rest with
  | Some fl', _ => mret (Advance 1, fl', pats)
  | None, [] => mret (NotMatched, fl, pats)
  | None, next :: _ =>
      if arg_is arg #"-e" then mret (Advance 2, fl, pats ++ [next])
      else if arg_is arg #"-f" then reject
      else if arg_is arg #"-A" then n ← want (parse_usize next); mret (Advance 2, set_context n (before_context fl) (max_count fl) fl, pats)
      else if arg_is arg #"-B" then n ← want (parse_usize next); mret (Advance 2, set_context (after_context fl) n (max_count fl) fl, pats)
      else if arg_is arg #"-C" then n ← want (parse_usize next); mret (Advance 2, set_context n n (max_count fl) fl, pats)
      else if arg_is arg #"-m" then mret (Advance 2, set_context (after_context fl) (before_context fl) (parse_usize next) fl, pats)
      else mret (NotMatched, fl, pats)
  end.

Definition apply_grep_arg (arg : str) (rest : list str) (s : GrepArgs) : res no_stage (nat * GrepArgs) :=
  let with_ fl pats more := {| ga_flags := fl; ga_patterns := pats; ga_rest := more |} in
  if arg_is arg #"--" then mret (S (length rest), with_ (ga_flags s) (ga_patterns s) (ga_rest s ++ rest))
  else if streaming_grep_arg_rejected arg then reject
  else
    '(step, fl, pats) ← parse_streaming_grep_value_flag arg rest (ga_flags s) (ga_patterns s);
    match step with
    | Advance n => mret (n, with_ fl pats (ga_rest s))
    | NotMatched =>
        if is_option arg then fl ← cluster apply_streaming_grep_short_flags (drop 1 arg) fl; mret (1%nat, with_ fl pats (ga_rest s))
        else mret (1%nat, with_ fl pats (ga_rest s ++ [arg]))
    end.

Definition parse_streaming_grep_stage (args : list str) : res no_stage StreamingPipelineStage :=
  s ← parse_args apply_grep_arg args {| ga_flags := no_grep_flags; ga_patterns := []; ga_rest := [] |};
  '(pats, files) ← (match ga_patterns s, ga_rest s with
                    | [], first :: more => mret ([first], more)
                    | [], [] => reject
                    | pats, more => mret (pats, more)
                    end);
  match files with [] => mret (Grep {| grep_flags := ga_flags s; patterns := pats |}) | _ => reject end.
End grep.

(** ** uniq *)

Section more.
Context `{Target}.

Definition set_keys (fields chars : Z) (compare : option Z) (fl : StreamingUniqFlags) : StreamingUniqFlags :=
  {| count_lines := count_lines fl; duplicates_only := duplicates_only fl; unique_only := unique_only fl; ignore_case := ignore_case fl;
     skip_fields := fields; skip_chars := chars; compare_chars := compare |}.

Definition apply_streaming_uniq_short_cluster (ch : Z) (fl : StreamingUniqFlags) : res no_stage StreamingUniqFlags :=
  let set (c d u i : bool) :=
    mret {| count_lines := count_lines fl || c; duplicates_only := duplicates_only fl || d; unique_only := unique_only fl || u;
            ignore_case := ignore_case fl || i; skip_fields := skip_fields fl; skip_chars := skip_chars fl; compare_chars := compare_chars fl |} in
  if ch =? code "c" then set true false false false
  else if ch =? code "d" then set false true false false
  else if ch =? code "u" then set false false true false
  else if ch =? code "i" then set false false false true
  else if ch =? code "z" then mret fl
  else reject.

Definition apply_streaming_uniq_arg (arg : str) (rest : list str) (fl : StreamingUniqFlags) : res no_stage (nat * StreamingUniqFlags) :=
  match arg_is arg #"--", arg_is arg #"-f", arg_is arg #"-s", arg_is arg #"-w", rest with
  | true, _, _, _, _ => mret (1%nat, fl)
  | _, true, _, _, next :: _ => n ← want (parse_usize next); mret (2%nat, set_keys n (skip_chars fl) (compare_chars fl) fl)
  | _, _, true, _, next :: _ => n ← want (parse_usize next); mret (2%nat, set_keys (skip_fields fl) n (compare_chars fl) fl)
  | _, _, _, true, next :: _ => mret (2%nat, set_keys (skip_fields fl) (skip_chars fl) (parse_usize next) fl)
  | _, _, _, _, _ =>
      if is_option arg then fl ← cluster apply_streaming_uniq_short_cluster (drop 1 arg) fl; mret (1%nat, fl) else reject
  end.

Definition parse_streaming_uniq_stage (args : list str) : res no_stage StreamingPipelineStage :=
  fl ← parse_args apply_streaming_uniq_arg args
         {| count_lines := false; duplicates_only := false; unique_only := false; ignore_case := false; skip_fields := 0; skip_chars := 0; compare_chars := None |};
  mret (Uniq fl).

(** ** cut *)

Definition parse_cut_range (part : str) : option StreamingCutRange :=
  match split_once "-"%char part with
  | Some (start, stop) =>
      Some {| range_start := match start with [] => None | _ => parse_usize start end; range_end := match stop with [] => None | _ => parse_usize stop end |}
  | None => n ← parse_usize part; Some {| range_start := Some n; range_end := Some n |}
  end.

Definition parse_streaming_cut_ranges (spec : str) : list StreamingCutRange := omap parse_cut_range (split_on ","%char spec).

Record StreamingCutParseState := {
  cs_delim : Z;
  cs_mode : option StreamingCutMode;
  cs_complement : bool;
  cs_only_delimited : bool;
  cs_output_delim : option (list Ascii.ascii);
}.

(** The new mode and the number of arguments, if this is a mode flag. *)
Definition streaming_cut_try_mode_flag (arg : str) (rest : list str) : option (nat * StreamingCutMode) :=
  '(flag, wrap) ← (if starts_with #"-f" arg then Some ( #"-f", Fields)
                   else if starts_with #"-c" arg then Some ( #"-c", Chars)
                   else if starts_with #"-b" arg then Some ( #"-b", Bytes)
                   else None);
  match (if arg_is arg flag then head rest else None), strip_prefix flag arg with
  | Some next, _ => Some (2%nat, wrap (parse_streaming_cut_ranges next))
  | None, Some ((_ :: _) as spec) => Some (1%nat, wrap (parse_streaming_cut_ranges spec))
  | None, _ => None
  end.

(** [chars().next().unwrap_or('\t')]. *)
Definition delim_char (s : str) : Z := next_char s 9.

Definition streaming_cut_try_delim_flag (arg : str) (rest : list str) : option (nat * Z) :=
  match (if arg_is arg #"-d" then head rest else None) with
  | Some next => Some (2%nat, delim_char next)
  | None => if starts_with #"-d" arg && (2 <? length arg)%nat then Some (1%nat, delim_char (drop 2 arg)) else None
  end.

Definition apply_streaming_cut_arg (arg : str) (rest : list str) (s : StreamingCutParseState) : res no_stage (nat * StreamingCutParseState) :=
  let set d m c o out := {| cs_delim := d; cs_mode := m; cs_complement := c; cs_only_delimited := o; cs_output_delim := out |} in
  match streaming_cut_try_mode_flag arg rest with
  | Some (n, m) => mret (n, set (cs_delim s) (Some m) (cs_complement s) (cs_only_delimited s) (cs_output_delim s))
  | None =>
      match streaming_cut_try_delim_flag arg rest with
      | Some (n, d) => mret (n, set d (cs_mode s) (cs_complement s) (cs_only_delimited s) (cs_output_delim s))
      | None =>
          if arg_is arg #"--complement" then mret (1%nat, set (cs_delim s) (cs_mode s) true (cs_only_delimited s) (cs_output_delim s))
          else if arg_is arg #"-s" then mret (1%nat, set (cs_delim s) (cs_mode s) (cs_complement s) true (cs_output_delim s))
          else if arg_is arg #"-z" || arg_is arg #"--" then mret (1%nat, s)
          else match strip_prefix #"--output-delimiter=" arg with
               | Some out => mret (1%nat, set (cs_delim s) (cs_mode s) (cs_complement s) (cs_only_delimited s) (Some out))
               | None => reject
               end
      end
  end.

Definition parse_streaming_cut_stage (args : list str) : res no_stage StreamingPipelineStage :=
  s ← parse_args apply_streaming_cut_arg args
        {| cs_delim := 9; cs_mode := None; cs_complement := false; cs_only_delimited := false; cs_output_delim := None |};
  mode ← want (cs_mode s);
  mret (Cut {| mode := mode; delim := cs_delim s; complement := cs_complement s; only_delimited := cs_only_delimited s;
               output_delim := default (encode (cs_delim s)) (cs_output_delim s) |}).

(** ** tr *)

Definition apply_streaming_tr_flags (ch : Z) (s : bool * bool * bool) : res no_stage (bool * bool * bool) :=
  let '(delete, squeeze, complement) := s in
  if ch =? code "d" then mret (true, squeeze, complement)
  else if ch =? code "s" then mret (delete, true, complement)
  else if (ch =? code "c") || (ch =? code "C") then mret (delete, squeeze, true)
  else if ch =? code "t" then mret s
  else reject.

Definition apply_tr_arg (arg : str) (rest : list str) (s : (bool * bool * bool) * list str) : res no_stage (nat * ((bool * bool * bool) * list str)) :=
  let '(fl, sets) := s in
  if is_option arg then fl ← cluster apply_streaming_tr_flags (drop 1 arg) fl; mret (1%nat, (fl, sets))
  else mret (1%nat, (fl, sets ++ [arg])).

Definition streaming_tr_resolve_to_chars (set_args : list str) (delete squeeze : bool) : res no_stage (list Z) :=
  match delete, set_args with
  | true, _ :: second :: _ => mret (if squeeze then streaming_tr_expand_set second else [])
  | true, _ => mret []
  | false, _ :: second :: _ => mret (streaming_tr_expand_set second)
  | false, _ => if squeeze then mret [] else reject
  end.

Definition parse_streaming_tr_stage (args : list str) : res no_stage StreamingPipelineStage :=
  '(fl, set_args) ← parse_args apply_tr_arg args ((false, false, false), []);
  let '(delete, squeeze_, complement) := fl in
  first ← want (head set_args);
  let from := streaming_tr_expand_set first in
  to ← streaming_tr_resolve_to_chars set_args delete squeeze_;
  mret (Tr {| tr_delete := delete; squeeze := squeeze_; tr_complement := complement; from_chars := from; to_chars := to |}).

(** ** wc *)

Definition apply_streaming_wc_short_cluster (ch : Z) (fl : StreamingWcFlags) : res no_stage StreamingWcFlags :=
  let set (l w b m : bool) := mret {| wc_lines := wc_lines fl || l; wc_words := wc_words fl || w; wc_bytes := wc_bytes fl || b; wc_max_line_length := wc_max_line_length fl || m |} in
  if ch =? code "l" then set true false false false
  else if ch =? code "w" then set false true false false
  else if (ch =? code "c") || (ch =? code "m") then set false false true false
  else if ch =? code "L" then set false false false true
  else reject.

(** An argument that is no flag makes the caller reject. *)
Definition apply_streaming_wc_arg (arg : str) (rest : list str) (s : StreamingWcFlags * bool) : res no_stage (nat * (StreamingWcFlags * bool)) :=
  let '(fl, parsing_flags) := s in
  if parsing_flags && arg_is arg #"--" then mret (1%nat, (fl, false))
  else if parsing_flags && is_option arg then
    fl ← cluster apply_streaming_wc_short_cluster (drop 1 arg) fl; mret (1%nat, (fl, parsing_flags))
  else reject.

Definition parse_streaming_wc_stage (args : list str) : res no_stage StreamingPipelineStage :=
  '(fl, _) ← parse_args apply_streaming_wc_arg args ({| wc_lines := false; wc_words := false; wc_bytes := false; wc_max_line_length := false |}, true);
  mret (Wc (if negb (wc_lines fl) && negb (wc_words fl) && negb (wc_bytes fl) && negb (wc_max_line_length fl)
            then {| wc_lines := true; wc_words := true; wc_bytes := true; wc_max_line_length := false |} else fl)).

(** ** The choice of a stage *)

Definition parse_streaming_internal_stage (cmd_name : str) (args : list str) (is_first : bool) : res no_stage StreamingPipelineStage :=
  if arg_is cmd_name #"cat" then parse_streaming_cat_stage args is_first
  else if is_first then reject
  else if arg_is cmd_name #"head" then parse_streaming_head_stage args
  else if arg_is cmd_name #"tail" then parse_streaming_tail_stage args
  else if arg_is cmd_name #"bat" then parse_streaming_bat_stage args
  else if arg_is cmd_name #"sed" then parse_streaming_sed_stage args
  else if arg_is cmd_name #"tee" then parse_streaming_tee_stage args
  else if arg_is cmd_name #"paste" then parse_streaming_paste_stage args
  else if arg_is cmd_name #"column" then parse_streaming_column_stage args
  else if arg_is cmd_name #"grep" then parse_streaming_grep_stage args
  else if arg_is cmd_name #"uniq" then parse_streaming_uniq_stage args
  else if arg_is cmd_name #"rev" then parse_streaming_rev_stage args
  else if arg_is cmd_name #"cut" then parse_streaming_cut_stage args
  else if arg_is cmd_name #"tr" then parse_streaming_tr_stage args
  else if arg_is cmd_name #"wc" then parse_streaming_wc_stage args
  else reject.
End more.

(** The fields of the runtime that decide about the other commands. *)
Record StageEnv := {
  allow_external_streaming : bool;
  has_external_stream_handler : bool;
  has_external_handler : bool;
  has_external_spec_handler : bool;
  external_specs : gset (list Ascii.ascii);
  functions : gset (list Ascii.ascii);
  builtins : gset (list Ascii.ascii);
  utils : gset (list Ascii.ascii);
}.

Definition is_buffered_stage_candidate (env : StageEnv) (cmd_name : str) : bool :=
  arg_is cmd_name #"bash" || arg_is cmd_name #"sh" || arg_is cmd_name #"builtin" ||
  bool_decide (cmd_name ∈ functions env) || bool_decide (cmd_name ∈ builtins env) || bool_decide (cmd_name ∈ utils env) ||
  has_external_handler env || has_external_spec_handler env || bool_decide (cmd_name ∈ external_specs env).

(** The first parser that answers; a panic is an answer. *)
Definition or_else {A} (m n : res no_stage A) : res no_stage A := match m with Err NotStreaming => n | _ => m end.

Definition parse_streaming_stage `{Target} (env : StageEnv) (argv : list str) (is_first : bool) : res no_stage StreamingPipelineStage :=
  match argv with
  | [] => reject
  | cmd_name :: args =>
      or_else (parse_streaming_first_stage cmd_name args is_first)
        (or_else (parse_streaming_internal_stage cmd_name args is_first)
          (if allow_external_streaming env && has_external_stream_handler env && bool_decide (cmd_name ∈ external_specs env)
           then mret (External argv)
           else if is_buffered_stage_candidate env cmd_name then mret (BufferedCommand (BufferedArgv argv))
           else reject))
  end.
