(* ===== verification/StreamArgsProps.v ===== *)
(** * From arguments to stages: the round trip

    [stage_argv] writes a stage as a command; the parsers read it back.  A stage
    whose options are data that the command line does not spell ([tr] and [sed], which
    hold expanded sets and parsed scripts, and the text of [echo]) has none. *)

From S2P Require Import Prelude Strings Hir Lexer Utf8 Stream StreamLines StreamBytes StreamGrep StreamSed StreamSedProps StreamArgs.

(** ** Loops over arguments *)

Section parses.
Context {S : Type} (apply : list Ascii.ascii -> list (list Ascii.ascii) -> S -> res no_stage (nat * S)).

Definition parses (args : list str) (s s' : S) : Prop := forall fuel, (length args <= fuel)%nat -> args_loop apply fuel args s = Ok s'.

Lemma parses_nil s : parses [] s s.
Proof. by intros [|fuel] _. Qed.

(** An argument with the values it takes. *)
Lemma parses_values arg vals rest s s1 s' : apply arg (vals ++ rest) s = Ok (Datatypes.S (length vals), s1) -> parses rest s1 s' -> parses (arg :: vals ++ rest) s s'.
Proof.
  intros Ha Hr [|fuel] Hl; [cbn in Hl; lia|]. cbn [args_loop]. rewrite Ha. cbn [mbind res_bind drop]. rewrite drop_app_length. apply Hr.
  cbn [length] in Hl. rewrite length_app in Hl. lia.
Qed.

Lemma parses_arg arg rest s s1 s' : apply arg rest s = Ok (1%nat, s1) -> parses rest s1 s' -> parses (arg :: rest) s s'.
Proof. apply (parses_values arg []). Qed.

Lemma parses_value arg val rest s s1 s' : apply arg (val :: rest) s = Ok (2%nat, s1) -> parses rest s1 s' -> parses (arg :: val :: rest) s s'.
Proof. apply (parses_values arg [val]). Qed.

(** An optional argument. *)
Definition flag (b : bool) (arg : str) : list str := if b then [arg] else [].

Lemma parses_flag b arg rest s s1 s' : (b = true -> apply arg rest s = Ok (1%nat, s1)) -> (b = false -> s1 = s) -> parses rest s1 s' -> parses (flag b arg ++ rest) s s'.
Proof. intros Ht Hf Hr. destruct b; cbn [flag app]; [by apply (parses_arg _ _ _ s1); [apply Ht|]|by rewrite <-Hf]. Qed.

(** The same, given what the argument does. *)
Lemma parses_upd (g : bool -> S -> S) b arg rest s s' : apply arg rest s = Ok (1%nat, g true s) -> g false s = s -> parses rest (g b s) s' -> parses (flag b arg ++ rest) s s'.
Proof. intros Ht Hf. apply parses_flag; by intros ->. Qed.

Lemma parses_args args s s' : parses args s s' -> parse_args apply args s = Ok s'.
Proof. intros Hp. by apply Hp. Qed.
End parses.

Section argv.
Context `{Target}.

(** ** Printing *)

Definition number_args (name : str) (n : option Z) : list str := match n with Some n => [name; Z_to_string n] | None => [] end.
Definition bound_text (n : option Z) : str := match n with Some n => Z_to_string n | None => [] end.

Definition range_text (sep : byte) (r : option Z * option Z) : str := bound_text (fst r) ++ sep :: bound_text (snd r).

Definition cut_mode_args (m : StreamingCutMode) : list str :=
  let spec rs := join [","%char] (map (fun r => range_text "-"%char (range_start r, range_end r)) rs) in
  match m with Fields rs => [ #"-f"; spec rs] | Chars rs => [ #"-c"; spec rs] | Bytes rs => [ #"-b"; spec rs] end.

Definition grep_args (gs : StreamingGrepStage) : list str :=
  let fl := grep_flags gs in
  flag (grep_ignore_case fl) #"-i" ++ flag (invert fl) #"-v" ++ flag (count_only fl) #"-c" ++ flag (show_line_numbers fl) #"-n" ++
  flag (files_only fl) #"-l" ++ flag (word_match fl) #"-w" ++ flag (only_matching fl) #"-o" ++ flag (quiet fl) #"-q" ++ flag (extended fl) #"-E" ++
  flag (fixed fl) #"-F" ++ flag (bool_decide (show_filename fl = Some false)) #"-h" ++ flag (bool_decide (show_filename fl = Some true)) #"-H" ++
  [ #"-A"; Z_to_string (after_context fl); #"-B"; Z_to_string (before_context fl)] ++ number_args #"-m" (max_count fl) ++
  concat (map (fun p => [ #"-e"; p]) (patterns gs)).

Definition stage_argv (stage : StreamingPipelineStage) : option (list str) :=
  match stage with
  | Cat => Some [ #"cat"]
  | File path => Some [ #"cat"; path]
  | Head (HeadLines n) => Some [ #"head"; #"-n"; Z_to_string n]
  | Head (HeadBytes n) => Some [ #"head"; #"-c"; Z_to_string n]
  | Tail (TailLines n) => Some [ #"tail"; #"-n"; Z_to_string n]
  | Tail (TailBytes n) => Some [ #"tail"; #"-c"; Z_to_string n]
  | Bat st => Some ( #"bat" ::
      (match show_numbers st, show_header st with
       | true, true => #"--style=full" | true, false => #"--style=numbers" | false, true => #"--style=header" | false, false => #"--style=plain" end) ::
      match line_range st with Some r => [ #"-r"; range_text ":"%char r] | None => [] end ++ flag (show_all st) #"-A")
  | Tee st => Some ( #"tee" :: flag (tee_append st) #"-a" ++ #"--" :: tee_paths st)
  | Paste st => Some ( #"paste" :: #"-d" :: delimiter st :: flag (serial st) #"-s")
  | Column => Some [ #"column"]
  | Grep gs => Some ( #"grep" :: grep_args gs)
  | Uniq fl => Some ( #"uniq" :: flag (count_lines fl) #"-c" ++ flag (duplicates_only fl) #"-d" ++ flag (unique_only fl) #"-u" ++ flag (ignore_case fl) #"-i" ++
      [ #"-f"; Z_to_string (skip_fields fl); #"-s"; Z_to_string (skip_chars fl)] ++ number_args #"-w" (compare_chars fl))
  | Rev => Some [ #"rev"]
  | Cut st => Some ( #"cut" :: cut_mode_args (mode st) ++ #"-d" :: encode (delim st) :: flag (complement st) #"--complement" ++
      flag (only_delimited st) #"-s" ++ [ #"--output-delimiter=" ++ output_delim st])
  | Wc fl => Some ( #"wc" :: flag (wc_lines fl) #"-l" ++ flag (wc_words fl) #"-w" ++ flag (wc_bytes fl) #"-c" ++ flag (wc_max_line_length fl) #"-L")
  | Literal _ | Yes _ | External _ | BufferedCommand _ | Sed _ | Tr _ => None
  end.

(** Numbers the parsers can hold. *)
Definition is_usize (n : Z) : Prop := 0 <= n <= usize_max.
Definition bound_ok (n : option Z) : Prop := match n with Some n => is_usize n | None => True end.
Definition range_ok (r : option Z * option Z) : Prop := bound_ok (fst r) /\ bound_ok (snd r).
Definition mode_ranges (m : StreamingCutMode) : list StreamingCutRange := match m with Fields rs | Chars rs | Bytes rs => rs end.

Definition printable (stage : StreamingPipelineStage) : Prop :=
  match stage with
  | File path => starts_with #"-" path = false
  | Head (HeadLines n) | Head (HeadBytes n) | Tail (TailLines n) | Tail (TailBytes n) => is_usize n
  | Bat st => match line_range st with Some r => range_ok r | None => True end
  | Grep gs => is_usize (after_context (grep_flags gs)) /\ is_usize (before_context (grep_flags gs)) /\ bound_ok (max_count (grep_flags gs)) /\ patterns gs <> []
  | Uniq fl => is_usize (skip_fields fl) /\ is_usize (skip_chars fl) /\ bound_ok (compare_chars fl)
  | Cut st => Forall (fun r => range_ok (range_start r, range_end r)) (mode_ranges (mode st)) /\ is_scalar (delim st) = true
  | Wc fl => wc_lines fl || wc_words fl || wc_bytes fl || wc_max_line_length fl = true
  | _ => True
  end.

Definition first_only (stage : StreamingPipelineStage) : bool := match stage with File _ => true | _ => false end.

(** ** Numbers and ranges *)

Lemma bound_back n : bound_ok n -> match bound_text n with [] => None | _ => parse_usize (bound_text n) end = n.
Proof.
  destruct n as [n|]; [|done]. intros Hn. cbn [bound_text]. pose proof (parse_usize_to_string n Hn) as Hp. by destruct (Z_to_string n).
Qed.

Lemma number_no_sep sep n : is_ascii_digit sep = false -> 0 <= n -> sep ∉ Z_to_string n.
Proof.
  intros Hs Hn Hin. destruct (number_text n Hn) as (c & t & Ht & Hc & Hd & _). rewrite Ht in Hin. apply elem_of_cons in Hin as [->|Hin]; [congruence|].
  rewrite forallb_forall in Hd. apply list_elem_of_In, Hd in Hin. congruence.
Qed.

Lemma number_not_signed n : 0 <= n -> starts_with #"+" (Z_to_string n) = false.
Proof.
  intros Hn. destruct (number_text n Hn) as (d & t & -> & Hd & _). apply not_true_is_false. rewrite starts_with_true. by intros [r [= -> _]].
Qed.

Lemma bound_no_sep sep n : is_ascii_digit sep = false -> bound_ok n -> sep ∉ bound_text n.
Proof. intros Hs Hn. destruct n as [n|]; [apply number_no_sep; [done|apply Hn]|by intros ?%elem_of_nil]. Qed.

Lemma split_once_app sep a b : sep ∉ a -> split_once sep (a ++ sep :: b) = Some (a, b).
Proof.
  induction a as [|c a IH]; cbn [app split_once]; intros Hs; [by rewrite decide_True|]. apply not_elem_of_cons in Hs as [Hc Hs].
  by rewrite decide_False, IH.
Qed.

Lemma bat_range_back r : range_ok r -> parse_streaming_bat_range (range_text ":"%char r) = Some r.
Proof.
  intros [Ha Hb]. unfold parse_streaming_bat_range, range_text. rewrite split_once_app by by apply bound_no_sep.
  rewrite !bound_back by done. by destruct r.
Qed.

Lemma cut_range_back r : range_ok (range_start r, range_end r) -> parse_cut_range (range_text "-"%char (range_start r, range_end r)) = Some r.
Proof.
  intros [Ha Hb]. unfold parse_cut_range, range_text. rewrite split_once_app by by apply bound_no_sep.
  cbn [fst snd] in *. rewrite !bound_back by done. by destruct r.
Qed.

Lemma range_no_comma r : range_ok r -> ","%char ∉ range_text "-"%char r.
Proof.
  intros [Ha Hb]. unfold range_text. intros [Hin|[?|Hin]%elem_of_cons]%elem_of_app; [|done|]; revert Hin; by apply bound_no_sep.
Qed.

Lemma cut_ranges_back rs : Forall (fun r => range_ok (range_start r, range_end r)) rs ->
  parse_streaming_cut_ranges (join [","%char] (map (fun r => range_text "-"%char (range_start r, range_end r)) rs)) = rs.
Proof.
  intros Hrs. unfold parse_streaming_cut_ranges. destruct rs as [|r0 rs0] eqn:E; [done|]. rewrite <-E in *. rewrite split_on_join.
  - clear E. induction Hrs as [|r rs Hr Hrs IH]; [done|]. cbn [map omap list_omap]. rewrite cut_range_back by done. f_equal. exact IH.
  - by rewrite E.
  - apply Forall_map. eapply Forall_impl; [exact Hrs|]. intros r Hr. by apply range_no_comma.
Qed.

(** ** The stages *)

(** The parsers of a command, applied to the arguments of its stage. *)
Definition back (name : str) (parse : list str -> res no_stage StreamingPipelineStage) (stage : StreamingPipelineStage) : Prop :=
  exists args, stage_argv stage = Some (name :: args) /\ parse args = Ok stage.

Lemma head_back mode : printable (Head mode) -> back #"head" parse_streaming_head_stage (Head mode).
Proof.
  destruct mode as [n|n]; intros Hn; eexists; (split; [reflexivity|]); unfold parse_streaming_head_stage;
    erewrite parses_args by (eapply parses_value; [cbn; rewrite parse_usize_to_string by exact Hn; reflexivity|apply parses_nil]); done.
Qed.

Lemma tail_back mode : printable (Tail mode) -> back #"tail" parse_streaming_tail_stage (Tail mode).
Proof.
  destruct mode as [n|n]; intros Hn; eexists; (split; [reflexivity|]); unfold parse_streaming_tail_stage;
    erewrite parses_args by (eapply parses_value; [|apply parses_nil]; cbn; unfold parse_streaming_tail_lines_value;
      rewrite ?number_not_signed by apply Hn; rewrite parse_usize_to_string by exact Hn; reflexivity); done.
Qed.

Lemma bat_range_arg next rest st : apply_streaming_bat_arg #"-r" (next :: rest) st =
  Ok (2%nat, set_bat (show_numbers st) (show_header st) (parse_streaming_bat_range next) (show_all st)).
Proof. done. Qed.

Lemma bat_back st : printable (Bat st) -> back #"bat" parse_streaming_bat_stage (Bat st).
Proof.
  intros Hr. eexists. split; [reflexivity|]. unfold parse_streaming_bat_stage. destruct st as [nums header range all]. cbn [show_numbers show_header line_range show_all printable] in *.
  erewrite parses_args; [reflexivity|]. eapply (parses_arg _ _ _ _ (set_bat nums header None false)); [by destruct nums, header|].
  assert (Hall : parses apply_streaming_bat_arg (flag all #"-A") (set_bat nums header range false) (set_bat nums header range all)).
  { rewrite <-(app_nil_r (flag _ _)). eapply parses_flag; [|by intros ->|apply parses_nil]. by intros ->. }
  destruct range as [r|]; [|exact Hall]. eapply parses_value; [|exact Hall]. by rewrite bat_range_arg, bat_range_back.
Qed.

Lemma tee_back st : back #"tee" parse_streaming_tee_stage (Tee st).
Proof.
  eexists. split; [reflexivity|]. unfold parse_streaming_tee_stage. destruct st as [append paths]. cbn [tee_append tee_paths]. rewrite (parses_args _ _ _ (append, paths)); [done|].
  eapply (parses_flag _ _ _ _ _ (append, [])); [by intros ->|by intros ->|]. rewrite <-(app_nil_r paths) at 1. eapply parses_values; [|apply parses_nil].
  cbn. by rewrite app_nil_r.
Qed.

Lemma paste_back st : back #"paste" parse_streaming_paste_stage (Paste st).
Proof.
  eexists. split; [reflexivity|]. unfold parse_streaming_paste_stage. destruct st as [d serial]. cbn [delimiter StreamBytes.serial]. rewrite (parses_args _ _ _ (d, serial)); [done|].
  eapply (parses_value _ _ _ _ _ (d, false)); [done|]. rewrite <-(app_nil_r (flag _ _)). eapply (parses_flag _ _ _ _ _ (d, serial)); [by intros ->|by intros ->|apply parses_nil].
Qed.

Definition uniq_or (c d u i : bool) (fl : StreamingUniqFlags) : StreamingUniqFlags :=
  {| count_lines := count_lines fl || c; duplicates_only := duplicates_only fl || d; unique_only := unique_only fl || u;
     ignore_case := ignore_case fl || i; skip_fields := skip_fields fl; skip_chars := skip_chars fl; compare_chars := compare_chars fl |}.

Lemma uniq_or_none fl : uniq_or false false false false fl = fl.
Proof. destruct fl. unfold uniq_or. cbn. by rewrite !orb_false_r. Qed.

Lemma uniq_fields_arg n rest fl : is_usize n -> apply_streaming_uniq_arg #"-f" (Z_to_string n :: rest) fl = Ok (2%nat, set_keys n (skip_chars fl) (compare_chars fl) fl).
Proof.
  intros Hn. transitivity (k ← want (parse_usize (Z_to_string n)); mret (2%nat, set_keys k (skip_chars fl) (compare_chars fl) fl) : res no_stage _); [done|].
  by rewrite parse_usize_to_string.
Qed.
Lemma uniq_chars_arg n rest fl : is_usize n -> apply_streaming_uniq_arg #"-s" (Z_to_string n :: rest) fl = Ok (2%nat, set_keys (skip_fields fl) n (compare_chars fl) fl).
Proof.
  intros Hn. transitivity (k ← want (parse_usize (Z_to_string n)); mret (2%nat, set_keys (skip_fields fl) k (compare_chars fl) fl) : res no_stage _); [done|].
  by rewrite parse_usize_to_string.
Qed.
Lemma uniq_width_arg n rest fl : is_usize n -> apply_streaming_uniq_arg #"-w" (Z_to_string n :: rest) fl = Ok (2%nat, set_keys (skip_fields fl) (skip_chars fl) (Some n) fl).
Proof. intros Hn. by rewrite <-(parse_usize_to_string n Hn). Qed.

Lemma uniq_back fl : printable (Uniq fl) -> back #"uniq" parse_streaming_uniq_stage (Uniq fl).
Proof.
  intros (Hf & Hs & Hc). eexists. split; [reflexivity|]. unfold parse_streaming_uniq_stage. destruct fl as [c d u i f s w]. cbn [count_lines duplicates_only unique_only ignore_case skip_fields skip_chars compare_chars] in *.
  erewrite parses_args; [reflexivity|].
  eapply (parses_upd _ (fun b => uniq_or b false false false)); [done|apply uniq_or_none|].
  eapply (parses_upd _ (fun b => uniq_or false b false false)); [done|apply uniq_or_none|].
  eapply (parses_upd _ (fun b => uniq_or false false b false)); [done|apply uniq_or_none|].
  eapply (parses_upd _ (fun b => uniq_or false false false b)); [done|apply uniq_or_none|].
  eapply parses_value; [by apply uniq_fields_arg|]. eapply parses_value; [by apply uniq_chars_arg|]. destruct w as [w|]; cbn [number_args].
  - eapply parses_value; [by apply uniq_width_arg|]. unfold set_keys, uniq_or. cbn. rewrite !orb_false_r. apply parses_nil.
  - unfold set_keys, uniq_or. cbn. rewrite !orb_false_r. apply parses_nil.
Qed.

Definition wc_or (l w b m : bool) (s : StreamingWcFlags * bool) : StreamingWcFlags * bool :=
  ({| wc_lines := wc_lines (fst s) || l; wc_words := wc_words (fst s) || w; wc_bytes := wc_bytes (fst s) || b; wc_max_line_length := wc_max_line_length (fst s) || m |}, snd s).

Lemma wc_or_none s : wc_or false false false false s = s.
Proof. destruct s as [[] ?]. unfold wc_or. cbn. by rewrite !orb_false_r. Qed.

Lemma wc_back fl : printable (Wc fl) -> back #"wc" parse_streaming_wc_stage (Wc fl).
Proof.
  intros Hok. eexists. split; [reflexivity|]. unfold parse_streaming_wc_stage. destruct fl as [l w b m]. cbn [wc_lines wc_words wc_bytes wc_max_line_length printable] in *. rewrite <-(app_nil_r (flag m _)).
  erewrite parses_args; [|
  eapply (parses_upd _ (fun b => wc_or b false false false)); [done|apply wc_or_none|];
  eapply (parses_upd _ (fun b => wc_or false b false false)); [done|apply wc_or_none|];
  eapply (parses_upd _ (fun b => wc_or false false b false)); [done|apply wc_or_none|];
  eapply (parses_upd _ (fun b => wc_or false false false b)); [done|apply wc_or_none|]; apply parses_nil].
  cbn. rewrite !orb_false_r. by destruct l, w, b, m.
Qed.

Definition cut_state (m : StreamingCutMode) (d : Z) (s : StreamingCutParseState) : StreamingCutParseState :=
  {| cs_delim := d; cs_mode := Some m; cs_complement := cs_complement s; cs_only_delimited := cs_only_delimited s; cs_output_delim := cs_output_delim s |}.

Lemma cut_mode_arg flag wrap spec rest s : In (flag, wrap) [( #"-f", Fields); ( #"-c", Chars); ( #"-b", Bytes)] ->
  apply_streaming_cut_arg flag (spec :: rest) s = Ok (2%nat, cut_state (wrap (parse_streaming_cut_ranges spec)) (cs_delim s) s).
Proof. cbn. by intros [[= <- <-]|[[= <- <-]|[[= <- <-]|[]]]]. Qed.

Lemma cut_delim_arg m next rest s : cs_mode s = Some m -> apply_streaming_cut_arg #"-d" (next :: rest) s = Ok (2%nat, cut_state m (delim_char next) s).
Proof. unfold cut_state. by intros <-. Qed.

Lemma cut_back st : printable (Cut st) -> back #"cut" parse_streaming_cut_stage (Cut st).
Proof.
  intros (Hr & Hd). eexists. split; [reflexivity|]. unfold parse_streaming_cut_stage. destruct st as [m d c o out]. cbn [mode delim complement only_delimited output_delim] in *.
  assert (Hdelim : delim_char (encode d) = d) by (unfold delim_char; rewrite <-(app_nil_r (encode d)); apply (next_first d [] 9); cbn; by rewrite Hd).
  set (st m d c o out := {| cs_delim := d; cs_mode := m; cs_complement := c; cs_only_delimited := o; cs_output_delim := out |}).
  erewrite (parses_args _ _ _ (st (Some m) d c o (Some out))); [done|].
  assert (Hrest : parses apply_streaming_cut_arg ( #"-d" :: encode d :: flag c #"--complement" ++ flag o #"-s" ++ [ #"--output-delimiter=" ++ out])
    (st (Some m) 9 false false None) (st (Some m) d c o (Some out))).
  { eapply (parses_value _ _ _ _ _ (st (Some m) d false false None)); [rewrite (cut_delim_arg m) by done; by rewrite Hdelim|].
    eapply (parses_flag _ _ _ _ _ (st (Some m) d c false None)); [by intros ->|by intros ->|].
    eapply (parses_flag _ _ _ _ _ (st (Some m) d c o None)); [by intros ->|by intros ->|]. by eapply parses_arg; [|apply parses_nil]. }
  destruct m as [rs|rs|rs]; cbn [cut_mode_args app mode_ranges] in *; (eapply parses_value; [|exact Hrest]); (erewrite cut_mode_arg by (cbn; eauto)); by rewrite cut_ranges_back.
Qed.

(** *** grep *)

Definition grep_or (i v c n l w o q e f : bool) (name : option bool) (s : GrepArgs) : GrepArgs :=
  let fl := ga_flags s in
  {| ga_flags := {| grep_ignore_case := grep_ignore_case fl || i; invert := invert fl || v; count_only := count_only fl || c; show_line_numbers := show_line_numbers fl || n; files_only := files_only fl || l; word_match := word_match fl || w; only_matching := only_matching fl || o; quiet := quiet fl || q; extended := extended fl || e; fixed := fixed fl || f;
       after_context := after_context fl; before_context := before_context fl; max_count := max_count fl;
       show_filename := match name with Some b => Some b | None => show_filename fl end |};
     ga_patterns := ga_patterns s; ga_rest := ga_rest s |}.

Lemma grep_or_none s : grep_or false false false false false false false false false false None s = s.
Proof. destruct s as [[] pats more]. unfold grep_or. cbn. by rewrite !orb_false_r. Qed.

(** An argument that is one short flag. *)
Lemma grep_flag_arg arg ch rest s : In (arg, ch) [( #"-i", "i"); ( #"-v", "v"); ( #"-c", "c"); ( #"-n", "n"); ( #"-l", "l"); ( #"-w", "w"); ( #"-o", "o"); ( #"-q", "q");
    ( #"-E", "E"); ( #"-F", "F"); ( #"-h", "h"); ( #"-H", "H")]%char ->
  apply_grep_arg arg rest s = (fl ← apply_streaming_grep_short_flags (byte_val ch) (ga_flags s);
    mret (1%nat, {| ga_flags := fl; ga_patterns := ga_patterns s; ga_rest := ga_rest s |})).
Proof. cbn [In]. intros Hin. repeat destruct Hin as [[= <- <-]|Hin]; [by destruct rest..|done]. Qed.

Definition with_context (after before : Z) (max : option Z) (s : GrepArgs) : GrepArgs :=
  {| ga_flags := set_context after before max (ga_flags s); ga_patterns := ga_patterns s; ga_rest := ga_rest s |}.

Lemma grep_number_arg arg n rest s f : is_usize n -> In (arg, f) [( #"-A", fun n => with_context n (before_context (ga_flags s)) (max_count (ga_flags s)) s);
    ( #"-B", fun n => with_context (after_context (ga_flags s)) n (max_count (ga_flags s)) s);
    ( #"-m", fun n => with_context (after_context (ga_flags s)) (before_context (ga_flags s)) (Some n) s)] ->
  apply_grep_arg arg (Z_to_string n :: rest) s = Ok (2%nat, f n).
Proof.
  intros Hn Hin. pose proof (parse_usize_to_string n Hn) as Hp. unfold apply_grep_arg, parse_streaming_grep_value_flag.
  cbn [In] in Hin. destruct Hin as [[= <- <-]|[[= <- <-]|[[= <- <-]|[]]]]; rewrite Hp; done.
Qed.

Lemma grep_patterns_back ps s : parses apply_grep_arg (concat (map (fun p => [ #"-e"; p]) ps)) s
  {| ga_flags := ga_flags s; ga_patterns := ga_patterns s ++ ps; ga_rest := ga_rest s |}.
Proof.
  induction ps as [|p ps IH] in s |- *; cbn [map concat]; [rewrite app_nil_r; destruct s; apply parses_nil|].
  eapply parses_value; [done|]. specialize (IH {| ga_flags := ga_flags s; ga_patterns := ga_patterns s ++ [p]; ga_rest := ga_rest s |}). cbn in IH.
  by rewrite <-app_assoc in IH.
Qed.

Ltac grep_flag g := eapply (parses_upd _ g); [erewrite grep_flag_arg by (cbn [In]; tauto); reflexivity|apply grep_or_none|].

Lemma grep_back gs : printable (Grep gs) -> back #"grep" parse_streaming_grep_stage (Grep gs).
Proof.
  intros (Ha & Hb & Hm & Hne). eexists. split; [reflexivity|]. unfold parse_streaming_grep_stage, grep_args. destruct gs as [fl pats]. cbn [grep_flags patterns] in *.
  rewrite (parses_args _ _ _ {| ga_flags := fl; ga_patterns := pats; ga_rest := [] |}); [by destruct pats|].
  grep_flag (fun b : bool => grep_or b false false false false false false false false false None).
  grep_flag (fun b : bool => grep_or false b false false false false false false false false None).
  grep_flag (fun b : bool => grep_or false false b false false false false false false false None).
  grep_flag (fun b : bool => grep_or false false false b false false false false false false None).
  grep_flag (fun b : bool => grep_or false false false false b false false false false false None).
  grep_flag (fun b : bool => grep_or false false false false false b false false false false None).
  grep_flag (fun b : bool => grep_or false false false false false false b false false false None).
  grep_flag (fun b : bool => grep_or false false false false false false false b false false None).
  grep_flag (fun b : bool => grep_or false false false false false false false false b false None).
  grep_flag (fun b : bool => grep_or false false false false false false false false false b None).
  grep_flag (fun b : bool => grep_or false false false false false false false false false false (if b then Some false else None)).
  grep_flag (fun b : bool => grep_or false false false false false false false false false false (if b then Some true else None)).
  eapply parses_value; [apply grep_number_arg; [exact Ha|cbn [In]; eauto]|]. eapply parses_value; [apply grep_number_arg; [exact Hb|cbn [In]; eauto]|].
  assert (Hend : forall s, {| ga_flags := ga_flags s; ga_patterns := ga_patterns s ++ pats; ga_rest := ga_rest s |} = {| ga_flags := fl; ga_patterns := pats; ga_rest := [] |} ->
    parses apply_grep_arg (concat (map (fun p => [ #"-e"; p]) pats)) s {| ga_flags := fl; ga_patterns := pats; ga_rest := [] |}) by (intros s <-; apply grep_patterns_back).
  destruct fl as [i v c n l w o q e f aft bef m name]. cbn [max_count show_filename after_context before_context] in *.
  destruct m as [m|]; cbn [number_args app]; [eapply parses_value; [apply grep_number_arg; [exact Hm|cbn [In]; eauto 10]|]|]; apply Hend;
    cbn; rewrite !orb_false_r; by destruct name as [[|]|].
Qed.

Lemma stage_chosen env name args is_first stage : parse_streaming_first_stage name args is_first = reject ->
  parse_streaming_internal_stage name args is_first = Ok stage -> parse_streaming_stage env (name :: args) is_first = Ok stage.
Proof. unfold parse_streaming_stage. by intros -> ->. Qed.

Lemma later_chosen env name parse stage argv : (forall args, parse_streaming_internal_stage name args false = parse args) -> stage_argv stage = Some argv ->
  back name parse stage -> parse_streaming_stage env argv false = Ok stage.
Proof.
  intros Hn Ha (args & Hargs & Hparse). rewrite Ha in Hargs. injection Hargs as ->. apply stage_chosen; [done|]. by rewrite Hn.
Qed.

(** C9: A streaming stage written as a command is read back as that stage by the
    parsers that choose the stages of a pipeline: no option is lost, swapped or
    misread, for any combination of options and any numbers a [usize] holds. *)
Theorem stage_argv_round_trip env stage argv : printable stage -> stage_argv stage = Some argv -> parse_streaming_stage env argv (first_only stage) = Ok stage.
Proof.
  intros Hp Ha. destruct stage as [bs|path|line|ext|cmd| |md|md|bs|ss|ts|ps| |gs|fl| |cs|ts|fl]; try done.
  - injection Ha as <-. apply stage_chosen; [done|]. assert (Hd : arg_is path #"--" = false) by (apply bool_decide_eq_false; by intros ->).
    change (parse_streaming_cat_stage [path] true = Ok (File path)). unfold parse_streaming_cat_stage. cbn [List.filter]. rewrite Hd. cbn [negb existsb]. by rewrite Hp.
  - by injection Ha as <-.
  - eapply later_chosen; [|exact Ha|by apply head_back]. done.
  - eapply later_chosen; [|exact Ha|by apply tail_back]. done.
  - eapply later_chosen; [|exact Ha|by apply bat_back]. done.
  - eapply later_chosen; [|exact Ha|by apply tee_back]. done.
  - eapply later_chosen; [|exact Ha|by apply paste_back]. done.
  - by injection Ha as <-.
  - eapply later_chosen; [|exact Ha|by apply grep_back]. done.
  - eapply later_chosen; [|exact Ha|by apply uniq_back]. done.
  - by injection Ha as <-.
  - eapply later_chosen; [|exact Ha|by apply cut_back]. done.
  - eapply later_chosen; [|exact Ha|by apply wc_back]. done.
Qed.
End argv.

(** [grep -i -n -A 2 -B 0 -e apple]. *)
Definition grep_command : list (list Ascii.ascii) := [ #"grep"; #"-i"; #"-n"; #"-A"; #"2"; #"-B"; #"0"; #"-e"; #"apple" ].

Definition no_env : StageEnv :=
  {| allow_external_streaming := false; has_external_stream_handler := false; has_external_handler := false; has_external_spec_handler := false;
     external_specs := ∅; functions := ∅; builtins := ∅; utils := ∅ |}.

Lemma stage_argv_round_trip_witness : exists gs, stage_argv (Grep gs) = Some grep_command /\
  parse_streaming_stage (H := wasm32) no_env grep_command false = Ok (Grep gs).
Proof.
  set (gs := {| grep_flags := {| grep_ignore_case := true; invert := false; count_only := false; show_line_numbers := true; files_only := false; word_match := false;
      only_matching := false; quiet := false; extended := false; fixed := false; after_context := 2; before_context := 0; max_count := None; show_filename := None |};
    patterns := [ #"apple" ] |}).
  exists gs. split; [reflexivity|]. apply (stage_argv_round_trip (H := wasm32) no_env (Grep gs) grep_command); [|reflexivity].
  split_and!; [split; apply Z.leb_le; reflexivity..|done|done].
Defined.
