(* ===== verification/StreamStage.v ===== *)
(** * The readers of a pipeline (crates/wasmsh-runtime/src/lib.rs)

    A process of a streaming pipeline reads from a [Box<dyn Read>]: the reader of
    its stage over a [PipeReader], or one of the sources.  The boxed readers that
    occur are the constructors of [StageReader] and [SourceReader]; the pipe
    behind an [Rc<RefCell<_>>] is loaded into the reader before a call and stored
    back after it ([plug], [unplug]). *)

From S2P Require Import Prelude Strings Pipe Utf8 Stream StreamLines StreamBytes StreamGrep StreamSed StreamArgs.

(** ** PipeReader *)

Record PipeReader := { reader_pipe : PipeBuffer }.

Definition PipeReader_new (pipe : PipeBuffer) : PipeReader := {| reader_pipe := pipe |}.

(** The contents of a fresh buffer of [n] bytes do not matter: the bytes returned
    are those the pipe wrote into it. *)
#[export] Instance PipeReader_reader : Reader PipeReader := fun _ n s =>
  match Pipe.read (repeat "000"%char n) (reader_pipe s) with
  | Some (p, buf, Read k) => (PipeReader_new p, Ok (take (Z.to_nat k) buf))
  | Some (p, _, ReadWouldBlock) => (PipeReader_new p, Err (IoError WouldBlock))
  | Some (p, _, Pipe.Eof) => (PipeReader_new p, Ok [])
  | None => (s, Panic "pipe read length exceeded available data")
  end.

(** ** The reader of a stage *)

Inductive StageReader (R : Type) :=
  | CatReader (r : R)
  | HeadReader (s : HeadStreamReader R)
  | TailReader (s : TailStreamReader R)
  | BatReader (s : BatStreamReader R)
  | SedReader (s : SedStreamReader R)
  | PasteReader (s : PasteStreamReader R)
  | ColumnReader (s : ColumnStreamReader R)
  | GrepReader (s : GrepStreamReader R)
  | UniqReader (s : UniqStreamReader R)
  | RevReader (s : RevStreamReader R)
  | CutReader (s : CutStreamReader R)
  | TrReader (s : TrStreamReader R)
  | WcReader (s : WcStreamReader R).
Arguments CatReader {R} _.
Arguments HeadReader {R} _.
Arguments TailReader {R} _.
Arguments BatReader {R} _.
Arguments SedReader {R} _.
Arguments PasteReader {R} _.
Arguments ColumnReader {R} _.
Arguments GrepReader {R} _.
Arguments UniqReader {R} _.
Arguments RevReader {R} _.
Arguments CutReader {R} _.
Arguments TrReader {R} _.
Arguments WcReader {R} _.

Section stage.
Context `{Target} `{Unicode} `{PosixRegex} {R : Type} `{Reader R}.

Definition boxed {T} `{Reader T} (box : T -> StageReader R) (fuel n : nat) (t : T) : StageReader R * res io_stop str :=
  let '(t', x) := read fuel n t in (box t', x).

#[export] Instance Stage_reader : Reader (StageReader R) := fun fuel n s =>
  match s with
  | CatReader t => boxed CatReader fuel n t
  | HeadReader t => boxed HeadReader fuel n t
  | TailReader t => boxed TailReader fuel n t
  | BatReader t => boxed BatReader fuel n t
  | SedReader t => boxed SedReader fuel n t
  | PasteReader t => boxed PasteReader fuel n t
  | ColumnReader t => boxed ColumnReader fuel n t
  | GrepReader t => boxed GrepReader fuel n t
  | UniqReader t => boxed UniqReader fuel n t
  | RevReader t => boxed RevReader fuel n t
  | CutReader t => boxed CutReader fuel n t
  | TrReader t => boxed TrReader fuel n t
  | WcReader t => boxed WcReader fuel n t
  end.

(** The field that leads to the inner reader. *)
Definition stage_inner (s : StageReader R) : R :=
  match s with
  | CatReader r => r
  | HeadReader t => head_inner t
  | WcReader t => wc_inner t
  | TailReader t => inner t
  | BatReader t => inner t
  | SedReader t => inner t
  | PasteReader t => inner t
  | ColumnReader t => inner t
  | GrepReader t => inner t
  | UniqReader t => inner t
  | RevReader t => inner t
  | CutReader t => inner t
  | TrReader t => inner t
  end.

Definition set_stage_inner (r : R) (s : StageReader R) : StageReader R :=
  match s with
  | CatReader _ => CatReader r
  | HeadReader t => HeadReader (set_head t r (head_mode t) (head_finished t) (lines_seen t))
  | WcReader t => WcReader (set_wc_inner r t)
  | TailReader t => TailReader (set_inner r t)
  | BatReader t => BatReader (set_inner r t)
  | SedReader t => SedReader (set_inner r t)
  | PasteReader t => PasteReader (set_inner r t)
  | ColumnReader t => ColumnReader (set_inner r t)
  | GrepReader t => GrepReader (set_inner r t)
  | UniqReader t => UniqReader (set_inner r t)
  | RevReader t => RevReader (set_inner r t)
  | CutReader t => CutReader (set_inner r t)
  | TrReader t => TrReader (set_inner r t)
  end.

(** The cell with the status of the stage, for the readers that hold it. *)
Definition stage_status (s : StageReader R) (st : Z) : Z :=
  match s with GrepReader t => status (own (core t)) | _ => st end.

Definition wrap_non_tee_streaming_stage (reader : R) (stage : StreamingPipelineStage) (st : Z) : option (StageReader R) :=
  match stage with
  | Cat => Some (CatReader reader)
  | Head (HeadLines limit) => Some (HeadReader (HeadStreamReader_new reader (HeadLines limit)))
  | Head (HeadBytes limit) => Some (HeadReader (HeadStreamReader_new reader (HeadBytes limit)))
  | Tail (TailLines limit) => Some (TailReader (TailStreamReader_new reader (TailLines limit)))
  | Tail (TailBytes limit) => Some (TailReader (TailStreamReader_new reader (TailBytes limit)))
  | Bat stage => Some (BatReader (BatStreamReader_new reader stage))
  | Sed stage => Some (SedReader (SedStreamReader_new reader stage))
  | Paste stage => Some (PasteReader (PasteStreamReader_new reader stage))
  | Column => Some (ColumnReader (ColumnStreamReader_new reader))
  | Grep stage => Some (GrepReader (GrepStreamReader_new reader stage st))
  | Uniq fl => Some (UniqReader (UniqStreamReader_new reader fl))
  | Rev => Some (RevReader (RevStreamReader_new reader))
  | Cut stage => Some (CutReader (CutStreamReader_new reader stage))
  | Tr stage => Some (TrReader (TrStreamReader_new reader stage))
  | Wc fl => Some (WcReader (WcStreamReader_new reader fl))
  | Tee _ | Literal _ | File _ | Yes _ | External _ | BufferedCommand _ => None
  end.
End stage.

(** ** The sources *)

(** [std::io::Cursor]. *)
Record Cursor := { cursor_data : list Ascii.ascii; cursor_pos : nat }.

#[export] Instance Cursor_reader : Reader Cursor := fun _ n s =>
  let c := take n (drop (cursor_pos s) (cursor_data s)) in
  ({| cursor_data := cursor_data s; cursor_pos := cursor_pos s + length c |}, Ok c).

(** A reader the filesystem or the host opened is of the type [Src]. *)
Inductive SourceReader (Src : Type) :=
  | LiteralSource (s : Cursor)
  | YesSource (s : YesStreamReader)
  | OtherSource (s : Src).
Arguments LiteralSource {Src} _.
Arguments YesSource {Src} _.
Arguments OtherSource {Src} _.

#[export] Instance Source_reader {Src} `{Reader Src} : Reader (SourceReader Src) := fun fuel n s =>
  match s with
  | LiteralSource t => let '(t', x) := read fuel n t in (LiteralSource t', x)
  | YesSource t => let '(t', x) := read fuel n t in (YesSource t', x)
  | OtherSource t => let '(t', x) := read fuel n t in (OtherSource t', x)
  end.

(** ** [Box<dyn Read>] *)

Inductive BoxedReader (Src : Type) :=
  | FromSource (s : SourceReader Src)
  | FromPipe (s : StageReader PipeReader).
Arguments FromSource {Src} _.
Arguments FromPipe {Src} _.

Section boxed.
Context `{Target} `{Unicode} `{PosixRegex} {Src : Type} `{Reader Src}.

#[export] Instance Boxed_reader : Reader (BoxedReader Src) := fun fuel n s =>
  match s with
  | FromSource t => let '(t', x) := read fuel n t in (FromSource t', x)
  | FromPipe t => let '(t', x) := read fuel n t in (FromPipe t', x)
  end.

(** Load the shared pipe into the reader; take it out again. *)
Definition plug (p : PipeBuffer) (s : BoxedReader Src) : BoxedReader Src :=
  match s with
  | FromSource t => FromSource t
  | FromPipe t => FromPipe (set_stage_inner (PipeReader_new p) t)
  end.
Definition unplug (s : BoxedReader Src) (p : PipeBuffer) : PipeBuffer :=
  match s with
  | FromSource _ => p
  | FromPipe t => reader_pipe (stage_inner t)
  end.
(** [Drop]: the pipe after the reader is dropped. *)
Definition drop_reader (s : BoxedReader Src) (p : PipeBuffer) : PipeBuffer :=
  match s with
  | FromSource _ => p
  | FromPipe _ => Pipe.close_read p
  end.
Definition boxed_status (s : BoxedReader Src) (st : Z) : Z :=
  match s with FromSource _ => st | FromPipe t => stage_status t st end.
End boxed.
