(* ===== verification/StreamStageProps.v ===== *)
(** * The readers of a pipeline: what they deliver

    Every stage keeps its contract over any inner reader ([stage_keeps]), with
    [stage_output] the bytes it makes of its input; a pipe whose writer still has
    [future] to write serves the buffered bytes and then those, and blocks only
    when it is empty and open ([pipe_closed]); a stage touches its inner reader
    by reading from it and in no other way ([stage_frame]). *)

From S2P Require Import Prelude Strings Pipe Utf8 Stream StreamProps StreamLines StreamLinesProps StreamBytes StreamBytesProps StreamGrep StreamGrepProps StreamSed StreamSedProps StreamArgs StreamStage.

(** ** Stages read their inner reader and do nothing else with it *)

Section frame.
Context {R : Type} `{Reader R} (I : R -> Prop) (HI : forall f n r, I r -> I (fst (read f n r))).

Lemma preserves_get {S E} (P : S -> Prop) : preserves P (get : comp S E S).
Proof. by intros s. Qed.

Lemma preserves_fun {S E A} (P : S -> Prop) (m : comp S E A) : (forall s, P s -> P (fst (m s))) -> preserves P m.
Proof. intros Hm s. apply Hm. Qed.

Section filter.
Context {Own : Type}.

Definition inner_ok (s : Filter R Own) : Prop := I (inner s).

Lemma frame_read_inner f n : preserves inner_ok (read_inner f n : comp (Filter R Own) io_stop str).
Proof. intros s Hs. unfold read_inner, zoom. specialize (HI f n _ Hs). by destruct (read f n (inner s)). Qed.

Lemma frame_line_loop f r p : I r -> I (fst (fst (streaming_read_next_line f (r, p)))).
Proof.
  revert r p. induction f as [|f IH]; intros r p Hr; [done|]. cbn [streaming_read_next_line]. destruct (break_line p) as [[l rest]|]; [done|].
  specialize (HI f SCRATCH _ Hr). destruct (read f SCRATCH r) as [r' [[|b c]|e|w]]; cbn [fst] in HI; [by destruct p|by apply IH|done|done].
Qed.

Lemma frame_next_line f : preserves inner_ok (next_line f : comp (Filter R Own) io_stop (option (str * bool))).
Proof. intros s Hs. unfold next_line, zoom. pose proof (frame_line_loop f _ (input_pending s) Hs). by destruct (streaming_read_next_line _ _). Qed.

Lemma frame_on_core h : preserves inner_ok (on_core h : comp (Filter R Own) io_stop unit).
Proof. by apply preserves_modify. Qed.

Lemma frame_take_output n : preserves inner_ok (take_output n : comp (Filter R Own) io_stop str).
Proof. intros s Hs. unfold take_output. by destruct (take_pending_output _ _ _) as [[? ?] ?]. Qed.

Lemma frame_set_core c : preserves inner_ok (modify (set_core c) : comp (Filter R Own) io_stop unit).
Proof. by apply preserves_modify. Qed.
End filter.
End frame.

Create HintDb frame.
#[export] Hint Resolve preserves_ret preserves_throw preserves_lift preserves_get frame_read_inner frame_next_line frame_on_core frame_take_output frame_set_core : frame.

(** Go through a computation call by call. *)
Ltac frame_step := match goal with
  | |- preserves _ (mbind _ _) => apply preserves_bind; [|intros ?]
  | |- preserves _ (match ?x with _ => _ end) => destruct x
  | |- preserves _ _ => solve [eauto with frame]
  end.
Ltac frame_by unfolded := intros; unfolded tt; repeat frame_step.

Section frames.
Context {R : Type} `{Reader R} (I : R -> Prop) (HI : forall f n r, I r -> I (fst (read f n r))).

Lemma frame_read_with {Own} (step : nat -> comp (Filter R Own) io_stop unit) f n : (forall f, preserves (inner_ok I) (step f)) ->
  preserves (inner_ok I) (read_with step f n).
Proof.
  intros Hstep. unfold read_with. destruct (n =? 0)%nat; [eauto with frame|]. induction f as [|f IH]; cbn [read_loop]; repeat frame_step.
Qed.

Lemma frame_pump {Own} on_line (on_eof : Core Own -> Core Own) f : preserves (inner_ok I) (pump_line on_line on_eof f : comp (Filter R Own) io_stop unit).
Proof. frame_by ltac:(fun _ => unfold pump_line). Qed.

Lemma frame_cut `{Target} f n : preserves (inner_ok I) (cut_read f n : comp (CutStreamReader R) io_stop str).
Proof. apply frame_read_with. intros. apply frame_pump. Qed.

Lemma frame_uniq `{Unicode} f n : preserves (inner_ok I) (uniq_read f n : comp (UniqStreamReader R) io_stop str).
Proof. apply frame_read_with. intros. apply frame_pump. Qed.

Lemma frame_rev f n : preserves (inner_ok I) (rev_read f n : comp (RevStreamReader R) io_stop str).
Proof. frame_by ltac:(fun _ => unfold rev_read). Qed.

Lemma frame_bat f n : preserves (inner_ok I) (bat_read f n : comp (BatStreamReader R) io_stop str).
Proof. unfold bat_read. destruct (n =? 0)%nat; [eauto with frame|]. induction f as [|f IH]; cbn [bat_loop]; repeat frame_step; try done; apply frame_pump. Qed.

Lemma frame_grep `{Unicode} `{PosixRegex} f n : preserves (inner_ok I) (grep_read f n : comp (GrepStreamReader R) io_stop str).
Proof. apply frame_read_with. frame_by ltac:(fun _ => unfold pump_one_line). Qed.

Lemma frame_sed `{PosixRegex} f n : preserves (inner_ok I) (sed_read f n : comp (SedStreamReader R) io_stop str).
Proof.
  apply frame_read_with. frame_by ltac:(fun _ => unfold sed_step, look_ahead, initialize, handle_current, fill_lookahead, get_own, on_own).
  all: by intros s.
Qed.

Lemma frame_tr f n : preserves (inner_ok I) (tr_read f n : comp (TrStreamReader R) io_stop str).
Proof.
  apply frame_read_with. intros g s Hs. unfold tr_step, mbind, comp_bind, get. pose proof (frame_read_inner I HI g SCRATCH s Hs) as Hr.
  destruct (read_inner g SCRATCH s) as [s' [[|b c]|e|w]]; try done. by destruct (streaming_tr_process_utf8_chunk _ _).
Qed.

Lemma frame_column f n : preserves (inner_ok I) (column_read f n : comp (ColumnStreamReader R) io_stop str).
Proof. apply frame_read_with. frame_by ltac:(fun _ => unfold column_step). Qed.

Lemma frame_finalize_serial f : preserves (inner_ok I) (finalize_serial f : comp (PasteStreamReader R) io_stop unit).
Proof. induction f as [|f IH]; cbn [finalize_serial]; repeat frame_step; done. Qed.

Lemma frame_paste f n : preserves (inner_ok I) (paste_read f n : comp (PasteStreamReader R) io_stop str).
Proof. apply frame_read_with. frame_by ltac:(fun _ => unfold paste_step). apply frame_finalize_serial. Qed.

Lemma frame_tail f n : preserves (inner_ok I) (tail_read f n : comp (TailStreamReader R) io_stop str).
Proof.
  assert (Hl : forall f, preserves (inner_ok I) (tail_loop f n : comp (TailStreamReader R) io_stop str)).
  { clear f. intros f. induction f as [|f IH]; cbn [tail_loop]; repeat frame_step; done. }
  unfold tail_read. repeat frame_step.
Qed.

Lemma frame_wc `{Target} f n : preserves (fun s => I (wc_inner s)) (wc_read f n : comp (WcStreamReader R) io_stop str).
Proof.
  assert (Ht : forall n, preserves (fun s => I (wc_inner s)) (take_summary n : comp (WcStreamReader R) io_stop str)).
  { clear n. intros n s Hs. unfold take_summary. by case_split. }
  assert (Hl : forall f, preserves (fun s => I (wc_inner s)) (wc_loop f n : comp (WcStreamReader R) io_stop str)).
  { clear f. intros f. induction f as [|f IH]; cbn [wc_loop]; [eauto with frame|]. apply preserves_bind; [|intros [|b c]].
    - intros s Hs. unfold zoom. specialize (HI f SCRATCH _ Hs). by destruct (read f SCRATCH (wc_inner s)).
    - apply preserves_bind; [|intros _; apply Ht]. apply preserves_modify. intros s Hs. unfold finalize_summary. by case_split.
    - apply preserves_bind; [by apply preserves_modify|done]. }
  unfold wc_read. repeat frame_step.
Qed.

Lemma frame_head f n : preserves (fun s => I (head_inner s)) (head_read f n : comp (HeadStreamReader R) io_stop str).
Proof.
  assert (Hfin : forall limit, preserves (fun s => I (head_inner s)) (finish_if_seen limit : comp (HeadStreamReader R) io_stop unit)).
  { intros limit. apply preserves_modify. intros s Hs. by case_split. }
  assert (Hone : forall f b, preserves (fun s => I (head_inner s)) (read_one_line_byte f b : comp (HeadStreamReader R) io_stop HeadLinesStep)).
  { intros g b s Hs. unfold read_one_line_byte. specialize (HI g 1%nat _ Hs). by destruct (read g 1%nat (head_inner s)) as [r [[|? ?]|[[| |]|]|]]. }
  assert (Hl : forall room limit out, preserves (fun s => I (head_inner s)) (head_lines_loop f room limit out : comp (HeadStreamReader R) io_stop str)).
  { intros room. induction room as [|room IH]; intros limit out; cbn [head_lines_loop]; repeat frame_step; try done; apply Hfin || apply Hone. }
  unfold head_read. destruct (n =? 0)%nat; [eauto with frame|]. apply preserves_bind.
  { intros s Hs. unfold take_from_pending. by destruct (take_pending_output _ _ _) as [[? ?] ?]. }
  intros [|b c]; [|eauto with frame]. apply preserves_bind; [eauto with frame|]. intros s0. destruct (head_finished s0); [eauto with frame|].
  destruct (head_mode s0) as [limit|k].
  - intros s Hs. unfold read_lines_mode, mbind, comp_bind, get, put. case_split; [done|]. by apply Hl.
  - intros s Hs. unfold read_bytes_mode. case_split; [done|]. set (m := Z.to_nat _). specialize (HI f m _ Hs).
    by destruct (read f m (head_inner s)) as [r [c|e|w]].
Qed.

Lemma stage_frame `{Target} `{Unicode} `{PosixRegex} f n : preserves (fun s => I (stage_inner s)) (read f n : comp (StageReader R) io_stop str).
Proof.
  intros s Hs. unfold read, Stage_reader, boxed. destruct s as [r|t|t|t|t|t|t|t|t|t|t|t|t]; cbn [stage_inner] in Hs.
  { specialize (HI f n _ Hs). by destruct (read f n r). }
  { pose proof (frame_head f n t Hs) as Hr. unfold read, head_reader. by destruct (head_read f n t). }
  { pose proof (frame_tail f n t Hs) as Hr. unfold read, tail_reader. by destruct (tail_read f n t). }
  { pose proof (frame_bat f n t Hs) as Hr. unfold read, bat_reader. by destruct (bat_read f n t). }
  { pose proof (frame_sed f n t Hs) as Hr. unfold read, sed_reader. by destruct (sed_read f n t). }
  { pose proof (frame_paste f n t Hs) as Hr. unfold read, paste_reader. by destruct (paste_read f n t). }
  { pose proof (frame_column f n t Hs) as Hr. unfold read, column_reader. by destruct (column_read f n t). }
  { pose proof (frame_grep f n t Hs) as Hr. unfold read, grep_reader. by destruct (grep_read f n t). }
  { pose proof (frame_uniq f n t Hs) as Hr. unfold read, uniq_reader. by destruct (uniq_read f n t). }
  { pose proof (frame_rev f n t Hs) as Hr. unfold read, rev_reader. by destruct (rev_read f n t). }
  { pose proof (frame_cut f n t Hs) as Hr. unfold read, cut_reader. by destruct (cut_read f n t). }
  { pose proof (frame_tr f n t Hs) as Hr. unfold read, tr_reader. by destruct (tr_read f n t). }
  pose proof (frame_wc f n t Hs) as Hr. unfold read, wc_reader. by destruct (wc_read f n t).
Qed.
End frames.

(** ** PipeReader *)

(** The pipe has the ends of [p0]; its bytes and then [future] are still to come. *)
Definition same_ends (p0 p : PipeBuffer) : Prop :=
  write_closed p = write_closed p0 /\ read_closed p = read_closed p0 /\ capacity p = capacity p0.

Definition pipe_serves (future : list Ascii.ascii) (s : PipeReader) (bs : list Ascii.ascii) (e : ending) : Prop :=
  bs = data (reader_pipe s) ++ future /\ (write_closed (reader_pipe s) = true -> future = []) /\ e = Eof.

Definition starved (p : PipeBuffer) : Prop := data p = [] /\ write_closed p = false.

(** [Pipe.read] into a buffer of [n]. *)
Lemma pipe_read_cases n p : (0 < n)%nat -> match data p with
  | [] => exists buf, Pipe.read (repeat "000"%char n) p = Some (p, buf, if write_closed p then Pipe.Eof else ReadWouldBlock)
  | _ => exists buf k, Pipe.read (repeat "000"%char n) p = Some (Pipe.set_data (drop n (data p)) p, buf, Read k) /\ take (Z.to_nat k) buf = take n (data p)
  end.
Proof.
  intros Hn. unfold Pipe.read. destruct n as [|n]; [lia|]. cbn [repeat].
  destruct (data p) as [|b d] eqn:Hd; [by eexists|]. rewrite <-Hd. set (buf := "000"%char :: repeat "000"%char n).
  assert (Hlen : len buf = Z.of_nat (S n)) by (unfold len, buf; cbn; rewrite repeat_length; lia).
  set (k := Z.to_nat (Z.min (len buf) (len (data p)))). assert (Hk : k = Nat.min (S n) (length (data p))) by (unfold k; rewrite Hlen; unfold len; lia).
  rewrite Pipe.pop_slots_spec by lia. cbn [mbind option_bind]. eexists _, _. split.
  - replace (drop (S n) (data p)) with (drop k (data p)); [done|]. destruct (Nat.le_ge_cases (S n) (length (data p))); [f_equal; lia|]. by rewrite !drop_ge by lia.
  - fold k. rewrite take_app_le by (rewrite length_take; lia). rewrite take_take, Nat.min_id.
    destruct (Nat.le_ge_cases (S n) (length (data p))); [by replace k with (S n) by lia|]. by rewrite !take_ge by lia.
Qed.

Lemma pipe_reader_read f n p : (0 < n)%nat -> read f n (PipeReader_new p) = match data p with
  | [] => (PipeReader_new p, if write_closed p then Ok [] else Err (IoError WouldBlock))
  | _ => (PipeReader_new (Pipe.set_data (drop n (data p)) p), Ok (take n (data p)))
  end.
Proof.
  intros Hn. unfold read, PipeReader_reader. cbn [PipeReader_new reader_pipe]. pose proof (pipe_read_cases n p Hn) as Hr. destruct (data p) as [|b d].
  - destruct Hr as [buf ->]. by destruct (write_closed p).
  - destruct Hr as (buf & k & -> & Ht). by rewrite Ht.
Qed.

Lemma pipe_closed future : closed (pipe_serves future) (fun s => starved (reader_pipe s)).
Proof.
  intros [p] bs e n (-> & Hw & ->) Hn. cbn [reader_pipe] in *. change {| reader_pipe := p |} with (PipeReader_new p).
  pose proof (fun f => pipe_reader_read f n p Hn) as Hread.
  destruct (data p) as [|b d] eqn:Hd; (eexists _, _; split; [by apply eventually_now|]).
  - destruct (write_closed p) eqn:Hc; cbn [reply].
    + rewrite Hw by done. split_and!; [done..|]. split; [cbn; by rewrite Hd|done].
    + split; [|by split]. split; [cbn; by rewrite Hd|]. cbn. by rewrite Hc.
  - destruct n as [|n]; [lia|]. cbn [take reply]. split; [cbn; rewrite length_take; lia|]. exists (drop n d ++ future). split.
    + cbn. by rewrite app_assoc, take_drop.
    + by split.
Qed.

Lemma pipe_reader_frame p0 f n s : same_ends p0 (reader_pipe s) -> same_ends p0 (reader_pipe (fst (read f n s))).
Proof.
  destruct s as [p]. cbn [reader_pipe]. intros Hp. destruct n as [|n].
  - unfold read, PipeReader_reader. cbn. done.
  - pose proof (pipe_reader_read f (S n) p ltac:(lia)) as Hr. unfold PipeReader_new in Hr at 1. rewrite Hr. by destruct (data p).
Qed.

(** ** What a stage makes of its input *)

Section contracts.
Context `{Target} `{Unicode} `{PosixRegex}.

Definition stage_output (stage : StreamingPipelineStage) (inp : str) (e : ending) : option (str * ending) :=
  match stage with
  | Cat => Some (inp, e)
  | Head (HeadBytes k) => if 0 <=? k then Some (take (Z.to_nat k) inp, if k <=? len inp then Eof else e) else None
  | Head (HeadLines k) => match e with Eof => Some (take_lines k inp, Eof) | Fails _ => None end
  | Tail (TailLines k) => if 0 <=? k then Some (match e with Eof => tail_output (TailLines k) inp | Fails _ => [] end, e) else None
  | Tail (TailBytes k) => if 0 <=? k then Some (match e with Eof => tail_output (TailBytes k) inp | Fails _ => [] end, e) else None
  | Bat stage => Some (bat_lines stage e (lines e inp), e)
  | Sed stage => match e, run_sed stage inp with Eof, Ok out => Some (out, Eof) | _, _ => None end
  | Paste {| delimiter := d; serial := true |} => match e with Eof => Some (join d (lines Eof inp) ++ [newline], Eof) | Fails _ => None end
  | Paste {| delimiter := d; serial := false |} => Some (completed true inp e, e)
  | Column => Some (completed true inp e, e)
  | Grep stage => if only_matching (grep_flags stage) then None else Some (grep_lines stage e (lines e inp))
  | Uniq fl => Some (uniq_lines fl e (lines e inp), e)
  | Rev => Some (rev_lines (lines e inp), e)
  | Cut stage => Some (cut_lines stage (lines e inp), e)
  | Tr stage => Some (tr_text stage e inp, e)
  | Wc fl => Some (match e with Eof => wc_text fl inp | Fails _ => [] end, e)
  | Tee _ | Literal _ | File _ | Yes _ | External _ | BufferedCommand _ => None
  end.

Context {R : Type} `{Reader R}.

Lemma reply_map {T T' : Type} (g : T -> T') (S : T -> str -> ending -> Prop) (S' : T' -> str -> ending -> Prop) (B : T -> Prop) (B' : T' -> Prop) bs e n t out :
  (forall b e, S t b e -> S' (g t) b e) -> (B t -> B' (g t)) -> reply S B bs e n t out -> reply S' B' bs e n (g t) out.
Proof.
  intros HS HB. destruct out as [[|c cs]|[[| |code]|]|]; cbn [reply]; [|intros (Hl & rest & -> & Hr)|intros [? ?]|..]; try (by intros (? & ? & ?); auto); [|by auto..].
  split; [done|]. exists rest. by auto.
Qed.

(** A box around a stage keeps its contract. *)
Lemma keeps_box {T} `{Reader T} (get : T -> R) set new f (box : T -> StageReader R) : (forall t, stage_inner (box t) = get t) ->
  (forall r t, set_stage_inner r (box t) = box (set r t)) -> (forall f n t, read f n (box t) = boxed box f n t) ->
  keeps get set new f -> keeps stage_inner set_stage_inner (fun r => box (new r)) f.
Proof.
  intros Hget Hset Hread (Hold & Hc & Hst & Hn). exists (fun S s bs e => exists t, s = box t /\ Hold S t bs e). split_and!.
  - intros S B HS s bs e n (t & -> & Hh) Hlt. destruct (Hc S B HS t bs e n Hh Hlt) as (t' & out & [f0 Hev] & Hrep). exists (box t'), out. split.
    + exists f0. intros f' Hle. rewrite Hread. unfold boxed. by rewrite Hev.
    + eapply reply_map; [| |exact Hrep]; [by eauto|]. by rewrite Hget.
  - intros S S' s r' bs e (t & -> & Hh) Hr. exists (set r' t). split; [apply Hset|]. apply (Hst S S'); [done|]. intros b e'. rewrite <-Hget. apply Hr.
  - intros S r inp e out e' Hs Hf. exists (new r). split; [done|]. by apply (Hn S r inp e).
Qed.

Lemma keeps_never {T} `{Reader T} (get : T -> R) set new : keeps get set new (fun _ _ => None).
Proof. exists (fun _ _ _ _ => False). split_and!; [intros S B HS t bs e n []|intros S S' s r' bs e []|done]. Qed.

(** A contract for some options only. *)
Lemma keeps_when {T} `{Reader T} (b : bool) (get : T -> R) set new f g : (b = true -> keeps get set new f) ->
  (forall inp e, g inp e = if b then f inp e else None) -> keeps get set new g.
Proof.
  intros Hf Hg. destruct b.
  - destruct (Hf eq_refl) as (Hold & Hc & Hst & Hn). exists Hold. split_and!; [done..|]. intros S r inp e out e' Hs Hx. rewrite Hg in Hx. by apply (Hn S r inp e).
  - destruct (keeps_never get set new) as (Hold & Hc & Hst & Hn). exists Hold. split_and!; [done..|]. intros S r inp e out e' Hs Hx. by rewrite Hg in Hx.
Qed.

Lemma cat_contract : keeps stage_inner set_stage_inner (fun r => CatReader r) (fun inp e => Some (inp, e)).
Proof.
  exists (fun S s bs e => exists r, s = CatReader r /\ S r bs e). split_and!.
  - intros S B HS s bs e n (r & -> & Hh) Hlt. destruct (HS r bs e n Hh Hlt) as (r' & out & [f0 Hev] & Hrep). exists (CatReader r'), out. split.
    + exists f0. intros f' Hle. unfold read, Stage_reader, boxed. by rewrite Hev.
    + eapply reply_map; [| |exact Hrep]; [intros b e' Hb; by exists r'|done].
  - intros S S' s r' bs e (r & -> & Hh) Hr. exists r'. split; [done|]. by apply Hr.
  - intros S r inp e out e' Hs [= <- <-]. by exists r.
Qed.

Definition stage_new (stage : StreamingPipelineStage) (st : Z) (r : R) : StageReader R :=
  default (CatReader r) (wrap_non_tee_streaming_stage r stage st).

(** The contract of every stage that has a reader. *)
Lemma stage_keeps stage st : keeps stage_inner set_stage_inner (stage_new stage st) (stage_output stage).
Proof.
  destruct stage as [bs|path|line|argv|cmd| |[k|k]|[k|k]|bs|ss|ts|[d [|]]| |gs|fl| |cs|ts|fl]; try (apply keeps_never).
  - apply cat_contract.
  - by eapply (keeps_box _ _ _ _ HeadReader); [| | |apply head_lines_contract].
  - eapply (keeps_box _ _ _ _ HeadReader); [done..|]. apply (keeps_when (0 <=? k) _ _ _ _ _ (fun Hk => head_bytes_contract k (proj1 (Z.leb_le 0 k) Hk))). done.
  - eapply (keeps_box _ _ _ _ TailReader); [done..|]. apply (keeps_when (0 <=? k) _ _ _ _ _ (fun Hk => tail_contract (TailLines k) (proj1 (Z.leb_le 0 k) Hk))). done.
  - eapply (keeps_box _ _ _ _ TailReader); [done..|]. apply (keeps_when (0 <=? k) _ _ _ _ _ (fun Hk => tail_contract (TailBytes k) (proj1 (Z.leb_le 0 k) Hk))). done.
  - by eapply (keeps_box _ _ _ _ BatReader); [| | |apply bat_contract].
  - by eapply (keeps_box _ _ _ _ SedReader); [| | |apply sed_contract].
  - by eapply (keeps_box _ _ _ _ PasteReader); [| | |apply paste_serial_contract].
  - by eapply (keeps_box _ _ _ _ PasteReader); [| | |apply paste_contract].
  - by eapply (keeps_box _ _ _ _ ColumnReader); [| | |apply column_contract].
  - eapply (keeps_box _ _ _ _ GrepReader); [done..|].
    apply (keeps_when (negb (only_matching (grep_flags gs))) _ _ _ _ _ (fun Ho => grep_contract gs st (proj1 (negb_true_iff _) Ho))).
    intros inp e. cbn [stage_output]. by destruct (only_matching (grep_flags gs)).
  - by eapply (keeps_box _ _ _ _ UniqReader); [| | |apply uniq_contract].
  - by eapply (keeps_box _ _ _ _ RevReader); [| | |apply rev_contract].
  - by eapply (keeps_box _ _ _ _ CutReader); [| | |apply cut_contract].
  - by eapply (keeps_box _ _ _ _ TrReader); [| | |apply tr_contract].
  - by eapply (keeps_box _ _ _ _ WcReader); [| | |apply wc_contract].
Qed.
End contracts.
