(* ===== verification/StreamProcess.v ===== *)
(** * The processes of a streaming pipeline (crates/wasmsh-runtime/src/lib.rs)

    A process reads its input pipe, or a source, and writes its output pipe; one
    poll moves it on until it has written something, has to wait, or exits.  The
    two pipes of a process are shared with its neighbours and are part of the
    state of a poll.  A poll of [TeePipeProcess] is that of [PipeReadProcess] but
    for the targets, which get what the pipe accepted: [tee_targets] is [Some] for
    it.  [Session] is what a pipeline uses of the runtime. *)

From S2P Require Import Prelude Strings Pipe Utf8 Stream StreamLines StreamBytes StreamGrep StreamSed StreamArgs StreamStage.

Class Session (Rt Src Sink : Type) := {
  check_resource_limits : Rt -> Rt * bool;
  sync_pipe_budget : Z -> Rt -> Rt;
  resource_exhausted : Rt -> bool;
  write_stdout : list Ascii.ascii -> Rt -> Rt;
  write_stderr : list Ascii.ascii -> Rt -> Rt;
  (** [sink.write]; the text of the error. *)
  sink_write : Sink -> list Ascii.ascii -> Rt -> Rt * option (list Ascii.ascii);
  (** [fs.open_write_sink] of a path resolved from the working directory. *)
  open_write_sink : list Ascii.ascii -> bool -> Rt -> Rt * (Sink + list Ascii.ascii);
  (** [open_streaming_file_reader]: on failure the message is written and the
      status set. *)
  open_streaming_file_reader : list Ascii.ascii -> Rt -> Rt * option Src;
  last_status : Rt -> Z;
}.

Inductive PipeProcessPoll := Ready | PendingRead | PendingWrite | Exited.

Record TeeTarget (Sink : Type) := { display_path : list Ascii.ascii; sink : Sink }.
Arguments display_path {Sink} _.
Arguments sink {Sink} _.

Record PipeReadProcess (Src Sink : Type) := {
  reader : option (BoxedReader Src);
  pending : list Ascii.ascii;
  pending_offset : nat;
  stderr_offset : nat;
  rp_finished : bool;
  rp_stderr : list Ascii.ascii;
  rp_status : Z;
  label : list Ascii.ascii;
  pipe_stderr : bool;
  reader_done : bool;
  tee_targets : option (list (TeeTarget Sink));
}.
Arguments reader {Src Sink} _.
Arguments pending {Src Sink} _.
Arguments pending_offset {Src Sink} _.
Arguments stderr_offset {Src Sink} _.
Arguments rp_finished {Src Sink} _.
Arguments rp_stderr {Src Sink} _.
Arguments rp_status {Src Sink} _.
Arguments label {Src Sink} _.
Arguments pipe_stderr {Src Sink} _.
Arguments reader_done {Src Sink} _.
Arguments tee_targets {Src Sink} _.

Definition PipeReadProcess_new {Src Sink} (reader : BoxedReader Src) (status : Z) (label : str) (pipe_stderr : bool) : PipeReadProcess Src Sink :=
  {| reader := Some reader; pending := []; pending_offset := 0; stderr_offset := 0; rp_finished := false; rp_stderr := [];
     rp_status := status; label := label; pipe_stderr := pipe_stderr; reader_done := false; tee_targets := None |}.

Record HeadPipeProcess := {
  hp_mode : StreamingHeadMode;
  hp_pending : list Ascii.ascii;
  hp_offset : nat;
  hp_lines_seen : Z;
  input_closed : bool;
  stream_complete : bool;
  hp_finished : bool;
}.

Definition HeadPipeProcess_new (mode : StreamingHeadMode) : HeadPipeProcess :=
  {| hp_mode := mode; hp_pending := []; hp_offset := 0; hp_lines_seen := 0; input_closed := false; stream_complete := false;
     hp_finished := false |}.

(** A process at a poll: its pipes and the runtime. *)
Record PollState (P Rt : Type) := {
  process : P;
  input : PipeBuffer;
  output : PipeBuffer;
  runtime : Rt;
}.
Arguments process {P Rt} _.
Arguments input {P Rt} _.
Arguments output {P Rt} _.
Arguments runtime {P Rt} _.

Section poll_state.
Context {P Rt : Type}.

Definition set_process (p : P) (s : PollState P Rt) : PollState P Rt :=
  {| process := p; input := input s; output := output s; runtime := runtime s |}.
Definition set_input_pipe (p : PipeBuffer) (s : PollState P Rt) : PollState P Rt :=
  {| process := process s; input := p; output := output s; runtime := runtime s |}.
Definition set_output_pipe (p : PipeBuffer) (s : PollState P Rt) : PollState P Rt :=
  {| process := process s; input := input s; output := p; runtime := runtime s |}.
Definition set_runtime (r : Rt) (s : PollState P Rt) : PollState P Rt :=
  {| process := process s; input := input s; output := output s; runtime := r |}.

Definition on_process (f : P -> P) : comp (PollState P Rt) io_stop unit := modify (fun s => set_process (f (process s)) s).

(** [self.output.borrow_mut().write(..)]. *)
Definition write_output (bs : str) : comp (PollState P Rt) io_stop WriteResult := fun s =>
  let '(p, r) := Pipe.write bs (output s) in (set_output_pipe p s, Ok r).
End poll_state.

(** ** PipeReadProcess and TeePipeProcess *)

Section read_process.
Context `{Target} `{Unicode} `{PosixRegex} {Rt Src Sink : Type} `{Reader Src} `{Session Rt Src Sink}.
(** [Display] of a [std::io::Error]. *)
Context (error_text : ErrorKind -> list Ascii.ascii).

Definition set_buffer (p : PipeReadProcess Src Sink) (pending : str) (offset : nat) : PipeReadProcess Src Sink :=
  {| reader := reader p; pending := pending; pending_offset := offset; stderr_offset := stderr_offset p; rp_finished := rp_finished p;
     rp_stderr := rp_stderr p; rp_status := rp_status p; label := label p; pipe_stderr := pipe_stderr p; reader_done := reader_done p;
     tee_targets := tee_targets p |}.
Definition set_reader (p : PipeReadProcess Src Sink) (r : BoxedReader Src) (done : bool) : PipeReadProcess Src Sink :=
  {| reader := Some r; pending := pending p; pending_offset := pending_offset p; stderr_offset := stderr_offset p; rp_finished := rp_finished p;
     rp_stderr := rp_stderr p; rp_status := boxed_status r (rp_status p); label := label p; pipe_stderr := pipe_stderr p; reader_done := done;
     tee_targets := tee_targets p |}.
Definition advance_stderr (n : nat) (p : PipeReadProcess Src Sink) : PipeReadProcess Src Sink :=
  {| reader := reader p; pending := pending p; pending_offset := pending_offset p; stderr_offset := (stderr_offset p + n)%nat;
     rp_finished := rp_finished p; rp_stderr := rp_stderr p; rp_status := rp_status p; label := label p; pipe_stderr := pipe_stderr p;
     reader_done := reader_done p; tee_targets := tee_targets p |}.
(** A message on the stage's standard error, with status 1. *)
Definition report (msg : str) (p : PipeReadProcess Src Sink) : PipeReadProcess Src Sink :=
  {| reader := reader p; pending := pending p; pending_offset := pending_offset p; stderr_offset := stderr_offset p; rp_finished := rp_finished p;
     rp_stderr := rp_stderr p ++ msg; rp_status := 1; label := label p; pipe_stderr := pipe_stderr p; reader_done := reader_done p;
     tee_targets := tee_targets p |}.

(** [self.reader = None] drops the reader, and with it its end of the pipe. *)
Definition read_finish : comp (PollState (PipeReadProcess Src Sink) Rt) io_stop PipeProcessPoll := fun s =>
  let p := process s in
  ({| process := {| reader := None; pending := pending p; pending_offset := pending_offset p; stderr_offset := stderr_offset p;
                    rp_finished := true; rp_stderr := rp_stderr p; rp_status := rp_status p; label := label p; pipe_stderr := pipe_stderr p;
                    reader_done := reader_done p; tee_targets := (fun _ => []) <$> tee_targets p |};
      input := match reader p with Some r => drop_reader r (input s) | None => input s end;
      output := Pipe.close_write (output s); runtime := runtime s |}, Ok Exited).

Fixpoint write_targets_loop (chunk : str) (targets : list (TeeTarget Sink)) : comp (PollState (PipeReadProcess Src Sink) Rt) io_stop unit :=
  match targets with
  | [] => mret tt
  | t :: ts =>
      _ ← (fun s => match sink_write (sink t) chunk (runtime s) with
                    | (r, None) => (set_runtime r s, Ok tt)
                    | (r, Some err) => (set_process (report (#"tee: " ++ display_path t ++ #": " ++ err ++ [newline]) (process s)) (set_runtime r s), Ok tt)
                    end);
      write_targets_loop chunk ts
  end.

Definition write_targets (chunk : str) : comp (PollState (PipeReadProcess Src Sink) Rt) io_stop unit :=
  s ← get; write_targets_loop chunk (default [] (tee_targets (process s))).

Definition read_drain_pending : comp (PollState (PipeReadProcess Src Sink) Rt) io_stop (option PipeProcessPoll) :=
  s ← get;
  let p := process s in
  if (length (pending p) <=? pending_offset p)%nat then mret None
  else
    r ← write_output (drop (pending_offset p) (pending p));
    match r with
    | Written n =>
        _ ← write_targets (take (Z.to_nat n) (drop (pending_offset p) (pending p)));
        _ ← on_process (fun p =>
          let offset := (pending_offset p + Z.to_nat n)%nat in
          if (offset =? length (pending p))%nat then set_buffer p [] 0 else set_buffer p (pending p) offset);
        mret (Some Ready)
    | WriteWouldBlock 0 => mret (Some PendingWrite)
    | WriteWouldBlock n =>
        _ ← write_targets (take (Z.to_nat n) (drop (pending_offset p) (pending p)));
        _ ← on_process (fun p => set_buffer p (pending p) (pending_offset p + Z.to_nat n));
        mret (Some Ready)
    | BrokenPipe => x ← read_finish; mret (Some x)
    end.

Definition poll_stderr : comp (PollState (PipeReadProcess Src Sink) Rt) io_stop (option PipeProcessPoll) :=
  s ← get;
  let p := process s in
  if negb (pipe_stderr p) then mret None
  else if (length (rp_stderr p) <=? stderr_offset p)%nat then mret None
  else
    r ← write_output (drop (stderr_offset p) (rp_stderr p));
    match r with
    | Written n | WriteWouldBlock n =>
        if 0 <? n then _ ← on_process (advance_stderr (Z.to_nat n)); mret (Some Ready)
        else mret (Some PendingWrite)
    | BrokenPipe => x ← read_finish; mret (Some x)
    end.

Definition read_fill_from_reader (fuel : nat) : comp (PollState (PipeReadProcess Src Sink) Rt) io_stop (option PipeProcessPoll) := fun s =>
  let p := process s in
  match reader p with
  | None => (s, Panic "pipe read process polled after reader finished")
  | Some r =>
      let '(r', x) := read fuel SCRATCH (plug (input s) r) in
      let s' p' := set_process p' (set_input_pipe (unplug r' (input s)) s) in
      match x with
      | Ok [] => (s' (set_reader p r' true), Ok None)
      | Ok c => (s' (set_buffer (set_reader p r' (reader_done p)) (pending p ++ c) (pending_offset p)), Ok None)
      | Err (IoError WouldBlock) => (s' (set_reader p r' (reader_done p)), Ok (Some PendingRead))
      | Err (IoError k) =>
          (s' (report (#"wasmsh: " ++ label p ++ #": streaming pipeline read error: " ++ error_text k ++ [newline]) (set_reader p r' true)), Ok None)
      | Err OutOfFuel => (s' (set_reader p r' (reader_done p)), Err OutOfFuel)
      | Panic w => (s' (set_reader p r' (reader_done p)), Panic w)
      end
  end.

Fixpoint read_poll_loop (fuel : nat) : comp (PollState (PipeReadProcess Src Sink) Rt) io_stop PipeProcessPoll :=
  match fuel with
  | O => throw OutOfFuel
  | S f =>
      x ← read_drain_pending;
      match x with
      | Some poll => mret poll
      | None =>
          x ← poll_stderr;
          match x with
          | Some poll => mret poll
          | None =>
              s ← get;
              if reader_done (process s) then read_finish
              else
                x ← read_fill_from_reader f;
                match x with
                | Some poll => mret poll
                | None => read_poll_loop f
                end
          end
      end
  end.

Definition read_poll (fuel : nat) : comp (PollState (PipeReadProcess Src Sink) Rt) io_stop PipeProcessPoll :=
  s ← get; if rp_finished (process s) then mret Exited else read_poll_loop fuel.

(** [TeePipeProcess::new]: a target that cannot be opened is reported. *)
Fixpoint open_targets (paths : list str) (append : bool) (p : PipeReadProcess Src Sink) (rt : Rt) : PipeReadProcess Src Sink * Rt * list (TeeTarget Sink) :=
  match paths with
  | [] => (p, rt, [])
  | path :: paths' =>
      match open_write_sink path append rt with
      | (rt, inl k) => let '(p, rt, ts) := open_targets paths' append p rt in (p, rt, {| display_path := path; sink := k |} :: ts)
      | (rt, inr err) => open_targets paths' append (report (#"tee: " ++ path ++ #": " ++ err ++ [newline]) p) rt
      end
  end.

Definition TeePipeProcess_new (r : BoxedReader Src) (stage : StreamingTeeStage) (status : Z) (pipe_stderr : bool) (rt : Rt) : PipeReadProcess Src Sink * Rt :=
  let '(p, rt, ts) := open_targets (tee_paths stage) (tee_append stage) (PipeReadProcess_new r status #"tee" pipe_stderr) rt in
  ({| reader := reader p; pending := pending p; pending_offset := pending_offset p; stderr_offset := stderr_offset p; rp_finished := rp_finished p;
      rp_stderr := rp_stderr p; rp_status := rp_status p; label := label p; StreamProcess.pipe_stderr := StreamProcess.pipe_stderr p;
      reader_done := reader_done p; tee_targets := Some ts |}, rt).
End read_process.

(** ** HeadPipeProcess *)

Section head_process.
Context {Rt : Type}.

Definition set_head_buffer (p : HeadPipeProcess) (pending : str) (offset : nat) : HeadPipeProcess :=
  {| hp_mode := hp_mode p; hp_pending := pending; hp_offset := offset; hp_lines_seen := hp_lines_seen p; input_closed := input_closed p;
     stream_complete := stream_complete p; hp_finished := hp_finished p |}.
Definition set_head_mode (p : HeadPipeProcess) (mode : StreamingHeadMode) (seen : Z) : HeadPipeProcess :=
  {| hp_mode := mode; hp_pending := hp_pending p; hp_offset := hp_offset p; hp_lines_seen := seen; input_closed := input_closed p;
     stream_complete := stream_complete p; hp_finished := hp_finished p |}.

Definition close_input : comp (PollState HeadPipeProcess Rt) io_stop unit := modify (fun s =>
  let p := process s in
  if input_closed p then s
  else set_process {| hp_mode := hp_mode p; hp_pending := hp_pending p; hp_offset := hp_offset p; hp_lines_seen := hp_lines_seen p;
                      input_closed := true; stream_complete := stream_complete p; hp_finished := hp_finished p |}
         (set_input_pipe (Pipe.close_read (input s)) s)).

(** [self.stream_complete = true; self.close_input()]. *)
Definition complete_stream : comp (PollState HeadPipeProcess Rt) io_stop unit :=
  _ ← on_process (fun p => {| hp_mode := hp_mode p; hp_pending := hp_pending p; hp_offset := hp_offset p; hp_lines_seen := hp_lines_seen p;
                              input_closed := input_closed p; stream_complete := true; hp_finished := hp_finished p |});
  close_input.

Definition head_finish : comp (PollState HeadPipeProcess Rt) io_stop PipeProcessPoll :=
  _ ← close_input;
  _ ← modify (fun s => set_output_pipe (Pipe.close_write (output s)) s);
  _ ← on_process (fun p => {| hp_mode := hp_mode p; hp_pending := hp_pending p; hp_offset := hp_offset p; hp_lines_seen := hp_lines_seen p;
                              input_closed := input_closed p; stream_complete := stream_complete p; hp_finished := true |});
  mret Exited.

Definition try_flush_pending : comp (PollState HeadPipeProcess Rt) io_stop (option PipeProcessPoll) :=
  s ← get;
  let p := process s in
  if (length (hp_pending p) <=? hp_offset p)%nat then mret None
  else
    r ← write_output (drop (hp_offset p) (hp_pending p));
    match r with
    | Written n =>
        let offset := (hp_offset p + Z.to_nat n)%nat in
        if (offset =? length (hp_pending p))%nat then
          _ ← on_process (fun p => set_head_buffer p [] 0);
          if stream_complete p then x ← head_finish; mret (Some x) else mret (Some Ready)
        else _ ← on_process (fun p => set_head_buffer p (hp_pending p) offset); mret (Some Ready)
    | WriteWouldBlock 0 => mret (Some PendingWrite)
    | WriteWouldBlock n => _ ← on_process (fun p => set_head_buffer p (hp_pending p) (hp_offset p + Z.to_nat n)); mret (Some Ready)
    | BrokenPipe => x ← head_finish; mret (Some x)
    end.

Definition update_head_limit (b : byte) (n : Z) : comp (PollState HeadPipeProcess Rt) io_stop unit :=
  s ← get;
  let p := process s in
  match hp_mode p with
  | HeadBytes remaining =>
      let remaining := sat_sub remaining n in
      _ ← on_process (fun p => set_head_mode p (HeadBytes remaining) (hp_lines_seen p));
      if remaining =? 0 then complete_stream else mret tt
  | HeadLines limit =>
      if decide (b = newline) then
        let seen := hp_lines_seen p + 1 in
        _ ← on_process (fun p => set_head_mode p (hp_mode p) seen);
        if limit <=? seen then complete_stream else mret tt
      else mret tt
  end.

(** One byte is read at a time. *)
Definition read_one : comp (PollState HeadPipeProcess Rt) io_stop (ReadResult * list Ascii.ascii) := fun s =>
  match Pipe.read ["000"%char] (input s) with
  | Some (p, one, r) => (set_input_pipe p s, Ok (r, one))
  | None => (s, Panic "pipe read length exceeded available data")
  end.

Fixpoint head_poll_loop (fuel : nat) : comp (PollState HeadPipeProcess Rt) io_stop PipeProcessPoll :=
  match fuel with
  | O => throw OutOfFuel
  | S f =>
      x ← try_flush_pending;
      match x with
      | Some poll => mret poll
      | None =>
          s ← get;
          if stream_complete (process s) then head_finish
          else
            r ← read_one;
            match r with
            | (Read n, one) =>
                _ ← on_process (fun p => set_head_buffer p (hp_pending p ++ take (Z.to_nat n) one) (hp_offset p));
                _ ← update_head_limit (hd "000"%char one) n;
                head_poll_loop f
            | (ReadWouldBlock, _) => mret PendingRead
            | (Pipe.Eof, _) => _ ← complete_stream; head_poll_loop f
            end
      end
  end.

Definition head_poll (fuel : nat) : comp (PollState HeadPipeProcess Rt) io_stop PipeProcessPoll :=
  s ← get; if hp_finished (process s) then mret Exited else head_poll_loop fuel.
End head_process.

(** ** StreamingPipeProcess *)

Inductive StreamingPipeProcess (Src Sink : Type) :=
  | ReadProcess (p : PipeReadProcess Src Sink)
  | HeadProcess (p : HeadPipeProcess)
  | TeeProcess (p : PipeReadProcess Src Sink).
Arguments ReadProcess {Src Sink} _.
Arguments HeadProcess {Src Sink} _.
Arguments TeeProcess {Src Sink} _.

Section poll.
Context `{Target} `{Unicode} `{PosixRegex} {Rt Src Sink : Type} `{Reader Src} `{Session Rt Src Sink}.
Context (error_text : ErrorKind -> list Ascii.ascii).

(** Poll a process inside the sum. *)
Definition poll_as {P} (wrap : P -> StreamingPipeProcess Src Sink) (m : comp (PollState P Rt) io_stop PipeProcessPoll) (p : P)
    (s : PollState (StreamingPipeProcess Src Sink) Rt) : PollState (StreamingPipeProcess Src Sink) Rt * res io_stop PipeProcessPoll :=
  let '(s', x) := m {| process := p; input := input s; output := output s; runtime := runtime s |} in
  ({| process := wrap (process s'); input := input s'; output := output s'; runtime := runtime s' |}, x).

Definition poll (fuel : nat) : comp (PollState (StreamingPipeProcess Src Sink) Rt) io_stop PipeProcessPoll := fun s =>
  match process s with
  | ReadProcess p => poll_as ReadProcess (read_poll error_text fuel) p s
  | HeadProcess p => poll_as HeadProcess (head_poll fuel) p s
  | TeeProcess p => poll_as TeeProcess (read_poll error_text fuel) p s
  end.

(** [close]: a tee lets go of its reader and its targets; the pipe the reader held
    is not used any more. *)
Definition close (p : StreamingPipeProcess Src Sink) : StreamingPipeProcess Src Sink :=
  match p with
  | TeeProcess p =>
      TeeProcess {| reader := None; pending := pending p; pending_offset := pending_offset p; stderr_offset := stderr_offset p;
                    rp_finished := rp_finished p; rp_stderr := rp_stderr p; rp_status := rp_status p; label := label p;
                    pipe_stderr := pipe_stderr p; reader_done := reader_done p; tee_targets := (fun _ => []) <$> tee_targets p |}
  | p => p
  end.

(** The status and the standard error of the stage. *)
Definition process_status (p : StreamingPipeProcess Src Sink) : Z :=
  match p with ReadProcess p | TeeProcess p => rp_status p | HeadProcess _ => 0 end.
Definition process_stderr (p : StreamingPipeProcess Src Sink) : str :=
  match p with ReadProcess p | TeeProcess p => if pipe_stderr p then [] else rp_stderr p | HeadProcess _ => [] end.
End poll.
