(* ===== verification/StreamProcessProps.v ===== *)
(** * The processes of a streaming pipeline: what a poll does

    [read_live p inp future out]: the process, reading from the pipe [inp] whose
    writer still has [future] to write, has [out] left to write.  A poll writes a
    part of it and keeps the rest ([poll_correct]): it answers [Ready] only when
    it wrote something, [PendingRead] only when its input is empty and open,
    [PendingWrite] only when its output is full and still read, and [Exited] when
    all is written, with both its pipe ends closed. *)

From S2P Require Import Prelude Strings Pipe Utf8 Stream StreamProps StreamLines StreamBytes StreamBytesProps StreamGrep StreamSed StreamArgs StreamStage StreamStageProps StreamProcess.

(** ** Writing to the output pipe *)

(** The state of [p] with [w] more bytes in it. *)
Definition pipe_got (p p' : PipeBuffer) (w : str) : Prop := data p' = data p ++ w /\ same_ends p p'.

Lemma pipe_write_cases bs p : bs <> [] -> 1 <= capacity p ->
  (read_closed p = true /\ Pipe.write bs p = (p, BrokenPipe)) \/
  (read_closed p = false /\ data p <> [] /\ Pipe.write bs p = (p, WriteWouldBlock 0)) \/
  (exists n, 0 < n <= len bs /\ read_closed p = false /\
     let p' := Pipe.set_data (data p ++ take (Z.to_nat n) bs) p in
     (n < len bs /\ Pipe.write bs p = (p', WriteWouldBlock n)) \/ (n = len bs /\ Pipe.write bs p = (p', Written n))).
Proof.
  intros Hb Hc. unfold Pipe.write. destruct (read_closed p); [by left|]. right. destruct bs as [|b bs]; [done|]. set (l := b :: bs) in *.
  assert (Hl : 0 < len l) by (unfold len, l; cbn; lia). destruct (Z.eqb_spec (sat_sub (capacity p) (len (data p))) 0) as [Ha|Ha].
  - left. split_and!; [done| |done]. intros Hd. rewrite Hd in Ha. unfold sat_sub in Ha. change (len []) with 0 in Ha. lia.
  - right. exists (Z.min (len l) (sat_sub (capacity p) (len (data p)))). unfold sat_sub in *. split; [lia|]. split; [done|].
    destruct (Z.ltb_spec (Z.min (len l) (Z.max 0 (capacity p - len (data p)))) (len l)); [by left|right]. split; [lia|done].
Qed.

Lemma pipe_got_nil p : pipe_got p p [].
Proof. unfold pipe_got. by rewrite app_nil_r. Qed.

Lemma pipe_got_write p w : pipe_got p (Pipe.set_data (data p ++ w) p) w.
Proof. done. Qed.

(** ** What a poll does *)

Section poll_correct.
Context {P Rt : Type}.
(** What is left to write, given the process, its input pipe and what will still
    be written to that. *)
Context (live : P -> PipeBuffer -> list Ascii.ascii -> list Ascii.ascii -> Prop).

(** [s'] has written [w] of [out] and keeps [rest]; [r] is the answer. *)
Definition polled (future out : str) (s s' : PollState P Rt) (w rest : str) (r : PipeProcessPoll) : Prop :=
  write_closed (input s') = write_closed (input s) /\ capacity (input s') = capacity (input s) /\
  (read_closed (input s) = true -> read_closed (input s') = true) /\
  data (output s') = data (output s) ++ w /\ read_closed (output s') = read_closed (output s) /\ capacity (output s') = capacity (output s) /\
  match r with
  | Ready => live (process s') (input s') future rest /\ out = w ++ rest /\ w <> [] /\ write_closed (output s') = write_closed (output s)
  | PendingRead => live (process s') (input s') future rest /\ out = rest /\ w = [] /\ starved (input s') /\ write_closed (output s') = write_closed (output s)
  | PendingWrite => live (process s') (input s') future rest /\ out = rest /\ w = [] /\ data (output s) <> [] /\ read_closed (output s) = false /\ write_closed (output s') = write_closed (output s)
  | Exited => (out = w \/ (read_closed (output s) = true /\ w = [])) /\ rest = [] /\ read_closed (input s') = true /\ write_closed (output s') = true
  end.

Definition poll_result (future out : str) (s s' : PollState P Rt) (x : res io_stop PipeProcessPoll) : Prop :=
  exists r w rest, x = Ok r /\ polled future out s s' w rest r.

(** The contract of a kind of process. *)
Definition poll_correct (m : nat -> comp (PollState P Rt) io_stop PipeProcessPoll) : Prop :=
  forall s future out, live (process s) (input s) future out -> (write_closed (input s) = true -> future = []) ->
  1 <= capacity (output s) -> runs_to m s (fun s' x => poll_result future out s s' x).
End poll_correct.

(** ** PipeReadProcess and TeePipeProcess *)

Section read_process.
Context `{Target} `{Unicode} `{PosixRegex} {Rt Src Sink : Type} `{Reader Src} `{Session Rt Src Sink}.
Context (error_text : ErrorKind -> list Ascii.ascii).
Implicit Types (p : PipeReadProcess Src Sink) (s : PollState (PipeReadProcess Src Sink) Rt).

(** A source never blocks; a stage keeps its contract over a pipe that delivers
    [inp]. *)
Definition delivers (b : BoxedReader Src) (inp bs : str) (e : ending) : Prop :=
  match b with
  | FromSource s => exists S, closed S (fun _ => False) /\ S s bs e
  | FromPipe t => exists Hold S, family_closed stage_inner Hold /\ family_stable stage_inner set_stage_inner Hold /\ Hold S t bs e /\
      forall b e', S (stage_inner t) b e' -> b = inp /\ e' = Eof
  end.

Definition from_source (b : BoxedReader Src) : bool := match b with FromSource _ => true | FromPipe _ => false end.

Definition unsent p : str := drop (pending_offset p) (pending p).
Definition rest_stderr p : str := if pipe_stderr p then drop (stderr_offset p) (rp_stderr p) else [].
Definition failure_text p (k : ErrorKind) : str := #"wasmsh: " ++ label p ++ #": streaming pipeline read error: " ++ error_text k ++ [newline].
Definition failure p (e : ending) : str := if pipe_stderr p then match e with Fails k => failure_text p k | Eof => [] end else [].

(** What the reader has still to deliver. *)
Definition read_more p (inp : PipeBuffer) (future more : str) : Prop := exists b, reader p = Some b /\ read_closed inp = from_source b /\
  if reader_done p then more = [] else exists bs e, delivers b (data inp ++ future) bs e /\ more = bs ++ failure p e.

(** A tee whose standard error goes to the pipe is left out: its output depends
    on the targets. *)
Definition read_ok p : Prop := rp_finished p = false /\ (pending_offset p <= length (pending p))%nat /\ (stderr_offset p <= length (rp_stderr p))%nat /\ (pipe_stderr p = true -> tee_targets p = None).

Definition read_live p (inp : PipeBuffer) (future out : str) : Prop :=
  read_ok p /\ exists more, read_more p inp future more /\ out = unsent p ++ rest_stderr p ++ more.

Lemma delivers_stable b inp inp' bs e : delivers b inp bs e -> inp = inp' -> delivers b inp' bs e.
Proof. by intros Hd <-. Qed.

Lemma read_live_stable p inp inp' future future' out : read_live p inp future out -> read_closed inp' = read_closed inp ->
  (read_closed inp = false -> data inp' ++ future' = data inp ++ future) -> read_live p inp' future' out.
Proof.
  unfold read_live, read_more. intros Hl Hc Hd. rewrite Hc. destruct Hl as (Hok & more & (b & Hb & Hs & Hm) & ->).
  split; [done|]. exists more. split; [|done]. exists b. split_and!; [done|done|]. destruct (reader_done p); [done|]. destruct Hm as (bs & e & Hdel & ->).
  exists bs, e. split; [|done]. destruct b as [s|t]; [done|]. rewrite Hd by done. done.
Qed.

(** The parts of a process that a report changes. *)
Definition reported p p' : Prop := reader p' = reader p /\ pending p' = pending p /\ pending_offset p' = pending_offset p /\ stderr_offset p' = stderr_offset p /\
  rp_finished p' = rp_finished p /\ label p' = label p /\ pipe_stderr p' = pipe_stderr p /\ reader_done p' = reader_done p /\ tee_targets p' = tee_targets p /\
  (length (rp_stderr p) <= length (rp_stderr p'))%nat /\ (tee_targets p = None -> rp_stderr p' = rp_stderr p).

Lemma reported_refl p : reported p p.
Proof. by split_and!. Qed.

Lemma write_targets_loop_spec chunk ts (s : PollState (PipeReadProcess Src Sink) Rt) : tee_targets (process s) <> None \/ ts = [] ->
  exists s', write_targets_loop chunk ts s = (s', Ok tt) /\ input s' = input s /\ output s' = output s /\ reported (process s) (process s').
Proof.
  intros Hs. induction ts as [|t ts IH] in s, Hs |- *; [by exists s|]. cbn [write_targets_loop]. unfold mbind, comp_bind. destruct Hs as [Hs|]; [|done].
  destruct (sink_write (sink t) chunk (runtime s)) as [rt [err|]].
  - set (s1 := set_process _ _). destruct (IH s1) as (s' & -> & Hi & Ho & Hr); [by left|]. exists s'. split_and!; [done..|].
    unfold reported in *. subst s1. cbn in Hr. destruct Hr as (? & ? & ? & ? & ? & ? & ? & ? & ? & Hl & _). rewrite length_app in Hl. split_and!; [done..|lia|done].
  - destruct (IH (set_runtime rt s)) as (s' & -> & Hi & Ho & Hr); [by left|]. by exists s'.
Qed.

Lemma write_targets_spec chunk (s : PollState (PipeReadProcess Src Sink) Rt) :
  exists s', write_targets chunk s = (s', Ok tt) /\ input s' = input s /\ output s' = output s /\ reported (process s) (process s').
Proof.
  unfold write_targets, mbind, comp_bind, get. apply write_targets_loop_spec. destruct (tee_targets (process s)); [by left|by right].
Qed.

Lemma more_reported p p' inp future more : reader p' = reader p -> reader_done p' = reader_done p -> label p' = label p -> pipe_stderr p' = pipe_stderr p ->
  read_more p inp future more -> read_more p' inp future more.
Proof. unfold read_more, failure, failure_text. by intros -> -> -> ->. Qed.

Lemma stderr_reported p p' : read_ok p -> reported p p' -> rest_stderr p' = rest_stderr p.
Proof.
  intros (_ & _ & Ho & Ht) (_ & _ & _ & Hs & _ & _ & Hp & _ & _ & _ & He). unfold rest_stderr. rewrite Hp, Hs. destruct (pipe_stderr p); [|done]. by rewrite He by auto.
Qed.

(** *** Leaving *)

Lemma read_finish_spec s future out more : read_ok (process s) -> read_more (process s) (input s) future more ->
  exists s', read_finish s = (s', Ok Exited) /\ (out = [] \/ read_closed (output s) = true -> polled read_live future out s s' [] [] Exited).
Proof.
  intros Hok (b & Hb & Hc & _). eexists. split; [done|]. intros Hout. unfold read_finish. rewrite Hb. unfold polled. cbn. rewrite app_nil_r.
  assert (read_closed (drop_reader b (input s)) = true) by (destruct b; done).
  split_and!; try done; try (by destruct b). by destruct Hout as [->|?]; [left|right].
Qed.

(** *** Pending output *)

Lemma drop_all {A} n (l : list A) : drop n l = [] <-> (length l <= n)%nat.
Proof. split; [|apply drop_ge]. intros Hd%(f_equal length). rewrite length_drop in Hd. cbn in Hd. lia. Qed.

(** The process after [n] bytes of the pending ones went to the pipe. *)
Lemma sent_live p p1 p' n inp future more : read_ok p -> (n <= length (unsent p))%nat -> read_more p inp future more -> reported p p1 ->
  (p' = set_buffer p1 (pending p1) (pending_offset p1 + n) \/ (p' = set_buffer p1 [] 0 /\ (length (pending p) <= pending_offset p + n)%nat)) ->
  read_live p' inp future (drop n (unsent p) ++ rest_stderr p ++ more).
Proof.
  intros Hok Hn Hm Hr Hp'. unfold unsent in Hn. rewrite length_drop in Hn. pose proof (stderr_reported _ _ Hok Hr) as Hse. destruct Hr as (Hrd & Hpe & Hpo & Hso & Hf & Hlab & Hps & Hdo & Htt & Hle & _).
  destruct Hok as (Hnf & Hpo' & Hlen & Htee). unfold read_live.
  split.
  - unfold read_ok. destruct Hp' as [-> | [-> _]]; cbn; rewrite ?Hpe, ?Hpo, ?Hf, Hso, Hps, Htt; split_and!; try done; lia.
  - exists more. split.
    + apply (more_reported p); [destruct Hp' as [-> | [-> _]]; done..|done].
    + rewrite <-Hse. unfold unsent. rewrite drop_drop. destruct Hp' as [-> | [-> Hge]]; cbn [set_buffer pending pending_offset]; rewrite ?Hpe, ?Hpo; [done|].
      rewrite (drop_ge (pending p)) by lia. done.
Qed.

Lemma drain_pending_spec s future out : read_live (process s) (input s) future out -> 1 <= capacity (output s) ->
  unsent (process s) <> [] -> exists s' r w rest, read_drain_pending s = (s', Ok (Some r)) /\ polled read_live future out s s' w rest r.
Proof.
  intros Hlive Hcap Hun. pose proof Hlive as Hlive0. unfold read_live in Hlive. destruct Hlive as (Hok & more & Hm & Hout).
  unfold read_drain_pending, mbind, comp_bind, get. rewrite (proj2 (Nat.leb_gt _ _)) by (destruct (Nat.le_gt_cases (length (pending (process s))) (pending_offset (process s))) as [Hle|]; [apply drop_all in Hle; done|done]).
  unfold write_output. fold (unsent (process s)). destruct (pipe_write_cases (unsent (process s)) (output s) Hun Hcap) as [[Hrc ->]|[(Hrc & Hd & ->)|(n & Hn & Hrc & Hw)]].
  - destruct (read_finish_spec (set_output_pipe (output s) s) future out more Hok Hm) as (s' & Hf & Hp). rewrite Hf. unfold mret, comp_ret. exists s', Exited, [], []. split; [done|]. apply Hp. by right.
  - eexists _, PendingWrite, [], out. split; [done|]. unfold polled. cbn. rewrite app_nil_r. by split_and!.
  - cbv zeta in Hw. destruct (write_targets_spec (take (Z.to_nat n) (unsent (process s))) (set_output_pipe (Pipe.set_data (data (output s) ++ take (Z.to_nat n) (unsent (process s))) (output s)) s)) as (s2 & Hwt & Hi & Ho & Hrep).
    cbn [process set_output_pipe] in Hrep. cbn [input output set_output_pipe] in Hi, Ho.
    assert (Hsplit : out = take (Z.to_nat n) (unsent (process s)) ++ drop (Z.to_nat n) (unsent (process s)) ++ rest_stderr (process s) ++ more) by (rewrite app_assoc, take_drop; done).
    assert (Hne : take (Z.to_nat n) (unsent (process s)) <> []).
    { destruct (unsent (process s)); [done|]. by destruct (Z.to_nat n) eqn:?; [lia|]. }
    assert (Hpoll : forall p', (p' = set_buffer (process s2) (pending (process s2)) (pending_offset (process s2) + Z.to_nat n) \/
      (p' = set_buffer (process s2) [] 0 /\ (length (pending (process s)) <= pending_offset (process s) + Z.to_nat n)%nat)) ->
      polled read_live future out s (set_process p' s2) (take (Z.to_nat n) (unsent (process s))) (drop (Z.to_nat n) (unsent (process s)) ++ rest_stderr (process s) ++ more) Ready).
    { intros p' Hp'. unfold polled. cbn. rewrite Hi, Ho. cbn. split_and!; try done. apply (sent_live (process s) (process s2)); try done. unfold len in Hn. lia. }
    destruct Hw as [[Hlt ->]|[-> ->]].
    + destruct n as [|n|n]; [lia| |lia]. rewrite Hwt. eexists _, Ready, _, _. split; [done|]. apply Hpoll. by left.
    + rewrite Hwt. eexists _, Ready, _, _. split; [done|]. apply Hpoll.
      destruct Hrep as (_ & Hpe & Hpo & _). rewrite Hpe, Hpo. destruct (Nat.eqb_spec (pending_offset (process s) + Z.to_nat (len (unsent (process s)))) (length (pending (process s)))); [right; split; [done|lia]|by left].
Qed.
(** *** Standard error on the pipe *)

Lemma drain_nothing s : unsent (process s) = [] -> read_drain_pending s = (s, Ok None).
Proof. intros Hu%drop_all. unfold read_drain_pending, mbind, comp_bind, get. by rewrite (proj2 (Nat.leb_le _ _)) by done. Qed.

Lemma stderr_nothing s : rest_stderr (process s) = [] -> poll_stderr s = (s, Ok None).
Proof.
  unfold rest_stderr, poll_stderr, mbind, comp_bind, get. destruct (pipe_stderr (process s)); [|done]. intros Hu%drop_all. cbn [negb].
  by rewrite (proj2 (Nat.leb_le _ _)) by done.
Qed.

Lemma poll_stderr_spec s future out : read_live (process s) (input s) future out -> 1 <= capacity (output s) ->
  unsent (process s) = [] -> rest_stderr (process s) <> [] ->
  exists s' r w rest, poll_stderr s = (s', Ok (Some r)) /\ polled read_live future out s s' w rest r.
Proof.
  intros Hlive Hcap Hun Hre. pose proof Hlive as Hlive0. unfold read_live in Hlive. destruct Hlive as (Hok & more & Hm & Hout).
  rewrite Hun in Hout. cbn [app] in Hout. pose proof Hre as Hre0. unfold rest_stderr in Hre. destruct (pipe_stderr (process s)) eqn:Hps; [|done].
  unfold poll_stderr, mbind, comp_bind, get. rewrite Hps. cbn [negb].
  rewrite (proj2 (Nat.leb_gt _ _)) by (destruct (Nat.le_gt_cases (length (rp_stderr (process s))) (stderr_offset (process s))) as [Hle|]; [apply drop_all in Hle; done|done]).
  assert (Hrest : rest_stderr (process s) = drop (stderr_offset (process s)) (rp_stderr (process s))) by (unfold rest_stderr; by rewrite Hps).
  unfold write_output. rewrite <-Hrest. destruct (pipe_write_cases (rest_stderr (process s)) (output s) Hre0 Hcap) as [[Hrc ->]|[(Hrc & Hd & ->)|(n & Hn & Hrc & Hw)]].
  - destruct (read_finish_spec (set_output_pipe (output s) s) future out more Hok Hm) as (s' & Hf & Hp). rewrite Hf. unfold mret, comp_ret. exists s', Exited, [], []. split; [done|]. apply Hp. by right.
  - eexists _, PendingWrite, [], out. split; [done|]. unfold polled. cbn. rewrite app_nil_r. by split_and!.
  - cbv zeta in Hw. assert (Hlive' : read_live (advance_stderr (Z.to_nat n) (process s)) (input s) future (drop (Z.to_nat n) (rest_stderr (process s)) ++ more)).
    { unfold read_live. destruct Hok as (Hnf & Hpo & Hlen & Htee). split.
      - split_and!; [done|done| |done]. cbn [advance_stderr stderr_offset rp_stderr]. assert (length (rest_stderr (process s)) = (length (rp_stderr (process s)) - stderr_offset (process s))%nat) by (by rewrite Hrest, length_drop).
        unfold len in Hn. lia.
      - exists more. split; [by apply (more_reported (process s))|]. unfold unsent in *. cbn [advance_stderr pending pending_offset]. rewrite Hun. cbn [app]. f_equal.
        unfold rest_stderr. cbn [advance_stderr pipe_stderr stderr_offset rp_stderr]. rewrite Hps. by rewrite drop_drop. }
    assert (Hne : take (Z.to_nat n) (rest_stderr (process s)) <> []).
    { destruct (rest_stderr (process s)); [done|]. by destruct (Z.to_nat n) eqn:?; [lia|]. }
    assert (Hpos : (0 <? n) = true) by lia.
    destruct Hw as [[_ ->]|[_ ->]]; rewrite Hpos; eexists _, Ready, (take (Z.to_nat n) (rest_stderr (process s))), _; (split; [done|]);
      unfold polled; cbn; (split_and!; [done|done|done|done|done|done|exact Hlive'| |done|done]); by rewrite Hout, app_assoc, take_drop.
Qed.

(** *** Reading *)

Lemma reader_reply b inp future bs e : delivers b (data inp ++ future) bs e -> (write_closed inp = true -> future = []) ->
  exists b' out, eventually (fun f => read f SCRATCH (plug inp b)) (b', out) /\ same_ends inp (unplug b' inp) /\ from_source b' = from_source b /\
    reply (fun r bs e => delivers r (data (unplug r inp) ++ future) bs e) (fun r => starved (unplug r inp)) bs e SCRATCH b' out.
Proof.
  intros Hd Hw. assert (Hn : (0 < SCRATCH)%nat) by (unfold SCRATCH; lia). destruct b as [t|t]; cbn [delivers plug] in *.
  - destruct Hd as (S & HS & Hs). destruct (HS _ _ _ _ Hs Hn) as (t' & out & Hev & Hrep). exists (FromSource t'), out. split_and!.
    + by apply (eventually_map _ (fun '(t', x) => (FromSource t', x)) _ Hev).
    + done.
    + done.
    + eapply reply_map; [| |exact Hrep]; [|done]. intros b e' Hb. by exists S.
  - destruct Hd as (Hold & S & Hc & Hst & Hs & Hview).
    assert (Hs' : Hold (pipe_serves future) (set_stage_inner (PipeReader_new inp) t) bs e).
    { apply (Hst S); [done|]. intros b e' Hb. destruct (Hview _ _ Hb) as [-> ->]. by split_and!. }
    destruct (Hc _ _ (pipe_closed future) _ _ _ _ Hs' Hn) as (t' & out & Hev & Hrep). exists (FromPipe t'), out. split_and!.
    + by apply (eventually_map _ (fun '(t', x) => (FromPipe t', x)) _ Hev).
    + destruct Hev as [f0 Hev]. cbn [unplug]. pose proof (stage_frame (fun r => same_ends inp (reader_pipe r)) (fun f n r => pipe_reader_frame inp f n r)
        f0 SCRATCH (set_stage_inner (PipeReader_new inp) t)) as Hframe. rewrite Hev in Hframe by done. apply Hframe. by destruct t.
    + done.
    + eapply reply_map; [| |exact Hrep]; [|done]. intros b e' Hb. exists Hold, (pipe_serves future). split_and!; [done..|].
      intros b2 e2 (-> & _ & ->). done.
Qed.

(** After reading: wait, or something to do that needs no reading. *)
Definition filled (future out : str) s s' (x : res io_stop (option PipeProcessPoll)) : Prop :=
  same_ends (input s) (input s') /\ output s' = output s /\ read_live (process s') (input s') future out /\
  ((x = Ok (Some PendingRead) /\ starved (input s')) \/ (x = Ok None /\ (unsent (process s') <> [] \/ reader_done (process s') = true))).

Lemma read_fill_spec s future out : read_live (process s) (input s) future out -> (write_closed (input s) = true -> future = []) ->
  unsent (process s) = [] -> rest_stderr (process s) = [] -> reader_done (process s) = false ->
  runs_to (read_fill_from_reader error_text) s (fun s' x => filled future out s s' x).
Proof.
  intros Hlive Hw Hun Hre Hnd. unfold read_live in Hlive. destruct Hlive as ((Hnf & Hpo & Hlen & Htee) & more & (b & Hb & Hrc & Hm) & Hout).
  rewrite Hnd in Hm. destruct Hm as (bs & e & Hdel & ->). rewrite Hun, Hre in Hout. cbn [app] in Hout.
  destruct (reader_reply b (input s) future bs e Hdel Hw) as (b' & x & Hev & Hends & Hsrc & Hrep).
  assert (Hlive : forall p' bs' e', read_ok p' -> reader p' = Some b' -> reader_done p' = false -> label p' = label (process s) ->
    pipe_stderr p' = pipe_stderr (process s) -> delivers b' (data (unplug b' (input s)) ++ future) bs' e' -> unsent p' ++ rest_stderr p' ++ bs' ++ failure (process s) e' = out ->
    read_live p' (unplug b' (input s)) future out).
  { intros p' bs' e' Hok Hr Hd Hlab Hps Hdel' Heq. unfold read_live. split; [done|]. exists (bs' ++ failure (process s) e'). split; [|done].
    exists b'. destruct Hends as (_ & Hrc' & _). split_and!; [done|congruence|]. rewrite Hd. exists bs', e'. split; [done|]. unfold failure, failure_text. by rewrite Hlab, Hps. }
  assert (Hdone : forall p', read_ok p' -> reader p' = Some b' -> reader_done p' = true -> unsent p' ++ rest_stderr p' = out ->
    read_live p' (unplug b' (input s)) future out).
  { intros p' Hok Hr Hd Heq. unfold read_live. split; [done|]. exists []. rewrite app_nil_r. split; [|done].
    exists b'. destruct Hends as (_ & Hrc' & _). split_and!; [done|congruence|]. by rewrite Hd. }
  assert (Hfail : forall k, bs = [] -> e = Fails k -> let p' := report (failure_text (process s) k) (set_reader (process s) b' true) in
    read_live p' (unplug b' (input s)) future out).
  { intros k -> -> p'. apply Hdone; try done.
    - unfold read_ok, p'. cbn. rewrite length_app. split_and!; [done|done|lia|done].
    - subst p'. unfold unsent, rest_stderr in *. cbn. rewrite Hun, Hout. unfold failure. cbn [app]. destruct (pipe_stderr (process s)); [|done].
      rewrite drop_app_le by done. rewrite Hre. done. }
  assert (Hok' : forall b' d, read_ok (set_reader (process s) b' d)) by (intros; by split_and!).
  destruct Hev as [f0 Hev]. unfold runs_to, filled.
  destruct x as [[|c cs]|[[| |code]|]|w]; cbn [reply] in Hrep; try done;
    (eexists _, _; split; [exists f0; intros f Hle; unfold read_fill_from_reader; rewrite Hb, Hev by done; reflexivity|]);
    (split; [exact Hends|]; split; [done|]); cbn [set_process set_input_pipe process input].
  - destruct Hrep as (-> & -> & _). split; [|right; split; [done|by right]]. apply Hdone; try done.
    unfold unsent, rest_stderr, failure in *. cbn. rewrite Hun, Hre, Hout. by destruct (pipe_stderr (process s)).
  - destruct Hrep as (_ & rest & -> & Hdel'). assert (Hun' : drop (pending_offset (process s)) (pending (process s) ++ c :: cs) = c :: cs).
    { rewrite drop_app_le by done. unfold unsent in Hun. by rewrite Hun. }
    split; [|right; split; [done|left; unfold unsent; cbn; by rewrite Hun']]. apply (Hlive _ rest e); try done.
    + split_and!; [done|cbn; rewrite length_app; lia|done|done].
    + unfold unsent, rest_stderr in *. cbn [set_buffer set_reader pending pending_offset pipe_stderr stderr_offset rp_stderr]. rewrite Hun', Hre, Hout. by rewrite <-app_assoc.
  - destruct Hrep as [Hdel' Hst]. split; [|left; done]. apply (Hlive _ bs e); try done. unfold unsent, rest_stderr in *. cbn. by rewrite Hun, Hre.
  - destruct Hrep as (-> & -> & _). split; [by apply Hfail|right; split; [done|by right]].
  - destruct Hrep as (-> & -> & _). split; [by apply Hfail|right; split; [done|by right]].
Qed.
(** *** A whole poll *)

Lemma polled_after (live : PipeReadProcess Src Sink -> PipeBuffer -> str -> str -> Prop) future out s s1 s' w rest r : same_ends (input s) (input s1) -> output s1 = output s ->
  polled live future out s1 s' w rest r -> polled live future out s s' w rest r.
Proof. unfold polled, same_ends. intros (Hw & Hr & Hc) Ho (Hw' & Hc' & Hr' & Hp). rewrite Ho in Hp. split; [congruence|]. split; [congruence|]. split; [by intros Hx; apply Hr'; rewrite Hr|exact Hp]. Qed.

(** A poll that need not read. *)
Lemma settled_poll s future out : read_live (process s) (input s) future out -> 1 <= capacity (output s) ->
  unsent (process s) <> [] \/ rest_stderr (process s) <> [] \/ reader_done (process s) = true ->
  exists s' x, (forall f, read_poll_loop error_text (Datatypes.S f) s = (s', x)) /\ poll_result read_live future out s s' x.
Proof.
  intros Hlive Hcap Hnow. destruct (decide (unsent (process s) = [])) as [Hun|Hun].
  2: { destruct (drain_pending_spec s future out Hlive Hcap Hun) as (s' & r & w & rest & Hd & Hp). exists s', (Ok r). split; [|by exists r, w, rest].
       intros f. cbn [read_poll_loop]. unfold mbind, comp_bind. by rewrite Hd. }
  destruct (decide (rest_stderr (process s) = [])) as [Hre|Hre].
  2: { destruct (poll_stderr_spec s future out Hlive Hcap Hun Hre) as (s' & r & w & rest & Hd & Hp). exists s', (Ok r). split; [|by exists r, w, rest].
       intros f. cbn [read_poll_loop]. unfold mbind, comp_bind. by rewrite (drain_nothing s Hun), Hd. }
  destruct Hnow as [?|[?|Hdone]]; [done..|]. unfold read_live in Hlive. destruct Hlive as (Hok & more & Hm & Hout).
  destruct (read_finish_spec s future out more Hok Hm) as (s' & Hf & Hp). exists s', (Ok Exited). split.
  - intros f. cbn [read_poll_loop]. unfold mbind, comp_bind, get. by rewrite (drain_nothing s Hun), (stderr_nothing s Hre), Hdone.
  - exists Exited, [], []. split; [done|]. apply Hp. left. destruct Hm as (b & _ & _ & Hm). rewrite Hdone in Hm. subst more. by rewrite Hout, Hun, Hre.
Qed.

Lemma read_poll_correct : poll_correct read_live (read_poll error_text).
Proof.
  intros s future out Hlive Hw Hcap. pose proof Hlive as ((Hnf & _) & _). unfold runs_to, read_poll, mbind, comp_bind, get. rewrite Hnf.
  destruct (decide (unsent (process s) <> [] \/ rest_stderr (process s) <> [] \/ reader_done (process s) = true)) as [Hnow|Hnow].
  { destruct (settled_poll s future out Hlive Hcap Hnow) as (s' & x & Hx & Hp). exists s', x. split; [|done]. apply eventually_S, eventually_now. exact Hx. }
  assert (Hun : unsent (process s) = []) by (destruct (decide (unsent (process s) = [])); [done|tauto]).
  assert (Hre : rest_stderr (process s) = []) by (destruct (decide (rest_stderr (process s) = [])); [done|tauto]).
  assert (Hnd : reader_done (process s) = false) by (destruct (reader_done (process s)); tauto).
  destruct (read_fill_spec s future out Hlive Hw Hun Hre Hnd) as (s1 & x & [f0 Hfill] & Hends & Ho & Hlive1 & Hx).
  assert (Hgo : forall f, (f0 <= f)%nat -> read_poll_loop error_text (Datatypes.S f) s = match x with
    | Ok (Some r) => (s1, Ok r) | Ok None => read_poll_loop error_text f s1 | Err e => (s1, Err e) | Panic w => (s1, Panic w) end).
  { intros f Hle. cbn [read_poll_loop]. unfold mbind, comp_bind, get. rewrite (drain_nothing s Hun), (stderr_nothing s Hre), Hnd, Hfill by done. by destruct x as [[r|]|e|w]. }
  destruct Hx as [[-> Hst]|[-> Hnow1]].
  - exists s1, (Ok PendingRead). split; [exists (Datatypes.S f0); intros [|f] Hle; [lia|]; apply Hgo; lia|]. exists PendingRead, [], out. split; [done|].
    unfold polled. rewrite Ho, app_nil_r. destruct Hends as (? & Hr & ?). by split_and!; rewrite ?Hr.
  - destruct (settled_poll s1 future out Hlive1) as (s' & y & Hy & r & w & rest & -> & Hp); [by rewrite Ho|tauto|]. exists s', (Ok r). split.
    + exists (Datatypes.S (Datatypes.S f0)). intros [|[|f]] Hle; [lia..|]. rewrite Hgo by lia. apply Hy.
    + exists r, w, rest. split; [done|]. by apply (polled_after _ _ _ s s1).
Qed.
End read_process.

(** ** HeadPipeProcess *)

Section head_process.
Context {Rt : Type}.
Implicit Types (p : HeadPipeProcess) (s : PollState HeadPipeProcess Rt).

Definition head_unsent p : str := drop (hp_offset p) (hp_pending p).

(** What is taken of the input: at least one byte, or one line. *)
Definition head_takes p (inp : str) : str :=
  match hp_mode p with
  | HeadBytes k => take (Z.to_nat (Z.max 1 k)) inp
  | HeadLines limit => take_lines (Z.max 1 (limit - hp_lines_seen p)) inp
  end.

Definition head_live p (inp : PipeBuffer) (future out : str) : Prop :=
  hp_finished p = false /\ (hp_offset p <= length (hp_pending p))%nat /\ input_closed p = stream_complete p /\ read_closed inp = stream_complete p /\
    out = head_unsent p ++ if stream_complete p then [] else head_takes p (data inp ++ future).

Lemma head_live_stable p inp inp' future future' out : head_live p inp future out -> read_closed inp' = read_closed inp ->
  (read_closed inp = false -> data inp' ++ future' = data inp ++ future) -> head_live p inp' future' out.
Proof.
  unfold head_live. intros Hl -> Hd. destruct Hl as (Hnf & Ho & Hi & Hc & ->). split_and!; [done..|]. rewrite Hc in Hd.
  destruct (stream_complete p); [done|]. by rewrite Hd.
Qed.

(** Leaving, from a state whose output pipe got [w] in this poll. *)
Lemma head_finish_spec s s1 future out w : hp_finished (process s1) = false -> input s1 = input s -> read_closed (input s) = input_closed (process s1) ->
  pipe_got (output s) (output s1) w -> (out = w \/ (read_closed (output s) = true /\ w = [])) ->
  exists s', head_finish s1 = (s', Ok Exited) /\ polled head_live future out s s' w [] Exited.
Proof.
  intros Hnf Hi Hc (Hd & Hw & Hr & Hcap) Hout. unfold head_finish, mbind, comp_bind, close_input, modify, on_process.
  destruct (input_closed (process s1)) eqn:Hic; (eexists; split; [done|]); unfold polled, head_live; cbn; rewrite ?Hi; by split_and!.
Qed.

Lemma flush_spec s future out : head_live (process s) (input s) future out -> 1 <= capacity (output s) ->
  head_unsent (process s) <> [] -> exists s' r w rest, try_flush_pending s = (s', Ok (Some r)) /\ polled head_live future out s s' w rest r.
Proof.
  intros Hlive Hcap Hun. pose proof Hlive as Hlive0. unfold head_live in Hlive. destruct Hlive as (Hnf & Hoff & Hic & Hrc & Hout).
  unfold try_flush_pending, mbind, comp_bind, get. rewrite (proj2 (Nat.leb_gt _ _)) by (destruct (Nat.le_gt_cases (length (hp_pending (process s))) (hp_offset (process s))) as [Hle|]; [apply drop_all in Hle; done|done]).
  unfold write_output. fold (head_unsent (process s)). set (later := if stream_complete (process s) then [] else head_takes (process s) (data (input s) ++ future)) in *.
  assert (Hlen : length (head_unsent (process s)) = (length (hp_pending (process s)) - hp_offset (process s))%nat) by apply length_drop.
  destruct (pipe_write_cases (head_unsent (process s)) (output s) Hun Hcap) as [[Hbc ->]|[(Hbc & Hd & ->)|(n & Hn & Hbc & Hw)]].
  - destruct (head_finish_spec s (set_output_pipe (output s) s) future out []) as (s' & Hf & Hp); [done|done|cbn; congruence|apply pipe_got_nil|by right|].
    rewrite Hf. unfold mret, comp_ret. exists s', Exited, [], []. by split.
  - eexists _, PendingWrite, [], out. split; [done|]. unfold polled. cbn. rewrite app_nil_r. by split_and!.
  - cbv zeta in Hw. unfold len in Hn. destruct Hw as [[Hlt ->]|[-> ->]].
    + assert (Hne : take (Z.to_nat n) (head_unsent (process s)) <> []) by (destruct (head_unsent (process s)); [done|]; by destruct (Z.to_nat n) eqn:?; [lia|]).
      destruct n as [|n|n]; [lia| |lia]. eexists _, Ready, (take (Z.to_nat (Z.pos n)) (head_unsent (process s))), (drop (Z.to_nat (Z.pos n)) (head_unsent (process s)) ++ later). split; [done|].
      unfold polled, head_live. cbn. rewrite Hnf. split_and!; try done; [unfold len in Hlt; lia| |by rewrite Hout, app_assoc, take_drop].
      f_equal. unfold head_unsent. cbn. by rewrite drop_drop.
    + assert (Hall : take (Z.to_nat (len (head_unsent (process s)))) (head_unsent (process s)) = head_unsent (process s)) by (rewrite take_ge; [done|unfold len; lia]).
      rewrite Hall. rewrite (proj2 (Nat.eqb_eq _ _)) by (unfold len; lia). unfold on_process, modify. subst later. destruct (stream_complete (process s)) eqn:Hsc.
      * rewrite app_nil_r in Hout.
        edestruct (head_finish_spec s) as (s' & Hf & Hp); [| | | | |rewrite Hf; unfold mret, comp_ret; exists s', Exited, (head_unsent (process s)), []; split; [done|exact Hp]];
          [exact Hnf|done|cbn; congruence|done|by left].
      * eexists _, Ready, (head_unsent (process s)), _. split; [done|]. unfold polled, head_live. cbn. rewrite Hnf, Hsc. by split_and!.
Qed.

(** A poll that need not read. *)
Lemma head_settled s future out : head_live (process s) (input s) future out -> 1 <= capacity (output s) ->
  head_unsent (process s) <> [] \/ stream_complete (process s) = true ->
  exists s' x, (forall f, head_poll_loop (Datatypes.S f) s = (s', x)) /\ poll_result head_live future out s s' x.
Proof.
  intros Hlive Hcap Hnow. destruct (decide (head_unsent (process s) = [])) as [Hun|Hun].
  2: { destruct (flush_spec s future out Hlive Hcap Hun) as (s' & r & w & rest & Hd & Hp). exists s', (Ok r). split; [|by exists r, w, rest].
       intros f. cbn [head_poll_loop]. unfold mbind, comp_bind. by rewrite Hd. }
  destruct Hnow as [?|Hsc]; [done|]. unfold head_live in Hlive. destruct Hlive as (Hnf & Hoff & Hic & Hrc & Hout). rewrite Hun, Hsc in Hout.
  destruct (head_finish_spec s s future out []) as (s' & Hf & Hp); [done|done|congruence|apply pipe_got_nil|by left|]. exists s', (Ok Exited). split; [|by exists Exited, [], []].
  intros f. cbn [head_poll_loop]. unfold mbind, comp_bind, get, try_flush_pending, mbind, comp_bind, get. apply drop_all in Hun. rewrite (proj2 (Nat.leb_le _ _)) by done.
  cbn. by rewrite Hsc.
Qed.
Lemma take_lines_cons k b rest : 1 <= k -> take_lines k (b :: rest) = b :: take_lines (if decide (b = newline) then k - 1 else k) rest.
Proof. intros Hk. cbn [take_lines]. by rewrite (proj2 (Z.leb_gt _ _)) by lia. Qed.

#[local] Arguments take_lines : simpl never.

Lemma take_lines_zero rest : take_lines 0 rest = [].
Proof. by destruct rest. Qed.

(** The process with a byte more pending. *)
Definition head_push (b : byte) p : HeadPipeProcess := set_head_buffer p (hp_pending p ++ [b]) (hp_offset p).

(** One byte of the input: the byte is pending, and the limit goes down. *)
Lemma update_limit_spec s b rest future : hp_finished (process s) = false -> input_closed (process s) = false -> stream_complete (process s) = false ->
  read_closed (input s) = false -> exists s', update_head_limit b 1 s = (s', Ok tt) /\ output s' = output s /\ data (input s') = data (input s) /\
    write_closed (input s') = write_closed (input s) /\ capacity (input s') = capacity (input s) /\ hp_finished (process s') = false /\
    hp_pending (process s') = hp_pending (process s) /\ hp_offset (process s') = hp_offset (process s) /\
    input_closed (process s') = stream_complete (process s') /\ read_closed (input s') = stream_complete (process s') /\
    head_takes (process s) (b :: rest ++ future) = b :: if stream_complete (process s') then [] else head_takes (process s') (rest ++ future).
Proof.
  intros Hnf Hic Hsc Hrc. unfold update_head_limit, mbind, comp_bind, get. destruct (hp_mode (process s)) as [limit|k] eqn:Hm.
  - destruct (decide (b = newline)) as [->|Hb].
    + unfold on_process, modify. destruct (Z.leb_spec limit (hp_lines_seen (process s) + 1)) as [Hle|Hgt].
      * unfold complete_stream, mbind, comp_bind, on_process, modify, close_input, modify. cbn. rewrite Hic. eexists. split; [done|]. cbn. split_and!; try done.
        unfold head_takes. cbn. rewrite Hm, take_lines_cons, decide_True by (lia || done). f_equal. replace (Z.max 1 (limit - hp_lines_seen (process s)) - 1) with 0 by lia. apply take_lines_zero.
      * eexists. split; [done|]. cbn. rewrite Hsc. split_and!; try done. unfold head_takes. cbn. rewrite Hm, take_lines_cons, decide_True by (lia || done).
        f_equal. f_equal. lia.
    + exists s. rewrite Hsc. split_and!; try done. unfold head_takes. rewrite Hm, take_lines_cons, decide_False by (lia || done). done.
  - unfold on_process, modify. destruct (Z.eqb_spec (sat_sub k 1) 0) as [Hz|Hz]; unfold sat_sub in Hz.
    + unfold complete_stream, mbind, comp_bind, on_process, modify, close_input, modify. cbn. rewrite Hic. eexists. split; [done|]. cbn. split_and!; try done.
      unfold head_takes. cbn. rewrite Hm. by replace (Z.to_nat (Z.max 1 k)) with 1%nat by lia.
    + eexists. split; [done|]. cbn. rewrite Hsc. split_and!; try done. unfold head_takes. cbn. rewrite Hm. unfold sat_sub.
      by replace (Z.to_nat (Z.max 1 k)) with (S (Z.to_nat (Z.max 1 (Z.max 0 (k - 1))))) by lia.
Qed.

Lemma read_one_spec s : read_one s = match data (input s) with
  | [] => (s, Ok (if write_closed (input s) then Pipe.Eof else ReadWouldBlock, ["000"%char]))
  | b :: d => (set_input_pipe (Pipe.set_data d (input s)) s, Ok (Read 1, [b]))
  end.
Proof.
  unfold read_one, Pipe.read. destruct s as [p i o rt]. cbn [input]. destruct (data i) as [|b d]; [done|].
  replace (Z.to_nat (Z.min (len ["000"%char]) (len (b :: d)))) with 1%nat by (unfold len; cbn [length]; lia). cbn. repeat f_equal. unfold len. cbn [length]. lia.
Qed.

Lemma head_poll_correct : poll_correct head_live (head_poll (Rt := Rt)).
Proof.
  intros s future out Hlive Hw Hcap. pose proof Hlive as (Hnf & _). unfold runs_to, head_poll, mbind, comp_bind, get. rewrite Hnf.
  destruct (decide (head_unsent (process s) <> [] \/ stream_complete (process s) = true)) as [Hnow|Hnow].
  { destruct (head_settled s future out Hlive Hcap Hnow) as (s' & x & Hx & Hp). exists s', x. split; [|done]. apply eventually_S, eventually_now. exact Hx. }
  assert (Hun : head_unsent (process s) = []) by (destruct (decide (head_unsent (process s) = [])); [done|tauto]).
  assert (Hsc : stream_complete (process s) = false) by (destruct (stream_complete (process s)); tauto).
  unfold head_live in Hlive. rewrite Hun, Hsc in Hlive. destruct Hlive as (_ & Hoff & Hic & Hrc & Hout). cbn [app] in Hout.
  assert (Hflush : try_flush_pending s = (s, Ok None)).
  { apply drop_all in Hun. unfold try_flush_pending, mbind, comp_bind, get. by rewrite (proj2 (Nat.leb_le _ _)) by done. }
  assert (Hread := read_one_spec s). destruct (data (input s)) as [|b d] eqn:Hd; [destruct (write_closed (input s)) eqn:Hwc|].
  - rewrite Hw in Hout by done. assert (out = []) as -> by (rewrite Hout; unfold head_takes; cbn; by destruct (hp_mode (process s)); rewrite ?take_nil).
    edestruct (complete_stream s) as [s1 x1] eqn:Hcs.
    assert (x1 = Ok tt /\ output s1 = output s /\ write_closed (input s1) = true /\ capacity (input s1) = capacity (input s) /\       head_live (process s1) (input s1) future [] /\ stream_complete (process s1) = true) as (-> & Ho & Hwc1 & Hc1 & Hl1 & Hsc1).
    { unfold complete_stream, mbind, comp_bind, on_process, modify, close_input, modify in Hcs. cbn in Hcs. rewrite Hic in Hcs. injection Hcs as <- <-. cbn. split_and!; try done.
      unfold head_live. cbn. rewrite Hnf. split_and!; try done. unfold head_unsent in *. cbn. by rewrite Hun. }
    destruct (head_settled s1 future [] Hl1) as (s' & y & Hy & r & w & rest & -> & Hp); [by rewrite Ho|by right|]. exists s', (Ok r). split.
    + exists 2%nat. intros [|[|f]] Hle; [lia..|]. rewrite <-(Hy f). remember (S f) as g. cbn [head_poll_loop]. unfold mbind, comp_bind, get. rewrite Hflush, Hsc, Hread, Hcs. done.
    + exists r, w, rest. split; [done|]. destruct Hp as (Hp1 & Hp2 & _ & Hp). unfold polled in *. rewrite Ho in Hp. rewrite Hwc1 in Hp1. rewrite Hc1 in Hp2. split; [congruence|]. split; [congruence|]. split; [by rewrite Hrc|exact Hp].
  - exists s, (Ok PendingRead). split.
    + apply eventually_S, eventually_now. intros f. cbn [head_poll_loop]. unfold mbind, comp_bind, get. by rewrite Hflush, Hsc, Hread.
    + exists PendingRead, [], out. split; [done|]. unfold polled, starved, head_live. rewrite app_nil_r, Hnf, Hun, Hsc, Hd. by split_and!.
  - set (s0 := set_process (head_push b (process s)) (set_input_pipe (Pipe.set_data d (input s)) s)).
    destruct (update_limit_spec s0 b d future) as (s1 & Hup & Ho & Hd1 & Hwc1 & Hc1 & Hnf1 & Hp1 & Hoff1 & Hic1 & Hrc1 & Htk); [done|done|done|cbn; congruence|].
    assert (Hun1 : head_unsent (process s1) = [b]).
    { unfold head_unsent in *. rewrite Hp1, Hoff1. subst s0. cbn. rewrite drop_app_le, Hun by done. done. }
    assert (Hl1 : head_live (process s1) (input s1) future out).
    { unfold head_live. split_and!; [done| |done|done|].
      - rewrite Hp1, Hoff1. subst s0. cbn. rewrite length_app. cbn. lia.
      - rewrite Hun1, Hd1, Hout. subst s0. cbn [app data Pipe.set_data set_process set_input_pipe input]. cbn [app] in Htk. rewrite <-Htk. done. }
    destruct (head_settled s1 future out Hl1) as (s' & y & Hy & r & w & rest & -> & Hp); [by rewrite Ho|left; by rewrite Hun1|]. exists s', (Ok r). split.
    + exists 2%nat. intros [|[|f]] Hle; [lia..|]. rewrite <-(Hy f). remember (S f) as g. cbn [head_poll_loop]. unfold mbind, comp_bind, get. rewrite Hflush, Hsc, Hread.
      unfold on_process, modify. cbn [Z.to_nat Pos.to_nat Pos.iter_op take hd process set_process set_input_pipe]. fold s0.
      change (set_process _ _) with s0. by rewrite Hup.
    + exists r, w, rest. split; [done|]. destruct Hp as (Hq1 & Hq2 & _ & Hp). unfold polled in *. rewrite Ho in Hp. rewrite Hwc1 in Hq1. rewrite Hc1 in Hq2. split; [exact Hq1|]. split; [exact Hq2|]. split; [by rewrite Hrc|exact Hp].
Qed.
End head_process.
