(* ===== verification/StreamDrive.v ===== *)
(** * The scheduler of streaming pipelines (crates/wasmsh-runtime/src/lib.rs)

    The processes of a pipeline are polled from the last to the first, round after
    round, and what arrives in the last pipe goes to standard output.  A node is a
    process with its output pipe, from which the next node reads; the first one
    reads no pipe.  [External] and [BufferedCommand] stages run commands through
    the rest of the runtime: a pipeline with one of them has no [setup] here. *)

From S2P Require Import Prelude Strings Pipe Utf8 Stream StreamLines StreamBytes StreamGrep StreamSed StreamArgs StreamStage StreamProcess.

Definition PIPEBUFFER_STREAMING_CAPACITY : Z := 1.
Definition STREAMING_YES_MAX_LINES : Z := 65536.

Record Node (Src Sink : Type) := {
  node : StreamingPipeProcess Src Sink;
  node_finished : bool;
  node_output : PipeBuffer;
}.
Arguments node {Src Sink} _.
Arguments node_finished {Src Sink} _.
Arguments node_output {Src Sink} _.

(** The first process has no input pipe; this one stands for it. *)
Definition no_pipe : PipeBuffer := Pipe.close_read (Pipe.close_write (Pipe.new 0)).

Section nodes.
Context {Src Sink : Type}.

Definition Node_new (p : StreamingPipeProcess Src Sink) : Node Src Sink :=
  {| node := p; node_finished := false; node_output := Pipe.new PIPEBUFFER_STREAMING_CAPACITY |}.

Definition set_node_output (p : PipeBuffer) (n : Node Src Sink) : Node Src Sink :=
  {| node := node n; node_finished := node_finished n; node_output := p |}.

(** The last pipe of a pipeline that reads from [input]. *)
Fixpoint final_pipe (input : PipeBuffer) (ns : list (Node Src Sink)) : PipeBuffer :=
  match ns with
  | [] => input
  | n :: ns' => final_pipe (node_output n) ns'
  end.

Fixpoint set_final_pipe (p : PipeBuffer) (ns : list (Node Src Sink)) : list (Node Src Sink) :=
  match ns with
  | [] => []
  | [n] => [set_node_output p n]
  | n :: ns' => n :: set_final_pipe p ns'
  end.

Definition close_node (n : Node Src Sink) : Node Src Sink :=
  {| node := close (node n); node_finished := node_finished n; node_output := node_output n |}.

Definition all_finished (ns : list (Node Src Sink)) : bool := forallb node_finished ns.

(** The bytes buffered in the output pipes, without those of the source pipe. *)
Definition buffered_pipe_bytes (source_pipes : nat) (ns : list (Node Src Sink)) : Z :=
  fold_right (fun n total => len (data (node_output n)) + total) 0 (drop source_pipes ns).
End nodes.

Section drive.
Context `{Target} `{Unicode} `{PosixRegex} {Rt Src Sink : Type} `{Reader Src} `{Session Rt Src Sink}.
Context (error_text : ErrorKind -> list Ascii.ascii).

(** What [poll_streaming_processes] does with the answer of one process. *)
Definition apply_process_poll_outcome (outcome : PipeProcessPoll) : bool * bool :=
  match outcome with
  | Ready => (false, true)
  | PendingRead | PendingWrite => (false, false)
  | Exited => (true, true)
  end.

Definition poll_node (fuel : nat) (input : PipeBuffer) (n : Node Src Sink) (rt : Rt) : PipeBuffer * Node Src Sink * Rt * res io_stop bool :=
  if node_finished n then (input, n, rt, Ok false)
  else
    let '(s, x) := poll error_text fuel {| process := node n; input := input; output := node_output n; runtime := rt |} in
    let n' finished := {| node := process s; node_finished := finished; node_output := output s |} in
    match x with
    | Ok outcome =>
        let '(finished, progressed) := apply_process_poll_outcome outcome in
        (StreamProcess.input s, n' finished, runtime s, Ok progressed)
    | Err e => (StreamProcess.input s, n' false, runtime s, Err e)
    | Panic w => (StreamProcess.input s, n' false, runtime s, Panic w)
    end.

(** The loop [for idx in (0..processes.len()).rev()]. *)
Fixpoint poll_streaming_processes (fuel : nat) (input : PipeBuffer) (ns : list (Node Src Sink)) (rt : Rt)
    : PipeBuffer * list (Node Src Sink) * Rt * res io_stop bool :=
  match ns with
  | [] => (input, [], rt, Ok false)
  | n :: ns' =>
      match poll_streaming_processes fuel (node_output n) ns' rt with
      | (out, ns'', rt, Ok progressed) =>
          match poll_node fuel input (set_node_output out n) rt with
          | (input, n, rt, Ok progressed') => (input, n :: ns'', rt, Ok (progressed || progressed'))
          | (input, n, rt, x) => (input, n :: ns'', rt, x)
          end
      | (out, ns'', rt, x) => (input, set_node_output out n :: ns'', rt, x)
      end
  end.

(** The pipe, the runtime, whether bytes were read, and whether to stop.  Every
    round reads a byte at least, so as many rounds as bytes are enough. *)
Fixpoint drain_final_loop (rounds : nat) (p : PipeBuffer) (rt : Rt) (progressed : bool) : PipeBuffer * Rt * bool * bool :=
  match rounds with
  | O => (p, rt, progressed, false)
  | S k =>
      match Pipe.read (repeat "000"%char SCRATCH) p with
      | Some (p, buffer, Read n) =>
          let rt := write_stdout (take (Z.to_nat n) buffer) rt in
          if resource_exhausted rt then (Pipe.close_read p, rt, true, true) else drain_final_loop k p rt true
      | _ => (p, rt, progressed, false)
      end
  end.

Definition drain_final_pipe_to_stdout (p : PipeBuffer) (rt : Rt) (progressed : bool) : PipeBuffer * Rt * bool * bool :=
  drain_final_loop (S (length (data p))) p rt progressed.

Fixpoint drive_streaming_pipeline (fuel source_pipes : nat) (ns : list (Node Src Sink)) (rt : Rt) : list (Node Src Sink) * Rt * res io_stop unit :=
  match fuel with
  | O => (ns, rt, Err OutOfFuel)
  | S f =>
      let close_final ns := set_final_pipe (Pipe.close_read (final_pipe no_pipe ns)) ns in
      let '(rt, stop) := check_resource_limits rt in
      if stop then (close_final ns, rt, Ok tt)
      else
        match poll_streaming_processes f no_pipe ns rt with
        | (_, ns, rt, Ok progressed) =>
            let rt := sync_pipe_budget (buffered_pipe_bytes source_pipes ns) rt in
            if resource_exhausted rt then (close_final ns, rt, Ok tt)
            else
              let '(p, rt, progressed, stopped) := drain_final_pipe_to_stdout (final_pipe no_pipe ns) rt progressed in
              let ns := set_final_pipe p ns in
              if stopped then (ns, rt, Ok tt)
              else if resource_exhausted rt || all_finished ns || negb progressed then (ns, rt, Ok tt)
              else drive_streaming_pipeline f source_pipes ns rt
        | (_, ns, rt, Err e) => (ns, rt, Err e)
        | (_, ns, rt, Panic w) => (ns, rt, Panic w)
        end
  end.

(** ** Setting a pipeline up *)

Definition seed_stage_status (stage : StreamingPipelineStage) : Z := match stage with Grep _ => 1 | _ => 0 end.

(** The stages every position treats the same: a tee, or a reader around a pipe. *)
Definition setup_stage (stage : StreamingPipelineStage) (piped : bool) (rt : Rt) : option (Node Src Sink * Rt) :=
  let status := seed_stage_status stage in
  let pipe := PipeReader_new (Pipe.new PIPEBUFFER_STREAMING_CAPACITY) in
  match stage with
  | Tee t => let '(p, rt) := TeePipeProcess_new (FromPipe (CatReader pipe)) t status piped rt in Some (Node_new (TeeProcess p), rt)
  | External _ | BufferedCommand _ => None
  | _ =>
      r ← wrap_non_tee_streaming_stage pipe stage status;
      Some (Node_new (ReadProcess (PipeReadProcess_new (FromPipe r) status #"stage" piped)), rt)
  end.

Definition source_node (src : SourceReader Src) (piped : bool) : Node Src Sink :=
  Node_new (ReadProcess (PipeReadProcess_new (FromSource src) 0 #"source" piped)).

Definition setup_first_with_source (source_reader : Src) (stage : StreamingPipelineStage) (piped : bool) (rt : Rt) : option (list (Node Src Sink) * Rt) :=
  '(n, rt) ← setup_stage stage piped rt;
  Some ([source_node (OtherSource source_reader) false; n], rt).

(** [inl]: the file could not be opened, and the pipeline is over with the status
    of that failure. *)
Definition setup_first_without_source (stage : StreamingPipelineStage) (piped : bool) (rt : Rt) : option (Rt * (Z + list (Node Src Sink))) :=
  match stage with
  | Literal bytes => Some (rt, inr [source_node (LiteralSource {| cursor_data := bytes; cursor_pos := 0 |}) piped])
  | File path =>
      match open_streaming_file_reader path rt with
      | (rt, Some src) => Some (rt, inr [source_node (OtherSource src) piped])
      | (rt, None) => Some (rt, inl (last_status rt))
      end
  | Yes line => Some (rt, inr [source_node (YesSource (YesStreamReader_new line STREAMING_YES_MAX_LINES)) piped])
  | _ => None
  end.

Definition setup_later_streaming_stage (stage : StreamingPipelineStage) (piped : bool) (rt : Rt) : option (Node Src Sink * Rt) :=
  match stage with
  | Head mode => Some (Node_new (HeadProcess (HeadPipeProcess_new mode)), rt)
  | _ => setup_stage stage piped rt
  end.

Fixpoint setup_later (stages : list (StreamingPipelineStage * bool)) (rt : Rt) : option (list (Node Src Sink) * Rt) :=
  match stages with
  | [] => Some ([], rt)
  | (stage, piped) :: stages' =>
      '(n, rt) ← setup_later_streaming_stage stage piped rt;
      '(ns, rt) ← setup_later stages' rt;
      Some (n :: ns, rt)
  end.

Fixpoint drain_streaming_stage_stderr (ns : list (Node Src Sink)) (rt : Rt) : Rt :=
  match ns with
  | [] => rt
  | n :: ns' => drain_streaming_stage_stderr ns' (match process_stderr (node n) with [] => rt | e => write_stderr e rt end)
  end.

(** The stages with their [|&] flags.  The result has the statuses of the stages;
    [None]: a stage is not of this model. *)
Definition execute_pipebuffer_streaming_pipeline (fuel : nat) (source_reader : option Src) (stages : list (StreamingPipelineStage * bool)) (rt : Rt)
    : option (Rt * res io_stop (list Z)) :=
  '(stage, piped) ← head stages;
  '(rt, first) ← match source_reader with
                 | Some src => '(ns, rt) ← setup_first_with_source src stage piped rt; Some (rt, inr ns)
                 | None => setup_first_without_source stage piped rt
                 end;
  match first with
  | inl status => Some (rt, Ok (status :: map (fun s => seed_stage_status (fst s)) (tl stages)))
  | inr first =>
      '(later, rt) ← setup_later (tl stages) rt;
      let source_pipes := match source_reader with Some _ => 1%nat | None => 0%nat end in
      let '(ns, rt, x) := drive_streaming_pipeline fuel source_pipes (first ++ later) rt in
      let stage_nodes := drop source_pipes (map close_node ns) in
      match x with
      | Ok _ => Some (drain_streaming_stage_stderr stage_nodes rt, Ok (map (fun n => process_status (node n)) stage_nodes))
      | Err e => Some (rt, Err e)
      | Panic w => Some (rt, Panic w)
      end
  end.

Definition resolve_pipeline_exit_status (statuses : list Z) (pipefail : bool) : Z :=
  if pipefail then default 0 (head (filter (fun s => s <> 0) (rev statuses)))
  else default 0 (last statuses).
End drive.
