(* ===== verification/StreamDriveProps.v ===== *)
(** * The scheduler: what a pipeline delivers

    [chain inp future ns out m]: the nodes [ns], reading a pipe [inp] whose writer
    still has [future] to write, have [out] left to deliver at their end; [m]
    bounds the rounds that still make progress.  A round keeps [out]
    ([round_correct]), and one without progress leaves every process finished: the
    pipeline never stalls. *)

From S2P Require Import Prelude Strings Pipe Utf8 Stream StreamProps StreamLines StreamBytes StreamBytesProps StreamGrep StreamSed StreamArgs StreamStage StreamStageProps StreamProcess StreamProcessProps StreamDrive.

Section drive.
Context `{Target} `{Unicode} `{PosixRegex} {Rt Src Sink : Type} `{Reader Src} `{Session Rt Src Sink}.
Context (error_text : ErrorKind -> list Ascii.ascii).
Implicit Types (n : Node Src Sink) (ns : list (Node Src Sink)).

Definition process_live (p : StreamingPipeProcess Src Sink) : PipeBuffer -> str -> str -> Prop :=
  match p with
  | ReadProcess p | TeeProcess p => read_live error_text p
  | HeadProcess p => head_live p
  end.

Lemma process_live_stable p inp inp' future future' out : process_live p inp future out -> read_closed inp' = read_closed inp ->
  (read_closed inp = false -> data inp' ++ future' = data inp ++ future) -> process_live p inp' future' out.
Proof. destruct p; [apply read_live_stable|apply head_live_stable|apply read_live_stable]. Qed.

Lemma poll_as_correct {P} (live : P -> PipeBuffer -> str -> str -> Prop) (wrap : P -> StreamingPipeProcess Src Sink) (m : nat -> comp (PollState P Rt) io_stop PipeProcessPoll) :
  (forall p, process_live (wrap p) = live p) -> poll_correct live m ->
  forall p s future out, live p (input s) future out -> (write_closed (input s) = true -> future = []) -> 1 <= capacity (output s) ->
  runs_to (fun f => poll_as wrap (m f) p) s (fun s' x => poll_result process_live future out s s' x).
Proof.
  intros Hw Hm p s future out Hl Hf Hc. destruct (Hm {| process := p; input := input s; output := output s; runtime := runtime s |} future out Hl Hf Hc) as (s' & x & Hev & r & w & rest & -> & Hp).
  exists {| process := wrap (process s'); input := input s'; output := output s'; runtime := runtime s' |}, (Ok r). split.
  - by apply (eventually_map _ (fun sx => let '(s', x) := sx in ({| process := wrap (process s'); input := input s'; output := output s'; runtime := runtime s' |}, x)) _ Hev).
  - exists r, w, rest. split; [done|]. unfold polled in *. cbn in *. rewrite Hw. exact Hp.
Qed.

Lemma poll_sum_correct : poll_correct process_live (poll (Rt := Rt) error_text).
Proof.
  intros s future out Hl Hf Hc. unfold poll, runs_to. destruct (process s) as [p|p|p]; cbn [process_live] in Hl.
  - by apply (poll_as_correct (read_live error_text) ReadProcess (read_poll error_text)); [|apply read_poll_correct|..].
  - by apply (poll_as_correct head_live HeadProcess head_poll); [|apply head_poll_correct|..].
  - by apply (poll_as_correct (read_live error_text) TeeProcess (read_poll error_text)); [|apply read_poll_correct|..].
Qed.

(** ** Chains of nodes *)

Fixpoint chain (inp : PipeBuffer) (future : str) (ns : list (Node Src Sink)) (out : str) (m : nat) : Prop :=
  match ns with
  | [] => out = data inp ++ future /\ m = length out /\ read_closed inp = false
  | n :: ns' => exists later m', 1 <= capacity (node_output n) /\
      (if node_finished n then later = [] /\ read_closed inp = true /\ write_closed (node_output n) = true
       else process_live (node n) inp future later /\ write_closed (node_output n) = false) /\
      m = (length later + (if node_finished n then 0 else 1) + m')%nat /\ chain (node_output n) later ns' out m'
  end.

Lemma chain_stable inp inp' future future' ns out m : chain inp future ns out m -> read_closed inp' = read_closed inp ->
  (read_closed inp = false -> data inp' ++ future' = data inp ++ future) -> chain inp' future' ns out m.
Proof.
  destruct ns as [|n ns]; cbn [chain].
  - intros (-> & -> & Hr) -> Hd. by rewrite Hd.
  - intros (later & m' & Hc & Hn & Hm & Hch) Hr Hd. exists later, m'. split; [done|]. split; [|done]. destruct (node_finished n); [by rewrite Hr|].
    destruct Hn as [Hl Hw]. split; [|done]. by apply (process_live_stable _ inp inp' future).
Qed.

Lemma chain_measure inp future ns out m : chain inp future ns out m -> (length out <= m)%nat.
Proof.
  revert inp future m. induction ns as [|n ns IH]; intros inp future m; cbn [chain]; [by intros (_ & -> & _)|].
  intros (later & m' & _ & _ & -> & Hch). apply IH in Hch. lia.
Qed.

(** What a round without progress says, when the last pipe was empty before it. *)
Definition stuck (inp : PipeBuffer) ns : Prop := (read_closed inp = true \/ data inp = []) /\ (write_closed inp = true -> all_finished ns = true).

(** A round that began with [ns] and left [inp'] and [ns']. *)
Definition round (inp : PipeBuffer) (future : str) ns (out : str) (m : nat) (inp' : PipeBuffer) ns' (progressed : bool) : Prop :=
  write_closed inp' = write_closed inp /\ capacity inp' = capacity inp /\ (read_closed inp = true -> read_closed inp' = true) /\ length ns' = length ns /\
  exists m', chain inp' future ns' out m' /\ (m' <= m)%nat /\ (progressed = true -> (m' < m)%nat) /\
    (progressed = false -> data (final_pipe inp ns) = [] -> stuck inp' ns').

(** A node after its turn, with the nodes behind it already polled. *)
Lemma poll_node_correct inp future n ns out m rt : chain inp future (n :: ns) out m -> (write_closed inp = true -> future = []) ->
  exists inp' n' rt' progressed, eventually (fun f => poll_node error_text f inp n rt) (inp', n', rt', Ok progressed) /\
    write_closed inp' = write_closed inp /\ capacity inp' = capacity inp /\ (read_closed inp = true -> read_closed inp' = true) /\
    exists m', chain inp' future (n' :: ns) out m' /\ (m' <= m)%nat /\ (progressed = true -> (m' < m)%nat) /\
      (progressed = false -> stuck (node_output n) ns -> stuck inp' (n' :: ns)).
Proof.
  intros (later & mt & Hc & Hn & -> & Hch) Hf. destruct (node_finished n) eqn:Hfin.
  { exists inp, n, rt, false. split; [apply eventually_now; intros f; unfold poll_node; by rewrite Hfin|]. split; [done|]. split; [done|]. split; [done|].
    eexists. split; [exists later, mt; rewrite Hfin; split; [done|]; split; [done|]; split; [reflexivity|done]|]. split; [lia|]. split; [done|]. intros _ [_ Hall]. destruct Hn as (_ & Hr & Hw). split; [by left|].
    intros _. unfold all_finished in *. cbn [forallb]. rewrite Hfin, Hall by done. done. }
  destruct Hn as [Hl Hw]. set (s := {| process := node n; input := inp; output := node_output n; runtime := rt |}).
  destruct (poll_sum_correct s future later Hl Hf Hc) as (s' & x & Hev & r & w & rest & -> & Hwi & Hci & Hri' & Hd & Hrc & Hco & Hr).
  set (n' d := {| node := process s'; node_finished := d; node_output := output s' |}).
  exists (input s'), (n' (fst (apply_process_poll_outcome r))), (runtime s'), (snd (apply_process_poll_outcome r)). split.
  { destruct Hev as [f0 Hev]. exists f0. intros f Hle. unfold poll_node. rewrite Hfin. fold s. rewrite Hev by done. by destruct r. }
  split; [done|]. split; [done|]. split; [done|].
  assert (Hgo : later = w ++ rest \/ read_closed (node_output n) = true -> chain (output s') rest ns out mt).
  { intros Heq. apply (chain_stable (node_output n) (output s') later); [done|done|]. intros Hopen. rewrite Hd. cbn [s output]. destruct Heq as [->|?]; [by rewrite <-app_assoc|congruence]. }
  subst n'. destruct r; cbn [apply_process_poll_outcome fst snd].
  - destruct Hr as (Hl' & -> & Hne & Hwo). eexists. split.
    { exists rest, mt. cbn [node_output node_finished node]. rewrite Hco, Hwo. split; [done|]. split; [done|]. split; [reflexivity|]. apply Hgo. by left. }
    rewrite length_app. destruct w; [done|]. cbn [length]. split_and!; [lia|lia|done].
  - destruct Hr as (Hl' & -> & -> & Hst & Hwo). eexists. split.
    { exists rest, mt. cbn [node_output node_finished node]. rewrite Hco, Hwo. split; [done|]. split; [done|]. split; [reflexivity|]. apply Hgo. by left. }
    split_and!; [lia|done|]. intros _ _. destruct Hst as [Hst1 Hst2]. split; [by right|]. congruence.
  - destruct Hr as (Hl' & -> & -> & Hfull & Hopen & Hwo). eexists. split.
    { exists rest, mt. cbn [node_output node_finished node]. rewrite Hco, Hwo. split; [done|]. split; [done|]. split; [reflexivity|]. apply Hgo. by left. }
    split_and!; [lia|done|]. intros _ [[?|?] _]; cbn [s output] in *; congruence.
  - destruct Hr as (Hout & -> & Hri & Hwo). exists mt. split.
    { exists [], mt. cbn [node_output node_finished node]. rewrite Hco. split; [done|]. split; [done|]. split; [reflexivity|]. apply Hgo. rewrite app_nil_r. by destruct Hout as [|[]]; [left|right]. }
    split_and!; [lia|lia|done].
Qed.

Lemma round_correct inp future ns out m rt : chain inp future ns out m -> (write_closed inp = true -> future = []) ->
  exists inp' ns' rt' progressed, eventually (fun f => poll_streaming_processes error_text f inp ns rt) (inp', ns', rt', Ok progressed) /\
    round inp future ns out m inp' ns' progressed.
Proof.
  induction ns as [|n ns IH] in inp, future, m, rt |- *; intros Hch Hf.
  { exists inp, [], rt, false. split; [by apply eventually_now|]. split_and!; [done..|]. exists m. split_and!; [done|lia|done|].
    intros _ Hd. split; [by right|done]. }
  pose proof Hch as (later & mt & Hc & Hn & -> & Htail).
  destruct (IH (node_output n) later mt rt Htail) as (out' & ns' & rt1 & pr1 & Hev1 & Hwo & Hco & _ & Hlen & m1 & Hch1 & Hm1 & Hpr1 & Hst1).
  { intros Hw. destruct (node_finished n); [by destruct Hn|]. destruct Hn as [_ ?]. congruence. }
  assert (Hch2 : chain inp future (set_node_output out' n :: ns') out (length later + (if node_finished n then 0 else 1) + m1)).
  { exists later, m1. cbn [set_node_output node_output node_finished node]. rewrite Hwo, Hco. split; [done|]. split; [done|]. by split. }
  destruct (poll_node_correct inp future (set_node_output out' n) ns' out _ rt1 Hch2 Hf) as (inp' & n' & rt2 & pr2 & Hev2 & Hwi & Hci & Hri & m2 & Hch3 & Hm2 & Hpr2 & Hst2).
  exists inp', (n' :: ns'), rt2, (pr1 || pr2). split.
  { destruct Hev1 as [f1 Hev1]. destruct Hev2 as [f2 Hev2]. exists (Nat.max f1 f2). intros f Hle. cbn [poll_streaming_processes]. rewrite Hev1, Hev2 by lia. done. }
  split_and!; [done|done|done|cbn; congruence|]. exists m2. split; [done|]. split; [lia|]. split.
  - intros [->| ->]%orb_true_iff; [specialize (Hpr1 eq_refl)|specialize (Hpr2 eq_refl)]; lia.
  - intros [-> ->]%orb_false_iff Hd. cbn [final_pipe] in Hd. apply Hst2; [done|]. by apply Hst1.
Qed.
(** ** The last pipe *)

Lemma chain_finished inp future ns out m : chain inp future ns out m -> (ns = [] -> future = []) -> all_finished ns = true -> out = data (final_pipe inp ns).
Proof.
  revert inp future m. induction ns as [|n ns IH]; intros inp future m; cbn [chain final_pipe].
  - intros (-> & _ & _) Hf _. by rewrite Hf, app_nil_r.
  - intros (later & m' & _ & Hn & _ & Hch) _ [Hfin Hall]%andb_true_iff. rewrite Hfin in Hn. destruct Hn as (-> & _). by apply (IH _ [] m').
Qed.

(** The bytes in the last pipe come first. *)
Lemma chain_out inp future ns out m : chain inp future ns out m -> exists more, out = data (final_pipe inp ns) ++ more.
Proof.
  revert inp future m. induction ns as [|n ns IH]; intros inp future m; cbn [chain final_pipe]; [intros (-> & _); by exists future|].
  intros (later & m' & _ & _ & _ & Hch). by apply IH in Hch.
Qed.

Lemma set_final_pipe_cons p n ns : ns <> [] -> set_final_pipe p (n :: ns) = n :: set_final_pipe p ns.
Proof. by destruct ns. Qed.

Lemma final_pipe_set p inp ns : ns <> [] -> final_pipe inp (set_final_pipe p ns) = p.
Proof.
  revert inp. induction ns as [|n ns IH]; intros inp; [done|]. intros _. destruct (decide (ns = [])) as [->|Hne]; [done|].
  rewrite set_final_pipe_cons by done. by apply IH.
Qed.

Lemma set_final_pipe_finished p ns : all_finished (set_final_pipe p ns) = all_finished ns.
Proof.
  induction ns as [|n ns IH]; [done|]. destruct (decide (ns = [])) as [->|Hne]; [done|]. rewrite set_final_pipe_cons by done.
  unfold all_finished in *. cbn [forallb]. by rewrite IH.
Qed.

Lemma set_final_pipe_length p ns : length (set_final_pipe p ns) = length ns.
Proof. induction ns as [|n ns IH]; [done|]. destruct (decide (ns = [])) as [->|Hne]; [done|]. rewrite set_final_pipe_cons by done. cbn. by rewrite IH. Qed.

(** Reading from the last pipe takes from what is left. *)
Lemma chain_drained inp future ns out m p got : ns <> [] -> chain inp future ns out m -> same_ends (final_pipe inp ns) p -> data (final_pipe inp ns) = got ++ data p ->
  exists out', out = got ++ out' /\ chain inp future (set_final_pipe p ns) out' (m - length got) /\ (length got <= m)%nat.
Proof.
  intros Hne. revert inp future m. induction ns as [|n ns IH]; intros inp future m; [done|]. cbn [chain final_pipe]. intros (later & m' & Hc & Hn & -> & Hch) Hends Hd.
  destruct (decide (ns = [])) as [->|Hns].
  - cbn [chain final_pipe set_final_pipe] in *. destruct Hch as (-> & -> & Hr). rewrite Hd in *. destruct Hends as (Hw & Hrc & Hcap). exists (data p ++ later).
    split; [by rewrite app_assoc|]. split; [|rewrite !length_app; lia]. exists later, (length (data p ++ later)). cbn [set_node_output node_output node_finished node].
    rewrite Hcap, Hw, Hrc. split; [done|]. split; [done|]. split; [rewrite !length_app; lia|done].
  - rewrite set_final_pipe_cons by done. destruct (IH Hns _ _ _ Hch Hends Hd) as (out' & -> & Hch' & Hle). exists out'. split; [done|]. split; [|lia].
    exists later, (m' - length got)%nat. split; [done|]. split; [done|]. split; [lia|done].
Qed.

(** ** The session *)

(** [plain]: standard output goes to one place, and [received] is what that place
    got so far; [calm]: no limit will be hit. *)
Context (plain : Rt -> Prop) (received : Rt -> list Ascii.ascii) (calm : Rt -> Prop).

(** The runtime [rt] after calls that do not write to standard output, from [rt0]. *)
Definition since (rt0 rt : Rt) : Prop := plain rt /\ received rt = received rt0 /\ (calm rt0 -> calm rt).
Definition quiet (f : Rt -> Rt) : Prop := forall rt, plain rt -> since rt (f rt).

Record lawful_session : Prop := {
  lawful_write d rt : plain rt -> plain (write_stdout d rt) /\ received (write_stdout d rt) = received rt ++ d /\ (calm rt -> calm (write_stdout d rt));
  lawful_check : quiet (fun rt => fst (check_resource_limits rt));
  lawful_sync z : quiet (sync_pipe_budget z);
  lawful_sink k d : quiet (fun rt => fst (sink_write k d rt));
  lawful_stderr d : quiet (write_stderr d);
  lawful_open path a : quiet (fun rt => fst (open_write_sink path a rt));
  lawful_file path : quiet (fun rt => fst (open_streaming_file_reader path rt));
  calm_check rt : calm rt -> snd (check_resource_limits rt) = false;
  calm_not_exhausted rt : calm rt -> resource_exhausted rt = false;
}.

Lemma since_refl rt : plain rt -> since rt rt.
Proof. intros Hp. by split. Qed.

Lemma since_quiet f rt0 rt : quiet f -> since rt0 rt -> since rt0 (f rt).
Proof. intros Hf (Hp & Hr & Hc). destruct (Hf rt Hp) as (Hp' & Hr' & Hc'). split_and!; [done|congruence|auto]. Qed.

(** A poll touches the runtime through the targets of a tee only. *)
Section poll_frame.
Context (I : Rt -> Prop) (HI : forall k d rt, I rt -> I (fst (sink_write k d rt))).

Lemma frame_write_targets chunk ts : preserves (fun s => I (runtime s)) (write_targets_loop chunk ts : comp (PollState (PipeReadProcess Src Sink) Rt) io_stop unit).
Proof.
  induction ts as [|t ts IH]; [by intros s|]. cbn [write_targets_loop]. apply preserves_bind; [|done]. intros s Hs. specialize (HI (sink t) chunk _ Hs).
  by destruct (sink_write (sink t) chunk (runtime s)) as [rt [err|]].
Qed.

Lemma frame_write_output {P} bs : preserves (fun s => I (runtime s)) (write_output bs : comp (PollState P Rt) io_stop WriteResult).
Proof. intros s Hs. unfold write_output. by destruct (Pipe.write bs (output s)). Qed.

Lemma frame_read_finish : preserves (fun s => I (runtime s)) (read_finish : comp (PollState (PipeReadProcess Src Sink) Rt) io_stop PipeProcessPoll).
Proof. by intros s. Qed.

Lemma frame_on_process {P} (f : P -> P) : preserves (fun s => I (runtime s)) (on_process f : comp (PollState P Rt) io_stop unit).
Proof. by intros s. Qed.

Lemma frame_read_poll f : preserves (fun s => I (runtime s)) (read_poll error_text f : comp (PollState (PipeReadProcess Src Sink) Rt) io_stop PipeProcessPoll).
Proof.
  pose proof (@frame_write_output) as Hw. pose proof frame_read_finish as Hf. pose proof (@frame_on_process) as Hp.
  assert (Ht : forall chunk, preserves (fun s => I (runtime s)) (write_targets chunk : comp (PollState (PipeReadProcess Src Sink) Rt) io_stop unit)).
  { intros chunk s Hs. by apply frame_write_targets. }
  assert (Hd : preserves (fun s => I (runtime s)) (read_drain_pending : comp (PollState (PipeReadProcess Src Sink) Rt) io_stop (option PipeProcessPoll))).
  { unfold read_drain_pending. repeat frame_step. }
  assert (He : preserves (fun s => I (runtime s)) (poll_stderr : comp (PollState (PipeReadProcess Src Sink) Rt) io_stop (option PipeProcessPoll))).
  { unfold poll_stderr. repeat frame_step. }
  assert (Hr : forall f, preserves (fun s => I (runtime s)) (read_fill_from_reader error_text f : comp (PollState (PipeReadProcess Src Sink) Rt) io_stop (option PipeProcessPoll))).
  { intros g s Hs. unfold read_fill_from_reader. destruct (reader (process s)); [|done]. by destruct (read g SCRATCH _) as [r' [[|? ?]|[[| |]|]|]]. }
  unfold read_poll. apply preserves_bind; [by intros s|]. intros s0. destruct (rp_finished (process s0)); [by intros s|].
  clear s0. induction f as [|f IH]; cbn [read_poll_loop]; repeat frame_step.
Qed.

Lemma frame_head_poll f : preserves (fun s => I (runtime s)) (head_poll f : comp (PollState HeadPipeProcess Rt) io_stop PipeProcessPoll).
Proof.
  pose proof (@frame_write_output) as Hw. pose proof (@frame_on_process) as Hp.
  assert (Hc : preserves (fun s => I (runtime s)) (close_input : comp (PollState HeadPipeProcess Rt) io_stop unit)).
  { intros s Hs. unfold close_input, modify. by case_split. }
  assert (Hs : preserves (fun s => I (runtime s)) (complete_stream : comp (PollState HeadPipeProcess Rt) io_stop unit)).
  { unfold complete_stream. repeat frame_step. }
  assert (Hf : preserves (fun s => I (runtime s)) (head_finish : comp (PollState HeadPipeProcess Rt) io_stop PipeProcessPoll)).
  { unfold head_finish. repeat frame_step. by intros s. }
  assert (Ht : preserves (fun s => I (runtime s)) (try_flush_pending : comp (PollState HeadPipeProcess Rt) io_stop (option PipeProcessPoll))).
  { unfold try_flush_pending. repeat frame_step. }
  assert (Hu : forall b z, preserves (fun s => I (runtime s)) (update_head_limit b z : comp (PollState HeadPipeProcess Rt) io_stop unit)).
  { intros b z. unfold update_head_limit. repeat frame_step. }
  assert (Hr : preserves (fun s => I (runtime s)) (read_one : comp (PollState HeadPipeProcess Rt) io_stop (ReadResult * str))).
  { intros s Hs'. unfold read_one. by destruct (Pipe.read _ _) as [[[? ?] ?]|]. }
  unfold head_poll. apply preserves_bind; [by intros s|]. intros s0. destruct (hp_finished (process s0)); [by intros s|].
  clear s0. induction f as [|f IH]; cbn [head_poll_loop]; repeat frame_step.
Qed.

Lemma frame_poll_node f inp n rt inp' n' rt' x : poll_node error_text f inp n rt = (inp', n', rt', x) -> I rt -> I rt'.
Proof.
  unfold poll_node. destruct (node_finished n); [by intros [= <- <- <- <-]|]. unfold poll, poll_as. cbn [process input output runtime].
  intros Heq Hrt. destruct (node n) as [p|p|p].
  - pose proof (frame_read_poll f {| process := p; input := inp; output := node_output n; runtime := rt |} Hrt) as Hp.
    destruct (read_poll _ _ _) as [s' [r|e|w]]; cbn in Heq, Hp; [destruct r; cbn in Heq|..]; by injection Heq as <- <- <- <-.
  - pose proof (frame_head_poll f {| process := p; input := inp; output := node_output n; runtime := rt |} Hrt) as Hp.
    destruct (head_poll _ _) as [s' [r|e|w]]; cbn in Heq, Hp; [destruct r; cbn in Heq|..]; by injection Heq as <- <- <- <-.
  - pose proof (frame_read_poll f {| process := p; input := inp; output := node_output n; runtime := rt |} Hrt) as Hp.
    destruct (read_poll _ _ _) as [s' [r|e|w]]; cbn in Heq, Hp; [destruct r; cbn in Heq|..]; by injection Heq as <- <- <- <-.
Qed.

Lemma frame_round f inp ns rt inp' ns' rt' x : poll_streaming_processes error_text f inp ns rt = (inp', ns', rt', x) -> I rt -> I rt'.
Proof.
  revert inp rt inp' ns' rt' x. induction ns as [|n ns IH]; intros inp rt inp' ns' rt' x; cbn [poll_streaming_processes]; [by intros [= <- <- <- <-]|].
  destruct (poll_streaming_processes error_text f (node_output n) ns rt) as [[[out ns1] rt1] [pr|e|w]] eqn:Htl; intros Heq Hrt; specialize (IH _ _ _ _ _ _ Htl Hrt).
  - destruct (poll_node error_text f inp (set_node_output out n) rt1) as [[[inp1 n1] rt2] x2] eqn:Hnd. pose proof (frame_poll_node _ _ _ _ _ _ _ _ Hnd IH).
    destruct x2; by injection Heq as <- <- <- <-.
  - by injection Heq as <- <- <- <-.
  - by injection Heq as <- <- <- <-.
Qed.
End poll_frame.
Context (Hlaws : lawful_session).

(** ** Standard output *)

Lemma drain_final_spec rounds p rt pr : (length (data p) < rounds)%nat -> plain rt -> exists p' rt' pr' stopped got,
  drain_final_loop rounds p rt pr = (p', rt', pr', stopped) /\ data p = got ++ data p' /\ plain rt' /\ received rt' = received rt ++ got /\
  (stopped = false -> same_ends p p' /\ data p' = [] /\ pr' = (pr || negb (bool_decide (got = [])))) /\ (calm rt -> calm rt' /\ stopped = false).
Proof.
  revert p rt pr. induction rounds as [|rounds IH]; intros p rt pr Hl Hplain; [lia|]. cbn [drain_final_loop].
  pose proof (pipe_read_cases SCRATCH p ltac:(unfold SCRATCH; lia)) as Hr. destruct (data p) as [|b d] eqn:Hd.
  - destruct Hr as [buf ->]. exists p, rt, pr, false, []. rewrite app_nil_r, orb_false_r. by destruct (write_closed p); split_and!.
  - rewrite <-Hd in *. destruct Hr as (buf & k & -> & ->). set (c := take SCRATCH (data p)). set (p1 := Pipe.set_data (drop SCRATCH (data p)) p).
    assert (Hc : c <> []) by (intros Ht%(f_equal length); unfold c, SCRATCH in Ht; rewrite length_take, Hd in Ht; cbn [length] in Ht; lia).
    assert (Hsplit : data p = c ++ data p1) by (symmetry; apply take_drop).
    destruct (lawful_write Hlaws c rt Hplain) as (Hplain1 & Hrec1 & Hcalm1). destruct (resource_exhausted (write_stdout c rt)) eqn:Hex.
    + exists (Pipe.close_read p1), (write_stdout c rt), true, true, c. split_and!; [done|done|done|done|done|].
      intros Hcalm. apply Hcalm1, (calm_not_exhausted Hlaws) in Hcalm. congruence.
    + destruct (IH p1 (write_stdout c rt) true) as (p' & rt' & pr' & stopped & got & -> & Hd' & Hplain2 & Hrec & Hgo & Hcalm); [|done|].
      { rewrite Hsplit, length_app in Hl. assert (length c <> 0%nat) by (by intros ?%nil_length_inv). lia. }
      exists p', rt', pr', stopped, (c ++ got). split_and!; [done|by rewrite Hsplit, Hd', app_assoc|done|by rewrite Hrec, Hrec1, app_assoc| |].
      * intros Hs. destruct (Hgo Hs) as (He & Hnil & ->). split_and!; [done|done|]. rewrite (bool_decide_eq_false_2 (c ++ got = [])); [by destruct pr|]. by intros [? _]%app_eq_nil.
      * intros Hc'. by apply Hcalm, Hcalm1.
Qed.

(** ** The whole pipeline *)

(** What the caller sees when the driver returns: it got [got] of [out]; all of it
    when no limit was hit. *)
Definition driven (out : str) (rt : Rt) ns' rt' : Prop :=
  exists got rest, plain rt' /\ received rt' = received rt ++ got /\ out = got ++ rest /\ (calm rt -> rest = [] /\ all_finished ns' = true /\ calm rt').

Lemma drive_correct k ns out m rt : ns <> [] -> chain no_pipe [] ns out m -> data (final_pipe no_pipe ns) = [] -> plain rt ->
  exists ns' rt', eventually (fun f => drive_streaming_pipeline error_text f k ns rt) (ns', rt', Ok tt) /\ length ns' = length ns /\ driven out rt ns' rt'.
Proof.
  revert ns out rt. induction m as [m IH] using lt_wf_ind. intros ns out rt Hne Hch Hempty Hplain.
  destruct (check_resource_limits rt) as [rt1 stop] eqn:Hcheck.
  assert (Hs1 : since rt rt1) by (pose proof (lawful_check Hlaws rt Hplain) as Hr; cbn beta in Hr; by rewrite Hcheck in Hr).
  assert (Hstop : calm rt -> stop = false) by (intros Hc; pose proof (calm_check Hlaws rt Hc) as Hr; by rewrite Hcheck in Hr).
  destruct stop.
  { eexists _, rt1. split; [apply eventually_S, eventually_now; intros f; cbn [drive_streaming_pipeline]; by rewrite Hcheck|].
    split; [by rewrite set_final_pipe_length|]. destruct Hs1 as (Hp1 & Hr1 & _). exists [], out. rewrite app_nil_r. split_and!; [done|done|done|]. by intros ?%Hstop. }
  destruct (round_correct no_pipe [] ns out m rt1 Hch ltac:(done)) as (inp' & ns1 & rt2 & pr & [f1 Hround] & Hwi & Hci & Hri & Hlen & m1 & Hch1 & Hm1 & Hpr & Hstuck).
  pose proof (Hround (S f1) ltac:(lia)) as Hr1.
  assert (Hs2 : since rt rt2) by (refine (frame_round (since rt) _ _ _ _ _ _ _ _ _ Hr1 Hs1); intros z d r; exact (since_quiet _ rt r (lawful_sink Hlaws z d))).
  assert (Hne1 : ns1 <> []) by (destruct ns1; [destruct ns; [done|by cbn in Hlen]|done]).
  assert (Hch2 : chain no_pipe [] ns1 out m1) by (by apply (chain_stable inp' no_pipe [] [] ns1 out m1 Hch1); rewrite Hri).
  set (rt3 := sync_pipe_budget (buffered_pipe_bytes k ns1) rt2).
  assert (Hs3 : since rt rt3) by (apply since_quiet; [apply (lawful_sync Hlaws)|done]). destruct Hs3 as (Hplain3 & Hrec3 & Hcalm3).
  destruct (resource_exhausted rt3) eqn:Hex3.
  { eexists _, rt3. split.
    - exists (S f1). intros [|f] Hle; [lia|]. cbn [drive_streaming_pipeline]. rewrite Hcheck, Hround by lia. fold rt3. by rewrite Hex3.
    - split; [by rewrite set_final_pipe_length, Hlen|]. exists [], out. rewrite app_nil_r. split_and!; [done|done|done|]. intros Hc. apply Hcalm3, (calm_not_exhausted Hlaws) in Hc. congruence. }
  destruct (drain_final_spec (S (length (data (final_pipe no_pipe ns1)))) (final_pipe no_pipe ns1) rt3 pr ltac:(lia) Hplain3) as (p' & rt4 & pr' & stopped & got & Hdrain & Hd & Hplain4 & Hrec4 & Hgo & Hcalm4).
  assert (Hunfold : forall f, (f1 <= f)%nat -> drive_streaming_pipeline error_text (S f) k ns rt =
    if stopped then (set_final_pipe p' ns1, rt4, Ok tt)
    else if resource_exhausted rt4 || all_finished (set_final_pipe p' ns1) || negb pr' then (set_final_pipe p' ns1, rt4, Ok tt)
    else drive_streaming_pipeline error_text f k (set_final_pipe p' ns1) rt4).
  { intros f Hle. cbn [drive_streaming_pipeline]. rewrite Hcheck, Hround by lia. fold rt3. rewrite Hex3. unfold drain_final_pipe_to_stdout. by rewrite Hdrain. }
  destruct stopped.
  { eexists _, rt4. split; [exists (S f1); intros [|f] Hle; [lia|]; apply Hunfold; lia|].
    split; [by rewrite set_final_pipe_length, Hlen|]. destruct (chain_out no_pipe [] ns1 out m1 Hch2) as [more ->]. exists got, (data p' ++ more). split_and!; [done|by rewrite Hrec4, Hrec3|by rewrite Hd, app_assoc|].
    intros Hc%Hcalm3%Hcalm4. by destruct Hc. }
  destruct (Hgo eq_refl) as (Hends & Hnil & ->). destruct (chain_drained no_pipe [] ns1 out m1 p' got Hne1 Hch2 Hends Hd) as (out' & -> & Hch3 & Hgot).
  set (ns2 := set_final_pipe p' ns1) in *. assert (Hne2 : ns2 <> []).
  { intros Hn%(f_equal length). unfold ns2 in Hn. rewrite set_final_pipe_length in Hn. destruct ns1; [done|by cbn in Hn]. }
  assert (Hfinal : data (final_pipe no_pipe ns2) = []) by (unfold ns2; by rewrite final_pipe_set).
  assert (Hover : all_finished ns2 = true -> out' = []) by (intros Ha; by rewrite (chain_finished _ _ _ _ _ Hch3), Hfinal).
  destruct (resource_exhausted rt4 || all_finished ns2 || negb (pr || negb (bool_decide (got = [])))) eqn:Hexit.
  - exists ns2, rt4. split; [exists (S f1); intros [|f] Hle; [lia|]; rewrite Hunfold by lia; done|]. split; [unfold ns2; by rewrite set_final_pipe_length, Hlen|]. exists got, out'. split_and!; [done|by rewrite Hrec4, Hrec3|done|].
    intros Hc. destruct (Hcalm4 (Hcalm3 Hc)) as [Hc4 _]. rewrite (calm_not_exhausted Hlaws _ Hc4) in Hexit. cbn [orb] in Hexit.
    destruct (all_finished ns2) eqn:Hall; [by split_and!; [apply Hover|..]|]. apply negb_true_iff, orb_false_iff in Hexit as [-> _].
    destruct (Hstuck eq_refl Hempty) as [_ Hfin]. unfold ns2 in Hall. rewrite set_final_pipe_finished, Hfin in Hall by (by rewrite Hwi). done.
  - apply orb_false_iff in Hexit as [Hexit Hpr'%negb_false_iff]. apply orb_false_iff in Hexit as [Hex4 Hall].
    destruct (IH (m1 - length got)%nat) with (ns := ns2) (out := out') (rt := rt4) as (ns' & rt' & [f2 Hev] & Hlen' & got' & rest & Hplain' & Hrec' & -> & Hc'); [|done|done|done|done|].
    { apply orb_true_iff in Hpr' as [Hp|Hp%negb_true_iff%bool_decide_eq_false]; [specialize (Hpr Hp); lia|].
      assert (length got <> 0%nat) by (by intros ?%nil_length_inv). lia. }
    exists ns', rt'. split; [|split].
    + exists (S (Nat.max f1 f2)). intros [|f] Hle; [lia|]. rewrite Hunfold by lia. apply Hev. lia.
    + rewrite Hlen'. unfold ns2. by rewrite set_final_pipe_length.
    + exists (got ++ got'), rest. split_and!; [done|by rewrite Hrec', Hrec4, Hrec3, app_assoc|by rewrite app_assoc|]. intros Hc. by apply Hc', Hcalm4, Hcalm3.
Qed.
End drive.
