(* ===== verification/StreamPipeline.v ===== *)
(** * A streaming pipeline from end to end

    [later_output] composes what the stages make of their inputs.  The driver
    ends, and standard output gets exactly that text, or a beginning of it when a
    limit of the session stops the pipeline ([pipeline_delivers]). *)

From S2P Require Import Prelude Strings Pipe Utf8 Stream StreamProps StreamLines StreamBytes StreamBytesProps StreamGrep StreamGrepProps StreamSed StreamSedProps StreamArgs StreamStage StreamStageProps StreamProcess StreamProcessProps StreamDrive StreamDriveProps.

(** ** The sources *)

(** A reader that never blocks, delivers [bs] and ends with [e]. *)
Definition source_serves {R} `{Reader R} (r : R) (bs : str) (e : ending) : Prop := exists S, closed S (fun _ => False) /\ S r bs e.

Lemma cursor_serves bs : source_serves {| cursor_data := bs; cursor_pos := 0 |} bs Eof.
Proof.
  exists (fun r b e => b = drop (cursor_pos r) (cursor_data r) /\ e = Eof). split; [|done].
  intros [d i] b e n (-> & ->) Hn. cbn [cursor_data cursor_pos]. eexists _, _. split; [by apply eventually_now|]. cbn [cursor_data cursor_pos].
  destruct (take n (drop i d)) as [|c cs] eqn:Ht; cbn [reply].
  - assert (drop i d = []) as Hd.
    { destruct (drop i d); [done|]. destruct n; [lia|done]. }
    rewrite Hd. cbn [length cursor_pos cursor_data]. by rewrite Nat.add_0_r, Hd.
  - split; [rewrite <-Ht, length_take; lia|]. exists (drop (length (c :: cs)) (drop i d)). split; [|cbn [cursor_pos cursor_data]; by rewrite drop_drop].
    rewrite <-(take_drop n (drop i d)) at 1. rewrite Ht. f_equal. apply (f_equal length) in Ht. rewrite length_take in Ht.
    destruct (Nat.le_gt_cases n (length (drop i d))); [f_equal; lia|]. by rewrite !drop_ge by lia.
Qed.

(** *** yes *)

(** The lines of [yes] still to come. *)
Definition yes_text (line : str) (offset : nat) (lines : Z) : str := drop offset (concat (repeat line (Z.to_nat lines))).

Lemma yes_text_line (line : str) lines : 0 < lines -> concat (repeat line (Z.to_nat lines)) = line ++ concat (repeat line (Z.to_nat (lines - 1))).
Proof. intros Hl. by replace (Z.to_nat lines) with (S (Z.to_nat (lines - 1))) by lia. Qed.

Lemma yes_text_take line offset lines c : 0 < lines -> (offset + c <= length line)%nat ->
  yes_text line offset lines = take c (drop offset line) ++ yes_text line (offset + c) lines.
Proof.
  intros Hl Hc. unfold yes_text. rewrite <-drop_drop. rewrite <-(take_drop c (drop offset (concat (repeat line (Z.to_nat lines))))) at 1. f_equal.
  rewrite yes_text_line by done. rewrite drop_app_le by lia. rewrite take_app_le by (rewrite length_drop; lia). done.
Qed.

Lemma yes_text_next line lines : 0 < lines -> yes_text line (length line) lines = yes_text line 0 (sat_sub lines 1).
Proof.
  intros Hl. unfold yes_text. rewrite yes_text_line by done. rewrite drop_app_length. unfold sat_sub. by replace (Z.max 0 (lines - 1)) with (lines - 1) by lia.
Qed.

Lemma yes_loop_spec rounds n line offset lines w : (offset < length line)%nat -> 0 <= lines -> (n <= rounds + length w)%nat -> (length w <= n)%nat ->
  let '(out, offset', lines') := yes_loop rounds n line offset lines w in
  w ++ yes_text line offset lines = out ++ yes_text line offset' lines' /\ (offset' < length line)%nat /\ 0 <= lines' /\
  (length w <= length out <= n)%nat /\ ((length w < n)%nat -> 0 < lines -> (length w < length out)%nat).
Proof.
  revert offset lines w. induction rounds as [|rounds IH]; intros offset lines w Hoff Hl Hn Hw; cbn [yes_loop].
  { split_and!; (done || lia). }
  destruct (Nat.ltb_spec (length w) n) as [Hlt|Hge]; [|split_and!; (done || lia)]. destruct (Z.ltb_spec 0 lines) as [Hpos|Hz]; [|split_and!; (done || lia)]. cbn [andb].
  set (c := Nat.min (length (drop offset line)) (n - length w)). assert (Hc : c = Nat.min (length line - offset) (n - length w)) by (unfold c; by rewrite length_drop).
  assert (Hadd : length (w ++ take c (drop offset line)) = (length w + c)%nat) by (rewrite length_app, length_take, length_drop; lia).
  destruct (Nat.eqb_spec (offset + c) (length line)) as [He|He].
  - specialize (IH 0%nat (sat_sub lines 1) (w ++ take c (drop offset line))). destruct (yes_loop _ _ _ _ _ _) as [[out offset'] lines'].
    destruct IH as (IH1 & IH2 & IH3 & IH4 & IH5); [lia|unfold sat_sub; lia|lia|lia|]. split_and!; [|done|done|lia|lia|lia].
    rewrite <-IH1, <-app_assoc. f_equal. rewrite (yes_text_take line offset lines c), He, yes_text_next by lia. done.
  - specialize (IH (offset + c)%nat lines (w ++ take c (drop offset line))). destruct (yes_loop _ _ _ _ _ _) as [[out offset'] lines'].
    destruct IH as (IH1 & IH2 & IH3 & IH4 & IH5); [lia|lia|lia|lia|]. split_and!; [|done|done|lia|lia|lia].
    rewrite <-IH1, <-app_assoc. f_equal. apply yes_text_take; lia.
Qed.

Lemma yes_serves (line : str) lines : 0 <= lines -> source_serves (YesStreamReader_new line lines) (concat (repeat line (Z.to_nat lines))) Eof.
Proof.
  intros Hl0. exists (fun r b e => e = Eof /\ match yes_line r with [] => b = [] | line => (yes_offset r < length line)%nat /\ 0 <= remaining_lines r /\
    b = yes_text line (yes_offset r) (remaining_lines r) end). split.
  - intros [l o k] b e n (-> & Hb) Hn. unfold read, Yes_reader. cbn [yes_line yes_offset remaining_lines] in *. destruct l as [|x l].
    { subst b. eexists _, _. by split; [by apply eventually_now|]. }
    destruct Hb as (Ho & Hk & ->). rewrite (proj2 (Nat.eqb_neq n 0)) by lia. cbn [orb]. destruct (Z.eqb_spec k 0) as [->|Hne].
    { assert (yes_text (x :: l) o 0 = []) as Hnil by apply drop_nil. eexists _, _. split; [by apply eventually_now|]. rewrite Hnil. cbn [reply].
      split_and!; [done|done|done|]. by cbn. }
    pose proof (yes_loop_spec n n (x :: l) o k [] Ho Hk ltac:(cbn; lia) ltac:(cbn; lia)) as Hloop. destruct (yes_loop _ _ _ _ _ _) as [[out o'] k'].
    destruct Hloop as (Heq & Ho' & Hk' & Hlen & Hpos). cbn [app length] in *. eexists _, _. split; [by apply eventually_now|]. destruct out as [|y out]; [cbn in Hpos; lia|].
    cbn [reply]. split; [lia|]. by eexists.
  - split; [done|]. cbn. destruct line as [|x line]; [|by split_and!; [cbn; lia|..]]. by induction (Z.to_nat lines).
Qed.

(** ** The stages *)

Section pipeline.
Context `{Target} `{Unicode} `{PosixRegex} {Rt Src Sink : Type} `{Reader Src} `{Session Rt Src Sink}.
Context (error_text : ErrorKind -> list Ascii.ascii).

(** What a stage behind a pipe writes, given all it reads.  A tee passes its input
    on; with [|&] its messages come in between, which depends on its files. *)
Definition stage_writes (stage : StreamingPipelineStage) (piped : bool) (inp : str) : option str :=
  match stage with
  | Tee _ => if piped then None else Some inp
  | _ => fst <$> stage_output stage inp Eof
  end.

(** [HeadPipeProcess] takes the place of the head reader behind another stage. *)
Definition later_writes (stage : StreamingPipelineStage) (piped : bool) (inp : str) : option str :=
  match stage with
  | Head mode => Some (head_takes (HeadPipeProcess_new mode) inp)
  | _ => stage_writes stage piped inp
  end.

Fixpoint later_output (stages : list (StreamingPipelineStage * bool)) (inp : str) : option str :=
  match stages with
  | [] => Some inp
  | (stage, piped) :: stages' => out ← later_writes stage piped inp; later_output stages' out
  end.

(** With the whole input at hand no stage fails. *)
Lemma stage_output_ends stage inp out e : stage_output stage inp Eof = Some (out, e) -> e = Eof.
Proof.
  destruct stage as [bs|path|line|argv|cmd| |[k|k]|[k|k]|bs|ss|ts|[d [|]]| |gs|fl| |cs|ts|fl]; cbn [stage_output]; try (by intros [= <- <-]); try done;
    try (case_split; [|done]; intros [= _ <-]; repeat case_split; done).
  - destruct (run_sed ss inp); [|done..]. by intros [= <- <-].
  - case_split; [done|]. unfold grep_lines. by intros [= _ <-]; case_split.
Qed.

Lemma stage_inner_new stage st (r : PipeReader) : stage_inner (stage_new stage st r) = r.
Proof. by destruct stage as [| | | | | |[]|[]| | | | | | | | | | |]. Qed.

Definition fresh_pipe : PipeBuffer := Pipe.new PIPEBUFFER_STREAMING_CAPACITY.

(** A fresh process around a reader that delivers [out]. *)
Lemma process_starts b st lab piped inp future out e : read_closed inp = from_source b -> delivers b (data inp ++ future) out e ->
  read_live error_text (PipeReadProcess_new (Sink := Sink) b st lab piped) inp future
    (out ++ failure error_text (PipeReadProcess_new (Sink := Sink) b st lab piped) e).
Proof.
  intros Hc Hd. split; [by split_and!|]. exists (out ++ failure error_text (PipeReadProcess_new (Sink := Sink) b st lab piped) e).
  split; [|unfold unsent, rest_stderr; cbn; by destruct piped]. exists b. split_and!; [done|done|]. by exists out, e.
Qed.

Lemma stage_delivers stage st inp out e : stage_output stage inp Eof = Some (out, e) ->
  delivers (Src := Src) (FromPipe (stage_new stage st (PipeReader_new fresh_pipe))) inp out e.
Proof.
  intros Ho. destruct (stage_keeps (R := PipeReader) stage st) as (Hold & Hc & Hst & Hn). exists Hold, (pipe_serves inp). split_and!; [done|done| |].
  - apply (Hn _ _ inp Eof); [|done]. by split_and!.
  - rewrite stage_inner_new. intros b e' (-> & _ & ->). done.
Qed.

Lemma fresh_chain (p : StreamingPipeProcess Src Sink) inp future later ns out m : process_live error_text p inp future later ->
  chain error_text fresh_pipe later ns out m -> exists m', chain error_text inp future (Node_new p :: ns) out m'.
Proof. intros Hl Hch. eexists. exists later, m. split; [done|]. split; [by split|]. by split. Qed.

(** A tee: the reader of [cat], and targets. *)
Lemma tee_starts t st inp (rt : Rt) : let '(p, _) := TeePipeProcess_new (Src := Src) (FromPipe (CatReader (PipeReader_new fresh_pipe))) t st false rt in
  read_live error_text p fresh_pipe inp inp.
Proof.
  unfold TeePipeProcess_new. set (p0 := PipeReadProcess_new (Src := Src) (Sink := Sink) _ st #"tee" false).
  assert (Hopen : forall ps (p : PipeReadProcess Src Sink) rt, let '(p', _, _) := open_targets ps (tee_append t) p rt in
    reader p' = reader p /\ pending p' = pending p /\ pending_offset p' = pending_offset p /\ stderr_offset p' = stderr_offset p /\ rp_finished p' = rp_finished p /\
    pipe_stderr p' = pipe_stderr p /\ reader_done p' = reader_done p).
  { intros ps. induction ps as [|path ps IH]; intros p rt'; cbn [open_targets]; [by split_and!|]. destruct (open_write_sink path (tee_append t) rt') as [rt1 [k|err]].
    - specialize (IH p rt1). by destruct (open_targets ps (tee_append t) p rt1) as [[p' ?] ?].
    - apply (IH (report (#"tee: " ++ path ++ #": " ++ err ++ [newline]) p) rt1). }
  specialize (Hopen (tee_paths t) p0 rt). destruct (open_targets (tee_paths t) (tee_append t) p0 rt) as [[p' rt'] ts].
  destruct Hopen as (Hr & Hp & Hpo & Hso & Hf & Hps & Hd). split.
  - unfold read_ok. cbn. rewrite Hf, Hpo, Hp, Hso, Hps. cbn. split_and!; [done|lia|lia|done].
  - exists inp. split.
    + exists (FromPipe (CatReader (PipeReader_new fresh_pipe))). cbn. rewrite Hr, Hd. split_and!; [done|done|]. cbn. exists inp, Eof. split.
      * by apply (stage_delivers Cat st).
      * unfold failure. cbn. by destruct (pipe_stderr p'); rewrite app_nil_r.
    + unfold unsent, rest_stderr. cbn. by rewrite Hp, Hpo, Hps.
Qed.

(** A node that turns [inp] into [later] for the nodes behind it. *)
Definition node_turns (p : PipeBuffer) (inp later : str) (n : Node Src Sink) : Prop :=
  forall ns out m, chain error_text fresh_pipe later ns out m -> exists m', chain error_text p inp (n :: ns) out m'.

Lemma live_turns (p : StreamingPipeProcess Src Sink) inp future later : process_live error_text p inp future later -> node_turns inp future later (Node_new p).
Proof. intros Hl ns out m Hch. by apply (fresh_chain p inp future later ns out m). Qed.

Lemma read_turns stage piped inp later r : wrap_non_tee_streaming_stage (PipeReader_new fresh_pipe) stage (seed_stage_status stage) = Some r ->
  fst <$> stage_output stage inp Eof = Some later ->
  node_turns fresh_pipe inp later (Node_new (ReadProcess (PipeReadProcess_new (FromPipe r) (seed_stage_status stage) #"stage" piped))).
Proof.
  intros Hr Ho. destruct (stage_output stage inp Eof) as [[o e]|] eqn:Hso; [|done]. injection Ho as ->. pose proof (stage_output_ends _ _ _ _ Hso) as ->.
  apply live_turns. cbn [process_live].
  pose proof (process_starts (FromPipe (stage_new stage (seed_stage_status stage) (PipeReader_new fresh_pipe))) (seed_stage_status stage) #"stage" piped fresh_pipe inp later Eof eq_refl
    (stage_delivers _ _ _ _ _ Hso)) as Hst.
  unfold stage_new in Hst. rewrite Hr in Hst. unfold failure in Hst. cbn [default pipe_stderr PipeReadProcess_new] in Hst. destruct piped; by rewrite app_nil_r in Hst.
Qed.

Lemma setup_stage_turns stage piped rt inp later : stage_writes stage piped inp = Some later ->
  exists n rt', setup_stage (Src := Src) (Sink := Sink) stage piped rt = Some (n, rt') /\ node_turns fresh_pipe inp later n.
Proof.
  intros Hw. pose proof (read_turns stage piped inp later) as Hread.
  destruct stage as [bs|path|line|argv|cmd| |[k|k]|[k|k]|bs|ss|t|ps| |gs|fl| |cs|ts|fl]; cbn [stage_writes] in Hw; try done; cbn [setup_stage];
    try (eexists _, rt; split; [reflexivity|]; by apply (Hread _ eq_refl)).
  destruct piped; [done|]. injection Hw as ->. pose proof (tee_starts t (seed_stage_status (Tee t)) later rt) as Ht. unfold fresh_pipe in Ht.
  destruct (TeePipeProcess_new _ t _ false rt) as [p rt']. eexists _, rt'. split; [done|]. by apply live_turns.
Qed.

Lemma later_turns stage piped rt inp later : later_writes stage piped inp = Some later ->
  exists n rt', setup_later_streaming_stage (Src := Src) (Sink := Sink) stage piped rt = Some (n, rt') /\ node_turns fresh_pipe inp later n.
Proof.
  intros Hw. destruct stage; try (by apply setup_stage_turns). cbn [later_writes] in Hw. injection Hw as <-. eexists _, rt. split; [done|].
  apply live_turns. cbn [process_live]. by split_and!.
Qed.

Lemma setup_later_chain stages rt inp out : later_output stages inp = Some out ->
  exists ns rt' m, setup_later (Src := Src) (Sink := Sink) stages rt = Some (ns, rt') /\ length ns = length stages /\ chain error_text fresh_pipe inp ns out m.
Proof.
  induction stages as [|[stage piped] stages IH] in rt, inp |- *; cbn [later_output setup_later].
  { intros [= <-]. exists [], rt, (length inp). split_and!; [done|done|]. by split_and!. }
  intros Ho. destruct (later_writes stage piped inp) as [later|] eqn:Hl; [|done]. cbn [mbind option_bind] in Ho.
  destruct (later_turns stage piped rt inp later Hl) as (n & rt1 & -> & Hn). cbn [mbind option_bind]. destruct (IH rt1 later Ho) as (ns & rt2 & m & -> & Hlen & Hch).
  destruct (Hn ns out m Hch) as [m' Hm']. exists (n :: ns), rt2, m'. split_and!; [done|cbn; by rewrite Hlen|done].
Qed.

(** ** The first stage *)

(** What the first nodes write: the source reader goes through the first stage;
    without one, the first stage is the source. *)
Definition first_writes (source_reader : option Src) (stage : StreamingPipelineStage) (piped : bool) (rt : Rt) (out : str) : Prop :=
  match source_reader with
  | Some src => exists bs e, source_serves src bs e /\ stage_writes stage piped bs = Some out
  | None =>
      match stage with
      | Literal bytes => out = bytes
      | Yes line => out = concat (repeat line (Z.to_nat STREAMING_YES_MAX_LINES))
      | File path => exists src bs e, snd (open_streaming_file_reader path rt) = Some src /\ source_serves src bs e /\
          out = bs ++ match e with
                      | Fails k => if piped then #"wasmsh: source: streaming pipeline read error: " ++ error_text k ++ [newline] else []
                      | Eof => []
                      end
      | _ => False
      end
  end.

Lemma source_turns (src : SourceReader Src) (piped : bool) (bs : str) (e : ending) : source_serves src bs e ->
  node_turns no_pipe [] (bs ++ match e with Fails k => if piped then #"wasmsh: source: streaming pipeline read error: " ++ error_text k ++ [newline] else [] | Eof => [] end)
    (source_node src piped).
Proof.
  intros Hs. apply live_turns. cbn [process_live].
  pose proof (process_starts (FromSource src) 0 #"source" piped no_pipe [] bs e eq_refl Hs) as Hst. unfold failure in Hst. cbn [pipe_stderr PipeReadProcess_new] in Hst.
  destruct piped; [by destruct e|]. by destruct e.
Qed.

Lemma boxed_source_serves {R} `{Reader R} (box : R -> SourceReader Src) (r : R) bs e : (forall f n r, read f n (box r) = let '(r', x) := read f n r in (box r', x)) ->
  source_serves r bs e -> source_serves (box r) bs e.
Proof.
  intros Hbox (S & HS & Hr). exists (fun s b e => exists r, s = box r /\ S r b e). split; [|by exists r].
  intros s b e' n (r0 & -> & Hr0) Hn. destruct (HS r0 b e' n Hr0 Hn) as (r' & out & [f0 Hev] & Hrep). exists (box r'), out. split.
  - exists f0. intros f Hle. by rewrite Hbox, Hev.
  - eapply reply_map; [| |exact Hrep]; [|done]. intros b0 e0 Hb. by exists r'.
Qed.

Lemma literal_turns (bytes : str) piped : node_turns no_pipe [] bytes (source_node (LiteralSource {| cursor_data := bytes; cursor_pos := 0 |}) piped).
Proof.
  rewrite <-(app_nil_r bytes) at 1. apply (source_turns _ piped bytes Eof). by apply (boxed_source_serves (fun c => LiteralSource c)), cursor_serves.
Qed.
Lemma yes_turns (line : str) piped : node_turns no_pipe [] (concat (repeat line (Z.to_nat STREAMING_YES_MAX_LINES)))
  (source_node (YesSource (YesStreamReader_new line STREAMING_YES_MAX_LINES)) piped).
Proof.
  rewrite <-(app_nil_r (concat _)). apply (source_turns _ piped _ Eof). apply (boxed_source_serves (fun c => YesSource c)); [done|]. by apply yes_serves.
Qed.

(** ** Setting up leaves standard output alone *)

Section setup_frame.
Context (I : Rt -> Prop) (Hopen : forall path a rt, I rt -> I (fst (open_write_sink path a rt))) (Hfile : forall path rt, I rt -> I (fst (open_streaming_file_reader path rt))).

Lemma frame_open_targets paths a (p : PipeReadProcess Src Sink) rt : I rt -> I (snd (fst (open_targets paths a p rt))).
Proof.
  induction paths as [|path paths IH] in p, rt |- *; intros Hrt; [done|]. cbn [open_targets]. specialize (Hopen path a rt Hrt).
  destruct (open_write_sink path a rt) as [rt1 [k|err]]; [|by apply IH]. specialize (IH p rt1 Hopen). by destruct (open_targets paths a p rt1) as [[? ?] ?].
Qed.

Lemma frame_setup_stage stage piped rt (n : Node Src Sink) rt' : setup_stage stage piped rt = Some (n, rt') -> I rt -> I rt'.
Proof.
  intros Hs Hrt. destruct stage as [| | | | | |[]|[]| | |t| | | | | | | |]; cbn [setup_stage] in Hs; try done; try (by injection Hs as <- <-).
  unfold TeePipeProcess_new in Hs. pose proof (fun p => frame_open_targets (tee_paths t) (tee_append t) p rt Hrt) as Ho.
  specialize (Ho (PipeReadProcess_new (FromPipe (CatReader (PipeReader_new (Pipe.new PIPEBUFFER_STREAMING_CAPACITY)))) (seed_stage_status (Tee t)) #"tee" piped)).
  destruct (open_targets _ _ _ _) as [[p' rt1] ts]. by injection Hs as <- <-.
Qed.

Lemma frame_setup_later stages rt (ns : list (Node Src Sink)) rt' : setup_later stages rt = Some (ns, rt') -> I rt -> I rt'.
Proof.
  induction stages as [|[stage piped] stages IH] in rt, ns |- *; cbn [setup_later]; [by intros [= <- <-]|].
  destruct (setup_later_streaming_stage stage piped rt) as [[n rt1]|] eqn:Hs; [|done]. cbn [mbind option_bind].
  destruct (setup_later stages rt1) as [[ns1 rt2]|] eqn:Hl; [|done]. intros [= <- <-] Hrt. apply (IH rt1 ns1 Hl).
  destruct stage; try (by apply (frame_setup_stage _ _ _ _ _ Hs)). cbn in Hs. by injection Hs as <- <-.
Qed.
End setup_frame.

Context (plain : Rt -> Prop) (received : Rt -> list Ascii.ascii) (calm : Rt -> Prop) (Hlaws : lawful_session plain received calm).

Lemma drain_stderr_since (ns : list (Node Src Sink)) rt0 rt : since plain received calm rt0 rt -> since plain received calm rt0 (drain_streaming_stage_stderr ns rt).
Proof.
  induction ns as [|n ns IH] in rt |- *; [done|]. intros Hs. cbn [drain_streaming_stage_stderr]. apply IH. destruct (process_stderr (node n)) as [|b e]; [done|].
  by apply since_quiet; [apply (lawful_stderr _ _ _ Hlaws)|].
Qed.

(** ** From end to end *)

Lemma final_pipe_fresh (ns : list (Node Src Sink)) inp : ns <> [] -> Forall (fun n => data (node_output n) = []) ns -> data (final_pipe inp ns) = [].
Proof.
  induction ns as [|n ns IH] in inp |- *; [done|]. intros _ [Hn Hns]%Forall_cons. cbn [final_pipe]. destruct (decide (ns = [])) as [->|Hne]; [done|]. by apply IH.
Qed.

Lemma setup_stage_fresh stage piped rt (n : Node Src Sink) rt' : setup_stage stage piped rt = Some (n, rt') -> data (node_output n) = [].
Proof.
  intros Hs. destruct stage as [| | | | | |[]|[]| | |t| | | | | | | |]; cbn [setup_stage] in Hs; try done; try (by injection Hs as <- <-).
  destruct (TeePipeProcess_new _ _ _ _ _) as [p rt1]. by injection Hs as <- <-.
Qed.

Lemma setup_later_fresh stages rt (ns : list (Node Src Sink)) rt' : setup_later stages rt = Some (ns, rt') -> Forall (fun n => data (node_output n) = []) ns.
Proof.
  induction stages as [|[stage piped] stages IH] in rt, ns |- *; cbn [setup_later]; [by intros [= <- <-]|].
  destruct (setup_later_streaming_stage stage piped rt) as [[n rt1]|] eqn:Hs; [|done]. cbn [mbind option_bind].
  destruct (setup_later stages rt1) as [[ns1 rt2]|] eqn:Hl; [|done]. intros [= <- <-]. constructor; [|by apply (IH rt1 ns1)].
  destruct stage; try (by apply (setup_stage_fresh _ _ _ _ _ Hs)). cbn in Hs. by injection Hs as <- <-.
Qed.

(** The first nodes and the runtime after they are set up. *)
Definition first_set_up (source_reader : option Src) (stage : StreamingPipelineStage) (piped : bool) (rt rt1 : Rt) (first : list (Node Src Sink)) : Prop :=
  match source_reader with
  | Some src => setup_first_with_source src stage piped rt = Some (first, rt1)
  | None => setup_first_without_source stage piped rt = Some (rt1, inr first)
  end.

Lemma first_ready source_reader stage piped rt out : plain rt -> first_writes source_reader stage piped rt out ->
  exists first rt1, first_set_up source_reader stage piped rt rt1 first /\ Forall (fun n => data (node_output n) = []) first /\
    length first = (match source_reader with Some _ => 2 | None => 1 end)%nat /\ since plain received calm rt rt1 /\
    forall ns o m, chain error_text fresh_pipe out ns o m -> exists m', chain error_text no_pipe [] (first ++ ns) o m'.
Proof.
  intros Hplain. unfold first_writes, first_set_up. destruct source_reader as [src|].
  - intros (bs & e & Hs & Hw). destruct (setup_stage_turns stage piped rt bs out Hw) as (n & rt1 & Hset & Hn). unfold setup_first_with_source. rewrite Hset.
    eexists _, rt1. split; [done|]. split; [repeat constructor; by apply (setup_stage_fresh _ _ _ _ _ Hset)|]. split; [done|]. split.
    + apply (frame_setup_stage (since plain received calm rt)) with (stage := stage) (piped := piped) (rt := rt) (n := n); [|done|by apply since_refl].
      intros path a r. exact (since_quiet _ _ _ _ rt r (lawful_open _ _ _ Hlaws path a)).
    + intros ns o m Hch. destruct (Hn ns o m Hch) as [m1 Hm1].
      pose proof (source_turns (OtherSource src) false bs e (boxed_source_serves (fun c => OtherSource c) src bs e ltac:(done) Hs)) as Hsrc.
      apply (Hsrc (n :: ns) o m1). replace (bs ++ _) with bs; [done|]. by destruct e; rewrite app_nil_r.
  - destruct stage; try done; cbn [setup_first_without_source].
    + intros ->. eexists _, rt. split; [done|]. split; [by repeat constructor|]. split; [done|]. split; [by apply since_refl|]. apply literal_turns.
    + intros (src & bs & e & Ho & Hs & ->). pose proof (lawful_file _ _ _ Hlaws path rt Hplain) as Hrec. cbn beta in Hrec.
      destruct (open_streaming_file_reader path rt) as [rt1 [src'|]]; [|done]. cbn in Ho, Hrec. injection Ho as ->.
      eexists _, rt1. split; [done|]. split; [by repeat constructor|]. split; [done|]. split; [exact Hrec|].
      apply (source_turns (OtherSource src) piped bs e). by apply (boxed_source_serves (fun c => OtherSource c)).
    + intros ->. eexists _, rt. split; [done|]. split; [by repeat constructor|]. split; [done|]. split; [by apply since_refl|]. apply yes_turns.
Qed.

Lemma pipeline_run source_reader stage piped stages rt first out : plain rt -> first_writes source_reader stage piped rt first -> later_output stages first = Some out ->
  exists rt' statuses got rest, eventually (fun f => execute_pipebuffer_streaming_pipeline error_text f source_reader ((stage, piped) :: stages) rt) (Some (rt', Ok statuses)) /\
    length statuses = S (length stages) /\ plain rt' /\ received rt' = received rt ++ got /\ out = got ++ rest /\ (calm rt -> rest = [] /\ calm rt').
Proof.
  intros Hplain Hfirst Hlater. destruct (first_ready source_reader stage piped rt first Hplain Hfirst) as (fs & rt1 & Hset & Hfresh & Hlen & Hs1 & Hturn).
  destruct (setup_later_chain stages rt1 first out Hlater) as (ns & rt2 & m & Hsetl & Hlenl & Hch). destruct (Hturn ns out m Hch) as [m' Hm'].
  assert (Hs2 : since plain received calm rt rt2).
  { apply (frame_setup_later (since plain received calm rt)) with (stages := stages) (rt := rt1) (ns := ns); [|done|done].
    intros path a r. exact (since_quiet _ _ _ _ rt r (lawful_open _ _ _ Hlaws path a)). }
  destruct Hs2 as (Hplain2 & Hrec2 & Hcalm2).
  assert (Hne : fs ++ ns <> []) by (destruct fs; [by destruct source_reader|done]).
  set (k := match source_reader with Some _ => 1%nat | None => 0%nat end).
  destruct (drive_correct error_text plain received calm Hlaws k (fs ++ ns) out m' rt2 Hne Hm') as (ns' & rt3 & Hev & Hlen' & got & rest & Hplain3 & Hrec & Hout & Hc); [|done|].
  { apply final_pipe_fresh; [done|]. apply Forall_app. split; [done|]. by apply (setup_later_fresh stages rt1 ns rt2). }
  assert (Hdrain : since plain received calm rt3 (drain_streaming_stage_stderr (drop k (map close_node ns')) rt3)) by (apply drain_stderr_since; by apply since_refl).
  exists (drain_streaming_stage_stderr (drop k (map close_node ns')) rt3), (map (fun n => process_status (node n)) (drop k (map close_node ns'))), got, rest. split_and!.
  - apply (eventually_map _ (fun '(ns', rt', x) => match x with
      | Ok _ => Some (drain_streaming_stage_stderr (drop k (map close_node ns')) rt', Ok (map (fun n => process_status (node n)) (drop k (map close_node ns'))))
      | Err e => Some (rt', Err e) | Panic w => Some (rt', Panic w) end)) in Hev. destruct Hev as [f0 Hev]. exists f0. intros f Hle. specialize (Hev f Hle). rewrite <-Hev.
    unfold execute_pipebuffer_streaming_pipeline. cbn [head tl mbind option_bind]. unfold first_set_up in Hset. fold k.
    destruct source_reader as [src|]; rewrite Hset; cbn [mbind option_bind]; rewrite Hsetl; cbn [mbind option_bind]; by destruct (drive_streaming_pipeline _ _ _ _ _) as [[? ?] [?|?|?]].
  - rewrite length_map, length_drop, length_map, Hlen', length_app, Hlen, Hlenl. unfold k. by destruct source_reader.
  - apply Hdrain.
  - destruct Hdrain as (_ & -> & _). by rewrite Hrec, Hrec2.
  - done.
  - intros Hcalm. destruct (Hc (Hcalm2 Hcalm)) as (Hrest & _ & Hcalm3). split; [done|]. by apply Hdrain.
Qed.
End pipeline.
