(* ===== verification/StreamRuntime.v ===== *)
(** * Streaming pipelines in the runtime (crates/wasmsh-runtime/src/lib.rs)

    The instance of [Session] that [WorkerRuntime] is: the limits and the budget of
    the virtual machine, the output routing of [Router], the in-memory filesystem
    for the files a pipeline reads and the targets of a [tee].  The runtime keeps
    the laws of [lawful_session] as long as standard output is inherited and
    standard error does not go to standard output; it stays within its limits
    for as long as none is set and nobody cancels it. *)

From S2P Require Import Prelude Strings Fs MemFs IndexMap State Pipe Ast Ir Vm VmProps FdTable Router RouterProps Stream StreamProps StreamStage StreamProcess StreamDriveProps.

(** A reader [stream_file] returned: a cursor over the bytes of a file, or a
    virtual reader.  The handle it came through is closed at once and the next open
    does not find the virtual reader any more, so the cell moves into the reader. *)
Inductive FileReader (R : Type) := FileCursor (c : Cursor) | FileShared (r : R).
Arguments FileCursor {R} _.
Arguments FileShared {R} _.

Section runtime.
Context `{Target} {R Runner : Type} `{MemFs.Read R}.
(** [LiveProcessSubstRunner::write_input]; the kind of an error a virtual reader
    reports with a message. *)
Context (write_input : Runner -> list Ascii.ascii -> Runner) (error_kind : list Ascii.ascii -> ErrorKind).

Abbreviation runtime := (@Runtime R Runner).

#[export] Instance FileReader_reader : Reader (FileReader R) := fun fuel n s =>
  match s with
  | FileCursor c => let '(c', x) := Stream.read fuel n c in (FileCursor c', x)
  | FileShared r => let '(r', x) := read_buf r n in (FileShared r', match x with inl bytes => Ok bytes | inr msg => Err (IoError (error_kind msg)) end)
  end.

(** ** Limits *)

Definition mark_stop_reason (reason : StopReason) (r : runtime) : runtime := set_exhausted true (Some reason) r.
Definition mark_budget_exhaustion (reason : ExhaustionReason) : runtime -> runtime := mark_stop_reason (Exhausted reason).

Definition check_resource_limits (r : runtime) : runtime * bool :=
  if Router.resource_exhausted r then (r, true)
  else match Vm.begin_step (rt_vm r) with
       | (v, inr _) => (set_exhausted true (stop_reason (budget v)) (map_vm (fun _ => v) r), true)
       | (v, inl _) => (map_vm (fun _ => v) r, false)
       end.

Definition sync_pipe_budget (used : Z) (r : runtime) : runtime :=
  if Router.resource_exhausted r then r
  else match Budget.set_pipe_bytes used (pipe_byte_limit (limits (rt_vm r))) (budget (rt_vm r)) with
       | (b, inl _) => map_vm (Vm.set_budget b) r
       | (b, inr reason) =>
           map_vm (Vm.emit_diagnostic Error DBudget (diagnostic_message reason)) (mark_budget_exhaustion reason (map_vm (Vm.set_budget b) r))
       end.

(** ** Files *)

Definition resolve_path_from_cwd (cwd path : str) : str :=
  if starts_with [slash] path then normalize_path path else normalize_path (cwd ++ slash :: path).
Definition resolve_cwd_path (path : str) (r : runtime) : str := resolve_path_from_cwd (cwd (state (rt_vm r))) path.

(** Run an operation of the filesystem. *)
Definition with_fs {A} (m : comp (MemoryFsInner R) FsError A) (r : runtime) : runtime * res FsError A :=
  let '(fs, x) := m (rt_fs r) in (set_store fs (sinks r) r, x).

(** The fresh name of an object behind a [Box]. *)
Definition fresh_sink (r : runtime) : rc := fresh (dom (sinks r) : gset nat).

(** The filesystem does not panic here. *)
Definition open_write_sink (path : str) (append : bool) (r : runtime) : runtime * (rc + str) :=
  match with_fs (MemFs.open_write_sink (resolve_cwd_path path r) append) r with
  | (r, Ok k) => (set_store (rt_fs r) (<[fresh_sink r := k]> (sinks r)) r, inl (fresh_sink r))
  | (r, Err e) => (r, inr (fs_error_display e))
  | (r, Panic w) => (r, inr [])
  end.

Definition file_reader (s : StreamReader) (r : runtime) : option (FileReader R) :=
  match s with
  | CursorReader data pos => Some (FileCursor {| cursor_data := data; cursor_pos := pos |})
  | SharedReadHandle cell => FileShared <$> cells (rt_fs r) !! cell
  end.

(** The handle is closed whether or not the stream could be made. *)
Definition open_streaming_file_reader_in_fs (resolved : str) : comp (MemoryFsInner R) FsError StreamReader := fun fs =>
  match MemFs.open resolved OpenOptions_read fs with
  | (fs, Ok h) => let '(fs, x) := stream_file h fs in (fst (MemFs.close h fs), x)
  | (fs, Err e) => (fs, Err e)
  | (fs, Panic w) => (fs, Panic w)
  end.

Definition open_streaming_file_reader (path cmd_name : str) (r : runtime) : runtime * option (FileReader R) :=
  let resolved := resolve_cwd_path path r in
  let failed e r :=
    (map_vm (fun v => Vm.set_state (set_last_status 1 (state v)) v)
       (Router.write_stderr write_input (#"wasmsh: " ++ cmd_name ++ #": failed to open stdin source " ++ resolved ++ #": " ++ e ++ [newline]) r), None) in
  match with_fs (open_streaming_file_reader_in_fs resolved) r with
  | (r, Ok s) => (r, file_reader s r)
  | (r, Err e) => failed (fs_error_display e) r
  | (r, Panic w) => failed [] r
  end.

(** ** The session *)

#[export] Instance runtime_session : Session runtime (FileReader R) rc := {|
  StreamProcess.check_resource_limits := check_resource_limits;
  StreamProcess.sync_pipe_budget := sync_pipe_budget;
  StreamProcess.resource_exhausted := Router.resource_exhausted;
  StreamProcess.write_stdout := Router.write_stdout write_input;
  StreamProcess.write_stderr := Router.write_stderr write_input;
  StreamProcess.sink_write := fun k d r => let '(r, e) := Router.sink_write k d r in (r, fs_error_display <$> e);
  StreamProcess.open_write_sink := open_write_sink;
  StreamProcess.open_streaming_file_reader := fun path r => open_streaming_file_reader (resolve_cwd_path path r) #"cat" r;
  StreamProcess.last_status := fun r => State.last_status (state (rt_vm r));
|}.

(** ** The laws *)

(** Standard output is inherited, and what goes to standard error does not mix with
    it.  [vars] are the shell variables, which the stages leave alone. *)
Context (vars : ShellEnv).
Definition plain (r : runtime) : Prop :=
  inherited_as (current_exec_io r) true = Some true /\ inherited_as (current_exec_io r) false <> Some true /\ env (state (rt_vm r)) = vars.

(** What the caller has got: the innermost capture of standard output, or the
    visible output. *)
Fixpoint innermost (cs : list OutputCapture) : option (list Ascii.ascii) :=
  match cs with
  | [] => None
  | c :: cs' => match innermost cs' with Some o => Some o | None => if wants_stdout c then Some (cap_stdout c) else None end
  end.
Definition received (r : runtime) : str := default (stdout (rt_vm r)) (innermost (output_captures r)).

(** No limit is set and no stop is pending. *)
Definition calm (r : runtime) : Prop :=
  let v := rt_vm r in
  Router.resource_exhausted r = false /\ cancel v = false /\ stop_reason (budget v) = None /\
  step_limit (limits v) <= 0 /\ output_byte_limit (limits v) <= 0 /\ pipe_byte_limit (limits v) <= 0.

(** ** Changes that neither route nor limit anything *)

Abbreviation quiet f := (StreamDriveProps.quiet plain received calm f).
Abbreviation since := (StreamDriveProps.since plain received calm).

(** A change of the virtual machine that leaves the output and the variables alone. *)
Lemma quiet_vm (f : Vm -> Vm) : (forall v, stdout (f v) = stdout v /\ env (state (f v)) = env (state v)) ->
  (forall r, calm r -> calm (map_vm f r)) -> quiet (map_vm f).
Proof.
  intros Hf Hc r Hp. destruct (Hf (rt_vm r)) as [Ho He]. split_and!; [|unfold received; cbn; by rewrite Ho|apply Hc].
  unfold plain. cbn. by rewrite He.
Qed.

Lemma quiet_store fs k r : plain r -> since r (set_store fs k r).
Proof. by intros Hp. Qed.

Lemma account_calm n r : calm r -> calm (account_output n r).
Proof.
  unfold account_output, flag_output_limit_if_needed, calm. intros (He & Hc & Hs & Hl1 & Hl2 & Hl3). cbn. rewrite He.
  unfold Vm.track_output, Budget.track_visible_output, Vm.check_output_limit. cbn.
  rewrite (proj2 (Z.ltb_ge 0 _) Hl2). cbn [andb]. cbn. by rewrite Hs.
Qed.

Lemma account_state n (r : runtime) : state (rt_vm (account_output n r)) = state (rt_vm r).
Proof.
  assert (Hv : state (fst (Vm.track_output n (rt_vm r))) = state (rt_vm r)) by (unfold Vm.track_output; by destruct (Budget.track_visible_output _ _ _)).
  unfold account_output, flag_output_limit_if_needed. case_split; [done|]. unfold Vm.check_output_limit. cbn [rt_vm map_vm].
  destruct (stop_reason _) as [[reason|]|]; [destruct (decide (category reason = VisibleOutputBytes))|..]; cbn; by rewrite ?Hv.
Qed.

Lemma account_quiet n : quiet (account_output n).
Proof.
  intros r Hp. split_and!; [| |apply account_calm].
  - unfold plain. by rewrite account_exec_io, account_state.
  - assert (Hv : stdout (fst (Vm.track_output n (rt_vm r))) = stdout (rt_vm r)) by (unfold Vm.track_output; by destruct (Budget.track_visible_output _ _ _)).
    unfold account_output, flag_output_limit_if_needed. case_split; [unfold received; cbn; by rewrite Hv|]. unfold Vm.check_output_limit. cbn [rt_vm map_vm].
    unfold received. destruct (stop_reason _) as [[reason|]|]; [destruct (decide (category reason = VisibleOutputBytes))|..]; cbn; by rewrite ?Hv.
Qed.

Lemma since_calm f r0 r : quiet f -> since r0 r -> since r0 (f r).
Proof. apply since_quiet. Qed.

(** ** Writing *)

Lemma innermost_append d cs :
  match update_last (capture_append true d) cs with
  | Some cs' => exists o, innermost cs = Some o /\ innermost cs' = Some (o ++ d)
  | None => innermost cs = None
  end.
Proof.
  induction cs as [|c cs IH]; [done|]. cbn [update_last innermost]. destruct (update_last (capture_append true d) cs) as [cs'|].
  - destruct IH as (o & -> & He). exists o. cbn [innermost]. by rewrite He.
  - rewrite IH. unfold capture_append. destruct (wants_stdout c) eqn:Hw; cbn; [|done]. exists (cap_stdout c). by rewrite IH.
Qed.

Lemma innermost_stderr d cs cs' : update_last (capture_append false d) cs = Some cs' -> innermost cs' = innermost cs.
Proof.
  revert cs'. induction cs as [|c cs IH]; intros cs'; [done|]. cbn [update_last]. destruct (update_last (capture_append false d) cs) as [cs1|] eqn:Hu.
  - intros [= <-]. cbn [innermost]. by rewrite (IH cs1).
  - unfold capture_append. destruct (wants_stderr c); [|done]. by intros [= <-].
Qed.

Lemma write_stdout_spec d r : plain r ->
  plain (Router.write_stdout write_input d r) /\ received (Router.write_stdout write_input d r) = received r ++ d /\
  (calm r -> calm (Router.write_stdout write_input d r)).
Proof.
  intros Hp.
  assert (Hroute : route_output write_input d true r = deliver_inherited d true r).
  { destruct Hp as [Hp _]. revert Hp. unfold inherited_as, route_output, route_output_with. by destruct (Io.output_target true <$> current_exec_io r) as [[]|]. }
  unfold Router.write_stdout, write_stream. rewrite Hroute. pose proof (innermost_append d (output_captures r)) as Hi. unfold deliver_inherited.
  destruct (update_last (capture_append true d) (output_captures r)) as [cs|].
  - destruct Hi as (o & Ho & Ho'). split; [done|]. unfold received. cbn. by rewrite Ho, Ho'.
  - destruct (account_quiet (len d) (append_visible_output_direct d true r) Hp) as (Hp' & -> & Hc). split; [done|]. split; [|by intros ?; apply Hc].
    unfold received. cbn. by rewrite Hi.
Qed.

Lemma append_stderr_since d r : plain r -> since r (append_visible_output_direct d false r).
Proof. intros Hp. split_and!; [done| |done]. unfold received. cbn. by rewrite app_nil_r. Qed.

Lemma deliver_stderr_since d r r' b : plain r -> deliver_inherited d false r = (r', b) -> since r r'.
Proof.
  intros Hp. unfold deliver_inherited. destruct (update_last (capture_append false d) (output_captures r)) as [cs|] eqn:Hu; intros [= <- _].
  - split_and!; [done| |done]. unfold received. cbn. by rewrite (innermost_stderr _ _ _ Hu).
  - by apply append_stderr_since.
Qed.

Lemma emit_stderr_quiet d : quiet (emit_visible_stderr_direct d).
Proof. intros r Hp. apply (since_quiet _ _ _ (account_output (len d))); [apply account_quiet|by apply append_stderr_since]. Qed.

Lemma sink_write_since k d r : plain r -> since r (fst (Router.sink_write k d r)).
Proof.
  intros Hp. unfold Router.sink_write. destruct (sinks r !! k) as [s|]; [|by apply since_refl].
  destruct (write_chunk s d (rt_fs r)) as [fs [?|?|?]]; by apply quiet_store.
Qed.

Lemma diagnostic_quiet l c m : quiet (map_vm (Vm.emit_diagnostic l c m)).
Proof. by apply quiet_vm. Qed.

Lemma destination_since t d r : plain r -> t <> InheritStdout -> since r (fst (write_output_destination write_input t d r)).
Proof.
  intros Hp Ht. destruct t as [| |path a k|path|p|]; cbn [write_output_destination]; [done|by apply append_stderr_since|..|by apply since_refl].
  - pose proof (sink_write_since k d r Hp) as Hs. destruct (Router.sink_write k d r) as [r1 [e|]]; [|done]. cbn [fst] in *.
    apply (since_quiet _ _ _ (map_vm (fs_diagnostic path e))); [apply diagnostic_quiet|].
    apply (since_quiet _ _ _ (emit_visible_stderr_direct (write_error_message e))); [apply emit_stderr_quiet|done].
  - destruct (on_process_subst path (ps_write write_input d) (proc_subst_out_scopes r)); [by split|by apply emit_stderr_quiet].
  - cbn [fst]. unfold pipe_write. by destruct (pipes r !! p).
Qed.

Lemma write_stderr_quiet d : quiet (Router.write_stderr write_input d).
Proof.
  intros r Hp. unfold Router.write_stderr, write_stream.
  assert (Hs : since r (fst (route_output write_input d false r))).
  { destruct Hp as (Hp1 & Hp2 & Hp3) eqn:Hp'. clear Hp'. unfold route_output, route_output_with. unfold inherited_as in Hp2.
    destruct (Io.output_target false <$> current_exec_io r) as [t|].
    - destruct t as [| |path a k|path|p|] eqn:Ht; [done| |by apply destination_since..].
      destruct (deliver_inherited d false r) as [r1 b] eqn:Hd. by apply (deliver_stderr_since d r r1 b).
    - destruct (deliver_inherited d false r) as [r1 b] eqn:Hd. by apply (deliver_stderr_since d r r1 b). }
  destruct (route_output write_input d false r) as [r1 [|]]; cbn [fst] in Hs; [|done].
  apply (since_quiet _ _ _ (account_output (len d))); [apply account_quiet|done].
Qed.

(** ** Limits and files *)

Lemma begin_step_stdout v : stdout (fst (Vm.begin_step v)) = stdout v.
Proof.
  unfold Vm.begin_step, Vm.check_output_limit, Vm.budget_stop, Budget.begin_step.
  repeat (case_split || case_match); simplify_eq/=; done.
Qed.

Lemma begin_step_state v : state (fst (Vm.begin_step v)) = state v.
Proof.
  unfold Vm.begin_step, Vm.check_output_limit, Vm.budget_stop, Budget.begin_step.
  repeat (case_split || case_match); simplify_eq/=; done.
Qed.

Lemma calm_begin_step r : calm r -> exists v, Vm.begin_step (rt_vm r) = (v, inl tt) /\ calm (map_vm (fun _ => v) r).
Proof.
  unfold calm. intros (He & Hc & Hs & Hl1 & Hl2 & Hl3). unfold Vm.begin_step, Vm.check_output_limit, Budget.begin_step.
  rewrite Hc, Hs, (proj2 (Z.ltb_ge 0 _) Hl1). by eexists.
Qed.

Lemma check_quiet : quiet (fun r => fst (check_resource_limits r)).
Proof.
  intros r Hp. unfold check_resource_limits. destruct (Router.resource_exhausted r) eqn:He; [by apply since_refl|].
  split_and!; [pose proof (begin_step_state (rt_vm r)) as Hv; unfold plain; destruct (Vm.begin_step (rt_vm r)) as [v [?|?]]; cbn in *; by rewrite Hv| |].
  - pose proof (begin_step_stdout (rt_vm r)) as Hv. unfold received. by destruct (Vm.begin_step (rt_vm r)) as [v [?|?]]; cbn in *; rewrite Hv.
  - intros Hc. by destruct (calm_begin_step r Hc) as (v & -> & Hv).
Qed.

Lemma sync_quiet z : quiet (sync_pipe_budget z).
Proof.
  intros r Hp. unfold sync_pipe_budget. destruct (Router.resource_exhausted r) eqn:He; [by apply since_refl|].
  unfold Budget.set_pipe_bytes. split_and!; [by case_split|by case_split|].
  unfold calm. intros (? & ? & ? & ? & ? & Hl). by rewrite (proj2 (Z.ltb_ge 0 _) Hl).
Qed.

Lemma open_sink_quiet path a : quiet (fun r => fst (open_write_sink path a r)).
Proof. intros r Hp. unfold open_write_sink, with_fs. by destruct (MemFs.open_write_sink _ _ _) as [fs [?|?|?]]. Qed.

Lemma open_reader_quiet path name : quiet (fun r => fst (open_streaming_file_reader path name r)).
Proof.
  assert (Hf : forall m, quiet (fun r => map_vm (fun v => Vm.set_state (set_last_status 1 (state v)) v) (Router.write_stderr write_input m r))).
  { intros m r Hp. apply (since_quiet _ _ _ (map_vm (fun v => Vm.set_state (set_last_status 1 (state v)) v))); [by apply quiet_vm|by apply write_stderr_quiet]. }
  intros r Hp. unfold open_streaming_file_reader, with_fs. destruct (open_streaming_file_reader_in_fs _ _) as [fs [s|e|w]]; cbn [fst]; [by apply quiet_store| |];
    (refine (since_quiet _ _ _ _ r _ (Hf _) _); by apply quiet_store).
Qed.

Lemma runtime_lawful : lawful_session plain received calm.
Proof.
  split; cbn.
  - intros d r. apply write_stdout_spec.
  - apply check_quiet.
  - apply sync_quiet.
  - intros k d r Hp. pose proof (sink_write_since k d r Hp) as Hs. by destruct (Router.sink_write k d r).
  - apply write_stderr_quiet.
  - apply open_sink_quiet.
  - intros path r. apply open_reader_quiet.
  - intros r Hc. unfold check_resource_limits. destruct (calm_begin_step r Hc) as (v & -> & _). destruct Hc as (He & _). by rewrite He.
  - by intros r (He & _).
Qed.
End runtime.
