(* ===== verification/StreamRun.v ===== *)
(** * Running a compiled pipeline (crates/wasmsh-runtime/src/lib.rs)

    What surrounds the driver: the choice of a stage for each command, the statuses
    in [PIPESTATUS] and [$?], and the pipelines of one stage, which need no pipes.
    The words of a command are expanded elsewhere: [resolved_argv] is the result. *)

From S2P Require Import Prelude Strings Fs MemFs IndexMap State StateProps Pipe Ast Hir Ir Vm VmProps FdTable Router RouterProps Utf8 Stream StreamProps StreamLines StreamBytes StreamGrep StreamSed StreamArgs StreamStage StreamProcess StreamDrive StreamDriveProps StreamPipeline StreamRuntime.

Section run.
Context `{Target} `{Unicode} `{PosixRegex} {R Runner : Type} `{MemFs.Read R}.
Context (write_input : Runner -> list Ascii.ascii -> Runner) (error_kind : list Ascii.ascii -> ErrorKind) (error_text : ErrorKind -> list Ascii.ascii).

Abbreviation runtime := (@Router.Runtime R Runner).

#[local] Instance run_reader : Reader (FileReader R) := FileReader_reader error_kind.
#[local] Instance run_session : Session runtime (FileReader R) rc := runtime_session write_input.

(** ** Choosing the stages *)

Definition uses_native_pipe_scheduler (stage : StreamingPipelineStage) : bool := match stage with BufferedCommand _ => false | _ => true end.

(** A parser that answers [None] leaves the command to the executor; a panic is not
    caught. *)
Definition compile_pipeline_stage_from_argv (env : StageEnv) (expand_aliases : bool) (aliases : gset (list Ascii.ascii)) (cmd : HirCommand) (is_first : bool)
    (resolved_argv : option (list str)) : res no_stage StreamingPipelineStage :=
  let hir := BufferedCommand (BufferedHir cmd) in
  match resolved_argv with
  | None => mret hir
  | Some argv =>
      let named (s : gset (list Ascii.ascii)) := match argv with name :: _ => bool_decide (name ∈ s) | [] => false end in
      if expand_aliases && named aliases then mret hir
      else if named (functions env) then mret (BufferedCommand (BufferedArgv argv))
      else match parse_streaming_stage env argv is_first with
           | Ok stage => mret (if uses_native_pipe_scheduler stage then stage else BufferedCommand (BufferedArgv argv))
           | Err NotStreaming => mret hir
           | Panic w => Panic w
           end
  end.

(** The argument [$_] remembers. *)
Definition last_argument_of (resolved_argv : option (list str)) : option str := argv ← resolved_argv; last argv.

Fixpoint compile_pipeline_stages (env : StageEnv) (expand_aliases : bool) (aliases : gset (list Ascii.ascii)) (is_first : bool)
    (cmds : list (HirCommand * option (list str))) : res no_stage (list StreamingPipelineStage * list (option str)) :=
  match cmds with
  | [] => mret ([], [])
  | (cmd, argv) :: cmds' =>
      stage ← compile_pipeline_stage_from_argv env expand_aliases aliases cmd is_first argv;
      '(stages, last_args) ← compile_pipeline_stages env expand_aliases aliases false cmds';
      mret (stage :: stages, last_argument_of argv :: last_args)
  end.

(** ** Statuses *)

Definition map_state (f : ShellState -> ShellState) : runtime -> runtime := map_vm (fun v => Vm.set_state (f (state v)) v).

Fixpoint set_statuses (i : Z) (statuses : list Z) (st : ShellState) : ShellState :=
  match statuses with
  | [] => st
  | s :: statuses' => set_statuses (i + 1) statuses' (set_array_element st #"PIPESTATUS" (Z_to_string i) (Z_to_string s))
  end.
Definition set_pipestatus (statuses : list Z) : runtime -> runtime := map_state (fun st => set_statuses 0 statuses (init_indexed_array st #"PIPESTATUS")).

Definition set_status (s : Z) (r : runtime) : runtime := if Router.resource_exhausted r then r else map_state (set_last_status s) r.

(** [stage_pipe_stderr]: a missing flag is [false]. *)
Definition stage_pipe_stderr (pipe_stderr : list bool) (n : nat) : list bool := map (fun i => default false (pipe_stderr !! i)) (seq 0 n).

(** [execute_scheduled_pipeline_with_source_reader] once the stages are known and
    there is something to connect. *)
Definition execute_scheduled_pipeline (fuel : nat) (source_reader : option (FileReader R)) (stages : list StreamingPipelineStage) (last_args : list (option str))
    (pipe_stderr : list bool) (pipefail : bool) (r : runtime) : option (runtime * res io_stop unit) :=
  '(r, x) ← execute_pipebuffer_streaming_pipeline error_text fuel source_reader (zip stages (stage_pipe_stderr pipe_stderr (length stages))) r;
  match x with
  | Ok statuses =>
      let r := match head (omap id (rev last_args)) with Some a => map_state (set_last_argument a) r | None => r end in
      Some (set_status (resolve_pipeline_exit_status statuses pipefail) (set_pipestatus statuses r), Ok tt)
  | Err e => Some (r, Err e)
  | Panic w => Some (r, Panic w)
  end.

(** ** One stage *)

Fixpoint yes_writes (lines : nat) (line : str) (r : runtime) : runtime * Z :=
  match lines with
  | O => (r, 0)
  | S k => let r := Router.write_stdout write_input line r in if Router.resource_exhausted r then (r, 1) else yes_writes k line r
  end.
Definition execute_single_stage_yes (line : str) (r : runtime) : runtime * Z := yes_writes (Z.to_nat STREAMING_YES_MAX_LINES) line r.

Fixpoint copy_file (fuel : nat) (src : FileReader R) (r : runtime) : res io_stop (runtime * Z) :=
  match fuel with
  | O => Err OutOfFuel
  | S f =>
      match Stream.read f SCRATCH src with
      | (_, Ok []) => mret (r, 0)
      | (src, Ok bytes) =>
          let r := Router.write_stdout write_input bytes r in if Router.resource_exhausted r then mret (r, 1) else copy_file f src r
      | (_, Err (IoError k)) => mret (Router.write_stderr write_input (#"wasmsh: cat: stdin read error: " ++ error_text k ++ [newline]) r, 1)
      | (_, Err OutOfFuel) => Err OutOfFuel
      | (_, Panic w) => Panic w
      end
  end.
Definition execute_single_stage_file (fuel : nat) (path : str) (r : runtime) : res io_stop (runtime * Z) :=
  match StreamRuntime.open_streaming_file_reader write_input (resolve_cwd_path path r) #"cat" r with
  | (r, Some src) => copy_file fuel src r
  | (r, None) => mret (r, State.last_status (state (rt_vm r)))
  end.

(** [run_buffered] executes the command of a buffered stage. *)
Context (run_buffered : BufferedPipelineCommand -> runtime -> runtime).

Definition execute_scheduled_single_stage (fuel : nat) (stage : StreamingPipelineStage) (r : runtime) : res io_stop (runtime * Z) :=
  match stage with
  | Literal data => mret (Router.write_stdout write_input data r, 0)
  | StreamArgs.File path => execute_single_stage_file fuel path r
  | Yes line => mret (execute_single_stage_yes line r)
  | BufferedCommand cmd => let r := run_buffered cmd r in mret (r, State.last_status (state (rt_vm r)))
  | _ => mret (Router.write_stderr write_input (#"wasmsh: unsupported single-stage scheduler node" ++ [newline]) (map_state (set_last_status 1) r), 1)
  end.

(** ** Theorems *)

(** [PIPESTATUS] while it is written. *)
Definition status_elements (ss : list Z) : list (Z * str) := imap (fun i s => (Z.of_nat i, Z_to_string s)) ss.

Definition holds_statuses (ss : list Z) (st : ShellState) : Prop := exists var, Env.get #"PIPESTATUS" (env st) = Some var /\ readonly var = false /\
  value var = IndexedArray (status_elements ss).

Lemma status_elements_snoc ss s : status_elements (ss ++ [s]) = status_elements ss ++ [(len ss, Z_to_string s)].
Proof. unfold status_elements, len. rewrite imap_app. cbn. by rewrite Nat.add_0_r. Qed.

Lemma status_elements_next ss : len ss ∉ im_keys (status_elements ss).
Proof.
  unfold im_keys, status_elements. rewrite fmap_imap. intros (i & x & Hi & Hlt)%elem_of_lookup_imap. cbn in Hi.
  apply lookup_lt_Some in Hlt. unfold len in Hi. lia.
Qed.

Lemma hold_next ss s st : len ss <= usize_max -> holds_statuses ss st ->
  holds_statuses (ss ++ [s]) (set_array_element st #"PIPESTATUS" (Z_to_string (len ss)) (Z_to_string s)).
Proof.
  intros Hl (var & Hg & Hr & Hv). unfold set_array_element, attrs. rewrite Hg, Hr. unfold holds_statuses. rewrite env_set_env, get_get_mut, decide_True, Hg by done.
  eexists. split; [reflexivity|]. split; [done|]. cbn. rewrite Hv. unfold insert_at. rewrite parse_usize_to_string by (split; [apply len_nonneg|done]).
  by rewrite im_insert_new, status_elements_snoc by apply status_elements_next.
Qed.

Lemma hold_all ss done st : len (done ++ ss) <= usize_max -> holds_statuses done st -> holds_statuses (done ++ ss) (set_statuses (len done) ss st).
Proof.
  induction ss as [|s ss IH] in done, st |- *; intros Hl Hh; [by rewrite app_nil_r|]. cbn [set_statuses].
  assert (Hd : len done <= usize_max) by (unfold len in *; rewrite length_app in Hl; lia).
  specialize (IH (done ++ [s]) (set_array_element st #"PIPESTATUS" (Z_to_string (len done)) (Z_to_string s))). rewrite <-app_assoc in IH.
  replace (len (done ++ [s])) with (len done + 1) in IH by (unfold len; rewrite length_app; cbn; lia). apply IH; [done|]. by apply hold_next.
Qed.

(** After a pipeline [PIPESTATUS] is the array of its statuses, unless the script
    made it read-only. *)
Lemma pipestatus_read_back statuses (r : runtime) : scopes (env (state (rt_vm r))) <> [] -> is_var_readonly (state (rt_vm r)) #"PIPESTATUS" = false ->
  len statuses <= usize_max -> get_array_values (state (rt_vm (set_pipestatus statuses r))) #"PIPESTATUS" = map Z_to_string statuses.
Proof.
  intros Hne Hro Hl. set (st := state (rt_vm r)) in *.
  assert (Hinit : holds_statuses [] (init_indexed_array st #"PIPESTATUS")).
  { unfold init_indexed_array, init_array, attrs. unfold is_var_readonly in Hro. destruct (Env.get _ (env st)) as [v|]; rewrite ?Hro;
      (eexists; rewrite env_set_env, get_set_eq by done; split; [reflexivity|by split; rewrite ?Hro]). }
  destruct (hold_all statuses [] _ Hl Hinit) as (var & Hg & _ & Hv). unfold get_array_values. change (state (rt_vm (set_pipestatus statuses r))) with
    (set_statuses 0 statuses (init_indexed_array st #"PIPESTATUS")). cbn [app] in Hg, Hv. change (len []) with 0 in Hg. rewrite Hg, Hv.
  unfold im_values, status_elements. rewrite fmap_imap. apply (imap_const Z_to_string).
Qed.
End run.
