(* ===== verification/StreamSpec.v ===== *)
(** * What the streaming stages and pipelines do

    The contracts of the stages and the driver, as a consumer of a reader and the
    user of the shell see them. *)

From S2P Require Import Prelude Strings Fs MemFs IndexMap State Pipe Ast Ir Vm VmProps FdTable Router RouterProps Utf8 Stream StreamProps StreamLines StreamLinesProps StreamBytes StreamBytesProps StreamGrep StreamGrepProps StreamSed StreamSedProps StreamArgs StreamStage StreamStageProps StreamProcess StreamProcessProps StreamDrive StreamDriveProps StreamPipeline StreamRuntime StreamRun.

(** ** A consumer that is never told to wait *)

Section consumer.
Context {R : Type} `{Reader R}.

(** More buffers than bytes are enough. *)
Lemma reads_all (S : R -> list Ascii.ascii -> ending -> Prop) r bs e ns : closed S (fun _ => False) -> S r bs e -> Forall (fun n => 0 < n)%nat ns ->
  (length bs < length ns)%nat -> exists r', eventually (fun f => reads f ns r) (r', bs, Some (last_answer e)).
Proof.
  intros HS Hs Hns. revert r bs Hs. induction Hns as [|n ns Hn Hns IH]; intros r bs Hs Hl; [cbn in Hl; lia|]. cbn [length] in Hl.
  destruct (HS _ _ _ _ Hs Hn) as (r' & out & Hev & Hrep).
  assert (Hgo : forall x, eventually (fun f => after_read (reads f ns) (r', out)) x -> eventually (fun f => reads f (n :: ns) r) x).
  { intros x. apply (eventually_bind _ (fun f => after_read (reads f ns)) _ _ Hev). }
  destruct out as [[|c cs]|[[| |code]|]|]; cbn [reply] in Hrep; try done.
  - destruct Hrep as (-> & -> & _). exists r'. by apply Hgo, eventually_now.
  - destruct Hrep as (_ & rest & -> & Hr'). destruct (IH r' rest Hr') as [r2 Hev2]; [rewrite length_app in Hl; cbn in Hl; lia|]. exists r2.
    apply Hgo. by apply (eventually_map _ (fun p => let '(r', bs, x) := p in (r', (c :: cs) ++ bs, x)) _ Hev2).
  - by destruct Hrep.
  - destruct Hrep as (-> & -> & _). exists r'. by apply Hgo, eventually_now.
  - destruct Hrep as (-> & -> & _). eexists r'. by apply Hgo, eventually_now.
Qed.
End consumer.

(** A stage whose inner reader never makes it wait never makes its consumer wait. *)
Lemma keeps_reads_all {R T} `{Reader R} `{Reader T} (get : T -> R) put new f r inp e out e' ns : keeps get put new f -> source_serves r inp e ->
  f inp e = Some (out, e') -> Forall (fun n => 0 < n)%nat ns -> (length out < length ns)%nat ->
  exists s', eventually (fun f => reads f ns (new r)) (s', out, Some (last_answer e')).
Proof.
  intros (Hold & Hclosed & _ & Hnew) (S & HS & Hs) Hout Hns Hl. apply (reads_all (Hold S)); [exact (Hclosed S _ HS)|by apply (Hnew S r inp e)|done|done].
Qed.

Section stages.
Context `{Target} `{Unicode} `{PosixRegex} {R : Type} `{Reader R}.

(** C8: A stage of a streaming pipeline reads its input through any reader, in
    pieces of any size and with interruptions at any point, and delivers what its
    definition on whole inputs says: a consumer with non-empty buffers gets a prefix of
    that text and is told the end, the right one, only after all of it; if the inner
    reader never makes it wait, it gets everything. *)
Theorem stage_reads stage st (r : R) inp e out e' ns : stage_output stage inp e = Some (out, e') -> Forall (fun n => 0 < n)%nat ns ->
  (serves r inp e -> exists s' got rest x, eventually (fun f => reads f ns (stage_new stage st r)) (s', got, x) /\ out = got ++ rest /\
    (forall o, x = Some o -> rest = [] /\ o = last_answer e')) /\
  (source_serves r inp e -> (length out < length ns)%nat ->
    exists s', eventually (fun f => reads f ns (stage_new stage st r)) (s', out, Some (last_answer e'))).
Proof.
  intros Hout Hns. split; [|intros; eapply keeps_reads_all; [apply stage_keeps|done..]].
  intros Hr. destruct (reads_served (stage_new stage st r) out e' ns) as (s' & got & rest & x & Hev & Hsplit & _ & Hx); [|done|by exists s', got, rest, x].
  by eapply keeps_serves; [apply stage_keeps|..].
Qed.

(** The lines of an input that a pattern selects, numbered. *)
Definition selected (gs : StreamingGrepStage) (e : ending) (inp : str) : list (Z * str) :=
  filter (fun nl => sel gs (snd nl) = true) (number 0 (lines e inp)).

Definition plain_grep (fl : StreamingGrepFlags) : Prop :=
  only_matching fl = false /\ StreamGrep.quiet fl = false /\ files_only fl = false /\ before_context fl <= 0 /\ after_context fl <= 0 /\ max_count fl = None.

Lemma up_to_max_all gs k ls : max_count (grep_flags gs) = None -> up_to_max gs k ls = ls /\ stops gs k ls = false.
Proof.
  intros Hm. induction ls as [|l ls IH] in k |- *; [done|]. cbn [up_to_max stops]. unfold reached. rewrite Hm. cbn [orb].
  destruct (IH (k + 1)) as [-> ->], (IH k) as [-> ->]. by destruct (sel gs l).
Qed.

Lemma number_count gs n ls : len (filter (fun nl => sel gs (snd nl) = true) (number n ls)) = matches_of gs ls.
Proof.
  induction ls as [|l ls IH] in n |- *; [done|]. cbn [number]. rewrite matches_cons, filter_cons, <-(IH (n + 1)). cbn [snd].
  unfold len. destruct (sel gs l); case_decide; try done; cbn [length]; lia.
Qed.



(** C21: [wc] counts the newlines, the words, the bytes and the longest line of an
    input of at most [usize::MAX] bytes exactly; none of its counters wraps. *)
Theorem wc_counts fl (r : R) inp ns : source_serves r inp Eof -> len inp <= usize_max -> Forall (fun n => 0 < n)%nat ns ->
  let text := wc_summary fl {| n_lines := newlines inp; n_words := word_starts false inp; n_bytes := len inp; max_line_length := longest (map fst (raw_lines inp));
                               current_line_length := 0; in_word := false; saw_input := false; wc_ended_with_newline := false |} in
  (length text < length ns)%nat -> exists s', eventually (fun f => reads f ns (WcStreamReader_new r fl)) (s', text, Some (Ok tt)).
Proof.
  intros Hs Hb Hns text Hl. eapply (keeps_reads_all _ _ _ _ _ _ _ _ Eof _ (wc_contract fl)); [done| |done|done]. cbn. by rewrite wc_text_report.
Qed.
End stages.

(** ** A pipeline of the runtime *)

Section pipeline.
Context `{Target} `{Unicode} `{PosixRegex} {R Runner : Type} `{MemFs.Read R}.
Context (write_input : Runner -> list Ascii.ascii -> Runner) (error_kind : list Ascii.ascii -> ErrorKind) (error_text : ErrorKind -> list Ascii.ascii).

#[local] Instance file_reader : Reader (FileReader R) := FileReader_reader error_kind.
#[local] Instance session : Session (@Router.Runtime R Runner) (FileReader R) rc := runtime_session write_input.

(** What the later stages make of [first], with their [|&] flags. *)
Definition rest_output (stages : list StreamingPipelineStage) (pipe_stderr : list bool) (first : str) : option str :=
  later_output (zip stages (tl (stage_pipe_stderr pipe_stderr (S (length stages))))) first.

Definition first_flag (pipe_stderr : list bool) : bool := default false (head pipe_stderr).

Lemma stages_zip (stage : StreamingPipelineStage) (stages : list StreamingPipelineStage) pipe_stderr : zip (stage :: stages) (stage_pipe_stderr pipe_stderr (length (stage :: stages))) =
  (stage, first_flag pipe_stderr) :: zip stages (tl (stage_pipe_stderr pipe_stderr (S (length stages)))).
Proof. unfold stage_pipe_stderr, first_flag. cbn. by destruct pipe_stderr. Qed.

Lemma zip_length (stages : list StreamingPipelineStage) pipe_stderr : length (zip stages (tl (stage_pipe_stderr pipe_stderr (S (length stages))))) = length stages.
Proof. unfold stage_pipe_stderr. cbn [seq map tl]. rewrite length_zip_with_l_eq; [done|]. by rewrite length_map, length_seq. Qed.

(** C7: A streaming pipeline of the runtime ends.  Its driver polls every process
    and passes their output on through pipes of one byte; however the stages
    interleave, standard output gets the composition of the stages, or a beginning
    of it when the session's limits or a cancellation stop it.  PIPESTATUS holds the
    statuses of the stages, one for each.  Without limits all of the text arrives and
    the status of the command is that of the last stage, or with pipefail the
    last one that is not zero. *)
Theorem streaming_pipeline_delivers source_reader stage stages last_args pipe_stderr pipefail (r : @Router.Runtime R Runner) first out :
  plain (env (state (rt_vm r))) r -> scopes (env (state (rt_vm r))) <> [] -> is_var_readonly (state (rt_vm r)) #"PIPESTATUS" = false -> len (stage :: stages) <= usize_max ->
  first_writes error_text source_reader stage (first_flag pipe_stderr) r first -> rest_output stages pipe_stderr first = Some out ->
  exists r' statuses got rest,
    eventually (fun f => execute_scheduled_pipeline write_input error_kind error_text f source_reader (stage :: stages) last_args pipe_stderr pipefail r) (Some (r', Ok tt)) /\
    length statuses = length (stage :: stages) /\ get_array_values (state (rt_vm r')) #"PIPESTATUS" = map Z_to_string statuses /\
    received r' = received r ++ got /\ out = got ++ rest /\
    (calm r -> rest = [] /\ State.last_status (state (rt_vm r')) = resolve_pipeline_exit_status statuses pipefail).
Proof.
  intros Hplain Hne Hro Hlen Hfirst Hout.
  destruct (pipeline_run error_text (plain _) received calm (runtime_lawful write_input _) source_reader stage (first_flag pipe_stderr) _ r first out Hplain Hfirst Hout)
    as (r1 & statuses & got & rest & [f0 Hev] & Hsl & (_ & _ & Hvars) & Hrec & Hsplit & Hcalm).
  rewrite zip_length in Hsl. set (r2 := match head (omap id (rev last_args)) with Some a => map_state (set_last_argument a) r1 | None => r1 end).
  assert (Hkeep : env (state (rt_vm r2)) = env (state (rt_vm r)) /\ received r2 = received r1 /\ Router.resource_exhausted r2 = Router.resource_exhausted r1).
  { subst r2. by destruct (head _). }
  destruct Hkeep as (Henv & Hrec2 & Hex). exists (set_status (resolve_pipeline_exit_status statuses pipefail) (set_pipestatus statuses r2)), statuses, got, rest. split_and!.
  - exists f0. intros f Hle. unfold execute_scheduled_pipeline. rewrite stages_zip. specialize (Hev f Hle).
    unfold run_session, run_reader, session, file_reader, mbind, option_bind in *. by rewrite Hev.
  - done.
  - transitivity (get_array_values (state (rt_vm (set_pipestatus statuses r2))) #"PIPESTATUS"); [unfold set_status; by case_split|].
    apply pipestatus_read_back; [by rewrite Henv|unfold is_var_readonly in *; by rewrite Henv|]. unfold len in *. by rewrite Hsl.
  - rewrite <-Hrec, <-Hrec2. unfold set_status. by case_split.
  - done.
  - intros Hc. destruct (Hcalm Hc) as (Hrest & Hend). split; [done|]. destruct Hend as (He & _). unfold set_status. cbn. by rewrite Hex, He.
Qed.
End pipeline.
