(* ===== verification/StreamWitness.v ===== *)
(** * Concrete streaming pipelines

    Instances of the claims of [StreamSpec] on small inputs, a pipeline run to its
    end by evaluation, and two observations on [head]. *)

From S2P Require Import Prelude Strings Fs MemFs IndexMap State Pipe Ast Ir Vm VmProps FdTable Router RouterProps Utf8 Stream StreamProps StreamLines StreamLinesProps StreamBytes StreamBytesProps StreamGrep StreamGrepProps StreamSed StreamSedProps StreamArgs StreamStage StreamStageProps StreamProcess StreamProcessProps StreamDrive StreamDriveProps StreamPipeline StreamRuntime StreamRun StreamSpec.

#[local] Existing Instance wasm32.
#[local] Existing Instance ascii_unicode.
#[local] Existing Instance literal_regex.

(** ** Sources *)

Definition text_lines (ls : list str) : str := concat (map (fun l => l ++ [newline]) ls).

Definition fruit : str := text_lines [ #"apple"; #"apple"; #"plum"; #"pineapple" ].

(** In pieces, with an interruption. *)
Definition script : Script := {| events := [Chunk (take 3 fruit); Block; Chunk (drop 3 fruit)]; at_end := Eof |}.

Lemma script_ok : serves script fruit Eof.
Proof. by apply (script_serves [Chunk (take 3 fruit); Block; Chunk (drop 3 fruit)] Eof). Qed.

Definition cursor : Cursor := {| cursor_data := fruit; cursor_pos := 0 |}.

Lemma cursor_ok : source_serves cursor fruit Eof.
Proof. apply cursor_serves. Qed.

Definition some_buffers (n : nat) : list nat := repeat 7%nat n.

Lemma some_buffers_ok n : Forall (fun n => 0 < n)%nat (some_buffers n).
Proof. apply Forall_forall. intros x Hx. apply list_elem_of_In, repeat_spec in Hx as ->. lia. Qed.

(** ** Stages *)

Definition count_groups : StreamingPipelineStage := Uniq
  {| count_lines := true; duplicates_only := false; unique_only := false; ignore_case := false; skip_fields := 0; skip_chars := 0; compare_chars := None |}.

Lemma stage_reads_witness : exists s', eventually (fun f => reads f (some_buffers 60) (stage_new count_groups 0 cursor))
  (s', text_lines [ #"      2 apple"; #"      1 plum"; #"      1 pineapple" ], Some (Ok tt)).
Proof.
  apply (stage_reads count_groups 0 cursor fruit Eof _ Eof (some_buffers 60)); [vm_compute; reflexivity|apply some_buffers_ok|apply cursor_ok|cbn; lia].
Defined.

Definition grep_demo (count : bool) : StreamingGrepStage :=
  {| grep_flags := {| grep_ignore_case := false; invert := false; count_only := count; show_line_numbers := true; files_only := false; word_match := false;
       only_matching := false; StreamGrep.quiet := false; extended := false; fixed := true; after_context := 0; before_context := 0; max_count := None; show_filename := None |};
     patterns := [ #"apple" ] |}.


(** [sed 's/^/> /;2d;$q']. *)
Definition sed_demo : StreamingSedStage :=
  {| suppress_print := false;
     instructions :=
       [ {| sed_addr := AddrNone; sed_cmd := Substitute {| sub_pattern := #"^"; sub_replacement := #"> "; sub_global := false |} |};
         {| sed_addr := AddrLine 2; sed_cmd := Delete |};
         {| sed_addr := AddrLast; sed_cmd := AppendText #"done" |} ] |}.

Lemma sed_demo_tame : Forall (fun i => tame (sed_cmd i)) (instructions sed_demo).
Proof. apply Forall_cons; split; [split; [exists [62; 32]; split; vm_compute; reflexivity|by left]|]. apply Forall_cons; split; [done|]. by apply Forall_cons. Qed.


Lemma wc_counts_witness : exists s', eventually (fun f => reads f (some_buffers 60) (WcStreamReader_new cursor
    {| wc_lines := true; wc_words := true; wc_bytes := true; wc_max_line_length := true |}))
  (s', #"      4       4      27       9" ++ [newline], Some (Ok tt)).
Proof.
  assert (Hl : len fruit <= usize_max) by (apply Z.leb_le; reflexivity).
  apply (wc_counts {| wc_lines := true; wc_words := true; wc_bytes := true; wc_max_line_length := true |} cursor fruit (some_buffers 60)
    cursor_ok Hl (some_buffers_ok 60)). vm_compute. lia.
Defined.

(** ** A pipeline

    [echo ... | uniq -c | head -n 2] in a session without limits whose standard
    output is visible. *)
Definition no_limits : ExecutionLimits := {| step_limit := 0; output_byte_limit := 0; pipe_byte_limit := 0; recursion_limit := 0 |}.

#[local] Instance string_read : MemFs.Read (list Ascii.ascii) := {| read_to_end s := ([], inl s); read_buf s n := (drop n s, inl (take n s)) |}.

Definition demo_session : @Router.Runtime (list Ascii.ascii) unit :=
  {| rt_vm := Vm.with_limits (new_state 7) no_limits; rt_fs := MemFs.new; sinks := ∅; pipes := ∅; current_exec_io := None; output_captures := [];
     Router.resource_exhausted := false; exec_stop_reason := None; proc_subst_out_scopes := [] |}.

Definition no_text (k : ErrorKind) : list Ascii.ascii := #"error".
Definition demo_stages : list (StreamingPipelineStage * bool) := [(count_groups, false); (Head (HeadLines 2), false)].

#[local] Instance demo_reader : Reader (FileReader (list Ascii.ascii)) := FileReader_reader (fun _ => OtherKind 0).
#[local] Instance demo_session_ops : Session (@Router.Runtime (list Ascii.ascii) unit) (FileReader (list Ascii.ascii)) rc := runtime_session no_runner.

Definition demo_run (fuel : nat) (stages : list (StreamingPipelineStage * bool)) : option (str * res io_stop (list Z)) :=
  '(r, x) ← execute_pipebuffer_streaming_pipeline no_text fuel None ((Literal fruit, false) :: stages) demo_session; Some (received r, x).

Definition demo_next : list StreamingPipelineStage := [count_groups; Head (HeadLines 2)].

Lemma streaming_pipeline_delivers_witness : exists r' statuses,
  eventually (fun f => execute_scheduled_pipeline no_runner (fun _ => OtherKind 0) no_text f None (Literal fruit :: demo_next) [None; None; None] [] false demo_session)
    (Some (r', Ok tt)) /\
  received r' = text_lines [ #"      2 apple"; #"      1 plum" ] /\ get_array_values (state (rt_vm r')) #"PIPESTATUS" = map Z_to_string statuses.
Proof.
  destruct (streaming_pipeline_delivers no_runner (fun _ => OtherKind 0) no_text None (Literal fruit) demo_next [None; None; None] [] false demo_session fruit
    (text_lines [ #"      2 apple"; #"      1 plum" ]) ltac:(done) ltac:(done) ltac:(vm_compute; reflexivity) ltac:(by apply Z.leb_le) ltac:(done) ltac:(vm_compute; reflexivity))
    as (r' & statuses & got & rest & Hev & _ & Hp & Hr & Hout & Hcalm).
  exists r', statuses. split; [exact Hev|]. split; [|exact Hp]. rewrite Hr, Hout, (proj1 (Hcalm ltac:(done))), app_nil_r. done.
Defined.

Example demo_pipeline_runs : demo_run 500 demo_stages = Some (text_lines [ #"      2 apple"; #"      1 plum" ], Ok [0; 0; 0]).
Proof. vm_compute. reflexivity. Qed.

(** [head -n 0] behind another stage lets a line through; as a reader it does not. *)
Example head_zero_in_pipeline : demo_run 500 [(Head (HeadLines 0), false)] = Some (#"apple" ++ [newline], Ok [0; 0]).
Proof. vm_compute. reflexivity. Qed.

Example head_zero_reader : snd (reads 100 (some_buffers 9) (stage_new (Head (HeadLines 0)) 0 cursor)) = Some (Ok tt) /\
  snd (fst (reads 100 (some_buffers 9) (stage_new (Head (HeadLines 0)) 0 cursor))) = [].
Proof. vm_compute. split; reflexivity. Qed.
